(* ===== verification/_CoqProject ===== *)
-Q . S2P
Prelude.v
Bytes.v
HostAdmission.v
LeaseTable.v
LeaseFacts.v
LeaseInv.v
LeaseRestore.v
LeaseProps.v
Protocol.v
Message.v
MessageFacts.v
MessageProps.v
Fs.v
FsLogic.v
Identity.v
IdentityFacts.v
Whole.v
Quiet.v
IdentityProps.v
WindowsAcl.v
WindowsAclProps.v
FsAlone.v
LeaseStore.v
LeaseStoreFacts.v
LeaseStoreProps.v
State.v
StateFacts.v
StateInv.v
StateProps.v
Restart.v
FileStore.v
Tunnel.v
Crypto.v
Relay.v
Replies.v
RelayFacts.v
RelayInv.v
RelayProps.v
Registry.v
RegistryRefines.v
CryptoProps.v
RelayStart.v
RegistryLife.v
Bridge.v
Play.v
PlayProps.v
Cli.v
Link.v
LinkFacts.v
HostFacts.v
HostProps.v
CliProps.v
HostLife.v
HostProgress.v
