(* ===== verification/Prelude.v ===== *)
(** * GameNet: a verification development (root file)

    GameNet (src/) tunnels TCP game servers through a relay.  A host runs
    [gamenet host] (crates/cli); it keeps a private 32-byte identity token and a
    recovery key on its disk, connects to the relay over QUIC and registers.  The
    relay (crates/server) leases it one of the ports 10000 to 10999, keeps the
    lease for five minutes after a disconnect, saves the leases to a state file,
    and bridges each player's TCP connection to a QUIC stream of the host.  The
    shared code (crates/core) has the control messages, the identity files, the
    TLS configuration and the byte bridge.

    ** Files, in the order they build on each other

    - This file: results and the state-and-error monad [M] of fallible methods,
      integers at their width, hash maps with an arbitrary iteration order
      ([IterOrder]), inversion tactics.  [Bytes]: byte arrays, strings as
      characters, hexadecimal text, the parameter [Digest] (SHA-256).
    - [HostAdmission] (server/host_admission.rs): network sources, the cap on
      pending registrations of one source.
    - [LeaseTable] (server/lease.rs): the table of leases and its operations.
      [LeaseFacts] has the invariant and a run lemma per operation, [LeaseInv]
      its preservation, [LeaseRestore] saving and restoring, [LeaseProps] the
      properties.
    - [Protocol] (core/protocol.rs, presets.rs), [Message] (core/message.rs), with
      [MessageFacts] and [MessageProps]: control messages and their framing on
      streams that deliver bytes in any pieces and may fail.
    - [Fs]: the calls of std::fs, tempfile and getrandom that the program makes, on
      a file system with two views (what processes see, what survives a power
      loss) and a schedule that lets any call fail and other processes act before
      it.  [FsLogic]: triples for code among processes that only add whole files.
      [FsAlone]: code that has its directory to itself.  [Quiet]: the calls, and the
      host's file operations, succeed when nothing fails.
    - [Identity] (core/identity.rs), [IdentityFacts], [IdentityProps]: the host's
      files, their preparation and replacement.  [Whole]: a logic for the calls that
      replace and rename files as well, among processes that do.  [WindowsAcl],
      [WindowsAclProps] (core/identity/windows_acl.rs): the calls into Win32 that
      make a file private there, with reads and writes out of bounds as undefined
      behaviour.
    - [LeaseStore] (server/lease_store.rs), [LeaseStoreFacts], [LeaseStoreProps]:
      the state file, its format, the migration from the former format.
    - [State] (server/state.rs), [StateFacts], [StateInv], [StateProps]: the table,
      its health and the connections, over the interfaces [Store] and [Network].
      [StoreLaws] speaks of a store by what a restart may find in it ([stored P]:
      it finds records in P); [StateInv.state_saved] keeps the time of the last
      successful write, from which the deadlines on the disk follow; [Restart] adds
      what a crash leaves ([CrashLaws]) and the restart itself.  [FileStore] discharges both with [LeaseStore] on a disk
      that may lose power ([FileStore.lease_store_refines]).
    - [Tunnel] (server/tunnel.rs) and [Relay] (server/relay.rs): the guard of a
      registration in flight, the admission of players, and the relay as one step
      function: an event resumes one task, which goes from one [await] of
      [Tunnel::from_quic], [run] or [cleanup] to the next ([Stage], [from_quic_step],
      [accept_players_step], [stopping_step], [canceled_step]).  [RelayFacts],
      [RelayInv] and [RelayProps]: invariants over every interleaving.  What an
      event asks of the state is [RelayInv.event_op].
      [Replies]: the answers on a control stream, refusals included.
    - [Registry]: the abstract specification, a map from ports to holdings with six
      actions ([act]), without tables, sessions, storage or tasks.
      [RegistryRefines]: the relay implements it, event by event.
      [RegistryLife]: ports over the whole life of a relay, restarts included.
    - [Crypto] (core/crypto.rs), [CryptoProps]: the TLS configurations as what is
      passed to the builders of rustls and quinn.
    - [RelayStart] (server/main.rs, the binding half of server/relay.rs): a start
      with every early return, and the life of a relay that is killed and started
      again any number of times.
    - [Bridge] (core/bridge.rs, server/bridge.rs, cli/bridge.rs): both copies of a
      bridge, polled in any order and joined.  [Play], [PlayProps]: the relay's
      bridge and the host's, joined by a stream of the connection between them, with
      the cancellation of either by the program it runs in.
    - [Cli] (cli/main.rs, cli/tunnel.rs): the host's commands, its three requests
      over the interface [Dialer] to quinn, the resolver and the terminal, the
      agent's loop.
    - [Link]: an implementation of [Dialer] by the relay's own operations, over
      connections that may not come up, lose the request, or cut the answer off
      after any number of bytes.  [LinkFacts], [HostFacts], [HostProps]: host and
      relay together; [CliProps]: the host's program on its own.  [HostLife]: every
      command of a host, its files and the relay over any history.
      [HostProgress]: its commands go through once disk, link and relay work.

    ** What the theorems show

    - End to end ([HostLife], [HostProps], [PlayProps]): once a tunnel was live, the
      host keeps its port over every history of its commands, lost and cut-off
      messages, faults, strangers and crashes of the relay, and what a command
      reports is so; rotating an identity never loses the port, over
      every history of attempts, faults and strangers' requests; a registration
      reported live is an active lease of the identity and key in the host's
      files; a recovery moves exactly the claim of the presented key, and the files
      only grow until the relay has moved it to the pending identity.  What a player
      sends reaches the game server unchanged and in order, and back, and a session
      whose ends are willing can be completed from any point.
    - Progress ([HostProgress]): when nothing fails any more, a tunnel comes up, an
      interrupted rotation is completed by running the command again, and the secret
      recovers the port on any machine; what each needs of the relay (room, a claim
      that may move) is a hypothesis, evaluated in its witness.
    - Relay ([RelayProps]): every active lease has one task that will end it; the
      limits on pending hosts and players are exact; every event does at most one
      action of the abstract registry, the one its task asked for
      ([RegistryRefines.relay_refines_registry]), and a port that is kept goes to
      nobody else without its token or key, over any crashes, as long as no start
      comes after the term on the disk ([RegistryLife.port_never_stolen]); without
      arrivals every schedule of the tasks ends, with all permits back and no active
      lease.  All of it holds again after every crash and start
      ([RelayStart.relay_survives_crashes]).
    - State and store ([StateProps], [FileStore], [LeaseStoreProps]): connections are kept for
      exactly the active sessions; nothing is acknowledged before it is saved; a
      crash of a healthy relay, power failure included, loses no claim: a claim whose
      host had left keeps its deadline, one whose host was connected gets 300 seconds
      from the last write; the state file can always be restarted from; the migration
      never loses a reservation; an unknown file is left alone.
    - Leases ([LeaseProps]): well-formedness over every history, reservation of
      live claims, the reconnect window, quotas, rotation and recovery on every
      branch, what a restart keeps and what it accepts, independence of the hash
      map's order.
    - Host ([IdentityProps], [CliProps]): files are whole and private under any
      interleaving of processes and calls, installations included, and on Windows
      open to their owner alone whatever call fails ([WindowsAclProps]); first use
      agrees, recovery codes read back, reconnecting backs off to 15 seconds.
    - Transport ([MessageProps], [Bridge], [CryptoProps]): framing round trips
      under fragmentation and failure; the bridge loses and mixes no byte and
      finishes, and a session passes an end on only after everything, or after a
      bridge failed or was cancelled (the relay cancels its bridges with the
      connection open: [PlayProps.relay_abort_truncates]); certificates are only
      what was configured, and the key exchange only the hybrid one.

    ** Bounds and fuel

    [Message.read_exact] has a round per byte (each read makes progress);
    [recv_all] one per byte and one more, proved enough in [MessageFacts].
    [Fs.resolve] follows 40 symbolic links, as the kernel does.  The relay and the
    bridge have no fuel: they are sequences of events of any length, and that
    these end is proved ([RelayProps.drain_terminates], [Bridge.bridge_completes]); a session of two
    bridges is such a sequence as well.

    ** Parameters

    SHA-256, bincode, serde_json, tempfile, rustls, quinn, rcgen, Win32 and the
    texts of errors are parameters; the classes with [Law], [Laws] or [Progress] in their names state
    what their documentation promises and the code relies on, and each property
    that uses one has an instance to evaluate.  Token distinctness is never
    assumed beyond what the code checks; a stranger is somebody who does not
    present the host's token or key.

    ** Not modelled

    The relay dies between two events.  A death inside a save is a save that fails at
    that system call, followed by the death: the file then has the table before the
    save or the one after it ([State.StoreLaws]), and the relay that starts again is
    covered by all invariants, while the theorems on the claims it finds speak of a
    storage that was healthy when the relay died.

    The log, argument parsing (clap), the runtime's own scheduling beyond "any task
    may go on next", the closing of the relay's endpoint (the relay serves until it
    is killed), test code, and the inside of the libraries above.  [Play] has the
    stream between two bridges as bytes that arrive late, in any pieces, or not at
    all, without its flow control.  A registration that times out while a
    port is being bound is [State.register_abandoned]. *)

From Stdlib Require Export ZArith Lia.
From stdpp Require Export base tactics decidable option gmap strings numbers.
From stdpp Require Export list.

#[global] Open Scope Z_scope.

(** ** Results: Rust's [anyhow::Result], with the error kinds the code inspects *)

(** The [std::io::ErrorKind]s the program distinguishes. *)
Inductive ErrorKind := NotFound | AlreadyExists | AddrInUse | UnexpectedEof | OtherKind.

(** [anyhow::Error]: a fixed text ([ensure!], [bail!], [anyhow!]), a text with
    formatted arguments, an [io::Error] (which callers may downcast), or an
    error value made by a third-party library. *)
Inductive error :=
  | Msg (text : string)
  | MsgArgs (text : string) (args : list Z)
  | Io (kind : ErrorKind)
  | External (text : string).

Inductive result (A : Type) :=
  | Ok (a : A)
  | Err (e : error).
Arguments Ok {A} a.
Arguments Err {A} e.

#[global] Instance ErrorKind_eq_dec : EqDecision ErrorKind.
Proof. solve_decision. Defined.
#[global] Instance error_eq_dec : EqDecision error.
Proof. solve_decision. Defined.
#[global] Instance result_eq_dec `{EqDecision A} : EqDecision (result A).
Proof. solve_decision. Defined.

#[global] Instance result_ret : MRet result := λ A a, Ok a.
#[global] Instance result_bind : MBind result := λ A B f m,
  match m with Ok a => f a | Err e => Err e end.
#[global] Instance result_fmap : FMap result := λ A B f m,
  match m with Ok a => Ok (f a) | Err e => Err e end.

Definition is_ok {A} (r : result A) : bool :=
  match r with Ok _ => true | Err _ => false end.

(** [Option::ok_or_else]. *)
Definition ok_or {A} (o : option A) (e : error) : result A :=
  match o with Some a => Ok a | None => Err e end.

(** [anyhow::ensure!] in a function without mutable state. *)
Definition check (b : bool) (e : error) : result unit :=
  if b then Ok tt else Err e.

(** [iter.map(f).collect::<anyhow::Result<Vec<_>>>()]: stops at the first error. *)
Fixpoint collect {A B} (f : A → result B) (l : list A) : result (list B) :=
  match l with
  | [] => Ok []
  | x :: l => match f x with
              | Ok y => match collect f l with Ok ys => Ok (y :: ys) | Err e => Err e end
              | Err e => Err e
              end
  end.

(** A [for] loop whose body may return early with an error. *)
Fixpoint try_fold {A B} (f : B → A → result B) (b : B) (l : list A) : result B :=
  match l with
  | [] => Ok b
  | x :: l => match f b x with Ok b' => try_fold f b' l | Err e => Err e end
  end.

(** ** A state and error monad: [&mut self] methods returning [anyhow::Result].
    An error keeps the mutations made before it, as in Rust. *)
Definition M (S A : Type) : Type := S → result A * S.

#[global] Instance M_ret S : MRet (M S) := λ A a s, (Ok a, s).
#[global] Instance M_bind S : MBind (M S) := λ A B f m s,
  match m s with
  | (Ok a, s') => f a s'
  | (Err e, s') => (Err e, s')
  end.

Definition get {S} : M S S := λ s, (Ok s, s).
Definition put {S} (s' : S) : M S unit := λ _, (Ok tt, s').
Definition modify {S} (f : S → S) : M S unit := λ s, (Ok tt, f s).
Definition fail {S A} (e : error) : M S A := λ s, (Err e, s).
Definition lift {S A} (r : result A) : M S A := λ s, (r, s).
(** [anyhow::ensure!] and [anyhow::bail!] in a method. *)
Definition ensure {S} (b : bool) (e : error) : M S unit :=
  λ s, (if b then Ok tt else Err e, s).
(** [match m { Ok(..) => .., Err(..) => .. }]: the outcome as a value. *)
Definition attempt {S A} (m : M S A) : M S (result A) :=
  λ s, (Ok (m s).1, (m s).2).

(** ** Machine integers: values are kept in [Z], inside their width. *)
Definition U16_MAX : Z := 65535.
Definition U32_MAX : Z := 4294967295.
Definition U64_MAX : Z := 18446744073709551615.
Definition u16_ok (z : Z) : Prop := 0 ≤ z ≤ U16_MAX.
Definition u64_ok (z : Z) : Prop := 0 ≤ z ≤ U64_MAX.

(** [u64::saturating_add] and [u64::checked_add]. *)
Definition saturating_add_u64 (a b : Z) : Z := Z.min (a + b) U64_MAX.
Definition checked_add_u64 (a b : Z) : option Z :=
  if a + b <=? U64_MAX then Some (a + b) else None.

(** ** Inversion principles for the two monads *)

Lemma result_bind_ok {A B} (m : result A) (f : A → result B) b :
  m ≫= f = Ok b ↔ ∃ a, m = Ok a ∧ f a = Ok b.
Proof. destruct m; cbn; naive_solver. Qed.

Lemma check_ok b e u : check b e = Ok u ↔ b = true.
Proof. destruct b, u; cbn; naive_solver. Qed.

Lemma ok_or_ok {A} (o : option A) e a : ok_or o e = Ok a ↔ o = Some a.
Proof. destruct o; cbn; naive_solver. Qed.

Lemma M_bind_ok {S A B} (m : M S A) (f : A → M S B) s b s' :
  (m ≫= f) s = (Ok b, s') ↔ ∃ a s1, m s = (Ok a, s1) ∧ f a s1 = (Ok b, s').
Proof.
  unfold mbind, M_bind. destruct (m s) as [[a|e] s1]; naive_solver.
Qed.

Lemma M_bind_err {S A B} (m : M S A) (f : A → M S B) s e s' :
  (m ≫= f) s = (Err e, s') ↔
  m s = (Err e, s') ∨ ∃ a s1, m s = (Ok a, s1) ∧ f a s1 = (Err e, s').
Proof.
  unfold mbind, M_bind. destruct (m s) as [[a|e'] s1]; naive_solver.
Qed.

Lemma M_bind_run {S A B} (m : M S A) (f : A → M S B) s a s1 :
  m s = (Ok a, s1) → (m ≫= f) s = f a s1.
Proof. unfold mbind, M_bind. by intros ->. Qed.

Lemma M_bind_run_err {S A B} (m : M S A) (f : A → M S B) s e s1 :
  m s = (Err e, s1) → (m ≫= f) s = (Err e, s1).
Proof. unfold mbind, M_bind. by intros ->. Qed.

Lemma ensure_ok {S} b e (s : S) u s' : ensure b e s = (Ok u, s') ↔ b = true ∧ s' = s.
Proof. unfold ensure. destruct b, u; naive_solver. Qed.

Lemma ensure_err {S} b e e' (s : S) s' :
  ensure b e s = (Err e', s') ↔ b = false ∧ e' = e ∧ s' = s.
Proof. unfold ensure. destruct b; naive_solver. Qed.

Lemma lift_ok {S A} (r : result A) (s : S) a s' : lift r s = (Ok a, s') ↔ r = Ok a ∧ s' = s.
Proof. unfold lift. naive_solver. Qed.

Lemma attempt_ok {S A} (m : M S A) (s : S) r s' : attempt m s = (Ok r, s') ↔ m s = (r, s').
Proof. unfold attempt. destruct (m s); cbn. split; congruence. Qed.

Lemma mret_ok {S A} (a b : A) (s s' : S) :
  (mret a : M S A) s = (Ok b, s') ↔ b = a ∧ s' = s.
Proof. unfold mret, M_ret. naive_solver. Qed.

Lemma collect_ok {A B} (f : A → result B) l ys :
  collect f l = Ok ys ↔ Forall2 (λ x y, f x = Ok y) l ys.
Proof.
  revert ys. induction l as [|x l IH]; intros ys; cbn.
  - split; [by intros [= <-]|by inversion 1].
  - split.
    + destruct (f x) eqn:Hx; [|done]. destruct (collect f l) eqn:Hl; [|done].
      intros [= <-]. constructor; [done|]. by apply IH.
    + inversion 1 as [|? y ? ys' Hx Hl]; subst. apply IH in Hl. by rewrite Hx, Hl.
Qed.

(** ** Automation *)

(** Takes a successful run of monadic code apart, one statement at a time. *)
Ltac inv_ok1 :=
  match goal with
  | H : (_ ≫= _) _ = (Ok _, _) |- _ =>
      let a := fresh "a" in let s := fresh "s" in let H1 := fresh "H" in
      apply M_bind_ok in H; destruct H as (a & s & H1 & H)
  | H : ensure _ _ _ = (Ok _, _) |- _ => apply ensure_ok in H; destruct H as [H ?]; subst
  | H : attempt _ _ = (Ok _, _) |- _ => apply (proj1 (attempt_ok _ _ _ _)) in H
  | H : lift _ _ = (Ok _, _) |- _ => apply lift_ok in H; destruct H as [H ?]; subst
  | H : get _ = (Ok _, _) |- _ => unfold get in H; simplify_eq
  | H : put _ _ = (Ok _, _) |- _ => unfold put in H; simplify_eq
  | H : modify _ _ = (Ok _, _) |- _ => unfold modify in H; simplify_eq
  | H : fail _ _ = (Ok _, _) |- _ => unfold fail in H; simplify_eq
  | H : mret _ _ = (Ok _, _) |- _ => apply mret_ok in H; destruct H as [? ?]; subst
  | H : (_ ≫= _) = Ok _ |- _ =>
      let a := fresh "a" in let H1 := fresh "H" in
      apply result_bind_ok in H; destruct H as (a & H1 & H)
  | H : check _ _ = Ok _ |- _ => apply check_ok in H
  | H : ok_or _ _ = Ok _ |- _ => apply ok_or_ok in H
  end.
Ltac inv_ok := repeat (inv_ok1; cbn beta iota zeta in * ).

(** Takes a run with a known outcome apart by evaluating every branch. *)
Ltac run_cases H :=
  unfold modify, ensure, lift, fail, get, put, mbind, M_bind, mret, M_ret in H;
  repeat (case_match; simplify_eq/=; try done).

(** Steps over a statement whose run is an equation in the context. *)
Tactic Notation "step" "by" tactic(tac) :=
  erewrite M_bind_run; [|by unfold ensure, lift; tac].

(** Turns the boolean guards of the code into propositions. *)
Ltac bool_prop :=
  repeat match goal with
  | H : _ && _ = true |- _ => apply andb_true_iff in H; destruct H
  | H : negb _ = true |- _ => apply negb_true_iff in H
  | H : negb _ = false |- _ => apply negb_false_iff in H
  | H : bool_decide _ = true |- _ => apply bool_decide_eq_true_1 in H
  | H : bool_decide _ = false |- _ => apply bool_decide_eq_false_1 in H
  | H : (_ <=? _) = true |- _ => apply Z.leb_le in H
  | H : (_ <? _) = true |- _ => apply Z.ltb_lt in H
  | H : (_ <=? _) = false |- _ => apply Z.leb_gt in H
  | H : (_ <? _) = false |- _ => apply Z.ltb_ge in H
  end.

(** Closes a fact about concrete values by evaluating it. *)
Ltac concrete :=
  first [reflexivity | done | vm_compute; congruence].

(** The same for an equation between large values, by the virtual machine alone. *)
Ltac computed := match goal with |- ?a = _ => vm_cast_no_check (@eq_refl _ a) end.

Create HintDb gamenet.
#[export] Hint Unfold u16_ok u64_ok U16_MAX U32_MAX U64_MAX : gamenet.

(** ** Integers *)

Lemma saturating_add_u64_ok a b : 0 ≤ a → 0 ≤ b → u64_ok (saturating_add_u64 a b).
Proof. unfold u64_ok, saturating_add_u64, U64_MAX. lia. Qed.

Lemma saturating_add_u64_mono a b c : a ≤ b → saturating_add_u64 a c ≤ saturating_add_u64 b c.
Proof. unfold saturating_add_u64. lia. Qed.

Lemma saturating_add_u64_exact a b : a + b ≤ U64_MAX → saturating_add_u64 a b = a + b.
Proof. unfold saturating_add_u64. lia. Qed.

Lemma checked_add_u64_Some a b c : checked_add_u64 a b = Some c ↔ c = a + b ∧ a + b ≤ U64_MAX.
Proof. unfold checked_add_u64. destruct (Z.leb_spec (a + b) U64_MAX); naive_solver lia. Qed.

#[export] Hint Resolve saturating_add_u64_ok saturating_add_u64_mono : gamenet.

(** ** Hash maps

    A [HashMap] is a [gmap]; its iteration order is unspecified, so whatever
    iterates takes the order as a parameter: any enumeration of the entries. *)
Class IterOrder (K A : Type) `{Countable K} := {
  iter : gmap K A → list (K * A);
  iter_perm m : iter m ≡ₚ map_to_list m;
}.

(** One such order. *)
Definition gmap_order {K A} `{Countable K} : IterOrder K A :=
  {| iter := map_to_list; iter_perm := λ _, reflexivity _ |}.

Section iter_order.
Context {K A : Type} `{Countable K} `{!IterOrder K A}.
Implicit Types m : gmap K A.

Lemma elem_of_iter m k x : (k, x) ∈ iter m ↔ m !! k = Some x.
Proof. by rewrite iter_perm, elem_of_map_to_list. Qed.

Lemma NoDup_iter_keys m : NoDup (iter m).*1.
Proof. rewrite iter_perm. apply NoDup_fst_map_to_list. Qed.

Lemma NoDup_iter m : NoDup (iter m).
Proof. eapply NoDup_fmap_1, NoDup_iter_keys. Qed.

Lemma length_iter m : length (iter m) = size m.
Proof. by rewrite iter_perm, length_map_to_list. Qed.

Lemma values_elem_of m x : x ∈ (iter m).*2 ↔ ∃ k, m !! k = Some x.
Proof.
  rewrite list_elem_of_fmap. split.
  - intros ([k y] & -> & Hk). exists k. by apply elem_of_iter.
  - intros [k Hk]. exists (k, x). split; [done|]. by apply elem_of_iter.
Qed.

(** [iter.any(f)] *)
Lemma existsb_iter (f : K * A → bool) m :
  existsb f (iter m) = true ↔ ∃ k x, m !! k = Some x ∧ f (k, x) = true.
Proof.
  rewrite existsb_exists. split.
  - intros ([k x] & Hx & Hf). exists k, x. split; [|done].
    by apply elem_of_iter, list_elem_of_In.
  - intros (k & x & Hk & Hf). exists (k, x). split; [|done].
    by apply list_elem_of_In, elem_of_iter.
Qed.

Lemma existsb_iter_false (f : K * A → bool) m :
  existsb f (iter m) = false ↔ ∀ k x, m !! k = Some x → f (k, x) = false.
Proof.
  rewrite <- not_true_iff_false, existsb_iter. split.
  - intros Hn k x Hk. apply not_true_iff_false. intros ?. apply Hn. eauto.
  - intros Hall (k & x & Hk & Hf). by rewrite Hall in Hf.
Qed.
End iter_order.

(** ** Lists and maps *)

(** [existsb] on booleans made by [bool_decide]. *)
Lemma existsb_bool_decide {A} (P : A → Prop) `{∀ x, Decision (P x)} l :
  existsb (λ x, bool_decide (P x)) l = true ↔ ∃ x, x ∈ l ∧ P x.
Proof.
  rewrite existsb_exists. split; intros (x & Hx & HP); exists x.
  - rewrite list_elem_of_In. by bool_prop.
  - rewrite <- list_elem_of_In. rewrite bool_decide_true; auto.
Qed.

Lemma existsb_false {A} (f : A → bool) l : existsb f l = false ↔ ∀ x, x ∈ l → f x = false.
Proof.
  induction l as [|y l IH]; cbn.
  - split; [by intros _ x ?%elem_of_nil|done].
  - rewrite orb_false_iff, IH. setoid_rewrite elem_of_cons. naive_solver.
Qed.

Lemma elem_of_seqZ_iff x s n : x ∈ seqZ s n ↔ s ≤ x < s + n.
Proof. apply elem_of_seqZ. Qed.
