(* ===== verification/Bytes.v ===== *)
(** Fixed-size byte arrays ([[u8; N]]), Rust strings as sequences of Unicode
    scalar values, and the hexadecimal text the program stores identities in. *)

From Stdlib Require Import Strings.Byte.
From S2P Require Import Prelude.

(** ** Byte arrays *)

#[global] Instance byte_eq_dec : EqDecision byte := Byte.byte_eq_dec.

#[global] Instance byte_countable : Countable byte :=
  inj_countable Byte.to_N Byte.of_N Byte.of_to_N.

(** [[u8; n]]: the length is part of the type, as in Rust. *)
Record bytes (n : nat) := Bytes {
  bytes_list : list byte;
  bytes_len : length bytes_list = n;
}.
Arguments Bytes {n} _ _.
Arguments bytes_list {n} _.
Arguments bytes_len {n} _.

(** [Vec<u8>::try_into::<[u8; n]>] and slices of a known length. *)
Definition to_array (n : nat) (l : list byte) : option (bytes n) :=
  match decide (length l = n) with
  | left H => Some (Bytes l H)
  | right _ => None
  end.

(** [[b; n]]; the length proof is transparent, so concrete arrays compute. *)
Fixpoint repeat_length (n : nat) (b : byte) : length (replicate n b) = n :=
  match n with
  | O => eq_refl
  | S n => f_equal S (repeat_length n b)
  end.
Definition repeat_byte (n : nat) (b : byte) : bytes n :=
  Bytes (replicate n b) (repeat_length n b).

Lemma bytes_eq {n} (a b : bytes n) : bytes_list a = bytes_list b → a = b.
Proof.
  destruct a as [a Ha], b as [b Hb]; cbn. intros ->. f_equal. apply proof_irrel.
Qed.

#[global] Instance bytes_eq_dec n : EqDecision (bytes n).
Proof.
  refine (λ a b, cast_if (decide (bytes_list a = bytes_list b))).
  - by apply bytes_eq.
  - abstract (by intros ->).
Defined.

Lemma to_array_list {n} (a : bytes n) : to_array n (bytes_list a) = Some a.
Proof.
  unfold to_array. case_decide as H; [|by destruct H; apply bytes_len].
  f_equal. by apply bytes_eq.
Qed.

Lemma to_array_Some n l a : to_array n l = Some a ↔ bytes_list a = l.
Proof.
  split.
  - unfold to_array. case_decide; naive_solver.
  - intros <-. apply to_array_list.
Qed.

#[global] Instance bytes_countable n : Countable (bytes n).
Proof.
  refine (inj_countable bytes_list (to_array n) to_array_list).
Defined.

(** [pub type TunnelToken = [u8; 32]]. *)
Definition TunnelToken := bytes 32.

(** SHA-256 as [ring::digest::digest] computes it: the code relies on its
    32-byte output (the [expect] of the callers) and on nothing else of it
    except where a theorem says so. *)
Class Digest := { sha256 : list byte → bytes 32 }.

(** ** Strings *)

(** A [&str] as its Unicode scalar values. *)
Definition str := list Z.

(** Length of a character in UTF-8, so [str_len] is [str::len]. *)
Definition utf8_len (c : Z) : nat :=
  if c <? 128 then 1 else if c <? 2048 then 2 else if c <? 65536 then 3 else 4.
Definition str_len (s : str) : nat := sum_list_with utf8_len s.

(** [str::is_ascii]. *)
Definition is_ascii (s : str) : bool := forallb (λ c, c <? 128) s.

(** [char::is_whitespace]: the Unicode [White_Space] property. *)
Definition is_whitespace (c : Z) : bool :=
  ((9 <=? c) && (c <=? 13)) || (c =? 32) || (c =? 133) || (c =? 160) || (c =? 5760)
  || ((8192 <=? c) && (c <=? 8202)) || (c =? 8232) || (c =? 8233) || (c =? 8239)
  || (c =? 8287) || (c =? 12288).

Fixpoint trim_start (s : str) : str :=
  match s with
  | c :: s' => if is_whitespace c then trim_start s' else s
  | [] => []
  end.
(** [str::trim]. *)
Definition trim (s : str) : str := reverse (trim_start (reverse (trim_start s))).

(** Decoding of an ASCII literal of the source. *)
Definition lit (s : string) : str :=
  (λ a, Z.of_N (Ascii.N_of_ascii a)) <$> String.list_ascii_of_string s.

(** [u8::is_ascii_hexdigit] and [u8::is_ascii_uppercase]. *)
Definition is_ascii_hexdigit (c : Z) : bool :=
  ((48 <=? c) && (c <=? 57)) || ((97 <=? c) && (c <=? 102)) || ((65 <=? c) && (c <=? 70)).
Definition is_ascii_uppercase (c : Z) : bool := (65 <=? c) && (c <=? 90).

(** ** Hexadecimal text *)

(** [char::to_digit(16)]. *)
Definition hex_digit (c : Z) : option Z :=
  if (48 <=? c) && (c <=? 57) then Some (c - 48)
  else if (97 <=? c) && (c <=? 102) then Some (c - 87)
  else if (65 <=? c) && (c <=? 70) then Some (c - 55)
  else None.

(** The digit loop of [from_str_radix], with its overflow check. *)
Fixpoint u8_digits (acc : Z) (s : str) : option Z :=
  match s with
  | [] => Some acc
  | c :: s' => match hex_digit c with
               | Some d => if acc * 16 + d <=? 255 then u8_digits (acc * 16 + d) s' else None
               | None => None
               end
  end.

(** [u8::from_str_radix(s, 16)]: one leading plus sign is accepted, a minus
    sign is not a digit of an unsigned type, and a lone sign is an error. *)
Definition u8_from_str_radix_16 (s : str) : result byte :=
  let e := External "invalid digit found in string" in
  match s with
  | [] => Err e
  | [c] => if (c =? 43) || (c =? 45) then Err e else
           ok_or (v ← u8_digits 0 s; Byte.of_N (Z.to_N v)) e
  | c :: s' => ok_or (v ← u8_digits 0 (if c =? 43 then s' else s); Byte.of_N (Z.to_N v)) e
  end.

(** [&s[i * 2 .. i * 2 + 2]] of an ASCII string. *)
Definition hex_pair (s : str) (i : nat) : str := take 2 (drop (i * 2) s).

(** The [write!(code, "{byte:02x}")] loop. *)
Definition hex_char (d : Z) : Z := if d <? 10 then 48 + d else 87 + d.
Definition hex_byte (b : byte) : str :=
  let v := Z.of_N (Byte.to_N b) in [hex_char (v / 16); hex_char (v mod 16)].
Definition hex_of (l : list byte) : str := l ≫= hex_byte.

(** The loop [for (index, slot) in bytes.iter_mut().enumerate()] that both
    parsers share: pair [i] of the text becomes byte [i]. *)
Definition parse_hex_bytes (n : nat) (s : str) : result (bytes n) :=
  l ← collect (λ i, u8_from_str_radix_16 (hex_pair s i)) (seq 0 n);
  ok_or (to_array n l) (External "unreachable: the loop fills the array").

(** ** Lemmas *)

Lemma hex_byte_roundtrip b : u8_from_str_radix_16 (hex_byte b) = Ok b.
Proof. by destruct b. Qed.

Lemma length_hex_byte b : length (hex_byte b) = 2%nat.
Proof. done. Qed.

Lemma hex_byte_ascii b : Forall (λ c, is_ascii_hexdigit c = true ∧ is_ascii_uppercase c = false
                                     ∧ is_whitespace c = false ∧ 0 ≤ c < 128) (hex_byte b).
Proof. by destruct b; repeat constructor; cbn. Qed.

Lemma hex_of_cons b l : hex_of (b :: l) = hex_byte b ++ hex_of l.
Proof. done. Qed.

Lemma hex_of_chars l : Forall (λ c, is_ascii_hexdigit c = true ∧ is_ascii_uppercase c = false
                                   ∧ is_whitespace c = false ∧ 0 ≤ c < 128) (hex_of l).
Proof.
  induction l as [|b l IH]; [constructor|]. rewrite hex_of_cons.
  apply Forall_app. split; [apply hex_byte_ascii|done].
Qed.

Lemma length_hex_of l : length (hex_of l) = (2 * length l)%nat.
Proof. induction l as [|b l IH]; [done|]. rewrite hex_of_cons, length_app, IH. cbn. lia. Qed.

Lemma hex_pair_cons b l i : hex_pair (hex_byte b ++ l) (S i) = hex_pair l i.
Proof. done. Qed.

(** Every byte of the text of a list of bytes parses back to the byte. *)
Lemma collect_hex_of l :
  collect (λ i, u8_from_str_radix_16 (hex_pair (hex_of l) i)) (seq 0 (length l)) = Ok l.
Proof.
  apply collect_ok. induction l as [|b l IH]; cbn [length seq]; constructor.
  - replace (hex_pair (hex_of (b :: l)) 0) with (hex_byte b) by done.
    apply hex_byte_roundtrip.
  - rewrite <- fmap_S_seq. apply Forall2_fmap_l.
    eapply Forall2_impl; [exact IH|]. intros i x. unfold compose. done.
Qed.

Lemma parse_hex_bytes_hex_of n (a : bytes n) : parse_hex_bytes n (hex_of (bytes_list a)) = Ok a.
Proof.
  destruct a as [l <-]. unfold parse_hex_bytes. cbn [bytes_list]. rewrite collect_hex_of.
  cbn. apply ok_or_ok. apply (to_array_list (Bytes l eq_refl)).
Qed.

Lemma hex_of_ascii l : is_ascii (hex_of l) = true.
Proof.
  unfold is_ascii. apply forallb_forall. intros c Hc.
  pose proof (hex_of_chars l) as H. rewrite Forall_forall in H.
  apply list_elem_of_In, H in Hc. apply Z.ltb_lt. lia.
Qed.

Lemma str_len_ascii s : Forall (λ c, c < 128) s → str_len s = length s.
Proof.
  unfold str_len. induction 1 as [|c s Hc _ IH]; [done|]. cbn. rewrite IH.
  unfold utf8_len. by rewrite (proj2 (Z.ltb_lt c 128)).
Qed.

Lemma str_len_hex_of l : str_len (hex_of l) = (2 * length l)%nat.
Proof.
  rewrite str_len_ascii; [apply length_hex_of|].
  eapply Forall_impl; [apply hex_of_chars|]. cbn; lia.
Qed.

Lemma trim_start_id s : Forall (λ c, is_whitespace c = false) s → trim_start s = s.
Proof. intros H. destruct H as [|c s Hc H]; [done|]. cbn. by rewrite Hc. Qed.

Lemma trim_id s : Forall (λ c, is_whitespace c = false) s → trim s = s.
Proof.
  intros H. unfold trim. rewrite (trim_start_id s H), trim_start_id.
  - apply reverse_involutive.
  - by apply Forall_reverse.
Qed.

Lemma trim_hex_of l : trim (hex_of l) = hex_of l.
Proof.
  apply trim_id. eapply Forall_impl; [apply hex_of_chars|]. cbn; naive_solver.
Qed.

#[export] Hint Rewrite @to_array_list @parse_hex_bytes_hex_of @hex_of_ascii @str_len_hex_of
  @trim_hex_of @bytes_len : gamenet.

(** ** What the parsers accept *)

Lemma hex_digit_spec c : hex_digit c =
  if is_ascii_hexdigit c
  then Some (if c <=? 57 then c - 48 else if c <=? 70 then c - 55 else c - 87) else None.
Proof.
  unfold hex_digit, is_ascii_hexdigit.
  repeat match goal with |- context [?a <=? ?b] => destruct (Z.leb_spec a b); cbn end;
    try lia; done.
Qed.

Lemma hex_digit_range c d : hex_digit c = Some d → 0 ≤ d ≤ 15.
Proof. unfold hex_digit. repeat case_match; bool_prop; intros [= <-]; lia. Qed.

Lemma byte_of_Z_Some v : 0 ≤ v ≤ 255 → is_Some (Byte.of_N (Z.to_N v)).
Proof.
  intros Hv. destruct (Byte.of_N (Z.to_N v)) eqn:E; [done|].
  apply Byte.of_N_None_iff in E. lia.
Qed.

(** Two characters make a byte when the second is a hex digit and the first is
    one, or a plus sign. *)
Lemma u8_pair_ok a b :
  is_ok (u8_from_str_radix_16 [a; b]) = (is_ascii_hexdigit a || (a =? 43)) && is_ascii_hexdigit b.
Proof.
  assert (Hok : ∀ v, 0 ≤ v ≤ 255 →
    is_ok (ok_or (Byte.of_N (Z.to_N v)) (External "invalid digit found in string")) = true).
  { intros v Hv. destruct (byte_of_Z_Some v Hv) as [x ->]. done. }
  unfold u8_from_str_radix_16. destruct (Z.eqb_spec a 43) as [->|Ha].
  - cbn [u8_digits]. pose proof (hex_digit_range b) as Hr. rewrite hex_digit_spec in *. rewrite orb_true_r.
    destruct (is_ascii_hexdigit b); [|done]. specialize (Hr _ eq_refl).
    rewrite (proj2 (Z.leb_le _ 255)) by lia. cbn [mbind option_bind andb]. apply Hok. lia.
  - cbn [u8_digits]. pose proof (hex_digit_range a) as Hr. pose proof (hex_digit_range b) as Hr'.
    rewrite !hex_digit_spec in *. rewrite orb_false_r.
    destruct (is_ascii_hexdigit a); [|done]. specialize (Hr _ eq_refl).
    rewrite (proj2 (Z.leb_le _ 255)) by lia.
    destruct (is_ascii_hexdigit b); [|done]. specialize (Hr' _ eq_refl).
    rewrite (proj2 (Z.leb_le _ 255)) by lia. cbn [mbind option_bind andb]. apply Hok. lia.
Qed.

(** ** Trimming and pairs *)

Lemma trim_start_pad ws s : forallb is_whitespace ws = true → trim_start (ws ++ s) = trim_start s.
Proof.
  induction ws as [|c ws IH]; cbn; [done|]. rewrite andb_true_iff. intros [-> H]. by apply IH.
Qed.

(** White space around a text that has none inside. *)
Lemma trim_pad ws1 l ws2 : forallb is_whitespace ws1 = true → forallb is_whitespace ws2 = true →
  trim (ws1 ++ hex_of l ++ ws2) = hex_of l.
Proof.
  intros H1 H2.
  assert (Hws : Forall (λ c, is_whitespace c = false) (hex_of l)).
  { eapply Forall_impl; [apply hex_of_chars|]. cbn; naive_solver. }
  assert (Hrev : forallb is_whitespace (reverse ws2) = true).
  { rewrite forallb_forall in H2 |- *. intros c Hc. apply H2.
    by rewrite <- list_elem_of_In, elem_of_reverse, list_elem_of_In in *. }
  unfold trim. rewrite trim_start_pad by done. destruct (hex_of l) as [|c s] eqn:E.
  - cbn. enough (trim_start ws2 = []) as -> by done.
    rewrite <- (app_nil_r ws2). by rewrite trim_start_pad.
  - inversion Hws as [|? ? Hc _]; subst. cbn [app trim_start]. rewrite Hc.
    change (c :: s ++ ws2) with ((c :: s) ++ ws2). rewrite reverse_app, trim_start_pad by done.
    rewrite trim_start_id by (by apply Forall_reverse). apply reverse_involutive.
Qed.

Lemma is_ascii_Forall s : is_ascii s = true → Forall (λ c, c < 128) s.
Proof.
  unfold is_ascii. rewrite forallb_forall, Forall_forall. intros H c Hc.
  apply list_elem_of_In, H in Hc. by apply Z.ltb_lt.
Qed.

Lemma hex_pair_two s i : (i * 2 + 2 ≤ length s)%nat → ∃ a b, hex_pair s i = [a; b].
Proof.
  intros Hl. unfold hex_pair. assert (Hd : (2 ≤ length (drop (i * 2) s))%nat).
  { rewrite length_drop. lia. }
  destruct (drop (i * 2) s) as [|a [|b l]]; [cbn in Hd; lia..|]. by exists a, b.
Qed.

Lemma hex_pair_S a b s i : hex_pair (a :: b :: s) (S i) = hex_pair s i.
Proof. done. Qed.

(** A text is ASCII when its pairs are. *)
Lemma ascii_of_pairs n s : length s = (2 * n)%nat →
  (∀ i, (i < n)%nat → ∃ a b, hex_pair s i = [a; b] ∧ a < 128 ∧ b < 128) → is_ascii s = true.
Proof.
  revert s. induction n as [|n IH]; intros s Hl Hall; [by destruct s|].
  destruct s as [|a [|b s]]; [cbn in Hl; lia..|].
  destruct (Hall 0%nat) as (a' & b' & Hp & Ha & Hb); [lia|]. cbn in Hp. simplify_eq.
  cbn. rewrite (proj2 (Z.ltb_lt _ _)), (proj2 (Z.ltb_lt _ _)) by done. cbn. apply IH.
  - cbn in Hl. lia.
  - intros i Hi. destruct (Hall (S i)) as (x & y & Hp' & ?); [lia|]. rewrite hex_pair_S in Hp'.
    by exists x, y.
Qed.

Lemma pair_chars_ascii a b :
  (is_ascii_hexdigit a || (a =? 43)) && is_ascii_hexdigit b = true → a < 128 ∧ b < 128.
Proof. unfold is_ascii_hexdigit. lia. Qed.

(** ** Concrete parameters

    Instances of the parameters of the model, for its concrete examples. *)

(** The binary digits of a number, as bytes. *)
Fixpoint bits_of (p : positive) : list byte :=
  match p with
  | xH => []
  | xO p => x00 :: bits_of p
  | xI p => x01 :: bits_of p
  end.
Fixpoint of_bits (l : list byte) : option positive :=
  match l with
  | [] => Some xH
  | b :: l => p ← of_bits l;
      if decide (b = x00) then Some (xO p) else if decide (b = x01) then Some (xI p) else None
  end.

Lemma of_bits_of p : of_bits (bits_of p) = Some p.
Proof. induction p as [p IH|p IH|]; cbn; [by rewrite IH..|done]. Qed.

(** A digest that is injective on tokens. *)
Definition first_32 : Digest := {| sha256 l := default (repeat_byte 32 x00) (to_array 32 l) |}.
