(* ===== verification/HostAdmission.v ===== *)
(** Network sources and the per-source cap on pending registrations
    (crates/server/src/host_admission.rs). *)

From S2P Require Import Prelude Bytes.
From Stdlib Require Import Strings.Byte.
From S2P Require Import Prelude.

(** ** [std::net] addresses *)

Definition Ipv4Addr := bytes 4.
Definition Ipv6Addr := bytes 16.

Inductive IpAddr := IpV4 (ip : Ipv4Addr) | IpV6 (ip : Ipv6Addr).

#[global] Instance IpAddr_eq_dec : EqDecision IpAddr.
Proof. solve_decision. Defined.

#[global] Instance IpAddr_countable : Countable IpAddr.
Proof.
  refine (inj_countable' (λ ip, match ip with IpV4 ip => inl ip | IpV6 ip => inr ip end)
    (λ x, match x with inl ip => IpV4 ip | inr ip => IpV6 ip end) _). abstract (by intros []).
Defined.

(** [Ipv6Addr::to_ipv4_mapped]: the [::ffff:a.b.c.d] form. *)
Definition to_ipv4_mapped (ip : Ipv6Addr) : option Ipv4Addr :=
  if decide (take 12 (bytes_list ip) = replicate 10 x00 ++ [xff; xff])
  then to_array 4 (drop 12 (bytes_list ip)) else None.

Lemma octets_prefix_length (ip : Ipv6Addr) : length (take 8 (bytes_list ip)) = 8%nat.
Proof. rewrite length_take, bytes_len. done. Qed.

Module HostSource.

Inductive t := V4 (ip : Ipv4Addr) | V6 (prefix : bytes 8).

#[global] Instance t_eq_dec : EqDecision t.
Proof. solve_decision. Defined.

#[global] Instance t_countable : Countable t.
Proof.
  refine (inj_countable'
    (λ s, match s with V4 ip => inl ip | V6 p => inr p end)
    (λ x, match x with inl ip => V4 ip | inr p => V6 p end) _).
  abstract (by intros []).
Defined.

(** [impl From<IpAddr> for HostSource]: an IPv4 address, or an IPv6 /64. *)
Definition from (ip : IpAddr) : t :=
  match ip with
  | IpV4 ip => V4 ip
  | IpV6 ip =>
      match to_ipv4_mapped ip with
      | Some mapped => V4 mapped
      | None => V6 (Bytes (take 8 (bytes_list ip)) (octets_prefix_length ip))
      end
  end.

End HostSource.

Notation HostSource := HostSource.t.

(** ** [PendingByIp] *)

Record PendingByIp := {
  limit : nat;
  counts : gmap HostSource nat;
}.

(** The permit's reference to the shared counter is the model's state; the
    permit itself keeps its source. *)
Record PendingHostPermit := { source : HostSource }.

#[global] Instance PendingHostPermit_eq_dec : EqDecision PendingHostPermit.
Proof. solve_decision. Defined.

Definition PendingByIp_new (limit : nat) : PendingByIp := {| limit := limit; counts := ∅ |}.

(** [counts.entry(source).or_default()] leaves a zero entry behind when the
    limit is zero; the counter is bumped otherwise. *)
Definition try_acquire (ip : IpAddr) (p : PendingByIp) : option PendingHostPermit * PendingByIp :=
  let source := HostSource.from ip in
  let count := default 0%nat (p.(counts) !! source) in
  let counts := <[source := count]> p.(counts) in
  if (p.(limit) <=? count)%nat
  then (None, {| limit := p.(limit); counts := counts |})
  else (Some {| source := source |},
        {| limit := p.(limit); counts := <[source := S count]> counts |}).

(** [Drop for PendingHostPermit]; [None] is the arithmetic overflow of
    [*count -= 1] at zero. *)
Definition drop_permit (permit : PendingHostPermit) (p : PendingByIp) : option PendingByIp :=
  match p.(counts) !! permit.(source) with
  | None => Some p
  | Some O => None
  | Some (S count) =>
      Some {| limit := p.(limit);
              counts := if (count =? 0)%nat then delete permit.(source) p.(counts)
                        else <[permit.(source) := count]> p.(counts) |}
  end.

Definition active_for (ip : IpAddr) (p : PendingByIp) : nat :=
  default 0%nat (p.(counts) !! HostSource.from ip).

(** ** The shared counter with the permits in circulation *)

Record admission := { pending : PendingByIp; live : list PendingHostPermit }.

Inductive admission_step : admission → admission → Prop :=
  | step_acquired ip permit p' a :
      try_acquire ip a.(pending) = (Some permit, p') →
      admission_step a {| pending := p'; live := permit :: a.(live) |}
  | step_refused ip p' a :
      try_acquire ip a.(pending) = (None, p') →
      admission_step a {| pending := p'; live := a.(live) |}
  | step_dropped permit l1 l2 p' a :
      a.(live) = l1 ++ permit :: l2 →
      drop_permit permit a.(pending) = Some p' →
      admission_step a {| pending := p'; live := l1 ++ l2 |}.

Definition admission_reachable (limit : nat) : admission → Prop :=
  rtc admission_step {| pending := PendingByIp_new limit; live := [] |}.

(** Live permits charged to a source. *)
Definition live_for (s : HostSource) (l : list PendingHostPermit) : nat :=
  length (filter (λ p, p.(source) = s) l).

(** The counter is exact: an entry is present for the sources with a permit in
    circulation, holds their number, and never exceeds the limit. *)
Definition admission_exact (limit0 : nat) (a : admission) : Prop :=
  a.(pending).(limit) = limit0 ∧
  (∀ s, a.(pending).(counts) !! s =
     if decide (live_for s a.(live) = 0%nat) then None else Some (live_for s a.(live))) ∧
  (∀ s, (live_for s a.(live) ≤ limit0)%nat).

(** ** Lemmas *)

Lemma live_for_cons s p l :
  live_for s (p :: l) = ((if decide (p.(source) = s) then 1 else 0) + live_for s l)%nat.
Proof. unfold live_for. rewrite filter_cons. by case_decide. Qed.

Lemma live_for_middle s p l1 l2 :
  live_for s (l1 ++ p :: l2) =
  ((if decide (p.(source) = s) then 1 else 0) + live_for s (l1 ++ l2))%nat.
Proof.
  unfold live_for. rewrite !filter_app, filter_cons, !length_app.
  case_decide; cbn; lia.
Qed.

Lemma counter_default limit0 a s : admission_exact limit0 a →
  default 0%nat (a.(pending).(counts) !! s) = live_for s a.(live).
Proof. intros (_ & Hc & _). rewrite Hc. case_decide; cbn; lia. Qed.

Lemma admission_exact_step limit0 a a' : (0 < limit0)%nat →
  admission_exact limit0 a → admission_step a a' → admission_exact limit0 a'.
Proof.
  intros Hpos Hex Hstep. pose proof Hex as (Hl & Hc & Hle).
  destruct Hstep as [ip permit p' a Hacq|ip p' a Hacq|permit l1 l2 p' a Hlive Hdrop].
  - unfold try_acquire in Hacq. rewrite (counter_default limit0) in Hacq by done.
    destruct (Nat.leb_spec (limit (pending a)) (live_for (HostSource.from ip) (live a)));
      simplify_eq/=.
    split_and!; [done| |]; intros s; cbn -[live_for decide]; rewrite live_for_cons; cbn -[live_for decide].
    + rewrite insert_insert_eq. destruct (decide (HostSource.from ip = s)) as [->|Hs].
      * by rewrite lookup_insert_eq.
      * rewrite lookup_insert_ne, Hc by done. done.
    + specialize (Hle s). case_decide; subst; lia.
  - unfold try_acquire in Hacq. rewrite (counter_default limit0) in Hacq by done.
    destruct (Nat.leb_spec (limit (pending a)) (live_for (HostSource.from ip) (live a)));
      simplify_eq/=.
    split_and!; [done| |done]. intros s. cbn -[live_for decide]. rewrite lookup_insert.
    case_decide as E; [subst s|apply Hc]. by rewrite decide_False by lia.
  - assert (Hlf : ∀ s, live_for s (live a) = ((if decide (permit.(source) = s) then 1 else 0)
      + live_for s (l1 ++ l2))%nat) by (intros s; rewrite Hlive; apply live_for_middle).
    unfold drop_permit in Hdrop. pose proof (Hc (source permit)) as Hp.
    rewrite Hlf, (decide_True (P := source permit = source permit)) in Hp by done.
    rewrite decide_False in Hp by lia. rewrite Hp in Hdrop. cbn -[live_for decide] in Hdrop. simplify_eq/=. split_and!; [done| |].
    + intros s. specialize (Hc s). rewrite Hlf in Hc. cbn -[live_for decide].
      destruct (decide (source permit = s)) as [<-|Hs].
      * destruct (Nat.eqb_spec (live_for (source permit) (l1 ++ l2)) 0) as [->|].
        -- by rewrite lookup_delete_eq.
        -- rewrite lookup_insert_eq, decide_False by done. done.
      * destruct (_ =? _)%nat; [rewrite lookup_delete_ne by done|rewrite lookup_insert_ne by done];
          exact Hc.
    + intros s. specialize (Hle s). rewrite Hlf in Hle. cbn -[live_for]; lia.
Qed.

Lemma admission_exact_perm limit0 p l l' : l ≡ₚ l' →
  admission_exact limit0 {| pending := p; live := l |} →
  admission_exact limit0 {| pending := p; live := l' |}.
Proof.
  intros Hp. assert (Hl : ∀ s, live_for s l = live_for s l') by (intros s; unfold live_for; by rewrite Hp).
  intros (H1 & H2 & H3). split_and!; cbn -[live_for] in *; [done|..]; intros s; rewrite <- Hl; auto.
Qed.

Lemma admission_exact_try limit0 a ip : admission_exact limit0 a →
  (try_acquire ip a.(pending)).1 =
    if decide (live_for (HostSource.from ip) a.(live) < limit0)%nat
    then Some {| source := HostSource.from ip |} else None.
Proof.
  intros Hex. pose proof Hex as (Hl & _ & _). unfold try_acquire.
  rewrite (counter_default limit0), Hl by done. case_decide.
  - by rewrite (proj2 (Nat.leb_gt _ _)) by done.
  - by rewrite (proj2 (Nat.leb_le _ _)) by lia.
Qed.

Lemma admission_exact_drop limit0 a permit : admission_exact limit0 a → permit ∈ a.(live) →
  is_Some (drop_permit permit a.(pending)).
Proof.
  intros (_ & Hc & _) Hin. unfold drop_permit. rewrite Hc.
  apply list_elem_of_split in Hin as (l1 & l2 & Hlive).
  assert (Hlf : live_for (source permit) (live a) ≠ 0%nat)
    by (rewrite Hlive, live_for_middle, decide_True by done; lia).
  rewrite decide_False by done. by destruct (live_for _ _).
Qed.

Lemma admission_exact_init limit0 :
  admission_exact limit0 {| pending := PendingByIp_new limit0; live := [] |}.
Proof. split_and!; [done| |]; intros s; cbn; [apply lookup_empty|lia]. Qed.

Lemma admission_reachable_exact limit0 a : (0 < limit0)%nat →
  admission_reachable limit0 a → admission_exact limit0 a.
Proof.
  intros Hpos. unfold admission_reachable.
  apply (rtc_ind_r (admission_exact limit0)); [apply admission_exact_init|].
  intros a1 a2 _ Hstep Hex. by eapply admission_exact_step.
Qed.

(** [IpAddr::to_canonical]: a mapped IPv4 address is the IPv4 address. *)
Definition to_canonical (ip : IpAddr) : IpAddr :=
  match ip with
  | IpV4 ip => IpV4 ip
  | IpV6 ip => match to_ipv4_mapped ip with Some ip => IpV4 ip | None => IpV6 ip end
  end.

(** ** Properties *)

(** The cap on pending registrations is exact over every interleaving of
    acquisitions and drops: a source is admitted exactly when fewer than [limit]
    of its permits are in circulation, the counter equals that number, and
    dropping a permit never underflows it. *)
Theorem pending_cap_exact limit0 a :
  (0 < limit0)%nat → admission_reachable limit0 a →
  (∀ s, (live_for s a.(live) ≤ limit0)%nat) ∧
  (∀ ip, active_for ip a.(pending) = live_for (HostSource.from ip) a.(live)) ∧
  (∀ ip, (try_acquire ip a.(pending)).1 =
     if decide (live_for (HostSource.from ip) a.(live) < limit0)%nat
     then Some {| source := HostSource.from ip |} else None) ∧
  (∀ permit, permit ∈ a.(live) → is_Some (drop_permit permit a.(pending))).
Proof.
  intros Hpos Hr. pose proof (admission_reachable_exact _ _ Hpos Hr) as Hex.
  pose proof Hex as (Hl & Hc & Hle). split_and!; [done|..].
  - intros ip. by apply (counter_default limit0).
  - intros ip. by apply admission_exact_try.
  - intros permit. by eapply admission_exact_drop.
Qed.

(** Two addresses share a quota exactly when they are the same IPv4 address
    (an IPv4-mapped IPv6 address counts as the IPv4 address) or lie in the same
    IPv6 /64. *)
Theorem sources_group_networks a b :
  HostSource.from a = HostSource.from b ↔
  match to_canonical a, to_canonical b with
  | IpV4 x, IpV4 y => x = y
  | IpV6 x, IpV6 y => take 8 (bytes_list x) = take 8 (bytes_list y)
  | _, _ => False
  end.
Proof.
  assert (Hv6 : ∀ x y : Ipv6Addr,
    HostSource.V6 (Bytes (take 8 (bytes_list x)) (octets_prefix_length x))
    = HostSource.V6 (Bytes (take 8 (bytes_list y)) (octets_prefix_length y)) ↔
    take 8 (bytes_list x) = take 8 (bytes_list y)).
  { intros x y. split; [by intros [=]|]. intros H. f_equal. by apply bytes_eq. }
  destruct a as [x|x], b as [y|y]; cbn; repeat case_match; rewrite ?Hv6; naive_solver.
Qed.

(** ** Concrete instances *)

Definition w_ip (b : byte) : IpAddr := IpV4 (repeat_byte 4 b).

(** Two permits of one source, under a limit of two. *)
Definition w_permit : PendingHostPermit := {| source := HostSource.from (w_ip x01) |}.
Definition w_admission : admission :=
  {| pending := {| limit := 2; counts := {[HostSource.from (w_ip x01) := 2%nat]} |};
     live := [w_permit; w_permit] |}.

Lemma w_admission_reachable : admission_reachable 2 w_admission.
Proof.
  eapply rtc_l; [apply (step_acquired (w_ip x01)); reflexivity|].
  eapply rtc_l; [apply (step_acquired (w_ip x01)); reflexivity|].
  apply rtc_refl.
Qed.

Lemma pending_cap_exact_witness :
  (try_acquire (w_ip x01) w_admission.(pending)).1 = None ∧
  (try_acquire (w_ip x02) w_admission.(pending)).1
    = Some {| source := HostSource.from (w_ip x02) |} ∧
  is_Some (drop_permit w_permit w_admission.(pending)).
Proof.
  destruct (pending_cap_exact 2 w_admission) as (_ & _ & Ht & Hd);
    [lia|apply w_admission_reachable|].
  split_and!; [by rewrite Ht|by rewrite Ht|apply Hd; by left].
Defined.

Lemma sources_group_networks_witness :
  HostSource.from (IpV4 (repeat_byte 4 x07)) =
  HostSource.from (IpV6 (Bytes (replicate 10 x00 ++ [xff; xff; x07; x07; x07; x07]) eq_refl)).
Proof. apply sources_group_networks. reflexivity. Defined.
