(* ===== verification/LeaseTable.v ===== *)
(** The lease table (crates/server/src/lease.rs): which identity holds which
    public port, for how long, and who may take it over.  This file holds the
    data and the operations; [LeaseFacts] holds the invariant. *)

From S2P Require Import Prelude Bytes HostAdmission.

Definition PORT_START : Z := 10000.
Definition PORT_END : Z := 10999.
Definition MAX_TUNNELS_PER_IP : nat := 2.
Definition GRACE_MS : Z := 300000.
Definition MAX_RETIRED_IDENTITIES : nat := 8.

(** ** Data *)

(** [struct TokenId(pub [u8; 32])] *)
Record TokenId := MkTokenId { token_bytes : bytes 32 }.

#[global] Instance TokenId_eq_dec : EqDecision TokenId.
Proof. solve_decision. Defined.
#[global] Instance TokenId_countable : Countable TokenId.
Proof. refine (inj_countable' token_bytes MkTokenId _). abstract (by intros []). Defined.

(** [TokenId::from_token] *)
Definition from_token `{Digest} (token : TunnelToken) : TokenId :=
  MkTokenId (sha256 (bytes_list token)).

(** [struct SessionId(u64)] *)
Record SessionId := MkSessionId { session_number : Z }.

#[global] Instance SessionId_eq_dec : EqDecision SessionId.
Proof. solve_decision. Defined.

Inductive RotationResult :=
  | Transferred (port : Z)
  | Unchanged (port : option Z).

#[global] Instance RotationResult_eq_dec : EqDecision RotationResult.
Proof. solve_decision. Defined.

(** [RotationResult::port] *)
Definition RotationResult_port (r : RotationResult) : option Z :=
  match r with Transferred port => Some port | Unchanged port => port end.

Inductive LeaseStatus :=
  | Active (session_id : SessionId)
  | Grace (expires_at_ms : Z).

#[global] Instance LeaseStatus_eq_dec : EqDecision LeaseStatus.
Proof. solve_decision. Defined.

Module LeaseRecord.
Record t := {
  token_id : TokenId;
  retired_token_ids : list TokenId;
  recovery_id : option TokenId;
  port : Z;
  last_ip : option IpAddr;
  expires_at_ms : Z;
}.
#[global] Instance t_eq_dec : EqDecision t.
Proof. solve_decision. Defined.
End LeaseRecord.
Notation LeaseRecord := LeaseRecord.t.

Module Lease.
Record t := {
  port : Z;
  last_ip : option IpAddr;
  retired_token_ids : list TokenId;
  recovery_id : option TokenId;
  status : LeaseStatus;
}.
#[global] Instance t_eq_dec : EqDecision t.
Proof. solve_decision. Defined.

(** Field assignments. *)
Definition set_status (st : LeaseStatus) (l : t) : t :=
  {| port := l.(port); last_ip := l.(last_ip); retired_token_ids := l.(retired_token_ids);
     recovery_id := l.(recovery_id); status := st |}.
Definition set_last_ip (ip : option IpAddr) (l : t) : t :=
  {| port := l.(port); last_ip := ip; retired_token_ids := l.(retired_token_ids);
     recovery_id := l.(recovery_id); status := l.(status) |}.
Definition set_retired (r : list TokenId) (l : t) : t :=
  {| port := l.(port); last_ip := l.(last_ip); retired_token_ids := r;
     recovery_id := l.(recovery_id); status := l.(status) |}.
End Lease.
Notation Lease := Lease.t.

Record LeaseTable := {
  leases : gmap TokenId Lease;
  next_session_id : Z;
}.

Record RecoveryResult := {
  recovered_port : Z;
  displaced : option (TokenId * SessionId);
  changed : bool;
}.

(** [LeaseTable::new] *)
Definition LeaseTable_new : LeaseTable := {| leases := ∅; next_session_id := 0 |}.

Definition set_leases (m : gmap TokenId Lease) (t : LeaseTable) : LeaseTable :=
  {| leases := m; next_session_id := t.(next_session_id) |}.

(** [matches!(lease.status, LeaseStatus::Grace { .. })] *)
Definition is_grace (st : LeaseStatus) : bool :=
  match st with Grace _ => true | Active _ => false end.

(** The pattern of [reap_expired]. *)
Definition expired (now_ms : Z) (lease : Lease) : bool :=
  match lease.(Lease.status) with
  | Grace expires_at_ms => expires_at_ms <=? now_ms
  | Active _ => false
  end.

(** [lease.last_ip.map(HostSource::from)] *)
Definition lease_source (lease : Lease) : option HostSource :=
  HostSource.from <$> lease.(Lease.last_ip).

(** An [IpAddr] as the arguments of an error text. *)
Definition ip_args (ip : IpAddr) : list Z :=
  match ip with
  | IpV4 ip => (λ b, Z.of_N (Byte.to_N b)) <$> bytes_list ip
  | IpV6 ip => (λ b, Z.of_N (Byte.to_N b)) <$> bytes_list ip
  end.

(** ** Operations *)

Section operations.
Context `{!IterOrder TokenId Lease}.

(** [self.leases.values().any(f)] *)
Definition any_lease (f : Lease → bool) (t : LeaseTable) : bool :=
  existsb (λ '(_, lease), f lease) (iter t.(leases)).

(** [lease.retired_token_ids.contains(&id)] *)
Definition has_retired (id : TokenId) (lease : Lease) : bool :=
  bool_decide (id ∈ lease.(Lease.retired_token_ids)).

Definition reap_expired (now_ms : Z) (t : LeaseTable) : LeaseTable :=
  set_leases (filter (λ kv, expired now_ms kv.2 = false) t.(leases)) t.

Definition check_ip_quota (peer_ip : IpAddr) (already_counted : bool) (t : LeaseTable)
    : result unit :=
  let source := HostSource.from peer_ip in
  let count := length (filter (λ '(_, lease), lease_source lease = Some source)
                              (iter t.(leases))) in
  check (already_counted || (count <? MAX_TUNNELS_PER_IP)%nat)
        (MsgArgs "Too many tunnels from {} (max {})"
                 (ip_args peer_ip ++ [Z.of_nat MAX_TUNNELS_PER_IP])).

(** [(PORT_START..=PORT_END).filter(|port| !occupied.contains(port))] *)
Definition free_ports (t : LeaseTable) : list Z :=
  let occupied := (λ '(_, lease), lease.(Lease.port)) <$> iter t.(leases) in
  filter (λ port, port ∉ occupied) (seqZ PORT_START (PORT_END - PORT_START + 1)).

Definition candidate_ports (token_id : TokenId) (peer_ip : IpAddr) (now_ms : Z)
    : M LeaseTable (list Z) :=
  modify (reap_expired now_ms);;
  t ← get;
  ensure (negb (any_lease (has_retired token_id) t))
         (Msg "This identity's port claim has been rotated");;
  match t.(leases) !! token_id with
  | Some lease =>
      ensure (is_grace lease.(Lease.status))
             (Msg "This identity already has an active tunnel");;
      lift (check_ip_quota peer_ip
              (bool_decide (lease_source lease = Some (HostSource.from peer_ip))) t);;
      mret [lease.(Lease.port)]
  | None =>
      lift (check_ip_quota peer_ip false t);;
      let ports := free_ports t in
      ensure (negb (bool_decide (ports = []))) (Msg "Port pool exhausted");;
      mret ports
  end.

Definition activate_with_recovery (token_id : TokenId) (recovery_id : option TokenId)
    (peer_ip : IpAddr) (port : Z) (now_ms : Z) : M LeaseTable SessionId :=
  ports ← candidate_ports token_id peer_ip now_ms;
  ensure (bool_decide (port ∈ ports)) (Msg "Port is not available to this identity");;
  t ← get;
  match recovery_id with
  | Some recovery_id =>
      ensure (negb (existsb (λ '(id, lease), bool_decide (id ≠ token_id) &&
                      bool_decide (lease.(Lease.recovery_id) = Some recovery_id))
                    (iter t.(leases))))
             (Msg "Recovery key already owns another port claim")
  | None => mret tt
  end;;
  let existing := t.(leases) !! token_id in
  match existing ≫= Lease.recovery_id, recovery_id with
  | Some enrolled, Some presented =>
      ensure (bool_decide (enrolled = presented))
             (Msg "Recovery key does not match this port claim")
  | _, _ => mret tt
  end;;
  let recovery_id := match existing ≫= Lease.recovery_id with
                     | Some enrolled => Some enrolled
                     | None => recovery_id
                     end in
  let retired_token_ids := default [] (Lease.retired_token_ids <$> existing) in
  next ← lift (ok_or (checked_add_u64 t.(next_session_id) 1) (Msg "Session ID exhausted"));
  put {| leases := <[token_id := {| Lease.port := port;
                                    Lease.last_ip := Some peer_ip;
                                    Lease.retired_token_ids := retired_token_ids;
                                    Lease.recovery_id := recovery_id;
                                    Lease.status := Active (MkSessionId next) |}]> t.(leases);
         next_session_id := next |};;
  mret (MkSessionId next).

(** [activate], the test helper. *)
Definition activate (token_id : TokenId) (peer_ip : IpAddr) (port : Z) (now_ms : Z)
    : M LeaseTable SessionId :=
  activate_with_recovery token_id None peer_ip port now_ms.

(** [LeaseTable::end] *)
Definition end_ (token_id : TokenId) (session_id : SessionId) (now_ms : Z) (t : LeaseTable)
    : bool * LeaseTable :=
  match t.(leases) !! token_id with
  | None => (false, t)
  | Some lease =>
      match lease.(Lease.status) with
      | Active current =>
          if bool_decide (current = session_id)
          then (true, set_leases
                        (<[token_id := Lease.set_status
                             (Grace (saturating_add_u64 now_ms GRACE_MS)) lease]> t.(leases)) t)
          else (false, t)
      | Grace _ => (false, t)
      end
  end.

Definition rotate_claim (old new : TokenId) (now_ms : Z) : M LeaseTable RotationResult :=
  modify (reap_expired now_ms);;
  ensure (bool_decide (old ≠ new)) (Msg "New identity must differ from old identity");;
  t ← get;
  match t.(leases) !! new with
  | Some lease =>
      if has_retired old lease then mret (Unchanged (Some lease.(Lease.port)))
      else fail (Msg "New identity already owns a port claim")
  | None =>
      ensure (negb (any_lease (has_retired new) t))
             (Msg "New identity was previously rotated");;
      ensure (negb (any_lease (has_retired old) t))
             (Msg "Old identity's port claim was already rotated to another token");;
      match t.(leases) !! old with
      | None => mret (Unchanged None)
      | Some lease =>
          ensure (is_grace lease.(Lease.status))
                 (Msg "Stop the active host tunnel before rotating its identity");;
          ensure (bool_decide (lease.(Lease.retired_token_ids) = []))
                 (Msg "This port claim has already been rotated once");;
          let port := lease.(Lease.port) in
          let lease := Lease.set_retired (lease.(Lease.retired_token_ids) ++ [old]) lease in
          put (set_leases (<[new := lease]> (delete old t.(leases))) t);;
          mret (Transferred port)
      end
  end.

(** [push(old)], then [remove(0)] when the list is over its limit. *)
Definition push_retired (old : TokenId) (retired : list TokenId) : list TokenId :=
  let retired := retired ++ [old] in
  if (MAX_RETIRED_IDENTITIES <? length retired)%nat then tail retired else retired.

Definition recover_claim (recovery_id new : TokenId) (peer_ip : IpAddr) (now_ms : Z)
    : M LeaseTable RecoveryResult :=
  modify (reap_expired now_ms);;
  t ← get;
  '(old, lease) ← lift (ok_or
      (snd <$> list_find (λ kv, Lease.recovery_id kv.2 = Some recovery_id) (iter t.(leases)))
      (Msg "No live port claim matches this recovery key"));
  if bool_decide (old = new)
  then mret {| recovered_port := lease.(Lease.port); displaced := None; changed := false |}
  else
  ensure (bool_decide (t.(leases) !! new = None))
         (Msg "New identity already owns a port claim");;
  ensure (negb (any_lease (has_retired new) t))
         (Msg "New identity was previously retired");;
  lift (check_ip_quota peer_ip
          (bool_decide (lease_source lease = Some (HostSource.from peer_ip))) t);;
  let displaced := match lease.(Lease.status) with
                   | Active session_id => Some (old, session_id)
                   | Grace _ => None
                   end in
  let lease := Lease.set_status (Grace (saturating_add_u64 now_ms GRACE_MS)) lease in
  let lease := Lease.set_last_ip (Some peer_ip) lease in
  let lease := Lease.set_retired (push_retired old lease.(Lease.retired_token_ids)) lease in
  put (set_leases (<[new := lease]> (delete old t.(leases))) t);;
  mret {| recovered_port := lease.(Lease.port); displaced := displaced; changed := true |}.

(** ** Persistence *)

Definition to_record (now_ms : Z) (token_id : TokenId) (lease : Lease) : LeaseRecord :=
  {| LeaseRecord.token_id := token_id;
     LeaseRecord.retired_token_ids := lease.(Lease.retired_token_ids);
     LeaseRecord.recovery_id := lease.(Lease.recovery_id);
     LeaseRecord.port := lease.(Lease.port);
     LeaseRecord.last_ip := lease.(Lease.last_ip);
     LeaseRecord.expires_at_ms :=
       match lease.(Lease.status) with
       | Active _ => saturating_add_u64 now_ms GRACE_MS
       | Grace expires_at_ms => expires_at_ms
       end |}.

Definition snapshot (now_ms : Z) (t : LeaseTable) : list LeaseRecord :=
  (λ '(token_id, lease), to_record now_ms token_id lease) <$> iter t.(leases).

(** [HashSet::insert] as the code uses it: the value must be new. *)
Definition insert_new {A} `{Countable A} (x : A) (s : gset A) (e : error) : result (gset A) :=
  if decide (x ∈ s) then Err e else Ok ({[x]} ∪ s).

(** The local variables of the loop in [restore]. *)
Record RestoreState := {
  r_leases : gmap TokenId Lease;
  r_ports : gset Z;
  r_tokens : gset TokenId;
  r_retired : gset TokenId;
  r_recovery_ids : gset TokenId;
}.

Definition restore_init : RestoreState :=
  {| r_leases := ∅; r_ports := ∅; r_tokens := ∅; r_retired := ∅; r_recovery_ids := ∅ |}.

(** One iteration of the loop. *)
Definition restore_record (now_ms : Z) (st : RestoreState) (record : LeaseRecord)
    : result RestoreState :=
  check (bool_decide (PORT_START ≤ record.(LeaseRecord.port) ≤ PORT_END))
        (Msg "Invalid lease port");;
  ports ← insert_new record.(LeaseRecord.port) st.(r_ports) (Msg "Duplicate lease port");
  tokens ← insert_new record.(LeaseRecord.token_id) st.(r_tokens) (Msg "Duplicate token ID");
  recovery_ids ← match record.(LeaseRecord.recovery_id) with
                 | Some recovery_id => insert_new recovery_id st.(r_recovery_ids)
                                         (Msg "Duplicate recovery key fingerprint")
                 | None => Ok st.(r_recovery_ids)
                 end;
  check (length record.(LeaseRecord.retired_token_ids) <=? MAX_RETIRED_IDENTITIES)%nat
        (Msg "Too many retired identities");;
  retired ← try_fold (λ retired old,
              check (bool_decide (old ≠ record.(LeaseRecord.token_id)))
                    (Msg "Identity cannot retire itself");;
              insert_new old retired (Msg "Duplicate retired token ID"))
            st.(r_retired) record.(LeaseRecord.retired_token_ids);
  Ok {| r_leases :=
          if record.(LeaseRecord.expires_at_ms) <=? now_ms then st.(r_leases)
          else <[record.(LeaseRecord.token_id) :=
                   {| Lease.port := record.(LeaseRecord.port);
                      Lease.last_ip := record.(LeaseRecord.last_ip);
                      Lease.retired_token_ids := record.(LeaseRecord.retired_token_ids);
                      Lease.recovery_id := record.(LeaseRecord.recovery_id);
                      Lease.status := Grace record.(LeaseRecord.expires_at_ms) |}]>
                 st.(r_leases);
        r_ports := ports; r_tokens := tokens; r_retired := retired;
        r_recovery_ids := recovery_ids |}.

Definition restore (records : list LeaseRecord) (now_ms : Z) : result LeaseTable :=
  check (length records <=? Z.to_nat (PORT_END - PORT_START + 1))%nat (Msg "Too many leases");;
  st ← try_fold (restore_record now_ms) restore_init records;
  check (bool_decide (st.(r_tokens) ## st.(r_retired)))
        (Msg "Active and retired token overlap");;
  Ok {| leases := st.(r_leases); next_session_id := 0 |}.

(** ** Read-only helpers of the tests *)

Definition active_session (token_id : TokenId) (t : LeaseTable) : option SessionId :=
  lease ← t.(leases) !! token_id;
  match lease.(Lease.status) with
  | Active session_id => Some session_id
  | Grace _ => None
  end.

Definition grace_port (token_id : TokenId) (t : LeaseTable) : option Z :=
  lease ← t.(leases) !! token_id;
  if is_grace lease.(Lease.status) then Some lease.(Lease.port) else None.

End operations.

Arguments reap_expired : simpl never.
Arguments active_session : simpl never.
Arguments candidate_ports : simpl never.
Arguments free_ports : simpl never.
Arguments check_ip_quota : simpl never.
Arguments any_lease : simpl never.
