(* ===== verification/LeaseFacts.v ===== *)
(** The lease table's invariant and the run lemmas of its operations
    ([LeaseTable]); the properties themselves are in [LeaseProps]. *)

From S2P Require Import Prelude Bytes HostAdmission LeaseTable.
Import LeaseTable.

(** ** The invariant *)

(** A public port, a recovery key and a retired identity each belong to at most
    one lease; a retired identity holds no lease. *)
Record leases_wf (m : gmap TokenId Lease) : Prop := {
  wf_port_range id l : m !! id = Some l → PORT_START ≤ Lease.port l ≤ PORT_END;
  wf_port_inj id1 id2 l1 l2 : m !! id1 = Some l1 → m !! id2 = Some l2 →
    Lease.port l1 = Lease.port l2 → id1 = id2;
  wf_recovery_inj id1 id2 l1 l2 r : m !! id1 = Some l1 → m !! id2 = Some l2 →
    Lease.recovery_id l1 = Some r → Lease.recovery_id l2 = Some r → id1 = id2;
  wf_retired_dead id l old : m !! id = Some l → old ∈ Lease.retired_token_ids l →
    m !! old = None;
  wf_retired_nodup id l : m !! id = Some l → NoDup (Lease.retired_token_ids l);
  wf_retired_inj id1 id2 l1 l2 old : m !! id1 = Some l1 → m !! id2 = Some l2 →
    old ∈ Lease.retired_token_ids l1 → old ∈ Lease.retired_token_ids l2 → id1 = id2;
  wf_retired_bound id l : m !! id = Some l →
    (length (Lease.retired_token_ids l) ≤ MAX_RETIRED_IDENTITIES)%nat;
}.

(** Session numbers were handed out by this table, each to one lease. *)
Record table_wf (t : LeaseTable) : Prop := {
  wf_leases : leases_wf t.(leases);
  wf_next : u64_ok t.(next_session_id);
  wf_session_range id l s : t.(leases) !! id = Some l → Lease.status l = Active s →
    1 ≤ session_number s ≤ t.(next_session_id);
  wf_session_inj id1 id2 l1 l2 s : t.(leases) !! id1 = Some l1 → t.(leases) !! id2 = Some l2 →
    Lease.status l1 = Active s → Lease.status l2 = Active s → id1 = id2;
}.

(** Leases charged to a network source. *)
Definition source_count (s : HostSource) (m : gmap TokenId Lease) : nat :=
  length (filter (λ '(_, lease), lease_source lease = Some s) (map_to_list m)).

Definition quota_ok (m : gmap TokenId Lease) : Prop :=
  ∀ s, (source_count s m ≤ MAX_TUNNELS_PER_IP)%nat.

(** The invariant of a running relay. *)
Definition lease_inv (t : LeaseTable) : Prop := table_wf t ∧ quota_ok t.(leases).

(** Identities retired by some lease. *)
Definition retired_somewhere (id : TokenId) (m : gmap TokenId Lease) : Prop :=
  ∃ k l, m !! k = Some l ∧ id ∈ Lease.retired_token_ids l.

(** The parts of a lease that reconnecting and expiring leave alone. *)
Definition same_claim (l l' : Lease) : Prop :=
  Lease.port l = Lease.port l' ∧ Lease.recovery_id l = Lease.recovery_id l' ∧
  Lease.retired_token_ids l = Lease.retired_token_ids l'.

#[export] Hint Resolve wf_port_range wf_retired_bound wf_retired_nodup wf_retired_dead
  wf_leases wf_next : gamenet.

(** ** Preservation, on the map *)

Lemma leases_wf_empty : leases_wf ∅.
Proof. split; intros *; rewrite lookup_empty; done. Qed.

(** Every lease of [m'] continues a lease of [m]: under another key perhaps, in
    which case the old key may be retired. *)
Definition continues (m m' : gmap TokenId Lease) (g : TokenId → TokenId)
    (id : TokenId) (l l' : Lease) : Prop :=
  m !! g id = Some l ∧ Lease.port l = Lease.port l' ∧
  NoDup (Lease.retired_token_ids l') ∧
  (length (Lease.retired_token_ids l') ≤ MAX_RETIRED_IDENTITIES)%nat ∧
  ∀ x, x ∈ Lease.retired_token_ids l' →
    (x ∈ Lease.retired_token_ids l ∨ x = g id) ∧ m' !! x = None.

Lemma leases_wf_image (m m' : gmap TokenId Lease) (g : TokenId → TokenId) :
  leases_wf m →
  (∀ id1 id2, is_Some (m' !! id1) → is_Some (m' !! id2) → g id1 = g id2 → id1 = id2) →
  (∀ id1 id2 l1 l2 r, m' !! id1 = Some l1 → m' !! id2 = Some l2 →
    Lease.recovery_id l1 = Some r → Lease.recovery_id l2 = Some r → id1 = id2) →
  (∀ id l', m' !! id = Some l' → ∃ l, continues m m' g id l l') →
  leases_wf m'.
Proof.
  intros Hwf Hinj Hrec Him. split; [..|exact Hrec| | | |].
  - intros id l' (l0 & ? & <- & _)%Him. by eapply wf_port_range.
  - intros id1 id2 l1 l2 H1 H2 Hp. pose proof (Him _ _ H1) as (a & Ha & Hpa & _).
    pose proof (Him _ _ H2) as (b & Hb & Hpb & _).
    apply Hinj; [by eauto..|]. eapply (wf_port_inj m Hwf); eauto. congruence.
  - intros id l' old H1 Ho. destruct (Him _ _ H1) as (a & Ha & _ & _ & _ & Hx). by apply Hx.
  - by intros id l' (l0 & _ & _ & ? & _)%Him.
  - intros id1 id2 l1 l2 old H1 H2 Ho1 Ho2. apply Hinj; [by eauto..|].
    destruct (Him _ _ H1) as (a & Ha & _ & _ & _ & Hxa).
    destruct (Him _ _ H2) as (b & Hb & _ & _ & _ & Hxb).
    apply Hxa in Ho1 as [[Ho1|Ho1] _]; apply Hxb in Ho2 as [[Ho2|Ho2] _].
    + by eapply (wf_retired_inj m Hwf).
    + apply (wf_retired_dead m Hwf _ _ _ Ha) in Ho1. congruence.
    + apply (wf_retired_dead m Hwf _ _ _ Hb) in Ho2. congruence.
    + congruence.
  - by intros id l' (l0 & _ & _ & _ & ? & _)%Him.
Qed.

(** Recovery keys stay unique when each lease keeps its own. *)
Lemma recovery_inj_image (m m' : gmap TokenId Lease) (g : TokenId → TokenId) :
  leases_wf m →
  (∀ id1 id2, is_Some (m' !! id1) → is_Some (m' !! id2) → g id1 = g id2 → id1 = id2) →
  (∀ id l', m' !! id = Some l' →
     ∃ l, m !! g id = Some l ∧ Lease.recovery_id l = Lease.recovery_id l') →
  ∀ id1 id2 l1 l2 r, m' !! id1 = Some l1 → m' !! id2 = Some l2 →
    Lease.recovery_id l1 = Some r → Lease.recovery_id l2 = Some r → id1 = id2.
Proof.
  intros Hwf Hinj Him id1 id2 l1 l2 r H1 H2 Hr1 Hr2.
  pose proof (Him _ _ H1) as (a & Ha & Hra). pose proof (Him _ _ H2) as (b & Hb & Hrb).
  apply Hinj; [by eauto..|]. eapply (wf_recovery_inj m Hwf _ _ a b r); congruence.
Qed.

Lemma leases_wf_subseteq m1 m2 : m1 ⊆ m2 → leases_wf m2 → leases_wf m1.
Proof.
  intros Hsub Hwf.
  assert (Hl : ∀ k l, m1 !! k = Some l → m2 !! k = Some l) by eauto using lookup_weaken.
  apply (leases_wf_image m2 m1 id Hwf); [done| |].
  - apply (recovery_inj_image m2 m1 id Hwf); [done|]. eauto.
  - intros k l Hk. exists l. split_and!; eauto with gamenet. intros x Hx. split; [by left|].
    eapply lookup_weaken_None; [|exact Hsub]. by eapply wf_retired_dead; [|apply Hl|].
Qed.

(** Changing what is not part of the claim, or enrolling a fresh recovery key. *)
Lemma leases_wf_update m k l l' :
  leases_wf m → m !! k = Some l →
  Lease.port l = Lease.port l' → Lease.retired_token_ids l = Lease.retired_token_ids l' →
  (∀ r j y, Lease.recovery_id l' = Some r → m !! j = Some y →
     Lease.recovery_id y = Some r → j = k) →
  leases_wf (<[k := l']> m).
Proof.
  intros Hwf Hk Hp Ht Hr. apply (leases_wf_image m _ id Hwf); [done| |].
  - intros id1 id2 l1 l2 r. rewrite !lookup_insert_Some.
    intros [[<- <-]|[? H1]] [[<- <-]|[? H2]] Hr1 Hr2; [done| | |].
    + symmetry. by eapply Hr.
    + by eapply Hr.
    + by eapply (wf_recovery_inj m Hwf).
  - assert (Hdead : ∀ j y x, m !! j = Some y → x ∈ Lease.retired_token_ids y →
                             <[k := l']> m !! x = None).
    { intros j y x Hj Hx. pose proof (wf_retired_dead m Hwf _ _ _ Hj Hx).
      apply lookup_insert_None. naive_solver. }
    intros j x. rewrite lookup_insert_Some. intros [[<- <-]|[Hne Hj]].
    + exists l. unfold continues. rewrite <- Ht. split_and!; eauto with gamenet.
    + exists x. split_and!; eauto with gamenet.
Qed.

Lemma leases_wf_same_claim m k l l' :
  leases_wf m → m !! k = Some l → same_claim l l' → leases_wf (<[k := l']> m).
Proof.
  intros Hwf Hk (Hp & Hr & Ht). eapply leases_wf_update; [done..|].
  intros r j y Hl' Hj Hy. eapply (wf_recovery_inj m Hwf _ _ y l r); congruence.
Qed.

(** Handing a lease over to a new identity, retiring the old one. *)
Lemma leases_wf_transfer m old new l l' :
  leases_wf m → m !! old = Some l → m !! new = None → ¬ retired_somewhere new m →
  Lease.port l = Lease.port l' → Lease.recovery_id l = Lease.recovery_id l' →
  NoDup (Lease.retired_token_ids l') →
  (length (Lease.retired_token_ids l') ≤ MAX_RETIRED_IDENTITIES)%nat →
  (∀ x, x ∈ Lease.retired_token_ids l' → x ∈ Lease.retired_token_ids l ∨ x = old) →
  leases_wf (<[new := l']> (delete old m)).
Proof.
  intros Hwf Hold Hnew Hnr Hp Hr Hnd Hlen Hsub.
  assert (Hne : old ≠ new) by congruence.
  set (g x := if decide (x = new) then old else x).
  assert (Hgnew : g new = old) by (unfold g; by case_decide).
  assert (Hg : ∀ x, x ≠ new → g x = x) by (intros x; unfold g; by case_decide).
  assert (Hdead : ∀ j y x, m !! j = Some y → x ∈ Lease.retired_token_ids y →
                           <[new := l']> (delete old m) !! x = None).
  { intros j y x Hj Hx. apply lookup_insert_None. split.
    - apply lookup_delete_None. right. by eapply wf_retired_dead.
    - intros <-. apply Hnr. by exists j, y. }
  assert (Hinj : ∀ id1 id2, is_Some (<[new := l']> (delete old m) !! id1) →
    is_Some (<[new := l']> (delete old m) !! id2) → g id1 = g id2 → id1 = id2).
  { intros id1 id2 [x1 H1] [x2 H2]. revert H1 H2.
    rewrite !lookup_insert_Some, !lookup_delete_Some.
    intros [[<- _]|(? & ? & _)] [[<- _]|(? & ? & _)];
      rewrite ?Hgnew, ?(Hg id1), ?(Hg id2) by done; done. }
  apply (leases_wf_image m _ g Hwf Hinj).
  - apply (recovery_inj_image m _ g Hwf Hinj). intros j x.
    rewrite lookup_insert_Some, lookup_delete_Some. intros [[<- <-]|(Hj1 & Hj2 & Hj)].
    + rewrite Hgnew. eauto.
    + rewrite Hg by done. eauto.
  - intros j x. rewrite lookup_insert_Some, lookup_delete_Some.
    intros [[<- <-]|(Hj1 & Hj2 & Hj)].
    + exists l. unfold continues. rewrite Hgnew. split_and!; [done..|]. intros x Hx. split; [by apply Hsub|].
      destruct (Hsub x Hx) as [Hxl| ->]; [by eapply Hdead|].
      rewrite lookup_insert_ne by done. apply lookup_delete_eq.
    + exists x. unfold continues. rewrite Hg by done. split_and!; eauto with gamenet.
Qed.

(** A lease for an identity that had none. *)
Lemma leases_wf_insert_fresh m k l :
  leases_wf m → m !! k = None → ¬ retired_somewhere k m →
  PORT_START ≤ Lease.port l ≤ PORT_END → Lease.retired_token_ids l = [] →
  (∀ j y, m !! j = Some y → Lease.port y ≠ Lease.port l) →
  (∀ j y r, m !! j = Some y → Lease.recovery_id l = Some r → Lease.recovery_id y ≠ Some r) →
  leases_wf (<[k := l]> m).
Proof.
  intros Hwf Hk Hnr Hport Hret Hfresh Hrec.
  assert (Hnone : ∀ x, x ∉ Lease.retired_token_ids l)
    by (intros x; rewrite Hret; apply not_elem_of_nil).
  split; intros *; rewrite ?lookup_insert_Some; intros;
    repeat match goal with
    | H : _ ∨ _ |- _ => destruct H as [[? ?]|[? ?]]; subst
    end; try done; try (exfalso; by eapply Hnone).
  - by eapply wf_port_range.
  - exfalso. by eapply Hfresh.
  - exfalso. by eapply Hfresh.
  - by eapply (wf_port_inj m Hwf).
  - exfalso. by eapply Hrec.
  - exfalso. by eapply Hrec.
  - by eapply (wf_recovery_inj m Hwf).
  - apply lookup_insert_None. split; [by eapply wf_retired_dead|].
    intros ->. apply Hnr. by eexists _, _.
  - rewrite Hret. constructor.
  - by eapply wf_retired_nodup.
  - by eapply (wf_retired_inj m Hwf).
  - rewrite Hret. cbn. lia.
  - by eapply wf_retired_bound.
Qed.

(** ** The quota *)

(** Whether a lease is charged to [s], as a number. *)
Definition charge (s : HostSource) (l : Lease) : nat :=
  if decide (lease_source l = Some s) then 1 else 0.

Lemma source_count_insert s m k l : m !! k = None →
  source_count s (<[k := l]> m) = (charge s l + source_count s m)%nat.
Proof.
  intros Hk. unfold source_count, charge. rewrite map_to_list_insert by done.
  case_decide; [by rewrite filter_cons_True|by rewrite filter_cons_False].
Qed.

Lemma source_count_delete s m k l : m !! k = Some l →
  source_count s m = (charge s l + source_count s (delete k m))%nat.
Proof.
  intros Hk. rewrite <- (source_count_insert s _ k) by apply lookup_delete_eq.
  by rewrite insert_delete_id.
Qed.

Lemma source_count_subseteq s m1 m2 : m1 ⊆ m2 → (source_count s m1 ≤ source_count s m2)%nat.
Proof.
  intros Hsub. unfold source_count.
  apply submseteq_length, NoDup_submseteq; [apply NoDup_filter, NoDup_map_to_list|].
  intros [i x]. rewrite !list_elem_of_filter, !elem_of_map_to_list.
  intros [? ?]. eauto using lookup_weaken.
Qed.

Lemma source_count_update s m k l l' : m !! k = Some l →
  (source_count s (<[k := l']> m) + charge s l = charge s l' + source_count s m)%nat.
Proof.
  intros Hk. rewrite (source_count_delete s m k l) by done.
  rewrite <- (insert_delete_eq m k l'), source_count_insert by apply lookup_delete_eq. lia.
Qed.

Lemma source_count_transfer s m old new l l' : m !! old = Some l → m !! new = None →
  (source_count s (<[new := l']> (delete old m)) + charge s l
   = charge s l' + source_count s m)%nat.
Proof.
  intros Hold Hnew. rewrite source_count_insert.
  - rewrite (source_count_delete s m old l) by done. lia.
  - rewrite lookup_delete_None. by right.
Qed.

Lemma quota_ok_subseteq m1 m2 : m1 ⊆ m2 → quota_ok m2 → quota_ok m1.
Proof. intros Hsub Hq s. etrans; [by apply source_count_subseteq|apply Hq]. Qed.

Lemma charge_peer s l ip : Lease.last_ip l = Some ip →
  charge s l = if decide (HostSource.from ip = s) then 1%nat else 0%nat.
Proof.
  intros Hip. unfold charge, lease_source. rewrite Hip. cbn.
  do 2 case_decide; naive_solver.
Qed.

(** Charging a lease to a peer whose quota was checked keeps the quota. *)
Lemma quota_after_charge (m m' : gmap TokenId Lease) (l : option Lease) l' ip :
  (∀ s, (source_count s m' + default 0 (charge s <$> l) = charge s l' + source_count s m)%nat) →
  Lease.last_ip l' = Some ip → quota_ok m →
  (l ≫= lease_source = Some (HostSource.from ip)) ∨
  (source_count (HostSource.from ip) m < MAX_TUNNELS_PER_IP)%nat →
  quota_ok m'.
Proof.
  intros Hcount Hip Hq Hcheck s. specialize (Hcount s). specialize (Hq s).
  rewrite (charge_peer s l' ip Hip) in Hcount. case_decide as E; [|lia]. subst s.
  destruct Hcheck as [Hl|Hlt]; [|lia].
  destruct l as [l|]; cbn in *; [|done]. unfold charge in Hcount.
  rewrite decide_True in Hcount by done. lia.
Qed.

(** ** Run lemmas *)

Section run.
Context `{!IterOrder TokenId Lease}.
Implicit Types t : LeaseTable.

Lemma any_lease_false f t :
  any_lease f t = false ↔ ∀ id l, t.(leases) !! id = Some l → f l = false.
Proof. unfold any_lease. by rewrite existsb_iter_false. Qed.

Lemma any_retired_false id t :
  any_lease (has_retired id) t = false ↔ ¬ retired_somewhere id t.(leases).
Proof.
  rewrite any_lease_false. unfold has_retired, retired_somewhere.
  setoid_rewrite bool_decide_eq_false. naive_solver.
Qed.

Lemma iter_count s t :
  length (filter (λ '(_, lease), lease_source lease = Some s) (iter t.(leases)))
  = source_count s t.(leases).
Proof. unfold source_count. by rewrite iter_perm. Qed.

Lemma check_ip_quota_ok ip b t u :
  check_ip_quota ip b t = Ok u ↔
  b = true ∨ (source_count (HostSource.from ip) t.(leases) < MAX_TUNNELS_PER_IP)%nat.
Proof.
  unfold check_ip_quota. rewrite check_ok, iter_count, orb_true_iff, Nat.ltb_lt. done.
Qed.

Lemma reap_lookup now t id l :
  (reap_expired now t).(leases) !! id = Some l ↔
  t.(leases) !! id = Some l ∧ expired now l = false.
Proof. unfold reap_expired. cbn. by rewrite map_lookup_filter_Some. Qed.

Lemma reap_subseteq now t : (reap_expired now t).(leases) ⊆ t.(leases).
Proof. apply map_filter_subseteq. Qed.

Lemma reap_next now t : (reap_expired now t).(next_session_id) = t.(next_session_id).
Proof. done. Qed.

Lemma reap_idem now t : reap_expired now (reap_expired now t) = reap_expired now t.
Proof.
  unfold reap_expired, set_leases. cbn. f_equal. apply map_filter_id.
  intros i x. rewrite map_lookup_filter_Some. naive_solver.
Qed.

Lemma free_ports_elem p t :
  p ∈ free_ports t ↔ PORT_START ≤ p ≤ PORT_END ∧
    ∀ id l, t.(leases) !! id = Some l → Lease.port l ≠ p.
Proof.
  unfold free_ports. rewrite list_elem_of_filter, elem_of_seqZ, list_elem_of_fmap.
  unfold PORT_START, PORT_END. split.
  - intros [Hn Hr]. split; [lia|]. intros id l Hl Hp. apply Hn.
    exists (id, l). split; [done|]. by apply elem_of_iter.
  - intros [Hr Hn]. split; [|lia]. intros ([id l] & -> & Hl). apply elem_of_iter in Hl.
    by eapply Hn.
Qed.

(** What [candidate_ports] answers, on the reaped table. *)
Definition candidates_of (id : TokenId) (ip : IpAddr) (t : LeaseTable) (ports : list Z) : Prop :=
  ¬ retired_somewhere id t.(leases) ∧
  match t.(leases) !! id with
  | Some l => is_grace (Lease.status l) = true ∧ ports = [Lease.port l] ∧
              (lease_source l = Some (HostSource.from ip) ∨
               (source_count (HostSource.from ip) t.(leases) < MAX_TUNNELS_PER_IP)%nat)
  | None => ports = free_ports t ∧ ports ≠ [] ∧
            (source_count (HostSource.from ip) t.(leases) < MAX_TUNNELS_PER_IP)%nat
  end.

Lemma candidate_ports_state id ip now t :
  (candidate_ports id ip now t).2 = reap_expired now t.
Proof.
  unfold candidate_ports, ensure, lift, fail, get, modify, mbind, M_bind. cbn.
  repeat (case_match; simplify_eq/=; try done).
Qed.

Lemma candidate_ports_ok id ip now t ports t' :
  candidate_ports id ip now t = (Ok ports, t') ↔
  t' = reap_expired now t ∧ candidates_of id ip (reap_expired now t) ports.
Proof.
  unfold candidates_of. split.
  - unfold candidate_ports. intros H. inv_ok. bool_prop.
    rename select (any_lease _ _ = false) into Hnr. apply any_retired_false in Hnr.
    case_match; inv_ok; bool_prop;
      rename select (check_ip_quota _ _ _ = _) into Hq; apply check_ip_quota_ok in Hq;
      rewrite ?bool_decide_eq_true in Hq; naive_solver.
  - intros (-> & Hnr & Hm). unfold candidate_ports.
    apply any_retired_false in Hnr.
    repeat (erewrite M_bind_run; [|first
      [ reflexivity | by unfold ensure; rewrite Hnr ]]).
    destruct (leases (reap_expired now t) !! id) as [l|] eqn:Hl.
    + destruct Hm as (Hg & -> & Hq).
      erewrite M_bind_run; [|by unfold ensure; rewrite Hg].
      erewrite M_bind_run; [done|]. unfold lift. f_equal. apply (check_ip_quota_ok _ _ _ tt).
      by rewrite bool_decide_eq_true.
    + destruct Hm as (-> & Hne & Hq).
      erewrite M_bind_run; [|by unfold lift; rewrite (proj2 (check_ip_quota_ok _ _ _ tt));
                             [|right]].
      erewrite M_bind_run; [done|]. unfold ensure. by rewrite bool_decide_false.
Qed.

(** The lease [activate_with_recovery] writes. *)
Definition activated_lease (existing : option Lease) (r : option TokenId) (ip : IpAddr)
    (port : Z) (s : SessionId) : Lease :=
  {| Lease.port := port;
     Lease.last_ip := Some ip;
     Lease.retired_token_ids := default [] (Lease.retired_token_ids <$> existing);
     Lease.recovery_id := match existing ≫= Lease.recovery_id with
                          | Some enrolled => Some enrolled
                          | None => r
                          end;
     Lease.status := Active s |}.

(** When it succeeds on the reaped table, and with what result. *)
Definition activation_of (id : TokenId) (r : option TokenId) (ip : IpAddr) (port : Z)
    (t : LeaseTable) (s : SessionId) (t' : LeaseTable) : Prop :=
  (∃ ports, candidates_of id ip t ports ∧ port ∈ ports) ∧
  (∀ k, r = Some k → ∀ id' l', t.(leases) !! id' = Some l' →
     Lease.recovery_id l' = Some k → id' = id) ∧
  (∀ l enrolled presented, t.(leases) !! id = Some l →
     Lease.recovery_id l = Some enrolled → r = Some presented → enrolled = presented) ∧
  t.(next_session_id) + 1 ≤ U64_MAX ∧
  s = MkSessionId (t.(next_session_id) + 1) ∧
  t' = {| leases := <[id := activated_lease (t.(leases) !! id) r ip port s]> t.(leases);
          next_session_id := t.(next_session_id) + 1 |}.

Lemma other_owner_false id k t :
  existsb (λ '(id', lease), bool_decide (id' ≠ id) &&
             bool_decide (Lease.recovery_id lease = Some k)) (iter t.(leases)) = false ↔
  ∀ id' l', t.(leases) !! id' = Some l' → Lease.recovery_id l' = Some k → id' = id.
Proof.
  rewrite existsb_iter_false. apply forall_proper; intros id'. apply forall_proper; intros l'.
  rewrite andb_false_iff, !bool_decide_eq_false. destruct (decide (id' = id)); naive_solver.
Qed.

Lemma activate_ok id r ip port now t s t' :
  activate_with_recovery id r ip port now t = (Ok s, t') ↔
  activation_of id r ip port (reap_expired now t) s t'.
Proof.
  unfold activation_of, activated_lease. split.
  - unfold activate_with_recovery. intros H. inv_ok. bool_prop.
    rename select (candidate_ports _ _ _ _ = _) into Hc.
    apply candidate_ports_ok in Hc as [-> Hc].
    rename select (checked_add_u64 _ _ = _) into Hn.
    apply checked_add_u64_Some in Hn as [-> Hn].
    split_and!; [by eexists| | |done..|].
    + intros k ->. inv_ok. bool_prop. by eapply other_owner_false.
    + intros l enrolled presented Hl He ->. rewrite Hl in *. cbn in *. rewrite He in *.
      inv_ok. by bool_prop.
    + do 2 case_match; inv_ok; done.
  - intros ((ports & Hc & Hp) & Hr & He & Hn & -> & ->).
    unfold activate_with_recovery.
    erewrite M_bind_run; [|by apply candidate_ports_ok].
    erewrite M_bind_run; [|by unfold ensure; rewrite bool_decide_true].
    erewrite M_bind_run; [|done].
    erewrite M_bind_run; [|destruct r as [k|]; [|done]; unfold ensure;
      by rewrite (proj2 (other_owner_false id k _) (Hr k eq_refl))].
    erewrite M_bind_run; [|destruct (leases (reap_expired now t) !! id) as [l|] eqn:Hl;
      [|done]; cbn; destruct (Lease.recovery_id l) as [e|] eqn:Hel; [|done];
      destruct r as [k|]; [|done]; unfold ensure; by rewrite bool_decide_true by eauto].
    erewrite M_bind_run; [|unfold lift; by rewrite (proj2 (checked_add_u64_Some _ _ _) (conj eq_refl Hn))].
    done.
Qed.

(** An error leaves the reaped table behind. *)
Lemma activate_err id r ip port now t e t' :
  activate_with_recovery id r ip port now t = (Err e, t') → t' = reap_expired now t.
Proof.
  unfold activate_with_recovery. rewrite M_bind_err.
  intros [H|(ports & t1 & Hc & H)].
  - pose proof (candidate_ports_state id ip now t) as Hs. by rewrite H in Hs.
  - apply candidate_ports_ok in Hc as [-> _].
    run_cases H.
Qed.

(** [rotate_claim] on the reaped table. *)
Definition rotation_of (old new : TokenId) (t : LeaseTable) (r : RotationResult)
    (t' : LeaseTable) : Prop :=
  old ≠ new ∧
  match t.(leases) !! new with
  | Some l => old ∈ Lease.retired_token_ids l ∧ r = Unchanged (Some (Lease.port l)) ∧ t' = t
  | None =>
      ¬ retired_somewhere new t.(leases) ∧ ¬ retired_somewhere old t.(leases) ∧
      match t.(leases) !! old with
      | None => r = Unchanged None ∧ t' = t
      | Some l => is_grace (Lease.status l) = true ∧ Lease.retired_token_ids l = [] ∧
          r = Transferred (Lease.port l) ∧
          t' = set_leases (<[new := Lease.set_retired [old] l]> (delete old t.(leases))) t
      end
  end.

Lemma rotate_ok old new now t r t' :
  rotate_claim old new now t = (Ok r, t') ↔ rotation_of old new (reap_expired now t) r t'.
Proof.
  unfold rotation_of, rotate_claim. split.
  - intros H. inv_ok. bool_prop. split; [done|].
    destruct (leases _ !! new) as [l|] eqn:Hnew.
    + unfold has_retired in H. destruct (bool_decide _) eqn:Hd; inv_ok; bool_prop; done.
    + inv_ok. bool_prop. repeat match goal with
      | H : any_lease _ _ = false |- _ => apply any_retired_false in H
      end.
      split_and!; [done..|]. destruct (leases _ !! old) as [l|] eqn:Hold; inv_ok; [|done].
      bool_prop. by repeat match goal with H : Lease.retired_token_ids _ = [] |- _ =>
        rewrite H; clear H || idtac end.
  - intros [Hne Hm]. erewrite M_bind_run; [|done].
    erewrite M_bind_run; [|by unfold ensure; rewrite bool_decide_true].
    erewrite M_bind_run; [|done].
    destruct (leases (reap_expired now t) !! new) as [l|] eqn:Hnew.
    + destruct Hm as (Hin & -> & ->). unfold has_retired. by rewrite bool_decide_true.
    + destruct Hm as (H1 & H2 & Hm). apply any_retired_false in H1, H2.
      do 2 (erewrite M_bind_run; [|by unfold ensure; rewrite ?H1, ?H2]).
      destruct (leases (reap_expired now t) !! old) as [l|] eqn:Hold.
      * destruct Hm as (Hg & Hr & -> & ->).
        do 2 (erewrite M_bind_run; [|by unfold ensure; rewrite ?Hg, ?Hr, ?bool_decide_true]).
        by rewrite Hr.
      * by destruct Hm as [-> ->].
Qed.

Lemma rotate_err old new now t e t' :
  rotate_claim old new now t = (Err e, t') → t' = reap_expired now t.
Proof.
  intros H. unfold rotate_claim in H. run_cases H.
Qed.

(** The lease [recover_claim] hands over. *)
Definition recovered_lease (old : TokenId) (ip : IpAddr) (now : Z) (l : Lease) : Lease :=
  {| Lease.port := Lease.port l;
     Lease.last_ip := Some ip;
     Lease.retired_token_ids := push_retired old (Lease.retired_token_ids l);
     Lease.recovery_id := Lease.recovery_id l;
     Lease.status := Grace (saturating_add_u64 now GRACE_MS) |}.

(** [recover_claim] on the reaped table, once the claim [old], [l] is found. *)
Definition recovery_of (old : TokenId) (l : Lease) (new : TokenId) (ip : IpAddr) (now : Z)
    (t : LeaseTable) (r : RecoveryResult) (t' : LeaseTable) : Prop :=
  if decide (old = new)
  then r = {| recovered_port := Lease.port l; displaced := None; changed := false |} ∧ t' = t
  else
    t.(leases) !! new = None ∧ ¬ retired_somewhere new t.(leases) ∧
    (lease_source l = Some (HostSource.from ip) ∨
     (source_count (HostSource.from ip) t.(leases) < MAX_TUNNELS_PER_IP)%nat) ∧
    r = {| recovered_port := Lease.port l;
           displaced := match Lease.status l with
                        | Active session_id => Some (old, session_id)
                        | Grace _ => None
                        end;
           changed := true |} ∧
    t' = set_leases (<[new := recovered_lease old ip now l]> (delete old t.(leases))) t.

(** The claim [recover_claim] works on. *)
Definition find_recovery (k : TokenId) (t : LeaseTable) : option (TokenId * Lease) :=
  snd <$> list_find (λ kv, Lease.recovery_id kv.2 = Some k) (iter t.(leases)).

Lemma find_recovery_Some k t old l : find_recovery k t = Some (old, l) →
  t.(leases) !! old = Some l ∧ Lease.recovery_id l = Some k.
Proof.
  unfold find_recovery. rewrite fmap_Some. intros ([i [a b]] & Hf & [= -> ->]).
  apply list_find_Some in Hf as (Hi & Hk & _). split; [|done].
  apply elem_of_iter. by eapply list_elem_of_lookup_2.
Qed.

Lemma find_recovery_None k t : find_recovery k t = None ↔
  ∀ id l, t.(leases) !! id = Some l → Lease.recovery_id l ≠ Some k.
Proof.
  unfold find_recovery. rewrite fmap_None, list_find_None, Forall_forall. split.
  - intros Hn id l Hl. apply (Hn (id, l)). by apply elem_of_iter.
  - intros Hn [id l] Hl. apply elem_of_iter in Hl. cbn. eauto.
Qed.

(** The search does not depend on the iteration order. *)
Lemma find_recovery_unique k t old l : leases_wf t.(leases) →
  t.(leases) !! old = Some l → Lease.recovery_id l = Some k →
  find_recovery k t = Some (old, l).
Proof.
  intros Hwf Hl Hk. destruct (find_recovery k t) as [[old' l']|] eqn:Hf.
  - apply find_recovery_Some in Hf as [Hl' Hk'].
    assert (old' = old) as -> by (eapply (wf_recovery_inj _ Hwf); eauto). congruence.
  - by eapply (proj1 (find_recovery_None k t) Hf) in Hk.
Qed.

Lemma recover_ok k new ip now t r t' :
  recover_claim k new ip now t = (Ok r, t') ↔
  ∃ old l, find_recovery k (reap_expired now t) = Some (old, l) ∧
           recovery_of old l new ip now (reap_expired now t) r t'.
Proof.
  unfold recovery_of, recover_claim. fold (find_recovery k). split.
  - intros H. inv_ok. destruct a1 as [old l].
    rename select (snd <$> _ = Some _) into Hf. exists old, l. split; [exact Hf|].
    case_bool_decide as Hd; inv_ok; [by rewrite decide_True|].
    rewrite decide_False by done. bool_prop.
    rename select (any_lease _ _ = false) into Hnr. apply any_retired_false in Hnr.
    rename select (check_ip_quota _ _ _ = _) into Hq. apply check_ip_quota_ok in Hq.
    rewrite bool_decide_eq_true in Hq. done.
  - intros (old & l & Hf & Hm). unfold find_recovery in Hf.
    step by done. step by done.
    step by (rewrite Hf). cbn beta iota.
    destruct (decide (old = new)) as [->|Hne].
    + rewrite bool_decide_true by done. by destruct Hm as [-> ->].
    + rewrite bool_decide_false by done. destruct Hm as (Hn & Hr & Hq & -> & ->).
      apply any_retired_false in Hr.
      step by (rewrite bool_decide_true). step by (rewrite Hr).
      step by (rewrite (proj2 (check_ip_quota_ok _ _ _ tt)); [|rewrite bool_decide_eq_true]).
      done.
Qed.

Lemma recover_err k new ip now t e t' :
  recover_claim k new ip now t = (Err e, t') → t' = reap_expired now t.
Proof. intros H. unfold recover_claim in H. run_cases H. Qed.

(** [end] *)
Lemma end_true id s now t t' :
  end_ id s now t = (true, t') ↔
  ∃ l, t.(leases) !! id = Some l ∧ Lease.status l = Active s ∧
    t' = set_leases (<[id := Lease.set_status (Grace (saturating_add_u64 now GRACE_MS)) l]>
                       t.(leases)) t.
Proof.
  unfold end_. split.
  - intros H. repeat (case_match; simplify_eq/=); bool_prop; naive_solver.
  - intros (l & -> & -> & ->). by rewrite bool_decide_true.
Qed.

Lemma end_false id s now t t' :
  end_ id s now t = (false, t') ↔
  t' = t ∧ ∀ l, t.(leases) !! id = Some l → Lease.status l ≠ Active s.
Proof.
  unfold end_. split.
  - intros H. destruct (leases t !! id) as [l|]; [|by simplify_eq].
    destruct (Lease.status l) as [cur|] eqn:Hl; [case_bool_decide|];
      simplify_eq; split; congruence.
  - intros [-> Hn]. destruct (leases t !! id) as [l|]; [|done].
    destruct (Lease.status l) as [cur|] eqn:Hl; [|done].
    rewrite bool_decide_false; [done|]. intros ->. by eapply Hn.
Qed.
End run.
