(* ===== verification/LeaseInv.v ===== *)
(** Every operation of the lease table preserves its invariant
    ([LeaseFacts.lease_inv]), whether it succeeds or fails. *)

From S2P Require Import Prelude Bytes HostAdmission LeaseTable LeaseFacts.

(** ** Operations as data *)

Inductive lease_op :=
  | OpCandidates (id : TokenId) (ip : IpAddr) (now : Z)
  | OpActivate (id : TokenId) (key : option TokenId) (ip : IpAddr) (port now : Z)
  | OpEnd (id : TokenId) (s : SessionId) (now : Z)
  | OpRotate (old new : TokenId) (now : Z)
  | OpRecover (key new : TokenId) (ip : IpAddr) (now : Z)
  | OpReap (now : Z).

(** The table an operation leaves behind, successful or not. *)
Definition run_op `{!IterOrder TokenId Lease} (op : lease_op) (t : LeaseTable) : LeaseTable :=
  match op with
  | OpCandidates id ip now => (candidate_ports id ip now t).2
  | OpActivate id key ip port now => (activate_with_recovery id key ip port now t).2
  | OpEnd id s now => (end_ id s now t).2
  | OpRotate old new now => (rotate_claim old new now t).2
  | OpRecover key new ip now => (recover_claim key new ip now t).2
  | OpReap now => reap_expired now t
  end.

Definition run_ops `{!IterOrder TokenId Lease} (ops : list lease_op) (t : LeaseTable) : LeaseTable :=
  foldl (λ t op, run_op op t) t ops.

Arguments run_op : simpl never.

(** ** Preservation *)

Section preservation.
Context `{!IterOrder TokenId Lease}.
Implicit Types t : LeaseTable.

Lemma lease_inv_new : lease_inv LeaseTable_new.
Proof.
  split; [split|]; cbn.
  - apply leases_wf_empty.
  - unfold u64_ok, U64_MAX. lia.
  - intros id l s. by rewrite lookup_empty.
  - intros id1 id2 l1 l2 s. by rewrite lookup_empty.
  - intros s. unfold source_count. rewrite map_to_list_empty. cbn. lia.
Qed.

Lemma reap_inv now t : lease_inv t → lease_inv (reap_expired now t).
Proof.
  intros [Hwf Hq]. split; [split|].
  - eapply leases_wf_subseteq; [apply reap_subseteq|]. by apply wf_leases.
  - apply Hwf.
  - intros id l s [Hl _]%reap_lookup. by apply (wf_session_range t Hwf id).
  - intros id1 id2 l1 l2 s [H1 _]%reap_lookup [H2 _]%reap_lookup.
    by apply (wf_session_inj t Hwf id1 id2 l1 l2).
  - eapply quota_ok_subseteq; [apply reap_subseteq|done].
Qed.

(** Leases that are not active carry no obligation on sessions. *)
Lemma table_wf_insert_grace t k l e m : table_wf t →
  (∀ id x, m !! id = Some x → t.(leases) !! id = Some x) →
  Lease.status l = Grace e →
  leases_wf (<[k := l]> m) → table_wf (set_leases (<[k := l]> m) t).
Proof.
  intros Hwf Hsub Hg Hm.
  assert (Hl : ∀ id x s, <[k := l]> m !! id = Some x → Lease.status x = Active s →
                         t.(leases) !! id = Some x).
  { intros id x s. rewrite lookup_insert_Some. intros [[<- <-]|[_ Hx]] ?; [congruence|].
    by apply Hsub. }
  split; cbn; [done|by apply wf_next| |].
  - intros id x s Hx Hs. pose proof (Hl _ _ _ Hx Hs). by eapply (wf_session_range t Hwf).
  - intros id1 id2 x1 x2 s H1 H2 Hs1 Hs2.
    pose proof (Hl _ _ _ H1 Hs1). pose proof (Hl _ _ _ H2 Hs2).
    by eapply (wf_session_inj t Hwf).
Qed.

Lemma end_inv id s now t : lease_inv t → lease_inv (end_ id s now t).2.
Proof.
  intros [Hwf Hq]. destruct (end_ id s now t) as [[] t'] eqn:He; cbn.
  - apply end_true in He as (l & Hl & Hs & ->). split.
    + eapply table_wf_insert_grace; [done|done|done|].
      by eapply leases_wf_same_claim; [apply wf_leases|..].
    + intros src. cbn.
      pose proof (source_count_update src (leases t) id l
        (Lease.set_status (Grace (saturating_add_u64 now GRACE_MS)) l) Hl) as Hc.
      specialize (Hq src). unfold charge, lease_source in Hc. cbn in Hc. lia.
  - apply end_false in He as [-> _]. done.
Qed.

(** The lease written by an activation keeps the claims well formed. *)
Lemma activated_leases_wf id r ip port t s t' : leases_wf t.(leases) →
  activation_of id r ip port t s t' → leases_wf t'.(leases).
Proof.
  intros Hwf ((ports & (Hnr & Hc) & Hp) & Hrec & Henr & _ & -> & ->). cbn.
  destruct (leases t !! id) as [l|] eqn:Hl.
  - destruct Hc as (_ & -> & _). apply list_elem_of_singleton in Hp as ->.
    eapply leases_wf_update; [done..|]. intros k j y Hk Hj Hy. cbn in Hk.
    destruct (Lease.recovery_id l) as [e|] eqn:Hel; [|by eapply Hrec].
    eapply (wf_recovery_inj (leases t) Hwf _ _ y l e); congruence.
  - destruct Hc as (-> & _ & _). apply free_ports_elem in Hp as [Hrange Hfresh].
    apply leases_wf_insert_fresh; try done. cbn. intros j y k Hy -> Hk.
    assert (j = id) as -> by eauto. congruence.
Qed.

Lemma activation_inv id r ip port t s t' :
  lease_inv t → activation_of id r ip port t s t' → lease_inv t'.
Proof.
  intros [Hwf Hq] Hact.
  pose proof (activated_leases_wf _ _ _ _ _ _ _ (wf_leases t Hwf) Hact) as Hm.
  destruct Hact as ((ports & (_ & Hc) & _) & _ & _ & Hn & -> & ->).
  pose proof (wf_next t Hwf) as Hnext. unfold u64_ok in Hnext.
  assert (Hold : ∀ x l s, leases t !! x = Some l → Lease.status l = Active s →
    session_number s ≤ next_session_id t).
  { intros x l s Hx Hs. by apply (wf_session_range t Hwf x l s). }
  split; [split; cbn in *; [done|unfold u64_ok; lia| |]|].
  - intros x l s. rewrite lookup_insert_Some. intros [[<- <-]|[_ Hx]] Hs.
    + injection Hs as <-. cbn. lia.
    + pose proof (wf_session_range t Hwf x l s Hx Hs). lia.
  - intros x1 x2 l1 l2 s. rewrite !lookup_insert_Some.
    intros [[<- <-]|[_ H1]] [[<- <-]|[_ H2]] Hs1 Hs2; [done| | |].
    + injection Hs1 as <-. pose proof (Hold _ _ _ H2 Hs2) as Hle. cbn in Hle. lia.
    + injection Hs2 as <-. pose proof (Hold _ _ _ H1 Hs1) as Hle. cbn in Hle. lia.
    + by eapply (wf_session_inj t Hwf).
  - eapply (quota_after_charge (leases t) _ (leases t !! id)
      (activated_lease (leases t !! id) r ip port _) ip); [|done|done|]; cbn.
    + intros src. destruct (leases t !! id) as [l|] eqn:Hl; cbn.
      * by apply source_count_update.
      * rewrite source_count_insert by done. lia.
    + destruct (leases t !! id); naive_solver.
Qed.

(** Handing a claim to a new identity leaves it in its grace period. *)
Lemma transfer_inv t old new l l' e :
  lease_inv t → leases t !! old = Some l → leases t !! new = None →
  ¬ retired_somewhere new (leases t) →
  Lease.port l = Lease.port l' → Lease.recovery_id l = Lease.recovery_id l' →
  NoDup (Lease.retired_token_ids l') →
  (length (Lease.retired_token_ids l') ≤ MAX_RETIRED_IDENTITIES)%nat →
  (∀ x, x ∈ Lease.retired_token_ids l' → x ∈ Lease.retired_token_ids l ∨ x = old) →
  Lease.status l' = Grace e →
  lease_source l = lease_source l' ∨
  (∃ ip, Lease.last_ip l' = Some ip ∧ (lease_source l = Some (HostSource.from ip) ∨
     (source_count (HostSource.from ip) t.(leases) < MAX_TUNNELS_PER_IP)%nat)) →
  lease_inv (set_leases (<[new := l']> (delete old t.(leases))) t).
Proof.
  intros [Hwf Hq] Hold Hnew Hnr Hp Hr Hnd Hlen Hret Hg Hquota. split.
  - eapply table_wf_insert_grace; [done| |done|].
    + intros id x [_ Hx]%lookup_delete_Some. done.
    + eapply leases_wf_transfer; try done. by apply wf_leases.
  - cbn. pose proof (λ s, source_count_transfer s (leases t) old new l l' Hold Hnew) as Hc.
    destruct Hquota as [Hsrc|(ip & Hip & Hcheck)].
    + intros s. specialize (Hc s). specialize (Hq s). unfold charge in Hc.
      rewrite Hsrc in Hc. lia.
    + by eapply (quota_after_charge (leases t) _ (Some l)).
Qed.

Lemma rotation_inv old new t r t' :
  lease_inv t → rotation_of old new t r t' → lease_inv t'.
Proof.
  intros Hinv (Hne & Hm). destruct (leases t !! new) eqn:Hnew; [naive_solver|].
  destruct Hm as (Hn1 & Hn2 & Hm).
  destruct (leases t !! old) as [l|] eqn:Hold; [|naive_solver].
  destruct Hm as (Hg & Hret & _ & ->).
  destruct (Lease.status l) as [|e] eqn:Hs; [done|].
  apply (transfer_inv t old new l _ e); try done.
  - cbn. apply NoDup_singleton.
  - cbn. unfold MAX_RETIRED_IDENTITIES. lia.
  - cbn. intros x ->%list_elem_of_singleton. by right.
  - by left.
Qed.

Lemma push_retired_elem old x r : x ∈ push_retired old r → x ∈ r ∨ x = old.
Proof.
  unfold push_retired. intros Hx.
  assert (x ∈ r ++ [old]) as Hr.
  { case_match; [|done]. destruct (r ++ [old]) as [|y l]; [done|]. by right. }
  apply elem_of_app in Hr as [|Hx'%list_elem_of_singleton]; auto.
Qed.

Lemma push_retired_NoDup old r : NoDup r → old ∉ r → NoDup (push_retired old r).
Proof.
  intros Hnd Hold. unfold push_retired.
  assert (NoDup (r ++ [old])) as H.
  { apply NoDup_app. split_and!; [done| |apply NoDup_singleton].
    intros x Hx ->%list_elem_of_singleton. done. }
  case_match; [|done]. destruct (r ++ [old]); [done|]. by apply NoDup_cons in H as [_ ?].
Qed.

Lemma push_retired_length old r :
  (length r ≤ MAX_RETIRED_IDENTITIES)%nat →
  (length (push_retired old r) ≤ MAX_RETIRED_IDENTITIES)%nat.
Proof.
  intros Hr. unfold push_retired. destruct (Nat.ltb_spec MAX_RETIRED_IDENTITIES
    (length (r ++ [old]))) as [H|H]; [|done].
  rewrite length_app in H. destruct r as [|y r]; cbn in *; [lia|].
  rewrite length_app. cbn. lia.
Qed.

Lemma recovery_inv old l new ip now t r t' :
  lease_inv t → t.(leases) !! old = Some l → recovery_of old l new ip now t r t' →
  lease_inv t'.
Proof.
  intros Hinv Hold Hm. unfold recovery_of in Hm. case_decide as Hd; [naive_solver|].
  destruct Hm as (Hnew & Hnr & Hq & _ & ->).
  pose proof (wf_leases t (proj1 Hinv)) as Hwf.
  eapply (transfer_inv t old new l); try done; cbn.
  - apply push_retired_NoDup; [by eapply wf_retired_nodup|].
    intros Hin. pose proof (wf_retired_dead _ Hwf _ _ _ Hold Hin). congruence.
  - apply push_retired_length. by eapply wf_retired_bound.
  - intros x Hx. by apply push_retired_elem in Hx.
  - right. by exists ip.
Qed.

Lemma run_op_inv op t : lease_inv t → lease_inv (run_op op t).
Proof.
  intros Hinv. pose proof (λ now, reap_inv now t Hinv) as Hreap.
  destruct op as [id ip now|id r ip port now|id s now|old new now|k new ip now|now];
    unfold run_op.
  - rewrite candidate_ports_state. apply Hreap.
  - destruct (activate_with_recovery id r ip port now t) as [[s|e] t'] eqn:H; cbn.
    + apply activate_ok in H. eapply activation_inv; [apply Hreap|done].
    + apply activate_err in H as ->. apply Hreap.
  - by apply end_inv.
  - destruct (rotate_claim old new now t) as [[r|e] t'] eqn:H; cbn.
    + apply rotate_ok in H. eapply rotation_inv; [apply Hreap|done].
    + apply rotate_err in H as ->. apply Hreap.
  - destruct (recover_claim k new ip now t) as [[r|e] t'] eqn:H; cbn.
    + apply recover_ok in H as (old & l & Hf & H). apply find_recovery_Some in Hf as [Hl _].
      eapply recovery_inv; [apply Hreap|done..].
    + apply recover_err in H as ->. apply Hreap.
  - apply Hreap.
Qed.

Lemma run_ops_inv ops t : lease_inv t → lease_inv (run_ops ops t).
Proof.
  unfold run_ops. revert t. induction ops as [|op ops IH]; intros t Hinv; [done|].
  cbn. apply IH. by apply run_op_inv.
Qed.

Lemma run_ops_app ops1 ops2 t : run_ops (ops1 ++ ops2) t = run_ops ops2 (run_ops ops1 t).
Proof. apply foldl_app. Qed.
End preservation.

#[export] Hint Resolve lease_inv_new reap_inv end_inv run_op_inv run_ops_inv : gamenet.
