(* ===== verification/LeaseRestore.v ===== *)
(** What [LeaseTable::restore] accepts and builds, and how it undoes
    [LeaseTable::snapshot]: the facts about the saved form of the table. *)

From S2P Require Import Prelude Bytes HostAdmission LeaseTable LeaseFacts LeaseInv.

(** ** Accepted record lists *)

Definition all_ports (rs : list LeaseRecord) : list Z := LeaseRecord.port <$> rs.
Definition all_tokens (rs : list LeaseRecord) : list TokenId := LeaseRecord.token_id <$> rs.
Definition all_recovery_ids (rs : list LeaseRecord) : list TokenId :=
  rs ≫= λ r, option_list (LeaseRecord.recovery_id r).
Definition all_retired (rs : list LeaseRecord) : list TokenId :=
  rs ≫= LeaseRecord.retired_token_ids.

Definition record_ok (r : LeaseRecord) : Prop :=
  PORT_START ≤ LeaseRecord.port r ≤ PORT_END ∧
  (length (LeaseRecord.retired_token_ids r) ≤ MAX_RETIRED_IDENTITIES)%nat.

Record records_ok (rs : list LeaseRecord) : Prop := {
  ro_length : (length rs ≤ 1000)%nat;
  ro_each : Forall record_ok rs;
  ro_ports : NoDup (all_ports rs);
  ro_tokens : NoDup (all_tokens rs);
  ro_recovery : NoDup (all_recovery_ids rs);
  ro_retired : NoDup (all_retired rs);
  ro_disjoint id : id ∈ all_tokens rs → id ∉ all_retired rs;
}.

(** The lease a record stands for. *)
Definition record_lease (r : LeaseRecord) : Lease :=
  {| Lease.port := LeaseRecord.port r;
     Lease.last_ip := LeaseRecord.last_ip r;
     Lease.retired_token_ids := LeaseRecord.retired_token_ids r;
     Lease.recovery_id := LeaseRecord.recovery_id r;
     Lease.status := Grace (LeaseRecord.expires_at_ms r) |}.

(** A saved lease: an active one is saved as if its host left at [now]. *)
Definition demote (now : Z) (l : Lease) : Lease :=
  Lease.set_status
    (Grace match Lease.status l with
           | Active _ => saturating_add_u64 now GRACE_MS
           | Grace e => e
           end) l.

(** The table a restart at [now'] finds after a save at [now]. *)
Definition restarted (now now' : Z) (t : LeaseTable) : LeaseTable :=
  {| leases := filter (λ kv, expired now' kv.2 = false) (demote now <$> t.(leases));
     next_session_id := 0 |}.

(** ** The loop of [restore] *)

(** What one iteration requires of a record, and what it adds. *)
Definition record_fresh (st : RestoreState) (r : LeaseRecord) : Prop :=
  record_ok r ∧ LeaseRecord.port r ∉ r_ports st ∧ LeaseRecord.token_id r ∉ r_tokens st ∧
  (∀ k, LeaseRecord.recovery_id r = Some k → k ∉ r_recovery_ids st) ∧
  NoDup (LeaseRecord.retired_token_ids r) ∧
  (∀ x, x ∈ LeaseRecord.retired_token_ids r → x ≠ LeaseRecord.token_id r ∧ x ∉ r_retired st).

Definition add_record (now : Z) (st : RestoreState) (r : LeaseRecord) : RestoreState :=
  {| r_leases := if LeaseRecord.expires_at_ms r <=? now then r_leases st
                 else <[LeaseRecord.token_id r := record_lease r]> (r_leases st);
     r_ports := {[LeaseRecord.port r]} ∪ r_ports st;
     r_tokens := {[LeaseRecord.token_id r]} ∪ r_tokens st;
     r_retired := list_to_set (LeaseRecord.retired_token_ids r) ∪ r_retired st;
     r_recovery_ids := list_to_set (option_list (LeaseRecord.recovery_id r)) ∪ r_recovery_ids st |}.

Lemma insert_new_ok {A} `{Countable A} (x : A) s e s' :
  insert_new x s e = Ok s' ↔ x ∉ s ∧ s' = {[x]} ∪ s.
Proof. unfold insert_new. case_decide; naive_solver. Qed.

Lemma insert_new_run {A} `{Countable A} (x : A) s e :
  x ∉ s → insert_new x s e = Ok ({[x]} ∪ s).
Proof. intros Hx. by apply insert_new_ok. Qed.

Lemma retired_loop_ok id l (s s' : gset TokenId) :
  try_fold (λ retired old,
    check (bool_decide (old ≠ id)) (Msg "Identity cannot retire itself");;
    insert_new old retired (Msg "Duplicate retired token ID")) s l = Ok s' ↔
  NoDup l ∧ (∀ x, x ∈ l → x ≠ id ∧ x ∉ s) ∧ s' = list_to_set l ∪ s.
Proof.
  revert s. induction l as [|y l IH]; intros s; cbn [try_fold list_to_set].
  - rewrite (left_id_L ∅ (∪)). split; [|naive_solver].
    intros [= ->]. split_and!; [constructor| |done]. by intros x ?%elem_of_nil.
  - rewrite NoDup_cons. setoid_rewrite elem_of_cons. split.
    + case_match eqn:E; [|done]. intros H'. inv_ok. bool_prop.
      apply insert_new_ok in E as [Hy ->]. apply IH in H' as (Hnd & Hl & ->).
      split_and!; [|done| |].
      * intros Hin. apply Hl in Hin. set_solver.
      * intros x [->|Hx]; [done|]. apply Hl in Hx. set_solver.
      * rewrite !(assoc_L (∪)), (comm_L (∪) {[y]}). done.
    + intros ([Hy Hnd] & Hl & ->). destruct (Hl y) as [Hyid Hys]; [by left|].
      rewrite bool_decide_true by done. cbn -[insert_new]. rewrite insert_new_run by done.
      apply IH. split_and!; [done| |].
      * intros x Hx. destruct (Hl x) as [? ?]; [by right|]. split; [done|].
        rewrite elem_of_union, elem_of_singleton. naive_solver.
      * rewrite !(assoc_L (∪)), (comm_L (∪) {[y]}). done.
Qed.

Lemma restore_record_ok now st r st' :
  restore_record now st r = Ok st' ↔ record_fresh st r ∧ st' = add_record now st r.
Proof.
  unfold restore_record, record_fresh, record_ok, add_record, record_lease. split.
  - intros H. inv_ok. bool_prop.
    repeat match goal with
    | H : insert_new _ _ _ = Ok _ |- _ => apply insert_new_ok in H as [? ->]
    end.
    rename select (try_fold _ _ _ = Ok _) into Hret.
    apply retired_loop_ok in Hret as (Hnd & Hret & ->).
    rename select ((_ <=? _)%nat = true) into Hlen. apply Nat.leb_le in Hlen.
    destruct (LeaseRecord.recovery_id r) as [k|] eqn:Hk.
    + rename select (insert_new _ _ _ = Ok _) into Hi. apply insert_new_ok in Hi as [Hi ->].
      simplify_eq. cbn. rewrite (right_id_L ∅ (∪)).
      split; [|done]. split_and!; try (done || lia). by intros ? [= <-].
    + simplify_eq. cbn. rewrite (left_id_L ∅ (∪)). split; [|done]. by split_and!; try lia.
  - intros (((Hp & Hlen) & Hport & Htok & Hrec & Hnd & Hret) & ->).
    rewrite bool_decide_true by done. cbn -[insert_new try_fold].
    rewrite !insert_new_run by done. cbn -[insert_new try_fold].
    rewrite (proj2 (Nat.leb_le _ _)), (proj2 (retired_loop_ok _ _ _ _)) by done.
    destruct (LeaseRecord.recovery_id r) as [k|]; cbn -[insert_new].
    + rewrite insert_new_run by eauto. cbn. by rewrite (right_id_L ∅ (∪)).
    + by rewrite (left_id_L ∅ (∪)).
Qed.

Fixpoint all_fresh (now : Z) (st : RestoreState) (rs : list LeaseRecord) : Prop :=
  match rs with
  | [] => True
  | r :: rs => record_fresh st r ∧ all_fresh now (add_record now st r) rs
  end.

Lemma restore_loop_ok now rs st st' :
  try_fold (restore_record now) st rs = Ok st' ↔
  all_fresh now st rs ∧ st' = foldl (add_record now) st rs.
Proof.
  revert st. induction rs as [|r rs IH]; intros st; cbn [try_fold all_fresh foldl].
  - naive_solver.
  - destruct (restore_record now st r) as [st1|e] eqn:Hr.
    + apply restore_record_ok in Hr as [Hf ->]. rewrite IH. naive_solver.
    + split; [done|]. intros [[Hf _] _].
      pose proof (proj2 (restore_record_ok now st r _) (conj Hf eq_refl)). congruence.
Qed.

(** The loop accepts the lists without duplicates, across all records. *)
Lemma all_fresh_iff now rs st :
  all_fresh now st rs ↔
  Forall record_ok rs ∧
  Forall (λ r, ∀ x, x ∈ LeaseRecord.retired_token_ids r → x ≠ LeaseRecord.token_id r) rs ∧
  (NoDup (all_ports rs) ∧ ∀ p, p ∈ all_ports rs → p ∉ r_ports st) ∧
  (NoDup (all_tokens rs) ∧ ∀ p, p ∈ all_tokens rs → p ∉ r_tokens st) ∧
  (NoDup (all_recovery_ids rs) ∧ ∀ p, p ∈ all_recovery_ids rs → p ∉ r_recovery_ids st) ∧
  (NoDup (all_retired rs) ∧ ∀ p, p ∈ all_retired rs → p ∉ r_retired st).
Proof.
  revert st. induction rs as [|r rs IH]; intros st; cbn [all_fresh].
  - split; [|done]. intros _. unfold all_ports, all_tokens, all_recovery_ids, all_retired.
    cbn. split_and!; by (constructor || (intros ? ?%elem_of_nil)).
  - rewrite IH, !Forall_cons.
    assert (Hrec : ∀ k, k ∈ option_list (LeaseRecord.recovery_id r) ↔
                        LeaseRecord.recovery_id r = Some k).
    { intros k. destruct (LeaseRecord.recovery_id r); cbn; set_solver. }
    assert (Hrnd : NoDup (option_list (LeaseRecord.recovery_id r))).
    { destruct (LeaseRecord.recovery_id r); cbn; [apply NoDup_singleton|constructor]. }
    unfold record_fresh, all_ports, all_tokens, all_recovery_ids, all_retired, add_record.
    cbn. rewrite !NoDup_cons, !NoDup_app. setoid_rewrite elem_of_cons.
    setoid_rewrite elem_of_app. setoid_rewrite elem_of_union.
    setoid_rewrite elem_of_list_to_set. setoid_rewrite elem_of_singleton.
    setoid_rewrite Hrec. naive_solver.
Qed.

(** The fields the loop accumulates. *)
Lemma restore_fold_fields now rs st :
  r_tokens (foldl (add_record now) st rs) = list_to_set (all_tokens rs) ∪ r_tokens st ∧
  r_retired (foldl (add_record now) st rs) = list_to_set (all_retired rs) ∪ r_retired st.
Proof.
  revert st. induction rs as [|r rs IH]; intros st; cbn.
  - by rewrite !(left_id_L ∅ (∪)).
  - destruct (IH (add_record now st r)) as [-> ->]. cbn. unfold all_retired. cbn.
    rewrite list_to_set_app_L. fold (all_retired rs). set_solver.
Qed.

Lemma restore_fold_lookup now rs st id l : NoDup (all_tokens rs) →
  (∀ x, x ∈ all_tokens rs → r_leases st !! x = None) →
  r_leases (foldl (add_record now) st rs) !! id = Some l ↔
  r_leases st !! id = Some l ∨
  ∃ r, r ∈ rs ∧ LeaseRecord.token_id r = id ∧ now < LeaseRecord.expires_at_ms r ∧
       l = record_lease r.
Proof.
  revert st. induction rs as [|r rs IH]; intros st; cbn.
  - intros _ _. split; [by left|]. intros [?|(r & ?%elem_of_nil & _)]; done.
  - intros [Hr Hnd]%NoDup_cons Hnone. rewrite IH; [|done|].
    + clear IH. setoid_rewrite elem_of_cons. cbn.
      destruct (Z.leb_spec (LeaseRecord.expires_at_ms r) now) as [Hle|Hlt].
      * split; [naive_solver|]. intros [?|(x & [->|Hx] & ? & ? & ?)]; [by left|lia|].
        right. eauto.
      * rewrite lookup_insert_Some. split.
        -- intros [[[<- <-]|[? ?]]|(x & ? & ?)]; [|by left|]; right; naive_solver.
        -- intros [Hl|(x & [->|Hx] & Hid & ? & ?)].
           ++ left. right. split; [|done]. intros <-.
              rewrite Hnone in Hl; [done|by left].
           ++ left. left. naive_solver.
           ++ right. eauto.
    + intros x Hx. cbn. assert (x ≠ LeaseRecord.token_id r) by (intros ->; done).
      case_match; [|rewrite lookup_insert_ne by done]; apply Hnone; by right.
Qed.

Lemma restored_lookup rs now : records_ok rs → ∀ id l,
  r_leases (foldl (add_record now) restore_init rs) !! id = Some l ↔
  ∃ r, r ∈ rs ∧ LeaseRecord.token_id r = id ∧ now < LeaseRecord.expires_at_ms r ∧
       l = record_lease r.
Proof.
  intros Hok id l. rewrite restore_fold_lookup by (apply Hok || intros; apply lookup_empty).
  cbn. rewrite lookup_empty. naive_solver.
Qed.

(** [restore] accepts exactly the lists without duplicates, and keeps exactly
    the records that have not expired. *)
Lemma restore_ok rs now t :
  restore rs now = Ok t ↔
  records_ok rs ∧ next_session_id t = 0 ∧
  ∀ id l, t.(leases) !! id = Some l ↔
    ∃ r, r ∈ rs ∧ LeaseRecord.token_id r = id ∧ now < LeaseRecord.expires_at_ms r ∧
         l = record_lease r.
Proof.
  unfold restore.
  pose proof (restored_lookup rs now) as Hlook.
  destruct (restore_fold_fields now rs restore_init) as [Htok Hret].
  cbn in Htok, Hret. rewrite !(right_id_L ∅ (∪)) in Htok, Hret.
  split.
  - intros H. inv_ok. bool_prop. rename select ((_ <=? _)%nat = true) into Hlen.
    apply Nat.leb_le in Hlen. rename select (try_fold _ _ _ = _) into Hl.
    apply restore_loop_ok in Hl as [Hf ->]. apply all_fresh_iff in Hf.
    rewrite Htok, Hret in *. simplify_eq. cbn.
    assert (Hok : records_ok rs) by (split; try apply Hf; [exact Hlen|set_solver]).
    split_and!; [done..|]. by apply Hlook.
  - intros (Hok & Hn & Ht). rewrite (proj2 (Nat.leb_le _ _)) by apply Hok. cbn -[try_fold].
    rewrite (proj2 (restore_loop_ok now rs restore_init (foldl (add_record now) restore_init rs))).
    + cbn. rewrite Htok, Hret, bool_decide_true.
      * cbn. f_equal. destruct t as [m n]. cbn in *. subst n. f_equal.
        apply map_eq. intros id. apply option_eq. intros l. by rewrite Hlook, Ht by done.
      * intros id. rewrite !elem_of_list_to_set. apply Hok.
    + split; [|done]. apply all_fresh_iff. destruct Hok as [? ? ? ? ? ? Hdisj].
      cbn. split_and!; try done; try (intros; apply not_elem_of_empty).
      apply Forall_forall. intros r Hr x Hx ->. apply (Hdisj (LeaseRecord.token_id r)).
      * unfold all_tokens. by apply list_elem_of_fmap_2.
      * unfold all_retired. apply list_elem_of_bind. eauto.
Qed.

Lemma restored rs now : records_ok rs → ∃ t, restore rs now = Ok t ∧
  ∀ id l, t.(leases) !! id = Some l ↔
    ∃ r, r ∈ rs ∧ LeaseRecord.token_id r = id ∧ now < LeaseRecord.expires_at_ms r ∧
         l = record_lease r.
Proof.
  intros Hok. pose proof (restored_lookup rs now Hok) as Hlk.
  exists {| leases := r_leases (foldl (add_record now) restore_init rs); next_session_id := 0 |}.
  split; [|done]. by apply restore_ok.
Qed.

(** ** What a restored table satisfies *)

Lemma NoDup_fmap_same {A B} (f : A → B) l x y : NoDup (f <$> l) → x ∈ l → y ∈ l → f x = f y → x = y.
Proof.
  intros Hnd (i & Hi)%list_elem_of_lookup (j & Hj)%list_elem_of_lookup Hf.
  assert (i = j) as ->; [|congruence].
  apply (NoDup_lookup _ _ _ (f x) Hnd); rewrite list_lookup_fmap; [by rewrite Hi|by rewrite Hj, Hf].
Qed.

Lemma NoDup_bind_each {A B} (f : A → list B) l x : NoDup (l ≫= f) → x ∈ l → NoDup (f x).
Proof.
  induction l as [|a l IH]; [by intros _ ?%elem_of_nil|].
  cbn. intros (Ha & _ & Hl)%NoDup_app [->|Hx]%elem_of_cons; auto.
Qed.

Lemma NoDup_bind_same {A B} (f : A → list B) l x y b : NoDup (l ≫= f) → x ∈ l → y ∈ l →
  b ∈ f x → b ∈ f y → x = y.
Proof.
  induction l as [|a l IH]; [by intros _ ?%elem_of_nil|].
  cbn. intros (_ & Hd & Hl)%NoDup_app. rewrite !elem_of_cons.
  assert (Hb : ∀ z, z ∈ l → b ∈ f z → b ∈ l ≫= f) by (intros z ? ?; apply list_elem_of_bind; eauto).
  intros [->|Hx] [->|Hy] Hbx Hby; [done|destruct (Hd b Hbx); eauto|destruct (Hd b Hby); eauto|auto].
Qed.

(** Whatever the records were, a table restored from them is well formed; only
    the quota of a source is not checked. *)
Lemma restore_wf rs now t : restore rs now = Ok t → table_wf t.
Proof.
  intros ([_ Heach Hports Htok Hrec Hret Hdisj] & Hn & Hl)%restore_ok.
  rewrite Forall_forall in Heach.
  assert (Hback : ∀ id l, leases t !! id = Some l →
    ∃ r, r ∈ rs ∧ LeaseRecord.token_id r = id ∧ l = record_lease r).
  { intros id l (r & ? & ? & _ & ?)%Hl. eauto. }
  split.
  - split.
    + intros id l (r & Hr & _ & ->)%Hback. by apply Heach.
    + intros id1 id2 l1 l2 (r1 & H1 & <- & ->)%Hback (r2 & H2 & <- & ->)%Hback Hp.
      f_equal. by apply (NoDup_fmap_same LeaseRecord.port rs).
    + intros id1 id2 l1 l2 k (r1 & H1 & <- & ->)%Hback (r2 & H2 & <- & ->)%Hback Hk1 Hk2. cbn in *.
      f_equal. apply (NoDup_bind_same _ _ _ _ k Hrec H1 H2);
        [rewrite Hk1|rewrite Hk2]; by apply list_elem_of_singleton.
    + intros id l old (r & Hr & _ & ->)%Hback Hold. destruct (leases t !! old) as [l'|] eqn:E; [|done].
      apply Hback in E as (r' & Hr' & <- & _). destruct (Hdisj (LeaseRecord.token_id r')).
      * by apply list_elem_of_fmap_2.
      * apply list_elem_of_bind. by exists r.
    + intros id l (r & Hr & _ & ->)%Hback. by apply (NoDup_bind_each LeaseRecord.retired_token_ids rs).
    + intros id1 id2 l1 l2 old (r1 & H1 & <- & ->)%Hback (r2 & H2 & <- & ->)%Hback Ho1 Ho2.
      f_equal. by apply (NoDup_bind_same LeaseRecord.retired_token_ids rs _ _ old).
    + intros id l (r & Hr & _ & ->)%Hback. by apply Heach.
  - rewrite Hn. unfold u64_ok, U64_MAX. lia.
  - by intros id l s (r & _ & _ & ->)%Hback.
  - by intros id1 id2 l1 l2 s (r & _ & _ & ->)%Hback.
Qed.

(** ** Snapshots *)

Section snapshot.
Context `{!IterOrder TokenId Lease}.

Lemma snapshot_elem now t r :
  r ∈ snapshot now t ↔ ∃ id l, t.(leases) !! id = Some l ∧ r = to_record now id l.
Proof.
  unfold snapshot. rewrite list_elem_of_fmap. split.
  - intros ([id l] & -> & Hl%elem_of_iter). eauto.
  - intros (id & l & Hl & ->). exists (id, l). split; [done|]. by apply elem_of_iter.
Qed.

Lemma records_ok_perm rs rs' : rs ≡ₚ rs' → records_ok rs → records_ok rs'.
Proof.
  intros Hp [H1 H2 H3 H4 H5 H6 H7].
  assert (Ht : all_tokens rs ≡ₚ all_tokens rs') by (unfold all_tokens; by rewrite Hp).
  assert (Hr : all_retired rs ≡ₚ all_retired rs') by (unfold all_retired; by rewrite Hp).
  split; unfold all_ports, all_recovery_ids in *; rewrite <- ?Hp, <- ?Ht, <- ?Hr; try done.
  intros id. rewrite <- Ht, <- Hr. apply H7.
Qed.

Lemma restore_perm rs rs' now : rs ≡ₚ rs' → records_ok rs' → restore rs now = restore rs' now.
Proof.
  intros Hp Hok. destruct (restored rs' now Hok) as (t & Ht & _). rewrite Ht.
  apply restore_ok in Ht as (_ & Hn & Hl). apply restore_ok.
  split_and!; [by eapply records_ok_perm; [symmetry|]|done|]. intros id l. by setoid_rewrite Hp.
Qed.

(** Distinct ports of the range are at most a thousand. *)
Lemma ports_bounded (l : list Z) :
  NoDup l → Forall (λ p, PORT_START ≤ p ≤ PORT_END) l → (length l ≤ 1000)%nat.
Proof.
  intros Hnd Hr. rewrite Forall_forall in Hr.
  assert (l ⊆+ seqZ 10000 1000) as Hsub%submseteq_length.
  { apply NoDup_submseteq; [done|]. intros p Hp. apply elem_of_seqZ.
    specialize (Hr p Hp). unfold PORT_START, PORT_END in Hr. lia. }
  by rewrite length_seqZ in Hsub.
Qed.

(** A keyed attribute that determines the key never repeats in the entries. *)
Lemma NoDup_entries {B} (m : gmap TokenId Lease) (f : Lease → list B) :
  (∀ id l, m !! id = Some l → NoDup (f l)) →
  (∀ id1 id2 l1 l2 y, m !! id1 = Some l1 → m !! id2 = Some l2 →
     y ∈ f l1 → y ∈ f l2 → id1 = id2) →
  NoDup (iter m ≫= λ '(_, l), f l).
Proof.
  intros Hnd Hinj. apply NoDup_bind.
  - intros [id1 l1] [id2 l2] y H1 H2 Hy1 Hy2. apply elem_of_iter in H1, H2.
    assert (id1 = id2) as -> by eauto. congruence.
  - intros [id l] Hl. apply elem_of_iter in Hl. eauto.
  - apply NoDup_iter.
Qed.

Lemma snapshot_records_ok now t : leases_wf t.(leases) → records_ok (snapshot now t).
Proof.
  intros Hwf.
  assert (Heach : Forall record_ok (snapshot now t)).
  { apply Forall_forall. intros r (id & l & Hl & ->)%snapshot_elem.
    split; cbn; [by eapply wf_port_range|by eapply wf_retired_bound]. }
  assert (Hports : NoDup (all_ports (snapshot now t))).
  { pose proof (NoDup_entries (leases t) (λ l, [Lease.port l])) as H.
    unfold all_ports, snapshot. rewrite <- list_fmap_compose.
    replace (_ <$> iter (leases t)) with (iter (leases t) ≫= λ '(_, l), [Lease.port l]).
    - apply H; [intros; apply NoDup_singleton|].
      intros id1 id2 l1 l2 y H1 H2 Hy1%list_elem_of_singleton Hy2%list_elem_of_singleton.
      eapply (wf_port_inj _ Hwf); eauto. congruence.
    - clear. induction (iter (leases t)) as [|[id l] m IH]; [done|]. cbn. by rewrite IH. }
  split; [|done|done|..].
  - pose proof (ports_bounded _ Hports) as Hlen. unfold all_ports in Hlen.
    rewrite length_fmap in Hlen. apply Hlen. apply Forall_fmap.
    eapply Forall_impl; [exact Heach|]. by intros r [? _].
  - unfold all_tokens, snapshot. rewrite <- list_fmap_compose.
    pose proof (NoDup_iter_keys (leases t)) as H. erewrite list_fmap_ext; [exact H|].
    by intros i [id l].
  - unfold all_recovery_ids, snapshot. rewrite list_fmap_bind.
    pose proof (NoDup_entries (leases t) (λ l, option_list (Lease.recovery_id l))) as H.
    erewrite list_bind_ext; [apply H| |done]; cbn.
    + intros id l _. destruct (Lease.recovery_id l); cbn; [apply NoDup_singleton|constructor].
    + intros id1 id2 l1 l2 y H1 H2 Hy1 Hy2. eapply (wf_recovery_inj _ Hwf _ _ l1 l2 y); try done.
      * destruct (Lease.recovery_id l1); cbn in Hy1; set_solver.
      * destruct (Lease.recovery_id l2); cbn in Hy2; set_solver.
    + by intros [id l].
  - unfold all_retired, snapshot. rewrite list_fmap_bind.
    pose proof (NoDup_entries (leases t) Lease.retired_token_ids) as H.
    erewrite list_bind_ext; [apply H| |done]; cbn.
    + intros id l. by eapply wf_retired_nodup.
    + intros id1 id2 l1 l2 y. by eapply wf_retired_inj.
    + by intros [id l].
  - intros id Ht Hr. unfold all_tokens, all_retired in *.
    apply list_elem_of_fmap in Ht as (r1 & -> & (id1 & l1 & H1 & ->)%snapshot_elem).
    apply list_elem_of_bind in Hr as (r2 & Hr & (id2 & l2 & H2 & ->)%snapshot_elem).
    cbn in *. pose proof (wf_retired_dead _ Hwf _ _ _ H2 Hr). congruence.
Qed.

(** Saving and restoring, in whatever order the records are listed. *)
Lemma restore_snapshot_perm now now' t rs :
  leases_wf t.(leases) → rs ≡ₚ snapshot now t →
  restore rs now' = Ok (restarted now now' t).
Proof.
  intros Hwf Hp. apply restore_ok. split_and!; [|done|].
  - eapply records_ok_perm; [symmetry; exact Hp|]. by apply snapshot_records_ok.
  - intros id l. unfold restarted. cbn.
    rewrite map_lookup_filter_Some, lookup_fmap, fmap_Some. split.
    + intros [(x & Hx & ->) He]. exists (to_record now id x).
      split_and!; [rewrite Hp; apply snapshot_elem; eauto|done| |by destruct x].
      cbn in *. unfold expired, demote in He. cbn in He. by apply Z.leb_gt in He.
    + intros (r & Hr & Hid & Hlt & ->). rewrite Hp in Hr.
      apply snapshot_elem in Hr as (id' & x & Hx & ->). cbn in Hid. subst id'. split.
      * exists x. split; [done|]. by destruct x.
      * unfold expired. cbn in *. by apply Z.leb_gt.
Qed.

Lemma restarted_inv now now' t : lease_inv t → lease_inv (restarted now now' t).
Proof.
  intros [Hwf Hq].
  assert (Hlk : ∀ id l, leases (restarted now now' t) !! id = Some l →
    ∃ x, leases t !! id = Some x ∧ l = demote now x).
  { intros id l. cbn. rewrite map_lookup_filter_Some, lookup_fmap, fmap_Some. naive_solver. }
  pose proof (wf_leases t Hwf) as Hm. split; [split|].
  - assert (Hinj : ∀ id1 id2, is_Some (leases (restarted now now' t) !! id1) →
      is_Some (leases (restarted now now' t) !! id2) → id id1 = id id2 → id1 = id2) by done.
    apply (leases_wf_image (leases t) _ id Hm Hinj).
    + apply (recovery_inj_image (leases t) _ id Hm Hinj).
      intros id l (x & Hx & ->)%Hlk. by exists x.
    + intros id l (x & Hx & ->)%Hlk. exists x.
      split_and!; [done|done|exact (wf_retired_nodup _ Hm _ _ Hx)
        |exact (wf_retired_bound _ Hm _ _ Hx)|].
      intros y Hy. split; [by left|]. destruct (leases (restarted now now' t) !! y) eqn:E; [|done].
      apply Hlk in E as (z & Hz & _). pose proof (wf_retired_dead _ Hm _ _ _ Hx Hy). congruence.
  - unfold u64_ok, U64_MAX. cbn. lia.
  - intros id l s (x & _ & ->)%Hlk. done.
  - intros id1 id2 l1 l2 s (x & _ & ->)%Hlk. done.
  - intros s. etrans; [apply source_count_subseteq, map_filter_subseteq|].
    specialize (Hq s). unfold source_count in *. rewrite map_to_list_fmap.
    etrans; [|exact Hq]. clear. induction (map_to_list (leases t)) as [|[k x] m IH]; [done|].
    cbn -[filter]. rewrite !filter_cons. unfold demote at 1, lease_source at 1. cbn.
    fold (lease_source x). case_decide; cbn in *; lia.
Qed.
End snapshot.
