(* ===== verification/LeaseProps.v ===== *)
(** The properties of the lease table: its invariant over every history,
    what reconnecting, ending, rotating and recovering a claim do, and what a
    restart keeps. *)

From S2P Require Import Prelude Bytes HostAdmission LeaseTable LeaseFacts LeaseInv LeaseRestore.
From Stdlib Require Import Strings.Byte.
From S2P Require Import Prelude.

(** ** Histories *)

(** Tables a relay can hold: any sequence of operations, and restarts from a
    snapshot taken at any moment and listed in any order. *)
Inductive table_reachable `{!IterOrder TokenId Lease} : LeaseTable → Prop :=
  | reach_new : table_reachable LeaseTable_new
  | reach_op op t : table_reachable t → table_reachable (run_op op t)
  | reach_restart now now' rs t t' :
      table_reachable t → rs ≡ₚ snapshot now t → restore rs now' = Ok t' →
      table_reachable t'.

(** The time an operation runs at, and whether it addresses the claim of [id]
    (by its token, by the session holding it, or by its recovery key). *)
Definition op_time (op : lease_op) : Z :=
  match op with
  | OpCandidates _ _ now | OpActivate _ _ _ _ now | OpEnd _ _ now | OpRotate _ _ now
  | OpRecover _ _ _ now | OpReap now => now
  end.

Definition op_addresses (id : TokenId) (key : option TokenId) (op : lease_op) : Prop :=
  match op with
  | OpCandidates _ _ _ | OpReap _ => False
  | OpActivate id' _ _ _ _ | OpEnd id' _ _ | OpRotate id' _ _ => id' = id
  | OpRecover k _ _ _ => key = Some k
  end.

#[global] Instance op_addresses_dec id key op : Decision (op_addresses id key op).
Proof. destruct op; cbn; apply _. Defined.

(** After [op], some lease keeps the port and the key [k] of the claim [l] of
    [id]: under the same identity, or under one that retired it; an active
    claim changes identity only by presenting the key. *)
Definition claim_kept (op : lease_op) (id : TokenId) (l : Lease) (k : TokenId)
    (t' : LeaseTable) : Prop :=
  ∃ id' l', t'.(leases) !! id' = Some l' ∧
    Lease.port l' = Lease.port l ∧ Lease.recovery_id l' = Some k ∧
    (id' = id ∨ id ∈ Lease.retired_token_ids l') ∧
    (id' ≠ id → is_grace (Lease.status l) = false →
     ∃ new ip now, op = OpRecover k new ip now).

(** The claim is alive at [now]. *)
Definition alive_at (now : Z) (l : Lease) : Prop := expired now l = false.

(** ** Helper lemmas *)

Section helpers.
Context `{!IterOrder TokenId Lease}.

Lemma reachable_lease_inv t : table_reachable t → lease_inv t.
Proof.
  induction 1 as [|op t _ IH|now now' rs t t' _ IH Hp Hr]; [by auto with gamenet..|].
  pose proof (restore_snapshot_perm now now' t rs (wf_leases t (proj1 IH)) Hp) as Hs.
  rewrite Hs in Hr. injection Hr as <-. by apply restarted_inv.
Qed.

Lemma run_op_next op t : next_session_id t ≤ next_session_id (run_op op t).
Proof.
  assert (Hr : ∀ now, next_session_id t ≤ next_session_id (reap_expired now t))
    by (intros now; rewrite reap_next; lia).
  destruct op as [id ip now|id r ip port now|id s now|old new now|k new ip now|now];
    unfold run_op.
  - rewrite candidate_ports_state. apply Hr.
  - destruct (activate_with_recovery id r ip port now t) as [[s|e] t'] eqn:H; cbn.
    + apply activate_ok in H as (_ & _ & _ & _ & _ & ->). cbn. specialize (Hr now). lia.
    + apply activate_err in H as ->. apply Hr.
  - unfold end_. repeat case_match; cbn; lia.
  - destruct (rotate_claim old new now t) as [[r|e] t'] eqn:H; cbn.
    + apply rotate_ok in H as (_ & H). specialize (Hr now). repeat case_match; destruct_and!; subst; cbn; lia.
    + apply rotate_err in H as ->. apply Hr.
  - destruct (recover_claim k new ip now t) as [[r|e] t'] eqn:H; cbn.
    + apply recover_ok in H as (old & l & _ & H). unfold recovery_of in H.
      specialize (Hr now). case_decide; destruct_and!; subst; cbn; lia.
    + apply recover_err in H as ->. apply Hr.
  - apply Hr.
Qed.

Lemma run_ops_next ops t : next_session_id t ≤ next_session_id (run_ops ops t).
Proof.
  unfold run_ops. revert t. induction ops as [|op ops IH]; intros t; cbn; [lia|].
  pose proof (run_op_next op t). specialize (IH (run_op op t)). lia.
Qed.

(** An operation that does not address a claim leaves it alone while it lives. *)
Lemma run_op_undisturbed op t id l :
  t.(leases) !! id = Some l → ¬ op_addresses id (Lease.recovery_id l) op →
  alive_at (op_time op) l → (run_op op t).(leases) !! id = Some l.
Proof.
  intros Hl Ha Halive.
  assert (Hreap : leases (reap_expired (op_time op) t) !! id = Some l)
    by by apply reap_lookup.
  destruct op as [id' ip now|id' r ip port now|id' s now|old new now|k new ip now|now];
    unfold run_op; cbn in Ha, Hreap.
  - by rewrite candidate_ports_state.
  - destruct (activate_with_recovery id' r ip port now t) as [[s|e] t'] eqn:H; cbn.
    + apply activate_ok in H as (_ & _ & _ & _ & _ & ->). cbn.
      by rewrite lookup_insert_ne.
    + by apply activate_err in H as ->.
  - destruct (end_ id' s now t) as [[] t'] eqn:H; cbn.
    + apply end_true in H as (x & _ & _ & ->). cbn. by rewrite lookup_insert_ne.
    + by apply end_false in H as [-> _].
  - destruct (rotate_claim old new now t) as [[r|e] t'] eqn:H; cbn.
    + apply rotate_ok in H as (_ & H). repeat case_match; destruct_and!; subst; try done.
      cbn. by rewrite lookup_insert_ne, lookup_delete_ne by congruence.
    + by apply rotate_err in H as ->.
  - destruct (recover_claim k new ip now t) as [[r|e] t'] eqn:H; cbn.
    + apply recover_ok in H as (old & x & Hf & H). apply find_recovery_Some in Hf as [Hx Hk].
      unfold recovery_of in H. case_decide; destruct_and!; subst; [done|].
      cbn. rewrite lookup_insert_ne, lookup_delete_ne by congruence. done.
    + by apply recover_err in H as ->.
  - done.
Qed.

Lemma run_ops_undisturbed ops t id l :
  t.(leases) !! id = Some l →
  Forall (λ op, ¬ op_addresses id (Lease.recovery_id l) op ∧ alive_at (op_time op) l) ops →
  (run_ops ops t).(leases) !! id = Some l.
Proof.
  unfold run_ops. intros Hl Hops. revert t Hl.
  induction Hops as [|op ops [Ha Ht] _ IH]; intros t Hl; [done|].
  cbn. apply IH. by apply run_op_undisturbed.
Qed.

(** Another identity is never offered the port of a live claim. *)
Lemma candidates_exclude t id l id' ip ports :
  leases_wf t.(leases) → t.(leases) !! id = Some l → id' ≠ id →
  candidates_of id' ip t ports → Lease.port l ∉ ports.
Proof.
  intros Hwf Hl Hne (_ & Hc). destruct (leases t !! id') as [l'|] eqn:Hl'.
  - destruct Hc as (_ & -> & _). intros Hp%list_elem_of_singleton.
    by pose proof (wf_port_inj _ Hwf _ _ _ _ Hl Hl' Hp).
  - destruct Hc as (-> & _ & _). intros Hp%free_ports_elem. destruct Hp as [_ Hp].
    by eapply Hp.
Qed.

(** With fewer than a thousand leases some port is free. *)
Lemma free_ports_nonempty t :
  (size t.(leases) < 1000)%nat → free_ports t ≠ [].
Proof.
  intros Hsize Hnil.
  assert (seqZ 10000 1000 ⊆+ (λ kv, Lease.port kv.2) <$> map_to_list t.(leases))
    as Hsub%submseteq_length.
  { apply NoDup_submseteq; [apply NoDup_seqZ|]. intros p Hp%elem_of_seqZ.
    destruct (decide (p ∈ (λ kv, Lease.port kv.2) <$> map_to_list t.(leases))) as [|Hn];
      [done|]. exfalso.
    assert (p ∈ free_ports t) as H; [|rewrite Hnil in H; by apply elem_of_nil in H].
    apply free_ports_elem. unfold PORT_START, PORT_END. split; [lia|].
    intros id l Hl Heq. apply Hn, list_elem_of_fmap. exists (id, l).
    split; [done|]. by apply elem_of_map_to_list. }
  rewrite length_seqZ, length_fmap, length_map_to_list in Hsub. lia.
Qed.

(** Retired identities cannot register. *)
Lemma retired_rejected id ip now t :
  retired_somewhere id (leases (reap_expired now t)) →
  (candidate_ports id ip now t).1
    = Err (Msg "This identity's port claim has been rotated").
Proof.
  intros Hr. unfold candidate_ports, modify, get, mbind, M_bind, ensure. cbn beta iota.
  destruct (any_lease (has_retired id) (reap_expired now t)) eqn:E; [done|].
  by apply any_retired_false in E.
Qed.

Lemma push_retired_self old r : (length r ≤ MAX_RETIRED_IDENTITIES)%nat →
  old ∈ push_retired old r.
Proof.
  intros Hr. unfold push_retired. case_match; [|apply elem_of_app; right; by left].
  destruct r as [|y r]; [done|]. cbn. apply elem_of_app. right. by left.
Qed.

(** A claim handed over at [now] is alive at [now]. *)
Lemma handed_over_alive now l : now < U64_MAX →
  Lease.status l = Grace (saturating_add_u64 now GRACE_MS) → expired now l = false.
Proof.
  intros Hn Hs. unfold expired. rewrite Hs. apply Z.leb_gt.
  unfold saturating_add_u64, GRACE_MS. lia.
Qed.

(** Rejecting an identity whose lease went to another one. *)
Lemma transfer_rejects_old old new l ip now t :
  old ∈ Lease.retired_token_ids l → expired now l = false →
  (candidate_ports old ip now (set_leases (<[new := l]> (delete old (leases t))) t)).1
    = Err (Msg "This identity's port claim has been rotated").
Proof.
  intros Hin He. apply retired_rejected. exists new, l. split; [|done].
  apply reap_lookup. cbn. by rewrite lookup_insert_eq.
Qed.

(** The four operations that may address a claim keep it. *)
Lemma claim_kept_same op id l k t' :
  t'.(leases) !! id = Some l → Lease.recovery_id l = Some k → claim_kept op id l k t'.
Proof. intros Hl Hk. exists id, l. split_and!; [done..|by left|done]. Qed.

Lemma claim_kept_in_place op id l l' k t' :
  t'.(leases) !! id = Some l' → Lease.port l' = Lease.port l →
  Lease.recovery_id l' = Some k → claim_kept op id l k t'.
Proof. intros Hl Hp Hk. exists id, l'. split_and!; [done..|by left|done]. Qed.

Lemma alive_after_reap now t id l :
  t.(leases) !! id = Some l → alive_at now l → (reap_expired now t).(leases) !! id = Some l.
Proof. intros Hl Ha. by apply reap_lookup. Qed.

Lemma activate_keeps_claim t id l k r ip port now op :
  t.(leases) !! id = Some l → Lease.recovery_id l = Some k → alive_at now l →
  claim_kept op id l k (activate_with_recovery id r ip port now t).2.
Proof.
  intros Hl Hk Ha. pose proof (alive_after_reap _ _ _ _ Hl Ha) as Hreap.
  destruct (activate_with_recovery id r ip port now t) as [[s|e] t'] eqn:H; cbn.
  - apply activate_ok in H as ((ports & (_ & Hc) & Hp) & _ & _ & _ & _ & ->).
    rewrite Hreap in Hc |- *. destruct Hc as (_ & -> & _).
    apply list_elem_of_singleton in Hp as ->.
    eapply claim_kept_in_place; [apply lookup_insert_eq|done|]. cbn. by rewrite Hk.
  - apply activate_err in H as ->. by apply claim_kept_same.
Qed.

Lemma end_keeps_claim t id l k s now op :
  t.(leases) !! id = Some l → Lease.recovery_id l = Some k →
  claim_kept op id l k (end_ id s now t).2.
Proof.
  intros Hl Hk. destruct (end_ id s now t) as [[] t'] eqn:H; cbn.
  - apply end_true in H as (x & Hx & _ & ->). simplify_eq.
    by eapply claim_kept_in_place; [apply lookup_insert_eq|..].
  - apply end_false in H as [-> _]. by apply claim_kept_same.
Qed.

Lemma rotate_keeps_claim t id l k new now op :
  t.(leases) !! id = Some l → Lease.recovery_id l = Some k → alive_at now l →
  claim_kept op id l k (rotate_claim id new now t).2.
Proof.
  intros Hl Hk Ha. pose proof (alive_after_reap _ _ _ _ Hl Ha) as Hreap.
  destruct (rotate_claim id new now t) as [[r|e] t'] eqn:H; cbn.
  - apply rotate_ok in H as (_ & H). rewrite Hreap in H.
    destruct (leases (reap_expired now t) !! new) eqn:Hnew.
    + destruct H as (_ & _ & ->). by apply claim_kept_same.
    + destruct H as (_ & _ & Hg & _ & _ & ->). eexists new, _. cbn.
      rewrite lookup_insert_eq. split_and!; [done..|right; by left|congruence].
  - apply rotate_err in H as ->. by apply claim_kept_same.
Qed.

Lemma recover_keeps_claim t id l k new ip now :
  lease_inv t → t.(leases) !! id = Some l → Lease.recovery_id l = Some k → alive_at now l →
  claim_kept (OpRecover k new ip now) id l k (recover_claim k new ip now t).2.
Proof.
  intros Hinv Hl Hk Ha. pose proof (alive_after_reap _ _ _ _ Hl Ha) as Hreap.
  destruct (recover_claim k new ip now t) as [[r|e] t'] eqn:H; cbn.
  - apply recover_ok in H as (old & x & Hf & H).
    rewrite (find_recovery_unique k _ id l) in Hf
      by (done || by apply wf_leases, reap_inv). injection Hf as <- <-.
    unfold recovery_of in H. case_decide; destruct_and!; subst; [by apply claim_kept_same|].
    eexists new, _. cbn. rewrite lookup_insert_eq. split_and!; [done..| |].
    + right. apply push_retired_self. by eapply wf_retired_bound; [apply Hinv|].
    + intros _ _. by exists new, ip, now.
  - apply recover_err in H as ->. by apply claim_kept_same.
Qed.

(** Reaping keeps what a transfer wrote on a reaped table. *)
Lemma reap_after_transfer now t old new l : expired now l = false →
  let t1 := reap_expired now t in
  let t2 := set_leases (<[new := l]> (delete old (leases t1))) t1 in
  reap_expired now t2 = t2.
Proof.
  intros He. cbn zeta. unfold reap_expired at 1, set_leases. cbn. f_equal.
  apply map_filter_id. intros i x. rewrite lookup_insert_Some, lookup_delete_Some.
  intros [[<- <-]|(_ & _ & Hx%reap_lookup)]; [done|]. apply Hx.
Qed.
End helpers.

(** The free ports are listed in ascending order: the first is the lowest. *)
Lemma free_ports_lowest `{!IterOrder TokenId Lease} t p ports q :
  free_ports t = p :: ports → PORT_START ≤ q < p →
  ∃ id l, t.(leases) !! id = Some l ∧ Lease.port l = q.
Proof.
  intros Hf Hq. unfold free_ports in Hf.
  match type of Hf with filter ?P ?l = _ => assert (Hh : head (filter P l) = Some p)
    by (by rewrite Hf) end.
  apply head_filter_Some in Hh as (l1 & l2 & Heq & Hall).
  assert (seqZ PORT_START (PORT_END - PORT_START + 1) !! length l1 = Some p) as Hp.
  { rewrite Heq, lookup_app_r, Nat.sub_diag by lia. done. }
  apply lookup_seqZ in Hp as [Hp Hlen]. unfold PORT_START, PORT_END in *.
  assert (seqZ 10000 1000 !! Z.to_nat (q - 10000) = Some q) as Hql.
  { apply lookup_seqZ. lia. }
  change (10999 - 10000 + 1) with 1000 in Heq.
  rewrite Heq, lookup_app_l in Hql by lia.
  apply list_elem_of_lookup_2 in Hql. rewrite Forall_forall in Hall.
  specialize (Hall q Hql). apply dec_stable in Hall.
  apply list_elem_of_fmap in Hall as ([id l] & -> & Hl%elem_of_iter). eauto.
Qed.

(** ** Iteration order *)

Section orders.
Context (o1 o2 : IterOrder TokenId Lease).

Lemma any_lease_order f t : @any_lease o1 f t = @any_lease o2 f t.
Proof. apply eq_bool_prop_intro. split; intros H%Is_true_true; apply Is_true_true; revert H;
  unfold any_lease; rewrite !existsb_iter; done. Qed.

Lemma check_ip_quota_order ip b t : @check_ip_quota o1 ip b t = @check_ip_quota o2 ip b t.
Proof. unfold check_ip_quota. by rewrite !iter_count. Qed.

Lemma free_ports_order t : @free_ports o1 t = @free_ports o2 t.
Proof.
  unfold free_ports. apply list_filter_iff. intros p.
  by rewrite !(@iter_perm _ _ _ _ o1), !(@iter_perm _ _ _ _ o2).
Qed.

Lemma candidate_ports_order id ip now t :
  @candidate_ports o1 id ip now t = @candidate_ports o2 id ip now t.
Proof.
  unfold candidate_ports, modify, get, ensure, lift, mbind, M_bind. cbn beta iota.
  rewrite any_lease_order. repeat case_match; simplify_eq; try done;
  rewrite ?check_ip_quota_order, ?free_ports_order in *; congruence.
Qed.

Lemma other_owner_order (f : TokenId * Lease → bool) (m : gmap TokenId Lease) :
  existsb f (@iter _ _ _ _ o1 m) = existsb f (@iter _ _ _ _ o2 m).
Proof. apply eq_bool_prop_intro. split; intros H%Is_true_true; apply Is_true_true; revert H;
  rewrite !existsb_iter; done. Qed.

Lemma activate_order id r ip port now t :
  @activate_with_recovery o1 id r ip port now t = @activate_with_recovery o2 id r ip port now t.
Proof.
  unfold activate_with_recovery, get, mbind, M_bind. rewrite candidate_ports_order.
  destruct (@candidate_ports o2 _ _ _ _) as [[ports|e] t1]; [|done].
  destruct (ensure _ _ _) as [[]]; [|done].
  destruct r as [k|]; [|done]. by rewrite other_owner_order.
Qed.

Lemma rotate_order old new now t :
  @rotate_claim o1 old new now t = @rotate_claim o2 old new now t.
Proof.
  unfold rotate_claim, modify, get, mbind, M_bind. cbn beta iota.
  destruct (ensure _ _ _) as [[] t1]; [|done]. destruct (leases t1 !! new); [done|].
  rewrite !any_lease_order. done.
Qed.

Lemma find_recovery_order k t : leases_wf t.(leases) →
  @find_recovery o1 k t = @find_recovery o2 k t.
Proof.
  intros Hwf. destruct (@find_recovery o2 k t) as [[old l]|] eqn:Hf.
  - apply (@find_recovery_Some o2) in Hf as [Hl Hk]. by apply (@find_recovery_unique o1).
  - apply (@find_recovery_None o1). exact (proj1 (@find_recovery_None o2 k t) Hf).
Qed.

Lemma recover_order k new ip now t : leases_wf t.(leases) →
  @recover_claim o1 k new ip now t = @recover_claim o2 k new ip now t.
Proof.
  intros Hwf. unfold recover_claim, modify, get, mbind, M_bind. cbn beta iota.
  pose proof (find_recovery_order k (reap_expired now t)
    (leases_wf_subseteq _ _ (reap_subseteq now t) Hwf)) as Hf.
  unfold find_recovery in Hf. rewrite Hf.
  destruct (lift _ _) as [[[old l]|] t1]; [|done].
  case_bool_decide; [done|]. by rewrite any_lease_order, check_ip_quota_order.
Qed.
End orders.

(** ** Properties *)

Section properties.
Context `{!IterOrder TokenId Lease}.

(** C12. Over every history of operations (successful or not) and restarts:
    public ports lie in the range and belong to one lease each, recovery keys
    and retired identities belong to one lease each, a retired identity holds
    no lease, session numbers were issued by this table to one lease each, and
    at most one thousand leases exist. *)
Theorem table_invariant t :
  table_reachable t → table_wf t ∧ (size t.(leases) ≤ 1000)%nat.
Proof.
  intros [Hwf _]%reachable_lease_inv. split; [done|].
  pose proof (ro_length _ (snapshot_records_ok 0 t (wf_leases t Hwf))) as H.
  unfold snapshot in H. by rewrite length_fmap, length_iter in H.
Qed.

(** C31. Over every history, the leases (active or in their reconnect window)
    charged to one IPv4 address or IPv6 /64 network are at most two. *)
Theorem source_quota t ip :
  table_reachable t →
  (length (filter (λ '(_, lease), lease_source lease = Some (HostSource.from ip))
                  (iter t.(leases))) ≤ MAX_TUNNELS_PER_IP)%nat.
Proof. intros [_ Hq]%reachable_lease_inv. rewrite iter_count. apply Hq. Qed.

(** C28. A restart keeps every claim: the records saved at [now], in whatever
    order they are listed, are accepted; a lease that was active is found in
    its reconnect window, which ends 300 seconds after the save; a lease that
    was in its window keeps its deadline, or is gone if it has passed. *)
Theorem restart_keeps_claims t now now' rs :
  table_reachable t → rs ≡ₚ snapshot now t →
  restore rs now' = Ok (restarted now now' t) ∧
  (∀ id l s, t.(leases) !! id = Some l → Lease.status l = Active s →
     now' < now + GRACE_MS ≤ U64_MAX →
     (restarted now now' t).(leases) !! id
       = Some (Lease.set_status (Grace (now + GRACE_MS)) l)) ∧
  (∀ id l e, t.(leases) !! id = Some l → Lease.status l = Grace e →
     (restarted now now' t).(leases) !! id = if e <=? now' then None else Some l).
Proof.
  intros [Hwf _]%reachable_lease_inv Hp. split_and!.
  - apply restore_snapshot_perm; [by apply wf_leases|done].
  - intros id l s Hl Hs Hn. cbn. apply map_lookup_filter_Some.
    rewrite lookup_fmap, Hl. unfold demote. cbn. rewrite Hs.
    rewrite saturating_add_u64_exact by lia. split; [done|].
    unfold expired. cbn. apply Z.leb_gt. lia.
  - intros id l e Hl Hs. cbn. rewrite map_lookup_filter, lookup_fmap, Hl. cbn.
    unfold demote, expired. cbn. rewrite Hs. destruct l. cbn in *. subst.
    by destruct (e <=? now').
Qed.

(** C29. [restore] accepts exactly the record lists within the size limit whose
    ports lie in the range and do not repeat, whose tokens, recovery keys and
    retired identities do not repeat across records, and where no token is
    also retired; the table it builds holds exactly the unexpired records,
    each in its reconnect window. *)
Theorem restore_spec rs now t :
  restore rs now = Ok t ↔
  records_ok rs ∧ t.(next_session_id) = 0 ∧
  ∀ id l, t.(leases) !! id = Some l ↔
    ∃ r, r ∈ rs ∧ LeaseRecord.token_id r = id ∧ now < LeaseRecord.expires_at_ms r ∧
         l = record_lease r.
Proof. apply restore_ok. Qed.

(** A live claim is reserved: whatever other identities do, for as long as
    the claim is active or its deadline has not passed, the lease stays exactly
    as it is and its port is offered to nobody else. *)
Theorem claim_reserved t id l ops id' ip now ports t' :
  table_reachable t → t.(leases) !! id = Some l →
  Forall (λ op, ¬ op_addresses id (Lease.recovery_id l) op ∧ alive_at (op_time op) l) ops →
  id' ≠ id → alive_at now l →
  candidate_ports id' ip now (run_ops ops t) = (Ok ports, t') →
  t'.(leases) !! id = Some l ∧ Lease.port l ∉ ports.
Proof.
  intros Hr Hl Hops Hne Halive Hc. apply candidate_ports_ok in Hc as [-> Hc].
  pose proof (run_ops_undisturbed ops t id l Hl Hops) as Hl'.
  assert (Hl'' : leases (reap_expired now (run_ops ops t)) !! id = Some l)
    by (apply reap_lookup; done).
  split; [done|]. eapply candidates_exclude; [|exact Hl''|exact Hne|exact Hc].
  apply wf_leases, reap_inv, run_ops_inv. by apply reachable_lease_inv.
Qed.

(** Session numbers are never reused within a run of the relay, so the
    cleanup of a former session never ends a later one: the call reports
    [false] and changes nothing. *)
Theorem stale_cleanup id1 r1 ip1 p1 n1 t s1 t1 ops id2 r2 ip2 p2 n2 s2 t2 now :
  activate_with_recovery id1 r1 ip1 p1 n1 t = (Ok s1, t1) →
  activate_with_recovery id2 r2 ip2 p2 n2 (run_ops ops t1) = (Ok s2, t2) →
  session_number s1 < session_number s2 ∧ end_ id2 s1 now t2 = (false, t2).
Proof.
  intros H1 H2. apply activate_ok in H1 as (_ & _ & _ & _ & -> & Ht1).
  assert (Hn1 : next_session_id t1 = next_session_id t + 1) by (by rewrite Ht1).
  apply activate_ok in H2 as (_ & _ & _ & _ & -> & ->).
  pose proof (run_ops_next ops t1) as Hn. rewrite !reap_next in *. clear Ht1.
  split; [cbn; lia|]. apply end_false. split; [done|]. intros l. cbn [leases].
  rewrite lookup_insert_eq. intros [= <-]. cbn [Lease.status activated_lease].
  intros [= Heq]. lia.
Qed.

(** Registration of a lease, on every branch: it succeeds exactly when the
    identity is not retired, holds no active tunnel, its source has room (or
    already pays for this claim), the port is the claim's own (or free, for a
    new claim), the recovery key belongs to no other claim and matches the
    enrolled one, and a session number is left; it then writes the lease
    [activated_lease] (same port, enrolled key and retired identities) and
    nothing else. A failure only reaps expired leases. *)
Theorem activation_spec id r ip port now t s t' e :
  (activate_with_recovery id r ip port now t = (Ok s, t') ↔
   activation_of id r ip port (reap_expired now t) s t') ∧
  ((activate_with_recovery id r ip port now t).1 = Err e →
   (activate_with_recovery id r ip port now t).2 = reap_expired now t).
Proof.
  split; [apply activate_ok|]. intros He.
  destruct (activate_with_recovery id r ip port now t) as [r' t1] eqn:H. cbn in *. subst r'.
  by apply activate_err in H.
Qed.

(** C30. After a disconnect at [t0] the host has 300 seconds: until then it is
    offered exactly its own port again (from the network that is charged for
    it), and from then on the claim is gone. *)
Theorem grace_window id s t0 t t' l ip now :
  lease_inv t → t.(leases) !! id = Some l → Lease.last_ip l = Some ip →
  end_ id s t0 t = (true, t') → t0 + GRACE_MS ≤ U64_MAX →
  (now < t0 + GRACE_MS →
   candidate_ports id ip now t' = (Ok [Lease.port l], reap_expired now t')) ∧
  (t0 + GRACE_MS ≤ now → (reap_expired now t').(leases) !! id = None).
Proof.
  intros [Hwf _] Hl Hip He Hmax. apply end_true in He as (l' & Hl' & Hs & ->).
  rewrite Hl in Hl'. injection Hl' as <-. rewrite saturating_add_u64_exact by done.
  set (l1 := Lease.set_status (Grace (t0 + GRACE_MS)) l).
  set (t1 := set_leases _ _).
  assert (Hl1 : leases t1 !! id = Some l1) by (unfold t1; cbn; apply lookup_insert_eq).
  split; intros Hnow.
  - apply candidate_ports_ok. split; [done|].
    assert (Hr1 : leases (reap_expired now t1) !! id = Some l1).
    { apply reap_lookup. split; [done|]. unfold expired. cbn. apply Z.leb_gt. lia. }
    split.
    + intros (k & x & [Hx _]%reap_lookup & Hin). unfold t1 in Hx. cbn in Hx.
      apply lookup_insert_Some in Hx as [[<- <-]|[_ Hx]].
      * pose proof (wf_retired_dead _ (wf_leases t Hwf) _ _ _ Hl Hin). congruence.
      * pose proof (wf_retired_dead _ (wf_leases t Hwf) _ _ _ Hx Hin). congruence.
    + rewrite Hr1. split_and!; [done..|]. left. unfold lease_source. cbn. by rewrite Hip.
  - destruct (leases (reap_expired now t1) !! id) as [x|] eqn:Hx; [|done].
    apply reap_lookup in Hx as [Hx Hexp]. rewrite Hl1 in Hx. injection Hx as <-.
    unfold expired in Hexp. cbn in Hexp. apply Z.leb_gt in Hexp. lia.
Qed.

(** C18. Routine rotation transfers an idle claim once: the new identity holds
    the same port and key, the old one is rejected; repeating the request
    answers the same port and changes nothing (a lost reply can be retried);
    a competing rotation of the same identity fails. *)
Theorem rotation_transfers old new now t p t' loser ip :
  lease_inv t → rotate_claim old new now t = (Ok (Transferred p), t') →
  (∃ l, t.(leases) !! old = Some l ∧ is_grace (Lease.status l) = true ∧ Lease.port l = p ∧
        t'.(leases) !! new = Some (Lease.set_retired [old] l)) ∧
  t'.(leases) !! old = None ∧
  rotate_claim old new now t' = (Ok (Unchanged (Some p)), t') ∧
  (loser ≠ new → is_ok (rotate_claim old loser now t').1 = false) ∧
  (candidate_ports old ip now t').1
    = Err (Msg "This identity's port claim has been rotated").
Proof.
  intros [Hwf _] H. apply rotate_ok in H as (Hne & H).
  destruct (leases (reap_expired now t) !! new) eqn:Hnew; [by destruct_and!|].
  destruct H as (Hn1 & Hn2 & H).
  destruct (leases (reap_expired now t) !! old) as [l|] eqn:Hold; [|by destruct_and!].
  destruct H as (Hg & Hret & [= ->] & ->). pose proof Hold as [Hl Hexp]%reap_lookup.
  assert (Hexp' : expired now (Lease.set_retired [old] l) = false) by done.
  pose proof (reap_after_transfer now t old new _ Hexp') as Hreap. cbn zeta in Hreap.
  set (t2 := set_leases _ _) in *.
  assert (Hnew2 : leases t2 !! new = Some (Lease.set_retired [old] l))
    by (unfold t2; cbn; apply lookup_insert_eq).
  split_and!.
  - by exists l.
  - unfold t2. cbn. rewrite lookup_insert_ne by done. apply lookup_delete_eq.
  - apply rotate_ok. split; [done|]. rewrite Hreap, Hnew2. cbn. split_and!; [by left|done..].
  - intros Hloser. destruct (rotate_claim old loser now t2) as [[r|e] t3] eqn:H3; [|done].
    apply rotate_ok in H3 as (_ & H3). rewrite Hreap in H3. exfalso.
    assert (Hr : retired_somewhere old (leases t2)) by (eexists new, _; split; [exact Hnew2|by left]).
    destruct (leases t2 !! loser) as [x|] eqn:Hx; [|by destruct_and!].
    destruct H3 as (Hin & _). unfold t2 in Hx. cbn in Hx.
    rewrite lookup_insert_ne in Hx by done. apply lookup_delete_Some in Hx as [_ Hx].
    apply Hn2. by exists loser, x.
  - apply transfer_rejects_old; [by left|done].
Qed.

(** Rotation never displaces a live host: while the old identity has an
    active tunnel the request fails and the lease stays as it is. *)
Theorem rotation_spares_active old new now t l s :
  lease_inv t → t.(leases) !! old = Some l → Lease.status l = Active s →
  is_ok (rotate_claim old new now t).1 = false ∧
  (rotate_claim old new now t).2.(leases) !! old = Some l.
Proof.
  intros [Hwf _] Hl Hs.
  assert (Hr : leases (reap_expired now t) !! old = Some l).
  { apply reap_lookup. split; [done|]. unfold expired. by rewrite Hs. }
  destruct (rotate_claim old new now t) as [[r|e] t'] eqn:H; cbn.
  - apply rotate_ok in H as (Hne & H). exfalso.
    destruct (leases (reap_expired now t) !! new) as [x|] eqn:Hnew.
    + destruct H as (Hin & _). apply reap_lookup in Hnew as [Hnew _].
      pose proof (wf_retired_dead _ (wf_leases t Hwf) _ _ _ Hnew Hin). congruence.
    + rewrite Hr, Hs in H. by destruct_and!.
  - apply rotate_err in H as ->. done.
Qed.

(** C17. Recovery, on a successful change: the claim enrolled with the presented
    key moves to the new identity with its port and key, in a fresh reconnect
    window; if its host was active the answer names the session to close, and
    no cleanup of the old identity's sessions touches the claim any more; the
    old identity is rejected; repeating the request changes nothing. *)
Theorem recovery_transfers k new ip now t r t' ip' :
  lease_inv t → now < U64_MAX →
  recover_claim k new ip now t = (Ok r, t') → changed r = true →
  ∃ old l, t.(leases) !! old = Some l ∧ Lease.recovery_id l = Some k ∧
    recovered_port r = Lease.port l ∧
    displaced r = match Lease.status l with Active s => Some (old, s) | Grace _ => None end ∧
    t'.(leases) !! new = Some (recovered_lease old ip now l) ∧
    (∀ s now', end_ old s now' t' = (false, t')) ∧
    (candidate_ports old ip' now t').1
      = Err (Msg "This identity's port claim has been rotated") ∧
    recover_claim k new ip now t'
      = (Ok {| recovered_port := Lease.port l; displaced := None; changed := false |}, t').
Proof.
  intros Hinv Hmax H Hch. apply recover_ok in H as (old & l & Hf & H).
  pose proof (reap_inv now t Hinv) as Hinv1.
  apply find_recovery_Some in Hf as [Hl1 Hk]. pose proof Hl1 as [Hl Hexp]%reap_lookup.
  pose proof (recovery_inv old l new ip now _ r t' Hinv1 Hl1 H) as Hinv'.
  unfold recovery_of in H. case_decide as Hne; [by destruct H as [-> _]|].
  destruct H as (Hnew & Hnr & Hq & -> & ->). exists old, l.
  pose proof (handed_over_alive now (recovered_lease old ip now l) Hmax eq_refl) as Hlive.
  pose proof (reap_after_transfer now t old new _ Hlive) as Hreap. cbn zeta in Hreap.
  set (t2 := set_leases _ _) in *.
  assert (Hnew2 : leases t2 !! new = Some (recovered_lease old ip now l))
    by (unfold t2; cbn; apply lookup_insert_eq).
  split_and!; try done.
  - intros s now'. apply end_false. split; [done|]. intros x. unfold t2. cbn.
    by rewrite lookup_insert_ne, lookup_delete_eq.
  - apply transfer_rejects_old; [|done]. apply push_retired_self.
    by eapply wf_retired_bound; [apply Hinv|].
  - apply recover_ok. exists new, (recovered_lease old ip now l). rewrite Hreap. split.
    + by apply find_recovery_unique; [apply Hinv'|..].
    + unfold recovery_of. by rewrite decide_True.
Qed.

(** A claim that was recovered can no longer be rotated, although it was never
    rotated: the recovery has filled the list that allows one routine rotation. *)
Theorem recovery_uses_up_rotation k new ip now t r t' x now' :
  lease_inv t → now < U64_MAX → recover_claim k new ip now t = (Ok r, t') → changed r = true →
  now' < saturating_add_u64 now GRACE_MS → is_ok (rotate_claim new x now' t').1 = false.
Proof.
  intros Hinv Hmax H Hch Hnow'. apply recover_ok in H as (old & l & Hf & H).
  pose proof (reap_inv now t Hinv) as Hinv1. apply find_recovery_Some in Hf as [Hl1 _].
  pose proof (recovery_inv old l new ip now _ r t' Hinv1 Hl1 H) as Hinv'.
  unfold recovery_of in H. case_decide as Hne; [by destruct H as [-> _]|].
  destruct H as (_ & _ & _ & _ & ->). set (t2 := set_leases _ _) in *.
  assert (Hnew : leases (reap_expired now' t2) !! new = Some (recovered_lease old ip now l)).
  { apply reap_lookup. split; [unfold t2; cbn; apply lookup_insert_eq|].
    unfold expired. cbn. by apply Z.leb_gt. }
  destruct (rotate_claim new x now' t2) as [[res|e] t3] eqn:Hrot; [|done].
  apply rotate_ok in Hrot as [_ Hrot]. exfalso.
  destruct (leases (reap_expired now' t2) !! x) as [lx|] eqn:Hx.
  - destruct Hrot as [Hin _]. pose proof (wf_retired_dead _
      (wf_leases _ (proj1 (reap_inv now' _ Hinv'))) _ _ _ Hx Hin). congruence.
  - rewrite Hnew in Hrot. destruct Hrot as (_ & _ & _ & Hr & _). cbn in Hr.
    assert (Hin : old ∈ push_retired old (Lease.retired_token_ids l))
      by (apply push_retired_self; by eapply wf_retired_bound; [apply Hinv1|]).
    rewrite Hr in Hin. by apply elem_of_nil in Hin.
Qed.

(** The recovery key holds the claim: whatever operation runs while a claim
    with an enrolled key is alive, some lease keeps its port and its key,
    under the same identity or under one that retired it; and an active
    tunnel's claim changes identity only by presenting that key. *)
Theorem key_keeps_claim op t id l k :
  lease_inv t → t.(leases) !! id = Some l → Lease.recovery_id l = Some k →
  alive_at (op_time op) l → claim_kept op id l k (run_op op t).
Proof.
  intros Hinv Hl Hk Halive.
  destruct (decide (op_addresses id (Lease.recovery_id l) op)) as [Ha|Ha];
    [|by apply claim_kept_same; [apply run_op_undisturbed|]].
  destruct op; cbn in Ha; try done; subst; unfold run_op.
  - by apply activate_keeps_claim.
  - by apply end_keeps_claim.
  - by apply rotate_keeps_claim.
  - rewrite Hk in Ha. injection Ha as <-. by apply recover_keeps_claim.
Qed.

(** Admission makes progress: an identity that is neither retired nor
    holding a lease, from a source with room, is offered a port whenever fewer
    than a thousand leases are alive; the first one offered is the lowest free
    port of the range, and registering on it succeeds. *)
Theorem admission_progress id r ip now t :
  ¬ retired_somewhere id (reap_expired now t).(leases) →
  (reap_expired now t).(leases) !! id = None →
  (source_count (HostSource.from ip) (reap_expired now t).(leases) < MAX_TUNNELS_PER_IP)%nat →
  (size (reap_expired now t).(leases) < 1000)%nat →
  t.(next_session_id) < U64_MAX →
  (∀ k, r = Some k → ∀ id' l', (reap_expired now t).(leases) !! id' = Some l' →
     Lease.recovery_id l' ≠ Some k) →
  ∃ p ports, candidate_ports id ip now t = (Ok (p :: ports), reap_expired now t) ∧
    (∀ q, PORT_START ≤ q < p → ∃ id' l',
       (reap_expired now t).(leases) !! id' = Some l' ∧ Lease.port l' = q) ∧
    is_ok (activate_with_recovery id r ip p now t).1 = true.
Proof.
  intros Hnr Hnone Hq Hsize Hnext Hkey.
  pose proof (free_ports_nonempty _ Hsize) as Hne.
  destruct (free_ports (reap_expired now t)) as [|p ports] eqn:Hfree; [done|].
  assert (Hc : candidates_of id ip (reap_expired now t) (p :: ports)).
  { split; [done|]. by rewrite Hnone, Hfree. }
  exists p, ports. split_and!.
  - by apply candidate_ports_ok.
  - intros q. by apply (free_ports_lowest _ p ports).
  - erewrite (proj2 (activate_ok id r ip p now t _ _)); [done|].
    split_and!; [exists (p :: ports); split; [done|by left]| | | |done..].
    + intros k Hk id' l' Hl' Hr. exfalso. by eapply Hkey.
    + intros l e q Hl. congruence.
    + rewrite reap_next. lia.
Qed.
End properties.

(** C32. The iteration order of the hash map does not show: on every table a relay
    can hold, each operation that iterates it (the candidate ports, an activation,
    a rotation, a recovery) has the same outcome in any two orders; a snapshot lists
    the same records, and every later start restores the same table from it.  The
    other operations ([reap_expired], [end_], [restore]) do not iterate it. *)
Theorem iteration_order_irrelevant (o1 o2 : IterOrder TokenId Lease) t :
  lease_inv t →
  (∀ id ip now, @candidate_ports o1 id ip now t = @candidate_ports o2 id ip now t) ∧
  (∀ id r ip p now, @activate_with_recovery o1 id r ip p now t
                  = @activate_with_recovery o2 id r ip p now t) ∧
  (∀ old new now, @rotate_claim o1 old new now t = @rotate_claim o2 old new now t) ∧
  (∀ k new ip now, @recover_claim o1 k new ip now t = @recover_claim o2 k new ip now t) ∧
  (∀ now, @snapshot o1 now t ≡ₚ @snapshot o2 now t) ∧
  (∀ now now', restore (@snapshot o1 now t) now' = restore (@snapshot o2 now t) now').
Proof.
  intros [Hwf _].
  assert (Hsnap : ∀ now, @snapshot o1 now t ≡ₚ @snapshot o2 now t).
  { intros now. unfold snapshot. by rewrite (@iter_perm _ _ _ _ o1), (@iter_perm _ _ _ _ o2). }
  split_and!; intros.
  - apply candidate_ports_order.
  - apply activate_order.
  - apply rotate_order.
  - apply recover_order. by apply wf_leases.
  - apply Hsnap.
  - rewrite (@restore_snapshot_perm o2 now now' t (@snapshot o1 now t)) by (by apply wf_leases || apply Hsnap).
    by rewrite (@restore_snapshot_perm o2 now now' t (@snapshot o2 now t)) by (by apply wf_leases || done).
Qed.

(** ** Concrete instances *)

Section witnesses.
#[local] Instance witness_order : IterOrder TokenId Lease := gmap_order.

(** Three identities, a recovery key, and a host address. *)
Definition wid (b : byte) : TokenId := MkTokenId (repeat_byte 32 b).
Definition wip : IpAddr := IpV4 (Bytes [xc0; x00; x02; x01] eq_refl).

(** A host registers at 1000 and leaves at 2000. *)
Definition w_active : LeaseTable :=
  run_op (OpActivate (wid x01) (Some (wid x07)) wip 10000 1000) LeaseTable_new.
Definition w_grace : LeaseTable := run_op (OpEnd (wid x01) (MkSessionId 1) 2000) w_active.
Definition w_lease : Lease :=
  {| Lease.port := 10000; Lease.last_ip := Some wip; Lease.retired_token_ids := [];
     Lease.recovery_id := Some (wid x07); Lease.status := Grace 302000 |}.
Definition w_active_lease : Lease :=
  Lease.set_status (Active (MkSessionId 1)) w_lease.

Lemma w_active_reachable : table_reachable w_active.
Proof. apply reach_op, reach_new. Qed.
Lemma w_grace_reachable : table_reachable w_grace.
Proof. apply reach_op, w_active_reachable. Qed.

Lemma table_invariant_witness : table_wf w_grace ∧ (size w_grace.(leases) ≤ 1000)%nat.
Proof. apply table_invariant, w_grace_reachable. Defined.

Lemma source_quota_witness :
  (length (filter (λ '(_, lease), lease_source lease = Some (HostSource.from wip))
                  (iter w_grace.(leases))) ≤ 2)%nat.
Proof. apply source_quota, w_grace_reachable. Defined.

Lemma restart_keeps_claims_witness :
  is_ok (restore (snapshot 5000 w_active) 6000) = true ∧
  (restarted 5000 6000 w_active).(leases) !! wid x01
    = Some (Lease.set_status (Grace 305000) w_active_lease).
Proof.
  destruct (restart_keeps_claims w_active 5000 6000 (snapshot 5000 w_active)
    w_active_reachable (reflexivity _)) as (Hr & Ha & _).
  split; [by rewrite Hr|].
  apply (Ha (wid x01) w_active_lease (MkSessionId 1)); [concrete|done|].
  unfold GRACE_MS, U64_MAX. lia.
Defined.

Lemma claim_reserved_witness :
  let ops := [OpActivate (wid x02) None wip 10001 2500; OpReap 3000] in
  (reap_expired 4000 (run_ops ops w_grace)).(leases) !! wid x01 = Some w_lease ∧
  10000 ∉ free_ports (reap_expired 4000 (run_ops ops w_grace)).
Proof.
  apply (claim_reserved w_grace (wid x01) w_lease
    [OpActivate (wid x02) None wip 10001 2500; OpReap 3000] (wid x03)
    (IpV4 (Bytes [xc0; x00; x02; x02] eq_refl)) 4000).
  - apply w_grace_reachable.
  - concrete.
  - repeat constructor; vm_compute; congruence.
  - intros [=].
  - concrete.
  - concrete.
Defined.

Lemma stale_cleanup_witness :
  let t2 := run_op (OpActivate (wid x01) (Some (wid x07)) wip 10000 3000) w_grace in
  1 < 2 ∧ end_ (wid x01) (MkSessionId 1) 4000 t2 = (false, t2).
Proof.
  apply (stale_cleanup (wid x01) (Some (wid x07)) wip 10000 1000 LeaseTable_new
    (MkSessionId 1) w_active [OpEnd (wid x01) (MkSessionId 1) 2000]
    (wid x01) (Some (wid x07)) wip 10000 3000 (MkSessionId 2)); concrete.
Defined.

Lemma activation_spec_witness :
  activation_of (wid x01) (Some (wid x07)) wip 10000 (reap_expired 1000 LeaseTable_new)
    (MkSessionId 1) w_active.
Proof.
  apply (activation_spec (wid x01) (Some (wid x07)) wip 10000 1000 LeaseTable_new
    (MkSessionId 1) w_active (Msg "")). concrete.
Defined.

Lemma grace_window_witness :
  candidate_ports (wid x01) wip 301999 w_grace = (Ok [10000], reap_expired 301999 w_grace) ∧
  (reap_expired 302000 w_grace).(leases) !! wid x01 = None.
Proof.
  pose proof (grace_window (wid x01) (MkSessionId 1) 2000 w_active w_grace w_active_lease wip)
    as H. split.
  - apply H; [by apply reachable_lease_inv, w_active_reachable|concrete..].
  - apply H; [by apply reachable_lease_inv, w_active_reachable|concrete..].
Defined.

Lemma rotation_transfers_witness :
  let t' := run_op (OpRotate (wid x01) (wid x02) 3000) w_grace in
  rotate_claim (wid x01) (wid x02) 3000 t' = (Ok (Unchanged (Some 10000)), t').
Proof.
  apply (rotation_transfers (wid x01) (wid x02) 3000 w_grace 10000
    (run_op (OpRotate (wid x01) (wid x02) 3000) w_grace) (wid x03) wip);
    [by apply reachable_lease_inv, w_grace_reachable|concrete].
Defined.

Lemma rotation_spares_active_witness :
  is_ok (rotate_claim (wid x01) (wid x02) 1500 w_active).1 = false ∧
  (rotate_claim (wid x01) (wid x02) 1500 w_active).2.(leases) !! wid x01 = Some w_active_lease.
Proof.
  apply (rotation_spares_active (wid x01) (wid x02) 1500 w_active w_active_lease (MkSessionId 1));
    [by apply reachable_lease_inv, w_active_reachable|concrete..].
Defined.

Lemma recovery_transfers_witness :
  ∃ old l, w_active.(leases) !! old = Some l ∧ Lease.recovery_id l = Some (wid x07).
Proof.
  unshelve epose proof (recovery_transfers (wid x07) (wid x02) wip 1500 w_active
    {| recovered_port := 10000; displaced := Some (wid x01, MkSessionId 1); changed := true |}
    (run_op (OpRecover (wid x07) (wid x02) wip 1500) w_active) wip
    (reachable_lease_inv _ w_active_reachable) _ _ _)
    as (old & l & Hl & Hk & _); [concrete..|].
  by exists old, l.
Defined.

Lemma key_keeps_claim_witness :
  claim_kept (OpRecover (wid x07) (wid x02) wip 1500) (wid x01) w_active_lease (wid x07)
    (run_op (OpRecover (wid x07) (wid x02) wip 1500) w_active).
Proof.
  apply key_keeps_claim;
    [by apply reachable_lease_inv, w_active_reachable|concrete..].
Defined.

Lemma admission_progress_witness :
  ∃ p ports, candidate_ports (wid x01) wip 1000 LeaseTable_new
    = (Ok (p :: ports), reap_expired 1000 LeaseTable_new).
Proof.
  destruct (admission_progress (wid x01) None wip 1000 LeaseTable_new) as (p & ports & H & _);
    [intros (k & l & Hk & _); vm_compute in Hk; discriminate|concrete|vm_compute; lia|
     vm_compute; lia|done|done|].
  by exists p, ports.
Defined.

(** Two orders that list a table of two leases differently. *)
Definition reverse_order : IterOrder TokenId Lease :=
  {| iter m := reverse (map_to_list m); iter_perm m := reverse_Permutation (map_to_list m) |}.
Definition w_two : LeaseTable :=
  run_op (OpActivate (wid x02) (Some (wid x08)) wip 10001 2500) w_grace.

Lemma w_two_reachable : table_reachable w_two.
Proof. apply reach_op, w_grace_reachable. Qed.

Lemma iteration_order_irrelevant_witness :
  @snapshot gmap_order 3000 w_two ≠ @snapshot reverse_order 3000 w_two ∧
  @rotate_claim gmap_order (wid x01) (wid x03) 3000 w_two
    = @rotate_claim reverse_order (wid x01) (wid x03) 3000 w_two ∧
  restore (@snapshot gmap_order 3000 w_two) 4000 = restore (@snapshot reverse_order 3000 w_two) 4000.
Proof.
  destruct (iteration_order_irrelevant gmap_order reverse_order w_two) as (_ & _ & Hrot & _ & _ & Hres).
  - apply reachable_lease_inv, w_two_reachable.
  - split; [|split; [apply Hrot|apply Hres]].
    intros Heq. apply (f_equal (λ rs, LeaseRecord.port <$> rs)) in Heq. vm_compute in Heq. discriminate.
Defined.
End witnesses.
