(* ===== verification/Protocol.v ===== *)
(** The control messages (crates/core/src/protocol.rs) and the game presets
    (crates/core/src/presets.rs). *)

From S2P Require Import Prelude Bytes.

(** ** Control messages *)

Inductive Protocol := Tcp | Udp.

#[global] Instance Protocol_eq_dec : EqDecision Protocol.
Proof. solve_decision. Defined.

Inductive ControlMessage :=
  | Register (protocol : Protocol) (local_port : Z) (token : TunnelToken) (recovery_id : bytes 32)
  | TunnelReady (public_port : Z)
  | NewConnection (stream_id : Z)
  | Error (message : str)
  | RotateIdentity (old_token new_token : TunnelToken)
  | IdentityRotated (public_port : option Z)
  | RecoverIdentity (recovery_secret new_token : TunnelToken)
  | IdentityRecovered (public_port : Z).

#[global] Instance ControlMessage_eq_dec : EqDecision ControlMessage.
Proof. solve_decision. Defined.

#[global] Instance Protocol_countable : Countable Protocol.
Proof.
  refine (inj_countable' (λ p, match p with Tcp => true | Udp => false end)
    (λ b, if b : bool then Tcp else Udp) _). abstract (by intros []).
Defined.

(** A [char] is a Unicode scalar value. *)
Definition char_ok (c : Z) : Prop := 0 ≤ c < 55296 ∨ 57344 ≤ c < 1114112.

(** The values of a message are values of their Rust types. *)
Definition message_ok (m : ControlMessage) : Prop :=
  match m with
  | Register _ local_port _ _ => u16_ok local_port
  | TunnelReady public_port => u16_ok public_port
  | NewConnection stream_id => u64_ok stream_id
  | Error message => Forall char_ok message
  | IdentityRotated public_port => from_option u16_ok True public_port
  | IdentityRecovered public_port => u16_ok public_port
  | RotateIdentity _ _ | RecoverIdentity _ _ => True
  end.

(** ** Game presets *)

Record GamePreset := {
  name : string;
  preset_protocol : Protocol;
  default_port : Z;
}.

Definition PRESETS : list GamePreset :=
  [ {| name := "minecraft"; preset_protocol := Tcp; default_port := 25565 |};
    {| name := "bedrock"; preset_protocol := Udp; default_port := 19132 |};
    {| name := "valheim"; preset_protocol := Udp; default_port := 2456 |};
    {| name := "terraria"; preset_protocol := Tcp; default_port := 7777 |};
    {| name := "factorio"; preset_protocol := Udp; default_port := 34197 |} ].

(** [u8::to_ascii_lowercase] on a character. *)
Definition to_ascii_lowercase (c : Z) : Z := if (65 <=? c) && (c <=? 90) then c + 32 else c.

(** [str::eq_ignore_ascii_case]. *)
Definition eq_ignore_ascii_case (a b : str) : bool :=
  bool_decide (to_ascii_lowercase <$> a = to_ascii_lowercase <$> b).

Definition find_preset (game : str) : option GamePreset :=
  snd <$> list_find (λ p, eq_ignore_ascii_case (lit p.(name)) game = true) PRESETS.
