(* ===== verification/Message.v ===== *)
(** Framing of control messages on a byte stream (crates/core/src/message.rs):
    a big-endian 32-bit length, then the payload.  [bincode] is a parameter. *)

From Stdlib Require Import Strings.Byte.
From S2P Require Import Prelude Bytes Protocol.

Definition MAX_CONTROL_MSG_BYTES : nat := Z.to_nat 65536.

(** ** [bincode::serialize] and [bincode::deserialize] *)

Class Codec := {
  serialize : ControlMessage → result (list byte);
  deserialize : list byte → result ControlMessage;
}.

(** What the program relies on: a message that was serialized reads back. *)
Class CodecLaw `{Codec} : Prop := {
  deserialize_serialize m payload :
    message_ok m → serialize m = Ok payload → deserialize payload = Ok m;
}.

(** ** [u32::to_be_bytes] and [u32::from_be_bytes] *)

Definition byte_Z (b : byte) : Z := Z.of_N (Byte.to_N b).
Definition Z_byte (z : Z) : byte := default x00 (Byte.of_N (Z.to_N (z mod 256))).

Definition u32_to_be_bytes (z : Z) : list byte :=
  [Z_byte (Z.shiftr z 24); Z_byte (Z.shiftr z 16); Z_byte (Z.shiftr z 8); Z_byte z].
Definition u32_from_be_bytes (l : list byte) : Z :=
  foldl (λ acc b, acc * 256 + byte_Z b) 0 l.

(** ** Asynchronous byte streams *)

(** A future is ready with a value or waits for the peer. *)
Inductive poll (A : Type) := Ready (a : A) | Pending.
Arguments Ready {A} a.
Arguments Pending {A}.

(** What is behind the bytes that have arrived: the end of the stream, a
    failure, or a peer that keeps it open. *)
Inductive ReadEnd := Eof | Fails (kind : ErrorKind) | Open.

(** A reader: the pieces in which the bytes are delivered. *)
Record Reader := { chunks : list (list byte); behind : ReadEnd }.

Definition contents (r : Reader) : list byte := concat r.(chunks).

Definition RM (A : Type) : Type := Reader → poll (result A) * Reader.

#[global] Instance RM_ret : MRet RM := λ A a r, (Ready (Ok a), r).
#[global] Instance RM_bind : MBind RM := λ A B f m r,
  match m r with
  | (Ready (Ok a), r') => f a r'
  | (Ready (Err e), r') => (Ready (Err e), r')
  | (Pending, r') => (Pending, r')
  end.
Definition r_lift {A} (x : result A) : RM A := λ r, (Ready x, r).

(** [AsyncReadExt::read] with a buffer of [n] bytes: some of the bytes that
    have arrived, and none only at the end of the stream. *)
Fixpoint read_chunks (n : nat) (cs : list (list byte)) (e : ReadEnd)
    : poll (result (list byte)) * Reader :=
  match cs with
  | [] => (match e with
           | Eof => Ready (Ok [])
           | Fails k => Ready (Err (Io k))
           | Open => Pending
           end, {| chunks := []; behind := e |})
  | [] :: cs => read_chunks n cs e
  | c :: cs => (Ready (Ok (take n c)), {| chunks := drop n c :: cs; behind := e |})
  end.
Definition read (n : nat) : RM (list byte) := λ r, read_chunks n r.(chunks) r.(behind).

(** [AsyncReadExt::read_exact]: every read makes progress, so [n] rounds are
    enough. *)
Fixpoint read_exact_loop (fuel n : nat) : RM (list byte) :=
  match fuel with
  | O => mret []
  | S fuel =>
      if (n =? 0)%nat then mret [] else
      got ← read n;
      if bool_decide (got = []) then r_lift (Err (Io UnexpectedEof)) else
      rest ← read_exact_loop fuel (n - length got);
      mret (got ++ rest)
  end.
Definition read_exact (n : nat) : RM (list byte) := read_exact_loop n n.

(** A writer: the bytes accepted so far, and how many more are accepted before
    the transport fails ([None]: it does not). *)
Record Writer := { written : list byte; capacity : option nat }.

(** [AsyncWriteExt::write_all]: a failure leaves a prefix behind. *)
Definition write_all (bs : list byte) : M Writer unit := λ w,
  match w.(capacity) with
  | None => (Ok tt, {| written := w.(written) ++ bs; capacity := None |})
  | Some n =>
      if (length bs <=? n)%nat
      then (Ok tt, {| written := w.(written) ++ bs; capacity := Some (n - length bs)%nat |})
      else (Err (Io OtherKind), {| written := w.(written) ++ take n bs; capacity := Some 0%nat |})
  end.

(** ** [send_msg] and [recv_msg] *)

Section messages.
Context `{Codec}.

Definition send_msg (msg : ControlMessage) : M Writer unit :=
  payload ← lift (serialize msg);
  let len := u32_to_be_bytes (Z.of_nat (length payload) mod 2 ^ 32) in
  write_all len;;
  write_all payload.

Definition recv_msg : RM (option ControlMessage) :=
  first ← read 1;
  if bool_decide (first = []) then mret None else
  rest ← read_exact 3;
  let len := Z.to_nat (u32_from_be_bytes (first ++ rest)) in
  if (MAX_CONTROL_MSG_BYTES <? len)%nat
  then r_lift (Err (MsgArgs "Control message too large: {} bytes (max {})"
                            [Z.of_nat len; Z.of_nat MAX_CONTROL_MSG_BYTES]))
  else
  data ← read_exact len;
  msg ← r_lift (deserialize data);
  mret (Some msg).

(** Receiving until the end of the stream, an error or a wait: the received
    messages and the final outcome.  A frame takes at least four bytes. *)
Fixpoint recv_loop (fuel : nat) (r : Reader) : list ControlMessage * poll (result unit) :=
  match fuel with
  | O => ([], Pending)
  | S fuel =>
      match recv_msg r with
      | (Ready (Ok (Some m)), r) => let '(ms, o) := recv_loop fuel r in (m :: ms, o)
      | (Ready (Ok None), _) => ([], Ready (Ok tt))
      | (Ready (Err e), _) => ([], Ready (Err e))
      | (Pending, _) => ([], Pending)
      end
  end.
Definition recv_all (r : Reader) : list ControlMessage * poll (result unit) :=
  recv_loop (S (length (contents r))) r.

(** ** The wire format, on whole streams *)

(** A frame with a given payload. *)
Definition frame (payload : list byte) : list byte :=
  u32_to_be_bytes (Z.of_nat (length payload)) ++ payload.

(** What a reader waiting for bytes that did not arrive gets. *)
Definition starved {A} (e : ReadEnd) : poll (result A) :=
  match e with
  | Eof => Ready (Err (Io UnexpectedEof))
  | Fails k => Ready (Err (Io k))
  | Open => Pending
  end.

(** The outcome of [recv_msg] as a function of the bytes of the stream. *)
Definition decode_stream (s : list byte) (e : ReadEnd) : poll (result (option ControlMessage)) :=
  match s with
  | [] => match e with Eof => Ready (Ok None) | _ => starved e end
  | _ =>
      if (length s <? 4)%nat then starved e else
      let len := Z.to_nat (u32_from_be_bytes (take 4 s)) in
      if (MAX_CONTROL_MSG_BYTES <? len)%nat
      then Ready (Err (MsgArgs "Control message too large: {} bytes (max {})"
                               [Z.of_nat len; Z.of_nat MAX_CONTROL_MSG_BYTES]))
      else if (length s <? 4 + len)%nat then starved e
      else Ready (Some <$> deserialize (take len (drop 4 s)))
  end.
End messages.

#[global] Arguments frame : simpl never.
#[global] Arguments recv_msg : simpl never.
#[global] Arguments recv_all : simpl never.
