(* ===== verification/MessageFacts.v ===== *)
(** The framing of [Message]: a reader sees the bytes of the stream however
    they are fragmented, and what was sent is what is received. *)

From Stdlib Require Import Strings.Byte.
From S2P Require Import Prelude Bytes Protocol Message.

(** ** Big-endian lengths *)

Lemma byte_Z_byte z : byte_Z (Z_byte z) = z mod 256.
Proof.
  pose proof (Z.mod_pos_bound z 256). unfold byte_Z, Z_byte.
  destruct (Byte.of_N (Z.to_N (z mod 256))) as [b|] eqn:Hb; cbn.
  - apply Byte.to_of_N in Hb. rewrite Hb. lia.
  - apply Byte.of_N_None_iff in Hb. lia.
Qed.

Lemma byte_Z_range b : 0 ≤ byte_Z b < 256.
Proof. unfold byte_Z. pose proof (Byte.to_N_bounded b). lia. Qed.

Lemma u32_be_bytes_roundtrip z : 0 ≤ z < 2 ^ 32 → u32_from_be_bytes (u32_to_be_bytes z) = z.
Proof.
  intros Hz. unfold u32_from_be_bytes, u32_to_be_bytes. cbn [foldl].
  rewrite !byte_Z_byte, !Z.shiftr_div_pow2 by lia. cbn.
  change (Z.pow_pos 2 24) with 16777216. change (Z.pow_pos 2 16) with 65536.
  change (Z.pow_pos 2 8) with 256. change (2 ^ 32) with 4294967296 in Hz.
  Z.to_euclidean_division_equations. lia.
Qed.

Lemma u32_from_be_bytes_nonneg l : 0 ≤ u32_from_be_bytes l.
Proof.
  unfold u32_from_be_bytes.
  assert (H : ∀ acc, 0 ≤ acc → 0 ≤ foldl (λ acc b, acc * 256 + byte_Z b) acc l); [|by apply H].
  induction l as [|b l IH]; cbn; intros acc Hacc; [done|].
  apply IH. pose proof (byte_Z_range b). lia.
Qed.

(** ** Reading *)

Lemma read_chunks_contents n cs e : (0 < n)%nat →
  match concat cs with
  | [] => read_chunks n cs e =
      (match e with Eof => Ready (Ok []) | Fails k => Ready (Err (Io k)) | Open => Pending end,
       {| chunks := []; behind := e |})
  | s => ∃ got cs', read_chunks n cs e = (Ready (Ok got), {| chunks := cs'; behind := e |}) ∧
           got ≠ [] ∧ (length got ≤ n)%nat ∧ s = got ++ concat cs'
  end.
Proof.
  intros Hn. induction cs as [|[|b c] cs IH]; [done|exact IH|]. cbn.
  exists (take n (b :: c)), (drop n (b :: c) :: cs). split_and!.
  - done.
  - by destruct n; [lia|].
  - rewrite length_take. lia.
  - cbn. by rewrite app_assoc, take_drop.
Qed.

Lemma read_cases n r : (0 < n)%nat →
  (contents r = [] ∧ read n r =
     (match behind r with Eof => Ready (Ok []) | Fails k => Ready (Err (Io k)) | Open => Pending end,
      {| chunks := []; behind := behind r |})) ∨
  (∃ got r', read n r = (Ready (Ok got), r') ∧ got ≠ [] ∧ (length got ≤ n)%nat ∧
     contents r = got ++ contents r' ∧ behind r' = behind r).
Proof.
  intros Hn. pose proof (read_chunks_contents n (chunks r) (behind r) Hn) as H.
  unfold contents, read. destruct (concat (chunks r)) as [|b s].
  - by left.
  - right. destruct H as (got & cs' & H & Hne & Hlen & Heq).
    by exists got, {| chunks := cs'; behind := behind r |}.
Qed.

(** [read_exact] on a stream that has enough bytes, and on one that has not. *)
Lemma read_exact_loop_spec fuel n r : (n ≤ fuel)%nat →
  if decide (n ≤ length (contents r))%nat
  then ∃ r', read_exact_loop fuel n r = (Ready (Ok (take n (contents r))), r') ∧
         contents r' = drop n (contents r) ∧ behind r' = behind r
  else ∃ r', read_exact_loop fuel n r = (starved (behind r), r').
Proof.
  revert n r. induction fuel as [|fuel IH]; intros n r Hn; cbn [read_exact_loop].
  - replace n with 0%nat by lia. rewrite decide_True by lia. by exists r.
  - destruct (Nat.eqb_spec n 0) as [->|Hn0].
    { rewrite decide_True by lia. by exists r. }
    unfold mbind, RM_bind.
    destruct (read_cases n r) as [[Hs ->]|(got & r1 & -> & Hne & Hlen & Hs & He)]; [lia| |].
    + rewrite Hs, decide_False by (cbn; lia). destruct (behind r); by eexists.
    + rewrite bool_decide_false by done. specialize (IH (n - length got)%nat r1).
      assert (length got ≠ 0%nat) by (by destruct got).
      rewrite Hs, length_app, <- He. destruct (decide (n ≤ _)%nat) as [Hle|Hle].
      * rewrite decide_True in IH by lia. destruct IH as (r' & -> & Hd & Hb); [lia|].
        exists r'. by rewrite take_app, drop_app, Hd, Hb, (take_ge got), (drop_ge got) by lia.
      * rewrite decide_False in IH by lia. destruct IH as [r' ->]; [lia|].
        exists r'. unfold starved. by destruct (behind r1).
Qed.

Lemma read_exact_ok n r : (n ≤ length (contents r))%nat →
  ∃ r', read_exact n r = (Ready (Ok (take n (contents r))), r') ∧
    contents r' = drop n (contents r) ∧ behind r' = behind r.
Proof.
  intros Hle. pose proof (read_exact_loop_spec n n r (le_n n)) as H.
  by rewrite decide_True in H.
Qed.

Lemma read_exact_starved n r : (length (contents r) < n)%nat →
  ∃ r', read_exact n r = (starved (behind r), r').
Proof.
  intros Hlt. pose proof (read_exact_loop_spec n n r (le_n n)) as H.
  by rewrite decide_False in H by lia.
Qed.

Lemma read_one r : 
  match contents r with
  | [] => ∃ r', read 1 r = (match behind r with Eof => Ready (Ok []) | Fails k => Ready (Err (Io k))
                            | Open => Pending end, r')
  | b :: s => ∃ r', read 1 r = (Ready (Ok [b]), r') ∧ contents r' = s ∧ behind r' = behind r
  end.
Proof.
  destruct (read_cases 1 r) as [[-> ->]|(got & r1 & -> & Hne & Hlen & -> & He)]; [lia|by eexists|].
  destruct got as [|b [|]]; [done| |cbn in Hlen; lia]. cbn. by exists r1.
Qed.

(** ** Receiving one message *)

Section receiving.
Context `{Codec}.

(** The outcome is a function of the stream, and a delivered message takes
    exactly its frame off it. *)
Lemma recv_msg_decode r :
  (recv_msg r).1 = decode_stream (contents r) (behind r) ∧
  (∀ m, (recv_msg r).1 = Ready (Ok (Some m)) →
     contents (recv_msg r).2
       = drop (4 + Z.to_nat (u32_from_be_bytes (take 4 (contents r)))) (contents r) ∧
     behind (recv_msg r).2 = behind r).
Proof.
  unfold recv_msg, mbind, RM_bind, decode_stream. pose proof (read_one r) as H1.
  destruct (contents r) as [|b s].
  { destruct H1 as [r1 ->]. by destruct (behind r). }
  destruct H1 as (r1 & -> & Hs & Hb). rewrite bool_decide_false by done.
  destruct (decide (3 ≤ length s)%nat) as [Hlen|Hlen]; subst s.
  2:{ destruct (read_exact_starved 3 r1) as [r2 ->]; [lia|].
      rewrite Hb, (proj2 (Nat.ltb_lt _ _)) by (cbn [length]; lia). by destruct (behind r). }
  destruct (read_exact_ok 3 r1 Hlen) as (r2 & -> & Hs2 & Hb2).
  rewrite (proj2 (Nat.ltb_ge (length (_ :: _)) 4)) by (cbn [length]; lia).
  change ([b] ++ take 3 (contents r1)) with (take 4 (b :: contents r1)).
  set (n := Z.to_nat _). change (drop 4 (b :: contents r1)) with (drop 3 (contents r1)).
  destruct (Nat.ltb_spec MAX_CONTROL_MSG_BYTES n) as [Hmax|Hmax]; [done|].
  assert (Hlens : length (contents r2) = (length (contents r1) - 3)%nat)
    by (by rewrite Hs2, length_drop).
  destruct (decide (n ≤ length (contents r2))%nat) as [Hn|Hn].
  2:{ destruct (read_exact_starved n r2) as [r3 ->]; [lia|].
      rewrite Hb2, Hb, (proj2 (Nat.ltb_lt _ _)) by (cbn [length]; lia). by destruct (behind r). }
  destruct (read_exact_ok n r2 Hn) as (r3 & -> & Hs3 & Hb3).
  rewrite (proj2 (Nat.ltb_ge (length (_ :: _)) (4 + n))) by (cbn [length]; lia).
  rewrite <- Hs2.
  unfold r_lift. destruct (deserialize _) as [m|e]; cbn -[drop]; [|done]. split; [done|].
  intros m' _. rewrite Hs3, Hs2, drop_drop, Hb3, Hb2, Hb. done.
Qed.

(** On a stream that starts with a well-sized frame. *)
Lemma decode_stream_frame payload s e m :
  (length payload ≤ MAX_CONTROL_MSG_BYTES)%nat → deserialize payload = Ok m →
  decode_stream (frame payload ++ s) e = Ready (Ok (Some m)) ∧
  drop (4 + Z.to_nat (u32_from_be_bytes (take 4 (frame payload ++ s)))) (frame payload ++ s) = s.
Proof.
  intros Hlen Hd.
  assert (Hp : take 4 (frame payload ++ s) = u32_to_be_bytes (Z.of_nat (length payload))) by done.
  assert (Hn : Z.to_nat (u32_from_be_bytes (u32_to_be_bytes (Z.of_nat (length payload))))
    = length payload).
  { rewrite u32_be_bytes_roundtrip, Nat2Z.id; [done|]. revert Hlen.
    unfold MAX_CONTROL_MSG_BYTES. lia. }
  assert (Hdrop : drop 4 (frame payload ++ s) = payload ++ s) by done.
  assert (Hl : length (frame payload ++ s) = (4 + length payload + length s)%nat)
    by (unfold frame; rewrite !length_app; cbn; lia).
  split; [|by rewrite Hp, Hn, <- drop_drop, Hdrop, drop_app_length].
  unfold decode_stream. destruct (frame payload ++ s) eqn:E; [done|]. rewrite <- E in *.
  rewrite Hp, Hn, Hdrop, (proj2 (Nat.ltb_ge _ _)), (proj2 (Nat.ltb_ge _ _)) by lia.
  rewrite (proj2 (Nat.ltb_ge _ _)) by lia. by rewrite take_app_length, Hd.
Qed.

(** On a frame that is cut short. *)
Lemma decode_stream_cut payload s s' e :
  (length payload ≤ MAX_CONTROL_MSG_BYTES)%nat → frame payload = s ++ s' → s ≠ [] → s' ≠ [] →
  decode_stream s e = starved e.
Proof.
  intros Hlen Hf Hs Hs'. unfold decode_stream. destruct s as [|b s1] eqn:E; [done|].
  rewrite <- E in *. clear E b s1 Hs.
  destruct (Nat.ltb_spec (length s) 4) as [|Hge]; [done|].
  assert (Hp : take 4 s = u32_to_be_bytes (Z.of_nat (length payload))).
  { transitivity (take 4 (frame payload)); [|done]. rewrite Hf.
    by rewrite take_app_le by lia. }
  rewrite Hp, u32_be_bytes_roundtrip, Nat2Z.id by (revert Hlen; unfold MAX_CONTROL_MSG_BYTES; lia).
  rewrite (proj2 (Nat.ltb_ge _ _)) by lia.
  apply (f_equal length) in Hf. unfold frame in Hf. rewrite !length_app in Hf. cbn in Hf.
  assert (length s' ≠ 0%nat) by (by destruct s').
  by rewrite (proj2 (Nat.ltb_lt _ _)) by lia.
Qed.

(** ** Receiving until the stream ends *)

Lemma decode_stream_delivers s e m : decode_stream s e = Ready (Ok (Some m)) → (4 ≤ length s)%nat.
Proof.
  unfold decode_stream. destruct s as [|b s]; [by destruct e|].
  destruct (Nat.ltb_spec (length (b :: s)) 4); [by destruct e|done].
Qed.

Lemma decode_stream_pending s e : decode_stream s e = Pending → e = Open.
Proof.
  unfold decode_stream. destruct s as [|b s]; [by destruct e|].
  repeat case_match; by destruct e.
Qed.

Lemma recv_msg_progress r m r' : recv_msg r = (Ready (Ok (Some m)), r') →
  (length (contents r') + 4 ≤ length (contents r))%nat ∧ behind r' = behind r.
Proof.
  intros Hr. destruct (recv_msg_decode r) as [Hd Hm]. rewrite Hr in Hd, Hm. cbn in Hd, Hm.
  destruct (Hm m eq_refl) as [-> ->]. split; [|done].
  symmetry in Hd. apply decode_stream_delivers in Hd. rewrite length_drop. lia.
Qed.

(** The fuel of [recv_all] is enough. *)
Lemma recv_loop_fuel fuel r : (length (contents r) < fuel)%nat → recv_loop fuel r = recv_all r.
Proof.
  unfold recv_all. remember (length (contents r)) as n eqn:Hn.
  assert (Hgen : ∀ f1 f2, (n < f1)%nat → (n < f2)%nat → recv_loop f1 r = recv_loop f2 r);
    [|intros; apply Hgen; lia].
  clear fuel. revert r Hn. induction n as [n IH] using lt_wf_ind. intros r -> f1 f2 H1 H2.
  destruct f1 as [|f1], f2 as [|f2]; [lia..|]. cbn [recv_loop].
  destruct (recv_msg r) as [[[[m|]|]|] r'] eqn:Hr; try done.
  apply recv_msg_progress in Hr as [Hr _].
  by rewrite (IH (length (contents r')) ltac:(lia) r' eq_refl f1 f2) by lia.
Qed.

Lemma recv_all_step r : recv_all r =
  match recv_msg r with
  | (Ready (Ok (Some m)), r') => let '(ms, o) := recv_all r' in (m :: ms, o)
  | (Ready (Ok None), _) => ([], Ready (Ok tt))
  | (Ready (Err e), _) => ([], Ready (Err e))
  | (Pending, _) => ([], Pending)
  end.
Proof.
  unfold recv_all at 1. cbn [recv_loop].
  destruct (recv_msg r) as [[[[m|]|]|] r'] eqn:Hr; try done.
  apply recv_msg_progress in Hr as [Hr _]. by rewrite recv_loop_fuel by lia.
Qed.

Lemma recv_all_empty r : contents r = [] →
  recv_all r = ([], match behind r with Eof => Ready (Ok tt) | e => starved e end).
Proof.
  intros Hs. rewrite recv_all_step. pose proof (proj1 (recv_msg_decode r)) as Hd.
  rewrite Hs in Hd. destruct (recv_msg r) as [p r']. cbn in Hd. subst p. by destruct (behind r).
Qed.

Lemma recv_all_frame r payload s m : contents r = frame payload ++ s →
  (length payload ≤ MAX_CONTROL_MSG_BYTES)%nat → deserialize payload = Ok m →
  ∃ r', recv_all r = (let '(ms, o) := recv_all r' in (m :: ms, o)) ∧
    contents r' = s ∧ behind r' = behind r.
Proof.
  intros Hs Hlen Hm. rewrite recv_all_step. destruct (recv_msg_decode r) as [Hd Hnext].
  destruct (decode_stream_frame payload s (behind r) m Hlen Hm) as [Hf Hdrop].
  rewrite Hs in Hd, Hnext. rewrite Hf in Hd. destruct (Hnext m Hd) as [Hc Hb].
  rewrite Hdrop in Hc. destruct (recv_msg r) as [p r']. cbn in Hd, Hc, Hb. subst p.
  by exists r'.
Qed.

Lemma recv_all_cut r payload s' :
  (length payload ≤ MAX_CONTROL_MSG_BYTES)%nat → frame payload = contents r ++ s' →
  contents r ≠ [] → s' ≠ [] → recv_all r = ([], starved (behind r)).
Proof.
  intros Hlen Hf Hne Hs'. rewrite recv_all_step. pose proof (proj1 (recv_msg_decode r)) as Hd.
  rewrite (decode_stream_cut _ _ _ _ Hlen Hf Hne Hs') in Hd.
  destruct (recv_msg r) as [p r']. cbn in Hd. subst p. by destruct (behind r).
Qed.
End receiving.

(** ** Sending *)

Section sending.
Context `{Codec}.

(** A sequence of messages on one stream, until a failure. *)
Fixpoint send_all (ms : list ControlMessage) : M Writer unit :=
  match ms with
  | [] => mret tt
  | m :: ms => send_msg m;; send_all ms
  end.

(** The payloads of a sequence of messages, each within the receiver's limit. *)
Definition payloads (ms : list ControlMessage) (ps : list (list byte)) : Prop :=
  Forall2 (λ m p, message_ok m ∧ serialize m = Ok p ∧ (length p ≤ MAX_CONTROL_MSG_BYTES)%nat) ms ps.

Lemma write_all_prefix bs w :
  ∃ k, written (write_all bs w).2 = written w ++ take k bs ∧
    (is_ok (write_all bs w).1 = true → (length bs ≤ k)%nat).
Proof.
  unfold write_all. destruct (capacity w) as [n|]; cbn.
  - destruct (Nat.leb_spec (length bs) n); cbn.
    + exists n. by rewrite take_ge by lia.
    + by exists n.
  - exists (length bs). by rewrite take_ge by lia.
Qed.

(** Whatever happens to the transport, a prefix of the frame was written. *)
Lemma send_msg_prefix m p w : serialize m = Ok p → (length p ≤ MAX_CONTROL_MSG_BYTES)%nat →
  ∃ k, written (send_msg m w).2 = written w ++ take k (frame p) ∧
    (is_ok (send_msg m w).1 = true → (length (frame p) ≤ k)%nat).
Proof.
  intros Hp Hlen. unfold send_msg, mbind, M_bind, lift. rewrite Hp.
  rewrite Z.mod_small by (split; [lia|]; revert Hlen; unfold MAX_CONTROL_MSG_BYTES; lia).
  destruct (write_all_prefix (u32_to_be_bytes (Z.of_nat (length p))) w) as (k1 & H1 & Hk1).
  unfold frame. remember (u32_to_be_bytes (Z.of_nat (length p))) as len eqn:Hl. clear Hl.
  destruct (write_all len w) as [[[]|e] w1]; cbn in H1, Hk1 |- *.
  - specialize (Hk1 eq_refl). rewrite take_ge in H1 by done.
    destruct (write_all_prefix p w1) as (k2 & H2 & Hk2). exists (length len + k2)%nat.
    rewrite H2, H1, <- app_assoc, take_app_add. split; [done|]. intros Hok%Hk2.
    rewrite length_app. lia.
  - exists (Nat.min k1 (length len)). rewrite H1. split; [|done].
    rewrite take_app_le by lia. destruct (decide (k1 ≤ length len)%nat).
    + by rewrite Nat.min_l by lia.
    + by rewrite Nat.min_r, !take_ge by lia.
Qed.

Lemma send_all_prefix ms ps w : payloads ms ps →
  ∃ k, written (send_all ms w).2 = written w ++ take k (concat (frame <$> ps)) ∧
    (is_ok (send_all ms w).1 = true → (length (concat (frame <$> ps)) ≤ k)%nat).
Proof.
  intros Hps. revert w. induction Hps as [|m p ms ps (_ & Hp & Hlen) _ IH]; intros w; cbn.
  { exists 0%nat. by rewrite app_nil_r. }
  unfold mbind, M_bind. destruct (send_msg_prefix m p w Hp Hlen) as (k1 & H1 & Hk1).
  destruct (send_msg m w) as [[[]|e] w1]; cbn in H1, Hk1 |- *.
  - specialize (Hk1 eq_refl). rewrite take_ge in H1 by done.
    destruct (IH w1) as (k2 & H2 & Hk2). exists (length (frame p) + k2)%nat.
    rewrite H2, H1, <- app_assoc, take_app_add. split; [done|]. intros Hok%Hk2.
    rewrite length_app. lia.
  - exists (Nat.min k1 (length (frame p))). rewrite H1. split; [|done].
    rewrite take_app_le by lia. destruct (decide (k1 ≤ length (frame p))%nat).
    + by rewrite Nat.min_l by lia.
    + by rewrite Nat.min_r, !take_ge by lia.
Qed.

(** Receiving any prefix of a sequence of frames. *)
Lemma recv_all_prefix `{!CodecLaw} ms ps r s' : payloads ms ps →
  concat (frame <$> ps) = contents r ++ s' →
  ∃ ms1 ms2, ms = ms1 ++ ms2 ∧ (s' = [] → ms2 = []) ∧
    ((recv_all r = (ms1, match behind r with Eof => Ready (Ok tt) | e => starved e end)) ∨
     (recv_all r = (ms1, starved (behind r)) ∧ ms2 ≠ [])).
Proof.
  intros Hps. revert r. induction Hps as [|m p ms ps (Hm & Hp & Hlen) _ IH]; intros r Hs; cbn in Hs.
  { symmetry in Hs. apply app_eq_nil in Hs as [Hs _]. exists [], []. split_and!; [done..|].
    left. by apply recv_all_empty. }
  destruct (decide (length (frame p) ≤ length (contents r))%nat) as [Hle|Hlt].
  - assert (Hc : contents r = frame p ++ drop (length (frame p)) (contents r)).
    { rewrite <- (take_drop (length (frame p)) (contents r)) at 1. f_equal.
      apply (f_equal (take (length (frame p)))) in Hs.
      by rewrite take_app_length, take_app_le in Hs by done. }
    apply (deserialize_serialize m p Hm) in Hp.
    destruct (recv_all_frame r p _ m Hc Hlen Hp) as (r' & Hr & Hc' & Hb).
    rewrite Hc, <- app_assoc in Hs. apply app_inv_head in Hs. rewrite <- Hc' in Hs.
    destruct (IH r' Hs) as (ms1 & ms2 & -> & Hnil & Hout). exists (m :: ms1), ms2.
    split_and!; [done..|]. rewrite Hr, <- Hb. destruct Hout as [->|[-> Hne]]; [by left|by right].
  - assert (Hc : frame p = contents r ++ drop (length (contents r)) (frame p)).
    { rewrite <- (take_drop (length (contents r)) (frame p)) at 1. f_equal.
      apply (f_equal (take (length (contents r)))) in Hs.
      by rewrite take_app_length, take_app_le in Hs by lia. }
    exists [], (m :: ms). split_and!; [done| |].
    + intros ->. apply (f_equal length) in Hs. rewrite !length_app in Hs. cbn in Hs. lia.
    + destruct (decide (contents r = [])) as [He|Hne]; [left; by apply recv_all_empty|].
      right. split; [|done]. eapply recv_all_cut; [exact Hlen|exact Hc|done|].
      intros Hd. apply (f_equal length) in Hd. rewrite length_drop in Hd. cbn in Hd. lia.
Qed.
End sending.
