(* ===== verification/MessageProps.v ===== *)
(** What the control channel guarantees: the properties of [Message]. *)

From Stdlib Require Import Strings.Byte.
From S2P Require Import Prelude Bytes Protocol Message MessageFacts.

Section properties.
Context `{Codec}.

(** C25. [recv_msg] refines the wire format: its outcome is a function of the
    bytes of the stream and of what is behind them, whatever the fragmentation;
    in particular a clean end is reported only between frames, a cut length or
    payload is an unexpected end, an oversized length is refused on its four
    bytes alone, and a delivered message takes exactly its frame. *)
Theorem recv_msg_refines r :
  (recv_msg r).1 = decode_stream (contents r) (behind r) ∧
  (∀ m, (recv_msg r).1 = Ready (Ok (Some m)) →
     contents (recv_msg r).2
       = drop (4 + Z.to_nat (u32_from_be_bytes (take 4 (contents r)))) (contents r) ∧
     behind (recv_msg r).2 = behind r).
Proof. apply recv_msg_decode. Qed.

(** C33. Messages within the size limit arrive: what one side sends, the other
    receives, in order and complete, over any fragmentation of the stream, and
    then sees the clean end of the stream. *)
Theorem session_delivered `{!CodecLaw} ms ps w w' r :
  payloads ms ps → written w = [] → send_all ms w = (Ok tt, w') →
  contents r = written w' → behind r = Eof →
  recv_all r = (ms, Ready (Ok tt)).
Proof.
  intros Hps Hw Hsend Hr He. destruct (send_all_prefix ms ps w Hps) as (k & Hw' & Hk).
  rewrite Hsend in Hw', Hk. cbn in Hw', Hk. rewrite Hw, take_ge in Hw' by auto. cbn in Hw'.
  destruct (recv_all_prefix ms ps r [] Hps) as (ms1 & ms2 & -> & Hnil & Hout).
  { by rewrite Hr, Hw', app_nil_r. }
  rewrite (Hnil eq_refl), app_nil_r in *. rewrite He in Hout.
  destruct Hout as [->|[_ Hne]]; [done|]. by destruct Hne, Hnil.
Qed.

(** A transport that fails while a sequence of messages is sent never makes
    the receiver see anything but a prefix of them, and when the failure cuts a
    frame the receiver reports an unexpected end instead of a clean one. *)
Theorem broken_transport_truncates `{!CodecLaw} ms ps w r :
  payloads ms ps → written w = [] →
  contents r = written (send_all ms w).2 → behind r = Eof →
  ∃ ms1 ms2, ms = ms1 ++ ms2 ∧
    (recv_all r = (ms1, Ready (Ok tt)) ∨
     recv_all r = (ms1, Ready (Err (Io UnexpectedEof))) ∧ ms2 ≠ []).
Proof.
  intros Hps Hw Hr He. destruct (send_all_prefix ms ps w Hps) as (k & Hw' & _).
  rewrite Hw in Hw'. cbn in Hw'.
  destruct (recv_all_prefix ms ps r (drop k (concat (frame <$> ps))) Hps)
    as (ms1 & ms2 & -> & _ & Hout).
  { by rewrite Hr, Hw', take_drop. }
  exists ms1, ms2. split; [done|]. by rewrite He in Hout.
Qed.

(** C34. Only the receiver enforces the limit: a payload of more than 64 KiB is
    sent in full, and refused by the peer as soon as its length has arrived,
    whether or not anything follows. *)
Theorem oversized_payload_sent_then_refused m p w r k :
  serialize m = Ok p → (MAX_CONTROL_MSG_BYTES < length p)%nat →
  Z.of_nat (length p) < 2 ^ 32 → capacity w = None →
  (4 ≤ k)%nat → contents r = take k (frame p) →
  send_msg m w = (Ok tt, {| written := written w ++ frame p; capacity := None |}) ∧
  (recv_msg r).1 = Ready (Err (MsgArgs "Control message too large: {} bytes (max {})"
                                 [Z.of_nat (length p); Z.of_nat MAX_CONTROL_MSG_BYTES])).
Proof.
  intros Hp Hbig Hmax Hcap Hk Hr. split.
  - unfold send_msg, mbind, M_bind, lift. rewrite Hp, Z.mod_small by lia.
    unfold write_all at 1. rewrite Hcap. unfold write_all, frame. cbn -[u32_to_be_bytes].
    by rewrite app_assoc.
  - rewrite (proj1 (recv_msg_decode r)), Hr. unfold decode_stream.
    assert (Hp4 : take 4 (take k (frame p)) = u32_to_be_bytes (Z.of_nat (length p))).
    { rewrite take_take, Nat.min_l by done. done. }
    assert (Hlen : (4 ≤ length (take k (frame p)))%nat).
    { rewrite length_take. unfold frame. rewrite length_app. cbn. lia. }
    destruct (take k (frame p)) as [|b s] eqn:E; [cbn in Hlen; lia|]. rewrite <- E in *.
    rewrite (proj2 (Nat.ltb_ge _ _)) by done.
    rewrite Hp4, u32_be_bytes_roundtrip, Nat2Z.id by lia.
    by rewrite (proj2 (Nat.ltb_lt _ _)) by done.
Qed.

(** The receive loop ends: every message takes at least four bytes, so a
    number of rounds above the length of the stream is enough, and unless the
    peer keeps the stream open the loop ends with a verdict. *)
Theorem recv_all_terminates r fuel :
  (length (contents r) < fuel)%nat →
  recv_loop fuel r = recv_all r ∧
  (behind r ≠ Open → ∃ res, (recv_all r).2 = Ready res).
Proof.
  intros Hfuel. split; [by apply recv_loop_fuel|]. clear Hfuel.
  remember (length (contents r)) as n eqn:Hn. revert r Hn.
  induction n as [n IH] using lt_wf_ind. intros r -> Hopen. rewrite recv_all_step.
  pose proof (proj1 (recv_msg_decode r)) as Hd.
  destruct (recv_msg r) as [[[[m|]|e]|] r'] eqn:Hr; cbn; [|by eexists..|].
  - apply recv_msg_progress in Hr as [Hlt Hb].
    destruct (IH (length (contents r')) ltac:(lia) r' eq_refl) as [res Hres]; [by rewrite Hb|].
    exists res. by destruct (recv_all r').
  - cbn in Hd. symmetry in Hd. by apply decode_stream_pending in Hd.
Qed.
End properties.

(** ** Concrete instances *)

Section witnesses.

(** A concrete codec: the digits of the number that encodes the message. *)
Definition shape : Type :=
  (Protocol * Z * TunnelToken * bytes 32) + (Z + (Z + (str +
  ((TunnelToken * TunnelToken) + (option Z + ((TunnelToken * TunnelToken) + Z)))))).

Definition to_shape (m : ControlMessage) : shape :=
  match m with
  | Register p l t r => inl (p, l, t, r)
  | TunnelReady p => inr (inl p)
  | NewConnection s => inr (inr (inl s))
  | Error e => inr (inr (inr (inl e)))
  | RotateIdentity o n => inr (inr (inr (inr (inl (o, n)))))
  | IdentityRotated p => inr (inr (inr (inr (inr (inl p)))))
  | RecoverIdentity s n => inr (inr (inr (inr (inr (inr (inl (s, n)))))))
  | IdentityRecovered p => inr (inr (inr (inr (inr (inr (inr p))))))
  end.
Definition of_shape (x : shape) : ControlMessage :=
  match x with
  | inl (p, l, t, r) => Register p l t r
  | inr (inl p) => TunnelReady p
  | inr (inr (inl s)) => NewConnection s
  | inr (inr (inr (inl e))) => Error e
  | inr (inr (inr (inr (inl (o, n))))) => RotateIdentity o n
  | inr (inr (inr (inr (inr (inl p))))) => IdentityRotated p
  | inr (inr (inr (inr (inr (inr (inl (s, n))))))) => RecoverIdentity s n
  | inr (inr (inr (inr (inr (inr (inr p)))))) => IdentityRecovered p
  end.

#[local] Instance bit_codec : Codec := {|
  serialize m := Ok (bits_of (encode (to_shape m)));
  deserialize l := ok_or (p ← of_bits l; x ← (decode p : option shape); Some (of_shape x))
                         (External "invalid message");
|}.

#[local] Instance bit_codec_law : CodecLaw.
Proof.
  split. intros m payload _ [= <-]. cbn. rewrite of_bits_of. cbn. rewrite decode_encode. cbn.
  by destruct m.
Qed.

(** A reader that gets the stream byte by byte. *)
Definition bytewise (s : list byte) (e : ReadEnd) : Reader :=
  {| chunks := (λ b, [b]) <$> s; behind := e |}.

Definition w_messages : list ControlMessage := [TunnelReady 12345; NewConnection 42].
Definition w_payloads : list (list byte) := (λ m, bits_of (encode (to_shape m))) <$> w_messages.
Definition w_writer (n : option nat) : Writer := {| written := []; capacity := n |}.

Lemma w_payloads_ok : payloads w_messages w_payloads.
Proof.
  apply Forall2_cons. split; [|apply Forall2_cons; split; [|apply Forall2_nil; done]].
  all: split_and!; [cbn; unfold u16_ok, u64_ok, U16_MAX, U64_MAX; lia|reflexivity|].
  all: apply Nat.leb_le; vm_compute; reflexivity.
Qed.

Lemma recv_msg_refines_witness :
  (recv_msg (bytewise [x00; x01; x00; x01] Open)).1
  = Ready (Err (MsgArgs "Control message too large: {} bytes (max {})" [65537; 65536])).
Proof. rewrite (proj1 (recv_msg_refines _)). reflexivity. Defined.

Lemma session_delivered_witness :
  recv_all (bytewise (written (send_all w_messages (w_writer None)).2) Eof)
  = (w_messages, Ready (Ok tt)).
Proof.
  apply (session_delivered w_messages w_payloads (w_writer None)
    (send_all w_messages (w_writer None)).2); [apply w_payloads_ok|reflexivity..].
Defined.

Lemma broken_transport_truncates_witness :
  ∃ ms1 ms2, w_messages = ms1 ++ ms2 ∧
    (recv_all (bytewise (written (send_all w_messages (w_writer (Some 30%nat))).2) Eof)
       = (ms1, Ready (Ok tt)) ∨
     recv_all (bytewise (written (send_all w_messages (w_writer (Some 30%nat))).2) Eof)
       = (ms1, Ready (Err (Io UnexpectedEof))) ∧ ms2 ≠ []).
Proof.
  apply (broken_transport_truncates w_messages w_payloads (w_writer (Some 30%nat)));
    [apply w_payloads_ok|reflexivity..].
Defined.

(** A message whose payload is over the limit. *)
Definition w_big : ControlMessage := Error (replicate 6000 120).
Definition w_big_payload : list byte := bits_of (encode (to_shape w_big)).

Lemma oversized_payload_sent_then_refused_witness :
  (recv_msg (bytewise (take 4 (frame w_big_payload)) Open)).1
  = Ready (Err (MsgArgs "Control message too large: {} bytes (max {})"
                  [Z.of_nat (length w_big_payload); Z.of_nat MAX_CONTROL_MSG_BYTES])).
Proof.
  apply (oversized_payload_sent_then_refused w_big w_big_payload (w_writer None) _ 4);
    [reflexivity|apply Nat.ltb_lt; vm_compute; reflexivity|apply Z.ltb_lt; vm_compute; reflexivity
    |reflexivity|lia|reflexivity].
Defined.

Lemma recv_all_terminates_witness :
  recv_loop 10 (bytewise [x00; x00] Eof) = recv_all (bytewise [x00; x00] Eof) ∧
  ∃ res, (recv_all (bytewise [x00; x00] Eof)).2 = Ready res.
Proof.
  destruct (recv_all_terminates (bytewise [x00; x00] Eof) 10) as [H1 H2]; [cbn; lia|].
  split; [exact H1|]. by apply H2.
Defined.
End witnesses.
