(* ===== verification/Fs.v ===== *)
(** The part of [std::fs] the program uses, over an explicit file system with a
    schedule of faults and of interference by other processes, and the interface
    of the [tempfile] and [getrandom] crates. *)

From Stdlib Require Import Strings.Byte.
From S2P Require Import Prelude Bytes.

(** ** Paths *)

(** The components of a path; [[]] is the directory the program starts in. *)
Definition Path := list string.

(** [Path::parent], with the [unwrap_or_else(|| Path::new("."))] of its uses. *)
Definition parent (p : Path) : Path := removelast p.
(** [Path::file_name] and [Path::with_file_name]. *)
Definition file_name (p : Path) : option string := last p.
Definition with_file_name (p : Path) (n : string) : Path := removelast p ++ [n].

(** ** Files *)

(** [private]: the permissions are 0o600.  [synced]: the data is on disk. *)
Record FileNode := { data : list byte; private : bool; synced : bool }.
Inductive Node := FileN (f : FileNode) | DirN | SymlinkN (target : Path).

#[global] Instance FileNode_eq_dec : EqDecision FileNode.
Proof. solve_decision. Defined.
#[global] Instance Node_eq_dec : EqDecision Node.
Proof. solve_decision. Defined.

(** [FileType::is_file] of [symlink_metadata]. *)
Definition is_file (n : Node) : bool := match n with FileN _ => true | _ => false end.

(** What happens at a system call: other processes change the directories in
    the meantime, and the call may fail; a failing write to a visible file has
    written the first [partial] bytes. *)
Record Tick := {
  meanwhile : gmap Path Node → gmap Path Node;
  fault : option ErrorKind;
  partial : nat;
}.

(** [names]: the directory entries as processes see them; [durable]: the entries
    that survive a power loss; [entropy]: the random tokens to come. *)
Record Fs := {
  names : gmap Path Node;
  durable : gmap Path Node;
  schedule : list Tick;
  entropy : list TunnelToken;
}.

Definition set_names (m : gmap Path Node) (fs : Fs) : Fs :=
  {| names := m; durable := fs.(durable); schedule := fs.(schedule); entropy := fs.(entropy) |}.
Definition set_durable (m : gmap Path Node) (fs : Fs) : Fs :=
  {| names := fs.(names); durable := m; schedule := fs.(schedule); entropy := fs.(entropy) |}.

(** The entry of a system call. *)
Definition tick : M Fs unit := λ fs,
  match fs.(schedule) with
  | [] => (Ok tt, fs)
  | t :: ts =>
      (match t.(fault) with Some k => Err (Io k) | None => Ok tt end,
       {| names := t.(meanwhile) fs.(names); durable := fs.(durable);
          schedule := ts; entropy := fs.(entropy) |})
  end.

(** Following symbolic links, as the kernel does, at most 40 times. *)
Fixpoint resolve (fuel : nat) (m : gmap Path Node) (p : Path) : option Path :=
  match m !! p with
  | Some (SymlinkN target) => match fuel with O => None | S fuel => resolve fuel m target end
  | _ => Some p
  end.

(** ** [std::fs] *)

Definition symlink_metadata (p : Path) : M Fs Node :=
  tick;; fs ← get; lift (ok_or (fs.(names) !! p) (Io NotFound)).

Definition metadata (p : Path) : M Fs Node :=
  tick;; fs ← get;
  lift (q ← ok_or (resolve 40 fs.(names) p) (Io OtherKind);
        ok_or (fs.(names) !! q) (Io NotFound)).

(** [fs::read]. *)
Definition fs_read (p : Path) : M Fs (list byte) :=
  tick;; fs ← get;
  lift (q ← ok_or (resolve 40 fs.(names) p) (Io OtherKind);
        n ← ok_or (fs.(names) !! q) (Io NotFound);
        match n with FileN f => Ok f.(data) | _ => Err (Io OtherKind) end).

(** [fs::set_permissions] with mode 0o600. *)
Definition make_private (n : Node) : Node :=
  match n with
  | FileN f => FileN {| data := f.(data); private := true; synced := f.(synced) |}
  | n => n
  end.
Definition set_permissions (p : Path) : M Fs unit :=
  tick;; fs ← get;
  q ← lift (ok_or (resolve 40 fs.(names) p) (Io OtherKind));
  n ← lift (ok_or (fs.(names) !! q) (Io NotFound));
  put (set_names (<[q := make_private n]> fs.(names)) fs).

(** [fs::create_dir_all]: every prefix of the path becomes a directory, unless
    one is something else. *)
Definition prefixes (p : Path) : list Path := (λ n, take n p) <$> seq 1 (length p).
Definition create_dir_all (p : Path) : M Fs unit :=
  tick;; fs ← get;
  ensure (forallb (λ q, bool_decide (fs.(names) !! q ∈ [None; Some DirN])) (prefixes p))
         (Io AlreadyExists);;
  put (set_names (foldr (λ q m, <[q := DirN]> m) fs.(names) (prefixes p)) fs).

(** [OpenOptions::new().write(true).create_new(true).mode(0o600)]. *)
Definition create_new (p : Path) : M Fs unit :=
  tick;; fs ← get;
  ensure (bool_decide (fs.(names) !! p = None)) (Io AlreadyExists);;
  ensure (bool_decide (parent p = [] ∨ fs.(names) !! parent p = Some DirN)) (Io NotFound);;
  put (set_names (<[p := FileN {| data := []; private := true; synced := false |}]> fs.(names)) fs).

(** [write_all] on a file that is open under the name [p]. *)
Definition append (p : Path) (bs : list byte) (m : gmap Path Node) : gmap Path Node :=
  match m !! p with
  | Some (FileN f) =>
      <[p := FileN {| data := f.(data) ++ bs; private := f.(private); synced := false |}]> m
  | _ => m
  end.
Definition file_write_all (p : Path) (bs : list byte) : M Fs unit := λ fs,
  match tick fs with
  | (Ok _, fs1) => (Ok tt, set_names (append p bs fs1.(names)) fs1)
  | (Err e, fs1) =>
      (Err e, set_names (append p (take (default 0%nat (partial <$> head fs.(schedule))) bs)
                                fs1.(names)) fs1)
  end.

(** [fs::rename] of a file. *)
Definition rename (a b : Path) : M Fs unit :=
  tick;; fs ← get;
  n ← lift (ok_or (fs.(names) !! a) (Io NotFound));
  ensure (negb (bool_decide (fs.(names) !! b = Some DirN))) (Io OtherKind);;
  put (set_names (<[b := n]> (delete a fs.(names))) fs).

(** [File::open(dir)?.sync_all()?]: the entries of the directory become durable. *)
Definition sync_directory (dir : Path) : M Fs unit :=
  tick;; tick;; fs ← get;
  put (set_durable
         (filter (λ kv, parent kv.1 = dir) fs.(names)
          ∪ filter (λ kv, parent kv.1 ≠ dir) fs.(durable)) fs).

(** [File::open(p)?.sync_all()?] of a file. *)
Definition sync_file (p : Path) : M Fs unit :=
  tick;; tick;; fs ← get;
  match fs.(names) !! p with
  | Some (FileN f) =>
      put (set_names (<[p := FileN {| data := f.(data); private := f.(private);
                                      synced := true |}]> fs.(names)) fs)
  | _ => fail (Io NotFound)
  end.

(** ** Temporary files and randomness *)

(** [NamedTempFile]: its own random name is nobody else's, so the handle is the
    file; dropping it leaves the rest of the file system alone. *)
Definition Temp := FileNode.

Definition temp_set_owner_only (t : Temp) : M Fs Temp :=
  tick;; mret {| data := t.(data); private := true; synced := t.(synced) |}.
Definition temp_write_all (bs : list byte) (t : Temp) : M Fs Temp :=
  tick;; mret {| data := t.(data) ++ bs; private := t.(private); synced := false |}.
Definition temp_sync_all (t : Temp) : M Fs Temp :=
  tick;; mret {| data := t.(data); private := t.(private); synced := true |}.

(** The operations of the [tempfile] crate on names. *)
Class Tempfile := {
  new_in : Path → M Fs Temp;
  persist : Temp → Path → M Fs unit;
  persist_noclobber : Temp → Path → M Fs unit;
}.

(** The environment's part of a call: some ticks pass, nothing else happens. *)
Definition env_steps (fs fs' : Fs) : Prop :=
  ∃ pre post, fs.(schedule) = pre ++ post ∧
    fs' = {| names := foldl (λ m t, t.(meanwhile) m) fs.(names) pre;
             durable := fs.(durable); schedule := post; entropy := fs.(entropy) |}.

(** What the documentation of [tempfile] says of them: a new file is empty; it
    takes its final name in one step, replacing what was there or, with
    [persist_noclobber], failing with [AlreadyExists] when there was something;
    a failing call changes nothing. *)
Class TempfileLaws `{Tempfile} : Prop := {
  new_in_law dir fs : ∃ fs1, env_steps fs fs1 ∧ (new_in dir fs).2 = fs1 ∧
    (∀ t, (new_in dir fs).1 = Ok t → t.(data) = []);
  persist_law t p fs : ∃ fs1, env_steps fs fs1 ∧
    match (persist t p fs).1 with
    | Ok _ => (persist t p fs).2 = set_names (<[p := FileN t]> fs1.(names)) fs1
    | Err _ => (persist t p fs).2 = fs1
    end;
  persist_noclobber_law t p fs : ∃ fs1, env_steps fs fs1 ∧
    match (persist_noclobber t p fs).1 with
    | Ok _ => fs1.(names) !! p = None ∧
              (persist_noclobber t p fs).2 = set_names (<[p := FileN t]> fs1.(names)) fs1
    | Err e => (persist_noclobber t p fs).2 = fs1 ∧
               (e = Io AlreadyExists → is_Some (fs1.(names) !! p))
    end;
}.

(** [getrandom::getrandom] on a token. *)
Definition getrandom : M Fs TunnelToken :=
  fs ← get;
  match fs.(entropy) with
  | [] => fail (Msg "Failed to generate token: {error}")
  | t :: ts =>
      put {| names := fs.(names); durable := fs.(durable);
             schedule := fs.(schedule); entropy := ts |};;
      mret t
  end.
