(* ===== verification/FsLogic.v ===== *)
(** A program logic for the file-system code of [Fs]: triples that hold under
    every fault and under interference by other processes that, like this
    program, keep what is there and add only complete files. *)

From Stdlib Require Import Strings.Byte.
From S2P Require Import Prelude Bytes Fs.

(** ** The rely and guarantee relation *)

(** The same entry later: its data is untouched, its permissions may have been
    tightened and its data written back. *)
Definition same_entry (n n' : Node) : Prop :=
  match n, n' with
  | FileN f, FileN f' =>
      f'.(data) = f.(data) ∧ (f.(private) = true → f'.(private) = true) ∧
      (f.(synced) = true → f'.(synced) = true)
  | DirN, DirN => True
  | SymlinkN q, SymlinkN q' => q' = q
  | _, _ => False
  end.

(** A file as the program creates it. *)
Definition complete (f : FileNode) : Prop :=
  length f.(data) = 32%nat ∧ f.(private) = true ∧ f.(synced) = true.

Definition grows (m m' : gmap Path Node) : Prop := ∀ p,
  match m !! p with
  | Some n => ∃ n', m' !! p = Some n' ∧ same_entry n n'
  | None => ∀ f, m' !! p = Some (FileN f) → complete f
  end.

(** The processes around are of this kind; faults are unrestricted. *)
Definition friendly (fs : Fs) : Prop :=
  Forall (λ t, ∀ m, grows m (t.(meanwhile) m)) fs.(schedule).

(** There are no other processes. *)
Definition alone (fs : Fs) : Prop := Forall (λ t, ∀ m, t.(meanwhile) m = m) fs.(schedule).

Lemma same_entry_refl n : same_entry n n.
Proof. by destruct n. Qed.

Lemma same_entry_trans n1 n2 n3 : same_entry n1 n2 → same_entry n2 n3 → same_entry n1 n3.
Proof. destruct n1, n2, n3; cbn; naive_solver congruence. Qed.

Lemma complete_same f f' : complete f → same_entry (FileN f) (FileN f') → complete f'.
Proof. unfold complete. cbn. intros (<- & Hp & Hs) (-> & Hp' & Hs'). auto. Qed.

#[global] Instance grows_preorder : PreOrder grows.
Proof.
  split.
  - intros m p. destruct (m !! p) as [n|]; [|done]. eauto using same_entry_refl.
  - intros m1 m2 m3 H12 H23 p. specialize (H12 p). specialize (H23 p).
    destruct (m1 !! p) as [n|].
    + destruct H12 as (n2 & E & Hs). rewrite E in H23. destruct H23 as (n3 & -> & Hs').
      eauto using same_entry_trans.
    + destruct (m2 !! p) as [n2|] eqn:E; [|done]. destruct H23 as (n3 & -> & Hs).
      intros f [= ->]. destruct n2 as [f2| |]; cbn in Hs; try done.
      eapply complete_same; [by apply H12|done].
Qed.

Lemma grows_insert_fresh m p f : m !! p = None → complete f → grows m (<[p := FileN f]> m).
Proof.
  intros Hp Hf q. destruct (decide (q = p)) as [->|Hne].
  - rewrite Hp, lookup_insert_eq. by intros ? [= <-].
  - rewrite lookup_insert_ne by done. apply grows_preorder.
Qed.

Lemma grows_update m p n n' : m !! p = Some n → same_entry n n' → grows m (<[p := n']> m).
Proof.
  intros Hp Hn q. destruct (decide (q = p)) as [->|Hne].
  - rewrite Hp, lookup_insert_eq. eauto.
  - rewrite lookup_insert_ne by done. apply grows_preorder.
Qed.

Lemma grows_insert_dir m p : m !! p = None ∨ m !! p = Some DirN → grows m (<[p := DirN]> m).
Proof.
  intros [Hp|Hp]; [|by apply (grows_update m p DirN)].
  intros q. destruct (decide (q = p)) as [->|Hne].
  - rewrite Hp, lookup_insert_eq. by intros ? [=].
  - rewrite lookup_insert_ne by done. apply grows_preorder.
Qed.

(** ** Triples *)

(** From a state that satisfies [P], every run, successful or not, lets the
    directories grow; a successful one satisfies [Q]. *)
Definition triple {A} (P : Fs → Prop) (m : M Fs A) (Q : A → Fs → Prop) : Prop :=
  ∀ fs r fs', friendly fs → P fs → m fs = (r, fs') →
    friendly fs' ∧ grows fs.(names) fs'.(names) ∧ (∀ a, r = Ok a → Q a fs').

(** Assertions that survive interference. *)
Definition stable (P : Fs → Prop) : Prop :=
  ∀ fs fs', P fs → grows fs.(names) fs'.(names) → P fs'.

Definition anything : Fs → Prop := λ _, True.

Section rules.
Context {A B : Type}.
Implicit Types (m : M Fs A) (P : Fs → Prop).

Lemma triple_bind P m Q (f : A → M Fs B) Q' :
  triple P m Q → (∀ a, triple (Q a) (f a) Q') → triple P (m ≫= f) Q'.
Proof.
  intros Hm Hf fs r fs' Hfr HP Hrun. unfold mbind, M_bind in Hrun.
  destruct (m fs) as [[a|e] fs1] eqn:E.
  - destruct (Hm _ _ _ Hfr HP E) as (Hfr1 & Hg1 & HQ).
    destruct (Hf a _ _ _ Hfr1 (HQ a eq_refl) Hrun) as (Hfr2 & Hg2 & HQ').
    split_and!; [done|by etrans|done].
  - destruct (Hm _ _ _ Hfr HP E) as (Hfr1 & Hg1 & HQ). simplify_eq. by split_and!.
Qed.

Lemma triple_conseq P P' m Q Q' :
  triple P' m Q' → (∀ fs, P fs → P' fs) → (∀ a fs, Q' a fs → Q a fs) → triple P m Q.
Proof.
  intros Hm HP HQ fs r fs' Hfr Hp Hrun.
  destruct (Hm _ _ _ Hfr (HP _ Hp) Hrun) as (Hfr1 & Hg & H). split_and!; auto.
Qed.

Lemma triple_frame P m Q F :
  stable F → triple P m Q → triple (λ fs, P fs ∧ F fs) m (λ a fs, Q a fs ∧ F fs).
Proof.
  intros HF Hm fs r fs' Hfr [HP Hf] Hrun.
  destruct (Hm _ _ _ Hfr HP Hrun) as (Hfr1 & Hg & H). split_and!; [done..|].
  intros a Ha. split; [by apply H|]. by eapply HF.
Qed.

Lemma triple_ret P (a : A) : triple P (mret a : M Fs A) (λ b fs, b = a ∧ P fs).
Proof. intros fs r fs' Hfr HP [= <- <-]. split_and!; [done|done|]. by intros ? [= <-]. Qed.

Lemma triple_lift P (x : result A) : triple P (lift x : M Fs A) (λ a fs, x = Ok a ∧ P fs).
Proof. intros fs r fs' Hfr HP [= <- <-]. split_and!; done. Qed.

Lemma triple_fail P e Q : triple P (fail e : M Fs A) Q.
Proof. intros fs r fs' Hfr HP [= <- <-]. split_and!; done. Qed.

Lemma triple_attempt P m Q E :
  (∀ fs r fs', friendly fs → P fs → m fs = (r, fs') →
     friendly fs' ∧ grows fs.(names) fs'.(names) ∧
     match r with Ok a => Q a fs' | Err e => E e fs' end) →
  triple P (attempt m) (λ r fs, match r with Ok a => Q a fs | Err e => E e fs end).
Proof.
  intros H fs r fs' Hfr HP Hrun. unfold attempt in Hrun.
  destruct (m fs) as [r1 fs1] eqn:Em. cbn in Hrun. simplify_eq.
  destruct (H _ _ _ Hfr HP Em) as (? & ? & HQ). split_and!; [done..|]. by intros ? [= <-].
Qed.
End rules.

Lemma triple_ensure P b e : triple P (ensure b e : M Fs unit) (λ _ fs, b = true ∧ P fs).
Proof.
  intros fs r fs' Hfr HP. unfold ensure. intros [= <- <-]. split_and!; [done..|].
  by destruct b.
Qed.

Lemma triple_if {A} P (b : bool) (m1 m2 : M Fs A) Q :
  triple (λ fs, P fs ∧ b = true) m1 Q → triple (λ fs, P fs ∧ b = false) m2 Q →
  triple P (if b then m1 else m2) Q.
Proof.
  destruct b; intros H1 H2; eapply triple_conseq;
    [exact H1|by intros|done|exact H2|by intros|done].
Qed.

(** ** System calls *)

Lemma stable_anything : stable anything.
Proof. done. Qed.

Lemma triple_tick P : stable P → triple P tick (λ _, P).
Proof.
  intros HP fs r fs' Hfr Hp. unfold tick, friendly in *.
  destruct (schedule fs) as [|t ts] eqn:E.
  - intros [= <- <-]. by rewrite E.
  - apply Forall_cons in Hfr as [Ht Hts]. intros [= <- <-]. cbn.
    split_and!; [done..|]. intros _ _. by eapply HP.
Qed.

(** A call that looks at the entries and does not change them. *)
Lemma triple_observe {A} (P : Fs → Prop) (look : gmap Path Node → result A) : stable P →
  triple P (tick;; fs ← get; lift (look fs.(names)))
    (λ a fs, look fs.(names) = Ok a ∧ P fs).
Proof.
  intros HP. eapply triple_bind; [by apply triple_tick|]. intros _ fs r fs' Hfr Hp Hrun.
  unfold get, lift, mbind, M_bind in Hrun. simplify_eq. split_and!; [done..|auto].
Qed.

(** A call that changes the entries in one step. *)
Lemma triple_change (P Q : Fs → Prop) (change : Fs → result (gmap Path Node)) : stable P →
  (∀ fs m, P fs → change fs = Ok m →
     grows fs.(names) m ∧ Q (set_names m fs)) →
  triple P (tick;; fs ← get; m ← lift (change fs); put (set_names m fs)) (λ _, Q).
Proof.
  intros HP Hc. eapply triple_bind; [by apply triple_tick|]. intros _ fs r fs' Hfr Hp Hrun.
  unfold get, lift, put, mbind, M_bind in Hrun. destruct (change fs) as [m|e] eqn:E.
  - simplify_eq. destruct (Hc fs m Hp E) as [Hg HQ]. split_and!; [done..|auto].
  - simplify_eq. split_and!; done.
Qed.

Lemma env_steps_grows fs fs' : friendly fs → env_steps fs fs' →
  friendly fs' ∧ grows fs.(names) fs'.(names).
Proof.
  intros Hfr (pre & post & Hs & ->). unfold friendly in *. rewrite Hs in Hfr. cbn.
  apply Forall_app in Hfr as [Hpre Hpost]. split; [done|]. clear -Hpre.
  generalize (names fs). induction Hpre as [|t pre Ht _ IH]; intros m; cbn; [done|].
  etrans; [apply Ht|apply IH].
Qed.

(** ** Assertions about one path *)

(** There is an entry at [p]; it is a file; it is a private file with the data. *)
Definition present (p : Path) (fs : Fs) : Prop := is_Some (fs.(names) !! p).
Definition file_at (p : Path) (fs : Fs) : Prop := ∃ f, fs.(names) !! p = Some (FileN f).
Definition private_at (p : Path) (fs : Fs) : Prop :=
  ∃ f, fs.(names) !! p = Some (FileN f) ∧ f.(private) = true.
Definition holds (p : Path) (bs : list byte) (fs : Fs) : Prop :=
  ∃ f, fs.(names) !! p = Some (FileN f) ∧ f.(data) = bs ∧ f.(private) = true.

Lemma grows_file fs fs' p f : grows fs.(names) fs'.(names) → fs.(names) !! p = Some (FileN f) →
  ∃ f', fs'.(names) !! p = Some (FileN f') ∧ f'.(data) = f.(data) ∧
    (f.(private) = true → f'.(private) = true) ∧ (f.(synced) = true → f'.(synced) = true).
Proof.
  intros Hg Hp. specialize (Hg p). rewrite Hp in Hg. destruct Hg as ([f'| |] & -> & Hs); cbn in Hs;
    naive_solver.
Qed.

Lemma present_stable p : stable (present p).
Proof.
  intros fs fs' [n Hn] Hg. specialize (Hg p). rewrite Hn in Hg.
  destruct Hg as (n' & Hn' & _). by exists n'.
Qed.
Lemma file_at_stable p : stable (file_at p).
Proof. intros fs fs' [f Hf] Hg. destruct (grows_file _ _ _ _ Hg Hf) as (f' & ? & _). by exists f'. Qed.
Lemma private_at_stable p : stable (private_at p).
Proof.
  intros fs fs' (f & Hf & Hp) Hg. destruct (grows_file _ _ _ _ Hg Hf) as (f' & ? & _ & H & _).
  exists f'. auto.
Qed.
Lemma holds_stable p bs : stable (holds p bs).
Proof.
  intros fs fs' (f & Hf & Hd & Hp) Hg.
  destruct (grows_file _ _ _ _ Hg Hf) as (f' & ? & ? & H & _). exists f'. split_and!; [done| |auto].
  congruence.
Qed.
Lemma stable_and P Q : stable P → stable Q → stable (λ fs, P fs ∧ Q fs).
Proof. intros HP HQ fs fs' [? ?] Hg. split; [by eapply HP|by eapply HQ]. Qed.
Lemma stable_pure (P : Prop) : stable (λ _, P).
Proof. by intros ? ? ?. Qed.

Lemma holds_unique p bs bs' fs : holds p bs fs → holds p bs' fs → bs = bs'.
Proof. intros (f & Hf & <- & _) (f' & Hf' & <- & _). congruence. Qed.

(** ** The specifications of the calls the program makes *)

Section calls.
Context (P : Fs → Prop) (HP : stable P).

Lemma symlink_metadata_triple p :
  triple P (symlink_metadata p) (λ n fs, fs.(names) !! p = Some n ∧ P fs).
Proof.
  eapply triple_conseq; [apply (triple_observe P (λ m, ok_or (m !! p) (Io NotFound)) HP)|done|].
  intros n fs [H ?]. split; [by apply ok_or_ok in H|done].
Qed.

Lemma resolve_file fuel m p f : m !! p = Some (FileN f) → resolve fuel m p = Some p.
Proof. intros H. by destruct fuel; cbn; rewrite H. Qed.

Lemma fs_read_triple p :
  triple (λ fs, P fs ∧ private_at p fs) (fs_read p) (λ bs fs, holds p bs fs ∧ P fs).
Proof.
  unfold fs_read. eapply triple_conseq;
    [apply (triple_observe (λ fs, P fs ∧ private_at p fs) (λ m,
       q ← ok_or (resolve 40 m p) (Io OtherKind); n ← ok_or (m !! q) (Io NotFound);
       match n with FileN f => Ok (data f) | _ => Err (Io OtherKind) end)),
     stable_and, private_at_stable; done|done|].
  intros bs fs (H & Hp & f & Hf & Hpriv). split; [|done]. exists f. split_and!; [done| |done].
  rewrite (resolve_file _ _ _ _ Hf) in H. cbn in H. rewrite Hf in H. cbn in H. congruence.
Qed.

Lemma set_permissions_triple p :
  triple (λ fs, P fs ∧ file_at p fs) (set_permissions p) (λ _ fs, P fs ∧ private_at p fs).
Proof.
  unfold set_permissions. eapply triple_bind;
    [apply triple_tick, stable_and, file_at_stable; done|].
  intros _ fs r fs' Hfr [Hp [f Hf]] Hrun. unfold get, lift, put, mbind, M_bind in Hrun.
  rewrite (resolve_file _ _ _ _ Hf) in Hrun. cbn in Hrun. rewrite Hf in Hrun. cbn in Hrun.
  simplify_eq.
  assert (Hg : grows (names fs) (<[p:=make_private (FileN f)]> (names fs)))
    by (by eapply grows_update).
  split_and!; [done..|]. intros _ _. split; [by eapply HP|].
  eexists. cbn. by rewrite lookup_insert_eq.
Qed.

Lemma create_dirs_grow m ps :
  forallb (λ q, bool_decide (m !! q ∈ [None; Some DirN])) ps = true →
  let m' := foldr (λ q m, <[q := DirN]> m) m ps in
  grows m m' ∧ ∀ q, m' !! q = m !! q ∨ m' !! q = Some DirN.
Proof.
  induction ps as [|q ps IH]; cbn; [by split; [reflexivity|auto]|]. rewrite andb_true_iff. intros [Hq E].
  apply bool_decide_eq_true_1 in Hq. destruct (IH E) as [Hg Hl]. split.
  - etrans; [exact Hg|]. apply grows_insert_dir. destruct (Hl q) as [->| ->]; [|by right].
    rewrite !elem_of_cons in Hq. destruct Hq as [?|[?|Hq]]; [by left|by right|].
    by apply elem_of_nil in Hq.
  - intros q'. destruct (decide (q' = q)) as [->|]; [right; apply lookup_insert_eq|].
    by rewrite lookup_insert_ne by done.
Qed.

Lemma create_dir_all_triple p : triple P (create_dir_all p) (λ _, P).
Proof.
  unfold create_dir_all. eapply triple_bind; [by apply triple_tick|].
  intros _ fs r fs' Hfr Hp Hrun. unfold get, ensure, put, mbind, M_bind in Hrun.
  destruct (forallb _ _) eqn:E; cbn in Hrun; simplify_eq; [|by split_and!].
  pose proof (create_dirs_grow (names fs) (prefixes p) E) as [Hg _].
  split_and!; [done..|]. intros _ _. by eapply HP.
Qed.

Lemma getrandom_triple : triple P getrandom (λ _, P).
Proof.
  intros fs r fs' Hfr Hp Hrun. unfold getrandom, get, put, fail, mbind, M_bind, mret, M_ret in Hrun.
  destruct (entropy fs) as [|t ts]; simplify_eq; [by split_and!|].
  split_and!; [done|done|]. intros _ _. by eapply HP.
Qed.

Lemma temp_triple {A} (a : A) : triple P (tick;; mret a) (λ b fs, b = a ∧ P fs).
Proof. eapply triple_bind; [by apply triple_tick|]. intros ?. apply triple_ret. Qed.

(** The calls that change neither the entries nor a temporary we look at. *)
Lemma sync_directory_triple dir :
  triple P (sync_directory dir)
    (λ _ fs, P fs ∧ ∀ p, parent p = dir → fs.(durable) !! p = fs.(names) !! p).
Proof.
  unfold sync_directory. eapply triple_bind; [by apply triple_tick|]. intros ?.
  eapply triple_bind; [by apply triple_tick|].
  intros ? fs r fs' Hfr Hp Hrun. unfold get, put, mbind, M_bind in Hrun. simplify_eq.
  split_and!; [done..|]. intros _ _. split; [by eapply HP|].
  intros p Hdir. cbn. destruct (names fs !! p) as [n|] eqn:E.
  - apply lookup_union_Some_l. by apply map_lookup_filter_Some.
  - apply lookup_union_None. split; apply map_lookup_filter_None; [by left|].
    right. intros n _ []. done.
Qed.

Context `{TempfileLaws}.

Lemma new_in_triple dir : triple P (new_in dir) (λ t fs, t.(data) = [] ∧ P fs).
Proof.
  intros fs r fs' Hfr Hp Hrun. destruct (new_in_law dir fs) as (fs1 & He & H1 & H2).
  rewrite Hrun in H1, H2. cbn in H1, H2. subst.
  destruct (env_steps_grows _ _ Hfr He) as [Hfr1 Hg]. split_and!; [done..|].
  intros t ->. split; [by apply H2|]. by eapply HP.
Qed.

Lemma persist_noclobber_triple t p : complete t →
  triple P (attempt (persist_noclobber t p)) (λ r fs, P fs ∧
    match r with
    | Ok _ => holds p t.(data) fs
    | Err e => e = Io AlreadyExists → present p fs
    end).
Proof.
  intros Ht fs r fs' Hfr Hp Hrun. unfold attempt in Hrun. simplify_eq.
  destruct (persist_noclobber_law t p fs) as (fs1 & He & Hout).
  destruct (env_steps_grows _ _ Hfr He) as [Hfr1 Hg]. destruct (persist_noclobber t p fs) as [[u|e] fs2];
    cbn in *; destruct Hout as [H1 H2]; subst.
  - pose proof (grows_insert_fresh _ _ _ H1 Ht) as Hg2.
    split_and!; [done|by etrans|]. intros ? [= <-]. split.
    + eapply HP; [exact Hp|]. cbn. by etrans.
    + exists t. cbn. rewrite lookup_insert_eq. by destruct Ht as (_ & ? & _).
  - split_and!; [done..|]. intros ? [= <-]. split; [by eapply HP|exact H2].
Qed.
End calls.

(** ** A concrete instance *)

(** Temporary files as a POSIX file system provides them. *)
Definition os_call : M Fs unit :=
  outcome ← attempt tick;
  match outcome with Ok _ => mret tt | Err _ => fail (Io OtherKind) end.

Definition posix_tempfile : Tempfile := {|
  new_in dir :=
    os_call;; fs ← get;
    ensure (bool_decide (dir = [] ∨ fs.(names) !! dir = Some DirN)) (Io NotFound);;
    mret {| data := []; private := true; synced := false |};
  persist t p :=
    os_call;; fs ← get; put (set_names (<[p := FileN t]> fs.(names)) fs);
  persist_noclobber t p :=
    os_call;; fs ← get;
    ensure (bool_decide (fs.(names) !! p = None)) (Io AlreadyExists);;
    put (set_names (<[p := FileN t]> fs.(names)) fs);
|}.

Lemma os_call_steps fs : ∃ fs1, env_steps fs fs1 ∧
  (os_call fs = (Ok tt, fs1) ∨ os_call fs = (Err (Io OtherKind), fs1)).
Proof.
  unfold os_call, tick, attempt, mbind, M_bind. cbn. destruct (schedule fs) as [|t ts] eqn:E.
  - exists fs. split; [|by left]. exists [], []. split; [done|]. destruct fs; cbn in *. by subst.
  - eexists. split; [by exists [t], ts|]. cbn. destruct (fault t); [by right|by left].
Qed.

Lemma posix_laws : @TempfileLaws posix_tempfile.
Proof.
  split.
  - intros dir fs. destruct (os_call_steps fs) as (fs1 & He & [Ho|Ho]); exists fs1; cbn;
      unfold mbind, M_bind; rewrite Ho; cbn; [|done].
    unfold ensure. case_bool_decide; cbn; split_and!; try done. by intros t [= <-].
  - intros t p fs. destruct (os_call_steps fs) as (fs1 & He & [Ho|Ho]); exists fs1; cbn;
      unfold mbind, M_bind; by rewrite Ho.
  - intros t p fs. destruct (os_call_steps fs) as (fs1 & He & [Ho|Ho]); exists fs1; cbn;
      unfold mbind, M_bind; rewrite Ho; cbn; [|done].
    unfold ensure. case_bool_decide as Hp; cbn; split_and!; try done.
    intros _. by destruct (names fs1 !! p).
Qed.
