(* ===== verification/Identity.v ===== *)
(** The host's identity and recovery files (crates/core/src/identity.rs). *)

From Stdlib Require Import Strings.Byte.
From S2P Require Import Prelude Bytes Fs.

(** ** Places *)

(** The environment variables [HOME] and [USERPROFILE]. *)
Record Env := { HOME : option Path; USERPROFILE : option Path }.

Definition identity_path (env : Env) : Path :=
  default [] (match env.(HOME) with Some p => Some p | None => env.(USERPROFILE) end)
  ++ [".config"; "gamenet"; "identity.bin"]%string.

Definition recovery_path (env : Env) : Path := with_file_name (identity_path env) "recovery.bin".

Definition pending_path (p : Path) : result Path :=
  name ← ok_or (file_name p) (Msg "Identity path has no file name");
  Ok (with_file_name p (name ++ ".pending")%string).

(** ** Recovery codes *)

Definition format_recovery_code (secret : TunnelToken) : str := hex_of (bytes_list secret).

Definition recovery_fingerprint `{Digest} (secret : TunnelToken) : bytes 32 :=
  sha256 (bytes_list secret).

Definition parse_recovery_code (code : str) : result TunnelToken :=
  let code := trim code in
  check ((str_len code =? 64)%nat && is_ascii code) (Msg "Recovery code must be 64 hex characters");;
  match parse_hex_bytes 32 code with
  | Ok secret => Ok secret
  | Err _ => Err (Msg "Recovery code contains a non-hex character")
  end.

(** ** Reading and creating *)

Definition read_existing (p : Path) : M Fs TunnelToken :=
  node ← symlink_metadata p;
  ensure (is_file node) (Msg "Identity path is not a regular file");;
  set_permissions p;;
  bs ← fs_read p;
  lift (ok_or (to_array 32 bs) (Msg "Identity file corrupt: expected 32 bytes at {:?}")).

(** [match fs::symlink_metadata(path)] with a [NotFound] arm. *)
Definition entry_exists (p : Path) : M Fs bool :=
  outcome ← attempt (symlink_metadata p);
  match outcome with
  | Ok _ => mret true
  | Err (Io NotFound) => mret false
  | Err e => fail e
  end.

Section identity.
Context `{Tempfile}.

Definition create_new_private (p : Path) (token : TunnelToken) : M Fs bool :=
  create_dir_all (parent p);;
  temporary ← new_in (parent p);
  temporary ← temp_set_owner_only temporary;
  temporary ← temp_write_all (bytes_list token) temporary;
  temporary ← temp_sync_all temporary;
  outcome ← attempt (persist_noclobber temporary p);
  match outcome with
  | Ok _ => sync_directory (parent p);; mret true
  | Err (Io AlreadyExists) => mret false
  | Err e => fail e
  end.

Definition load_or_create_at (p : Path) : M Fs TunnelToken :=
  present ← entry_exists p;
  if present : bool then read_existing p else
  token ← getrandom;
  created ← create_new_private p token;
  if created : bool then mret token else read_existing p.

Definition load_or_create_recovery_at (p : Path) : M Fs TunnelToken := load_or_create_at p.
Definition read_recovery_at (p : Path) : M Fs TunnelToken := read_existing p.

Definition store_recovery_at (p : Path) (secret : TunnelToken) : M Fs unit :=
  created ← create_new_private p secret;
  if created : bool then mret tt else
  current ← read_existing p;
  if bool_decide (current = secret) then mret tt else
  temporary ← new_in (parent p);
  temporary ← temp_set_owner_only temporary;
  temporary ← temp_write_all (bytes_list secret) temporary;
  temporary ← temp_sync_all temporary;
  persist temporary p;;
  sync_directory (parent p).

(** ** Recovery *)

Record PendingRecovery := {
  rec_path : Path;
  rec_pending_path : Path;
  rec_old_token : option TunnelToken;
  rec_new_token : TunnelToken;
}.

(** The identity at a path, if there is one. *)
Definition current_identity (p : Path) : M Fs (option TunnelToken) :=
  present ← entry_exists p;
  if present : bool then token ← read_existing p; mret (Some token) else mret None.

Definition prepare_recovery_at (p : Path) : M Fs PendingRecovery :=
  old_token ← current_identity p;
  pending ← lift (pending_path p);
  new_token ← load_or_create_at pending;
  ensure (bool_decide (Some new_token ≠ old_token)) (Msg "Pending identity equals current identity");;
  mret {| rec_path := p; rec_pending_path := pending;
          rec_old_token := old_token; rec_new_token := new_token |}.

Definition PendingRecovery_finish (self : PendingRecovery) : M Fs unit :=
  current ← current_identity self.(rec_path);
  ensure (bool_decide (current = self.(rec_old_token))) (Msg "Identity changed during recovery");;
  pending ← read_existing self.(rec_pending_path);
  ensure (bool_decide (pending = self.(rec_new_token)))
         (Msg "Pending identity changed during recovery");;
  rename self.(rec_pending_path) self.(rec_path);;
  sync_directory (parent self.(rec_path)).

(** ** Routine rotation *)

Record PendingRotation := {
  rot_path : Path;
  rot_pending_path : Path;
  rot_old_token : TunnelToken;
  rot_new_token : TunnelToken;
}.

Definition prepare_rotation_at (p : Path) : M Fs PendingRotation :=
  old_token ← read_existing p;
  pending ← lift (pending_path p);
  present ← entry_exists pending;
  new_token ← (if present : bool then read_existing pending else
               candidate ← getrandom;
               created ← create_new_private pending candidate;
               if created : bool then mret candidate else read_existing pending);
  ensure (bool_decide (old_token ≠ new_token)) (Msg "Pending identity equals current identity");;
  mret {| rot_path := p; rot_pending_path := pending;
          rot_old_token := old_token; rot_new_token := new_token |}.

Definition PendingRotation_finish (self : PendingRotation) : M Fs unit :=
  current ← read_existing self.(rot_path);
  ensure (bool_decide (current = self.(rot_old_token))) (Msg "Identity changed during rotation");;
  pending ← read_existing self.(rot_pending_path);
  ensure (bool_decide (pending = self.(rot_new_token)))
         (Msg "Pending identity changed during rotation");;
  rename self.(rot_pending_path) self.(rot_path);;
  sync_directory (parent self.(rot_path)).

(** ** The entry points, at the places of the environment *)

Definition load_or_create (env : Env) : M Fs TunnelToken := load_or_create_at (identity_path env).
Definition load_or_create_recovery (env : Env) : M Fs TunnelToken :=
  load_or_create_recovery_at (recovery_path env).
Definition read_recovery (env : Env) : M Fs TunnelToken := read_recovery_at (recovery_path env).
Definition store_recovery (env : Env) (secret : TunnelToken) : M Fs unit :=
  store_recovery_at (recovery_path env) secret.
Definition prepare_recovery (env : Env) : M Fs PendingRecovery :=
  prepare_recovery_at (identity_path env).
Definition prepare_rotation (env : Env) : M Fs PendingRotation :=
  prepare_rotation_at (identity_path env).
End identity.
