(* ===== verification/IdentityFacts.v ===== *)
(** Specifications of the operations on identity files, in the logic of
    [FsLogic]: under faults and concurrent first use. *)

From Stdlib Require Import Strings.Byte.
From S2P Require Import Prelude Bytes Fs FsLogic Identity.

Lemma triple_pure {A} (φ : Prop) P (m : M Fs A) Q :
  (φ → triple P m Q) → triple (λ fs, φ ∧ P fs) m Q.
Proof. intros H fs r fs' Hfr [Hφ HP]. by apply H. Qed.

Lemma triple_pre {A} P P' (m : M Fs A) Q :
  triple P' m Q → (∀ fs, P fs → P' fs) → triple P m Q.
Proof. intros Hm HP. by eapply triple_conseq. Qed.

Lemma triple_post {A} P (m : M Fs A) Q Q' :
  triple P m Q' → (∀ a fs, Q' a fs → Q a fs) → triple P m Q.
Proof. intros Hm HQ. by eapply triple_conseq. Qed.

(** Steps over the first statement of a block with a given triple. *)
Ltac tstep tac := eapply triple_bind; [tac|intros ?; cbn beta].

Section facts.
Context `{TempfileLaws} (P : Fs → Prop) (HP : stable P).

Lemma read_existing_triple p :
  triple P (read_existing p) (λ t fs, holds p (bytes_list t) fs ∧ P fs).
Proof.
  unfold read_existing. tstep ltac:(by apply symlink_metadata_triple).
  tstep ltac:(apply triple_ensure). apply triple_pure. intros Hfile.
  eapply triple_bind.
  { eapply triple_pre; [by apply (set_permissions_triple P HP p)|].
    intros fs [Hn Hp]. split; [done|]. destruct a as [f| |]; try done. by exists f. }
  intros ?. tstep ltac:(by apply fs_read_triple).
  eapply triple_post; [apply triple_lift|]. intros t fs [Ht [Hh Hp]].
  apply ok_or_ok, to_array_Some in Ht as ->. done.
Qed.

Lemma entry_exists_triple p :
  triple P (entry_exists p) (λ b fs, (b = true → present p fs) ∧ P fs).
Proof.
  unfold entry_exists. eapply triple_bind.
  { apply (triple_attempt P _ (λ _ fs, present p fs ∧ P fs) (λ _ fs, P fs)).
    intros fs r fs' Hfr Hp Hrun.
    pose proof Hrun as Hrun'. apply symlink_metadata_triple with (P := P) in Hrun as (? & Hg & HQ);
      [|done..]. split_and!; [done..|]. destruct r as [n|e].
    - destruct (HQ n eq_refl) as [Hn ?]. split; [by exists n|done].
    - by eapply HP. }
  intros [n|[| |[]|]]; cbn beta; try apply triple_fail.
  - eapply triple_post; [apply triple_ret|]. by intros b fs (-> & ? & ?).
  - eapply triple_post; [apply triple_ret|]. by intros b fs (-> & ?).
Qed.

Lemma create_new_private_triple p token :
  triple P (create_new_private p token) (λ b fs,
    P fs ∧ if b : bool then holds p (bytes_list token) fs ∧ durable fs !! p = names fs !! p
           else present p fs).
Proof.
  unfold create_new_private. tstep ltac:(by apply create_dir_all_triple).
  tstep ltac:(by apply new_in_triple). apply triple_pure. intros Hd.
  tstep ltac:(by apply temp_triple). apply triple_pure. intros ->.
  tstep ltac:(by apply temp_triple). apply triple_pure. intros ->.
  tstep ltac:(by apply temp_triple). apply triple_pure. intros ->. cbn. rewrite Hd. cbn.
  set (t := {| data := _ |}).
  assert (Ht : complete t) by (split_and!; [apply bytes_len|done..]).
  tstep ltac:(by apply persist_noclobber_triple).
  destruct a1 as [u|[| |[]|]]; try apply triple_fail.
  - eapply triple_bind.
    { apply (sync_directory_triple (λ fs, P fs ∧ holds p (data t) fs)).
      apply stable_and; [done|apply holds_stable]. }
    intros ?. cbn beta. eapply triple_post; [apply triple_ret|].
    intros b fs (-> & (? & ?) & Hs). split_and!; [done|done|by apply Hs].
  - eapply triple_post; [apply triple_ret|]. intros b fs (-> & ? & Hpr). auto.
Qed.

Lemma load_or_create_triple p :
  triple P (load_or_create_at p) (λ t fs, holds p (bytes_list t) fs ∧ P fs).
Proof.
  unfold load_or_create_at. tstep ltac:(by apply entry_exists_triple). apply triple_if.
  { eapply triple_pre; [by apply read_existing_triple|by intros fs [[_ ?] _]]. }
  eapply triple_bind.
  { eapply triple_pre; [by apply getrandom_triple|by intros fs [[_ ?] _]]. }
  intros ?. cbn beta. tstep ltac:(by apply create_new_private_triple). apply triple_if.
  - eapply triple_post; [apply triple_ret|]. intros t fs (-> & [? Hh] & ->). by destruct Hh.
  - eapply triple_pre; [by apply read_existing_triple|by intros fs [[? _] _]].
Qed.

Lemma current_identity_triple p :
  triple P (current_identity p) (λ o fs,
    P fs ∧ from_option (λ t, holds p (bytes_list t) fs) True o).
Proof.
  unfold current_identity. tstep ltac:(by apply entry_exists_triple). apply triple_if.
  - eapply triple_bind.
    { eapply triple_pre; [by apply read_existing_triple|by intros fs [[_ ?] _]]. }
    intros ?. cbn beta. eapply triple_post; [apply triple_ret|].
    by intros o fs (-> & ? & ?).
  - eapply triple_post; [apply triple_ret|]. by intros o fs (-> & (_ & ?) & _).
Qed.
End facts.

Section preparing.
Context `{TempfileLaws} (P : Fs → Prop) (HP : stable P).

Lemma prepare_rotation_triple p :
  triple P (prepare_rotation_at p) (λ pr fs,
    (pr.(rot_path) = p ∧ pending_path p = Ok pr.(rot_pending_path) ∧
     pr.(rot_old_token) ≠ pr.(rot_new_token)) ∧
    (holds p (bytes_list pr.(rot_old_token)) fs ∧
     holds pr.(rot_pending_path) (bytes_list pr.(rot_new_token)) fs) ∧ P fs).
Proof.
  unfold prepare_rotation_at. tstep ltac:(by apply read_existing_triple).
  tstep ltac:(apply triple_lift). apply triple_pure. intros Hp. rename a into old, a0 into q.
  assert (HP1 : stable (λ fs, holds p (bytes_list old) fs ∧ P fs))
    by (apply stable_and; [apply holds_stable|done]).
  remember (λ fs, holds p (bytes_list old) fs ∧ P fs) as P1 eqn:EP.
  eapply triple_bind; [by apply entry_exists_triple|]. intros there. cbn beta.
  eapply triple_bind.
  { instantiate (1 := λ new fs, holds q (bytes_list new) fs ∧ P1 fs). apply triple_if.
    - eapply triple_pre; [by apply read_existing_triple|by intros fs [[_ ?] _]].
    - eapply triple_bind;
        [eapply triple_pre; [by apply getrandom_triple|by intros fs [[_ ?] _]]|].
      intros c. cbn beta. eapply triple_bind; [by apply create_new_private_triple|].
      intros created. apply triple_if.
      + eapply triple_post; [apply triple_ret|]. intros t fs (-> & [? Hh] & ->). by destruct Hh.
      + eapply triple_pre; [by apply read_existing_triple|by intros fs [[? _] _]]. }
  intros new. cbn beta. tstep ltac:(apply triple_ensure). apply triple_pure. intros Hne.
  apply bool_decide_eq_true_1 in Hne. eapply triple_post; [apply triple_ret|]. rewrite EP.
  intros pr fs (-> & Hq & Hold & ?). cbn. by split_and!.
Qed.

Lemma prepare_recovery_triple p :
  triple P (prepare_recovery_at p) (λ pr fs,
    (pr.(rec_path) = p ∧ pending_path p = Ok pr.(rec_pending_path) ∧
     Some pr.(rec_new_token) ≠ pr.(rec_old_token)) ∧
    (from_option (λ t, holds p (bytes_list t) fs) True pr.(rec_old_token) ∧
     holds pr.(rec_pending_path) (bytes_list pr.(rec_new_token)) fs) ∧ P fs).
Proof.
  unfold prepare_recovery_at. tstep ltac:(by apply current_identity_triple).
  tstep ltac:(apply triple_lift). apply triple_pure. intros Hp. rename a into old, a0 into q.
  assert (HP1 : stable (λ fs, P fs ∧ from_option (λ t, holds p (bytes_list t) fs) True old)).
  { apply stable_and; [done|]. destruct old; [exact (holds_stable p _)|exact (stable_pure True)]. }
  remember (λ fs, P fs ∧ from_option (λ t, holds p (bytes_list t) fs) True old) as P1 eqn:EP.
  eapply triple_bind; [by apply load_or_create_triple|]. intros new. cbn beta.
  tstep ltac:(apply triple_ensure). apply triple_pure. intros Hne.
  apply bool_decide_eq_true_1 in Hne. eapply triple_post; [apply triple_ret|]. rewrite EP.
  intros pr fs (-> & Hq & ? & Hold). cbn. by split_and!.
Qed.
End preparing.

(** ** Replacing the identity *)

(** The last steps of both [finish] methods: the file at [q] becomes the one at
    [p].  Whatever fails, the entry at [p] is the old one or the new one. *)
Lemma install_spec `{TempfileLaws} p q new e fs r fs' :
  friendly fs →
  (pending ← read_existing q; ensure (bool_decide (pending = new)) e;;
   rename q p;; sync_directory (parent p)) fs = (r, fs') →
  friendly fs' ∧
  match r with
  | Ok _ => holds p (bytes_list new) fs' ∧ fs'.(durable) !! p = fs'.(names) !! p
  | Err _ => grows fs.(names) fs'.(names) ∨ holds p (bytes_list new) fs'
  end.
Proof.
  intros Hfr. unfold mbind, M_bind at 1.
  destruct (read_existing q fs) as [[t|e1] fs1] eqn:Hread;
    eapply (read_existing_triple anything stable_anything) in Hread as (Hfr1 & Hg1 & Hh); try done.
  2:{ intros [= <- <-]. by auto. }
  unfold ensure. case_bool_decide as Ht; cbn; [subst t|intros [= <- <-]; by auto].
  destruct (Hh new eq_refl) as [Hq _]. unfold rename. unfold mbind, M_bind.
  destruct (tick fs1) as [[u|e2] fs2] eqn:Htick;
    eapply (triple_tick (holds q (bytes_list new))) in Htick as (Hfr2 & Hg2 & Hq2);
    try done; try apply holds_stable.
  2:{ intros [= <- <-]. split; [done|]. left. by etrans. }
  destruct (Hq2 u eq_refl) as (f & Hf & Hd & Hpriv). cbn. unfold lift. rewrite Hf. cbn.
  case_bool_decide; cbn; [intros [= <- <-]; split; [done|]; left; by etrans|].
  set (fs3 := set_names _ fs2). intros Hsync.
  assert (Hp3 : holds p (bytes_list new) fs3).
  { exists f. unfold fs3. cbn. by rewrite lookup_insert_eq. }
  eapply (sync_directory_triple (holds p (bytes_list new))) in Hsync as (Hfr4 & Hg4 & Hq4);
    try done; try apply holds_stable.
  split; [done|]. destruct r as [[]|e3]; [destruct (Hq4 tt eq_refl); auto|].
  right. by eapply holds_stable.
Qed.

(** What a [finish] leaves behind: it succeeds only over the identity it was
    prepared with. *)
Definition installed (p : Path) (old_ok : TunnelToken → Prop) (new : TunnelToken)
    (fs : Fs) (r : result unit) (fs' : Fs) : Prop :=
  match r with
  | Ok _ => holds p (bytes_list new) fs' ∧ fs'.(durable) !! p = fs'.(names) !! p ∧
            (∀ t : TunnelToken, holds p (bytes_list t) fs → old_ok t)
  | Err _ => grows fs.(names) fs'.(names) ∨ holds p (bytes_list new) fs'
  end.

Lemma holds_token p (t t' : TunnelToken) fs : holds p (bytes_list t) fs → holds p (bytes_list t') fs → t = t'.
Proof. intros H1 H2. eapply bytes_eq, holds_unique; [exact H1|exact H2]. Qed.

Lemma rotation_finish_spec `{TempfileLaws} self fs r fs' : friendly fs →
  PendingRotation_finish self fs = (r, fs') →
  friendly fs' ∧ installed self.(rot_path) (λ t, t = self.(rot_old_token)) self.(rot_new_token) fs r fs'.
Proof.
  intros Hfr. unfold PendingRotation_finish, mbind, M_bind at 1.
  destruct (read_existing _ fs) as [[t|e1] fs1] eqn:Hread;
    eapply (read_existing_triple anything stable_anything) in Hread as (Hfr1 & Hg1 & Hh); try done.
  2:{ intros [= <- <-]. cbn. by auto. }
  unfold ensure at 1. case_bool_decide as Ht; [|intros [= <- <-]; cbn; by auto].
  intros Hrun. apply install_spec in Hrun as [Hfr' Hout]; [|done]. split; [done|].
  destruct (Hh t eq_refl) as [Hold _]. subst t.
  destruct r; cbn; [|destruct Hout; [left; by etrans|by right]].
  destruct Hout as [Hnew Hdur]. split_and!; [done..|]. intros t' Ht'.
  eapply holds_token; [|exact Hold]. by eapply holds_stable.
Qed.

Lemma recovery_finish_spec `{TempfileLaws} self fs r fs' : friendly fs →
  PendingRecovery_finish self fs = (r, fs') →
  friendly fs' ∧
  installed self.(rec_path) (λ t, self.(rec_old_token) = Some t ∨ self.(rec_old_token) = None)
    self.(rec_new_token) fs r fs'.
Proof.
  intros Hfr. unfold PendingRecovery_finish, mbind, M_bind at 1.
  destruct (current_identity _ fs) as [[o|e1] fs1] eqn:Hread;
    eapply (current_identity_triple anything stable_anything) in Hread as (Hfr1 & Hg1 & Hh); try done.
  2:{ intros [= <- <-]. cbn. by auto. }
  unfold ensure at 1. case_bool_decide as Ht; [|intros [= <- <-]; cbn; by auto].
  intros Hrun. apply install_spec in Hrun as [Hfr' Hout]; [|done]. split; [done|].
  destruct (Hh o eq_refl) as [_ Hold]. subst o.
  destruct r; cbn; [|destruct Hout; [left; by etrans|by right]].
  destruct Hout as [Hnew Hdur]. split_and!; [done..|]. intros t' Ht'.
  destruct (rec_old_token self) as [o|]; [|by right]. left. f_equal. cbn in Hold.
  eapply holds_token; [exact Hold|]. by eapply holds_stable.
Qed.

(** A third file is left alone by [finish]. *)
Lemma install_frame `{TempfileLaws} p q x new e fs r fs' bs : friendly fs → x ≠ p → x ≠ q →
  holds x bs fs →
  (pending ← read_existing q; ensure (bool_decide (pending = new)) e;;
   rename q p;; sync_directory (parent p)) fs = (r, fs') → holds x bs fs'.
Proof.
  intros Hfr Hxp Hxq Hx. unfold mbind, M_bind at 1.
  destruct (read_existing q fs) as [[t|e1] fs1] eqn:Hread;
    eapply (read_existing_triple anything stable_anything) in Hread as (Hfr1 & Hg1 & _); try done;
    assert (Hx1 : holds x bs fs1) by (by eapply holds_stable); [|by intros [= <- <-]].
  unfold ensure. case_bool_decide as Ht; cbn; [subst t|by intros [= <- <-]].
  unfold rename. unfold mbind, M_bind. destruct (tick fs1) as [[u|e2] fs2] eqn:Htick;
    eapply (triple_tick anything stable_anything) in Htick as (Hfr2 & Hg2 & _); try done;
    assert (Hx2 : holds x bs fs2) by (by eapply holds_stable); [|by intros [= <- <-]].
  cbn. unfold lift. destruct (names fs2 !! q) as [n|] eqn:Hq; cbn; [|by intros [= <- <-]].
  case_bool_decide; cbn; [by intros [= <- <-]|]. set (fs3 := set_names _ fs2). intros Hsync.
  assert (Hx3 : holds x bs fs3).
  { destruct Hx2 as (f & Hf & Hd). exists f. unfold fs3. cbn.
    by rewrite lookup_insert_ne, lookup_delete_ne. }
  eapply (sync_directory_triple anything stable_anything) in Hsync as (_ & Hg4 & _); try done.
  by eapply holds_stable.
Qed.

Lemma rotation_finish_frame `{TempfileLaws} self x fs r fs' bs : friendly fs →
  x ≠ self.(rot_path) → x ≠ self.(rot_pending_path) → holds x bs fs →
  PendingRotation_finish self fs = (r, fs') → holds x bs fs'.
Proof.
  intros Hfr Hxp Hxq Hx. unfold PendingRotation_finish, mbind, M_bind at 1.
  destruct (read_existing _ fs) as [[t|e1] fs1] eqn:Hread;
    eapply (read_existing_triple anything stable_anything) in Hread as (Hfr1 & Hg1 & _); try done;
    assert (Hx1 : holds x bs fs1) by (by eapply holds_stable); [|by intros [= <- <-]].
  unfold ensure at 1. case_bool_decide as Ht; [|by intros [= <- <-]].
  by apply install_frame.
Qed.

Lemma recovery_finish_frame `{TempfileLaws} self x fs r fs' bs : friendly fs →
  x ≠ self.(rec_path) → x ≠ self.(rec_pending_path) → holds x bs fs →
  PendingRecovery_finish self fs = (r, fs') → holds x bs fs'.
Proof.
  intros Hfr Hxp Hxq Hx. unfold PendingRecovery_finish, mbind, M_bind at 1.
  destruct (current_identity _ fs) as [[o|e1] fs1] eqn:Hread;
    eapply (current_identity_triple anything stable_anything) in Hread as (Hfr1 & Hg1 & _); try done;
    assert (Hx1 : holds x bs fs1) by (by eapply holds_stable); [|by intros [= <- <-]].
  unfold ensure at 1. case_bool_decide as Ht; [|by intros [= <- <-]].
  by apply install_frame.
Qed.

(** Overwriting the recovery file. *)
Lemma replace_spec `{TempfileLaws} p secret fs r fs' : friendly fs →
  (temporary ← new_in (parent p);
   temporary ← temp_set_owner_only temporary;
   temporary ← temp_write_all (bytes_list secret) temporary;
   temporary ← temp_sync_all temporary;
   persist temporary p;;
   sync_directory (parent p)) fs = (r, fs') →
  friendly fs' ∧
  match r with
  | Ok _ => holds p (bytes_list (n := 32) secret) fs'
  | Err _ => grows fs.(names) fs'.(names) ∨ holds p (bytes_list secret) fs'
  end.
Proof.
  intros Hfr.
  assert (Htemp : triple anything
    (temporary ← new_in (parent p);
     temporary ← temp_set_owner_only temporary;
     temporary ← temp_write_all (bytes_list secret) temporary;
     temp_sync_all temporary)
    (λ t _, t.(data) = bytes_list secret ∧ t.(private) = true)).
  { tstep ltac:(by apply new_in_triple). apply triple_pure. intros Hd.
    tstep ltac:(by apply temp_triple). apply triple_pure. intros ->.
    tstep ltac:(by apply temp_triple). apply triple_pure. intros ->. cbn. rewrite Hd.
    eapply triple_post; [by apply temp_triple|]. by intros t fs0 [-> _]. }
  intros Hrun. unfold mbind, M_bind in Hrun, Htemp.
  specialize (Htemp fs). cbn beta in Htemp.
  destruct (new_in (parent p) fs) as [[t1|e] fs1].
  2:{ destruct (Htemp _ _ Hfr I eq_refl) as (? & ? & _). simplify_eq. auto. }
  destruct (temp_set_owner_only t1 fs1) as [[t2|e] fs2].
  2:{ destruct (Htemp _ _ Hfr I eq_refl) as (? & ? & _). simplify_eq. auto. }
  destruct (temp_write_all (bytes_list secret) t2 fs2) as [[t3|e] fs3].
  2:{ destruct (Htemp _ _ Hfr I eq_refl) as (? & ? & _). simplify_eq. auto. }
  destruct (temp_sync_all t3 fs3) as [[t4|e] fs4];
    destruct (Htemp _ _ Hfr I eq_refl) as (Hfr4 & Hg4 & Ht); simplify_eq; [|by auto].
  destruct (Ht t4 eq_refl) as [Hd Hpriv]. destruct (persist_law t4 p fs4) as (fs5 & He & Hout).
  destruct (env_steps_grows _ _ Hfr4 He) as [Hfr5 Hg5].
  destruct (persist t4 p fs4) as [[u|e] fs6]; cbn in Hout; subst fs6; simplify_eq.
  - eapply (sync_directory_triple (holds p (bytes_list secret))) in Hrun as (Hfr7 & Hg7 & Hq7);
      try apply holds_stable; try done.
    + split; [done|]. destruct r as [[]|e]; [by destruct (Hq7 tt eq_refl)|].
      right. eapply holds_stable; [|exact Hg7]. exists t4. cbn. by rewrite lookup_insert_eq.
    + exists t4. cbn. by rewrite lookup_insert_eq.
  - split; [done|]. left. by etrans.
Qed.

Lemma store_recovery_spec `{TempfileLaws} p secret fs r fs' : friendly fs →
  store_recovery_at p secret fs = (r, fs') →
  friendly fs' ∧
  match r with
  | Ok _ => holds p (bytes_list secret) fs'
  | Err _ => grows fs.(names) fs'.(names) ∨ holds p (bytes_list secret) fs'
  end.
Proof.
  intros Hfr. unfold store_recovery_at. unfold mbind at 1, M_bind at 1.
  destruct (create_new_private p secret fs) as [[[]|e] fs1] eqn:Hc;
    eapply (create_new_private_triple anything stable_anything) in Hc as (Hfr1 & Hg1 & Hh); try done.
  - intros [= <- <-]. destruct (Hh true eq_refl) as [_ [? _]]. auto.
  - unfold mbind at 1, M_bind at 1.
    destruct (read_existing p fs1) as [[t|e] fs2] eqn:Hr;
      eapply (read_existing_triple anything stable_anything) in Hr as (Hfr2 & Hg2 & Ht); try done.
    + case_bool_decide as Heq.
      * intros [= <- <-]. subst t. destruct (Ht secret eq_refl). auto.
      * intros Hrun%replace_spec; [|done]. destruct Hrun as [? Hout]. split; [done|].
        destruct r; [done|]. destruct Hout as [?|?]; [left|by right]. etrans; [exact Hg1|by etrans].
    + intros [= <- <-]. split; [done|]. left. by etrans.
  - intros [= <- <-]. auto.
Qed.

(** Storing the key that is stored already changes nothing. *)
Lemma store_recovery_same `{TempfileLaws} p secret fs r fs' : friendly fs →
  holds p (bytes_list secret) fs → store_recovery_at p secret fs = (r, fs') →
  friendly fs' ∧ grows fs.(names) fs'.(names).
Proof.
  intros Hfr Hp. unfold store_recovery_at. unfold mbind at 1, M_bind at 1.
  destruct (create_new_private p secret fs) as [[[]|e] fs1] eqn:Hc;
    eapply (create_new_private_triple _ (holds_stable p (bytes_list secret))) in Hc as (Hfr1 & Hg1 & Hh); try done.
  - by intros [= <- <-].
  - destruct (Hh false eq_refl) as [Hp1 _]. unfold mbind at 1, M_bind at 1.
    destruct (read_existing p fs1) as [[t|e] fs2] eqn:Hr;
      eapply (read_existing_triple _ (holds_stable p (bytes_list secret))) in Hr as (Hfr2 & Hg2 & Ht); try done;
      [|intros [= <- <-]; split; [done|by etrans]].
    destruct (Ht t eq_refl) as [Ht1 Ht2]. pose proof (holds_token _ _ _ _ Ht1 Ht2) as ->.
    rewrite bool_decide_true by done. intros [= <- <-]. split; [done|by etrans].
  - by intros [= <- <-].
Qed.
