(* ===== verification/Whole.v ===== *)
(** Files are whole: a logic for the file-system code that also covers the calls
    that replace and rename files, among other processes that do the same. *)

From Stdlib Require Import Strings.Byte.
From S2P Require Import Prelude Bytes Fs FsLogic Identity.

(** ** What becomes of the files *)

(** Every file of [m'] is complete, or was one of [m], perhaps under another name. *)
Definition whole_from (m m' : gmap Path Node) : Prop := ∀ p f', m' !! p = Some (FileN f') →
  complete f' ∨ ∃ q f, m !! q = Some (FileN f) ∧ same_entry (FileN f) (FileN f').

(** The same of the entries as processes see them, and of those that a power loss
    leaves. *)
Definition keeps_files (fs fs' : Fs) : Prop :=
  whole_from fs.(names) fs'.(names) ∧
  ∀ p f', fs'.(durable) !! p = Some (FileN f') → complete f' ∨
    ∃ q f, (fs.(names) !! q = Some (FileN f) ∨ fs.(durable) !! q = Some (FileN f)) ∧
      same_entry (FileN f) (FileN f').

(** The processes around keep the files whole too; faults are unrestricted. *)
Definition civil (fs : Fs) : Prop :=
  Forall (λ t, ∀ m, whole_from m (t.(meanwhile) m)) fs.(schedule).

Lemma same_file f : same_entry (FileN f) (FileN f).
Proof. exact (same_entry_refl (FileN f)). Qed.

#[global] Instance whole_from_preorder : PreOrder whole_from.
Proof.
  split; [intros m p f Hp; right; exists p, f; split; [done|apply same_file]|].
  intros m1 m2 m3 H12 H23 p f3 [?|(q & f2 & Hq & H2)]%H23; [by left|].
  destruct (H12 q f2 Hq) as [Hc|(q1 & f1 & Hq1 & H1)]; [left; by eapply complete_same|].
  right. exists q1, f1. split; [done|by eapply same_entry_trans].
Qed.

#[global] Instance keeps_files_preorder : PreOrder keeps_files.
Proof.
  split.
  - intros fs. split; [done|]. intros p f Hp. right. exists p, f. split; [by right|apply same_file].
  - intros fs1 fs2 fs3 [Hn1 Hd1] [Hn2 Hd2]. split; [by etrans|]. intros p f3 [?|(q & f2 & Hq & H2)]%Hd2; [by left|].
    destruct Hq as [Hq|Hq]; [apply Hn1 in Hq as [Hc|(q1 & f1 & Hq1 & H1)]|apply Hd1 in Hq as [Hc|(q1 & f1 & Hq1 & H1)]];
      try (left; by eapply complete_same);
      right; exists q1, f1; (split; [auto|by eapply same_entry_trans]).
Qed.

Lemma keeps_names fs m : whole_from fs.(names) m → keeps_files fs (set_names m fs).
Proof.
  intros Hm. split; [done|]. intros p f Hp. right. exists p, f. split; [by right|apply same_file].
Qed.

Lemma whole_insert m p f : complete f ∨ (∃ q f0, m !! q = Some (FileN f0) ∧ same_entry (FileN f0) (FileN f)) →
  whole_from m (<[p := FileN f]> m).
Proof.
  intros Hf q f' [[_ [= <-]]|[_ Hq]]%lookup_insert_Some; [done|]. right. exists q, f'.
  split; [done|apply same_file].
Qed.

Lemma whole_other m p n : is_file n = false → whole_from m (<[p := n]> m).
Proof.
  intros Hn q f' [[_ ->]|[_ Hq]]%lookup_insert_Some; [done|]. right. exists q, f'.
  split; [done|apply same_file].
Qed.

Lemma whole_delete m p : whole_from m (delete p m).
Proof.
  intros q f [_ Hq]%lookup_delete_Some. right. exists q, f. split; [done|apply same_file].
Qed.

(** A move: the file was there, under its former name. *)
Lemma whole_move m a b n : m !! a = Some n → whole_from m (<[b := n]> (delete a m)).
Proof.
  intros Ha q f [[_ ->]|[_ [_ Hq]%lookup_delete_Some]]%lookup_insert_Some; right;
    eexists _, f; (split; [done|apply same_file]).
Qed.

Lemma whole_dirs m ps : whole_from m (foldr (λ q m, <[q := DirN]> m) m ps).
Proof. induction ps as [|q ps IH]; [done|]. cbn. etrans; [exact IH|by apply whole_other]. Qed.

(** ** The logic *)

(** Every run, successful or not, keeps the files whole; the result of a successful
    one satisfies [φ]. *)
Definition decent {A} (m : M Fs A) (φ : A → Prop) : Prop := ∀ fs r fs', civil fs → m fs = (r, fs') →
  civil fs' ∧ keeps_files fs fs' ∧ ∀ a, r = Ok a → φ a.

Section rules.
Context {A B : Type}.
Implicit Types (m : M Fs A) (φ : A → Prop).

Lemma decent_bind m φ (f : A → M Fs B) ψ :
  decent m φ → (∀ a, φ a → decent (f a) ψ) → decent (m ≫= f) ψ.
Proof.
  intros Hm Hf fs r fs' Hc Hrun. unfold mbind, M_bind in Hrun. destruct (m fs) as [[a|e] fs1] eqn:E.
  - destruct (Hm _ _ _ Hc E) as (Hc1 & Hk1 & Ha).
    destruct (Hf a (Ha a eq_refl) _ _ _ Hc1 Hrun) as (Hc2 & Hk2 & Hb). split_and!; [done|by etrans|done].
  - destruct (Hm _ _ _ Hc E) as (Hc1 & Hk1 & _). simplify_eq. by split_and!.
Qed.

Lemma decent_weaken m φ φ' : decent m φ → (∀ a, φ a → φ' a) → decent m φ'.
Proof. intros Hm Hi fs r fs' Hc Hrun. destruct (Hm _ _ _ Hc Hrun) as (? & ? & ?). split_and!; auto. Qed.

Lemma decent_const m φ : (∀ fs, (m fs).2 = fs) → (∀ fs a, (m fs).1 = Ok a → φ a) → decent m φ.
Proof.
  intros H1 H2 fs r fs' Hc Hrun. specialize (H1 fs). specialize (H2 fs). rewrite Hrun in H1, H2.
  cbn in H1, H2. subst. split_and!; [done|done|]. by intros a ->; apply H2.
Qed.

Lemma decent_ret a φ : φ a → decent (mret a : M Fs A) φ.
Proof. intros Ha. apply decent_const; [done|]. by intros fs b [= <-]. Qed.

Lemma decent_lift (x : result A) : decent (lift x) (λ a, x = Ok a).
Proof. by apply decent_const. Qed.

Lemma decent_fail e φ : decent (fail e) φ.
Proof. by apply decent_const. Qed.

Lemma decent_attempt m φ : decent m φ → decent (attempt m) (λ r, ∀ a, r = Ok a → φ a).
Proof.
  intros Hm fs r fs' Hc Hrun. unfold attempt in Hrun. destruct (m fs) as [r1 fs1] eqn:E.
  injection Hrun as <- <-. destruct (Hm _ _ _ Hc E) as (? & ? & ?). split_and!; [done..|]. by intros ? [= <-].
Qed.
End rules.

Lemma decent_ensure b e : decent (ensure b e : M Fs unit) (λ _, b = true).
Proof. apply decent_const; intros fs; unfold ensure; by destruct b. Qed.

Definition any {A} : A → Prop := λ _, True.

Lemma decent_tick : decent tick any.
Proof.
  intros fs r fs' Hc. unfold tick, civil in *. destruct (schedule fs) as [|t ts] eqn:E.
  - intros [= <- <-]. rewrite E. by split_and!.
  - apply Forall_cons in Hc as [Ht Hts]. intros [= <- <-]. cbn. split_and!; [done| |done].
    split; [apply Ht|]. intros p f Hp. right. exists p, f. split; [by right|apply same_file].
Qed.

(** The rest of a call after its entry, as a function of the file system. *)
Lemma decent_call {A} (k : Fs → M Fs A) φ :
  (∀ fs r fs', k fs fs = (r, fs') → civil fs → civil fs' ∧ keeps_files fs fs' ∧ ∀ a, r = Ok a → φ a) →
  decent (tick;; fs ← get; k fs) φ.
Proof.
  intros Hk. eapply decent_bind; [apply decent_tick|]. intros _ _ fs r fs' Hc Hrun. by eapply Hk.
Qed.

Lemma civil_names fs m : civil (set_names m fs) = civil fs.
Proof. done. Qed.

(** ** System calls *)

Lemma decent_look {A} (look : gmap Path Node → result A) :
  decent (tick;; fs ← get; lift (look fs.(names))) any.
Proof. apply decent_call. by intros fs r fs' [= <- <-]. Qed.

Lemma decent_symlink_metadata p : decent (symlink_metadata p) any.
Proof. apply (decent_look (λ m, ok_or (m !! p) (Io NotFound))). Qed.

Lemma decent_read p : decent (fs_read p) any.
Proof.
  apply (decent_look (λ m, q ← ok_or (resolve 40 m p) (Io OtherKind); n ← ok_or (m !! q) (Io NotFound);
    match n with FileN f => Ok f.(data) | _ => Err (Io OtherKind) end)).
Qed.

Lemma decent_set_permissions p : decent (set_permissions p) any.
Proof.
  apply decent_call. intros fs r fs'. unfold lift, put, mbind, M_bind.
  destruct (resolve _ _ _) as [q|]; cbn; [|by intros [= <- <-]].
  destruct (names fs !! q) as [n|] eqn:Hq; cbn; intros [= <- <-] Hc; [|done]. split_and!; [done| |done].
  apply keeps_names. destruct n as [f| |]; cbn; [|by apply whole_other..].
  apply whole_insert. right. exists q, f. by split.
Qed.

Lemma decent_create_dir_all p : decent (create_dir_all p) any.
Proof.
  apply decent_call. intros fs r fs'. unfold ensure, put, mbind, M_bind.
  destruct (forallb _ _); cbn; intros [= <- <-] Hc; [|done]. split_and!; [done| |done].
  apply keeps_names, whole_dirs.
Qed.

Lemma decent_rename a b : decent (rename a b) any.
Proof.
  apply decent_call. intros fs r fs'. unfold lift, ensure, put, mbind, M_bind.
  destruct (names fs !! a) as [n|] eqn:Ha; cbn; [|by intros [= <- <-]].
  case_bool_decide; cbn; intros [= <- <-] Hc; [done|]. split_and!; [done| |done].
  by apply keeps_names, whole_move.
Qed.

Lemma decent_sync_directory dir : decent (sync_directory dir) any.
Proof.
  eapply decent_bind; [apply decent_tick|]. intros _ _. apply decent_call. intros fs r fs' [= <- <-] Hc.
  split_and!; [done| |done]. split; [done|]. cbn. intros p f Hp. right. exists p, f.
  split; [|apply same_file].
  apply lookup_union_Some_raw in Hp as [[? _]%map_lookup_filter_Some|[_ [? _]%map_lookup_filter_Some]]; auto.
Qed.

Lemma decent_getrandom : decent getrandom any.
Proof.
  intros fs r fs' Hc. unfold getrandom, get, put, fail, mbind, M_bind, mret, M_ret.
  destruct (entropy fs) as [|t ts]; intros [= <- <-]; split_and!; try done.
  exact (keeps_names fs _ (reflexivity _)).
Qed.

Lemma decent_temp {A} (a : A) φ : φ a → decent (tick;; mret a) φ.
Proof. intros Ha. eapply decent_bind; [apply decent_tick|]. intros _ _. by apply decent_ret. Qed.

(** ** Temporary files *)

Section temporaries.
Context `{TempfileLaws}.

Lemma env_steps_civil fs fs' : civil fs → env_steps fs fs' → civil fs' ∧ keeps_files fs fs'.
Proof.
  intros Hc (pre & post & Hs & ->). unfold civil in *. rewrite Hs in Hc. cbn.
  apply Forall_app in Hc as [Hpre Hpost]. split; [done|]. split; cbn.
  - clear -Hpre. generalize (names fs). induction Hpre as [|t pre Ht _ IH]; intros m; cbn; [done|].
    etrans; [apply Ht|apply IH].
  - intros p f Hp. right. exists p, f. split; [by right|apply same_file].
Qed.

Lemma decent_new_in dir : decent (new_in dir) (λ t, t.(data) = []).
Proof.
  intros fs r fs' Hc Hrun. destruct (new_in_law dir fs) as (fs1 & He & H1 & H2).
  rewrite Hrun in H1, H2. cbn in H1, H2. subst. destruct (env_steps_civil _ _ Hc He) as [Hc1 Hk].
  split_and!; [done..|]. by intros t ->; apply H2.
Qed.

Lemma decent_persist t p : complete t → decent (persist t p) any.
Proof.
  intros Ht fs r fs' Hc Hrun. destruct (persist_law t p fs) as (fs1 & He & Hout).
  rewrite Hrun in Hout. destruct (env_steps_civil _ _ Hc He) as [Hc1 Hk]. cbn in Hout.
  destruct r as [u|e]; subst fs'; split_and!; try done. etrans; [exact Hk|].
  apply keeps_names, whole_insert. by left.
Qed.

Lemma decent_persist_noclobber t p : complete t → decent (persist_noclobber t p) any.
Proof.
  intros Ht fs r fs' Hc Hrun. destruct (persist_noclobber_law t p fs) as (fs1 & He & Hout).
  rewrite Hrun in Hout. destruct (env_steps_civil _ _ Hc He) as [Hc1 Hk]. cbn in Hout.
  destruct r as [u|e]; destruct Hout as [H1 H2]; subst fs'; split_and!; try done. etrans; [exact Hk|].
  apply keeps_names, whole_insert. by left.
Qed.

(** A temporary that is written and synced is a complete file. *)
Lemma decent_written {A} dir (token : TunnelToken) (k : Temp → M Fs A) φ :
  (∀ t, complete t → decent (k t) φ) →
  decent (temporary ← new_in dir;
    temporary ← temp_set_owner_only temporary;
    temporary ← temp_write_all (bytes_list token) temporary;
    temporary ← temp_sync_all temporary;
    k temporary) φ.
Proof.
  intros Hk. eapply decent_bind; [apply decent_new_in|]. intros t1 H1.
  eapply decent_bind; [by apply (decent_temp _ (λ t, t.(data) = [] ∧ t.(private) = true))|]. intros t2 [H2 P2].
  eapply decent_bind; [apply (decent_temp _ (λ t, length t.(data) = 32%nat ∧ t.(private) = true))|].
  { cbn. rewrite H2. split; [apply bytes_len|done]. }
  intros t3 [H3 P3]. eapply decent_bind; [apply (decent_temp _ complete)|]; [by split_and!|].
  intros t4 H4. by apply Hk.
Qed.
End temporaries.

Ltac decent_step := eapply decent_bind;
  [first [apply decent_symlink_metadata | apply decent_read | apply decent_set_permissions
         |apply decent_create_dir_all | apply decent_rename | apply decent_sync_directory
         |apply decent_getrandom | apply decent_ensure | apply decent_lift]|intros ? ?].

(** ** The calls of [Identity] *)

Section calls.
Context `{TempfileLaws}.

Lemma decent_read_existing p : decent (read_existing p) any.
Proof.
  unfold read_existing. do 4 decent_step. eapply decent_weaken; [apply decent_lift|done].
Qed.

Lemma decent_entry_exists p : decent (entry_exists p) any.
Proof.
  unfold entry_exists. eapply decent_bind; [apply decent_attempt, decent_symlink_metadata|]. intros o _.
  destruct o as [n|[| |[]|]]; (by apply decent_ret) || apply decent_fail.
Qed.

Lemma decent_create_new_private p token : decent (create_new_private p token) any.
Proof.
  unfold create_new_private. decent_step. apply decent_written. intros t Ht.
  eapply decent_bind; [by apply decent_attempt, decent_persist_noclobber|]. intros o _.
  destruct o as [u|[| |[]|]]; try apply decent_fail; [decent_step|]; by apply decent_ret.
Qed.

Lemma decent_load_or_create p : decent (load_or_create_at p) any.
Proof.
  unfold load_or_create_at. eapply decent_bind; [apply decent_entry_exists|]. intros [] _.
  { apply decent_read_existing. }
  decent_step. eapply decent_bind; [apply decent_create_new_private|]. intros [] _;
    [by apply decent_ret|apply decent_read_existing].
Qed.

Lemma decent_current_identity p : decent (current_identity p) any.
Proof.
  unfold current_identity. eapply decent_bind; [apply decent_entry_exists|]. intros [] _; [|by apply decent_ret].
  eapply decent_bind; [apply decent_read_existing|]. intros t _. by apply decent_ret.
Qed.

Lemma decent_store_recovery p secret : decent (store_recovery_at p secret) any.
Proof.
  unfold store_recovery_at. eapply decent_bind; [apply decent_create_new_private|]. intros [] _; [by apply decent_ret|].
  eapply decent_bind; [apply decent_read_existing|]. intros current _.
  case_bool_decide; [by apply decent_ret|]. apply decent_written. intros t Ht.
  eapply decent_bind; [by apply decent_persist|]. intros _ _. apply decent_sync_directory.
Qed.

Lemma decent_prepare_rotation p : decent (prepare_rotation_at p) any.
Proof.
  unfold prepare_rotation_at. eapply decent_bind; [apply decent_read_existing|]. intros old _. decent_step.
  eapply decent_bind; [apply decent_entry_exists|]. intros there _.
  eapply decent_bind; [|intros new _; decent_step; by apply decent_ret].
  destruct there; [apply decent_read_existing|]. decent_step.
  eapply decent_bind; [apply decent_create_new_private|]. intros [] _;
    [by apply decent_ret|apply decent_read_existing].
Qed.

Lemma decent_prepare_recovery p : decent (prepare_recovery_at p) any.
Proof.
  unfold prepare_recovery_at. eapply decent_bind; [apply decent_current_identity|]. intros old _. decent_step.
  eapply decent_bind; [apply decent_load_or_create|]. intros new _. decent_step. by apply decent_ret.
Qed.

Lemma decent_install p q (new : TunnelToken) e : decent (pending ← read_existing q;
  ensure (bool_decide (pending = new)) e;; rename q p;; sync_directory (parent p)) any.
Proof.
  eapply decent_bind; [apply decent_read_existing|]. intros pending _. do 2 decent_step.
  apply decent_sync_directory.
Qed.

Lemma decent_finish_rotation self : decent (PendingRotation_finish self) any.
Proof.
  unfold PendingRotation_finish. eapply decent_bind; [apply decent_read_existing|]. intros current _.
  decent_step. apply decent_install.
Qed.

Lemma decent_finish_recovery self : decent (PendingRecovery_finish self) any.
Proof.
  unfold PendingRecovery_finish. eapply decent_bind; [apply decent_current_identity|]. intros current _.
  decent_step. apply decent_install.
Qed.
End calls.
