(* ===== verification/Quiet.v ===== *)
(** The file system when nothing fails and nobody else writes: what the host's
    file operations do then, as equations.  [FsLogic] and [FsAlone] bound what can
    go wrong; here the calls are shown to succeed. *)

From Stdlib Require Import Strings.Byte.
From S2P Require Import Prelude Bytes Fs FsLogic Identity IdentityFacts.

(** No fault and no other process is to come. *)
Definition quiet (fs : Fs) : Prop := fs.(schedule) = [].

Lemma set_names_same fs : set_names (names fs) fs = fs.
Proof. by destruct fs. Qed.

Section calls.
Context (fs : Fs) (Hq : quiet fs).

Lemma tick_quiet : tick fs = (Ok tt, fs).
Proof. unfold tick. by rewrite Hq. Qed.

Lemma symlink_metadata_quiet p :
  symlink_metadata p fs = (ok_or (names fs !! p) (Io NotFound), fs).
Proof. unfold symlink_metadata. by rewrite (M_bind_run _ _ _ _ _ tick_quiet). Qed.

Lemma entry_exists_quiet p : entry_exists p fs = (Ok (bool_decide (is_Some (names fs !! p))), fs).
Proof.
  unfold entry_exists, attempt, mbind, M_bind. rewrite symlink_metadata_quiet. cbn.
  by destruct (names fs !! p).
Qed.

(** A private file of 32 bytes is read and left as it is. *)
Lemma read_existing_quiet p (A : TunnelToken) : holds p (bytes_list A) fs → read_existing p fs = (Ok A, fs).
Proof.
  intros (f & Hf & Hd & Hpriv).
  assert (Hres : resolve 40 (names fs) p = Some p) by by eapply resolve_file.
  assert (Hset : set_permissions p fs = (Ok tt, fs)).
  { unfold set_permissions. rewrite (M_bind_run _ _ _ _ _ tick_quiet).
    unfold get, lift, put, mbind, M_bind. rewrite Hres. cbn. rewrite Hf. cbn.
    rewrite insert_id; [by rewrite set_names_same|].
    rewrite Hf. f_equal. f_equal. destruct f as [d pr sy]. cbn in *. by subst. }
  assert (Hread : fs_read p fs = (Ok (bytes_list A), fs)).
  { unfold fs_read. rewrite (M_bind_run _ _ _ _ _ tick_quiet).
    unfold get, lift, mbind, M_bind. rewrite Hres. cbn. rewrite Hf. cbn. by rewrite Hd. }
  unfold read_existing. erewrite M_bind_run; [|by rewrite symlink_metadata_quiet, Hf].
  erewrite M_bind_run; [|done]. rewrite (M_bind_run _ _ _ _ _ Hset), (M_bind_run _ _ _ _ _ Hread).
  unfold lift. by rewrite to_array_list.
Qed.

(** The last steps of both [finish] methods. *)
Lemma rename_and_sync_quiet q p f : names fs !! q = Some (FileN f) → names fs !! p ≠ Some DirN →
  ∃ fs', (rename q p;; sync_directory (parent p)) fs = (Ok tt, fs').
Proof.
  intros Hf Hp. assert (Hren : rename q p fs = (Ok tt, set_names (<[p := FileN f]> (delete q (names fs))) fs)).
  { unfold rename. rewrite (M_bind_run _ _ _ _ _ tick_quiet). unfold get, lift, ensure, put, mbind, M_bind.
    rewrite Hf. cbn. by rewrite bool_decide_false. }
  rewrite (M_bind_run _ _ _ _ _ Hren). eexists. unfold sync_directory, tick, get, put, mbind, M_bind. cbn.
  rewrite Hq. cbn. rewrite Hq. reflexivity.
Qed.
End calls.

(** ** Temporary files *)

(** What [tempfile]'s documentation says of its calls in a directory that is
    there: without a fault of the system they do what they are for. *)
Class TempfileProgress `{Tempfile} : Prop := {
  new_in_progress dir fs : quiet fs → dir = [] ∨ names fs !! dir = Some DirN →
    ∃ t, new_in dir fs = (Ok t, fs) ∧ t.(data) = [];
  persist_noclobber_progress t p fs : quiet fs → names fs !! p = None →
    persist_noclobber t p fs = (Ok tt, set_names (<[p := FileN t]> fs.(names)) fs);
  persist_noclobber_taken t p fs : quiet fs → is_Some (names fs !! p) →
    persist_noclobber t p fs = (Err (Io AlreadyExists), fs);
  persist_progress t p fs : quiet fs → names fs !! p ≠ Some DirN →
    persist t p fs = (Ok tt, set_names (<[p := FileN t]> fs.(names)) fs);
}.

(** The directories of [q] are there or can be made. *)
Definition in_directory (q : Path) (fs : Fs) : Prop :=
  Forall (λ d, names fs !! d ∈ [None; Some DirN]) (prefixes (parent q)).

(** The token [B] is in the file at [q], or will be drawn for it. *)
Definition ready (q : Path) (B : TunnelToken) (fs : Fs) : Prop :=
  in_directory q fs ∧
  (holds q (bytes_list B) fs ∨ names fs !! q = None ∧ head fs.(entropy) = Some B).

(** Afterwards the token is in the file; the directories were made, and nothing
    else changed. *)
Record written_at (q : Path) (B : TunnelToken) (fs fs' : Fs) : Prop := {
  written_quiet : quiet fs';
  written_holds : holds q (bytes_list B) fs';
  written_dirs : in_directory q fs';
  written_rest x : x ≠ q → x ∉ prefixes (parent q) → names fs' !! x = names fs !! x;
}.

Lemma written_refl q B fs : quiet fs → in_directory q fs → holds q (bytes_list B) fs → written_at q B fs fs.
Proof. by split. Qed.

(** No path is a prefix of the directory it is in. *)
Lemma prefixes_parent q : q ∉ prefixes (parent q).
Proof.
  unfold prefixes, parent. intros (n & Hn & Hin)%list_elem_of_fmap.
  apply (f_equal length) in Hn. rewrite length_take in Hn. apply elem_of_seq in Hin.
  destruct q as [|x q] using rev_ind; [cbn in *; lia|]. rewrite removelast_last, length_app in *. cbn in *. lia.
Qed.

Lemma sibling_prefixes p q : parent p = parent q → p ∉ prefixes (parent q).
Proof. intros <-. apply prefixes_parent. Qed.

Lemma make_dirs_lookup (m : gmap Path Node) ds p :
  foldr (λ q m, <[q := DirN]> m) m ds !! p = if decide (p ∈ ds) then Some DirN else m !! p.
Proof.
  induction ds as [|d ds IH]; cbn; [done|]. destruct (decide (d = p)) as [->|Hne].
  - rewrite lookup_insert_eq, decide_True by by left. done.
  - rewrite lookup_insert_ne, IH by done. apply decide_ext. rewrite elem_of_cons. naive_solver.
Qed.

Lemma prefixes_self p : p ≠ [] → p ∈ prefixes p.
Proof.
  intros Hp. unfold prefixes. apply list_elem_of_fmap. exists (length p). rewrite take_ge by done.
  split; [done|]. apply elem_of_seq. destruct p; [done|cbn; lia].
Qed.

Section files.
Context `{TempfileProgress}.
Context (fs : Fs) (Hq : quiet fs).

Definition with_dirs (p : Path) : Fs :=
  set_names (foldr (λ q m, <[q := DirN]> m) fs.(names) (prefixes p)) fs.

Lemma create_dir_all_quiet q : in_directory q fs → create_dir_all (parent q) fs = (Ok tt, with_dirs (parent q)).
Proof.
  intros Hd. unfold create_dir_all. rewrite (M_bind_run _ _ _ _ _ (tick_quiet fs Hq)).
  unfold get, ensure, put, mbind, M_bind. replace (forallb _ _) with true; [done|].
  symmetry. apply forallb_forall. intros d Hin. apply bool_decide_eq_true_2.
  unfold in_directory in Hd. rewrite Forall_forall in Hd. by apply Hd, list_elem_of_In.
Qed.

Lemma with_dirs_lookup p x : names (with_dirs p) !! x = if decide (x ∈ prefixes p) then Some DirN else names fs !! x.
Proof. apply make_dirs_lookup. Qed.

Lemma with_dirs_parent q : parent q = [] ∨ names (with_dirs (parent q)) !! parent q = Some DirN.
Proof.
  destruct (decide (parent q = [])) as [|Hp]; [by left|right].
  by rewrite with_dirs_lookup, decide_True by by apply prefixes_self.
Qed.

(** The temporary file, up to the point where it takes its name. *)
Definition temporary_with (B : TunnelToken) (dir : Path) : M Fs Temp :=
  temporary ← new_in dir;
  temporary ← temp_set_owner_only temporary;
  temporary ← temp_write_all (bytes_list B) temporary;
  temp_sync_all temporary.
Definition whole_file (B : TunnelToken) : FileNode := {| data := bytes_list B; private := true; synced := true |}.
Lemma temporary_quiet B dir : dir = [] ∨ names fs !! dir = Some DirN → 
  temporary_with B dir fs = (Ok (whole_file B), fs).
Proof.
  intros Hd. destruct (new_in_progress dir fs Hq Hd) as (t & Ht & Hdata). unfold temporary_with.
  rewrite (M_bind_run _ _ _ _ _ Ht). unfold temp_set_owner_only, temp_write_all, temp_sync_all.
  do 2 (erewrite M_bind_run; [|rewrite (M_bind_run _ _ _ _ _ (tick_quiet fs Hq)); reflexivity]).
  rewrite (M_bind_run _ _ _ _ _ (tick_quiet fs Hq)). unfold whole_file. cbn. by rewrite Hdata.
Qed.

Lemma temporary_bind {A} (k : Temp → M Fs A) B dir f :
  (temporary ← new_in dir; temporary ← temp_set_owner_only temporary;
   temporary ← temp_write_all (bytes_list B) temporary;
   temporary ← temp_sync_all temporary; k temporary) f = (temporary_with B dir ≫= k) f.
Proof.
  unfold temporary_with, mbind, M_bind. repeat (case_match; try done); congruence.
Qed.

Lemma sync_directory_quiet d : sync_directory d fs = (Ok tt, set_durable
  (filter (λ kv, parent kv.1 = d) fs.(names) ∪ filter (λ kv, parent kv.1 ≠ d) fs.(durable)) fs).
Proof.
  unfold sync_directory. by rewrite !(M_bind_run _ _ _ _ _ (tick_quiet fs Hq)).
Qed.
End files.

(** ** Making and replacing the private files *)

Section making.
Context `{TempfileProgress}.
Implicit Types (fs : Fs).

Lemma with_dirs_file fs q : names (with_dirs fs (parent q)) !! q = names fs !! q.
Proof. rewrite with_dirs_lookup, decide_False; [done|apply prefixes_parent]. Qed.

Lemma with_dirs_in_directory fs q : in_directory q fs → in_directory q (with_dirs fs (parent q)).
Proof.
  unfold in_directory. rewrite !Forall_forall. intros Hd d Hin.
  rewrite with_dirs_lookup, decide_True by done. right. by left.
Qed.

(** The file takes its name, or replaces what had it. *)
Lemma written_named q B fs : quiet fs → in_directory q fs →
  written_at q B fs (set_durable
    (filter (λ kv, parent kv.1 = parent q) (<[q := FileN (whole_file B)]> (names (with_dirs fs (parent q)))) ∪
     filter (λ kv, parent kv.1 ≠ parent q) (durable (with_dirs fs (parent q))))
    (set_names (<[q := FileN (whole_file B)]> (names (with_dirs fs (parent q)))) (with_dirs fs (parent q)))).
Proof.
  intros Hq Hd. split; cbn.
  - exact Hq.
  - exists (whole_file B). cbn. by rewrite lookup_insert_eq.
  - apply with_dirs_in_directory in Hd. unfold in_directory in *. rewrite !Forall_forall in *. intros d Hin.
    cbn. rewrite lookup_insert_ne; [by apply Hd|]. intros <-. by apply (prefixes_parent q).
  - intros x Hx Hp. rewrite lookup_insert_ne by done. by rewrite make_dirs_lookup, decide_False.
Qed.

Lemma create_new_private_quiet q B fs : quiet fs → in_directory q fs → names fs !! q = None →
  ∃ fs', create_new_private q B fs = (Ok true, fs') ∧ written_at q B fs fs' ∧ entropy fs' = entropy fs.
Proof.
  intros Hq Hd Hn. pose proof (with_dirs_parent fs q) as Hp. assert (Hq1 : quiet (with_dirs fs (parent q))) by exact Hq.
  eexists. split; [|split; [by apply written_named|done]]. unfold create_new_private.
  rewrite (M_bind_run _ _ _ _ _ (create_dir_all_quiet fs Hq q Hd)), temporary_bind.
  rewrite (M_bind_run _ _ _ _ _ (temporary_quiet _ Hq1 B _ Hp)). unfold attempt.
  erewrite M_bind_run; [|rewrite persist_noclobber_progress; [done|done|by rewrite with_dirs_file]].
  cbn [fst snd]. by erewrite M_bind_run; [|by apply sync_directory_quiet].
Qed.

Lemma create_new_private_taken q B fs : quiet fs → in_directory q fs → is_Some (names fs !! q) →
  create_new_private q B fs = (Ok false, with_dirs fs (parent q)).
Proof.
  intros Hq Hd Hn. pose proof (with_dirs_parent fs q) as Hp. assert (Hq1 : quiet (with_dirs fs (parent q))) by exact Hq.
  unfold create_new_private. rewrite (M_bind_run _ _ _ _ _ (create_dir_all_quiet fs Hq q Hd)), temporary_bind.
  rewrite (M_bind_run _ _ _ _ _ (temporary_quiet _ Hq1 B _ Hp)). unfold attempt.
  erewrite M_bind_run; [|rewrite persist_noclobber_taken; [done|done|by rewrite with_dirs_file]]. done.
Qed.

(** Drawing the token and making the file. *)
Lemma draw_and_create q B fs : quiet fs → in_directory q fs → names fs !! q = None →
  head fs.(entropy) = Some B → ∃ fs1 fs', getrandom fs = (Ok B, fs1) ∧ create_new_private q B fs1 = (Ok true, fs') ∧
    written_at q B fs fs' ∧ entropy fs' = tail (entropy fs).
Proof.
  intros Hq Hd Hn He. destruct (entropy fs) as [|B' ts] eqn:E; [done|]. injection He as ->.
  set (fs1 := {| names := names fs; durable := durable fs; schedule := schedule fs; entropy := ts |}).
  destruct (create_new_private_quiet q B fs1 Hq Hd Hn) as (fs' & Hc & [] & He').
  exists fs1, fs'. split_and!; [|done|by split|done]. unfold getrandom, get, put, mbind, M_bind. by rewrite E.
Qed.

Lemma load_or_create_quiet q B fs : quiet fs → ready q B fs →
  ∃ fs', load_or_create_at q fs = (Ok B, fs') ∧ written_at q B fs fs' ∧
    entropy fs' = match names fs !! q with Some _ => entropy fs | None => tail (entropy fs) end.
Proof.
  intros Hq [Hd Hr]. unfold load_or_create_at. rewrite (M_bind_run _ _ _ _ _ (entry_exists_quiet fs Hq q)).
  destruct Hr as [Hh|[Hn He]].
  - rewrite bool_decide_true by (destruct Hh as (f & -> & _); eauto). exists fs.
    rewrite (read_existing_quiet fs Hq _ _ Hh). split_and!; [done|by apply written_refl|].
    by destruct Hh as (f & -> & _).
  - rewrite Hn, bool_decide_false by by intros [].
    destruct (draw_and_create q B fs) as (fs1 & fs' & Hg & Hc & Hw & He'); [done..|].
    rewrite (M_bind_run _ _ _ _ _ Hg), (M_bind_run _ _ _ _ _ Hc). by exists fs'.
Qed.

(** The recovery file may be missing, or hold any key. *)
Lemma store_recovery_quiet q S fs : quiet fs → in_directory q fs →
  names fs !! q = None ∨ (∃ S' : TunnelToken, holds q (bytes_list S') fs) →
  ∃ fs', store_recovery_at q S fs = (Ok tt, fs') ∧ written_at q S fs fs'.
Proof.
  intros Hq Hd [Hn|[S' HS]]; unfold store_recovery_at.
  { destruct (create_new_private_quiet q S fs) as (fs' & Hc & Hw & _); [done..|]. exists fs'.
    by rewrite (M_bind_run _ _ _ _ _ Hc). }
  assert (Hq1 : quiet (with_dirs fs (parent q))) by exact Hq.
  assert (HS1 : holds q (bytes_list S') (with_dirs fs (parent q))).
  { destruct HS as (f & Hf & HS). exists f. by rewrite with_dirs_file. }
  erewrite M_bind_run; [|apply create_new_private_taken; [done..|destruct HS as (f & -> & _); eauto]].
  cbv beta iota. rewrite (M_bind_run _ _ _ _ _ (read_existing_quiet _ Hq1 _ _ HS1)). case_bool_decide as He.
  - subst S'. eexists. split; [done|]. split; [done|done|by apply with_dirs_in_directory|].
    intros x Hx Hp. by rewrite with_dirs_lookup, decide_False.
  - eexists. split; [|by apply written_named]. rewrite temporary_bind.
    rewrite (M_bind_run _ _ _ _ _ (temporary_quiet _ Hq1 S _ (with_dirs_parent fs q))).
    erewrite M_bind_run; [|apply persist_progress; [done|destruct HS1 as (f & -> & _); done]].
    by rewrite sync_directory_quiet.
Qed.
End making.

(** ** Preparing *)

Section preparing.
Context `{TempfileProgress}.
Context (fs : Fs) (Hq : quiet fs).

Lemma prepare_rotation_quiet p q (A B : TunnelToken) : holds p (bytes_list A) fs → pending_path p = Ok q →
  ready q B fs → A ≠ B → ∃ fs', prepare_rotation_at p fs =
    (Ok {| rot_path := p; rot_pending_path := q; rot_old_token := A; rot_new_token := B |}, fs') ∧
    written_at q B fs fs'.
Proof.
  intros HA Hp Hr Hne. unfold prepare_rotation_at.
  rewrite (M_bind_run _ _ _ _ _ (read_existing_quiet fs Hq _ _ HA)), Hp.
  erewrite M_bind_run; [|done]. rewrite (M_bind_run _ _ _ _ _ (entry_exists_quiet fs Hq q)).
  destruct Hr as [Hd [Hh|[Hn He]]].
  - rewrite bool_decide_true by (destruct Hh as (f & -> & _); eauto). exists fs.
    rewrite (M_bind_run _ _ _ _ _ (read_existing_quiet fs Hq _ _ Hh)).
    unfold ensure, mbind, M_bind. rewrite bool_decide_true by done. split; [done|by apply written_refl].
  - rewrite Hn, bool_decide_false by by intros [].
    destruct (draw_and_create q B fs) as (fs1 & fs' & Hg & Hc & Hw & _); [done..|]. exists fs'. split; [|done].
    erewrite M_bind_run; [|rewrite (M_bind_run _ _ _ _ _ Hg), (M_bind_run _ _ _ _ _ Hc); done].
    unfold ensure, mbind, M_bind. by rewrite bool_decide_true.
Qed.

(** The identity file is whole, or there is none. *)
Definition identity_is (p : Path) (o : option TunnelToken) (f : Fs) : Prop :=
  match o with Some A => holds p (bytes_list A) f | None => names f !! p = None end.

Lemma current_identity_quiet p o : identity_is p o fs → current_identity p fs = (Ok o, fs).
Proof.
  intros Ho. unfold current_identity. rewrite (M_bind_run _ _ _ _ _ (entry_exists_quiet fs Hq p)).
  destruct o as [A|]; cbn in Ho.
  - rewrite bool_decide_true by (destruct Ho as (f & -> & _); eauto).
    by rewrite (M_bind_run _ _ _ _ _ (read_existing_quiet fs Hq _ _ Ho)).
  - rewrite Ho, bool_decide_false; [done|by intros []].
Qed.

Lemma prepare_recovery_quiet p q o B : identity_is p o fs → pending_path p = Ok q →
  ready q B fs → o ≠ Some B → ∃ fs', prepare_recovery_at p fs =
    (Ok {| rec_path := p; rec_pending_path := q; rec_old_token := o; rec_new_token := B |}, fs') ∧
    written_at q B fs fs'.
Proof.
  intros Ho Hp Hr Hne. unfold prepare_recovery_at.
  rewrite (M_bind_run _ _ _ _ _ (current_identity_quiet p o Ho)), Hp.
  erewrite M_bind_run; [|done]. destruct (load_or_create_quiet q B fs Hq Hr) as (fs' & Hl & Hw & _).
  rewrite (M_bind_run _ _ _ _ _ Hl). exists fs'. unfold ensure, mbind, M_bind.
  by rewrite bool_decide_true by congruence.
Qed.

(** ** Installing *)

Lemma holds_file p bs f : holds p bs f → ∃ g, names f !! p = Some (FileN g).
Proof. intros (g & Hg & _). by exists g. Qed.

Lemma identity_not_dir p o : identity_is p o fs → names fs !! p ≠ Some DirN.
Proof. destruct o as [A|]; cbn; [by intros [g ->]%holds_file|by intros ->]. Qed.

Lemma install_quiet p q o B e : identity_is p o fs → holds q (bytes_list B) fs → ∃ fs',
  (pending ← read_existing q; ensure (bool_decide (pending = B)) e;;
   rename q p;; sync_directory (parent p)) fs = (Ok tt, fs').
Proof.
  intros Ho HB. rewrite (M_bind_run _ _ _ _ _ (read_existing_quiet fs Hq _ _ HB)).
  erewrite M_bind_run; [|unfold ensure; by rewrite bool_decide_true].
  destruct (holds_file _ _ _ HB) as [g Hg].
  by apply (rename_and_sync_quiet fs Hq q p g); [|eapply identity_not_dir].
Qed.

Lemma rotation_finish_quiet pr : holds (rot_path pr) (bytes_list (rot_old_token pr)) fs →
  holds (rot_pending_path pr) (bytes_list (rot_new_token pr)) fs → ∃ fs', PendingRotation_finish pr fs = (Ok tt, fs').
Proof.
  intros HA HB. unfold PendingRotation_finish. rewrite (M_bind_run _ _ _ _ _ (read_existing_quiet fs Hq _ _ HA)).
  erewrite M_bind_run; [|unfold ensure; by rewrite bool_decide_true].
  by apply (install_quiet _ _ (Some (rot_old_token pr))).
Qed.

Lemma recovery_finish_quiet pr : identity_is (rec_path pr) (rec_old_token pr) fs →
  holds (rec_pending_path pr) (bytes_list (rec_new_token pr)) fs → ∃ fs', PendingRecovery_finish pr fs = (Ok tt, fs').
Proof.
  intros Ho HB. unfold PendingRecovery_finish. rewrite (M_bind_run _ _ _ _ _ (current_identity_quiet _ _ Ho)).
  erewrite M_bind_run; [|unfold ensure; by rewrite bool_decide_true].
  by apply (install_quiet _ _ (rec_old_token pr)).
Qed.
End preparing.

(** The concrete temporary files make progress. *)
Lemma posix_progress : @TempfileProgress posix_tempfile.
Proof.
  assert (Hos : ∀ fs, quiet fs → os_call fs = (Ok tt, fs)).
  { intros fs Hq. unfold os_call, attempt, mbind, M_bind. by rewrite tick_quiet. }
  split.
  - intros dir fs Hq Hd. eexists. cbn. rewrite (M_bind_run _ _ _ _ _ (Hos fs Hq)).
    unfold get, ensure, mbind, M_bind. by rewrite bool_decide_true.
  - intros t p fs Hq Hn. cbn. rewrite (M_bind_run _ _ _ _ _ (Hos fs Hq)).
    unfold get, ensure, put, mbind, M_bind. by rewrite bool_decide_true.
  - intros t p fs Hq [n Hn]. cbn. rewrite (M_bind_run _ _ _ _ _ (Hos fs Hq)).
    unfold get, ensure, put, mbind, M_bind. by rewrite Hn, bool_decide_false.
  - intros t p fs Hq Hp. cbn. by rewrite (M_bind_run _ _ _ _ _ (Hos fs Hq)).
Qed.
