(* ===== verification/IdentityProps.v ===== *)
(** What the host's files guarantee: the properties of [Identity]. *)

From Stdlib Require Import Strings.Byte.
From S2P Require Import Prelude Bytes Fs FsLogic Identity IdentityFacts Whole.

(** ** Calls that only read or create *)

Section properties.
Context `{TempfileLaws}.

Inductive identity_call :=
  | CallLoad (p : Path)
  | CallRead (p : Path)
  | CallCreate (p : Path) (token : TunnelToken)
  | CallPrepareRotation (p : Path)
  | CallPrepareRecovery (p : Path).

(** A call, successful or cut short by a fault. *)
Definition run_call (c : identity_call) (fs : Fs) : Fs :=
  match c with
  | CallLoad p => (load_or_create_at p fs).2
  | CallRead p => (read_existing p fs).2
  | CallCreate p token => (create_new_private p token fs).2
  | CallPrepareRotation p => (prepare_rotation_at p fs).2
  | CallPrepareRecovery p => (prepare_recovery_at p fs).2
  end.

Lemma triple_run {A} (m : M Fs A) Q fs : triple anything m Q → friendly fs →
  friendly (m fs).2 ∧ grows fs.(names) (m fs).2.(names).
Proof. intros Hm Hfr. destruct (m fs) as [r fs'] eqn:E. by destruct (Hm _ _ _ Hfr I E) as (? & ? & _). Qed.

Lemma run_call_grows c fs : friendly fs →
  friendly (run_call c fs) ∧ grows fs.(names) (run_call c fs).(names).
Proof.
  intros Hfr. destruct c; cbn; (eapply triple_run; [|done]);
    eauto using load_or_create_triple, read_existing_triple, create_new_private_triple,
      prepare_rotation_triple, prepare_recovery_triple, stable_anything.
Qed.

(** Every call on the host's files. *)
Inductive identity_op :=
  | OpCall (c : identity_call)
  | OpFinishRotation (self : PendingRotation)
  | OpFinishRecovery (self : PendingRecovery)
  | OpStoreRecovery (p : Path) (secret : TunnelToken).

Definition run_op (op : identity_op) (fs : Fs) : Fs :=
  match op with
  | OpCall c => run_call c fs
  | OpFinishRotation self => (PendingRotation_finish self fs).2
  | OpFinishRecovery self => (PendingRecovery_finish self fs).2
  | OpStoreRecovery p secret => (store_recovery_at p secret fs).2
  end.

Lemma decent_run {A} (m : M Fs A) φ fs : decent m φ → civil fs → civil (m fs).2 ∧ keeps_files fs (m fs).2.
Proof. intros Hm Hc. destruct (m fs) as [r fs'] eqn:E. by destruct (Hm _ _ _ Hc E) as (? & ? & _). Qed.

Lemma run_op_whole op fs : civil fs → civil (run_op op fs) ∧ keeps_files fs (run_op op fs).
Proof.
  intros Hc. destruct op as [[p|p|p token|p|p]|self|self|p secret]; cbn; (eapply decent_run; [|done]);
    eauto using decent_load_or_create, decent_read_existing, decent_create_new_private, decent_prepare_rotation,
      decent_prepare_recovery, decent_finish_rotation, decent_finish_recovery, decent_store_recovery.
Qed.

(** C21. No file is ever torn: over any sequence of all calls on the host's files,
    reads, first uses, preparations, installations and the storing of a key, each
    of them possibly cut short by a fault at any system call, among processes that
    do the same, every file is complete (32 bytes, private, written back to disk)
    or one that was there before, with its contents, perhaps under another name;
    and so is every file a power loss leaves.  Without installations and stored
    keys, every file that was there also keeps its name. *)
Theorem identity_files_never_torn ops fs : let fs' := foldl (λ fs op, run_op op fs) fs ops in
  (civil fs →
    (∀ p f', fs'.(names) !! p = Some (FileN f') → complete f' ∨
       ∃ q f, fs.(names) !! q = Some (FileN f) ∧ same_entry (FileN f) (FileN f')) ∧
    (∀ p f', fs'.(durable) !! p = Some (FileN f') → complete f' ∨
       ∃ q f, (fs.(names) !! q = Some (FileN f) ∨ fs.(durable) !! q = Some (FileN f)) ∧
         same_entry (FileN f) (FileN f'))) ∧
  (friendly fs → Forall (λ op, ∃ c, op = OpCall c) ops → grows fs.(names) fs'.(names)).
Proof.
  intros fs'. subst fs'. split.
  - intros Hc. assert (Hk : keeps_files fs (foldl (λ fs op, run_op op fs) fs ops)); [|exact Hk].
    revert fs Hc. induction ops as [|op ops IH]; intros fs Hc; cbn; [done|].
    destruct (run_op_whole op fs Hc) as [Hc1 Hk]. etrans; [exact Hk|by apply IH].
  - intros Hfr Hops. revert fs Hfr. induction Hops as [|op ops [c ->] _ IH]; intros fs Hfr; cbn; [done|].
    destruct (run_call_grows c fs Hfr) as [Hfr1 Hg]. etrans; [exact Hg|by apply IH].
Qed.

(** C35. First use agrees: processes that race to create the identity, and every
    later start, get the same token, and it is the one in the file. *)
Theorem first_use_agrees p fsA a fsA' fsB b fsB' fs :
  friendly fsA → load_or_create_at p fsA = (Ok a, fsA') →
  friendly fsB → load_or_create_at p fsB = (Ok b, fsB') →
  grows fsA'.(names) fs.(names) → grows fsB'.(names) fs.(names) →
  a = b ∧ holds p (bytes_list a) fs.
Proof.
  intros HfA HA HfB HB HgA HgB.
  apply (load_or_create_triple anything stable_anything) in HA as (_ & _ & HA); [|done..].
  apply (load_or_create_triple anything stable_anything) in HB as (_ & _ & HB); [|done..].
  destruct (HA a eq_refl) as [Ha _], (HB b eq_refl) as [Hb _].
  apply (holds_stable p _ _ fs) in Ha, Hb; try done. split; [|done]. by eapply holds_token.
Qed.

(** A preparation that was interrupted resumes: as long as nobody finishes,
    preparing the rotation again yields the same old and new tokens, the new one
    is on disk before it is used, and the identity in force is still the old. *)
Theorem rotation_resumes p fs1 pr fs1' fs2 pr' fs2' :
  friendly fs1 → prepare_rotation_at p fs1 = (Ok pr, fs1') →
  friendly fs2 → grows fs1'.(names) fs2.(names) → prepare_rotation_at p fs2 = (Ok pr', fs2') →
  pr' = pr ∧ pr.(rot_old_token) ≠ pr.(rot_new_token) ∧
  holds p (bytes_list pr.(rot_old_token)) fs2' ∧
  holds pr.(rot_pending_path) (bytes_list pr.(rot_new_token)) fs2'.
Proof.
  intros Hf1 H1 Hf2 Hg H2.
  apply (prepare_rotation_triple anything stable_anything) in H1 as (_ & _ & H1); [|done..].
  apply (prepare_rotation_triple anything stable_anything) in H2 as (_ & Hg2 & H2); [|done..].
  destruct (H1 pr eq_refl) as ((Hp & Hq & Hne) & (Ho & Hn) & _).
  destruct (H2 pr' eq_refl) as ((Hp' & Hq' & _) & (Ho' & Hn') & _).
  assert (Hg' : grows (names fs1') (names fs2')) by (by etrans).
  apply (holds_stable _ _ _ fs2') in Ho, Hn; try done.
  rewrite Hq in Hq'. injection Hq' as Hq'.
  rewrite <- Hq' in Hn'. pose proof (holds_token _ _ _ _ Ho Ho') as Eo.
  pose proof (holds_token _ _ _ _ Hn Hn') as En. split_and!; [|done..].
  destruct pr, pr'; cbn in *; congruence.
Qed.

(** Likewise for recovery, which needs no identity in force: the replacement
    token is the same at every attempt, and so is the identity it replaces once
    there is one. *)
Theorem recovery_resumes p fs1 pr fs1' fs2 pr' fs2' :
  friendly fs1 → prepare_recovery_at p fs1 = (Ok pr, fs1') →
  friendly fs2 → grows fs1'.(names) fs2.(names) → prepare_recovery_at p fs2 = (Ok pr', fs2') →
  pr'.(rec_new_token) = pr.(rec_new_token) ∧
  (∀ t t', pr.(rec_old_token) = Some t → pr'.(rec_old_token) = Some t' → t' = t) ∧
  holds pr.(rec_pending_path) (bytes_list pr.(rec_new_token)) fs2'.
Proof.
  intros Hf1 H1 Hf2 Hg H2.
  apply (prepare_recovery_triple anything stable_anything) in H1 as (_ & _ & H1); [|done..].
  apply (prepare_recovery_triple anything stable_anything) in H2 as (_ & Hg2 & H2); [|done..].
  destruct (H1 pr eq_refl) as ((Hp & Hq & _) & (Ho & Hn) & _).
  destruct (H2 pr' eq_refl) as ((Hp' & Hq' & _) & (Ho' & Hn') & _).
  assert (Hg' : grows (names fs1') (names fs2')) by (by etrans).
  apply (holds_stable _ _ _ fs2') in Hn; [|done].
  rewrite Hq in Hq'. injection Hq' as Hq'. rewrite <- Hq' in Hn'. split_and!; [|intros t t' Et Et'|done].
  - by eapply holds_token.
  - rewrite Et in Ho. rewrite Et' in Ho'. cbn in Ho, Ho'.
    apply (holds_stable _ _ _ fs2') in Ho; [|done]. by eapply holds_token.
Qed.


(** Storing a recovery secret: success leaves exactly that secret, and a
    failure leaves the previous file as it was or the new secret. *)
Theorem store_recovery_atomic p secret fs r fs' :
  friendly fs → store_recovery_at p secret fs = (r, fs') →
  match r with
  | Ok _ => holds p (bytes_list secret) fs'
  | Err _ => grows fs.(names) fs'.(names) ∨ holds p (bytes_list secret) fs'
  end.
Proof. intros Hfr Hrun. by apply store_recovery_spec. Qed.

(** A fresh token is handed out only when its file is complete and its
    directory entry survives a power loss. *)
Theorem created_token_is_durable p token fs fs' :
  friendly fs → create_new_private p token fs = (Ok true, fs') →
  holds p (bytes_list token) fs' ∧ fs'.(durable) !! p = fs'.(names) !! p.
Proof.
  intros Hfr Hrun.
  apply (create_new_private_triple anything stable_anything) in Hrun as (_ & _ & Hq); [|done..].
  by destruct (Hq true eq_refl).
Qed.

(** What is not a 32-byte regular file is never taken for an identity: a
    symbolic link, a directory or a file of another length at the path is
    refused by loading, reading and preparing a rotation, and stays as it is. *)
Theorem foreign_entry_refused p n fs :
  friendly fs → fs.(names) !! p = Some n →
  (∀ f, n = FileN f → length f.(data) ≠ 32%nat) →
  is_ok (load_or_create_at p fs).1 = false ∧
  is_ok (read_existing p fs).1 = false ∧
  is_ok (prepare_rotation_at p fs).1 = false ∧
  ∀ c, ∃ n', (run_call c fs).(names) !! p = Some n' ∧ same_entry n n'.
Proof.
  intros Hfr Hn Hlen.
  assert (Hno : ∀ fs' (t : TunnelToken), grows (names fs) (names fs') → ¬ holds p (bytes_list t) fs').
  { intros fs' t Hg (f' & Hf' & Hd & _). specialize (Hg p). rewrite Hn in Hg.
    destruct Hg as (n' & Hn' & Hs). rewrite Hn' in Hf'. simplify_eq.
    destruct n as [f| |]; try done. destruct Hs as [Hd' _]. apply (Hlen f eq_refl).
    by rewrite <- Hd', Hd, bytes_len. }
  split_and!.
  - destruct (load_or_create_at p fs) as [[t|e] fs'] eqn:E; [|done].
    apply (load_or_create_triple anything stable_anything) in E as (_ & Hg & Hq); [|done..].
    destruct (Hq t eq_refl) as [Ht _]. by destruct (Hno _ _ Hg Ht).
  - destruct (read_existing p fs) as [[t|e] fs'] eqn:E; [|done].
    apply (read_existing_triple anything stable_anything) in E as (_ & Hg & Hq); [|done..].
    destruct (Hq t eq_refl) as [Ht _]. by destruct (Hno _ _ Hg Ht).
  - destruct (prepare_rotation_at p fs) as [[pr|e] fs'] eqn:E; [|done].
    apply (prepare_rotation_triple anything stable_anything) in E as (_ & Hg & Hq); [|done..].
    destruct (Hq pr eq_refl) as (_ & [Ht _] & _). by destruct (Hno _ _ Hg Ht).
  - intros c. destruct (run_call_grows c fs Hfr) as [_ Hg]. specialize (Hg p). by rewrite Hn in Hg.
Qed.
End properties.

(** ** Recovery codes *)

(** C36. The recovery code is a faithful backup: printing a secret gives 64
    lower-case hex digits that parse back to it, also with white space around. *)
Theorem recovery_code_roundtrip (secret : TunnelToken) (ws1 ws2 : str) :
  forallb is_whitespace ws1 = true → forallb is_whitespace ws2 = true →
  length (format_recovery_code secret) = 64%nat ∧
  Forall (λ c, is_ascii_hexdigit c = true ∧ is_ascii_uppercase c = false)
         (format_recovery_code secret) ∧
  parse_recovery_code (ws1 ++ format_recovery_code secret ++ ws2) = Ok secret.
Proof.
  intros H1 H2. unfold format_recovery_code, parse_recovery_code. split_and!.
  - by rewrite length_hex_of, bytes_len.
  - eapply Forall_impl; [apply hex_of_chars|]. cbn. tauto.
  - rewrite trim_pad by done. unfold check. rewrite str_len_hex_of, hex_of_ascii, bytes_len. cbn -[parse_hex_bytes].
    by rewrite parse_hex_bytes_hex_of.
Qed.

(** The value of a hex digit, and of the first character of a pair, which may also
    be a plus sign. *)
Definition hex_value (c : Z) : Z := if c <=? 57 then c - 48 else if c <=? 70 then c - 55 else c - 87.
Definition lead_value (c : Z) : Z := if c =? 43 then 0 else hex_value c.

Lemma byte_value v x e : 0 ≤ v ≤ 255 →
  ok_or (Byte.of_N (Z.to_N v)) e = Ok x ↔ Z.of_N (Byte.to_N x) = v.
Proof.
  intros Hv. rewrite ok_or_ok. split.
  - intros Hx%Byte.to_of_N. lia.
  - intros <-. rewrite N2Z.id. apply Byte.of_to_N.
Qed.

Lemma hex_value_range c : is_ascii_hexdigit c = true → 0 ≤ hex_value c ≤ 15.
Proof. intros Hc. apply (hex_digit_range c). by rewrite hex_digit_spec, Hc. Qed.

Lemma u8_pair_value a b x : u8_from_str_radix_16 [a; b] = Ok x ↔
  (is_ascii_hexdigit a || (a =? 43)) && is_ascii_hexdigit b = true ∧
  Z.of_N (Byte.to_N x) = 16 * lead_value a + hex_value b.
Proof.
  rewrite <- u8_pair_ok. split; [intros Hx; split; [by rewrite Hx|]; revert Hx|intros [Hok Hx]; revert Hok Hx].
  all: rewrite ?u8_pair_ok; unfold u8_from_str_radix_16, lead_value;
    destruct (Z.eqb_spec a 43) as [->|Ha]; cbn [u8_digits]; rewrite !hex_digit_spec, ?orb_false_r, ?orb_true_r;
    try (destruct (is_ascii_hexdigit a) eqn:Ea; [pose proof (hex_value_range a Ea)|done]);
    try (destruct (is_ascii_hexdigit b) eqn:Eb; [pose proof (hex_value_range b Eb)|]); fold (hex_value b);
    try fold (hex_value a); repeat (rewrite (proj2 (Z.leb_le _ 255)) by lia);
    cbn [mbind option_bind andb ok_or]; try done.
  all: rewrite ?byte_value by lia; try lia.
Qed.

Lemma parse_hex_bytes_ok n s (secret : bytes n) : parse_hex_bytes n s = Ok secret ↔
  ∀ i, (i < n)%nat → ∃ x, bytes_list secret !! i = Some x ∧ u8_from_str_radix_16 (hex_pair s i) = Ok x.
Proof.
  unfold parse_hex_bytes. split.
  - intros (l & Hl & Ha)%result_bind_ok i Hi. apply ok_or_ok, to_array_Some in Ha. rewrite Ha.
    apply collect_ok in Hl. rewrite Forall2_lookup in Hl. specialize (Hl i).
    rewrite lookup_seq_lt in Hl by done. inversion Hl as [y x Hy|]; subst. by exists x.
  - intros Hall. assert (collect (λ i, u8_from_str_radix_16 (hex_pair s i)) (seq 0 n) = Ok (bytes_list secret)) as ->.
    + apply collect_ok, Forall2_same_length_lookup. rewrite length_seq, bytes_len. split; [done|].
      intros i j x [-> Hi]%lookup_seq Hx. destruct (Hall i Hi) as (y & Hy & Hp). assert (x = y) as -> by congruence. exact Hp.
    + cbn. by rewrite to_array_list.
Qed.

(** C37. What the parser accepts, exactly, and as which secret: 64 characters after
    trimming, in pairs whose second character is a hex digit and whose first is a
    hex digit or a plus sign; byte [i] of the secret is what the digits of pair [i]
    say, the first of them the more significant, and a plus sign counts as a zero.
    So a text with plus signs, which is no code of any secret, is taken for one. *)
Theorem recovery_code_accepts code secret :
  parse_recovery_code code = Ok secret ↔
  length (trim code) = 64%nat ∧ ∀ i, (i < 32)%nat → ∃ a b x,
    hex_pair (trim code) i = [a; b] ∧ bytes_list secret !! i = Some x ∧
    (is_ascii_hexdigit a || (a =? 43)) && is_ascii_hexdigit b = true ∧
    Z.of_N (Byte.to_N x) = 16 * lead_value a + hex_value b.
Proof.
  unfold parse_recovery_code, check. set (s := trim code). split.
  - destruct ((str_len s =? 64)%nat && is_ascii s) eqn:E; [|done].
    apply andb_true_iff in E as [El%Nat.eqb_eq Ha]. cbn -[parse_hex_bytes]. intros Hok.
    rewrite str_len_ascii in El by (by apply is_ascii_Forall). split; [done|]. intros i Hi.
    destruct (hex_pair_two s i) as (a & b & Hp); [lia|].
    assert (Hs : parse_hex_bytes 32 s = Ok secret) by (by destruct (parse_hex_bytes 32 s)).
    destruct (proj1 (parse_hex_bytes_ok _ _ _) Hs i Hi) as (x & Hx & Hv). rewrite Hp, u8_pair_value in Hv.
    by exists a, b, x.
  - intros [Hl Hall]. assert (Hasc : is_ascii s = true).
    { apply (ascii_of_pairs 32); [done|]. intros i Hi. destruct (Hall i Hi) as (a & b & x & Hp & _ & Hok & _).
      exists a, b. split; [done|]. by apply pair_chars_ascii. }
    rewrite Hasc, str_len_ascii, Hl by (by apply is_ascii_Forall). cbn -[parse_hex_bytes].
    assert (parse_hex_bytes 32 s = Ok secret) as ->; [|done].
    apply parse_hex_bytes_ok. intros i Hi. destruct (Hall i Hi) as (a & b & x & -> & Hx & Hv).
    exists x. by rewrite u8_pair_value.
Qed.

(** ** Concrete instances *)

#[local] Existing Instance posix_tempfile.
#[local] Existing Instance posix_laws.

Definition w_token (b : byte) : TunnelToken := repeat_byte 32 b.
Definition w_env : Env := {| HOME := Some ["home"]%string; USERPROFILE := None |}.
Definition w_path : Path := identity_path w_env.

(** An empty disk, a fault-free schedule and some randomness. *)
Definition w_fs : Fs :=
  {| names := ∅; durable := ∅; schedule := []; entropy := [w_token x01; w_token x02] |}.
(** After the first use, and after preparing a rotation. *)
Definition w_fs1 : Fs := (load_or_create_at w_path w_fs).2.
Definition w_fs2 : Fs := (prepare_rotation_at w_path w_fs1).2.
Definition w_pending : PendingRotation :=
  {| rot_path := w_path; rot_pending_path := with_file_name w_path "identity.bin.pending";
     rot_old_token := w_token x01; rot_new_token := w_token x02 |}.
Definition w_recovery : PendingRecovery :=
  {| rec_path := w_path; rec_pending_path := with_file_name w_path "identity.bin.pending";
     rec_old_token := Some (w_token x01); rec_new_token := w_token x02 |}.

(** A first use, a rotation and a stored key; at the rename of the installation
    another process has just installed the pending identity, and the call fails. *)
Definition w_intruder (m : gmap Path Node) : gmap Path Node :=
  match m !! with_file_name w_path "identity.bin.pending" with
  | Some n => <[w_path := n]> (delete (with_file_name w_path "identity.bin.pending") m)
  | None => m
  end.
Definition w_busy : Fs :=
  {| names := ∅; durable := ∅;
     schedule := replicate 27 {| meanwhile := id; fault := None; partial := 0 |} ++
       [{| meanwhile := w_intruder; fault := Some OtherKind; partial := 0 |}];
     entropy := [w_token x01; w_token x02] |}.
Definition w_ops : list identity_op :=
  [OpCall (CallLoad w_path); OpCall (CallPrepareRotation w_path); OpFinishRotation w_pending;
   OpStoreRecovery (recovery_path w_env) (w_token x03)].
Definition w_fs_run : Fs := foldl (λ fs op, run_op op fs) w_busy w_ops.

Lemma w_busy_civil : civil w_busy.
Proof.
  apply Forall_app. split; [apply Forall_replicate; by intros m|]. constructor; [|constructor]. intros m. cbn.
  unfold w_intruder. destruct (m !! _) as [n|] eqn:E; [by apply whole_move|reflexivity].
Qed.

Lemma identity_files_never_torn_witness :
  (data <$> (w_fs_run.(names) !! w_path ≫= λ n, match n with FileN f => Some f | _ => None end))
    = Some (bytes_list (w_token x02)) ∧
  (∀ p f, w_fs_run.(names) !! p = Some (FileN f) → complete f) ∧
  (∀ p f, w_fs_run.(durable) !! p = Some (FileN f) → complete f).
Proof.
  destruct (identity_files_never_torn w_ops w_busy) as [Hall _]. destruct (Hall w_busy_civil) as [Hn Hd].
  split; [vm_compute; reflexivity|]. split; intros p f Hp.
  - destruct (Hn p f Hp) as [?|(q & f0 & Hq & _)]; [done|discriminate].
  - destruct (Hd p f Hp) as [?|(q & f0 & [Hq|Hq] & _)]; [done|discriminate..].
Defined.

Lemma first_use_agrees_witness : w_token x01 = w_token x01 ∧ holds w_path (bytes_list (w_token x01)) w_fs1.
Proof.
  apply (first_use_agrees w_path w_fs (w_token x01) w_fs1 w_fs1 (w_token x01) w_fs1 w_fs1);
    [constructor|computed|constructor|computed|done|done].
Defined.

Lemma rotation_resumes_witness :
  w_pending = w_pending ∧ w_token x01 ≠ w_token x02 ∧
  holds w_path (bytes_list (w_token x01)) w_fs2 ∧
  holds (rot_pending_path w_pending) (bytes_list (w_token x02)) w_fs2.
Proof.
  apply (rotation_resumes w_path w_fs1 w_pending w_fs2 w_fs2 w_pending w_fs2);
    [constructor|computed|constructor|done|computed].
Defined.

Lemma recovery_resumes_witness :
  w_token x02 = w_token x02 ∧ (∀ t t', Some (w_token x01) = Some t → Some (w_token x01) = Some t' → t' = t) ∧
  holds (rec_pending_path w_recovery) (bytes_list (w_token x02)) w_fs2.
Proof.
  apply (recovery_resumes w_path w_fs1 w_recovery w_fs2 w_fs2 w_recovery w_fs2);
    [constructor|computed|constructor|done|computed].
Defined.


Lemma store_recovery_atomic_witness :
  holds (recovery_path w_env) (bytes_list (w_token x07))
    (store_recovery_at (recovery_path w_env) (w_token x07) w_fs1).2.
Proof.
  apply (store_recovery_atomic (recovery_path w_env) (w_token x07) w_fs1 (Ok tt));
    [constructor|computed].
Defined.

Lemma created_token_is_durable_witness :
  holds w_path (bytes_list (w_token x09)) (create_new_private w_path (w_token x09) w_fs).2 ∧
  (create_new_private w_path (w_token x09) w_fs).2.(durable) !! w_path
    = (create_new_private w_path (w_token x09) w_fs).2.(names) !! w_path.
Proof.
  apply (created_token_is_durable w_path (w_token x09) w_fs); [constructor|computed].
Defined.

(** A symbolic link where the identity should be. *)
Definition w_fs_link : Fs := set_names {[w_path := SymlinkN ["etc"; "shadow"]%string]} w_fs.

Lemma foreign_entry_refused_witness :
  is_ok (load_or_create_at w_path w_fs_link).1 = false ∧
  (∃ n', (run_call (CallLoad w_path) w_fs_link).(names) !! w_path = Some n' ∧
     same_entry (SymlinkN ["etc"; "shadow"]%string) n').
Proof.
  destruct (foreign_entry_refused w_path (SymlinkN ["etc"; "shadow"]%string) w_fs_link)
    as (Hload & _ & _ & Hkept); [constructor|reflexivity|by intros f|].
  split; [exact Hload|apply Hkept].
Defined.

Lemma recovery_code_roundtrip_witness :
  parse_recovery_code ([32; 9] ++ format_recovery_code (w_token xab) ++ [10]) = Ok (w_token xab).
Proof. apply recovery_code_roundtrip; reflexivity. Defined.

(** ["+f"] thirty-two times. *)
(** A text of plus signs and the digit [f] is taken for the secret of bytes 15; the
    code 1f, repeated, for the one of bytes 31. *)
Lemma recovery_code_accepts_witness :
  parse_recovery_code (mjoin (replicate 32 [43; 102])) = Ok (w_token x0f) ∧
  parse_recovery_code (mjoin (replicate 32 [49; 70])) = Ok (w_token x1f).
Proof.
  split; apply recovery_code_accepts; (split; [reflexivity|]); intros i Hi.
  - exists 43, 102, x0f. do 32 (destruct i as [|i]; [split_and!; reflexivity|]). lia.
  - exists 49, 70, x1f. do 32 (destruct i as [|i]; [split_and!; reflexivity|]). lia.
Defined.
