(* ===== verification/WindowsAcl.v ===== *)
(** The access control lists of Windows (crates/core/src/identity/windows_acl.rs):
    [set_owner_only] as a sequence of calls into Win32, with the two guards whose
    destructors release what it holds.  The calls are the interface [Win32];
    [Win32Laws] states what the Windows documentation says of them, each call's
    preconditions included. *)

From S2P Require Import Prelude.

(** ** Values *)

(** A [HANDLE] or pointer is its address; a file name is its UTF-16 code units,
    which is what [encode_wide] gives back of an [OsStr]. *)
Definition HANDLE := Z.
Definition pointer := Z.
Definition null : pointer := 0.
Definition WidePath := list Z.
Definition encode_wide (path : WidePath) : list Z := path.

(** [io::Error]: an operating-system code ([from_raw_os_error]), or [io::Error::other]. *)
Inductive io_error := Os (code : Z) | Other (text : string).

#[global] Instance io_error_eq_dec : EqDecision io_error.
Proof. solve_decision. Defined.

(** [status as i32] of a 32-bit status. *)
Definition as_i32 (status : Z) : Z :=
  if status <? 2147483648 then status else status - 4294967296.

(** [usize::div_ceil]. *)
Definition div_ceil (a b : Z) : Z := a / b + (if a mod b =? 0 then 0 else 1).

Module TRUSTEE_W.
Record t := {
  pMultipleTrustee : pointer;
  MultipleTrusteeOperation : Z;
  TrusteeForm : Z;
  TrusteeType : Z;
  ptstrName : pointer;
}.
End TRUSTEE_W.

Module EXPLICIT_ACCESS_W.
Record t := {
  grfAccessPermissions : Z;
  grfAccessMode : Z;
  grfInheritance : Z;
  Trustee : TRUSTEE_W.t;
}.
End EXPLICIT_ACCESS_W.

(** ** The calls *)

(** Constants of the headers and calls into the operating system.  An output
    parameter is a component of the result; memory a call reads through a pointer
    is an argument. *)
Class Win32 (W : Type) := {
  size_of_usize : Z;
  size_of_TOKEN_USER : Z;
  GENERIC_ALL : Z;
  SET_ACCESS : Z;
  NO_INHERITANCE : Z;
  TRUSTEE_IS_SID : Z;
  TRUSTEE_IS_USER : Z;
  SE_FILE_OBJECT : Z;
  DACL_SECURITY_INFORMATION : Z;
  PROTECTED_DACL_SECURITY_INFORMATION : Z;
  TOKEN_QUERY : Z;
  TokenUser : Z;
  GetCurrentProcess : HANDLE;
  OpenProcessToken (process : HANDLE) (access : Z) : W → (Z * HANDLE) * W;
  (** the buffer ([None]: a null pointer) and its length in bytes; the result, the
      buffer afterwards and the required length *)
  GetTokenInformation (token : HANDLE) (class : Z) (buffer : option (list Z)) (length : Z) :
    W → (Z * list Z * Z) * W;
  (** the entries, the old list, and the live memory the trustees point into *)
  SetEntriesInAclW (entries : list EXPLICIT_ACCESS_W.t) (old : pointer) (memory : list Z) :
    W → (Z * pointer) * W;
  SetNamedSecurityInfoW (name : list Z) (object : Z) (information : Z)
    (owner group dacl sacl : pointer) : W → Z * W;
  CloseHandle (handle : HANDLE) : W → W;
  LocalFree (memory : pointer) : W → W;
  last_os_error : W → Z;
}.

(** ** The state and error monad of [unsafe] code: [None] is undefined behaviour *)

Definition Unsafe (W A : Type) : Type := W → option ((A + io_error) * W).

#[global] Instance Unsafe_ret W : MRet (Unsafe W) := λ A a w, Some (inl a, w).
#[global] Instance Unsafe_bind W : MBind (Unsafe W) := λ A B f m w,
  match m w with
  | Some (inl a, w) => f a w
  | Some (inr e, w) => Some (inr e, w)
  | None => None
  end.
Definition call {W A} (f : W → A * W) : Unsafe W A := λ w, Some (inl (f w).1, (f w).2).
Definition throw {W A} (e : io_error) : Unsafe W A := λ w, Some (inr e, w).
Definition undefined {W A} : Unsafe W A := λ _, None.
(** A value with a destructor is in scope during [body], which may return early. *)
Definition scoped {W A} (drop : W → W) (body : Unsafe W A) : Unsafe W A := λ w,
  match body w with Some (r, w) => Some (r, drop w) | None => None end.

Section operations.
Context {W : Type} `{!Win32 W}.

(** [Err(io::Error::last_os_error())]. *)
Definition throw_last {A} : Unsafe W A := λ w, Some (inr (Os (last_os_error w)), w).

(** [GetTokenInformation] into a vector of words: a length past its end would let
    the call write beyond it. *)
Definition read_token (token : HANDLE) (data : list Z) (len : Z) : Unsafe W (Z * list Z * Z) :=
  if size_of_usize * Z.of_nat (length data) <? len then undefined
  else call (GetTokenInformation token TokenUser (Some data) len).

(** [( *(data.as_ptr() as *const TOKEN_USER)).User.Sid]: the first field of the
    structure, which has to lie inside the vector. *)
Definition user_sid (data : list Z) : Unsafe W pointer :=
  if size_of_usize * Z.of_nat (length data) <? size_of_TOKEN_USER then undefined
  else match data with sid :: _ => mret sid | [] => undefined end.

(** The destructors of [TokenHandle] and [LocalAcl]. *)
Definition TokenHandle_drop (token : HANDLE) : W → W := CloseHandle token.
Definition LocalAcl_drop (acl : pointer) : W → W := LocalFree acl.

Definition owner_entry (sid : pointer) : EXPLICIT_ACCESS_W.t := {|
  EXPLICIT_ACCESS_W.grfAccessPermissions := GENERIC_ALL;
  EXPLICIT_ACCESS_W.grfAccessMode := SET_ACCESS;
  EXPLICIT_ACCESS_W.grfInheritance := NO_INHERITANCE;
  EXPLICIT_ACCESS_W.Trustee := {|
    TRUSTEE_W.pMultipleTrustee := null;
    TRUSTEE_W.MultipleTrusteeOperation := 0;
    TRUSTEE_W.TrusteeForm := TRUSTEE_IS_SID;
    TRUSTEE_W.TrusteeType := TRUSTEE_IS_USER;
    TRUSTEE_W.ptstrName := sid;
  |};
|}.

Definition set_owner_only (path : WidePath) : Unsafe W unit :=
  '(opened, token) ← call (OpenProcessToken GetCurrentProcess TOKEN_QUERY);
  if opened =? 0 then throw_last else
  scoped (TokenHandle_drop token) (
    '(_, _, required) ← call (GetTokenInformation token TokenUser None 0);
    if required <? size_of_TOKEN_USER then throw_last else
    let words := div_ceil required size_of_usize in
    let data := replicate (Z.to_nat words) 0 in
    '(read, data, _) ← read_token token data required;
    if read =? 0 then throw_last else
    sid ← user_sid data;
    if sid =? null then throw (Other "Current user SID is missing") else
    let entry := owner_entry sid in
    '(status, acl) ← call (SetEntriesInAclW [entry] null data);
    if negb (status =? 0) then throw (Os (as_i32 status)) else
    scoped (LocalAcl_drop acl) (
      let wide := encode_wide path ++ [0] in
      status ← call (SetNamedSecurityInfoW wide SE_FILE_OBJECT
                       (Z.lor DACL_SECURITY_INFORMATION PROTECTED_DACL_SECURITY_INFORMATION)
                       null null acl null);
      if negb (status =? 0) then throw (Os (as_i32 status)) else mret tt)).
End operations.

(** ** What the documentation promises *)

(** A security identifier, an allow entry, and the list of a file; [protected]
    lists inherit nothing from the directory. *)
Definition Sid := Z.
Record Ace := { ace_sid : Sid; ace_mask : Z; ace_inheritance : Z }.
Record Dacl := { protected : bool; aces : list Ace }.

(** What the calls act on: the open handles, the access lists on the local heap,
    and the lists of files. *)
Record Os_view := {
  open_handles : gset HANDLE;
  local_acls : gmap pointer (list Ace);
  dacls : gmap WidePath Dacl;
}.

(** A name ends at its first zero. *)
Fixpoint until_nul (name : list Z) : list Z :=
  match name with [] => [] | c :: name => if c =? 0 then [] else c :: until_nul name end.

(** The entry that setting access for a SID adds to an empty list. *)
Definition allowed (psid : pointer → option Sid) `{Win32 W} (e : EXPLICIT_ACCESS_W.t) : option Ace :=
  sid ← psid e.(EXPLICIT_ACCESS_W.Trustee).(TRUSTEE_W.ptstrName);
  if (e.(EXPLICIT_ACCESS_W.grfAccessMode) =? SET_ACCESS)%Z &&
     (e.(EXPLICIT_ACCESS_W.Trustee).(TRUSTEE_W.TrusteeForm) =? TRUSTEE_IS_SID)%Z
  then Some {| ace_sid := sid; ace_mask := EXPLICIT_ACCESS_W.grfAccessPermissions e;
               ace_inheritance := EXPLICIT_ACCESS_W.grfInheritance e |}
  else None.

(** [view]: the part of the system the calls act on; [token_user]: the user the
    process runs as; [psid data p]: the SID at [p] while [data] is alive. *)
Class Win32Laws (W : Type) `{Win32 W} (view : W → Os_view) (token_user : Sid)
    (psid : list Z → pointer → option Sid) : Prop := {
  size_of_usize_law : 0 < size_of_usize;
  size_of_TOKEN_USER_law : size_of_usize ≤ size_of_TOKEN_USER;
  OpenProcessToken_law access w ok token w' :
    OpenProcessToken GetCurrentProcess access w = ((ok, token), w') →
    local_acls (view w') = local_acls (view w) ∧ dacls (view w') = dacls (view w) ∧
    if ok =? 0 then open_handles (view w') = open_handles (view w)
    else token ∉ open_handles (view w) ∧
         open_handles (view w') = {[token]} ∪ open_handles (view w);
  (** with no buffer it only tells the length *)
  GetTokenInformation_length_law token w ok buffer required w' :
    token ∈ open_handles (view w) →
    GetTokenInformation token TokenUser None 0 w = ((ok, buffer, required), w') →
    view w' = view w ∧ 0 ≤ required ≤ U32_MAX;
  (** with one that is as long as said, it writes the user's SID into it *)
  GetTokenInformation_law token data len w ok data' required w' :
    token ∈ open_handles (view w) → len ≤ size_of_usize * Z.of_nat (length data) →
    GetTokenInformation token TokenUser (Some data) len w = ((ok, data', required), w') →
    view w' = view w ∧ length data' = length data ∧
    (ok ≠ 0 → size_of_TOKEN_USER ≤ len → ∀ p, head data' = Some p → p ≠ null →
       psid data' p = Some token_user);
  SetEntriesInAclW_law entries memory list_of w status acl w' :
    mapM (allowed (psid memory)) entries = Some list_of →
    SetEntriesInAclW entries null memory w = ((status, acl), w') →
    open_handles (view w') = open_handles (view w) ∧ dacls (view w') = dacls (view w) ∧
    if status =? 0 then local_acls (view w) !! acl = None ∧
                        local_acls (view w') = <[acl := list_of]> (local_acls (view w))
    else local_acls (view w') = local_acls (view w);
  (** the name has to end; a failing call leaves every other file alone *)
  SetNamedSecurityInfoW_law name acl list_of w status w' :
    0 ∈ name → local_acls (view w) !! acl = Some list_of →
    SetNamedSecurityInfoW name SE_FILE_OBJECT
      (Z.lor DACL_SECURITY_INFORMATION PROTECTED_DACL_SECURITY_INFORMATION)
      null null acl null w = (status, w') →
    open_handles (view w') = open_handles (view w) ∧ local_acls (view w') = local_acls (view w) ∧
    if status =? 0
    then dacls (view w') = <[until_nul name := {| protected := true; aces := list_of |}]>
                             (dacls (view w))
    else ∀ q, q ≠ until_nul name → dacls (view w') !! q = dacls (view w) !! q;
  CloseHandle_law handle w : handle ∈ open_handles (view w) →
    view (CloseHandle handle w) =
      {| open_handles := open_handles (view w) ∖ {[handle]};
         local_acls := local_acls (view w); dacls := dacls (view w) |};
  LocalFree_law acl w : is_Some (local_acls (view w) !! acl) →
    view (LocalFree acl w) =
      {| open_handles := open_handles (view w);
         local_acls := delete acl (local_acls (view w)); dacls := dacls (view w) |};
}.
