(* ===== verification/WindowsAclProps.v ===== *)
(** [set_owner_only] on Windows: memory safety, release of what it holds, and the
    access it leaves, from what the documentation says of the calls. *)

From S2P Require Import Prelude WindowsAcl.

Lemma div_ceil_spec a b : 0 ≤ a → 0 < b → a ≤ b * div_ceil a b < a + b.
Proof.
  intros Ha Hb. unfold div_ceil. pose proof (Z.div_mod a b). pose proof (Z.mod_pos_bound a b Hb).
  destruct (Z.eqb_spec (a mod b) 0); nia.
Qed.

Lemma until_nul_terminated path : 0 ∉ path → until_nul (path ++ [0]) = path.
Proof.
  induction path as [|c path IH]; [done|]. rewrite not_elem_of_cons. intros [Hc Hp]. cbn.
  destruct (Z.eqb_spec c 0); [congruence|]. by rewrite IH.
Qed.

Section properties.
Context `{Win32Laws W view token_user psid}.
Implicit Types (w : W) (o : Os_view).

(** ** Runs with a postcondition on the system *)

(** From [w] the code is defined and leaves a result and a system in [Q]. *)
Definition runs {A} (m : Unsafe W A) w (Q : A + io_error → Os_view → Prop) : Prop :=
  ∃ r w', m w = Some (r, w') ∧ Q r (view w').

Lemma runs_call {A B} (f : W → A * W) (k : A → Unsafe W B) w Q :
  (∀ a w1, f w = (a, w1) → runs (k a) w1 Q) → runs (call f ≫= k) w Q.
Proof. unfold runs, call, mbind, Unsafe_bind. intros Hk. apply Hk. apply surjective_pairing. Qed.

Lemma runs_value {A B} (m : Unsafe W A) (k : A → Unsafe W B) w a w1 Q :
  m w = Some (inl a, w1) → runs (k a) w1 Q → runs (m ≫= k) w Q.
Proof. unfold runs, mbind, Unsafe_bind. by intros ->. Qed.

Lemma runs_throw {A} e w (Q : A + io_error → Os_view → Prop) :
  Q (inr e) (view w) → runs (throw e) w Q.
Proof. intros HQ. by exists (inr e), w. Qed.

Lemma runs_throw_last {A} w (Q : A + io_error → Os_view → Prop) :
  (∀ e, Q (inr e) (view w)) → runs throw_last w Q.
Proof. intros HQ. by eexists _, w. Qed.

Lemma runs_scoped {A} drop (m : Unsafe W A) w Q (Q' : A + io_error → Os_view → Prop) :
  runs m w Q' → (∀ r w', Q' r (view w') → Q r (view (drop w'))) → runs (scoped drop m) w Q.
Proof.
  intros (r & w' & Hrun & HQ) Himp. exists r, (drop w'). unfold scoped. rewrite Hrun. auto.
Qed.

(** ** The theorem's two halves *)

(** What [set_owner_only] may change: on success the file's list lets the user
    and nobody else in, and inherits nothing; no other file is touched. *)
Definition secured (path : WidePath) (m m' : gmap WidePath Dacl) (r : unit + io_error) : Prop :=
  match r with
  | inl _ => m' = <[path := {| protected := true;
                    aces := [{| ace_sid := token_user; ace_mask := GENERIC_ALL;
                                ace_inheritance := NO_INHERITANCE |}] |}]> m
  | inr _ => ∀ q, q ≠ path → m' !! q = m !! q
  end.

Lemma owner_allowed data sid : psid data sid = Some token_user →
  mapM (allowed (psid data)) [owner_entry sid]
    = Some [{| ace_sid := token_user; ace_mask := GENERIC_ALL; ace_inheritance := NO_INHERITANCE |}].
Proof. intros Hs. cbn. unfold allowed. cbn. rewrite Hs. cbn. by rewrite !Z.eqb_refl. Qed.

(** With the list on the heap: it is put on the file, and freed. *)
Lemma install_acl path acl w acls : 0 ∉ path → local_acls (view w) !! acl =
    Some [{| ace_sid := token_user; ace_mask := GENERIC_ALL; ace_inheritance := NO_INHERITANCE |}] →
  delete acl (local_acls (view w)) = acls →
  runs (scoped (LocalAcl_drop acl) (
    status ← call (SetNamedSecurityInfoW (encode_wide path ++ [0]) SE_FILE_OBJECT
                     (Z.lor DACL_SECURITY_INFORMATION PROTECTED_DACL_SECURITY_INFORMATION)
                     null null acl null);
    if negb (status =? 0) then throw (Os (as_i32 status)) else mret tt)) w
    (λ r o, open_handles o = open_handles (view w) ∧ local_acls o = acls ∧
            secured path (dacls (view w)) (dacls o) r).
Proof.
  intros Hp Hacl <-.
  apply (runs_scoped _ _ _ _ (λ r o, open_handles o = open_handles (view w) ∧
    local_acls o = local_acls (view w) ∧ secured path (dacls (view w)) (dacls o) r)).
  2:{ intros r w' (Ho & Hl & Hd). unfold LocalAcl_drop. rewrite LocalFree_law by (rewrite Hl; eauto).
      cbn. by rewrite Ho, Hl. }
  apply runs_call. intros status w' E. eapply SetNamedSecurityInfoW_law in E as (Ho & Hl & Hd);
    [|apply elem_of_app; right; by apply list_elem_of_singleton|done].
  unfold encode_wide in Hd. rewrite until_nul_terminated in Hd by done.
  destruct (status =? 0); cbn [negb]; [by exists (inl tt), w'|by apply runs_throw].
Qed.

Lemma read_token_run token data len w ok data' required w' :
  len ≤ size_of_usize * Z.of_nat (length data) →
  GetTokenInformation token TokenUser (Some data) len w = ((ok, data', required), w') →
  read_token token data len w = Some (inl (ok, data', required), w').
Proof.
  intros Hlen E. unfold read_token. destruct (Z.ltb_spec (size_of_usize * Z.of_nat (length data)) len); [lia|].
  unfold call. by rewrite E.
Qed.

Lemma user_sid_run data w : size_of_TOKEN_USER ≤ size_of_usize * Z.of_nat (length data) →
  ∃ sid, head data = Some sid ∧ user_sid data w = Some (inl sid, w).
Proof.
  intros Hlen. pose proof size_of_usize_law. pose proof size_of_TOKEN_USER_law. unfold user_sid.
  destruct (Z.ltb_spec (size_of_usize * Z.of_nat (length data)) size_of_TOKEN_USER); [lia|].
  destruct data as [|sid data]; [cbn in *; lia|]. by exists sid.
Qed.

(** C27. On Windows, [set_owner_only] is memory safe and leaves nothing behind: on
    every path, whatever call fails, the vector is as long as the length it
    passes and holds the structure it reads from it, the token is closed once and
    the access list freed once.  On success the file has a protected access list
    whose one entry gives the current user full control; no other file's list is
    ever touched. *)
Theorem set_owner_only_secures path w : 0 ∉ path →
  ∃ r w', set_owner_only path w = Some (r, w') ∧
    open_handles (view w') = open_handles (view w) ∧
    local_acls (view w') = local_acls (view w) ∧
    secured path (dacls (view w)) (dacls (view w')) r.
Proof.
  intros Hp. pose proof size_of_usize_law as Hu. pose proof size_of_TOKEN_USER_law as Ht.
  change (runs (set_owner_only path) w (λ r o, open_handles o = open_handles (view w) ∧
    local_acls o = local_acls (view w) ∧ secured path (dacls (view w)) (dacls o) r)).
  unfold set_owner_only.
  apply runs_call. intros [ok token] w1 E1. apply OpenProcessToken_law in E1 as (Hl1 & Hd1 & Ho1).
  destruct (ok =? 0). { apply runs_throw_last. intros e. by rewrite Ho1, Hl1, Hd1. }
  destruct Ho1 as [Hfresh Ho1]. assert (Hin : token ∈ open_handles (view w1)) by set_solver.
  apply (runs_scoped _ _ _ _ (λ r o, open_handles o = open_handles (view w1) ∧
    local_acls o = local_acls (view w) ∧ secured path (dacls (view w)) (dacls o) r)).
  2:{ intros r w' (Ho & Hl & Hd). unfold TokenHandle_drop. rewrite CloseHandle_law by (by rewrite Ho).
      cbn. split; [|done]. rewrite Ho, Ho1. set_solver. }
  rewrite <- Hl1, <- Hd1. clear Hl1 Hd1 Ho1 Hfresh.
  apply runs_call. intros [[ok2 b2] required] w2 E2. apply GetTokenInformation_length_law in E2 as [Hv2 Hr]; [|done].
  rewrite <- Hv2 in *. clear w1 Hv2.
  destruct (Z.ltb_spec required size_of_TOKEN_USER) as [|Hreq]; [by apply runs_throw_last|].
  destruct (div_ceil_spec required size_of_usize) as [Hceil _]; [lia..|].
  set (data := replicate _ 0).
  assert (Hlen : required ≤ size_of_usize * Z.of_nat (length data)).
  { unfold data. rewrite length_replicate, Z2Nat.id; [done|nia]. }
  destruct (GetTokenInformation token TokenUser (Some data) required w2)
    as [[[ok3 data'] required'] w3] eqn:E3.
  eapply runs_value; [by apply (read_token_run _ _ _ _ _ _ _ _ Hlen E3)|].
  apply GetTokenInformation_law in E3 as (Hv3 & Hlen' & Hsid); [|done..]. rewrite <- Hv3 in *.
  destruct (Z.eqb_spec ok3 0) as [|Hok3]; [by apply runs_throw_last|].
  destruct (user_sid_run data' w3) as (sid & Hhead & Hrun); [rewrite Hlen'; lia|].
  eapply runs_value; [exact Hrun|].
  destruct (Z.eqb_spec sid null) as [|Hnull]; [by apply runs_throw|].
  specialize (Hsid Hok3 Hreq sid Hhead Hnull).
  apply runs_call. intros [status acl] w4 E4.
  eapply SetEntriesInAclW_law in E4 as (Ho4 & Hd4 & Hl4); [|by apply owner_allowed].
  rewrite <- Ho4, <- Hd4.
  destruct (status =? 0); cbn [negb]; [|by apply runs_throw].
  destruct Hl4 as [Hacl Hl4]. apply install_acl; [done|by rewrite Hl4, lookup_insert_eq|].
  rewrite Hl4. by apply delete_insert_id.
Qed.
End properties.

(** ** A system in which the calls behave *)

Module Sample.
Record World := { os : Os_view; read_only : gset WidePath; last : Z }.
Definition user : Sid := 1001.
Definition set_os (o : Os_view) (w : World) : World :=
  {| os := o; read_only := read_only w; last := last w |}.
Definition psid (data : list Z) (p : pointer) : option Sid := data !! 2%nat.

Definition entry_ace (memory : list Z) (e : EXPLICIT_ACCESS_W.t) : option Ace :=
  (λ sid, {| ace_sid := sid; ace_mask := e.(EXPLICIT_ACCESS_W.grfAccessPermissions);
             ace_inheritance := e.(EXPLICIT_ACCESS_W.grfInheritance) |})
  <$> psid memory e.(EXPLICIT_ACCESS_W.Trustee).(TRUSTEE_W.ptstrName).

#[global] Instance win32 : Win32 World := {
  size_of_usize := 8; size_of_TOKEN_USER := 16;
  GENERIC_ALL := 268435456; SET_ACCESS := 2; NO_INHERITANCE := 0;
  TRUSTEE_IS_SID := 0; TRUSTEE_IS_USER := 1; SE_FILE_OBJECT := 1;
  DACL_SECURITY_INFORMATION := 4; PROTECTED_DACL_SECURITY_INFORMATION := 2147483648;
  TOKEN_QUERY := 8; TokenUser := 1; GetCurrentProcess := -1;
  OpenProcessToken process access w :=
    let token := fresh (open_handles (os w)) in
    ((1, token), set_os {| open_handles := {[token]} ∪ open_handles (os w);
                           local_acls := local_acls (os w); dacls := dacls (os w) |} w);
  GetTokenInformation token class buffer len w :=
    match buffer with
    | Some data => if len <? 24 then ((0, data, 24), w)
                   else ((1, <[2%nat := user]> (<[0%nat := 4096]> data), 24), w)
    | None => ((0, [], 24), w)
    end;
  SetEntriesInAclW entries old memory w :=
    ((0, fresh (dom (local_acls (os w)))),
     set_os {| open_handles := open_handles (os w);
               local_acls := <[fresh (dom (local_acls (os w))) :=
                                default [] (mapM (entry_ace memory) entries)]>
                               (local_acls (os w));
               dacls := dacls (os w) |} w);
  SetNamedSecurityInfoW name object information owner group dacl sacl w :=
    if bool_decide (until_nul name ∈ read_only w) then (5, w)
    else (0, set_os {| open_handles := open_handles (os w); local_acls := local_acls (os w);
                       dacls := <[until_nul name := {| protected := true;
                                    aces := default [] (local_acls (os w) !! dacl) |}]>
                                  (dacls (os w)) |} w);
  CloseHandle handle w :=
    set_os {| open_handles := open_handles (os w) ∖ {[handle]};
              local_acls := local_acls (os w); dacls := dacls (os w) |} w;
  LocalFree acl w :=
    set_os {| open_handles := open_handles (os w); local_acls := delete acl (local_acls (os w));
              dacls := dacls (os w) |} w;
  last_os_error := last;
}.

Lemma allowed_entry memory e a : allowed (psid memory) e = Some a → entry_ace memory e = Some a.
Proof.
  unfold allowed, entry_ace. destruct (psid memory _); cbn; [|done]. by case_match.
Qed.

#[global] Instance win32_laws : Win32Laws World os user psid.
Proof.
  split; try done.
  - intros access w ok token w' [= <- <- <-]. cbn. split_and!; [done..|apply is_fresh|done].
  - intros token w ok buffer required w' _ [= <- <- <- <-]. by cbv.
  - intros token data len w ok data' required w' _ Hlen.
    change (len ≤ 8 * Z.of_nat (length data)) in Hlen. cbn.
    destruct (Z.ltb_spec len 24); intros [= <- <- <- <-]; [done|].
    rewrite !length_insert. split_and!; [done..|]. intros _ _ p _ _. unfold psid.
    rewrite list_lookup_insert_eq; [done|]. rewrite length_insert. change Sid with Z. lia.
  - intros entries memory list_of w status acl w' Hm [= <- <- <-]. cbn. split_and!; [done..| |].
    + apply not_elem_of_dom, is_fresh.
    + assert (mapM (entry_ace memory) entries = Some list_of) as ->; [|done].
      apply mapM_Some in Hm. apply mapM_Some. eapply Forall2_impl; [done|]. apply allowed_entry.
  - intros name acl list_of w status w' _ Hacl. cbn.
    case_bool_decide; intros [= <- <-]; [done|]. cbn. by rewrite Hacl.
Qed.

(** One file that cannot be changed. *)
Definition start : World :=
  {| os := {| open_handles := {[7]}; local_acls := ∅; dacls := {[ [104] := {| protected := false; aces := [] |} ]} |};
     read_only := {[ [99] ]}; last := 6 |}.
End Sample.

Lemma set_owner_only_secures_witness :
  ∃ r w', set_owner_only [104] Sample.start = Some (r, w') ∧
    open_handles (Sample.os w') = open_handles (Sample.os Sample.start) ∧
    local_acls (Sample.os w') = local_acls (Sample.os Sample.start) ∧
    secured (token_user := Sample.user) [104] (dacls (Sample.os Sample.start))
      (dacls (Sample.os w')) r.
Proof.
  apply (set_owner_only_secures (view := Sample.os) (psid := Sample.psid)).
  intros H%list_elem_of_singleton. discriminate H.
Defined.

Example set_owner_only_owner :
  ((λ rw, (rw.1, dacls (Sample.os rw.2) !! [104])) <$> set_owner_only [104] Sample.start)
  = Some (inl (), Some {| protected := true; aces := [{| ace_sid := 1001; ace_mask := 268435456;
                                                         ace_inheritance := 0 |}] |}).
Proof. vm_compute. reflexivity. Qed.

Example set_owner_only_denied :
  fst <$> set_owner_only [99] Sample.start = Some (inr (Os 5)).
Proof. vm_compute. reflexivity. Qed.
