(* ===== verification/FsAlone.v ===== *)
(** The file system without interference: what single calls do to the contents
    of files, under every schedule of faults. *)

From Stdlib Require Import Strings.Byte.
From S2P Require Import Prelude Bytes Fs FsLogic.

(** What is to be seen at a path. *)
Inductive view := Absent | Content (bs : list byte) | Special (n : Node).
Definition view_at (m : gmap Path Node) (p : Path) : view :=
  match m !! p with
  | None => Absent
  | Some (FileN f) => Content f.(data)
  | Some n => Special n
  end.

Lemma view_content m p bs : view_at m p = Content bs ↔ ∃ f, m !! p = Some (FileN f) ∧ f.(data) = bs.
Proof.
  unfold view_at. destruct (m !! p) as [[f| |]|]; split; try naive_solver.
Qed.

Lemma view_absent m p : view_at m p = Absent ↔ m !! p = None.
Proof. unfold view_at. destruct (m !! p) as [[f| |]|]; naive_solver. Qed.

Lemma view_insert_eq m p f : view_at (<[p := FileN f]> m) p = Content f.(data).
Proof. unfold view_at. by rewrite lookup_insert_eq. Qed.

Lemma view_insert_ne m p q n : p ≠ q → view_at (<[p := n]> m) q = view_at m q.
Proof. intros. unfold view_at. by rewrite lookup_insert_ne. Qed.

(** ** One call *)

Lemma tick_alone fs r fs' : alone fs → tick fs = (r, fs') →
  alone fs' ∧ fs'.(names) = fs.(names).
Proof.
  unfold tick, alone. intros Ha. destruct (schedule fs) as [|t ts] eqn:E.
  - intros [= <- <-]. by rewrite E.
  - apply Forall_cons in Ha as [Ht Hts]. intros [= <- <-]. cbn. by rewrite Ht.
Qed.

Lemma env_steps_alone fs fs' : alone fs → env_steps fs fs' →
  alone fs' ∧ fs'.(names) = fs.(names).
Proof.
  intros Ha (pre & post & Hs & ->). unfold alone in *. rewrite Hs in Ha. cbn.
  apply Forall_app in Ha as [Hpre Hpost]. split; [done|]. clear -Hpre.
  generalize (names fs). induction Hpre as [|t pre Ht _ IH]; intros m; cbn; [done|].
  by rewrite Ht, IH.
Qed.

(** Calls that leave the entries as they are. *)
Definition observer {A} (m : M Fs A) : Prop :=
  ∀ fs r fs', alone fs → m fs = (r, fs') → alone fs' ∧ fs'.(names) = fs.(names).

Lemma observer_tick : observer tick.
Proof. intros fs r fs'. apply tick_alone. Qed.
Lemma observer_lift {A} (x : result A) : observer (lift x).
Proof. by intros fs r fs' Ha [= <- <-]. Qed.
Lemma observer_ret {A} (x : A) : observer (mret x : M Fs A).
Proof. by intros fs r fs' Ha [= <- <-]. Qed.
Lemma observer_fail {A} e : observer (fail e : M Fs A).
Proof. by intros fs r fs' Ha [= <- <-]. Qed.
Lemma observer_get : observer get.
Proof. by intros fs r fs' Ha [= <- <-]. Qed.
Lemma observer_ensure b e : observer (ensure b e).
Proof. by intros fs r fs' Ha [= <- <-]. Qed.
Lemma observer_bind {A B} (m : M Fs A) (f : A → M Fs B) :
  observer m → (∀ a, observer (f a)) → observer (m ≫= f).
Proof.
  intros Hm Hf fs r fs' Ha. unfold mbind, M_bind. destruct (m fs) as [[a|e] fs1] eqn:E.
  - intros Hrun. destruct (Hm _ _ _ Ha E) as [Ha1 <-]. by eapply Hf.
  - intros [= <- <-]. by eapply Hm.
Qed.
Lemma observer_attempt {A} (m : M Fs A) : observer m → observer (attempt m).
Proof.
  intros Hm fs r fs' Ha. unfold attempt. destruct (m fs) as [r1 fs1] eqn:E. intros [= <- <-].
  by eapply Hm.
Qed.

Create HintDb observers.
#[export] Hint Resolve observer_tick observer_lift observer_ret observer_fail observer_get
  observer_ensure observer_bind observer_attempt : observers.
Ltac observe := repeat first [apply observer_bind; [|intros ?] | progress eauto with observers].

Lemma observer_symlink_metadata p : observer (symlink_metadata p).
Proof. unfold symlink_metadata. observe. Qed.
Lemma observer_metadata p : observer (metadata p).
Proof. unfold metadata. observe. Qed.
Lemma observer_read p : observer (fs_read p).
Proof. unfold fs_read. observe. Qed.
Lemma observer_temp_write bs t : observer (temp_write_all bs t).
Proof. unfold temp_write_all. observe. Qed.
Lemma observer_temp_sync t : observer (temp_sync_all t).
Proof. unfold temp_sync_all. observe. Qed.
Lemma observer_temp_owner t : observer (temp_set_owner_only t).
Proof. unfold temp_set_owner_only. observe. Qed.
Lemma observer_sync_directory d : observer (sync_directory d).
Proof.
  unfold sync_directory. do 2 (apply observer_bind; [apply observer_tick|intros ?]).
  intros fs r fs' Ha [= <- <-]. done.
Qed.
Lemma observer_new_in `{TempfileLaws} d : observer (new_in d).
Proof.
  intros fs r fs' Ha Hrun. destruct (new_in_law d fs) as (fs1 & He & H1 & _).
  rewrite Hrun in H1. cbn in H1. subst. by apply env_steps_alone.
Qed.
#[export] Hint Resolve observer_symlink_metadata observer_metadata observer_read observer_temp_write
  observer_temp_sync observer_temp_owner observer_sync_directory observer_new_in : observers.

(** Calls that make nothing durable. *)
Definition volatile {A} (m : M Fs A) : Prop :=
  ∀ fs r fs', m fs = (r, fs') → fs'.(durable) = fs.(durable).

Lemma volatile_tick : volatile tick.
Proof. intros fs r fs'. unfold tick. by case_match; intros [= <- <-]. Qed.
Lemma volatile_lift {A} (x : result A) : volatile (lift x).
Proof. by intros fs r fs' [= <- <-]. Qed.
Lemma volatile_ret {A} (x : A) : volatile (mret x : M Fs A).
Proof. by intros fs r fs' [= <- <-]. Qed.
Lemma volatile_fail {A} e : volatile (fail e : M Fs A).
Proof. by intros fs r fs' [= <- <-]. Qed.
Lemma volatile_get : volatile get.
Proof. by intros fs r fs' [= <- <-]. Qed.
Lemma volatile_ensure b e : volatile (ensure b e).
Proof. by intros fs r fs' [= <- <-]. Qed.
Lemma volatile_bind {A B} (m : M Fs A) (f : A → M Fs B) :
  volatile m → (∀ a, volatile (f a)) → volatile (m ≫= f).
Proof.
  intros Hm Hf fs r fs'. unfold mbind, M_bind. destruct (m fs) as [[a|e] fs1] eqn:E.
  - intros Hrun. apply Hm in E as <-. by eapply Hf.
  - intros [= <- <-]. by eapply Hm.
Qed.
Lemma volatile_attempt {A} (m : M Fs A) : volatile m → volatile (attempt m).
Proof.
  intros Hm fs r fs'. unfold attempt. destruct (m fs) as [r1 fs1] eqn:E. intros [= <- <-].
  by eapply Hm.
Qed.
Create HintDb volatile.
#[export] Hint Resolve volatile_tick volatile_lift volatile_ret volatile_fail volatile_get
  volatile_ensure volatile_bind volatile_attempt : volatile.
Ltac volatile := repeat first [apply volatile_bind; [|intros ?] | progress eauto with volatile].

Lemma volatile_metadata p : volatile (metadata p).
Proof. unfold metadata. volatile. Qed.
Lemma volatile_read p : volatile (fs_read p).
Proof. unfold fs_read. volatile. Qed.
Lemma volatile_temp_write bs t : volatile (temp_write_all bs t).
Proof. unfold temp_write_all. volatile. Qed.
Lemma volatile_temp_sync t : volatile (temp_sync_all t).
Proof. unfold temp_sync_all. volatile. Qed.
Lemma volatile_temp_owner t : volatile (temp_set_owner_only t).
Proof. unfold temp_set_owner_only. volatile. Qed.
Lemma volatile_new_in `{TempfileLaws} d : volatile (new_in d).
Proof.
  intros fs r fs' Hrun. destruct (new_in_law d fs) as (fs1 & (pre & post & _ & ->) & H1 & _).
  rewrite Hrun in H1. cbn in H1. by subst.
Qed.
Lemma volatile_persist `{TempfileLaws} t p : volatile (persist t p).
Proof.
  intros fs r fs' Hrun. destruct (persist_law t p fs) as (fs1 & (pre & post & _ & ->) & H1).
  rewrite Hrun in H1. cbn in H1. destruct r; by subst.
Qed.
#[export] Hint Resolve volatile_metadata volatile_read volatile_temp_write volatile_temp_sync
  volatile_temp_owner volatile_new_in volatile_persist : volatile.

(** A directory that could not be synced has not become durable. *)
Lemma sync_directory_failed d fs e fs' : sync_directory d fs = (Err e, fs') →
  fs'.(durable) = fs.(durable).
Proof.
  unfold sync_directory. intros [Ht|(u & fs1 & Ht & Hrun)]%M_bind_err; [by apply volatile_tick in Ht|].
  apply volatile_tick in Ht as <-. apply M_bind_err in Hrun as [Ht|(u2 & fs2 & _ & Hrun)].
  - by apply volatile_tick in Ht.
  - discriminate Hrun.
Qed.

(** Calls that leave a disk without other writers. *)
Definition stays_alone {A} (m : M Fs A) : Prop :=
  ∀ fs r fs', alone fs → m fs = (r, fs') → alone fs'.

Lemma observer_stays_alone {A} (m : M Fs A) : observer m → stays_alone m.
Proof. intros Hm fs r fs' Ha Hrun. by apply (Hm _ _ _ Ha Hrun). Qed.
Lemma stays_alone_bind {A B} (m : M Fs A) (f : A → M Fs B) :
  stays_alone m → (∀ a, stays_alone (f a)) → stays_alone (m ≫= f).
Proof.
  intros Hm Hf fs r fs' Ha. unfold mbind, M_bind. destruct (m fs) as [[a|e] fs1] eqn:E.
  - intros Hrun. apply Hm in E; [|done]. by eapply Hf.
  - intros [= <- <-]. by eapply Hm.
Qed.
Lemma stays_alone_set_names f : stays_alone (λ fs, (Ok tt, set_names (f fs) fs)).
Proof. by intros fs r fs' Ha [= <- <-]. Qed.

(** What the observers report. *)
Lemma symlink_metadata_ok p fs n fs' : alone fs → symlink_metadata p fs = (Ok n, fs') →
  fs.(names) !! p = Some n.
Proof.
  intros Ha Hrun. unfold symlink_metadata in Hrun. inv_ok.
  match goal with H : tick _ = _ |- _ => destruct (tick_alone _ _ _ Ha H) as [_ <-] end. done.
Qed.

Lemma fs_read_ok p bs fs bs' fs' : alone fs → view_at fs.(names) p = Content bs →
  fs_read p fs = (Ok bs', fs') → bs' = bs.
Proof.
  intros Ha (f & Hf & <-)%view_content Hrun. unfold fs_read in Hrun. inv_ok.
  match goal with H : tick _ = _ |- _ => destruct (tick_alone _ _ _ Ha H) as [_ Hn] end.
  rewrite Hn in *. pose proof (resolve_file 40 _ _ _ Hf).
  assert (a1 = p) as -> by congruence. assert (a2 = FileN f) as -> by congruence. by simplify_eq.
Qed.

(** ** Two files

    The contents at two paths [p] and [b] along a run: [Ψ] holds of the result
    and the contents after a success, [Ε] of the contents after a failure. *)
Section two_files.
Context (p b : Path).

Definition shows (Φ : view → view → Prop) (fs : Fs) : Prop :=
  Φ (view_at fs.(names) p) (view_at fs.(names) b).

Definition run2 {A} (Φ : view → view → Prop) (m : M Fs A) (Ψ : A → view → view → Prop)
    (Ε : view → view → Prop) : Prop :=
  ∀ fs r fs', alone fs → shows Φ fs → m fs = (r, fs') →
    alone fs' ∧ match r with Ok a => shows (Ψ a) fs' | Err _ => shows Ε fs' end.

Lemma run2_bind {A B} Φ (m : M Fs A) Ψ (f : A → M Fs B) Ψ' Ε :
  run2 Φ m Ψ Ε → (∀ a, run2 (Ψ a) (f a) Ψ' Ε) → run2 Φ (m ≫= f) Ψ' Ε.
Proof.
  intros Hm Hf fs r fs' Ha HΦ Hrun. unfold mbind, M_bind in Hrun.
  destruct (m fs) as [[a|e] fs1] eqn:E.
  - destruct (Hm _ _ _ Ha HΦ E) as [Ha1 HΨ]. by eapply Hf.
  - destruct (Hm _ _ _ Ha HΦ E) as [Ha1 HΕ]. by simplify_eq.
Qed.

Lemma run2_conseq {A} Φ Φ' (m : M Fs A) Ψ Ψ' Ε Ε' :
  run2 Φ' m Ψ' Ε' → (∀ x y, Φ x y → Φ' x y) → (∀ a x y, Ψ' a x y → Ψ a x y) →
  (∀ x y, Ε' x y → Ε x y) → run2 Φ m Ψ Ε.
Proof.
  intros Hm H1 H2 H3 fs r fs' Ha HΦ Hrun.
  destruct (Hm fs r fs' Ha (H1 _ _ HΦ) Hrun) as [Ha' Hr]. split; [done|].
  destruct r; [by apply H2|by apply H3].
Qed.

Lemma run2_post {A} Φ (m : M Fs A) Ψ Ψ' Ε Ε' :
  run2 Φ m Ψ' Ε' → (∀ a x y, Ψ' a x y → Ψ a x y) → (∀ x y, Ε' x y → Ε x y) → run2 Φ m Ψ Ε.
Proof. intros Hm H2 H3. by eapply run2_conseq. Qed.

Lemma run2_observe {A} Φ (m : M Fs A) : observer m → run2 Φ m (λ _, Φ) Φ.
Proof.
  intros Hm fs r fs' Ha HΦ Hrun. destruct (Hm _ _ _ Ha Hrun) as [Ha' Hn]. split; [done|].
  unfold shows in *. rewrite Hn. by destruct r.
Qed.

Lemma run2_fail {A} Φ e (Ψ : A → view → view → Prop) : run2 Φ (fail e) Ψ Φ.
Proof. by intros fs r fs' Ha HΦ [= <- <-]. Qed.

Lemma run2_or {A} Φ1 Φ2 (m : M Fs A) Ψ Ε :
  run2 Φ1 m Ψ Ε → run2 Φ2 m Ψ Ε → run2 (λ x y, Φ1 x y ∨ Φ2 x y) m Ψ Ε.
Proof. intros H1 H2 fs r fs' Ha [HΦ|HΦ]; [by apply H1|by apply H2]. Qed.

Lemma run2_pure {A} (φ : Prop) Φ (m : M Fs A) Ψ Ε :
  (φ → run2 Φ m Ψ Ε) → run2 (λ x y, φ ∧ Φ x y) m Ψ Ε.
Proof. intros H fs r fs' Ha [Hφ HΦ] Hrun. by eapply H. Qed.

Lemma run2_lift {A} Φ (x : result A) : run2 Φ (lift x : M Fs A) (λ a v w, x = Ok a ∧ Φ v w) Φ.
Proof. intros fs r fs' Ha HΦ [= <- <-]. split; [done|]. by destruct x. Qed.

Lemma run2_ensure Φ c e : run2 Φ (ensure c e : M Fs unit) (λ _ v w, c = true ∧ Φ v w) Φ.
Proof. intros fs r fs' Ha HΦ [= <- <-]. split; [done|]. by destruct c. Qed.

(** Calls that change flags, not contents. *)
Lemma view_make_private m q n q' : m !! q = Some n →
  view_at (<[q := make_private n]> m) q' = view_at m q'.
Proof.
  intros Hq. unfold view_at. destruct (decide (q = q')) as [<-|Hne].
  - rewrite lookup_insert_eq, Hq. by destruct n.
  - by rewrite lookup_insert_ne.
Qed.

Lemma run2_set_permissions Φ q : run2 Φ (set_permissions q) (λ _, Φ) Φ.
Proof.
  unfold set_permissions. apply run2_bind with (Ψ := λ _, Φ); [apply run2_observe, observer_tick|].
  intros ? fs r fs' Ha HΦ Hrun. unfold get, lift, put, mbind, M_bind in Hrun.
  destruct (resolve _ _ _) as [q'|]; cbn in Hrun; [|by simplify_eq].
  destruct (names fs !! q') as [n|] eqn:Hn; cbn in Hrun; simplify_eq; [|done].
  split; [done|]. unfold shows. cbn. by rewrite !(view_make_private _ _ _ _ Hn).
Qed.

Lemma run2_sync_file Φ q : run2 Φ (sync_file q) (λ _, Φ) Φ.
Proof.
  unfold sync_file. do 2 (apply run2_bind with (Ψ := λ _, Φ);
    [apply run2_observe, observer_tick|intros ?]).
  intros fs r fs' Ha HΦ Hrun. unfold get, fail, put, mbind, M_bind in Hrun.
  destruct (names fs !! q) as [[f| |]|] eqn:Hn; simplify_eq; try done.
  split; [done|]. unfold shows in *. cbn. assert (Hv : ∀ q', view_at (<[q:=FileN
    {| data := data f; private := private f; synced := true |}]> (names fs)) q' = view_at (names fs) q').
  { intros q'. unfold view_at. destruct (decide (q = q')) as [<-|Hne].
    - by rewrite lookup_insert_eq, Hn.
    - by rewrite lookup_insert_ne. }
  by rewrite !Hv.
Qed.

(** Calls that change contents. *)
Context (Hpb : p ≠ b).

Lemma run2_read_p Φ bs : (∀ x y, Φ x y → x = Content bs) →
  run2 Φ (fs_read p) (λ got x y, got = bs ∧ Φ x y) Φ.
Proof.
  intros HΦ fs r fs' Ha Hs Hrun. destruct (observer_read _ _ _ _ Ha Hrun) as [Ha' Hn].
  split; [done|]. unfold shows in *. rewrite Hn. destruct r as [got|]; [|done].
  split; [|done]. eapply fs_read_ok; [exact Ha| |exact Hrun]. by eapply HΦ.
Qed.

Lemma run2_read_b Φ : (∀ x y, Φ x y → y = Absent ∨ ∃ c, y = Content c) →
  run2 Φ (fs_read b) (λ got x y, y = Content got ∧ Φ x y) Φ.
Proof.
  intros HΦ fs r fs' Ha Hs Hrun. destruct (observer_read _ _ _ _ Ha Hrun) as [Ha' Hn].
  split; [done|]. unfold shows in *. rewrite Hn. destruct r as [got|]; [|done].
  split; [|done]. destruct (HΦ _ _ Hs) as [Hy|[c Hy]].
  - exfalso. apply view_absent in Hy. unfold fs_read in Hrun. inv_ok.
    match goal with H : tick _ = _ |- _ => destruct (tick_alone _ _ _ Ha H) as [_ Hn'] end.
    assert (Hres : resolve 40 (names fs) b = Some b) by (cbn; by rewrite Hy).
    rewrite Hn' in *. congruence.
  - rewrite Hy. f_equal. symmetry. by apply (fs_read_ok b c fs got fs').
Qed.

Lemma run2_create_b Φ :
  run2 Φ (create_new b) (λ _ x y, y = Content [] ∧ Φ x Absent) Φ.
Proof.
  unfold create_new. apply run2_bind with (Ψ := λ _, Φ); [apply run2_observe, observer_tick|].
  intros ? fs r fs' Ha HΦ Hrun. unfold get, ensure, put, mbind, M_bind in Hrun.
  case_bool_decide as Hb; cbn in Hrun; [|by simplify_eq].
  case_bool_decide; cbn in Hrun; simplify_eq; [|done]. split; [done|].
  apply view_absent in Hb. unfold shows in *. cbn. rewrite view_insert_eq, view_insert_ne by done.
  split; [done|]. by rewrite <- Hb.
Qed.

Lemma run2_write_b Θ c bs :
  run2 (λ x y, Θ x ∧ y = Content c) (file_write_all b bs)
    (λ _ x y, Θ x ∧ y = Content (c ++ bs)) (λ x y, Θ x ∧ ∃ k, y = Content (c ++ take k bs)).
Proof.
  intros fs r fs' Ha [HΘ Hy] Hrun. unfold file_write_all in Hrun.
  destruct (tick fs) as [r1 fs1] eqn:E. destruct (tick_alone _ _ _ Ha E) as [Ha1 Hn1].
  apply view_content in Hy as (f & Hf & <-).
  assert (Happ : ∀ l, view_at (append b l (names fs1)) p = view_at (names fs) p ∧
    view_at (append b l (names fs1)) b = Content (data f ++ l)).
  { intros l. unfold append. rewrite Hn1, Hf, view_insert_eq, view_insert_ne by done. done. }
  unfold shows in *. destruct r1 as [u|e]; simplify_eq; split; try done; cbn.
  - by destruct (Happ bs) as [-> ->].
  - destruct (Happ (take (default 0%nat (partial <$> head (schedule fs))) bs)) as [-> ->]. eauto.
Qed.
End two_files.
