(* ===== verification/LeaseStore.v ===== *)
(** The relay's state file (crates/server/src/lease_store.rs).  [serde_json] and
    [tempfile] are parameters. *)

From Stdlib Require Import Strings.Byte.
From S2P Require Import Prelude Bytes HostAdmission LeaseTable Fs.

Definition MAX_STATE_BYTES : Z := 1024 * 1024.

(** ** The persisted form *)

Module PersistedLease.
Record t := {
  token_id : str;
  retired_token_id : option str;
  retired_token_ids : list str;
  recovery_id : option str;
  port : Z;
  last_ip : option IpAddr;
  expires_at_ms : Z;
}.
End PersistedLease.
Notation PersistedLease := PersistedLease.t.

Record PersistedV2 := { version : Z; v2_leases : list PersistedLease }.
Record LegacyState := { token_ports : list (str * Z) }.

(** The JSON library: parsing to a value, the presence of the [version] key, the
    two derived deserializers and the derived serializer. *)
Class SerdeJson := {
  Value : Type;
  from_slice : list byte → result Value;
  get_version : Value → bool;
  v2_from_value : Value → result PersistedV2;
  legacy_from_value : Value → result LegacyState;
  to_vec_pretty : PersistedV2 → result (list byte);
}.

(** Every number is one of its Rust type. *)
Definition persisted_ok (l : PersistedLease) : Prop :=
  u16_ok l.(PersistedLease.port) ∧ u64_ok l.(PersistedLease.expires_at_ms).

(** What the program relies on: a state that was printed reads back, the absent
    and empty fields as their defaults; numbers out of range are refused. *)
Class SerdeJsonLaw `{SerdeJson} : Prop := {
  v2_roundtrip st bs :
    Forall persisted_ok st.(v2_leases) → st.(version) = 2 → to_vec_pretty st = Ok bs →
    ∃ v, from_slice bs = Ok v ∧ get_version v = true ∧ v2_from_value v = Ok st;
  v2_typed v st : v2_from_value v = Ok st → Forall persisted_ok st.(v2_leases);
}.

(** ** Hexadecimal fields *)

Definition hex_32 (bs : bytes 32) : str := hex_of (bytes_list bs).

Definition parse_hex_32 (hex : str) : result (bytes 32) :=
  check ((str_len hex =? 64)%nat && is_ascii hex) (Msg "Expected 64 hex characters");;
  parse_hex_bytes 32 hex.

(** [impl PersistedLease] *)
Definition from_record (record : LeaseRecord) : PersistedLease :=
  {| PersistedLease.token_id := hex_32 (token_bytes record.(LeaseRecord.token_id));
     PersistedLease.retired_token_id := None;
     PersistedLease.retired_token_ids :=
       (λ id, hex_32 (token_bytes id)) <$> record.(LeaseRecord.retired_token_ids);
     PersistedLease.recovery_id :=
       (λ id, hex_32 (token_bytes id)) <$> record.(LeaseRecord.recovery_id);
     PersistedLease.port := record.(LeaseRecord.port);
     PersistedLease.last_ip := record.(LeaseRecord.last_ip);
     PersistedLease.expires_at_ms := record.(LeaseRecord.expires_at_ms) |}.

Definition parse_token_id (id : str) : result TokenId := MkTokenId <$> parse_hex_32 id.

Definition into_record (l : PersistedLease) : result LeaseRecord :=
  check (forallb (λ c, is_ascii_hexdigit c && negb (is_ascii_uppercase c))
                 l.(PersistedLease.token_id)) (Msg "Invalid token fingerprint");;
  token_id ← parse_token_id l.(PersistedLease.token_id);
  retired_token_ids ← collect parse_token_id
    (l.(PersistedLease.retired_token_ids) ++ option_list l.(PersistedLease.retired_token_id));
  recovery_id ← match l.(PersistedLease.recovery_id) with
                | Some id => Some <$> parse_token_id id
                | None => Ok None
                end;
  Ok {| LeaseRecord.token_id := token_id;
        LeaseRecord.retired_token_ids := retired_token_ids;
        LeaseRecord.recovery_id := recovery_id;
        LeaseRecord.port := l.(PersistedLease.port);
        LeaseRecord.last_ip := l.(PersistedLease.last_ip);
        LeaseRecord.expires_at_ms := l.(PersistedLease.expires_at_ms) |}.

(** [leases.sort_by_key(|lease| lease.port)], a stable sort. *)
Fixpoint insert_by_port (x : PersistedLease) (l : list PersistedLease) : list PersistedLease :=
  match l with
  | [] => [x]
  | y :: l => if x.(PersistedLease.port) <=? y.(PersistedLease.port) then x :: y :: l
              else y :: insert_by_port x l
  end.
Definition sort_by_port (l : list PersistedLease) : list PersistedLease :=
  foldr insert_by_port [] l.

(** [metadata.len()]. *)
Definition node_len (n : Node) : Z :=
  match n with FileN f => Z.of_nat (length f.(data)) | _ => 0 end.

(** [bytes.starts_with(&existing)]. *)
Definition starts_with (bs prefix : list byte) : bool :=
  bool_decide (take (length prefix) bs = prefix).

(** [with_file_name(format!("{}.legacy-backup", name))]. *)
Definition backup_path (p : Path) : result Path :=
  name ← ok_or (file_name p) (Msg "State path has no file name");
  Ok (with_file_name p (name ++ ".legacy-backup")%string).

(** ** [migrate_legacy] *)

Record MigrateState := {
  m_tokens : gset TunnelToken;
  m_ports : gset Z;
  m_records : list LeaseRecord;
}.

Definition migrate_one `{Digest} (now_ms : Z) (st : MigrateState) (entry : str * Z)
    : result MigrateState :=
  let '(hex, port) := entry in
  check (bool_decide (PORT_START ≤ port ≤ PORT_END)) (Msg "Invalid legacy port");;
  ports ← insert_new port st.(m_ports) (Msg "Duplicate legacy port");
  token ← parse_hex_32 hex;
  tokens ← insert_new token st.(m_tokens) (Msg "Duplicate legacy token");
  Ok {| m_tokens := tokens; m_ports := ports;
        m_records := st.(m_records) ++
          [{| LeaseRecord.token_id := from_token token;
              LeaseRecord.retired_token_ids := [];
              LeaseRecord.recovery_id := None;
              LeaseRecord.port := port;
              LeaseRecord.last_ip := None;
              LeaseRecord.expires_at_ms := saturating_add_u64 now_ms GRACE_MS |}] |}.

Definition migrate_legacy `{Digest} (legacy : LegacyState) (now_ms : Z) : result LeaseTable :=
  check (length legacy.(token_ports) <=? 1000)%nat (Msg "Too many legacy reservations");;
  st ← try_fold (migrate_one now_ms) {| m_tokens := ∅; m_ports := ∅; m_records := [] |}
                legacy.(token_ports);
  restore st.(m_records) now_ms.

(** ** The store: its only field is the path of the state file *)

Section store.
Context `{Digest} `{SerdeJson} `{Tempfile} `{!IterOrder TokenId Lease}.

(** Writing a file through a temporary, as [save] and [backup_legacy] do. *)
Definition replace_file (p : Path) (bs : list byte) : M Fs unit :=
  temp ← new_in (parent p);
  temp ← temp_set_owner_only temp;
  temp ← temp_write_all bs temp;
  temp ← temp_sync_all temp;
  persist temp p;;
  sync_directory (parent p).

Definition save (p : Path) (records : list LeaseRecord) : M Fs unit :=
  let leases := sort_by_port (from_record <$> records) in
  bs ← lift (to_vec_pretty {| version := 2; v2_leases := leases |});
  ensure (Z.of_nat (length bs) <=? MAX_STATE_BYTES) (Msg "Lease state exceeds 1 MiB");;
  replace_file p bs.

Definition backup_legacy (p : Path) (bs : list byte) : M Fs unit :=
  backup ← lift (backup_path p);
  outcome ← attempt (symlink_metadata backup);
  match outcome with
  | Ok metadata =>
      ensure (is_file metadata) (Msg "Legacy backup is not a regular file");;
      existing ← fs_read backup;
      ensure (starts_with bs existing) (Msg "Existing legacy backup differs from source state");;
      if (length existing =? length bs)%nat
      then set_permissions backup;; sync_file backup;; sync_directory (parent backup)
      else replace_file backup bs
  | Err (Io NotFound) =>
      create_new backup;;
      file_write_all backup bs;;
      sync_file backup;;
      sync_directory (parent backup)
  | Err e => fail e
  end.

Definition load_or_create (p : Path) (now_ms : Z) : M Fs LeaseTable :=
  outcome ← attempt (metadata p);
  match outcome with
  | Err (Io NotFound) => mret LeaseTable_new
  | Err e => fail e
  | Ok metadata =>
      ensure (node_len metadata <=? MAX_STATE_BYTES) (Msg "Lease state file exceeds 1 MiB");;
      bs ← fs_read p;
      ensure (Z.of_nat (length bs) <=? MAX_STATE_BYTES) (Msg "Lease state file exceeds 1 MiB");;
      value ← lift (from_slice bs);
      if get_version value then
        persisted ← lift (v2_from_value value);
        ensure (bool_decide (persisted.(version) = 2)) (Msg "Unsupported lease state version");;
        records ← lift (collect into_record persisted.(v2_leases));
        lift (restore records now_ms)
      else
        legacy ← lift (legacy_from_value value);
        table ← lift (migrate_legacy legacy now_ms);
        backup_legacy p bs;;
        save p (snapshot now_ms table);;
        mret table
  end.
End store.
