(* ===== verification/LeaseStoreFacts.v ===== *)
(** Lemmas on the relay's state file: the persisted form, the calls that write
    files, and the migration. *)

From Stdlib Require Import Strings.Byte.
From S2P Require Import Prelude Bytes HostAdmission LeaseTable LeaseFacts LeaseInv LeaseRestore Fs FsLogic FsAlone LeaseStore.

(** ** Records *)

Lemma parse_hex_32_hex b : parse_hex_32 (hex_32 b) = Ok b.
Proof.
  unfold parse_hex_32, hex_32, check. rewrite str_len_hex_of, hex_of_ascii, bytes_len.
  cbn -[parse_hex_bytes]. apply parse_hex_bytes_hex_of.
Qed.

Lemma parse_token_id_hex id : parse_token_id (hex_32 (token_bytes id)) = Ok id.
Proof. unfold parse_token_id. rewrite parse_hex_32_hex. by destruct id. Qed.

Lemma collect_fmap_inv {A B} (f : A → result B) (g : B → A) l :
  (∀ x, f (g x) = Ok x) → collect f (g <$> l) = Ok l.
Proof. intros Hfg. induction l as [|x l IH]; cbn; [done|]. by rewrite Hfg, IH. Qed.

Lemma into_record_from_record r : into_record (from_record r) = Ok r.
Proof.
  unfold into_record, from_record; cbn -[hex_32 parse_token_id].
  assert (Hc : forallb (λ c, is_ascii_hexdigit c && negb (is_ascii_uppercase c))
    (hex_32 (token_bytes (LeaseRecord.token_id r))) = true).
  { apply forallb_forall. intros c Hc%list_elem_of_In.
    pose proof (hex_of_chars (bytes_list (token_bytes (LeaseRecord.token_id r)))) as H.
    rewrite Forall_forall in H. destruct (H c Hc) as (-> & -> & _). done. }
  rewrite Hc, parse_token_id_hex, app_nil_r. cbn -[hex_32 parse_token_id].
  rewrite (collect_fmap_inv parse_token_id (λ id, hex_32 (token_bytes id)))
    by (intros; apply parse_token_id_hex).
  destruct r as [tid ret rid po ip ex]; cbn -[hex_32 parse_token_id].
  destruct rid as [rid|]; cbn -[hex_32 parse_token_id]; [|done]. by rewrite parse_token_id_hex.
Qed.

Lemma insert_by_port_perm x l : insert_by_port x l ≡ₚ x :: l.
Proof.
  induction l as [|y l IH]; cbn; [done|]. destruct (_ <=? _); [done|]. rewrite IH. apply Permutation_swap.
Qed.

Lemma sort_by_port_perm l : sort_by_port l ≡ₚ l.
Proof. induction l as [|x l IH]; cbn; [done|]. by rewrite insert_by_port_perm, IH. Qed.

(** Saving and reading back gives the records, in some order. *)
Lemma records_roundtrip rs : ∃ rs', rs' ≡ₚ rs ∧
  sort_by_port (from_record <$> rs) = from_record <$> rs' ∧
  collect into_record (sort_by_port (from_record <$> rs)) = Ok rs'.
Proof.
  pose proof (sort_by_port_perm (from_record <$> rs)) as Hp.
  apply Permutation_map_inv in Hp as (rs' & Hrs' & Hp). symmetry in Hp.
  change (map from_record rs') with (from_record <$> rs') in Hrs'. exists rs'. rewrite Hrs'.
  split_and!; [done|done|]. apply collect_fmap_inv, into_record_from_record.
Qed.

(** ** Replacing a file *)

Lemma temp_ok {A} (a b : A) fs fs' : (tick;; mret a) fs = (Ok b, fs') → b = a.
Proof. intros Hrun. inv_ok. done. Qed.

Section files.
Context `{TempfileLaws}.

(** The temporary file is written, then takes its name. *)
Lemma temp_run q bs fs r fs' : alone fs →
  (temp ← new_in (parent q); temp ← temp_set_owner_only temp;
   temp ← temp_write_all bs temp; temp_sync_all temp) fs = (r, fs') →
  alone fs' ∧ fs'.(names) = fs.(names) ∧ fs'.(durable) = fs.(durable) ∧
  ∀ f, r = Ok f → f = {| data := bs; private := true; synced := true |}.
Proof.
  intros Ha Hrun.
  assert (Hobs : ∀ q, observer (temp ← new_in q; temp ← temp_set_owner_only temp;
    temp ← temp_write_all bs temp; temp_sync_all temp)) by (intros ?; observe).
  assert (Hvol : ∀ q, volatile (temp ← new_in q; temp ← temp_set_owner_only temp;
    temp ← temp_write_all bs temp; temp_sync_all temp)) by (intros ?; volatile).
  destruct (Hobs _ _ _ _ Ha Hrun) as [Ha' Hn]. split_and!; [done|done|by eapply Hvol|].
  intros f ->. apply M_bind_ok in Hrun as (t & fs1 & Ht & Hrun).
  destruct (new_in_law (parent q) fs) as (fs0 & _ & _ & Hd). rewrite Ht in Hd.
  specialize (Hd t eq_refl). apply M_bind_ok in Hrun as (t1 & fs2 & H1%temp_ok & Hrun).
  apply M_bind_ok in Hrun as (t2 & fs3 & H2%temp_ok & Hrun%temp_ok). subst. cbn. by rewrite Hd.
Qed.

Lemma replace_file_run q bs fs r fs' : alone fs → replace_file q bs fs = (r, fs') → alone fs' ∧
  match r with
  | Ok _ => ∃ f, f.(data) = bs ∧ f.(private) = true ∧ f.(synced) = true ∧
      fs'.(names) = <[q := FileN f]> fs.(names) ∧ fs'.(durable) !! q = Some (FileN f)
  | Err _ => fs'.(durable) = fs.(durable) ∧ (fs'.(names) = fs.(names) ∨
      ∃ f, f.(data) = bs ∧ f.(private) = true ∧ f.(synced) = true ∧
        fs'.(names) = <[q := FileN f]> fs.(names))
  end.
Proof.
  intros Ha Hrun. unfold replace_file in Hrun.
  assert (Hsplit : ∃ r1 fs1, (temp ← new_in (parent q); temp ← temp_set_owner_only temp;
    temp ← temp_write_all bs temp; temp_sync_all temp) fs = (r1, fs1) ∧
    match r1 with
    | Ok temp => (persist temp q;; sync_directory (parent q)) fs1 = (r, fs')
    | Err e => r = Err e ∧ fs' = fs1
    end).
  { eexists _, _. split; [apply surjective_pairing|]. revert Hrun. unfold mbind, M_bind.
    repeat (case_match; simplify_eq/=); intros; split_and?; congruence. }
  clear Hrun. destruct Hsplit as (r1 & fs1 & Ht & Hsplit).
  apply temp_run in Ht as (Ha1 & Hn1 & Hd1 & Hf); [|done].
  destruct r1 as [f|e]; [|destruct Hsplit as [-> ->]; by auto]. specialize (Hf f eq_refl).
  unfold mbind, M_bind in Hsplit. destruct (persist_law f q fs1) as (fs2 & He & Hout).
  destruct (env_steps_alone _ _ Ha1 He) as [Ha2 Hn2].
  destruct (persist f q fs1) as [rp fs3] eqn:Hp. pose proof (volatile_persist _ _ _ _ _ Hp) as Hd3.
  destruct rp as [u|e]; cbn in Hout; subst fs3.
  2:{ simplify_eq. split; [done|]. split; [congruence|]. left. congruence. }
  set (fs3 := set_names _ fs2) in *. assert (Ha3 : alone fs3) by done.
  destruct (observer_sync_directory _ fs3 _ _ Ha3 Hsplit) as [Ha' Hn'].
  assert (Hn : names fs' = <[q:=FileN f]> (names fs)) by (rewrite Hn'; cbn; congruence).
  assert (Hf' : data f = bs ∧ private f = true ∧ synced f = true) by by subst f.
  destruct Hf' as (? & ? & ?). split; [done|]. destruct r as [[]|e].
  - exists f. split_and!; [done..|]. unfold sync_directory in Hsplit. inv_ok. cbn in *.
    apply lookup_union_Some_l, map_lookup_filter_Some. split; [|done].
    rewrite Hn. by rewrite lookup_insert_eq.
  - apply sync_directory_failed in Hsplit. split; [congruence|]. right. by exists f.
Qed.
End files.

(** ** Saving and loading *)

Section store_facts.
Context `{Digest} `{SerdeJson} `{TempfileLaws} `{!IterOrder TokenId Lease}.

Definition printed (rs : list LeaseRecord) (bs : list byte) : Prop :=
  to_vec_pretty {| version := 2; v2_leases := sort_by_port (from_record <$> rs) |} = Ok bs ∧
  Z.of_nat (length bs) ≤ MAX_STATE_BYTES.

Lemma save_run p rs fs r fs' : alone fs → save p rs fs = (r, fs') → alone fs' ∧
  match r with
  | Ok _ => ∃ bs f, printed rs bs ∧ f.(data) = bs ∧ fs'.(names) = <[p := FileN f]> fs.(names) ∧
      fs'.(durable) !! p = Some (FileN f) ∧ f.(synced) = true
  | Err _ => fs'.(durable) = fs.(durable) ∧ (fs'.(names) = fs.(names) ∨
      ∃ bs f, printed rs bs ∧ f.(data) = bs ∧ fs'.(names) = <[p := FileN f]> fs.(names) ∧
        f.(synced) = true)
  end.
Proof.
  intros Ha. unfold save, printed, lift, ensure. unfold mbind, M_bind.
  destruct (to_vec_pretty _) as [bs|e]; [|intros [= <- <-]; by auto].
  destruct (Z.leb_spec (Z.of_nat (length bs)) MAX_STATE_BYTES); [|intros [= <- <-]; by auto].
  intros Hrun%replace_file_run; [|done]. destruct Hrun as [Ha' Hout]. split; [done|].
  destruct r.
  - destruct Hout as (f & Hd & _ & Hsy & Hn & Hdur). by exists bs, f.
  - destruct Hout as [Hdur [?|(f & Hd & _ & Hsy & Hn)]]; [by auto|]. split; [done|]. right. by exists bs, f.
Qed.

Lemma persisted_all rs :
  Forall (λ r, PORT_START ≤ LeaseRecord.port r ≤ PORT_END ∧ u64_ok (LeaseRecord.expires_at_ms r)) rs →
  Forall persisted_ok (sort_by_port (from_record <$> rs)).
Proof.
  intros Hrs. rewrite sort_by_port_perm. apply Forall_fmap. eapply Forall_impl; [exact Hrs|].
  intros r [[? ?] ?]. split; [|done]. unfold u16_ok, U16_MAX, PORT_START, PORT_END in *. cbn. lia.
Qed.

(** The bytes of a state file of the current version, and its records. *)
Definition reads_as (bs : list byte) (rs : list LeaseRecord) : Prop :=
  Z.of_nat (length bs) ≤ MAX_STATE_BYTES ∧ ∃ v st, from_slice bs = Ok v ∧ get_version v = true ∧
  v2_from_value v = Ok st ∧ version st = 2 ∧ collect into_record st.(v2_leases) = Ok rs.

Lemma printed_reads `{!SerdeJsonLaw} rs bs : printed rs bs →
  Forall (λ r, PORT_START ≤ LeaseRecord.port r ≤ PORT_END ∧ u64_ok (LeaseRecord.expires_at_ms r)) rs →
  ∃ rs', rs' ≡ₚ rs ∧ reads_as bs rs'.
Proof.
  intros [Hp Hlen] Hrs. destruct (records_roundtrip rs) as (rs' & Hperm & Hsort & Hcol).
  exists rs'. split; [done|]. split; [done|].
  destruct (v2_roundtrip {| version := 2; v2_leases := sort_by_port (from_record <$> rs) |} bs
    (persisted_all rs Hrs) eq_refl Hp) as (v & Hv1 & Hv2 & Hv3).
  by exists v, {| version := 2; v2_leases := sort_by_port (from_record <$> rs) |}.
Qed.

(** ** Starting: what each kind of entry gives, under any faults *)

(** The call at hand fails. *)
Definition faulted {A} (fs : Fs) (r : result A) : Prop :=
  ∃ t ts k, fs.(schedule) = t :: ts ∧ t.(fault) = Some k ∧ r = Err (Io k).

(** No call claims that a file is missing when it is there. *)
Definition honest (fs : Fs) : Prop := Forall (λ t, t.(fault) ≠ Some NotFound) fs.(schedule).

(** A call that only looks, and what it sees. *)
Definition looks {A} (fs : Fs) (r : result A) (fs' : Fs) : Prop :=
  alone fs' ∧ fs'.(names) = fs.(names) ∧ fs'.(durable) = fs.(durable) ∧
  (honest fs → honest fs') ∧ (fs.(schedule) = [] → fs' = fs).

Lemma tick_looks fs r fs' : alone fs → tick fs = (r, fs') → looks fs r fs' ∧ (r = Ok tt ∨ faulted fs r).
Proof.
  intros Ha Hrun. destruct (tick_alone _ _ _ Ha Hrun) as [Ha' Hn]. apply volatile_tick in Hrun as Hd.
  unfold tick in Hrun. unfold faulted, looks, honest. destruct (schedule fs) as [|t ts] eqn:E.
  - injection Hrun as <- <-. split; [split_and!; try done; by rewrite E|by left].
  - assert (Hs : fs' = {| names := meanwhile t (names fs); durable := durable fs; schedule := ts;
      entropy := entropy fs |} ∧ (r = Ok tt ∨ ∃ k, fault t = Some k ∧ r = Err (Io k))).
    { destruct (fault t) as [k|]; injection Hrun as <- <-.
      - split; [done|]. right. by exists k.
      - split; [done|by left]. }
    destruct Hs as [-> Hr]. split; [split_and!; try done; by intros [_ ?]%Forall_cons|].
    destruct Hr as [->|(k & ? & ->)]; [by left|right]. by exists t, ts, k.
Qed.

Lemma looks_trans {A B} fs1 (r1 : result A) fs2 (r2 : result B) fs3 :
  looks fs1 r1 fs2 → looks fs2 r2 fs3 → looks fs1 r2 fs3.
Proof.
  intros (Ha1 & Hn1 & Hd1 & Hh1 & Hs1) (Ha2 & Hn2 & Hd2 & Hh2 & Hs2).
  split_and!; [done|congruence|congruence|by auto|]. intros Hs. specialize (Hs1 Hs). subst fs2. by auto.
Qed.

Lemma looked_faulted {A} fs (r : result A) : faulted fs r → fs.(schedule) ≠ [] ∧
  (honest fs → r ≠ Err (Io NotFound)) ∧ is_ok r = false.
Proof.
  intros (t & ts & k & Hs & Hk & ->). unfold honest. rewrite Hs. split_and!; [done| |done].
  intros Hh [= ->]. apply Forall_cons in Hh as [Hh _]. congruence.
Qed.

Lemma resolve_plain m p : (∀ q, m !! p ≠ Some (SymlinkN q)) → resolve 40 m p = Some p.
Proof. intros Hp. cbn. destruct (m !! p) as [[f| |q]|]; try done. by destruct (Hp q). Qed.

Lemma metadata_looks p fs r fs' : alone fs → (∀ q, names fs !! p ≠ Some (SymlinkN q)) →
  metadata p fs = (r, fs') → looks fs r fs' ∧ (r = ok_or (names fs !! p) (Io NotFound) ∨ faulted fs r).
Proof.
  intros Ha Hp. unfold metadata, get, lift. unfold mbind, M_bind.
  destruct (tick fs) as [rt fs1] eqn:Ht. apply tick_looks in Ht as [Hl Hrt]; [|done].
  destruct rt as [[]|e]; [|intros [= <- <-]; destruct Hrt as [?|Hf]; [done|];
    split; [done|right]; by destruct Hf as (t & ts & k & ? & ? & [= ->]); exists t, ts, k].
  pose proof Hl as (_ & Hn & _). rewrite Hn, resolve_plain by done. cbn. intros [= <- <-]. by auto.
Qed.

Lemma fs_read_looks p fs f r fs' : alone fs → names fs !! p = Some (FileN f) →
  fs_read p fs = (r, fs') → looks fs r fs' ∧ (r = Ok f.(data) ∨ faulted fs r).
Proof.
  intros Ha Hp. unfold fs_read, get, lift. unfold mbind, M_bind.
  destruct (tick fs) as [rt fs1] eqn:Ht. apply tick_looks in Ht as [Hl Hrt]; [|done].
  destruct rt as [[]|e]; [|intros [= <- <-]; destruct Hrt as [?|Hf]; [done|];
    split; [done|right]; by destruct Hf as (t & ts & k & ? & ? & [= ->]); exists t, ts, k].
  pose proof Hl as (_ & Hn & _). rewrite Hn, resolve_plain by (intros q; by rewrite Hp).
  cbn. rewrite Hp. cbn. intros [= <- <-]. by auto.
Qed.

(** Starting without a state file. *)
Lemma load_absent p now fs r fs' : alone fs → honest fs → names fs !! p = None →
  load_or_create p now fs = (r, fs') →
  looks fs r fs' ∧ (r = Ok LeaseTable_new ∨ is_ok r = false ∧ fs.(schedule) ≠ []).
Proof.
  intros Ha Hh Hp. unfold load_or_create, attempt. unfold mbind at 1, M_bind at 1.
  destruct (metadata p fs) as [rm fs1] eqn:Em.
  apply metadata_looks in Em as [Hl Hr]; [|done|by rewrite Hp]. rewrite Hp in Hr. cbn.
  destruct Hr as [->|Hf]; [intros [= <- <-]; by auto|].
  apply looked_faulted in Hf as (Hs & Hnf & Hok). specialize (Hnf Hh).
  destruct rm as [n|[| |[]|]]; try done; intros [= <- <-]; by auto.
Qed.

(** Starting from a state file of the current version. *)
Lemma load_reads p now fs f rs r fs' : alone fs → honest fs → names fs !! p = Some (FileN f) →
  reads_as f.(data) rs → load_or_create p now fs = (r, fs') →
  looks fs r fs' ∧ (r = restore rs now ∨ is_ok r = false ∧ fs.(schedule) ≠ []).
Proof.
  intros Ha Hh Hp (Hlen & v & st & Hv & Hver & Hst & Htwo & Hc). unfold load_or_create, attempt.
  unfold mbind at 1, M_bind at 1. destruct (metadata p fs) as [rm fs1] eqn:Em.
  apply metadata_looks in Em as [Hl Hr]; [|done|by rewrite Hp]. rewrite Hp in Hr. cbn.
  destruct Hr as [->|Hf].
  2:{ apply looked_faulted in Hf as (Hs & Hnf & Hok). specialize (Hnf Hh).
      destruct rm as [n|[| |[]|]]; try done; intros [= <- <-]; by auto. }
  cbn [ok_or node_len]. rewrite (M_bind_run _ _ fs1 tt fs1)
    by (unfold ensure; by rewrite (proj2 (Z.leb_le _ _))).
  unfold mbind at 1, M_bind at 1. destruct (fs_read p fs1) as [rr fs2] eqn:Er.
  pose proof Hl as (Ha1 & Hn1 & _ & _ & Hs1).
  apply (fs_read_looks p fs1 f) in Er as [Hl2 Hr2]; [|done|by rewrite Hn1].
  assert (Hl12 : looks fs r fs2) by by eapply looks_trans.
  destruct Hr2 as [->|Hf].
  2:{ apply looked_faulted in Hf as (Hs & _ & Hok). destruct rr as [bs|e]; [done|]. intros [= <- <-].
      split; [done|]. right. split; [done|]. intros Hs'. rewrite (Hs1 Hs') in Hs. done. }
  unfold ensure, lift, mbind, M_bind. rewrite (proj2 (Z.leb_le _ _)), Hv, Hver, Hst by done.
  rewrite bool_decide_true by done. rewrite Hc. intros [= <- <-]. by auto.
Qed.

(** The same for a file that [save] wrote, when nothing fails. *)
Lemma load_printed `{!SerdeJsonLaw} p rs bs fs now :
  schedule fs = [] → view_at fs.(names) p = Content bs → printed rs bs →
  Forall (λ r, PORT_START ≤ LeaseRecord.port r ≤ PORT_END ∧ u64_ok (LeaseRecord.expires_at_ms r)) rs →
  ∃ rs', rs' ≡ₚ rs ∧ load_or_create p now fs = (restore rs' now, fs).
Proof.
  intros Hs (f & Hf & <-)%view_content Hp Hrs.
  destruct (printed_reads rs _ Hp Hrs) as (rs' & Hperm & Hread). exists rs'. split; [done|].
  destruct (load_or_create p now fs) as [r fs'] eqn:E.
  destruct (load_reads p now fs f rs' r fs') as [(_ & _ & _ & _ & Hsame) [->|[_ ?]]];
    [unfold alone; by rewrite Hs|unfold honest; by rewrite Hs|done..|by rewrite (Hsame Hs)|done].
Qed.
End store_facts.

(** ** What migration computes *)

Section migrating.
Context `{Digest}.

(** The record a legacy reservation becomes. *)
Definition legacy_record (now : Z) (token : TunnelToken) (port : Z) : LeaseRecord :=
  {| LeaseRecord.token_id := from_token token;
     LeaseRecord.retired_token_ids := [];
     LeaseRecord.recovery_id := None;
     LeaseRecord.port := port;
     LeaseRecord.last_ip := None;
     LeaseRecord.expires_at_ms := saturating_add_u64 now GRACE_MS |}.

Definition migrates_to (now : Z) (entry : str * Z) (r : LeaseRecord) : Prop :=
  ∃ token, parse_hex_32 entry.1 = Ok token ∧ r = legacy_record now token entry.2.

Lemma migrate_loop now l st st' :
  try_fold (migrate_one now) st l = Ok st' →
  ∃ rs, m_records st' = m_records st ++ rs ∧ Forall2 (migrates_to now) l rs.
Proof.
  revert st. induction l as [|[hex port] l IH]; intros st; cbn [try_fold].
  - intros [= <-]. exists []. by rewrite app_nil_r.
  - destruct (migrate_one now st (hex, port)) as [st1|e] eqn:E; [|done].
    intros (rs & Hrs & Hall)%IH. unfold migrate_one in E. inv_ok. simplify_eq/=.
    eexists (_ :: rs). rewrite Hrs, <- app_assoc. split; [done|]. constructor; [|done].
    eexists. split; [eassumption|done].
Qed.

Lemma migrate_legacy_ok `{!IterOrder TokenId Lease} legacy now t :
  migrate_legacy legacy now = Ok t →
  ∃ rs, Forall2 (migrates_to now) legacy.(token_ports) rs ∧ restore rs now = Ok t.
Proof.
  unfold migrate_legacy. intros Hm. inv_ok.
  match goal with H : try_fold _ _ _ = _ |- _ => apply migrate_loop in H as (rs & Hrs & Hall) end.
  cbn in Hrs. rewrite Hrs in Hm. by exists rs.
Qed.

(** A migrated table can be saved as any other. *)
Lemma migrated_records_ok `{!IterOrder TokenId Lease} legacy now t :
  0 ≤ now → migrate_legacy legacy now = Ok t →
  Forall (λ r, PORT_START ≤ LeaseRecord.port r ≤ PORT_END ∧ u64_ok (LeaseRecord.expires_at_ms r))
         (snapshot now t).
Proof.
  intros Hnow (rs & Hall & Hres)%migrate_legacy_ok. apply restore_ok in Hres as (Hok & _ & Hl).
  apply Forall_forall. intros r (id & l & Hid & ->)%snapshot_elem.
  apply Hl in Hid as (r' & Hr' & _ & _ & ->). cbn. split.
  - destruct Hok as [_ Heach _ _ _ _ _]. rewrite Forall_forall in Heach. by apply Heach.
  - apply list_elem_of_lookup in Hr' as [i Hi]. rewrite Forall2_lookup in Hall. specialize (Hall i).
    rewrite Hi in Hall. inversion Hall as [? ? (tok & _ & ->)|]; subst. cbn.
    apply saturating_add_u64_ok; [done|]. unfold GRACE_MS. lia.
Qed.

(** Reservations of the former format are charged to nobody. *)
Lemma migrated_inv `{!IterOrder TokenId Lease} legacy now t :
  migrate_legacy legacy now = Ok t → lease_inv t.
Proof.
  intros (rs & Hall & Hres)%migrate_legacy_ok. split; [by eapply restore_wf|].
  apply restore_ok in Hres as (_ & _ & Hl). intros s. unfold source_count.
  destruct (filter _ _) as [|[id l] rest] eqn:E; [cbn; lia|exfalso].
  assert (Hx : (id, l) ∈ (id, l) :: rest) by by left.
  rewrite <- E in Hx. apply list_elem_of_filter in Hx as [Hs Hx].
  apply elem_of_map_to_list, Hl in Hx as (r & (i & Hi)%list_elem_of_lookup & _ & _ & ->).
  rewrite Forall2_lookup in Hall. specialize (Hall i). rewrite Hi in Hall.
  by inversion Hall as [? ? (tok & _ & ->)|]; subst.
Qed.
End migrating.

(** ** What a start loads *)

Section loading.
Context `{Digest} `{SerdeJson} `{!SerdeJsonLaw} `{TempfileLaws} `{!IterOrder TokenId Lease}.

Lemma into_record_numbers l r : into_record l = Ok r →
  LeaseRecord.port r = PersistedLease.port l ∧
  LeaseRecord.expires_at_ms r = PersistedLease.expires_at_ms l.
Proof. unfold into_record. intros Hr. inv_ok. by simplify_eq/=. Qed.

Lemma collect_Forall2 {A B} (f : A → result B) l l' :
  collect f l = Ok l' → Forall2 (λ x y, f x = Ok y) l l'.
Proof.
  revert l'. induction l as [|x l IH]; intros l'; cbn; [by intros [= <-]|].
  intros Hc. repeat case_match; simplify_eq. constructor; [done|by apply IH].
Qed.

Lemma collect_records_typed ls rs : Forall persisted_ok ls → collect into_record ls = Ok rs →
  Forall (λ r, u64_ok (LeaseRecord.expires_at_ms r)) rs.
Proof.
  intros Hok Hc%collect_Forall2. revert Hok. induction Hc as [|l r ls rs Hr _ IH]; [done|].
  intros [[_ Hl] Hls]%Forall_cons. constructor; [|by apply IH].
  by apply into_record_numbers in Hr as [_ ->].
Qed.

(** Writing leaves a disk without other writers. *)
Lemma backup_alone p bs fs u fs' : alone fs → backup_legacy p bs fs = (Ok u, fs') → alone fs'.
Proof.
  assert (Hset : ∀ q x v y, alone x → set_permissions q x = (Ok v, y) → alone y).
  { intros q x v y Hx Hrun.
    by destruct (run2_set_permissions q q (λ _ _, True) q x (Ok v) y Hx I Hrun). }
  assert (Hsync : ∀ q x v y, alone x → sync_file q x = (Ok v, y) → alone y).
  { intros q x v y Hx Hrun.
    by destruct (run2_sync_file q q (λ _ _, True) q x (Ok v) y Hx I Hrun). }
  assert (Hcreate : ∀ q x v y, alone x → create_new q x = (Ok v, y) → alone y).
  { intros q x v y Hx Hrun. unfold create_new in Hrun. inv_ok.
    match goal with H : tick _ = _ |- _ => destruct (tick_alone _ _ _ Hx H) end. assumption. }
  assert (Hwrite : ∀ q x v y, alone x → file_write_all q bs x = (Ok v, y) → alone y).
  { intros q x v y Hx Hrun. unfold file_write_all in Hrun. destruct (tick x) as [[w|e] x1] eqn:E; [|done].
    simplify_eq. by destruct (tick_alone _ _ _ Hx E). }
  intros Ha Hrun. unfold backup_legacy in Hrun. apply M_bind_ok in Hrun as (b & fs0 & Hb & Hrun).
  apply lift_ok in Hb as [Hb ->]. apply M_bind_ok in Hrun as (r & fs1 & Hm & Hrun).
  destruct (observer_attempt _ (observer_symlink_metadata b) _ _ _ Ha Hm) as [Ha1 _]. clear Hm.
  destruct r as [n|[| |[]|]]; try done.
  - inv_ok. rename select (fs_read _ _ = _) into Hy. apply observer_read in Hy as [Ha2 _]; [|done].
    destruct (_ =? _)%nat; [|by apply replace_file_run in Hrun as [? _]]. inv_ok.
    eapply observer_sync_directory; [|done]. eauto.
  - inv_ok. eapply observer_sync_directory; [|done]. eauto.
Qed.

(** Starting from a file of the former format: the migrated table is saved. *)
Lemma load_migrates p now fs f v t fs' : alone fs → honest fs → names fs !! p = Some (FileN f) →
  from_slice f.(data) = Ok v → get_version v = false → load_or_create p now fs = (Ok t, fs') →
  alone fs' ∧ ∃ legacy f', migrate_legacy legacy now = Ok t ∧ printed (snapshot now t) f'.(data) ∧
    f'.(synced) = true ∧ names fs' !! p = Some (FileN f') ∧ durable fs' !! p = Some (FileN f').
Proof.
  intros Ha Hh Hp Hv Hver. unfold load_or_create, attempt. unfold mbind at 1, M_bind at 1.
  destruct (metadata p fs) as [rm fs1] eqn:Em.
  apply metadata_looks in Em as [(Ha1 & Hn1 & _) Hr]; [|done|by rewrite Hp]. rewrite Hp in Hr. cbn.
  destruct Hr as [->|Hf].
  2:{ apply looked_faulted in Hf as (_ & Hnf & Hok). specialize (Hnf Hh).
      by destruct rm as [n|[| |[]|]]. }
  intros Hrun. cbn in Hrun. inv_ok. rename select (fs_read _ _ = _) into Hread.
  apply (fs_read_looks p fs1 f) in Hread as [(Ha2 & _) [Hbs|Hf]];
    [|by apply looked_faulted in Hf as (_ & _ & ?)|done|by rewrite Hn1].
  injection Hbs as ->. rename select (from_slice _ = _) into Hv'. rewrite Hv in Hv'. injection Hv' as <-.
  rewrite Hver in Hrun. inv_ok.
  rename select (backup_legacy _ _ _ = _) into Hbk. apply backup_alone in Hbk; [|done].
  rename select (save _ _ _ = _) into Hsv.
  apply save_run in Hsv as [Ha4 (bs & f' & Hpr & <- & Hn & Hdur & Hsy)]; [|done].
  split; [done|]. eexists _, f'. split_and!; try done. by rewrite Hn, lookup_insert_eq.
Qed.
End loading.

(** ** Migration, as a run on the state file and its backup *)

Section migration.
Context `{Digest} `{SerdeJson} `{TempfileLaws} `{!IterOrder TokenId Lease}.
Context (p b : Path) (Hpb : p ≠ b) (Hb : backup_path p = Ok b).

Lemma run2_replace_b Φ bs :
  run2 p b Φ (replace_file b bs) (λ _ x y, y = Content bs ∧ ∃ y0, Φ x y0)
    (λ x y, Φ x y ∨ (y = Content bs ∧ ∃ y0, Φ x y0)).
Proof.
  intros fs r fs' Ha HΦ Hrun. apply replace_file_run in Hrun as [Ha' Hout]; [|done].
  split; [done|]. unfold shows in *. destruct r.
  - destruct Hout as (f & <- & _ & _ & -> & _). rewrite view_insert_eq, view_insert_ne by done. eauto.
  - destruct Hout as [_ [->|(f & <- & _ & _ & ->)]]; [by left|].
    rewrite view_insert_eq, view_insert_ne by done. eauto.
Qed.

Lemma run2_save Φ rs :
  run2 p b Φ (save p rs) (λ _ x y, (∃ bs, printed rs bs ∧ x = Content bs) ∧ ∃ x0, Φ x0 y)
    (λ x y, Φ x y ∨ ((∃ bs, printed rs bs ∧ x = Content bs) ∧ ∃ x0, Φ x0 y)).
Proof.
  intros fs r fs' Ha HΦ Hrun. apply save_run in Hrun as [Ha' Hout]; [|done].
  split; [done|]. unfold shows in *. destruct r.
  - destruct Hout as (bs & f & Hp & <- & -> & _). rewrite view_insert_eq, view_insert_ne by done. eauto.
  - destruct Hout as [_ [->|(bs & f & Hp & <- & -> & _)]]; [by left|].
    rewrite view_insert_eq, view_insert_ne by done. right. eauto.
Qed.

(** The legacy file is in place, the backup is missing, cut short or complete. *)
Definition before (L : list byte) (x y : view) : Prop :=
  x = Content L ∧ (y = Absent ∨ ∃ k, y = Content (take k L)).

Lemma run2_backup L :
  run2 p b (before L) (backup_legacy p L) (λ _ x y, x = Content L ∧ y = Content L) (before L).
Proof.
  unfold backup_legacy. eapply run2_bind; [apply run2_lift|]. intros b'.
  apply run2_pure. rewrite Hb. intros [= <-].
  eapply run2_bind; [apply run2_observe, observer_attempt, observer_symlink_metadata|].
  assert (Hdone : ∀ dir, run2 p b (λ x y, x = Content L ∧ y = Content L)
    (sync_file b;; sync_directory dir) (λ _ x y, x = Content L ∧ y = Content L) (before L)).
  { intros dir. eapply run2_post;
      [eapply run2_bind; [apply run2_sync_file|intros ?; apply run2_observe, observer_sync_directory]
      |done|]. intros x y [-> ->]. split; [done|]. right. exists (length L). by rewrite firstn_all. }
  intros [n|[| |[]|]]; try by apply run2_fail.
  - eapply run2_bind; [apply run2_ensure|]. intros ?. apply run2_pure. intros _.
    eapply run2_bind; [apply (run2_read_b p b); intros x y [_ [?|[k ?]]]; eauto|]. intros got.
    eapply run2_bind; [eapply run2_post; [apply run2_ensure|done|by intros x y [_ ?]]|].
    intros ?. apply run2_pure. intros Hpre.
    unfold starts_with in Hpre. bool_prop. destruct (Nat.eqb_spec (length got) (length L)) as [Hl|_].
    + rewrite Hl, firstn_all in Hpre. subst got.
      eapply run2_bind; [|intros ?; apply Hdone].
      eapply run2_post; [apply run2_set_permissions|..].
      * intros _ x y [-> [-> _]]. done.
      * intros x y [_ ?]. done.
    + eapply run2_post; [apply run2_replace_b|..].
      * intros _ x y [-> (y0 & _ & -> & _)]. done.
      * intros x y [[_ ?]|[-> (y0 & _ & -> & _)]]; [done|]. split; [done|].
        right. exists (length L). by rewrite firstn_all.
  - eapply run2_bind; [by apply run2_create_b|]. intros ?.
    eapply run2_bind; [|intros ?; apply Hdone].
    eapply run2_conseq; [apply (run2_write_b p b Hpb (λ x, x = Content L) [] L)|..].
    + intros x y (-> & -> & _). done.
    + done.
    + intros x y [-> [k ->]]. split; eauto.
Qed.

(** The bytes are a legacy state. *)
Definition legacy_bytes (L : list byte) (legacy : LegacyState) : Prop :=
  ∃ v, from_slice L = Ok v ∧ get_version v = false ∧ legacy_from_value v = Ok legacy.

(** The bytes are what migrating it saved. *)
Definition migrated_bytes (legacy : LegacyState) (V : list byte) : Prop :=
  ∃ now t, 0 ≤ now ∧ migrate_legacy legacy now = Ok t ∧ printed (snapshot now t) V.

Definition migration_safe (L : list byte) (legacy : LegacyState) (x y : view) : Prop :=
  before L x y ∨ ∃ V, migrated_bytes legacy V ∧ x = Content V ∧ y = Content L.

Lemma run2_load_legacy L legacy now : legacy_bytes L legacy → 0 ≤ now →
  run2 p b (before L) (load_or_create p now) (λ _, migration_safe L legacy)
    (migration_safe L legacy).
Proof.
  intros (v & Hv & Hver & Hleg) Hnow.
  assert (Hweak : ∀ x y, before L x y → migration_safe L legacy x y) by (by left).
  unfold load_or_create. eapply run2_bind.
  { eapply run2_post; [apply run2_observe, observer_attempt, observer_metadata|done|done]. }
  intros [n|[| |[]|]]; try by (eapply run2_post;
    [first [apply run2_observe, observer_fail|apply run2_observe, observer_ret]|done|done]).
  eapply run2_bind; [eapply run2_post; [apply run2_ensure|done|done]|]. intros ?.
  apply run2_pure. intros _. eapply run2_bind.
  { eapply run2_post; [apply (run2_read_p p b _ L); by intros x y [-> _]|done|done]. }
  intros bs. apply run2_pure. intros ->.
  eapply run2_bind; [eapply run2_post; [apply run2_ensure|done|done]|]. intros ?.
  apply run2_pure. intros _. rewrite Hv.
  eapply run2_bind; [eapply run2_post; [apply run2_lift|done|done]|]. intros v'.
  apply run2_pure. intros [= <-]. rewrite Hver, Hleg.
  eapply run2_bind; [eapply run2_post; [apply run2_lift|done|done]|]. intros leg.
  apply run2_pure. intros [= <-].
  eapply run2_bind; [eapply run2_post; [apply run2_lift|done|done]|]. intros t.
  apply run2_pure. intros Ht.
  eapply run2_bind; [eapply run2_post; [apply run2_backup|done|done]|]. intros ?.
  assert (Hdone : ∀ x y : view, (∃ bs, printed (snapshot now t) bs ∧ x = Content bs) ∧
    (∃ x0, x0 = Content L ∧ y = Content L) → migration_safe L legacy x y).
  { intros x y [(V & HV & ->) (x0 & _ & ->)]. right. exists V. split; [|done]. by exists now, t. }
  eapply run2_bind; [eapply run2_post; [apply run2_save|intros ? x y Hxy; exact Hxy|]|].
  - intros x y [[-> ->]|Hxy]; [|by apply Hdone]. left. split; [done|]. right.
    exists (length L). by rewrite firstn_all.
  - intros ?. eapply run2_post; [apply run2_observe, observer_ret|..]; by intros; apply Hdone.
Qed.

Lemma run2_load_migrated `{!SerdeJsonLaw} L legacy now :
  run2 p b (λ x y, ∃ V, migrated_bytes legacy V ∧ x = Content V ∧ y = Content L)
    (load_or_create p now) (λ _, migration_safe L legacy) (migration_safe L legacy).
Proof.
  intros fs r fs' Ha (V & (now0 & t & Hnow & Ht & Hpr) & Hx & Hy).
  pose proof (migrated_records_ok _ _ _ Hnow Ht) as Hok. destruct Hpr as [Hpr Hlen].
  set (Φ := λ x y, x = Content V ∧ y = Content L).
  assert (Hweak : ∀ x y, Φ x y → migration_safe L legacy x y).
  { intros x y [-> ->]. right. exists V. split; [|done]. exists now0, t. by split_and!. }
  destruct (v2_roundtrip {| version := 2; v2_leases := sort_by_port (from_record <$> snapshot now0 t) |}
    V (persisted_all _ Hok) eq_refl Hpr) as (v & Hv & Hver & _).
  revert r fs'. enough (Hrun : run2 p b Φ (load_or_create p now) (λ _, Φ) Φ).
  { intros r fs' Hr. destruct (Hrun fs r fs' Ha (conj Hx Hy) Hr) as [Ha' Hq].
    split; [done|]. destruct r; by apply Hweak. }
  clear fs Ha Hx Hy. unfold load_or_create.
  eapply run2_bind; [apply run2_observe, observer_attempt, observer_metadata|].
  intros [n|[| |[]|]]; try by (apply run2_observe; auto with observers).
  eapply run2_bind; [apply run2_ensure|]. intros ?. apply run2_pure. intros _.
  eapply run2_bind; [apply (run2_read_p p b _ V); by intros x y [-> _]|].
  intros bs. apply run2_pure. intros ->.
  eapply run2_bind; [apply run2_ensure|]. intros ?. apply run2_pure. intros _. rewrite Hv.
  eapply run2_bind; [apply run2_lift|]. intros v'. apply run2_pure. intros [= <-]. rewrite Hver.
  apply run2_observe. observe.
Qed.
End migration.

(** ** A concrete format *)

(** The digits of the number that encodes the state. *)
Definition lease_shape : Type :=
  str * option str * list str * option str * Z * option IpAddr * Z.
Definition state_shape : Type := (Z * list lease_shape) + list (str * Z).

Definition lease_to_shape (l : PersistedLease) : lease_shape :=
  let 'PersistedLease.Build_t a b c d e f g := l in (a, b, c, d, e, f, g).
Definition lease_of_shape (x : lease_shape) : PersistedLease :=
  let '(a, b, c, d, e, f, g) := x in PersistedLease.Build_t a b c d e f g.

#[export] Instance persisted_ok_dec l : Decision (persisted_ok l).
Proof. unfold persisted_ok, u16_ok, u64_ok. solve_decision. Defined.

Definition bit_json : SerdeJson := {|
  Value := state_shape;
  from_slice l := ok_or (p ← of_bits l; (decode p : option state_shape)) (External "invalid JSON");
  get_version v := match v with inl _ => true | inr _ => false end;
  v2_from_value v := match v with
    | inl (n, ls) => let ls : list PersistedLease := lease_of_shape <$> ls in
        if bool_decide (Forall persisted_ok ls) then Ok {| version := n; v2_leases := ls |}
        else Err (External "number out of range")
    | inr _ => Err (External "missing field `version`")
    end;
  legacy_from_value v := match v with
    | inl _ => Err (External "missing field `token_ports`")
    | inr ports => Ok {| token_ports := ports |}
    end;
  to_vec_pretty st :=
    Ok (bits_of (encode (inl (version st, lease_to_shape <$> v2_leases st) : state_shape)));
|}.

Lemma bit_json_law : @SerdeJsonLaw bit_json.
Proof.
  assert (Hid : ∀ ls : list PersistedLease, lease_of_shape <$> (lease_to_shape <$> ls) = ls).
  { intros ls. rewrite <- list_fmap_compose. rewrite <- (list_fmap_id ls) at 2.
    apply list_fmap_ext. by intros i []. }
  split; [|intros [[n ls]|?] st; cbn; [|done]; case_bool_decide; [by intros [= <-]|done]].
  intros [n ls] bs Hok _ Hbs. exists (inl (n, lease_to_shape <$> ls)).
  apply (f_equal (λ x, match x with Ok y => y | Err _ => [] end)) in Hbs.
  change (bits_of (encode (inl (n, lease_to_shape <$> ls) : state_shape)) = bs) in Hbs. subst bs.
  split_and!; [|done|].
  - unfold from_slice, bit_json. rewrite of_bits_of. cbn -[decode encode]. by rewrite decode_encode.
  - unfold v2_from_value, bit_json. by rewrite Hid; rewrite bool_decide_true.
Qed.
