(* ===== verification/LeaseStoreProps.v ===== *)
(** What the state file guarantees: the properties of [LeaseStore]. *)

From Stdlib Require Import Strings.Byte.
From S2P Require Import Prelude Bytes HostAdmission LeaseTable LeaseFacts LeaseInv LeaseRestore.
From S2P Require Import Fs FsLogic FsAlone LeaseStore LeaseStoreFacts.

Section properties.
Context `{Digest} `{SerdeJson} `{!SerdeJsonLaw} `{TempfileLaws} `{!IterOrder TokenId Lease}.

(** The saved table survives a restart: after a save the relay starts with
    every unexpired claim, those that were active in a fresh reconnect window;
    after a failed save it starts with that table or exactly as before. *)
Theorem saved_table_survives_restart p t now now' fs r fs' fs2 :
  leases_wf t.(leases) → Forall (λ r, u64_ok (LeaseRecord.expires_at_ms r)) (snapshot now t) →
  alone fs → save p (snapshot now t) fs = (r, fs') →
  fs2.(names) = fs'.(names) → fs2.(schedule) = [] →
  (load_or_create p now' fs2).1 = Ok (restarted now now' t) ∨
  is_ok r = false ∧ fs2.(names) = fs.(names).
Proof.
  intros Hwf Hexp Ha Hsave Hn Hs. apply save_run in Hsave as [_ Hout]; [|done].
  assert (Hrs : Forall (λ r, PORT_START ≤ LeaseRecord.port r ≤ PORT_END ∧
    u64_ok (LeaseRecord.expires_at_ms r)) (snapshot now t)).
  { rewrite Forall_forall in Hexp |- *. intros x Hx. split; [|by apply Hexp].
    apply snapshot_elem in Hx as (id & l & Hl & ->). by eapply wf_port_range. }
  assert (Hload : ∀ bs f, printed (snapshot now t) bs → data f = bs →
    names fs' = <[p:=FileN f]> (names fs) →
    (load_or_create p now' fs2).1 = Ok (restarted now now' t)).
  { intros bs f Hp Hd Hf.
    destruct (load_printed p (snapshot now t) bs fs2 now' Hs) as (rs' & Hperm & ->); [|done..|].
    - rewrite Hn, Hf, view_insert_eq. by rewrite Hd.
    - cbn -[restore]. by apply restore_snapshot_perm. }
  destruct r as [u|e].
  - left. destruct Hout as (bs & f & Hp & Hd & Hf & _). by eapply Hload.
  - destruct Hout as [_ [Hsame|(bs & f & Hp & Hd & Hf & _)]]; [right|left; by eapply Hload].
    split; [done|congruence].
Qed.

(** A start of the relay, under a schedule of faults of its own. *)
Definition start (p : Path) (fs : Fs) (attempt : Z * list Tick) : Fs :=
  (load_or_create p attempt.1
     {| names := fs.(names); durable := fs.(durable); schedule := attempt.2;
        entropy := fs.(entropy) |}).2.

(** C38. Migrating a legacy state never loses the reservations: after any number
    of starts, each cut short by a fault anywhere, the state file is still the
    legacy file, with a backup that is missing or a prefix of it, or it is the
    migrated state and the backup is the whole legacy file. *)
Theorem migration_never_loses_reservations p b L legacy attempts fs :
  backup_path p = Ok b → p ≠ b → legacy_bytes L legacy →
  view_at fs.(names) p = Content L → view_at fs.(names) b = Absent →
  Forall (λ a, 0 ≤ a.1 ∧ Forall (λ t, ∀ m, t.(meanwhile) m = m) a.2) attempts →
  let fs' := foldl (start p) fs attempts in
  migration_safe L legacy (view_at fs'.(names) p) (view_at fs'.(names) b).
Proof.
  intros Hb Hpb HL Hp Hvb Hatt fs'.
  assert (Hsafe : migration_safe L legacy (view_at (names fs) p) (view_at (names fs) b))
    by (left; split; [done|by left]).
  clear Hp Hvb. subst fs'. revert fs Hsafe. induction Hatt as [|[now ticks] atts [Hnow Ht] _ IH];
    intros fs Hsafe; cbn; [done|]. apply IH. unfold start. cbn in *.
  set (fs0 := {| names := names fs |}).
  pose proof (run2_or p b _ _ _ _ _ (run2_load_legacy p b Hpb Hb L legacy now HL Hnow)
    (run2_load_migrated p b L legacy now)) as Hrun.
  destruct (load_or_create p now fs0) as [r fs1] eqn:E.
  destruct (Hrun fs0 r fs1 Ht Hsafe E) as [_ Hout]. by destruct r.
Qed.

(** Migration keeps every reservation: the table holds, for each legacy entry,
    the lease of the hashed token on the same port, waiting for its host for 300
    seconds, and nothing else. *)
Theorem migration_keeps_ports legacy now t :
  migrate_legacy legacy now = Ok t → now < U64_MAX →
  (∀ hex port, (hex, port) ∈ legacy.(token_ports) → ∃ token, parse_hex_32 hex = Ok token ∧
     t.(leases) !! from_token token = Some (record_lease (legacy_record now token port))) ∧
  (∀ id l, t.(leases) !! id = Some l → ∃ hex port token, (hex, port) ∈ legacy.(token_ports) ∧
     parse_hex_32 hex = Ok token ∧ id = from_token token ∧
     l = record_lease (legacy_record now token port)).
Proof.
  intros (rs & Hall & Hres)%migrate_legacy_ok Hnow. apply restore_ok in Hres as (_ & _ & Hl).
  split.
  - intros hex port Hin. apply list_elem_of_lookup in Hin as [i Hi].
    rewrite Forall2_lookup in Hall. specialize (Hall i). rewrite Hi in Hall.
    inversion Hall as [? r (token & Htok & Hr) E1 E2|]; subst. exists token. split; [done|].
    apply Hl. exists (legacy_record now token port). split_and!; [|done| |done].
    + apply list_elem_of_lookup. exists i. by rewrite <- E2.
    + cbn. unfold saturating_add_u64, GRACE_MS. lia.
  - intros id l Hid. apply Hl in Hid as (r & Hr & <- & _ & ->).
    apply list_elem_of_lookup in Hr as [i Hi]. rewrite Forall2_lookup in Hall.
    specialize (Hall i). rewrite Hi in Hall.
    inversion Hall as [[hex port] ? (token & Htok & Hr) E1 E2|]; subst.
    exists hex, port, token. split_and!; [|done..]. apply list_elem_of_lookup. by exists i.
Qed.

(** C39. A state file that is too large, is not JSON, names a version or does not
    read as a legacy state is never written over, nor is anything else. *)
Theorem unknown_state_untouched p L now fs :
  alone fs → view_at fs.(names) p = Content L →
  (MAX_STATE_BYTES < Z.of_nat (length L) ∨
   ∀ v, from_slice L = Ok v → get_version v = true ∨ is_ok (legacy_from_value v) = false) →
  (load_or_create p now fs).2.(names) = fs.(names).
Proof.
  intros Ha Hv Hbad. unfold load_or_create. unfold mbind at 1, M_bind at 1.
  destruct (attempt (metadata p) fs) as [r fs1] eqn:E1.
  destruct (observer_attempt _ (observer_metadata p) _ _ _ Ha E1) as [Ha1 Hn1].
  unfold attempt in E1. simplify_eq. set (fs1 := (metadata p fs).2) in *.
  destruct (metadata p fs).1 as [n|[| |[]|]]; try done.
  unfold mbind at 1, M_bind at 1, ensure at 1. destruct (_ <=? _); [|done].
  unfold mbind at 1, M_bind at 1. destruct (fs_read p fs1) as [[bs|e] fs2] eqn:E2;
    destruct (observer_read _ _ _ _ Ha1 E2) as [Ha2 Hn2]; [|by cbn; congruence].
  rewrite <- Hn1 in Hv. apply (fs_read_ok p L) in E2; [subst bs|done..].
  unfold mbind at 1, M_bind at 1, ensure at 1.
  destruct (Z.leb_spec (Z.of_nat (length L)) MAX_STATE_BYTES) as [Hle|]; [|cbn; congruence].
  destruct Hbad as [|Hbad]; [lia|]. unfold mbind at 1, M_bind at 1, lift at 1.
  destruct (from_slice L) as [v|]; [|cbn; congruence].
  specialize (Hbad v eq_refl). destruct (get_version v).
  - match goal with |- names (?m fs2).2 = _ => assert (Ho : observer m) by observe end.
    match goal with |- names (?m fs2).2 = _ => destruct (m fs2) as [r3 fs3] eqn:E3 end.
    destruct (Ho _ _ _ Ha2 E3) as [_ Hn3]. cbn. congruence.
  - destruct Hbad as [|Hleg]; [done|]. unfold mbind, M_bind, lift.
    destruct (legacy_from_value v); [done|cbn; congruence].
Qed.
End properties.

(** ** Concrete instances *)

Section witnesses.
#[local] Existing Instance first_32.
#[local] Instance witness_order : IterOrder TokenId Lease := gmap_order.

#[local] Existing Instances bit_json bit_json_law.
#[local] Existing Instance posix_tempfile.
#[local] Existing Instance posix_laws.

Definition w_store : Path := ["srv"; "gamenet-state.json"]%string.
Definition w_backup : Path := ["srv"; "gamenet-state.json.legacy-backup"]%string.
Definition w_disk (content : list byte) : Fs :=
  {| names := <[w_store := FileN {| data := content; private := true; synced := true |}]>
                {[["srv"]%string := DirN]};
     durable := ∅; schedule := []; entropy := [] |}.

(** A relay with one active host saves at 1000 and restarts at 2000. *)
Definition w_id : TokenId := from_token (repeat_byte 32 x2a).
Definition w_table : LeaseTable :=
  run_op (OpActivate w_id None (w_ip x01) 10000 1000) LeaseTable_new.

Lemma w_table_wf : leases_wf w_table.(leases).
Proof. apply run_op_inv, lease_inv_new. Qed.

Lemma w_table_expiry : Forall (λ r, u64_ok (LeaseRecord.expires_at_ms r)) (snapshot 1000 w_table).
Proof.
  assert (Hall : forallb (λ r, (0 <=? LeaseRecord.expires_at_ms r) &&
    (LeaseRecord.expires_at_ms r <=? U64_MAX)) (snapshot 1000 w_table) = true)
    by (vm_compute; reflexivity).
  rewrite forallb_forall in Hall. apply Forall_forall. intros r Hr%list_elem_of_In%Hall.
  unfold u64_ok. bool_prop. lia.
Qed.

Lemma saved_table_survives_restart_witness :
  (load_or_create w_store 2000 (save w_store (snapshot 1000 w_table) (w_disk [])).2).1
    = Ok (restarted 1000 2000 w_table) ∨
  is_ok (save w_store (snapshot 1000 w_table) (w_disk [])).1 = false ∧
    (save w_store (snapshot 1000 w_table) (w_disk [])).2.(names) = (w_disk []).(names).
Proof.
  apply (saved_table_survives_restart w_store w_table 1000 2000 (w_disk [])
    (save w_store (snapshot 1000 w_table) (w_disk [])).1
    (save w_store (snapshot 1000 w_table) (w_disk [])).2);
    [apply w_table_wf|apply w_table_expiry|constructor|apply surjective_pairing|reflexivity|].
  vm_compute. reflexivity.
Defined.


(** A legacy state with one reservation, and two starts: the first fails after
    writing ten bytes of the backup. *)
Definition w_legacy : LegacyState :=
  {| token_ports := [(hex_32 (repeat_byte 32 x2a), 10000)] |}.
Definition w_legacy_bytes : list byte := bits_of (encode (inr w_legacy.(token_ports) : state_shape)).
Definition quiet : Tick := {| meanwhile m := m; fault := None; partial := 0 |}.
Definition broken : Tick := {| meanwhile m := m; fault := Some OtherKind; partial := 10 |}.
Definition w_starts : list (Z * list Tick) :=
  [(1000, [quiet; quiet; quiet; quiet; broken]); (2000, [])].

Lemma migration_never_loses_reservations_witness :
  let fs' := foldl (start w_store) (w_disk w_legacy_bytes) w_starts in
  migration_safe w_legacy_bytes w_legacy (view_at fs'.(names) w_store) (view_at fs'.(names) w_backup).
Proof.
  apply (migration_never_loses_reservations w_store w_backup w_legacy_bytes w_legacy w_starts
    (w_disk w_legacy_bytes)).
  - reflexivity.
  - by intros [=].
  - exists (inr w_legacy.(token_ports)). split_and!; [|reflexivity..].
    unfold from_slice, bit_json, w_legacy_bytes. rewrite of_bits_of. cbn -[decode encode].
    by rewrite decode_encode.
  - reflexivity.
  - reflexivity.
  - repeat constructor; cbn; lia.
Defined.

Definition w_migrated : LeaseTable :=
  {| leases := {[w_id := record_lease (legacy_record 1000 (repeat_byte 32 x2a) 10000)]};
     next_session_id := 0 |}.

Lemma migration_keeps_ports_witness :
  ∃ token, parse_hex_32 (hex_32 (repeat_byte 32 x2a)) = Ok token ∧
    w_migrated.(leases) !! from_token token = Some (record_lease (legacy_record 1000 token 10000)).
Proof.
  apply (migration_keeps_ports w_legacy 1000 w_migrated); [reflexivity|reflexivity|by left].
Defined.

Lemma unknown_state_untouched_witness :
  (load_or_create w_store 1000 (w_disk [xff])).2.(names) = (w_disk [xff]).(names).
Proof.
  apply (unknown_state_untouched w_store [xff]); [constructor|reflexivity|].
  right. intros v Hv. discriminate Hv.
Defined.

End witnesses.
