(* ===== verification/State.v ===== *)
(** The relay's state (crates/server/src/state.rs): the lease table, its health,
    and the connections of active hosts, over an abstract store and network. *)

From S2P Require Import Prelude Bytes HostAdmission LeaseTable LeaseStore Fs.

(** [now_ms]: milliseconds since the epoch, [None] when the clock is before it. *)
Definition now_ms (since_epoch : option Z) : Z :=
  let ms := default 0 since_epoch in if ms <=? U64_MAX then ms else U64_MAX.

(** ** What the state uses of its surroundings *)

(** [LeaseStore::load_or_create] and [LeaseStore::save]: [LeaseStore] implements
    them, see [FileStore]. *)
Class Store (W : Type) := {
  store_load : Z → M W LeaseTable;
  store_save : list LeaseRecord → M W unit;
}.

(** [quinn::Connection] and [tokio]'s [TcpListener::bind] on a port of 0.0.0.0. *)
Class Network (W : Type) := {
  Connection : Type;
  Listener : Type;
  tcp_bind : Z → M W Listener;
}.

(** [stored P w]: whatever a restart finds of the state, now that the process may
    be killed at any time, satisfies [P].  The store promises: after a save a
    restart finds what was saved; after a failed one, what was there before or
    what should have been saved; binding a port saves nothing. *)
Class StoreLaws (W : Type) `{Store W} `{Network W}
    (stored : (list LeaseRecord → Prop) → W → Prop) : Prop := {
  stored_mono (P Q : list LeaseRecord → Prop) w :
    (∀ rs, P rs → Q rs) → stored P w → stored Q w;
  save_law rs w :
    match (store_save rs w).1 with
    | Ok _ => stored (eq rs) (store_save rs w).2
    | Err _ => ∀ P, stored P w → P rs → stored P (store_save rs w).2
    end;
  bind_law port P w : stored P w → stored P (tcp_bind port w).2;
}.

Section state.
Context `{Digest} `{!IterOrder TokenId Lease} {W : Type} `{Store W} `{Network W}.

(** The [store] field is the world itself. *)
Record ServerState := {
  st_leases : LeaseTable;
  persistence_healthy : bool;
  active_connections : gmap TokenId (SessionId * Connection);
}.

Record Registration := {
  listener : Listener;
  public_port : Z;
  reg_token_id : TokenId;
  reg_session_id : SessionId;
}.

Definition set_st_leases (t : LeaseTable) (s : ServerState) : ServerState :=
  {| st_leases := t; persistence_healthy := s.(persistence_healthy);
     active_connections := s.(active_connections) |}.
Definition set_healthy (b : bool) (s : ServerState) : ServerState :=
  {| st_leases := s.(st_leases); persistence_healthy := b;
     active_connections := s.(active_connections) |}.
Definition set_connections (m : gmap TokenId (SessionId * Connection)) (s : ServerState) : ServerState :=
  {| st_leases := s.(st_leases); persistence_healthy := s.(persistence_healthy);
     active_connections := m |}.

(** Methods of [ServerState] run on the state and the world. *)
Definition SM (A : Type) : Type := M (ServerState * W) A.

Definition on_world {A} (m : M W A) : SM A :=
  λ '(s, w), let '(r, w') := m w in (r, (s, w')).
Definition on_leases {A} (m : M LeaseTable A) : SM A :=
  λ '(s, w), let '(r, t) := m s.(st_leases) in (r, (set_st_leases t s, w)).
Definition self : SM ServerState := λ sw, (Ok sw.1, sw).
Definition update (f : ServerState → ServerState) : SM unit := λ '(s, w), (Ok tt, (f s, w)).

(** [let mut staged = self.leases.clone(); staged.method(..)?]. *)
Definition staged {A} (m : M LeaseTable A) : SM (A * LeaseTable) :=
  s ← self;
  lift (match m s.(st_leases) with (Ok a, t) => Ok (a, t) | (Err e, _) => Err e end).

(** [if let Err(error) = self.store.save(..) { self.persistence_healthy = false; return Err(error) }]. *)
Definition save_or_block (records : list LeaseRecord) : SM unit :=
  outcome ← attempt (on_world (store_save records));
  match outcome with
  | Ok _ => mret tt
  | Err e => update (set_healthy false);; fail e
  end.

Definition require_healthy : SM unit :=
  s ← self; ensure s.(persistence_healthy) (Msg "Lease storage is unavailable").

(** The loop over the candidate ports. *)
Fixpoint register_loop (token_id : TokenId) (recovery_id : option (bytes 32)) (peer_ip : IpAddr)
    (now : Z) (connection : option Connection) (ports : list Z) : SM Registration :=
  match ports with
  | [] => fail (Msg "No free TCP port can be bound in the relay's port range")
  | port :: ports =>
      outcome ← attempt (on_world (tcp_bind port));
      match outcome with
      | Err (Io AddrInUse) => register_loop token_id recovery_id peer_ip now connection ports
      | Err e => fail e
      | Ok listener =>
          '(session_id, table) ← staged
            (activate_with_recovery token_id (MkTokenId <$> recovery_id) peer_ip port now);
          save_or_block (snapshot now table);;
          update (set_st_leases table);;
          update (λ s, match connection with
                       | Some c => set_connections
                           (<[token_id := (session_id, c)]> s.(active_connections)) s
                       | None => s
                       end);;
          mret {| listener := listener; public_port := port;
                  reg_token_id := token_id; reg_session_id := session_id |}
      end
  end.

Definition register_with_recovery (token : TunnelToken) (recovery_id : option (bytes 32))
    (peer_ip : IpAddr) (now : Z) (connection : option Connection) : SM Registration :=
  require_healthy;;
  let token_id := from_token token in
  candidates ← on_leases (candidate_ports token_id peer_ip now);
  register_loop token_id recovery_id peer_ip now connection candidates.

(** A registration whose future is dropped while it binds a port: nothing after
    [candidate_ports] has happened. *)
Definition register_abandoned (token : TunnelToken) (peer_ip : IpAddr) (now : Z) : SM unit :=
  require_healthy;;
  on_leases (candidate_ports (from_token token) peer_ip now);;
  mret tt.

(** [register], the test helper. *)
Definition register (token : TunnelToken) (peer_ip : IpAddr) (now : Z) : SM Registration :=
  register_with_recovery token None peer_ip now None.

(** [ServerState::end] *)
Definition end_session (token_id : TokenId) (session_id : SessionId) (now : Z) : SM bool :=
  ended ← on_leases (λ t, let '(b, t) := end_ token_id session_id now t in (Ok b, t));
  if negb ended then mret false else
  update (λ s, match s.(active_connections) !! token_id with
               | Some (active, _) =>
                   if bool_decide (active = session_id)
                   then set_connections (delete token_id s.(active_connections)) s else s
               | None => s
               end);;
  s ← self;
  save_or_block (snapshot now s.(st_leases));;
  mret true.

Definition rotate (old new : TunnelToken) (now : Z) : SM (option Z) :=
  require_healthy;;
  '(result, table) ← staged (rotate_claim (from_token old) (from_token new) now);
  match result with
  | Unchanged _ => mret (RotationResult_port result)
  | Transferred port =>
      save_or_block (snapshot now table);;
      update (set_st_leases table);;
      mret (Some port)
  end.

(** The displaced session's connection, taken out of the map. *)
Definition take_connection (displaced : option (TokenId * SessionId)) : SM (option Connection) :=
  match displaced with
  | None => mret None
  | Some (old, session) =>
      s ← self;
      match s.(active_connections) !! old with
      | Some (active, connection) =>
          if bool_decide (active = session)
          then update (set_connections (delete old s.(active_connections)));; mret (Some connection)
          else mret None
      | None => mret None
      end
  end.

Definition recover (secret new : TunnelToken) (peer_ip : IpAddr) (now : Z)
    : SM (Z * option Connection) :=
  require_healthy;;
  '(result, table) ← staged (recover_claim (from_token secret) (from_token new) peer_ip now);
  if negb result.(changed) then mret (result.(recovered_port), None) else
  save_or_block (snapshot now table);;
  update (set_st_leases table);;
  connection ← take_connection result.(displaced);
  mret (result.(recovered_port), connection).

Definition refresh_and_save (now : Z) : SM unit :=
  update (λ s, set_st_leases (reap_expired now s.(st_leases)) s);;
  s ← self;
  save_or_block (snapshot now s.(st_leases));;
  update (set_healthy true).

(** [ServerState::load_or_new] *)
Definition new_state (t : LeaseTable) : ServerState :=
  {| st_leases := t; persistence_healthy := true; active_connections := ∅ |}.
Definition load_or_new (now : Z) : M W ServerState :=
  leases ← store_load now;
  mret (new_state leases).
End state.
Arguments ServerState : clear implicits.
Arguments ServerState W {_}.

