(* ===== verification/StateFacts.v ===== *)
(** Lemmas on [State]: what each method does to the table, the connections and
    the store, on every branch. *)

From S2P Require Import Prelude Bytes HostAdmission LeaseTable LeaseFacts LeaseInv State.

(** ** Sessions of a table *)

Section sessions.
Context `{!IterOrder TokenId Lease}.

Lemma active_session_Some id t s :
  active_session id t = Some s ↔ ∃ l, t.(leases) !! id = Some l ∧ Lease.status l = Active s.
Proof.
  unfold active_session. destruct (leases t !! id) as [l|]; cbn; [|naive_solver].
  destruct (Lease.status l) eqn:E; split; naive_solver congruence.
Qed.

Lemma active_session_reap id now t : active_session id (reap_expired now t) = active_session id t.
Proof.
  apply option_eq. intros s. rewrite !active_session_Some. setoid_rewrite reap_lookup. split.
  - intros (l & [Hl _] & Hs). eauto.
  - intros (l & Hl & Hs). exists l. split_and!; [done| |done]. unfold expired. by rewrite Hs.
Qed.

Lemma active_session_insert id id' l m n :
  active_session id' {| leases := <[id := l]> m; next_session_id := n |} =
  if decide (id' = id) then match Lease.status l with Active s => Some s | Grace _ => None end
  else active_session id' {| leases := m; next_session_id := n |}.
Proof.
  unfold active_session. cbn. case_decide as E; [subst|by rewrite lookup_insert_ne].
  by rewrite lookup_insert_eq.
Qed.

Lemma active_session_delete id id' m n :
  active_session id' {| leases := delete id m; next_session_id := n |} =
  if decide (id' = id) then None else active_session id' {| leases := m; next_session_id := n |}.
Proof.
  unfold active_session. cbn. case_decide as E; [subst; by rewrite lookup_delete_eq|].
  by rewrite lookup_delete_ne.
Qed.

Lemma active_session_activation id r ip port t s t' id' : activation_of id r ip port t s t' →
  active_session id' t' = if decide (id' = id) then Some s else active_session id' t.
Proof.
  intros (_ & _ & _ & _ & _ & ->). rewrite active_session_insert. by case_decide.
Qed.

Lemma active_session_end id s now t t' id' : end_ id s now t = (true, t') →
  active_session id' t' = if decide (id' = id) then None else active_session id' t.
Proof.
  intros (l & Hl & Hs & ->)%end_true. unfold set_leases. rewrite active_session_insert. by case_decide.
Qed.

(** A transfer of the claim of [old] to an identity that had none. *)
Lemma active_session_transfer old new l e t id' :
  t.(leases) !! new = None → old ≠ new → Lease.status l = Grace e →
  active_session id' (set_leases (<[new := l]> (delete old t.(leases))) t) =
  if decide (id' = old) then None else active_session id' t.
Proof.
  intros Hnew Hne Hl. unfold set_leases. rewrite active_session_insert, active_session_delete, Hl.
  destruct (decide (id' = new)) as [->|]; [|by case_decide].
  rewrite decide_False by done. unfold active_session. by rewrite Hnew.
Qed.
End sessions.

(** ** Runs of the methods *)

Section runs.
Context `{Digest} `{!IterOrder TokenId Lease} {W : Type} `{StoreLaws W stored}.
Implicit Types (s : ServerState W) (w : W).

Lemma save_or_block_run rs s w r s' w' : save_or_block rs (s, w) = (r, (s', w')) →
  match r with
  | Ok _ => s' = s ∧ stored (eq rs) w'
  | Err _ => s' = set_healthy false s
  end.
Proof.
  unfold save_or_block, attempt, on_world, update, fail. unfold mbind, M_bind.
  pose proof (save_law rs w) as Hl. destruct (store_save rs w) as [[u|e] w1]; cbn in *.
  - intros [= <- <- <-]. done.
  - intros [= <- <- <-]. done.
Qed.

(** What a failed or refused registration leaves. *)
Lemma register_loop_run id rid ip now conn ports s w r s' w' :
  register_loop id rid ip now conn ports (s, w) = (r, (s', w')) →
  match r with
  | Ok reg => ∃ t,
      activate_with_recovery id (MkTokenId <$> rid) ip (public_port reg) now (st_leases s)
        = (Ok (reg_session_id reg), t) ∧
      public_port reg ∈ ports ∧ reg_token_id reg = id ∧ stored (eq (snapshot now t)) w' ∧
      s' = {| st_leases := t; persistence_healthy := persistence_healthy s;
              active_connections := match conn with
                | Some c => <[id := (reg_session_id reg, c)]> (active_connections s)
                | None => active_connections s
                end |}
  | Err _ => (s' = s ∧ ∀ P, stored P w → stored P w') ∨ s' = set_healthy false s
  end.
Proof.
  revert w. induction ports as [|port ports IH]; intros w; cbn [register_loop].
  { intros [= <- <- <-]. auto. }
  unfold attempt, on_world. unfold mbind at 1, M_bind at 1.
  destruct (tcp_bind port w) as [rb w1] eqn:Hb.
  assert (Hkeep : ∀ P, stored P w → stored P w1).
  { intros P Hrs. pose proof (bind_law port P w Hrs) as Hs. by rewrite Hb in Hs. }
  destruct rb as [lst|[| |[]|]]; cbn; try (intros [= <- <- <-]; by auto).
  - unfold staged, self, lift. unfold mbind at 1, M_bind at 1. unfold mbind at 1, M_bind at 1. cbn.
    destruct (activate_with_recovery id (MkTokenId <$> rid) ip port now (st_leases s))
      as [[ses|e] t] eqn:Hact; [|intros [= <- <- <-]; by auto].
    unfold mbind at 1, M_bind at 1.
    destruct (save_or_block (snapshot now t) (s, w1)) as [[[]|e] [s2 w2]] eqn:Hsave;
      apply save_or_block_run in Hsave; [destruct Hsave as [-> Hst]|intros [= <- <- <-]; by auto].
    unfold update, mbind, M_bind, mret, M_ret. intros [= <- <- <-]. cbn. exists t.
    split_and!; [done|by left|done|done|]. by destruct conn, s.
  - intros Hrun. apply IH in Hrun. destruct r as [reg|e].
    + destruct Hrun as (t & ? & ? & ?). exists t. split_and!; try done; [by right|tauto..].
    + destruct Hrun as [[-> Hk]|]; [left; auto|by right].
Qed.

(** The outcome of a method that may change the claims: on success the new
    table is the saved one, on failure the claims are those before, reaped. *)
Definition claims_kept (now : Z) s w s' w' : Prop :=
  (st_leases s' = st_leases s ∨ st_leases s' = reap_expired now (st_leases s)) ∧
  active_connections s' = active_connections s ∧
  (persistence_healthy s' = true → persistence_healthy s = true ∧ ∀ P, stored P w → stored P w').

Lemma register_run token rid ip now conn s w r s' w' :
  register_with_recovery token rid ip now conn (s, w) = (r, (s', w')) →
  match r with
  | Ok reg => ∃ t, persistence_healthy s = true ∧
      activation_of (from_token token) (MkTokenId <$> rid) ip (public_port reg)
        (reap_expired now (st_leases s)) (reg_session_id reg) t ∧
      reg_token_id reg = from_token token ∧ stored (eq (snapshot now t)) w' ∧
      s' = {| st_leases := t; persistence_healthy := true;
              active_connections := match conn with
                | Some c => <[from_token token := (reg_session_id reg, c)]> (active_connections s)
                | None => active_connections s
                end |}
  | Err _ => claims_kept now s w s' w'
  end.
Proof.
  unfold register_with_recovery, require_healthy, self, ensure. unfold mbind at 1, M_bind at 1.
  unfold mbind at 1, M_bind at 1. cbn.
  destruct (persistence_healthy s) eqn:Hh; cbn.
  2:{ intros [= <- <- <-]. split_and!; [by left|done|]. congruence. }
  unfold on_leases. unfold mbind at 1, M_bind at 1.
  pose proof (candidate_ports_state (from_token token) ip now (st_leases s)) as Hc.
  destruct (candidate_ports _ _ _ _) as [[ports|e] t1]; cbn in Hc; subst t1.
  2:{ intros [= <- <- <-]. split_and!; [by right|done|]. by auto. }
  intros Hrun. apply register_loop_run in Hrun. destruct r as [reg|e].
  - destruct Hrun as (t & Hact & _ & Htok & Hst & ->). exists t.
    apply activate_ok in Hact. cbn in Hact. rewrite reap_idem in Hact.
    split_and!; [done..|]. cbn. by rewrite Hh.
  - destruct Hrun as [[-> Hk]| ->]; (split_and!; [by right|done|]); cbn; [by auto|done].
Qed.

Lemma abandoned_run token ip now s w r s' w' :
  register_abandoned token ip now (s, w) = (r, (s', w')) → claims_kept now s w s' w'.
Proof.
  unfold register_abandoned, require_healthy, self, ensure. unfold mbind at 1, M_bind at 1.
  unfold mbind at 1, M_bind at 1. cbn.
  destruct (persistence_healthy s) eqn:Hh; cbn.
  2:{ intros [= <- <- <-]. split_and!; [by left|done|]. congruence. }
  unfold on_leases. unfold mbind, M_bind.
  pose proof (candidate_ports_state (from_token token) ip now (st_leases s)) as Hc.
  destruct (candidate_ports _ _ _ _) as [[ports|e] t1]; cbn in Hc; subst t1;
    intros [= <- <- <-]; (split_and!; [by right|done|]; by auto).
Qed.

Lemma rotate_run old new now s w r s' w' :
  rotate old new now (s, w) = (r, (s', w')) →
  match r with
  | Ok port => persistence_healthy s = true ∧ ∃ res t,
      rotation_of (from_token old) (from_token new) (reap_expired now (st_leases s)) res t ∧
      port = RotationResult_port res ∧
      match res with
      | Transferred _ => stored (eq (snapshot now t)) w' ∧ s' = set_st_leases t s
      | Unchanged _ => s' = s ∧ w' = w
      end
  | Err _ => claims_kept now s w s' w'
  end.
Proof.
  unfold rotate, require_healthy, self, ensure. unfold mbind at 1, M_bind at 1.
  unfold mbind at 1, M_bind at 1. cbn.
  destruct (persistence_healthy s) eqn:Hh; cbn.
  2:{ intros [= <- <- <-]. split_and!; [by left|done|]. congruence. }
  unfold staged, self, lift. unfold mbind at 1, M_bind at 1. unfold mbind at 1, M_bind at 1. cbn.
  destruct (rotate_claim (from_token old) (from_token new) now (st_leases s)) as [[res|e] t] eqn:Hrot.
  2:{ intros [= <- <- <-]. split_and!; [by left|done|by auto]. }
  apply rotate_ok in Hrot. destruct res as [port|port].
  - unfold mbind at 1, M_bind at 1.
    destruct (save_or_block (snapshot now t) (s, w)) as [[[]|e] [s2 w2]] eqn:Hsave;
      apply save_or_block_run in Hsave.
    + destruct Hsave as [-> Hst]. intros [= <- <- <-]. split; [done|].
      exists (Transferred port), t. by split_and!.
    + intros [= <- <- <-]. subst s2. split_and!; [by left|done|done].
  - intros [= <- <- <-]. split; [done|]. exists (Unchanged port), t. by split_and!.
Qed.

Lemma take_connection_run d s w :
  take_connection d (s, w) =
  match d with
  | Some (old, session) =>
      match active_connections s !! old with
      | Some (active, c) =>
          if decide (active = session)
          then (Ok (Some c), (set_connections (delete old (active_connections s)) s, w))
          else (Ok None, (s, w))
      | None => (Ok None, (s, w))
      end
  | None => (Ok None, (s, w))
  end.
Proof.
  unfold take_connection, self, update, mbind, M_bind, mret, M_ret. destruct d as [[old ses]|]; [|done].
  cbn. destruct (active_connections s !! old) as [[active c]|]; [|done].
  destruct (decide (active = ses)); [by rewrite bool_decide_true|by rewrite bool_decide_false].
Qed.

Lemma recover_run secret new ip now s w r s' w' :
  recover secret new ip now (s, w) = (r, (s', w')) →
  match r with
  | Ok (port, conn) => persistence_healthy s = true ∧ ∃ old l res t,
      find_recovery (from_token secret) (reap_expired now (st_leases s)) = Some (old, l) ∧
      recovery_of old l (from_token new) ip now (reap_expired now (st_leases s)) res t ∧
      port = recovered_port res ∧
      if changed res
      then stored (eq (snapshot now t)) w' ∧
           take_connection (displaced res) (set_st_leases t s, w') = (Ok conn, (s', w'))
      else conn = None ∧ s' = s ∧ w' = w
  | Err _ => claims_kept now s w s' w'
  end.
Proof.
  unfold recover, require_healthy, self, ensure. unfold mbind at 1, M_bind at 1.
  unfold mbind at 1, M_bind at 1. cbn.
  destruct (persistence_healthy s) eqn:Hh; cbn.
  2:{ intros [= <- <- <-]. split_and!; [by left|done|]. congruence. }
  unfold staged, self, lift. unfold mbind at 1, M_bind at 1. unfold mbind at 1, M_bind at 1. cbn.
  destruct (recover_claim (from_token secret) (from_token new) ip now (st_leases s))
    as [[res|e] t] eqn:Hrec.
  2:{ intros [= <- <- <-]. split_and!; [by left|done|by auto]. }
  apply recover_ok in Hrec as (old & l & Hf & Hof). destruct (changed res) eqn:Hch; cbn.
  - unfold mbind at 1, M_bind at 1.
    destruct (save_or_block (snapshot now t) (s, w)) as [[[]|e] [s2 w2]] eqn:Hsave;
      apply save_or_block_run in Hsave.
    + destruct Hsave as [-> Hst]. unfold update. unfold mbind at 1, M_bind at 1.
      unfold mbind, M_bind.
      pose proof (take_connection_run (displaced res) (set_st_leases t s) w2) as Ht.
      destruct (take_connection (displaced res) (set_st_leases t s, w2)) as [[c|e] [s3 w3]] eqn:Htk.
      * intros [= <- <- <-]. assert (w3 = w2) as -> by (repeat case_match; congruence).
        split; [done|]. exists old, l, res, t. rewrite Hch. by split_and!.
      * repeat case_match; congruence.
    + intros [= <- <- <-]. subst s2. split_and!; [by left|done|done].
  - intros [= <- <- <-]. split; [done|]. exists old, l, res, t. rewrite Hch. by split_and!.
Qed.

Lemma end_run id ses now s w r s' w' : end_session id ses now (s, w) = (r, (s', w')) →
  ∃ b t, end_ id ses now (st_leases s) = (b, t) ∧ st_leases s' = t ∧
    (if b : bool then
       active_connections s' = match active_connections s !! id with
         | Some (active, _) => if decide (active = ses) then delete id (active_connections s)
                               else active_connections s
         | None => active_connections s
         end ∧
       match r with
       | Ok b' => b' = true ∧ persistence_healthy s' = persistence_healthy s ∧ stored (eq (snapshot now t)) w'
       | Err _ => persistence_healthy s' = false
       end
     else r = Ok false ∧ s' = s ∧ w' = w).
Proof.
  unfold end_session, on_leases. unfold mbind at 1, M_bind at 1.
  destruct (end_ id ses now (st_leases s)) as [b t] eqn:He. destruct b; cbn.
  2:{ intros [= <- <- <-]. apply end_false in He as [-> _]. exists false, (st_leases s).
      by destruct s. }
  unfold update, self. unfold mbind at 1, M_bind at 1. unfold mbind at 1, M_bind at 1. cbn.
  set (s1 := match active_connections s !! id with
             | Some (active, _) => if bool_decide (active = ses)
                 then set_connections (delete id (active_connections s)) (set_st_leases t s)
                 else set_st_leases t s
             | None => set_st_leases t s
             end).
  unfold mbind, M_bind.
  assert (Hs1 : st_leases s1 = t ∧ persistence_healthy s1 = persistence_healthy s ∧
    active_connections s1 = match active_connections s !! id with
         | Some (active, _) => if decide (active = ses) then delete id (active_connections s)
                               else active_connections s
         | None => active_connections s
         end).
  { unfold s1. destruct (active_connections s !! id) as [[active c]|]; [|done].
    destruct (decide (active = ses)); [by rewrite bool_decide_true|by rewrite bool_decide_false]. }
  clearbody s1. destruct Hs1 as (Ht & Hh & Hc).
  destruct (save_or_block (snapshot now (st_leases s1)) (s1, w)) as [[[]|e] [s2 w2]] eqn:Hsave;
    apply save_or_block_run in Hsave; intros [= <- <- <-].
  - destruct Hsave as [-> Hst]. rewrite Ht in Hst. exists true, t. by split_and!.
  - subst s2. exists true, t. by split_and!.
Qed.

Lemma refresh_run now s w r s' w' : refresh_and_save now (s, w) = (r, (s', w')) →
  st_leases s' = reap_expired now (st_leases s) ∧ active_connections s' = active_connections s ∧
  match r with
  | Ok _ => persistence_healthy s' = true ∧ stored (eq (snapshot now (st_leases s'))) w'
  | Err _ => persistence_healthy s' = false
  end.
Proof.
  unfold refresh_and_save, update, self. unfold mbind at 1, M_bind at 1.
  unfold mbind at 1, M_bind at 1. cbn. unfold mbind, M_bind.
  destruct (save_or_block _ _) as [[[]|e] [s2 w2]] eqn:Hsave;
    apply save_or_block_run in Hsave; intros [= <- <- <-].
  - destruct Hsave as [-> Hst]. by split_and!.
  - subst s2. by split_and!.
Qed.
End runs.
