(* ===== verification/StateInv.v ===== *)
(** The invariant of the relay's state over every history of its methods, proved
    against the store's interface. *)

From Stdlib Require Import Strings.Byte.
From S2P Require Import Prelude Bytes HostAdmission LeaseTable LeaseFacts LeaseInv LeaseRestore.
From S2P Require Import State StateFacts.

Section properties.
Context `{Digest} `{!IterOrder TokenId Lease} {W : Type} `{StoreLaws W stored}.
Implicit Types (s : ServerState W) (w : W).

(** ** Histories *)

Inductive state_op :=
  | OpRegister (token : TunnelToken) (recovery_id : option (bytes 32)) (ip : IpAddr) (now : Z)
               (connection : Connection)
  | OpEndSession (id : TokenId) (session : SessionId) (now : Z)
  | OpRotateTokens (old new : TunnelToken) (now : Z)
  | OpRecoverTokens (secret new : TunnelToken) (ip : IpAddr) (now : Z)
  | OpAbandon (token : TunnelToken) (ip : IpAddr) (now : Z)
  | OpRefresh (now : Z).

Definition run_state_op (op : state_op) (sw : ServerState W * W) : ServerState W * W :=
  match op with
  | OpRegister token rid ip now c => (register_with_recovery token rid ip now (Some c) sw).2
  | OpEndSession id ses now => (end_session id ses now sw).2
  | OpRotateTokens old new now => (rotate old new now sw).2
  | OpRecoverTokens secret new ip now => (recover secret new ip now sw).2
  | OpAbandon token ip now => (register_abandoned token ip now sw).2
  | OpRefresh now => (refresh_and_save now sw).2
  end.

Definition state_op_time (op : state_op) : Z :=
  match op with
  | OpRegister _ _ _ now _ | OpEndSession _ _ now | OpRotateTokens _ _ now
  | OpRecoverTokens _ _ _ now | OpAbandon _ _ now | OpRefresh now => now
  end.

(** When the file was last written: now, if the method saves the table, and as
    before if it changes nothing or fails. *)
Definition save_time (op : state_op) (sw : ServerState W * W) (last : Z) : Z :=
  match op with
  | OpRegister token rid ip now c =>
      if is_ok (register_with_recovery token rid ip now (Some c) sw).1 then now else last
  | OpEndSession id ses now =>
      match (end_session id ses now sw).1 with Ok true => now | _ => last end
  | OpRotateTokens old new now =>
      match (rotate old new now sw).1,
            (rotate_claim (from_token old) (from_token new) now (st_leases sw.1)).1 with
      | Ok _, Ok (Transferred _) => now
      | _, _ => last
      end
  | OpRecoverTokens secret new ip now =>
      match (recover secret new ip now sw).1,
            (recover_claim (from_token secret) (from_token new) ip now (st_leases sw.1)).1 with
      | Ok _, Ok result => if changed result then now else last
      | _, _ => last
      end
  | OpAbandon _ _ _ => last
  | OpRefresh now => if is_ok (refresh_and_save now sw).1 then now else last
  end.

(** Deadlines are values of their type. *)
Definition deadlines_ok (t : LeaseTable) : Prop :=
  ∀ id l e, t.(leases) !! id = Some l → Lease.status l = Grace e → u64_ok e.

(** Records from which a restart gives a table that satisfies the invariant. *)
Definition restorable (rs : list LeaseRecord) : Prop :=
  records_ok rs ∧ Forall (λ r, u64_ok (LeaseRecord.expires_at_ms r)) rs ∧
  ∀ now t', restore rs now = Ok t' → lease_inv t'.

(** Every claim in memory is among the records, an active one with the deadline it
    has if its host left when the file was written, at [last]. *)
Definition covers (last : Z) (t : LeaseTable) (rs : list LeaseRecord) : Prop :=
  restorable rs ∧ ∀ id l, t.(leases) !! id = Some l →
    ∃ r, r ∈ rs ∧ LeaseRecord.token_id r = id ∧ record_lease r = demote last l.

(** Every claim in memory is among the records a restart finds. *)
Definition covered (last : Z) (t : LeaseTable) (w : W) : Prop := stored (covers last t) w.

(** Connections are kept for exactly the active sessions. *)
Definition tracks s : Prop :=
  ∀ id, fst <$> active_connections s !! id = active_session id (st_leases s).

Definition state_ok s w : Prop :=
  lease_inv (st_leases s) ∧ deadlines_ok (st_leases s) ∧ tracks s ∧
  (persistence_healthy s = true → ∃ last, covered last (st_leases s) w).

(** The same, with the time the file was last written. *)
Definition saved_ok (last : Z) s w : Prop :=
  lease_inv (st_leases s) ∧ deadlines_ok (st_leases s) ∧ tracks s ∧
  (persistence_healthy s = true → covered last (st_leases s) w).

(** What the methods keep of the claims in memory. *)
Definition claims_ok s : Prop := lease_inv (st_leases s) ∧ deadlines_ok (st_leases s).

(** States a relay can be in after loading a table. *)
Inductive state_reachable : ServerState W → W → Prop :=
  | sr_start t w : lease_inv t → deadlines_ok t → (∀ id, active_session id t = None) →
      (∃ last, covered last t w) → state_reachable (new_state t) w
  | sr_op op s w s' w' : state_reachable s w → 0 ≤ state_op_time op →
      run_state_op op (s, w) = (s', w') → state_reachable s' w'.

(** The same states, with the time at which the file was last written. *)
Inductive state_saved : Z → ServerState W → W → Prop :=
  | ss_start last t w : lease_inv t → deadlines_ok t → (∀ id, active_session id t = None) →
      covered last t w → state_saved last (new_state t) w
  | ss_op last op s w s' w' : state_saved last s w → 0 ≤ state_op_time op →
      run_state_op op (s, w) = (s', w') → state_saved (save_time op (s, w) last) s' w'.

(** ** The invariant *)

Lemma grace_u64 now : 0 ≤ now → u64_ok (saturating_add_u64 now GRACE_MS).
Proof. intros. apply saturating_add_u64_ok; [done|]. unfold GRACE_MS. lia. Qed.

Lemma new_table_covers last : covers last LeaseTable_new [].
Proof.
  split; [split_and!|done].
  - split; cbn; try constructor; try lia. set_solver.
  - done.
  - intros now' t'. unfold restore. intros [= <-]. apply lease_inv_new.
Qed.

Lemma snapshot_covers now t : 0 ≤ now → lease_inv t → deadlines_ok t → covers now t (snapshot now t).
Proof.
  intros Hnow Hinv Hdl. pose proof (wf_leases t (proj1 Hinv)) as Hwf.
  split; [split_and!; [by apply snapshot_records_ok| |]|].
  - apply Forall_forall. intros r (id & l & Hl & ->)%snapshot_elem. cbn.
    destruct (Lease.status l) eqn:E; [by apply grace_u64|by eapply Hdl].
  - intros now' t'. rewrite (restore_snapshot_perm now now' t _ Hwf (reflexivity _)).
    intros [= <-]. by apply restarted_inv.
  - intros id l Hl. exists (to_record now id l). split; [apply snapshot_elem; eauto|].
    split; [done|]. by destruct l.
Qed.

Lemma saved_covered now t w : 0 ≤ now → lease_inv t → deadlines_ok t →
  stored (eq (snapshot now t)) w → covered now t w.
Proof. intros ? ? ?. unfold covered. apply stored_mono. intros rs <-. by apply snapshot_covers. Qed.

Lemma covers_reap last now t rs : covers last t rs → covers last (reap_expired now t) rs.
Proof. intros [? Hall]. split; [done|]. intros id l [Hl _]%reap_lookup. by apply Hall. Qed.

Lemma covered_reap last now t w : covered last t w → covered last (reap_expired now t) w.
Proof. unfold covered. apply stored_mono, covers_reap. Qed.

Lemma deadlines_reap now t : deadlines_ok t → deadlines_ok (reap_expired now t).
Proof. intros Hdl id l e [Hl _]%reap_lookup. by eapply Hdl. Qed.

Lemma deadlines_insert t id l m n : deadlines_ok t → m ⊆ t.(leases) →
  (∀ e, Lease.status l = Grace e → u64_ok e) →
  deadlines_ok {| leases := <[id := l]> m; next_session_id := n |}.
Proof.
  intros Hdl Hm Hl id' l' e. cbn. rewrite lookup_insert_Some. intros [[_ <-]|[_ Hl']] Hs; [by apply Hl|].
  eapply Hdl; [|exact Hs]. by eapply lookup_weaken.
Qed.

Lemma deadlines_activation id r ip port t ses t' : deadlines_ok t →
  activation_of id r ip port t ses t' → deadlines_ok t'.
Proof.
  intros Hdl (_ & _ & _ & _ & _ & ->). by eapply deadlines_insert.
Qed.

Lemma deadlines_end id ses now t : 0 ≤ now → deadlines_ok t → deadlines_ok (end_ id ses now t).2.
Proof.
  intros Hnow Hdl. destruct (end_ id ses now t) as [[] t'] eqn:He; cbn.
  - apply end_true in He as (l & _ & _ & ->). eapply deadlines_insert; [done..|].
    intros e [= <-]. by apply grace_u64.
  - by apply end_false in He as [-> _].
Qed.

Lemma deadlines_rotation old new t res t' : deadlines_ok t → rotation_of old new t res t' →
  deadlines_ok t'.
Proof.
  intros Hdl [_ Hm]. destruct (leases t !! new); [naive_solver|]. destruct Hm as (_ & _ & Hm).
  destruct (leases t !! old) as [l|] eqn:Hold; [|naive_solver]. destruct Hm as (_ & _ & _ & ->).
  eapply deadlines_insert; [done|apply delete_subseteq|]. intros e He. by eapply Hdl.
Qed.

Lemma deadlines_recovery old l new ip now t res t' : 0 ≤ now → deadlines_ok t →
  recovery_of old l new ip now t res t' → deadlines_ok t'.
Proof.
  intros Hnow Hdl Hof. unfold recovery_of in Hof. case_decide; [naive_solver|].
  destruct Hof as (_ & _ & _ & _ & ->). eapply deadlines_insert; [done|apply delete_subseteq|].
  intros e [= <-]. by apply grace_u64.
Qed.

Lemma saved_ok_state last s w : saved_ok last s w → state_ok s w.
Proof. intros (? & ? & ? & ?). split_and!; eauto. Qed.

Lemma state_ok_saved s w : state_ok s w → ∃ last, saved_ok last s w.
Proof.
  intros (? & ? & ? & Hcov). destruct (persistence_healthy s) eqn:Hh.
  - destruct Hcov as [last ?]; [done|]. exists last. by split_and!.
  - exists 0. split_and!; [done..|congruence].
Qed.

Lemma claims_kept_saved last now s w s' w' : saved_ok last s w →
  claims_kept (stored := stored) now s w s' w' → saved_ok last s' w'.
Proof.
  intros (Hinv & Hdl & Htr & Hcov) (Hl & Hc & Hh). split_and!.
  - destruct Hl as [->| ->]; [done|by apply reap_inv].
  - destruct Hl as [->| ->]; [done|by apply deadlines_reap].
  - intros id. rewrite Hc, (Htr id). destruct Hl as [->| ->]; [done|].
    by rewrite active_session_reap.
  - intros Hh'. destruct (Hh Hh') as [Hs Hk]. specialize (Hcov Hs).
    apply Hk. destruct Hl as [->| ->]; [done|by apply covered_reap].
Qed.

Lemma register_saved last token rid ip now c s w r s' w' : 0 ≤ now → saved_ok last s w →
  register_with_recovery token rid ip now (Some c) (s, w) = (r, (s', w')) →
  saved_ok (if is_ok r then now else last) s' w'.
Proof.
  intros Hnow Hok Hrun. apply register_run in Hrun. destruct r as [reg|e]; [|by eapply claims_kept_saved].
  destruct Hok as (Hinv & Hdl & Htr & Hcov). destruct Hrun as (t & _ & Hact & _ & Hst & ->).
  assert (Hinv' : lease_inv t) by (eapply activation_inv; [|exact Hact]; by apply reap_inv).
  assert (Hdl' : deadlines_ok t) by (eapply deadlines_activation; [|exact Hact]; by apply deadlines_reap).
  split_and!; cbn; [done..| |].
  - intros id. cbn. rewrite (active_session_activation _ _ _ _ _ _ _ id Hact), active_session_reap.
    case_decide as Hid; [subst; by rewrite lookup_insert_eq|].
    rewrite lookup_insert_ne by done. apply Htr.
  - intros _. by apply (saved_covered now).
Qed.

Lemma end_saved last id ses now s w r s' w' : 0 ≤ now → saved_ok last s w →
  end_session id ses now (s, w) = (r, (s', w')) →
  saved_ok match r with Ok true => now | _ => last end s' w'.
Proof.
  intros Hnow (Hinv & Hdl & Htr & Hcov) Hrun. apply end_run in Hrun as (b & t & He & Ht & Hout).
  destruct b; [|destruct Hout as (-> & -> & ->); by split_and!].
  assert (Ht2 : t = (end_ id ses now (st_leases s)).2) by (by rewrite He).
  assert (Hinv' : lease_inv t) by (rewrite Ht2; by apply end_inv).
  assert (Hdl' : deadlines_ok t) by (rewrite Ht2; by apply deadlines_end).
  destruct Hout as [Hc Hr]. rewrite <- Ht in Hinv', Hdl'. split_and!; [done..| |].
  - intros id'. rewrite Ht, (active_session_end _ _ _ _ _ id' He).
    assert (Hid : fst <$> active_connections s !! id = Some ses).
    { rewrite Htr. apply active_session_Some. apply end_true in He as (l & ? & ? & _). eauto. }
    rewrite Hc. destruct (active_connections s !! id) as [[active c]|] eqn:E; [|done].
    cbn in Hid. injection Hid as ->. rewrite decide_True by done.
    destruct (decide (id' = id)) as [->|]; [by rewrite lookup_delete_eq|].
    rewrite lookup_delete_ne by done. apply Htr.
  - intros Hh. destruct r as [b'|e]; [|congruence]. destruct Hr as (-> & Hh' & Hst).
    rewrite <- Ht in Hst. by apply (saved_covered now).
Qed.

Lemma rotate_saved last old new now s w r s' w' : 0 ≤ now → saved_ok last s w →
  rotate old new now (s, w) = (r, (s', w')) →
  saved_ok (save_time (OpRotateTokens old new now) (s, w) last) s' w'.
Proof.
  intros Hnow Hok Hrun. unfold save_time. rewrite Hrun. cbn [fst]. apply rotate_run in Hrun.
  destruct r as [port|e]; [|by eapply claims_kept_saved].
  destruct Hrun as (_ & res & t & Hrot & _ & Hout).
  cbn [st_leases fst]. rewrite (proj2 (rotate_ok _ _ _ _ _ _) Hrot). cbn [fst].
  destruct res as [p|p]; [|destruct Hout as [-> ->]; done].
  destruct Hok as (Hinv & Hdl & Htr & Hcov). destruct Hout as [Hst ->].
  assert (Hinv' : lease_inv t) by (eapply rotation_inv; [|exact Hrot]; by apply reap_inv).
  assert (Hdl' : deadlines_ok t) by (eapply deadlines_rotation; [|exact Hrot]; by apply deadlines_reap).
  split_and!; cbn; [done..| |].
  - intros id. cbn. rewrite (Htr id), <- (active_session_reap id now).
    destruct Hrot as (Hne & Hm). destruct (leases (reap_expired now (st_leases s)) !! from_token new)
      eqn:Hnew; [naive_solver|]. destruct Hm as (_ & _ & Hm).
    destruct (leases (reap_expired now (st_leases s)) !! from_token old) as [l|] eqn:Hold; [|naive_solver].
    destruct Hm as (Hg & _ & _ & ->). destruct (Lease.status l) as [|e] eqn:Hs; [done|].
    rewrite (active_session_transfer _ _ _ e) by done. case_decide as Hid; [|done]. subst id.
    unfold active_session. rewrite Hold. cbn. by rewrite Hs.
  - intros _. by apply (saved_covered now).
Qed.

(** A recovery that changes the claim takes the displaced session's connection
    out, and no other. *)
Lemma recover_connections secret new ip now s w port conn s' w' : state_ok s w →
  recover secret new ip now (s, w) = (Ok (port, conn), (s', w')) →
  ∃ old l, (st_leases s).(leases) !! old = Some l ∧
    Lease.recovery_id l = Some (from_token secret) ∧ port = Lease.port l ∧
    if decide (old = from_token new)
    then conn = None ∧ s' = s ∧ w' = w
    else conn = snd <$> active_connections s !! old ∧
         active_connections s' = delete old (active_connections s) ∧
         persistence_healthy s' = persistence_healthy s ∧
         stored (eq (snapshot now (st_leases s'))) w' ∧
         recovery_of old l (from_token new) ip now (reap_expired now (st_leases s))
           {| recovered_port := port; changed := true;
              displaced := match Lease.status l with
                           | Active ses => Some (old, ses) | Grace _ => None end |}
           (st_leases s').
Proof.
  intros (Hinv & Hdl & Htr & Hcov) Hrun. apply recover_run in Hrun.
  destruct Hrun as (_ & old & l & res & t & Hf & Hof & -> & Hout). exists old, l.
  apply find_recovery_Some in Hf as [[Hl _]%reap_lookup Hk]. pose proof Hof as Hof'.
  unfold recovery_of in Hof'. case_decide as Hd.
  { destruct Hof' as [-> _]. cbn in Hout.
    destruct Hout as (-> & -> & ->). by split_and!. }
  destruct Hof' as (_ & _ & _ & Hres & _). rewrite Hres in *. cbn in Hout |- *.
  destruct Hout as [Hst Htake]. rewrite take_connection_run in Htake.
  specialize (Htr old). unfold active_session in Htr. rewrite Hl in Htr. cbn in Htr.
  assert (Hgoal : conn = snd <$> active_connections s !! old ∧
    active_connections s' = delete old (active_connections s) ∧
    persistence_healthy s' = persistence_healthy s ∧ st_leases s' = t).
  { destruct (Lease.status l) as [ses|e]; cbn in Htake.
    - destruct (active_connections s !! old) as [[active c]|] eqn:E; cbn in Htr; [|done].
      injection Htr as ->. rewrite decide_True in Htake by done. injection Htake as <- <-.
      by split_and!.
    - injection Htake as <- <-. destruct (active_connections s !! old) eqn:E; [done|].
      split_and!; [done| |done..]. cbn. by rewrite delete_id. }
  destruct Hgoal as (-> & Hc & Hh & Hls). rewrite Hls.
  by split_and!.
Qed.

Lemma recover_saved last secret new ip now s w r s' w' : 0 ≤ now → saved_ok last s w →
  recover secret new ip now (s, w) = (r, (s', w')) →
  saved_ok (save_time (OpRecoverTokens secret new ip now) (s, w) last) s' w'.
Proof.
  intros Hnow Hok Hrun. unfold save_time. rewrite Hrun. cbn [fst]. destruct r as [[port conn]|e].
  2:{ apply recover_run in Hrun. by eapply claims_kept_saved. }
  destruct (recover_connections _ _ _ _ _ _ _ _ _ _ (saved_ok_state _ _ _ Hok) Hrun)
    as (old & l & Hl & Hk & Hp & Hout).
  apply recover_run in Hrun as (_ & old' & l' & res & t & Hf & Hof' & _ & _).
  cbn [st_leases fst]. rewrite (proj2 (recover_ok _ _ _ _ _ _ _) (ex_intro _ old' (ex_intro _ l' (conj Hf Hof')))).
  cbn [fst].
  assert (Hl1 : old' = old ∧ leases (reap_expired now (st_leases s)) !! old = Some l).
  { apply find_recovery_Some in Hf as [Hf1 Hk']. pose proof Hf1 as [Hf2 _]%reap_lookup.
    assert (old' = old) as ->; [|by split; [|congruence]].
    by eapply (wf_recovery_inj _ (wf_leases _ (proj1 (proj1 Hok)))). }
  destruct Hl1 as [-> Hl1]. unfold recovery_of in Hof'.
  case_decide as Hd; [destruct Hof' as [-> _]; by destruct Hout as (_ & -> & ->)|].
  destruct Hof' as (_ & _ & _ & -> & _). cbn [changed].
  destruct Hout as (Hconn & Hc & Hh & Hst & Hof). destruct Hok as (Hinv & Hdl & Htr & Hcov).
  assert (Hinv' : lease_inv (st_leases s'))
    by (eapply recovery_inv; [|exact Hl1|exact Hof]; by apply reap_inv).
  assert (Hdl' : deadlines_ok (st_leases s'))
    by (eapply deadlines_recovery; [exact Hnow| |exact Hof]; by apply deadlines_reap).
  split_and!; [done..| |].
  - intros id. rewrite Hc. unfold recovery_of in Hof. rewrite decide_False in Hof by done.
    destruct Hof as (Hnew & _ & _ & _ & ->).
    rewrite (active_session_transfer _ _ _ (saturating_add_u64 now GRACE_MS)) by done.
    rewrite active_session_reap. destruct (decide (id = old)) as [->|]; [by rewrite lookup_delete_eq|].
    rewrite lookup_delete_ne by done. apply Htr.
  - intros _. by apply (saved_covered now).
Qed.

Lemma refresh_saved last now s w r s' w' : 0 ≤ now → saved_ok last s w →
  refresh_and_save now (s, w) = (r, (s', w')) → saved_ok (if is_ok r then now else last) s' w'.
Proof.
  intros Hnow (Hinv & Hdl & Htr & Hcov) Hrun. apply refresh_run in Hrun as (Hl & Hc & Hr).
  assert (Hinv' : lease_inv (st_leases s')) by (rewrite Hl; by apply reap_inv).
  assert (Hdl' : deadlines_ok (st_leases s')) by (rewrite Hl; by apply deadlines_reap).
  split_and!; [done..| |].
  - intros id. by rewrite Hc, Hl, active_session_reap, (Htr id).
  - intros Hh. destruct r; [|congruence]. destruct Hr as [_ Hst].
    by apply (saved_covered now).
Qed.

Lemma op_saved last op s w s' w' : saved_ok last s w → 0 ≤ state_op_time op →
  run_state_op op (s, w) = (s', w') → saved_ok (save_time op (s, w) last) s' w'.
Proof.
  intros Hok Hnow Hrun.
  destruct op as [tk rid ip now c|id ses now|old new now|sec new ip now|tk ip now|now]; cbn in Hrun, Hnow;
    match goal with H : (?run).2 = _ |- _ => destruct run as [r [s2 w2]] eqn:E end;
    cbn in Hrun; simplify_eq.
  - cbn. rewrite E. by eapply register_saved.
  - cbn. rewrite E. by eapply end_saved.
  - by eapply rotate_saved.
  - by eapply recover_saved.
  - apply (abandoned_run (stored := stored)) in E. by eapply claims_kept_saved.
  - cbn. rewrite E. by eapply refresh_saved.
Qed.

Lemma register_ok token rid ip now c s w r s' w' : 0 ≤ now → state_ok s w →
  register_with_recovery token rid ip now (Some c) (s, w) = (r, (s', w')) → state_ok s' w'.
Proof.
  intros Hnow [last Hok]%state_ok_saved Hrun. eapply saved_ok_state. by eapply register_saved.
Qed.

Lemma state_saved_ok last s w : state_saved last s w → saved_ok last s w.
Proof.
  induction 1 as [last t w Hinv Hdl Hnone Hcov|last op s w s' w' _ IH Hnow Hrun]; [|by eapply op_saved].
  split_and!; [done|done| |by intros _]. intros id. cbn. by rewrite lookup_empty, Hnone.
Qed.

Lemma state_saved_reachable last s w : state_saved last s w → state_reachable s w.
Proof. induction 1 as [last t w Hinv Hdl Hnone Hcov|]; [apply sr_start; eauto|by eapply sr_op]. Qed.

Lemma state_reachable_saved s w : state_reachable s w → ∃ last, state_saved last s w.
Proof.
  induction 1 as [t w Hinv Hdl Hnone [last Hcov]|op s w s' w' _ [last IH] Hnow Hrun]; eexists;
    [by eapply ss_start|by eapply ss_op].
Qed.

Lemma state_reachable_ok s w : state_reachable s w → state_ok s w.
Proof. intros [last Hs%state_saved_ok]%state_reachable_saved. by eapply saved_ok_state. Qed.

(** ** The disk always has a table to start from, whatever fails *)

(** The disk stays usable along a method that starts with such claims; the
    method may change them, or not get to its end. *)
Definition keeps {A} (Φ : ServerState W → Prop) (m : SM (W := W) A) (Ψ : A → ServerState W → Prop) : Prop :=
  ∀ s w r s' w', Φ s → stored restorable w → m (s, w) = (r, (s', w')) →
    stored restorable w' ∧ ∀ a, r = Ok a → Ψ a s'.

Lemma keeps_bind {A B} Φ (m : SM A) Ψ (f : A → SM B) Ψ' :
  keeps Φ m Ψ → (∀ a, keeps (Ψ a) (f a) Ψ') → keeps Φ (m ≫= f) Ψ'.
Proof.
  intros Hm Hf s w r s' w' HΦ Hw Hrun. unfold mbind, M_bind in Hrun.
  destruct (m (s, w)) as [[a|e] [s1 w1]] eqn:E.
  - destruct (Hm _ _ _ _ _ HΦ Hw E) as [Hw1 HΨ]. by eapply (Hf a); [apply HΨ| |].
  - destruct (Hm _ _ _ _ _ HΦ Hw E) as [Hw1 HΨ]. by simplify_eq.
Qed.

(** A statement that leaves the world alone. *)
Lemma keeps_quiet {A} Φ (m : SM A) Ψ :
  (∀ s w, Φ s → (m (s, w)).2.2 = w ∧ ∀ a, (m (s, w)).1 = Ok a → Ψ a (m (s, w)).2.1) → keeps Φ m Ψ.
Proof. intros Hm s w r s' w' HΦ Hw E. destruct (Hm s w HΦ) as [H3 H4]. rewrite E in H3, H4. by cbn in *; subst. Qed.

Lemma keeps_save {Φ} rs : (∀ s, Φ s → restorable rs) → keeps Φ (save_or_block rs) (λ _, Φ).
Proof.
  intros Hrs s w r s' w' HΦ Hw. unfold save_or_block, attempt, on_world, update, fail, mbind, M_bind.
  pose proof (save_law rs w) as Hl. destruct (store_save rs w) as [[u|e] w1]; cbn in *.
  - intros [= <- <- <-]. split; [|done]. eapply stored_mono; [|exact Hl]. intros ? <-. by eapply Hrs.
  - intros [= <- <- <-]. split; [|done]. apply Hl; [done|]. by eapply Hrs.
Qed.

Lemma keeps_healthy : keeps claims_ok require_healthy (λ _, claims_ok).
Proof.
  apply keeps_quiet. intros s w Hs. unfold require_healthy, self, ensure, mbind, M_bind. cbn.
  by destruct (persistence_healthy s).
Qed.

Lemma claims_snapshot now t : 0 ≤ now → lease_inv t → deadlines_ok t → restorable (snapshot now t).
Proof. intros. by apply snapshot_covers. Qed.

(** Staging: the new table is as good as the old one. *)
Lemma keeps_staged {A} (m : M LeaseTable A) (Q : A → LeaseTable → Prop) :
  (∀ t a t', lease_inv t → deadlines_ok t → m t = (Ok a, t') → Q a t') →
  keeps claims_ok (staged m) (λ at' s, claims_ok s ∧ Q at'.1 at'.2).
Proof.
  intros Hm. apply keeps_quiet. intros s w [Hi Hd]. unfold staged, self, lift, mbind, M_bind. cbn.
  destruct (m (st_leases s)) as [[a|e] t'] eqn:E; cbn; (split; [done|]); [|done].
  intros ? [= <-]. split; [by split|]. by eapply Hm.
Qed.

Definition table_ok (t : LeaseTable) : Prop := lease_inv t ∧ deadlines_ok t.

Lemma keeps_snapshot {Φ} now t : 0 ≤ now → (∀ s, Φ s → table_ok t) →
  keeps Φ (save_or_block (snapshot now t)) (λ _ _, True).
Proof.
  intros Hnow Ht s w r s' w' HΦ Hw Hrun.
  apply (keeps_save (Φ := Φ)) in Hrun as [? _]; [done| |done..].
  intros s1 [Hi Hd]%Ht. by apply claims_snapshot.
Qed.

Lemma keeps_register_loop id rid ip now conn ports : 0 ≤ now →
  keeps claims_ok (register_loop id rid ip now conn ports) (λ _ _, True).
Proof.
  intros Hnow. induction ports as [|port ports IH]; cbn [register_loop]; [by apply keeps_quiet|].
  apply keeps_bind with (Ψ := λ _, claims_ok).
  { intros s w r s' w' Hs Hw. unfold attempt, on_world. pose proof (bind_law port restorable w Hw).
    destruct (tcp_bind port w). intros [= <- <- <-]. by split. }
  intros [lst|[| |[]|]]; try by apply keeps_quiet. 2: done.
  apply keeps_bind with (Ψ := λ at' s, claims_ok s ∧ table_ok at'.2).
  { apply keeps_staged with (Q := λ _, table_ok). intros t a t' Hi Hd Hact%activate_ok.
    assert (Hr : deadlines_ok (reap_expired now t)) by by apply deadlines_reap.
    split; [eapply activation_inv; [|exact Hact]; by apply reap_inv|by eapply deadlines_activation]. }
  intros [ses t]. cbn. apply keeps_bind with (Ψ := λ _ s, claims_ok s ∧ table_ok t).
  { apply keeps_save. intros s [_ [? ?]]. by apply claims_snapshot. }
  by intros _; apply keeps_quiet.
Qed.

Lemma keeps_register token rid ip now conn : 0 ≤ now →
  keeps claims_ok (register_with_recovery token rid ip now conn) (λ _ _, True).
Proof.
  intros Hnow. unfold register_with_recovery. apply keeps_bind with (Ψ := λ _, claims_ok); [apply keeps_healthy|].
  intros _. apply keeps_bind with (Ψ := λ _, claims_ok); [|by intros ?; apply keeps_register_loop].
  apply keeps_quiet. intros s w [Hi Hd]. unfold on_leases.
  pose proof (candidate_ports_state (from_token token) ip now (st_leases s)) as Hc.
  destruct (candidate_ports _ _ _ _) as [r t]. cbn in *. subst t. split; [done|]. intros _ _.
  split; [by apply reap_inv|by apply deadlines_reap].
Qed.

Lemma keeps_end id ses now : 0 ≤ now → keeps claims_ok (end_session id ses now) (λ _ _, True).
Proof.
  intros Hnow. unfold end_session. apply keeps_bind with (Ψ := λ _, claims_ok).
  { apply keeps_quiet. intros s w [Hi Hd]. unfold on_leases.
    pose proof (end_inv id ses now (st_leases s) Hi) as Hi'.
    pose proof (deadlines_end id ses now (st_leases s) Hnow Hd) as Hd'.
    destruct (end_ id ses now (st_leases s)) as [b t]. by split. }
  intros ended. destruct (negb ended); [by apply keeps_quiet|].
  apply keeps_bind with (Ψ := λ _, claims_ok).
  { apply keeps_quiet. intros s w Hs. cbn. split; [done|]. intros _ _. by repeat case_match. }
  intros _. apply keeps_bind with (Ψ := λ s' s, claims_ok s' ∧ s = s').
  { apply keeps_quiet. intros s w Hs. cbn. split; [done|]. by intros ? [= <-]. }
  intros s'. apply keeps_bind with (Ψ := λ _ _, True); [|by intros _; apply keeps_quiet].
  apply keeps_snapshot; [done|]. by intros s [[Hi Hd] _].
Qed.

Lemma keeps_rotate old new now : 0 ≤ now → keeps claims_ok (rotate old new now) (λ _ _, True).
Proof.
  intros Hnow. unfold rotate. apply keeps_bind with (Ψ := λ _, claims_ok); [apply keeps_healthy|].
  intros _. apply keeps_bind with (Ψ := λ at' s, claims_ok s ∧ match at'.1 with Transferred _ => table_ok at'.2 | _ => True end).
  { apply keeps_staged with (Q := λ a t, match a with Transferred _ => table_ok t | _ => True end).
    intros t a t' Hi Hd Hrot%rotate_ok. destruct a; [|done].
    split; [eapply rotation_inv; [|exact Hrot]; by apply reap_inv|].
    eapply deadlines_rotation; [|exact Hrot]. by apply deadlines_reap. }
  intros [[port|port] t]; cbn; [|by apply keeps_quiet].
  apply keeps_bind with (Ψ := λ _ _, True); [|by intros _; apply keeps_quiet].
  apply keeps_snapshot; [done|]. by intros s [_ ?].
Qed.

Lemma keeps_recover secret new ip now : 0 ≤ now →
  keeps claims_ok (recover secret new ip now) (λ _ _, True).
Proof.
  intros Hnow. unfold recover. apply keeps_bind with (Ψ := λ _, claims_ok); [apply keeps_healthy|].
  intros _. apply keeps_bind with (Ψ := λ at' s, claims_ok s ∧ (changed at'.1 = true → table_ok at'.2)).
  { apply keeps_staged with (Q := λ a t, changed a = true → table_ok t).
    intros t a t' Hi Hd (old & l & Hf & Hof)%recover_ok Hch. apply find_recovery_Some in Hf as [Hl _].
    assert (Hr : lease_inv (reap_expired now t)) by by apply reap_inv.
    split; [by eapply recovery_inv|]. eapply deadlines_recovery; [exact Hnow| |exact Hof].
    by apply deadlines_reap. }
  intros [res t]; cbn. destruct (changed res); cbn; [|by apply keeps_quiet].
  apply keeps_bind with (Ψ := λ _ _, True).
  { apply keeps_snapshot; [done|]. intros s [_ Ht]. by apply Ht. }
  intros _. apply keeps_quiet. intros s w _. split; [|done]. unfold update, mbind, M_bind, mret, M_ret.
  pose proof (take_connection_run (displaced res) (set_st_leases t s) w) as Ht.
  destruct (take_connection _ _) as [[c|e] [s1 w1]]; cbn; repeat case_match; congruence.
Qed.

Lemma keeps_refresh now : 0 ≤ now → keeps claims_ok (refresh_and_save now) (λ _ _, True).
Proof.
  intros Hnow. unfold refresh_and_save. apply keeps_bind with (Ψ := λ _, claims_ok).
  { apply keeps_quiet. intros s w [Hi Hd]. cbn. split; [done|]. intros _ _.
    split; [by apply reap_inv|by apply deadlines_reap]. }
  intros _. apply keeps_bind with (Ψ := λ s' s, claims_ok s' ∧ s = s').
  { apply keeps_quiet. intros s w Hs. cbn. split; [done|]. by intros ? [= <-]. }
  intros s'. apply keeps_bind with (Ψ := λ _ _, True); [|by intros _; apply keeps_quiet].
  apply keeps_snapshot; [done|]. by intros s [[Hi Hd] _].
Qed.

Lemma keeps_abandoned token ip now : keeps claims_ok (register_abandoned token ip now) (λ _ _, True).
Proof.
  unfold register_abandoned. apply keeps_bind with (Ψ := λ _, claims_ok); [apply keeps_healthy|].
  intros _. apply keeps_bind with (Ψ := λ _ _, True); [|by intros _; apply keeps_quiet].
  apply keeps_quiet. intros s w _. unfold on_leases. by destruct (candidate_ports _ _ _ _).
Qed.

Lemma state_reachable_restorable s w : state_reachable s w → stored restorable w.
Proof.
  induction 1 as [t w _ _ _ [last Hcov]|op s w s' w' Hs IH Hnow Hrun].
  - eapply stored_mono; [|exact Hcov]. by intros rs [? _].
  - assert (Hc : claims_ok s) by (destruct (state_reachable_ok _ _ Hs) as (? & ? & _); by split).
    destruct op as [tk rid ip now c|id ses now|old new now|sec new ip now|tk ip now|now]; cbn in Hrun, Hnow;
      match goal with H : (?run).2 = _ |- _ => destruct run as [r [s2 w2]] eqn:E end;
      cbn in Hrun; simplify_eq.
    + by apply keeps_register in E as [? _].
    + by apply keeps_end in E as [? _].
    + by apply keeps_rotate in E as [? _].
    + by apply keeps_recover in E as [? _].
    + by apply keeps_abandoned in E as [? _].
    + by apply keeps_refresh in E as [? _].
Qed.
End properties.
