(* ===== verification/StateProps.v ===== *)
(** What the relay's state guarantees: the properties of [State], proved against
    the store's interface. *)

From Stdlib Require Import Strings.Byte.
From S2P Require Import Prelude Bytes HostAdmission LeaseTable LeaseFacts LeaseInv LeaseRestore.
From S2P Require Import Fs FsLogic FsAlone LeaseStore LeaseStoreFacts State StateFacts StateInv.

Section properties.
Context `{Digest} `{!IterOrder TokenId Lease} {W : Type} `{StoreLaws W stored}.
Implicit Types (s : ServerState W) (w : W).

(** ** The theorems *)

(** C13. The relay's state is consistent over every history of its methods, with
    any outcome of saving and binding: the table satisfies its invariant, a
    connection is kept for exactly the sessions that are active, and while the
    storage is healthy every claim in memory is among the records a restart
    finds, an active one as if its host had left when the file was last
    written. *)
Theorem state_invariant s w :
  state_reachable (stored := stored) s w →
  lease_inv (st_leases s) ∧
  (∀ id, fst <$> active_connections s !! id = active_session id (st_leases s)) ∧
  ∃ last, state_saved (stored := stored) last s w ∧
    (persistence_healthy s = true → covered (stored := stored) last (st_leases s) w).
Proof.
  intros [last Hs]%state_reachable_saved. pose proof (state_saved_ok _ _ _ Hs) as (Hinv & _ & Htr & Hcov).
  split_and!; [done..|]. by exists last.
Qed.

(** C15. Nothing is acknowledged before it is saved: a registration, rotation or
    recovery that succeeds has saved the table it leaves in memory, or has
    changed nothing; one that fails leaves the claims and connections as they
    were, up to dropping expired leases. *)
Theorem acknowledged_is_saved s w s' w' :
  (∀ token rid ip now conn r, register_with_recovery token rid ip now conn (s, w) = (r, (s', w')) →
     match r with
     | Ok reg => stored (eq (snapshot now (st_leases s'))) w' ∧
         reg_token_id reg = from_token token ∧
         ∃ l, (st_leases s').(leases) !! reg_token_id reg = Some l ∧
           Lease.port l = public_port reg ∧ Lease.status l = Active (reg_session_id reg)
     | Err _ => claims_kept (stored := stored) now s w s' w'
     end) ∧
  (∀ old new now r, rotate old new now (s, w) = (r, (s', w')) →
     match r with
     | Ok _ => (s' = s ∧ w' = w) ∨ stored (eq (snapshot now (st_leases s'))) w'
     | Err _ => claims_kept (stored := stored) now s w s' w'
     end) ∧
  (∀ secret new ip now r, recover secret new ip now (s, w) = (r, (s', w')) →
     match r with
     | Ok _ => (s' = s ∧ w' = w) ∨ stored (eq (snapshot now (st_leases s'))) w'
     | Err _ => claims_kept (stored := stored) now s w s' w'
     end).
Proof.
  split_and!.
  - intros token rid ip now conn r Hrun. apply register_run in Hrun. destruct r as [reg|e]; [|done].
    destruct Hrun as (t & _ & Hact & Htok & Hst & ->). cbn. split_and!; [done..|].
    destruct Hact as (_ & _ & _ & _ & _ & ->). cbn. rewrite Htok, lookup_insert_eq. by eexists.
  - intros old new now r Hrun. apply rotate_run in Hrun. destruct r as [port|e]; [|done].
    destruct Hrun as (_ & [p|p] & t & _ & _ & Hout); [right|by left]. by destruct Hout as [Hst ->].
  - intros secret new ip now r Hrun. apply recover_run in Hrun. destruct r as [[port conn]|e]; [|done].
    destruct Hrun as (_ & old & l & res & t & _ & _ & _ & Hout). destruct (changed res).
    + right. destruct Hout as [Hst Htake]. rewrite take_connection_run in Htake.
      assert (st_leases s' = t) as ->; [|done].
      repeat case_match; by injection Htake as _ <-.
    + left. by destruct Hout as (_ & -> & ->).
Qed.

(** A relay whose storage failed admits nobody: registration, rotation and
    recovery are refused without touching anything, until a refresh manages to
    save the table. *)
Theorem unhealthy_storage_blocks s w :
  persistence_healthy s = false →
  (∀ token rid ip now conn, register_with_recovery token rid ip now conn (s, w)
     = (Err (Msg "Lease storage is unavailable"), (s, w))) ∧
  (∀ old new now, rotate old new now (s, w) = (Err (Msg "Lease storage is unavailable"), (s, w))) ∧
  (∀ secret new ip now, recover secret new ip now (s, w)
     = (Err (Msg "Lease storage is unavailable"), (s, w))) ∧
  (∀ now r s' w', refresh_and_save now (s, w) = (r, (s', w')) →
     persistence_healthy s' = is_ok r ∧
     (is_ok r = true → stored (eq (snapshot now (st_leases s'))) w')).
Proof.
  intros Hh. split_and!.
  - intros. unfold register_with_recovery, require_healthy, self, ensure, mbind, M_bind. cbn. by rewrite Hh.
  - intros. unfold rotate, require_healthy, self, ensure, mbind, M_bind. cbn. by rewrite Hh.
  - intros. unfold recover, require_healthy, self, ensure, mbind, M_bind. cbn. by rewrite Hh.
  - intros now r s' w' Hrun. apply refresh_run in Hrun as (_ & _ & Hr). destruct r; [|done].
    by destruct Hr.
Qed.

(** Recovery hands back exactly the connection to close: when the claim of
    the presented key changes identity, the answer carries the connection of its
    active session if there is one, that entry and no other is taken out, and
    the new table is saved; presenting it again changes nothing. *)
Theorem recovery_returns_displaced secret new ip now s w port conn s' w' :
  state_reachable (stored := stored) s w → recover secret new ip now (s, w) = (Ok (port, conn), (s', w')) →
  ∃ old l, (st_leases s).(leases) !! old = Some l ∧
    Lease.recovery_id l = Some (from_token secret) ∧ port = Lease.port l ∧
    if decide (old = from_token new)
    then conn = None ∧ s' = s ∧ w' = w
    else conn = snd <$> active_connections s !! old ∧
         active_connections s' = delete old (active_connections s) ∧
         (st_leases s').(leases) !! from_token new = Some (recovered_lease old ip now l) ∧
         stored (eq (snapshot now (st_leases s'))) w'.
Proof.
  intros Hr Hrun. pose proof (state_reachable_ok _ _ Hr) as Hok.
  destruct (recover_connections _ _ _ _ _ _ _ _ _ _ Hok Hrun) as (old & l & Hl & Hk & Hp & Hout).
  exists old, l. split_and!; [done..|]. case_decide as Hd; [done|].
  destruct Hout as (? & ? & _ & ? & Hof). split_and!; try done.
  unfold recovery_of in Hof. rewrite decide_False in Hof by done.
  destruct Hof as (_ & _ & _ & _ & ->). cbn. by rewrite lookup_insert_eq.
Qed.
End properties.

(** ** Concrete instances *)

Section witnesses.
#[local] Existing Instances first_32 gmap_order.

(** A store in memory that can be out of order, and ports that can be taken. *)
Record Memory := { saved : list LeaseRecord; broken_store : bool; taken : list Z }.

#[local] Instance memory_store : Store Memory := {|
  store_load now w := (restore (saved w) now, w);
  store_save rs w :=
    if broken_store w then (Err (Io OtherKind), w)
    else (Ok tt, {| saved := rs; broken_store := false; taken := taken w |});
|}.
#[local] Instance memory_network : Network Memory := {|
  Connection := Z;
  Listener := Z;
  tcp_bind port w := (if bool_decide (port ∈ taken w) then Err (Io AddrInUse) else Ok port, w);
|}.
Definition in_memory (P : list LeaseRecord → Prop) (w : Memory) : Prop := P (saved w).
#[local] Instance memory_laws : StoreLaws Memory in_memory.
Proof.
  split; [|intros rs w|done].
  - intros P Q w HPQ. apply HPQ.
  - cbn. unfold in_memory. destruct (broken_store w); cbn; auto.
Qed.

Definition w_token : TunnelToken := repeat_byte 32 x2a.
Definition w_token2 : TunnelToken := repeat_byte 32 x2b.
Definition w_secret : TunnelToken := repeat_byte 32 x2c.
Definition w_memory : Memory := {| saved := []; broken_store := false; taken := [10000] |}.
Definition w_start : ServerState Memory * Memory := (new_state LeaseTable_new, w_memory).
Definition w_register : state_op (W := Memory) :=
  OpRegister w_token (Some (token_bytes (from_token w_secret))) (w_ip x01) 1000 7.
Definition w_registered := register_with_recovery w_token (Some (token_bytes (from_token w_secret)))
  (w_ip x01) 1000 (Some 7) w_start.
Definition w_running : ServerState Memory * Memory := (w_registered.2.1, w_registered.2.2).
Definition w_recovery := recover w_secret w_token2 (w_ip x01) 2000 w_running.

Lemma new_table_covered : ∃ last, covered (stored := in_memory) last LeaseTable_new w_memory.
Proof. exists 0. apply new_table_covers. Qed.

Lemma w_start_reachable : state_reachable (stored := in_memory) w_start.1 w_start.2.
Proof. apply sr_start; [apply lease_inv_new|done|done|apply new_table_covered]. Qed.

Lemma w_running_reachable : state_reachable (stored := in_memory) w_running.1 w_running.2.
Proof.
  apply (sr_op w_register w_start.1 w_start.2); [apply w_start_reachable|done|].
  apply surjective_pairing.
Qed.

Lemma state_invariant_witness :
  lease_inv (st_leases w_running.1) ∧
  (∀ id, fst <$> active_connections w_running.1 !! id = active_session id (st_leases w_running.1)) ∧
  ∃ last, covered (stored := in_memory) last (st_leases w_running.1) w_running.2.
Proof.
  destruct (state_invariant (stored := in_memory) w_running.1 w_running.2
    w_running_reachable) as (H1 & H2 & H3).
  split_and!; [exact H1|exact H2|]. destruct H3 as (last & _ & H3). exists last.
  apply H3. vm_compute. reflexivity.
Defined.

Lemma run_pair {A} (x : A * (ServerState Memory * Memory)) : x = (x.1, (x.2.1, x.2.2)).
Proof. by destruct x as [? []]. Qed.

Lemma acknowledged_is_saved_witness :
  saved w_registered.2.2 = snapshot 1000 (st_leases w_registered.2.1) ∧
  (w_recovery.2.1 = w_running.1 ∧ w_recovery.2.2 = w_running.2 ∨
   saved w_recovery.2.2 = snapshot 2000 (st_leases w_recovery.2.1)).
Proof.
  destruct (acknowledged_is_saved (stored := in_memory) w_start.1 w_start.2
    w_registered.2.1 w_registered.2.2) as (H1 & _ & _).
  destruct (acknowledged_is_saved (stored := in_memory) w_running.1 w_running.2
    w_recovery.2.1 w_recovery.2.2) as (_ & _ & H3).
  specialize (H1 w_token (Some (token_bytes (from_token w_secret))) (w_ip x01) 1000 (Some 7)
    w_registered.1 (run_pair w_registered)).
  specialize (H3 w_secret w_token2 (w_ip x01) 2000 w_recovery.1 (run_pair w_recovery)).
  assert (E1 : is_ok w_registered.1 = true) by (vm_compute; reflexivity).
  assert (E3 : is_ok w_recovery.1 = true) by (vm_compute; reflexivity).
  revert H1 H3 E1 E3. generalize w_registered.1 as r1, w_recovery.1 as r3.
  intros [reg|?] [out|?] H1 H3 E1 E3; try discriminate.
  split; [exact (proj1 H1)|exact H3].
Defined.

Definition w_sick : ServerState Memory := set_healthy false w_running.1.

Lemma unhealthy_storage_blocks_witness :
  rotate w_token w_token2 3000 (w_sick, w_running.2)
    = (Err (Msg "Lease storage is unavailable"), (w_sick, w_running.2)).
Proof.
  destruct (unhealthy_storage_blocks (stored := in_memory) w_sick w_running.2)
    as (_ & H & _); [reflexivity|apply H].
Defined.

Lemma recovery_returns_displaced_witness :
  w_recovery.1 = Ok (10001, Some 7) ∧
  ∃ old l, (st_leases w_running.1).(leases) !! old = Some l ∧
    Some 7 = snd <$> active_connections w_running.1 !! old.
Proof.
  assert (Hrun : w_recovery = (Ok (10001, Some 7), (w_recovery.2.1, w_recovery.2.2))).
  { assert (Hr : w_recovery.1 = Ok (10001, Some 7)) by (vm_compute; reflexivity).
    rewrite <- Hr. apply run_pair. }
  split; [rewrite Hrun; reflexivity|].
  destruct (recovery_returns_displaced (stored := in_memory) w_secret w_token2 (w_ip x01)
    2000 w_running.1 w_running.2 10001 (Some 7) w_recovery.2.1 w_recovery.2.2)
    as (old & l & Hl & _ & _ & Hout); [apply w_running_reachable|exact Hrun|].
  exists old, l. split; [exact Hl|]. case_decide as Hd; [by destruct Hout|]. apply Hout.
Defined.

End witnesses.
