(* ===== verification/Restart.v ===== *)
(** A relay that dies and starts again: what its store promises of that, and what
    the new process finds. *)

From S2P Require Import Prelude Bytes HostAdmission LeaseTable LeaseFacts LeaseInv LeaseRestore.
From S2P Require Import State StateFacts StateInv.

(** [crash w w1]: the process dies in [w] and another one is started in [w1]. *)
Class Crash (W : Type) := crash : W → W → Prop.

(** The store's promise: a start that succeeds restores records that the former
    process may have left, and leaves them to the next one; a start that fails
    spoils nothing. *)
Class CrashLaws (W : Type) `{Store W} `{Crash W} (stored : (list LeaseRecord → Prop) → W → Prop) : Prop := {
  crash_law (P : list LeaseRecord → Prop) w w1 :
    stored P w → (∀ rs, P rs → restorable rs) → crash w w1 → stored P w1;
  restart_law (P : list LeaseRecord → Prop) w w1 now r w2 :
    stored P w → (∀ rs, P rs → restorable rs) → crash w w1 → store_load now w1 = (r, w2) →
    match r with
    | Ok t => ∃ rs, P rs ∧ restore rs now = Ok t ∧ stored (eq rs) w2
    | Err _ => stored P w2
    end;
}.

Section restart.
Context `{Digest} `{!IterOrder TokenId Lease} {W : Type} `{StoreLaws W stored} `{!Crash W}
  `{!CrashLaws W stored}.
Implicit Types (s : ServerState W) (w : W).

(** The relay is started until a start succeeds, at [now], with table [t]. *)
Inductive restarts (now : Z) (t : LeaseTable) (w' : W) : W → Prop :=
  | restart_up w w1 : crash w w1 → store_load now w1 = (Ok t, w') → restarts now t w' w
  | restart_again w w1 now0 e w2 : crash w w1 → store_load now0 w1 = (Err e, w2) →
      restarts now t w' w2 → restarts now t w' w.

Lemma restarts_found P now t w' w : stored P w → (∀ rs, P rs → restorable rs) → restarts now t w' w →
  ∃ rs, P rs ∧ restore rs now = Ok t ∧ stored (eq rs) w'.
Proof.
  intros Hst HP Hre. induction Hre as [w w1 Hc Hload|w w1 now0 e w2 Hc Hload _ IH];
    pose proof (restart_law P _ _ _ _ _ Hst HP Hc Hload); auto.
Qed.

(** A table restored from usable records, with these records on the disk. *)
Lemma restored_saved last rs now t w : restorable rs → restore rs now = Ok t → stored (eq rs) w →
  state_saved (stored := stored) last (new_state t) w.
Proof.
  intros (Hok & Hu & Hinv) Hres Hst. pose proof Hres as (_ & _ & Hlk)%restore_ok. apply ss_start.
  - by eapply Hinv.
  - rewrite Forall_forall in Hu. intros id l e (r & Hr & _ & _ & ->)%Hlk [= <-]. by apply Hu.
  - intros id. unfold active_session. destruct (leases t !! id) as [l|] eqn:Hl; [|done].
    by apply Hlk in Hl as (r & _ & _ & _ & ->).
  - unfold covered. eapply stored_mono; [|exact Hst]. intros ? <-. split; [by split_and!|].
    intros id l (r & Hr & Hid & _ & ->)%Hlk. by exists r.
Qed.

Lemma restored_reachable rs now t w : restorable rs → restore rs now = Ok t → stored (eq rs) w →
  state_reachable (stored := stored) (new_state t) w.
Proof. intros. by eapply (state_saved_reachable now), restored_saved. Qed.

(** A start on what is left of a healthy storage: every lease comes back as it was
    saved, unless it has expired since, and there are no others. *)
Lemma restored_leases last rs now t0 t : covers last t0 rs → restore rs now = Ok t →
  ∀ id l, t0.(leases) !! id = Some l → expired now (demote last l) = false →
    t.(leases) !! id = Some (demote last l).
Proof.
  intros [_ Hc] (_ & _ & Hlk)%restore_ok id l Hl He. destruct (Hc _ _ Hl) as (r & Hr & Hid & Hd).
  apply Hlk. exists r. split_and!; [done..| |by rewrite Hd]. rewrite <- Hd in He.
  unfold expired in He. cbn in He. by apply Z.leb_gt.
Qed.

(** What is leased again under a port is what was saved of the lease that had it. *)
Lemma restored_port last rs now t0 t id l id' l' : covers last t0 rs → restore rs now = Ok t →
  t0.(leases) !! id = Some l → t.(leases) !! id' = Some l' → Lease.port l' = Lease.port l →
  id' = id ∧ l' = demote last l.
Proof.
  intros [_ Hc] ([_ _ Hports _ _ _ _] & _ & Hlk)%restore_ok Hl Hl' Hp.
  destruct (Hc _ _ Hl) as (r & Hr & <- & Hd). apply Hlk in Hl' as (r' & Hr' & <- & _ & ->).
  assert (r' = r) as ->; [|done].
  apply (NoDup_fmap_same LeaseRecord.port rs); [done..|]. cbn in Hp. rewrite Hp.
  apply (f_equal Lease.port) in Hd. by destruct l.
Qed.

Lemma restarts_saved last s w now t w' : state_saved (stored := stored) last s w → restarts now t w' w →
  state_saved (stored := stored) now (new_state t) w' ∧
  (persistence_healthy s = true → ∀ id l, (st_leases s).(leases) !! id = Some l →
     expired now (demote last l) = false → t.(leases) !! id = Some (demote last l)).
Proof.
  intros Hs Hre. pose proof (state_saved_reachable _ _ _ Hs) as Hr.
  destruct (restarts_found restorable now t w' w) as (rs & Hrs & Hres & Hst); [by eapply state_reachable_restorable|done|done|].
  split; [by eapply restored_saved|]. intros Hh.
  destruct (state_saved_ok _ _ _ Hs) as (_ & _ & _ & Hcov).
  destruct (restarts_found (covers last (st_leases s)) now t w' w) as (rs2 & Hc & Hres2 & _);
    [by apply Hcov|by intros ? [? _]|done|]. by eapply restored_leases.
Qed.

Lemma restarts_reachable s w now t w' : state_reachable (stored := stored) s w → restarts now t w' w →
  state_reachable (stored := stored) (new_state t) w'.
Proof.
  intros [last Hs]%state_reachable_saved Hre. eapply state_saved_reachable. by eapply restarts_saved.
Qed.
End restart.
