(* ===== verification/FileStore.v ===== *)
(** The state file as the relay's store: [LeaseStore] keeps the promises of
    [State] and [Restart], under disk faults and crashes of the machine. *)

From Stdlib Require Import Strings.Byte.
From S2P Require Import Prelude Bytes HostAdmission LeaseTable LeaseFacts LeaseInv LeaseRestore.
From S2P Require Import Fs FsLogic FsAlone LeaseStore LeaseStoreFacts State StateFacts StateInv.
From S2P Require Import StateProps Restart.

(** ** Code that keeps its directory to itself *)

Section alone.
Context `{Digest} `{SerdeJson} `{!SerdeJsonLaw} `{TempfileLaws} `{!IterOrder TokenId Lease}.

Lemma save_alone p rs : stays_alone (save p rs).
Proof. intros fs r fs' Ha E. by apply save_run in E as [? _]. Qed.

Lemma replace_file_alone p bs : stays_alone (replace_file p bs).
Proof. intros fs r fs' Ha E. by apply replace_file_run in E as [? _]. Qed.

Lemma sync_file_alone p : stays_alone (sync_file p).
Proof.
  intros fs r fs' Ha E. by destruct (run2_sync_file p p (λ _ _, True) p fs r fs' Ha I E).
Qed.

Lemma set_permissions_alone p : stays_alone (set_permissions p).
Proof.
  intros fs r fs' Ha E. by destruct (run2_set_permissions p p (λ _ _, True) p fs r fs' Ha I E).
Qed.

Lemma create_new_alone p : stays_alone (create_new p).
Proof.
  intros fs r fs' Ha. unfold create_new, get, ensure, put, mbind, M_bind.
  destruct (tick fs) as [[u|e] fs1] eqn:E; apply tick_alone in E as [Ha1 _]; try done;
    repeat case_bool_decide; by intros [= <- <-].
Qed.

Lemma sync_directory_alone d : stays_alone (sync_directory d).
Proof. apply observer_stays_alone, observer_sync_directory. Qed.

Lemma file_write_all_alone p bs : stays_alone (file_write_all p bs).
Proof.
  intros fs r fs' Ha. unfold file_write_all. destruct (tick fs) as [[u|e] fs1] eqn:E;
    apply tick_alone in E as [Ha1 _]; try done; by intros [= <- <-].
Qed.
End alone.

Create HintDb alone.
#[export] Hint Resolve save_alone replace_file_alone sync_file_alone set_permissions_alone
  create_new_alone file_write_all_alone sync_directory_alone : alone.
#[export] Hint Extern 5 (stays_alone _) => apply observer_stays_alone; observe : alone.
Ltac alone := repeat first [progress eauto with alone | apply stays_alone_bind; [|intros ?]].

Section load_alone.
Context `{Digest} `{SerdeJson} `{!SerdeJsonLaw} `{TempfileLaws} `{!IterOrder TokenId Lease}.

Lemma backup_legacy_alone p bs : stays_alone (backup_legacy p bs).
Proof.
  unfold backup_legacy. apply stays_alone_bind; [alone|intros b]. apply stays_alone_bind; [alone|].
  intros [n|[| |[]|]]; try (apply observer_stays_alone; by observe).
  - do 3 (apply stays_alone_bind; [alone|intros ?]). case_match; alone.
  - alone.
Qed.

Lemma load_alone p now : stays_alone (load_or_create p now).
Proof.
  unfold load_or_create. apply stays_alone_bind; [alone|].
  intros [n|[| |[]|]]; try (apply observer_stays_alone; by observe).
  do 4 (apply stays_alone_bind; [alone|intros ?]). case_match; [alone|].
  do 2 (apply stays_alone_bind; [alone|intros ?]). apply stays_alone_bind; [apply backup_legacy_alone|intros ?].
  apply stays_alone_bind; alone.
Qed.
End load_alone.

(** ** Code that only looks *)

Definition looking {A} (m : M Fs A) : Prop :=
  ∀ fs r fs', alone fs → m fs = (r, fs') → looks fs r fs'.

Lemma looks_refl {A} fs (r : result A) : alone fs → looks fs r fs.
Proof. intros Ha. by split_and!. Qed.

Lemma looking_bind {A B} (m : M Fs A) (f : A → M Fs B) :
  looking m → (∀ a, looking (f a)) → looking (m ≫= f).
Proof.
  intros Hm Hf fs r fs' Ha. unfold mbind, M_bind. destruct (m fs) as [[a|e] fs1] eqn:E.
  - intros Hrun. pose proof (Hm _ _ _ Ha E) as Hl. eapply looks_trans; [exact Hl|].
    eapply Hf; [by destruct Hl|done].
  - intros [= <- <-]. by eapply (Hm _ _ _ Ha) in E.
Qed.
Lemma looking_attempt {A} (m : M Fs A) : looking m → looking (attempt m).
Proof.
  intros Hm fs r fs' Ha. unfold attempt. destruct (m fs) as [r1 fs1] eqn:E. intros [= <- <-].
  by eapply (Hm _ _ _ Ha) in E.
Qed.
Lemma looking_lift {A} (x : result A) : looking (lift x).
Proof. intros fs r fs' Ha [= <- <-]. by apply looks_refl. Qed.
Lemma looking_fail {A} e : looking (fail e : M Fs A).
Proof. intros fs r fs' Ha [= <- <-]. by apply looks_refl. Qed.
Lemma looking_ensure b e : looking (ensure b e).
Proof. intros fs r fs' Ha [= <- <-]. by apply looks_refl. Qed.
Lemma looking_read p : looking (fs_read p).
Proof.
  unfold fs_read. apply looking_bind; [|intros _].
  - intros fs r fs' Ha Hrun. by apply tick_looks in Hrun as [? _].
  - intros fs r fs' Ha [= <- <-]. by apply looks_refl.
Qed.

Lemma looking_alone {A} (m : M Fs A) : looking m → stays_alone m.
Proof. intros Hm fs r fs' Ha Hrun. by destruct (Hm _ _ _ Ha Hrun). Qed.

(** ** The store on a disk *)

(** A disk that no other process writes to. *)
Record FileWorld := { disk : Fs; disk_alone : alone disk }.

(** Code that keeps its directory to itself, on such a disk. *)
Lemma alone_after {A} (m : M Fs A) fs : stays_alone m → alone fs → alone (m fs).2.
Proof. intros Hm Ha. eapply Hm; [exact Ha|apply surjective_pairing]. Qed.
Definition on_disk {A} (m : M Fs A) (Hm : stays_alone m) : M FileWorld A := λ w,
  ((m (disk w)).1,
   {| disk := (m (disk w)).2; disk_alone := alone_after m (disk w) Hm (disk_alone w) |}).

Section file_store.
Context `{Digest} `{SerdeJson} `{!SerdeJsonLaw} `{TempfileLaws} `{!IterOrder TokenId Lease}.
Context (path : Path).

#[local] Instance file_store : Store FileWorld := {|
  store_load now := on_disk (load_or_create path now) (load_alone path now);
  store_save rs := on_disk (save path rs) (save_alone path rs);
|}.

(** An entry that a power failure cannot spoil. *)
Definition settled (n : option Node) : Prop :=
  match n with Some (FileN f) => f.(synced) = true | Some _ => False | None => True end.

(** What the entry of the state file holds. *)
Definition found (n : option Node) (rs : list LeaseRecord) : Prop :=
  match n with
  | None => rs = []
  | Some (FileN f) => reads_as f.(data) rs
  | Some _ => False
  end.

Definition typed_records (rs : list LeaseRecord) : Prop :=
  Forall (λ r, PORT_START ≤ LeaseRecord.port r ≤ PORT_END ∧ u64_ok (LeaseRecord.expires_at_ms r)) rs.

(** Both the entry that processes see and the one that is on the disk are whole,
    and hold such records, in some order. *)
Definition file_stored (P : list LeaseRecord → Prop) (w : FileWorld) : Prop :=
  ∀ n, n = names (disk w) !! path ∨ n = durable (disk w) !! path →
    settled n ∧ ∃ rs, P rs ∧ (typed_records rs → ∃ rs', rs' ≡ₚ rs ∧ found n rs').

(** A power failure leaves one of the two entries; so does the end of the process,
    once the system has written its directory back. *)
#[local] Instance file_crash : Crash FileWorld := λ w w1,
  honest (disk w1) ∧ durable (disk w1) !! path = names (disk w1) !! path ∧
  ∃ n, (n = names (disk w) !! path ∨ n = durable (disk w) !! path) ∧
    (settled n → names (disk w1) !! path = n).

Context `{!Network FileWorld}
  (bind_keeps : ∀ port w, names (disk (tcp_bind port w).2) = names (disk w) ∧
                          durable (disk (tcp_bind port w).2) = durable (disk w)).

Lemma file_stored_same P w w' : names (disk w') !! path = names (disk w) !! path →
  durable (disk w') !! path = durable (disk w) !! path → file_stored P w → file_stored P w'.
Proof. intros Hn Hd Hst n Hw. rewrite Hn, Hd in Hw. by apply Hst. Qed.

Lemma printed_found rs f : printed rs f.(data) → f.(synced) = true → ∀ P : list LeaseRecord → Prop, P rs →
  settled (Some (FileN f)) ∧
  ∃ rs', P rs' ∧ (typed_records rs' → ∃ rs2, rs2 ≡ₚ rs' ∧ found (Some (FileN f)) rs2).
Proof. intros Hp Hs P HP. split; [done|]. exists rs. split; [done|]. intros Ht. by apply printed_reads. Qed.

Lemma file_store_laws : StoreLaws FileWorld file_stored.
Proof.
  split.
  - intros P Q w HPQ Hst n (Hs & rs & HP & Hf)%Hst. split; [done|]. exists rs. auto.
  - intros rs w. cbn.
    destruct (save_run path rs (disk w) _ _ (disk_alone w) (surjective_pairing _)) as [_ Hout].
    destruct ((save path rs (disk w)).1) as [u|e].
    + destruct Hout as (bs & f & Hp & <- & Hn & Hdur & Hsy). intros n. cbn.
      rewrite Hn, Hdur, lookup_insert_eq. intros Hw. assert (n = Some (FileN f)) as -> by tauto.
      by apply (printed_found rs).
    + destruct Hout as [Hdur [Hn|(bs & f & Hp & <- & Hn & Hsy)]]; intros P Hst HP n; cbn.
      * rewrite Hn, Hdur. apply Hst.
      * rewrite Hn, Hdur, lookup_insert_eq. intros [->|Hw]; [by apply (printed_found rs)|].
        apply Hst. by right.
  - intros port P w. destruct (bind_keeps port w) as [Hn Hd]. apply file_stored_same; congruence.
Qed.
#[local] Existing Instance file_store_laws.

(** What a start makes of such an entry. *)
Lemma start_from n rs now w r w' : honest (disk w) → names (disk w) !! path = n → found n rs →
  store_load now w = (r, w') →
  names (disk w') = names (disk w) ∧ durable (disk w') = durable (disk w) ∧
  (r = restore rs now ∨ is_ok r = false ∧ schedule (disk w) ≠ []).
Proof.
  intros Hh Hn Hf [= <- <-]. cbn. pose proof (surjective_pairing (load_or_create path now (disk w))) as E.
  destruct n as [[f| |]|]; cbn in Hf; try done.
  - destruct (load_reads path now (disk w) f rs _ _ (disk_alone w) Hh Hn Hf E) as [(_ & ? & ? & _) ?]. auto.
  - subst rs. destruct (load_absent path now (disk w) _ _ (disk_alone w) Hh Hn E) as [(_ & ? & ? & _) ?]. auto.
Qed.

Lemma restorable_typed rs : restorable rs → typed_records rs.
Proof.
  intros ([_ Heach _ _ _ _ _] & Hu & _). unfold typed_records. rewrite Forall_forall in *.
  intros r Hr. split; [by apply Heach|by apply Hu].
Qed.

(** After a crash the entry holds one of the stored lists. *)
Lemma crash_found (P : list LeaseRecord → Prop) w w1 : file_stored P w → (∀ rs, P rs → restorable rs) → crash w w1 →
  honest (disk w1) ∧ ∃ rs rs', P rs ∧ rs' ≡ₚ rs ∧ found (names (disk w1) !! path) rs' ∧
    settled (names (disk w1) !! path) ∧ durable (disk w1) !! path = names (disk w1) !! path.
Proof.
  intros Hst HP (Hh & Hd & n & Hn & Hw). split; [done|]. destruct (Hst n Hn) as (Hs & rs & Hrs & Hf).
  destruct Hf as (rs' & Hperm & Hf); [by apply restorable_typed, HP|].
  exists rs, rs'. rewrite Hd, Hw by done. by split_and!.
Qed.

Lemma found_stored rs rs' w : found (names (disk w) !! path) rs' → settled (names (disk w) !! path) →
  durable (disk w) !! path = names (disk w) !! path → rs' ≡ₚ rs → file_stored (eq rs) w.
Proof.
  intros Hf Hs Hd Hperm n Hn. assert (n = names (disk w) !! path) as -> by (rewrite Hd in Hn; tauto).
  split; [done|]. exists rs. split; [done|]. by exists rs'.
Qed.

#[local] Instance file_crash_laws : CrashLaws FileWorld file_stored.
Proof.
  split; intros P w w1; [|intros now r w2]; intros Hst HP Hc; [|intros Hload].
  { destruct (crash_found P w w1 Hst HP Hc) as (_ & rs & rs' & Hrs & Hperm & Hf & Hs & Hd).
    eapply stored_mono; [|by apply (found_stored rs rs')]. by intros ? <-. }
  destruct (crash_found P w w1 Hst HP Hc) as (Hh & rs & rs' & Hrs & Hperm & Hf & Hs & Hd).
  destruct (start_from _ _ _ _ _ _ Hh eq_refl Hf Hload) as (Hn2 & Hd2 & Hr).
  assert (Hst2 : file_stored (eq rs) w2).
  { apply (found_stored rs rs'); rewrite ?Hn2, ?Hd2; done. }
  destruct r as [t|e].
  - exists rs. split; [done|]. split; [|done].
    destruct Hr as [Hr|[? _]]; [|done]. rewrite Hr. symmetry. apply restore_perm; [done|]. by apply HP.
  - eapply stored_mono; [|exact Hst2]. by intros ? <-.
Qed.

(** C22. [LeaseStore] keeps the promises the state's properties are proved
    against, under every schedule of disk faults and at every power failure:
    after a save a restart finds what was saved, after a failed one what was there
    before or what should have been saved; a start restores what it finds and
    leaves it to the next one. *)
Theorem lease_store_refines : StoreLaws FileWorld file_stored ∧ CrashLaws FileWorld file_stored.
Proof. split; apply _. Qed.

(** ** Starts *)

(** The first start, without a state file. *)
Lemma fresh_start now w t w' : honest (disk w) → names (disk w) !! path = None →
  durable (disk w) !! path = None → store_load now w = (Ok t, w') →
  state_saved (stored := file_stored) now (new_state t) w'.
Proof.
  intros Hh Hn Hd Hload. destruct (start_from None [] now w _ w' Hh Hn eq_refl Hload) as (Hn' & Hd' & Hr).
  assert (Hres : restore [] now = Ok t) by (destruct Hr as [Hr|[? _]]; [by symmetry|done]).
  eapply restored_saved; [apply (new_table_covers now)|exact Hres|].
  apply (found_stored [] []); rewrite ?Hn', ?Hd', ?Hn, ?Hd; done.
Qed.

(** The first start with a state file of the former format. *)
Lemma legacy_start now w t w' f v : 0 ≤ now → honest (disk w) → names (disk w) !! path = Some (FileN f) →
  from_slice f.(data) = Ok v → get_version v = false → store_load now w = (Ok t, w') →
  state_saved (stored := file_stored) now (new_state t) w'.
Proof.
  intros Hnow Hh Hn Hv Hver [= Hr <-].
  pose proof (surjective_pairing (load_or_create path now (disk w))) as E. rewrite Hr in E.
  apply (load_migrates path now (disk w) f v) in E as (_ & legacy & f' & Hm & Hp & Hs & Hn' & Hd');
    [|apply disk_alone|done..].
  pose proof (migrated_inv _ _ _ Hm) as Hinv. pose proof (migrated_records_ok _ _ _ Hnow Hm) as Htyped.
  assert (Hgrace : ∀ id l, t.(leases) !! id = Some l → ∃ e, Lease.status l = Grace e).
  { apply migrate_legacy_ok in Hm as (rs & _ & (_ & _ & Hlk)%restore_ok).
    intros id l (r & _ & _ & _ & ->)%Hlk. by eexists. }
  assert (Hdl : deadlines_ok t).
  { intros id l e Hl He. rewrite Forall_forall in Htyped.
    destruct (Htyped (to_record now id l)) as [_ Hu]; [apply snapshot_elem; eauto|].
    cbn in Hu. by rewrite He in Hu. }
  apply ss_start; [done|done| |].
  - intros id. unfold active_session. destruct (leases t !! id) as [l|] eqn:Hl; [|done].
    destruct (Hgrace _ _ Hl) as [e He]. cbn. by rewrite He.
  - intros n. cbn. rewrite Hn', Hd'. intros Hw. assert (n = Some (FileN f')) as -> by tauto.
    apply (printed_found (snapshot now t)); [done..|]. by apply snapshot_covers.
Qed.

(** A disk the relay has not run on: without a state file, or with one of the
    former format. *)
Definition first_disk (now : Z) (w : FileWorld) : Prop :=
  0 ≤ now ∧ honest (disk w) ∧
  (names (disk w) !! path = None ∧ durable (disk w) !! path = None ∨
   ∃ f v, names (disk w) !! path = Some (FileN f) ∧ from_slice f.(data) = Ok v ∧ get_version v = false).

Lemma first_start now w t w' : first_disk now w → store_load now w = (Ok t, w') →
  state_saved (stored := file_stored) now (new_state t) w'.
Proof.
  intros (Hnow & Hh & [[Hn Hd]|(f & v & Hn & Hv & Hver)]) Hload;
    [by eapply fresh_start|by eapply legacy_start].
Qed.

Lemma looks_crash {A} w w1 (r : result A) w2 : crash w w1 → looks (disk w1) r (disk w2) → crash w w2.
Proof.
  intros (Hh & Hd & n & Hn & Hw) (_ & Hn2 & Hd2 & Hh2 & _). split; [by apply Hh2|].
  rewrite Hn2, Hd2. split; [done|]. by exists n.
Qed.

Lemma looks_first {A} now w (r : result A) w2 : first_disk now w → looks (disk w) r (disk w2) →
  first_disk now w2.
Proof.
  intros (Hnow & Hh & Hor) (_ & Hn2 & Hd2 & Hh2 & _). unfold first_disk. rewrite Hn2, Hd2. auto.
Qed.

(** C11. A crash loses no claim: whatever has failed before, a relay that is killed
    or loses power starts again if the disk lets it read its file, and is then in
    a state that all these guarantees hold of.  If its storage was healthy when it
    died, every claim it held is back under its identity with its port, recovery
    key and former identities, unless the deadline it was saved with has passed:
    its own if its host had left, 300 seconds after the file was last written, at
    [last], if its host was connected. *)
Theorem crash_loses_no_claim last s w : state_saved (stored := file_stored) last s w →
  (∀ w1 now, crash w w1 → schedule (disk w1) = [] → is_ok (store_load now w1).1 = true) ∧
  ∀ now t w', restarts now t w' w →
    state_saved (stored := file_stored) now (new_state t) w' ∧
    (persistence_healthy s = true → ∀ id l, (st_leases s).(leases) !! id = Some l →
       expired now (demote last l) = false → t.(leases) !! id = Some (demote last l)).
Proof.
  intros Hs. split; [|intros now t w'; by apply restarts_saved]. apply state_saved_reachable in Hs.
  intros w1 now Hc Hsch.
  destruct (crash_found restorable w w1 (state_reachable_restorable _ _ Hs)) as (Hh & rs & rs' & Hrs & Hperm & Hf & _); [done|done|].
  destruct (start_from _ _ now w1 _ _ Hh eq_refl Hf (surjective_pairing _)) as (_ & _ & [->|[_ ?]]); [|done].
  destruct (restored rs now (proj1 Hrs)) as (t & Ht & _). by rewrite (restore_perm rs' rs), Ht by done || apply Hrs.
Qed.
End file_store.

(** ** Concrete instances *)

Section witnesses.
#[local] Existing Instances first_32 gmap_order bit_json bit_json_law posix_tempfile posix_laws.

(** The state file on a disk with a directory for it. *)
Definition w_path : Path := ["srv"; "gamenet-state.json"]%string.
Definition w_fs : Fs :=
  {| names := {[["srv"]%string := DirN]}; durable := {[["srv"]%string := DirN]};
     schedule := []; entropy := [] |}.
Definition w_disk : FileWorld := {| disk := w_fs; disk_alone := List.Forall_nil _ |}.
#[local] Instance file_network : Network FileWorld := {|
  Connection := Z;
  Listener := Z;
  tcp_bind port w := (Ok port, w);
|}.
#[local] Instance w_file_store : Store FileWorld := file_store w_path.
#[local] Instance w_file_crash : Crash FileWorld := file_crash w_path.

Lemma w_bind_keeps port (w : FileWorld) : names (disk (tcp_bind port w).2) = names (disk w) ∧
  durable (disk (tcp_bind port w).2) = durable (disk w).
Proof. done. Qed.

Lemma lease_store_refines_witness : StoreLaws FileWorld (file_stored w_path).
Proof. apply (lease_store_refines w_path w_bind_keeps). Defined.

#[local] Instance w_file_laws : StoreLaws FileWorld (file_stored w_path).
Proof. apply (file_store_laws w_path w_bind_keeps). Qed.

Definition w_disk_start : ServerState FileWorld * FileWorld :=
  (new_state LeaseTable_new, (store_load 0 w_disk).2).
Definition w_disk_op : state_op (W := FileWorld) := OpRegister w_token None (w_ip x01) 1000 7.
Definition w_disk_running := run_state_op w_disk_op w_disk_start.

(** The power fails: what is left are the durable entries. *)
Definition power_cycle (w : FileWorld) : FileWorld :=
  {| disk := {| names := durable (disk w); durable := durable (disk w); schedule := []; entropy := [] |};
     disk_alone := List.Forall_nil _ |}.
Lemma power_cycle_crash w : crash w (power_cycle w).
Proof. split; [constructor|]. split; [done|]. exists (durable (disk w) !! w_path). auto. Qed.

Lemma load_compute now w t : (store_load now w).1 = Ok t → store_load now w = (Ok t, (store_load now w).2).
Proof. intros <-. apply surjective_pairing. Qed.

Lemma w_disk_start_saved : state_saved (stored := file_stored w_path) 0 w_disk_start.1 w_disk_start.2.
Proof.
  apply (fresh_start w_path w_bind_keeps 0 w_disk); [constructor|done|done|].
  apply load_compute. vm_compute. reflexivity.
Qed.

Lemma w_disk_running_saved :
  state_saved (stored := file_stored w_path) 1000 w_disk_running.1 w_disk_running.2.
Proof.
  assert (Ht : save_time w_disk_op w_disk_start 0 = 1000) by (vm_compute; reflexivity).
  rewrite <- Ht. apply (ss_op 0 w_disk_op w_disk_start.1 w_disk_start.2); [apply w_disk_start_saved|done|].
  apply surjective_pairing.
Qed.

Lemma w_disk_running_reachable :
  state_reachable (stored := file_stored w_path) w_disk_running.1 w_disk_running.2.
Proof. apply (state_saved_reachable 1000), w_disk_running_saved. Qed.

(** The restart after the power failure, and the claim it finds. *)
Definition w_restart : FileWorld := power_cycle w_disk_running.2.
Definition w_restarted : LeaseTable :=
  match (store_load 2000 w_restart).1 with Ok t => t | Err _ => LeaseTable_new end.

Lemma w_restart_run : store_load 2000 w_restart = (Ok w_restarted, (store_load 2000 w_restart).2).
Proof. apply load_compute. vm_compute. reflexivity. Qed.

(** The connected host's claim is back, with 300 seconds from the registration. *)
Definition w_claim : Lease :=
  default {| Lease.port := 0; Lease.last_ip := None; Lease.retired_token_ids := [];
             Lease.recovery_id := None; Lease.status := Grace 0 |}
    ((st_leases w_disk_running.1).(leases) !! from_token w_token).

Lemma crash_loses_no_claim_witness :
  state_saved (stored := file_stored w_path) 2000 (new_state w_restarted) (store_load 2000 w_restart).2 ∧
  w_restarted.(leases) !! from_token w_token = Some (demote 1000 w_claim) ∧
  Lease.status w_claim = Active (MkSessionId 1) ∧ Lease.status (demote 1000 w_claim) = Grace 301000.
Proof.
  destruct (crash_loses_no_claim w_path w_bind_keeps 1000 w_disk_running.1 w_disk_running.2
    w_disk_running_saved) as [_ Hall].
  destruct (Hall 2000 w_restarted (store_load 2000 w_restart).2) as [Hs Hc].
  - apply (restart_up _ _ _ _ w_restart); [apply power_cycle_crash|apply w_restart_run].
  - split; [exact Hs|]. split; [|split; vm_compute; reflexivity].
    apply Hc; [vm_compute; reflexivity..].
Defined.

Example w_restarted_claim :
  Lease.port <$> w_restarted.(leases) !! from_token w_token = Some 10000.
Proof. vm_compute. reflexivity. Qed.
End witnesses.
