(* ===== verification/Tunnel.v ===== *)
(** One host's tunnel on the relay (crates/server/src/tunnel.rs): the guard of a
    registration in flight, the first message, the admission of players. *)

From S2P Require Import Prelude Bytes HostAdmission LeaseTable Protocol State.

(** ** [tokio::sync::Semaphore], as the number of permits left *)

Module Semaphore.
Definition try_acquire (available : nat) : option nat :=
  match available with O => None | S n => Some n end.
Definition release (available : nat) : nat := S available.
End Semaphore.

Definition MAX_CONCURRENT_PLAYERS : nat := 50.

(** ** [PendingRegistration] *)

Record PendingRegistration := {
  pend_token_id : TokenId;
  pend_session_id : SessionId;
  armed : bool;
}.

Definition PendingRegistration_new (id : TokenId) (ses : SessionId) : PendingRegistration :=
  {| pend_token_id := id; pend_session_id := ses; armed := true |}.
Definition disarm (p : PendingRegistration) : PendingRegistration :=
  {| pend_token_id := p.(pend_token_id); pend_session_id := p.(pend_session_id); armed := false |}.

(** [Drop], while the runtime is up: the call of [ServerState::end] that is
    spawned, if any. *)
Definition drop_pending (p : PendingRegistration) : option (TokenId * SessionId) :=
  if negb p.(armed) then None else Some (p.(pend_token_id), p.(pend_session_id)).

(** ** The first control message *)

Inductive Request :=
  | Hosting (local_port : Z) (token : TunnelToken) (recovery_id : bytes 32)
  | Rotation (old_token new_token : TunnelToken)
  | Recovery (recovery_secret new_token : TunnelToken)
  | Rejected (reason : error)   (** answered with an [Error] message *)
  | Dropped.                    (** given up without an answer *)

Definition first_message (received : result (option ControlMessage)) : Request :=
  match received with
  | Ok (Some (Register protocol local_port token recovery_id)) =>
      if negb (bool_decide (protocol = Tcp)) || (local_port =? 0)
      then Rejected (Msg "Only TCP tunnels with a nonzero local port are supported")
      else Hosting local_port token recovery_id
  | Ok (Some (RotateIdentity old_token new_token)) => Rotation old_token new_token
  | Ok (Some (RecoverIdentity secret new_token)) => Recovery secret new_token
  | Ok (Some _) | Ok None | Err _ => Dropped
  end.

Section tunnel.
Context {W : Type} `{Network W}.

(** ** [Tunnel]

    [players] counts the tasks of the [JoinSet]; the state and the relay-wide
    semaphore it shares are the relay's ([Relay.RelayServer]). *)
Record Tunnel := {
  quic : Connection;
  has_listener : bool;
  tun_public_port : Z;
  tun_local_port : Z;
  tun_token_id : TokenId;
  tun_session_id : SessionId;
  stream_counter : Z;
  player_slots : nat;
  players : nat;
}.

Definition Tunnel_new (conn : Connection) (local_port : Z) (id : TokenId) (ses : SessionId)
    (public_port : Z) : Tunnel :=
  {| quic := conn; has_listener := true; tun_public_port := public_port;
     tun_local_port := local_port; tun_token_id := id; tun_session_id := ses;
     stream_counter := 0; player_slots := MAX_CONCURRENT_PLAYERS; players := 0 |}.

Definition set_slots (slots n : nat) (counter : Z) (has : bool) (t : Tunnel) : Tunnel :=
  {| quic := t.(quic); has_listener := has; tun_public_port := t.(tun_public_port);
     tun_local_port := t.(tun_local_port); tun_token_id := t.(tun_token_id);
     tun_session_id := t.(tun_session_id); stream_counter := counter;
     player_slots := slots; players := n |}.

(** [accept_player]: the outcome, the tunnel, and the relay's player permits
    left.  [sent] is the outcome of announcing the player to the host. *)
Definition accept_player (sent : result unit) (t : Tunnel) (global : nat)
    : result unit * Tunnel * nat :=
  match Semaphore.try_acquire t.(player_slots) with
  | None => (Ok tt, t, global)
  | Some slots =>
      match Semaphore.try_acquire global with
      | None => (Ok tt, t, global)
      | Some rest =>
          let counter := saturating_add_u64 t.(stream_counter) 1 in
          match sent with
          | Err e => (Err e, set_slots t.(player_slots) t.(players) counter t.(has_listener) t, global)
          | Ok _ => (Ok tt, set_slots slots (S t.(players)) counter t.(has_listener) t, rest)
          end
      end
  end.

(** A player's task ends, with it both its permits. *)
Definition player_done (t : Tunnel) (global : nat) : option (Tunnel * nat) :=
  match t.(players) with
  | O => None
  | S n => Some (set_slots (Semaphore.release t.(player_slots)) n t.(stream_counter)
                           t.(has_listener) t, Semaphore.release global)
  end.

(** The end of [run]: the listener goes, the players are aborted and joined. *)
Definition stop (t : Tunnel) : Tunnel :=
  set_slots t.(player_slots) t.(players) t.(stream_counter) false t.
End tunnel.
