(* ===== verification/Crypto.v ===== *)
(** The TLS configurations (crates/core/src/crypto.rs).  rustls, quinn and rcgen
    are parameters; a configuration is the record of what the code passed to
    their builders. *)

From Stdlib Require Import Strings.Byte.
From S2P Require Import Prelude Bytes Fs.

Inductive NamedGroup := X25519MLKEM768 | OtherGroup (code : Z).
Inductive TlsVersion := TLS12 | TLS13.

#[global] Instance NamedGroup_eq_dec : EqDecision NamedGroup.
Proof. solve_decision. Defined.
#[global] Instance TlsVersion_eq_dec : EqDecision TlsVersion.
Proof. solve_decision. Defined.

(** ** The libraries *)

Class Rustls := {
  CertificateDer : Type;
  PrivateKeyDer : Type;
  RootCertStore : Type;
  VerificationAlgorithms : Type;
  default_kx_groups : list NamedGroup;
  default_algorithms : VerificationAlgorithms;
  TLS_SERVER_ROOTS : RootCertStore;
  (** the checks of the builders *)
  versions_supported : list NamedGroup → list TlsVersion → result unit;
  certificate_usable : list CertificateDer → PrivateKeyDer → result unit;
  quic_usable : list NamedGroup → result unit;
  (** PEM files, and [rcgen::generate_simple_self_signed] *)
  pem_certificates : list byte → result (list CertificateDer);
  pem_private_key : list byte → result PrivateKeyDer;
  self_signed : list string → result (CertificateDer * PrivateKeyDer);
  (** [verify_tls12_signature] and [verify_tls13_signature] *)
  signature_valid : TlsVersion → list byte → CertificateDer → list byte →
    VerificationAlgorithms → result unit;
  webpki_verify : RootCertStore → CertificateDer → string → result unit;
}.

Section crypto.
Context `{Rustls}.

Record CryptoProvider := {
  kx_groups : list NamedGroup;
  signature_verification_algorithms : VerificationAlgorithms;
}.
Definition default_provider : CryptoProvider :=
  {| kx_groups := default_kx_groups; signature_verification_algorithms := default_algorithms |}.

Definition hybrid_provider : CryptoProvider :=
  {| kx_groups := [X25519MLKEM768];
     signature_verification_algorithms := default_provider.(signature_verification_algorithms) |}.

(** ** The relay's side *)

Record ServerConfig := {
  server_provider : CryptoProvider;
  server_versions : list TlsVersion;
  client_auth : bool;
  chain : list CertificateDer;
  private_key : PrivateKeyDer;
  max_concurrent_bidi_streams : Z;
}.

Definition server_config_with_cert (certs : list CertificateDer) (key : PrivateKeyDer)
    : result ServerConfig :=
  let provider := hybrid_provider in
  versions_supported provider.(kx_groups) [TLS13];;
  certificate_usable certs key;;
  quic_usable provider.(kx_groups);;
  Ok {| server_provider := provider; server_versions := [TLS13]; client_auth := false;
        chain := certs; private_key := key; max_concurrent_bidi_streams := 128 |}.

Definition server_config : result (ServerConfig * CertificateDer) :=
  '(cert_der, key_der) ← self_signed ["localhost"%string];
  config ← server_config_with_cert [cert_der] key_der;
  Ok (config, cert_der).

(** [.map_err(|e| anyhow!("{text}"))]. *)
Definition map_err {A} (text : string) (r : result A) : result A :=
  match r with Ok a => Ok a | Err _ => Err (Msg text) end.

Definition server_config_from_files (cert_path key_path : Path) : M Fs ServerConfig :=
  cert_read ← attempt (fs_read cert_path);
  cert_pem ← lift (map_err "Cannot read cert" cert_read);
  key_read ← attempt (fs_read key_path);
  key_pem ← lift (map_err "Cannot read key" key_read);
  certs ← lift (map_err "Failed to parse cert PEM" (pem_certificates cert_pem));
  ensure (negb (length certs =? 0)%nat) (Msg "No certificates found");;
  key ← lift (map_err "Failed to parse key PEM" (pem_private_key key_pem));
  lift (server_config_with_cert certs key).

(** ** The host's side *)

(** [SkipServerVerification] and rustls's own verifier. *)
Inductive Verifier := WebPki (roots : RootCertStore) | SkipServerVerification (provider : CryptoProvider).

Definition verify_server_cert (v : Verifier) (end_entity : CertificateDer) (server_name : string)
    : result unit :=
  match v with
  | WebPki roots => webpki_verify roots end_entity server_name
  | SkipServerVerification _ => Ok tt
  end.

(** The signature checks of [SkipServerVerification]. *)
Definition verify_signature (p : CryptoProvider) (version : TlsVersion) (message : list byte)
    (cert : CertificateDer) (dss : list byte) : result unit :=
  signature_valid version message cert dss p.(signature_verification_algorithms).

Record ClientConfig := {
  client_provider : CryptoProvider;
  client_versions : list TlsVersion;
  verifier : Verifier;
}.

Definition client_config_with_roots (roots : RootCertStore) : result ClientConfig :=
  let provider := hybrid_provider in
  versions_supported provider.(kx_groups) [TLS13];;
  quic_usable provider.(kx_groups);;
  Ok {| client_provider := provider; client_versions := [TLS13]; verifier := WebPki roots |}.

Definition client_config : result ClientConfig := client_config_with_roots TLS_SERVER_ROOTS.

Definition insecure_client_config : result ClientConfig :=
  let provider := hybrid_provider in
  versions_supported provider.(kx_groups) [TLS13];;
  quic_usable provider.(kx_groups);;
  Ok {| client_provider := provider; client_versions := [TLS13];
        verifier := SkipServerVerification provider |}.
End crypto.
