(* ===== verification/Relay.v ===== *)
(** The relay (crates/server/src/relay.rs): its configuration, the limits, and
    the tasks it spawns, one per incoming connection, as a step function over
    what the awaited calls report. *)

From S2P Require Import Prelude Bytes HostAdmission LeaseTable LeaseStore Fs Protocol State Tunnel Crypto.

Definition PENDING_LIMIT : nat := 128.
Definition PENDING_PER_IP_LIMIT : nat := 4.
Definition GLOBAL_PLAYER_LIMIT : nat := 2000.

(** ** [tls_server_config] *)

Section configuration.
Context `{Rustls}.

Definition tls_server_config (cert_path key_path : option Path) (development_self_signed : bool)
    : M Fs ServerConfig :=
  match cert_path, key_path with
  | Some cert, Some key => server_config_from_files cert key
  | None, None =>
      if development_self_signed then lift (fst <$> server_config)
      else fail (Msg "Set GAMENET_TLS_CERT and GAMENET_TLS_KEY for production, or GAMENET_DEV_SELF_SIGNED=1 for local development")
  | _, _ => fail (Msg "GAMENET_TLS_CERT and GAMENET_TLS_KEY must both be set")
  end.

(** The configuration [RelayServer::bind] reads from the environment. *)
Definition bind_config (GAMENET_TLS_CERT GAMENET_TLS_KEY : option Path)
    (GAMENET_DEV_SELF_SIGNED : option string) : M Fs ServerConfig :=
  tls_server_config GAMENET_TLS_CERT GAMENET_TLS_KEY
    (bool_decide (GAMENET_DEV_SELF_SIGNED = Some "1"%string)).
End configuration.

Section relay.
Context `{Digest} `{!IterOrder TokenId Lease} {W : Type} `{Store W} `{Network W}.

(** ** Tasks *)

Inductive Reply := Answer (m : ControlMessage) | Refusal (e : error).

(** Where a task waits; the stages up to [Announcing] run under
    [REGISTRATION_TIMEOUT] and hold the two permits of a pending host. *)
Inductive Stage :=
  | Handshaking
  | Rotating (old_token new_token : TunnelToken)
  | Recovering (recovery_secret new_token : TunnelToken)
  | Closing (old_connection : Connection) (reply : Reply)
  | Registering (local_port : Z) (token : TunnelToken) (recovery_id : bytes 32) (conn : Connection)
  | Replying (reply : Reply)
  | Announcing (pending : PendingRegistration) (local_port public_port : Z) (conn : Connection)
  | Running (t : Tunnel)
  | Stopping (t : Tunnel)
  | Canceled (id : TokenId) (ses : SessionId)
  | Finished.

Record Task := { peer : IpAddr; ip_permit : option PendingHostPermit; stage : Stage }.

(** What an awaited call reports to the task that waits for it. *)
Inductive Input :=
  | Received (conn : Connection) (msg : result (option ControlMessage))
  | Locked (now : Z)            (** the state's mutex is taken *)
  | BindDropped (now : Z)       (** the timeout hits while a port is being bound *)
  | Sent (r : result unit)
  | Scheduled                   (** the thread goes on; no call was awaited *)
  | TimedOut
  | PlayerArrives (sent : result unit)
  | PlayerLeaves
  | Disconnected.               (** [quic.closed()], or an error that ends [accept_players] *)

Record RelayServer := {
  state : ServerState W;
  world : W;
  pending : nat;
  pending_by_ip : PendingByIp;
  global_players : nat;
  tasks : list Task;
  closed : list Connection;
}.

(** [bind_with_config_and_state_path], over the loaded state. *)
Definition RelayServer_new (s : ServerState W) (w : W) : RelayServer :=
  {| state := s; world := w; pending := PENDING_LIMIT;
     pending_by_ip := PendingByIp_new PENDING_PER_IP_LIMIT;
     global_players := GLOBAL_PLAYER_LIMIT; tasks := []; closed := [] |}.

Definition set_state (sw : ServerState W * W) (r : RelayServer) : RelayServer :=
  {| state := sw.1; world := sw.2; pending := r.(pending); pending_by_ip := r.(pending_by_ip);
     global_players := r.(global_players); tasks := r.(tasks); closed := r.(closed) |}.
Definition set_tasks (ts : list Task) (r : RelayServer) : RelayServer :=
  {| state := r.(state); world := r.(world); pending := r.(pending);
     pending_by_ip := r.(pending_by_ip); global_players := r.(global_players); tasks := ts;
     closed := r.(closed) |}.
Definition set_global (n : nat) (r : RelayServer) : RelayServer :=
  {| state := r.(state); world := r.(world); pending := r.(pending);
     pending_by_ip := r.(pending_by_ip); global_players := n; tasks := r.(tasks);
     closed := r.(closed) |}.
Definition set_pending (n : nat) (p : PendingByIp) (r : RelayServer) : RelayServer :=
  {| state := r.(state); world := r.(world); pending := n; pending_by_ip := p;
     global_players := r.(global_players); tasks := r.(tasks); closed := r.(closed) |}.
Definition close (conn : Connection) (r : RelayServer) : RelayServer :=
  {| state := r.(state); world := r.(world); pending := r.(pending);
     pending_by_ip := r.(pending_by_ip); global_players := r.(global_players);
     tasks := r.(tasks); closed := conn :: r.(closed) |}.

(** Task [i] goes on to wait at another stage. *)
Definition goto (i : nat) (task : Task) (st : Stage) (r : RelayServer) : RelayServer :=
  set_tasks (<[i := {| peer := task.(peer); ip_permit := task.(ip_permit); stage := st |}]>
               r.(tasks)) r.

(** The registration of task [i] is over: [drop((permit, ip_permit))]; [None] is
    the underflow of the source's counter. *)
Definition release_permits (i : nat) (task : Task) (st : Stage) (r : RelayServer)
    : option RelayServer :=
  match task.(ip_permit) with
  | None => None
  | Some permit =>
      p ← drop_permit permit r.(pending_by_ip);
      Some (set_tasks (<[i := {| peer := task.(peer); ip_permit := None; stage := st |}]> r.(tasks))
              (set_pending (Semaphore.release r.(pending)) p r))
  end.

(** The guard of a registration in flight is dropped. *)
Definition spawn_cleanup (guard : PendingRegistration) (task : Task) (r : RelayServer)
    : RelayServer :=
  match drop_pending guard with
  | Some (id, ses) =>
      set_tasks (r.(tasks) ++ [{| peer := task.(peer); ip_permit := None; stage := Canceled id ses |}]) r
  | None => r
  end.

(** ** One step of a task *)

(** The relay's answers to a rotation, and to a recovery with the connection of
    the displaced host. *)
Definition serve_rotation (old_token new_token : TunnelToken) (now : Z) (sw : ServerState W * W)
    : Reply * (ServerState W * W) :=
  let '(rotation, sw) := rotate old_token new_token now sw in
  (match rotation with
   | Ok public_port => Answer (IdentityRotated public_port)
   | Err e => Refusal e
   end, sw).
Definition serve_recovery (secret new_token : TunnelToken) (peer_ip : IpAddr) (now : Z)
    (sw : ServerState W * W) : Reply * option Connection * (ServerState W * W) :=
  let '(recovery, sw) := recover secret new_token peer_ip now sw in
  match recovery with
  | Ok (public_port, old_connection) => (Answer (IdentityRecovered public_port), old_connection, sw)
  | Err e => (Refusal e, None, sw)
  end.

(** [Tunnel::from_quic], from one suspension to the next. *)
Definition from_quic_step (i : nat) (task : Task) (input : Input) (r : RelayServer)
    : option RelayServer :=
  match task.(stage), input with
  | Handshaking, Received conn msg =>
      match first_message msg with
      | Hosting local_port token recovery_id =>
          Some (goto i task (Registering local_port token recovery_id conn) r)
      | Rotation old_token new_token => Some (goto i task (Rotating old_token new_token) r)
      | Recovery secret new_token => Some (goto i task (Recovering secret new_token) r)
      | Rejected reason => Some (goto i task (Replying (Refusal reason)) r)
      | Dropped => release_permits i task Finished r
      end
  | Rotating old_token new_token, Locked now =>
      let '(reply, sw) := serve_rotation old_token new_token now (r.(state), r.(world)) in
      Some (goto i task (Replying reply) (set_state sw r))
  | Recovering secret new_token, Locked now =>
      let '(reply, old_connection, sw) :=
        serve_recovery secret new_token task.(peer) now (r.(state), r.(world)) in
      let next := match old_connection with
                  | Some old_connection => Closing old_connection reply
                  | None => Replying reply
                  end in
      Some (goto i task next (set_state sw r))
  | Closing old_connection reply, Scheduled =>
      Some (goto i task (Replying reply) (close old_connection r))
  | Replying _, Sent _ => release_permits i task Finished r
  | Registering local_port token recovery_id conn, Locked now =>
      let '(registration, sw) := register_with_recovery token (Some recovery_id) task.(peer) now
                                   (Some conn) (r.(state), r.(world)) in
      let next := match registration with
                  | Ok reg => Announcing (PendingRegistration_new (reg_token_id reg) (reg_session_id reg))
                                local_port (public_port reg) conn
                  | Err e => Replying (Refusal e)
                  end in
      Some (goto i task next (set_state sw r))
  | Registering _ token _ _, BindDropped now =>
      release_permits i task Finished
        (set_state (register_abandoned token task.(peer) now (r.(state), r.(world))).2 r)
  | Announcing guard local_port public_port conn, Sent (Ok _) =>
      let tunnel := Tunnel_new conn local_port guard.(pend_token_id) guard.(pend_session_id) public_port in
      release_permits i task (Running tunnel) (spawn_cleanup (disarm guard) task r)
  | Announcing guard _ _ _, (Sent (Err _) | TimedOut) =>
      release_permits i task Finished (spawn_cleanup guard task r)
  | (Handshaking | Rotating _ _ | Recovering _ _ | Replying _ | Registering _ _ _ _), TimedOut =>
      release_permits i task Finished r
  | _, _ => None
  end.

(** [Tunnel::accept_players]: one turn of its [select!]. *)
Definition accept_players_step (i : nat) (task : Task) (t : Tunnel) (input : Input) (r : RelayServer)
    : option RelayServer :=
  match input with
  | PlayerArrives sent =>
      let '(outcome, t', rest) := accept_player sent t r.(global_players) in
      Some (goto i task (if is_ok outcome then Running t' else Stopping (stop t')) (set_global rest r))
  | PlayerLeaves =>
      '(t', rest) ← player_done t r.(global_players);
      Some (goto i task (Running t') (set_global rest r))
  | Disconnected => Some (goto i task (Stopping (stop t)) r)
  | _ => None
  end.

(** [Tunnel::cleanup]. *)
Definition cleanup (t : Tunnel) (now : Z) (r : RelayServer) : RelayServer :=
  set_state (end_session t.(tun_token_id) t.(tun_session_id) now (r.(state), r.(world))).2 r.

(** The end of [Tunnel::run], which joins the players, and the cleanup after it. *)
Definition stopping_step (i : nat) (task : Task) (t : Tunnel) (input : Input) (r : RelayServer)
    : option RelayServer :=
  match input with
  | PlayerLeaves =>
      '(t', rest) ← player_done t r.(global_players);
      Some (goto i task (Stopping t') (set_global rest r))
  | Locked now =>
      if (t.(players) =? 0)%nat then Some (goto i task Finished (cleanup t now r)) else None
  | _ => None
  end.

(** The task spawned by the drop of a guard. *)
Definition canceled_step (i : nat) (task : Task) (id : TokenId) (ses : SessionId) (input : Input)
    (r : RelayServer) : option RelayServer :=
  match input with
  | Locked now =>
      Some (goto i task Finished (set_state (end_session id ses now (r.(state), r.(world))).2 r))
  | _ => None
  end.

(** The body of the task spawned per connection, and the guard's task. *)
Definition task_step (i : nat) (task : Task) (input : Input) (r : RelayServer)
    : option RelayServer :=
  match task.(stage) with
  | Running t => accept_players_step i task t input r
  | Stopping t => stopping_step i task t input r
  | Canceled id ses => canceled_step i task id ses input r
  | Finished => None
  | _ => from_quic_step i task input r
  end.

(** ** The relay's loop and its tasks: the endpoint is never closed *)

Inductive Event :=
  | RefreshTick (now : Z)
  | Incoming (address : IpAddr)
  | Resumed (i : nat) (input : Input).

Definition incoming (address : IpAddr) (r : RelayServer) : RelayServer :=
  match Semaphore.try_acquire r.(pending) with
  | None => r
  | Some rest =>
      match try_acquire address r.(pending_by_ip) with
      | (None, p) => set_pending r.(pending) p r
      | (Some permit, p) =>
          set_tasks (r.(tasks) ++ [{| peer := address; ip_permit := Some permit; stage := Handshaking |}])
            (set_pending rest p r)
      end
  end.

Definition step (ev : Event) (r : RelayServer) : option RelayServer :=
  match ev with
  | RefreshTick now => Some (set_state (refresh_and_save now (r.(state), r.(world))).2 r)
  | Incoming address => Some (incoming address r)
  | Resumed i input => task ← r.(tasks) !! i; task_step i task input r
  end.

Definition run (evs : list Event) (r : RelayServer) : option RelayServer :=
  foldl (λ r ev, r ≫= step ev) (Some r) evs.
End relay.
Arguments RelayServer W {_}.
