(* ===== verification/Replies.v ===== *)
(** The relay's answers on a control stream (crates/server/src/tunnel.rs:
    [send_registration_error], and the branches of [Tunnel::from_quic] that end
    with an answer). *)

From S2P Require Import Prelude Bytes LeaseTable Protocol State Tunnel Relay Message.

(** quinn's [SendStream]: [send_msg] on it, [finish], and [stopped] under a
    timeout in milliseconds, whose two errors the callers treat alike. *)
Class SendStream (T : Type) := {
  stream_send : ControlMessage → M T unit;
  stream_finish : M T unit;
  stream_stopped : Z → M T unit;
}.

(** [sent]: the whole messages that were written; [over]: [finish] was called. *)
Class SendStreamLaws (T : Type) `{SendStream T} (sent : T → list ControlMessage) (over : T → bool)
    : Prop := {
  send_law m t : over (stream_send m t).2 = over t ∧
    sent (stream_send m t).2 = match (stream_send m t).1 with Ok _ => sent t ++ [m] | Err _ => sent t end;
  (** it fails if it was called before, and only then *)
  finish_law t : sent (stream_finish t).2 = sent t ∧ over (stream_finish t).2 = true ∧
    is_ok (stream_finish t).1 = negb (over t);
  stopped_law ms t : sent (stream_stopped ms t).2 = sent t ∧ over (stream_stopped ms t).2 = over t;
}.

Section replies.
Context {T : Type} `{!SendStream T} (display : error → str).

Definition send_registration_error (message : str) : M T unit :=
  r ← attempt (stream_send (Error message));
  match r with
  | Ok _ => attempt stream_finish;; attempt (stream_stopped 1000);; mret tt
  | Err _ => mret tt
  end.

Definition reply_message (r : Reply) : ControlMessage :=
  match r with Answer m => m | Refusal e => Error (display e) end.

(** The end of a rotation or recovery: [Ok] is [Ok(None)], no tunnel. *)
Definition reply_and_finish (r : Reply) : M T unit :=
  match r with
  | Answer m => stream_send m
  | Refusal e => send_registration_error (display e)
  end;;
  stream_finish;;
  stream_stopped 8000.

(** A registration that is refused. *)
Definition refuse (e : error) : M T unit :=
  send_registration_error (display e);;
  fail e.

Context `{!SendStreamLaws T sent over}.

(** Whatever fails, the error message is sent whole, and the stream then finished,
    or not at all. *)
Lemma send_registration_error_run message t : over t = false → ∃ t',
  send_registration_error message t = (Ok tt, t') ∧
  (sent t' = sent t ++ [Error message] ∧ over t' = true ∨ sent t' = sent t ∧ over t' = false).
Proof.
  intros Ho. unfold send_registration_error, attempt, mbind, M_bind, mret, M_ret.
  destruct (send_law (Error message) t) as [Ho1 Hs1]. destruct (stream_send _ t) as [[[]|e] t1]; cbn in *.
  - destruct (finish_law t1) as (Hs2 & Ho2 & _). destruct (stream_finish t1) as [r2 t2]. cbn in *.
    destruct (stopped_law 1000 t2) as [Hs3 Ho3]. destruct (stream_stopped 1000 t2) as [r3 t3]. cbn in *.
    exists t3. split; [done|left]. split; congruence.
  - exists t1. split; [done|right]. split; congruence.
Qed.

(** A refused registration fails with the reason the host was told. *)
Lemma refuse_run e t : over t = false → ∃ t', refuse e t = (Err e, t') ∧
  (sent t' = sent t ++ [Error (display e)] ∨ sent t' = sent t).
Proof.
  intros Ho. destruct (send_registration_error_run (display e) t Ho) as (t' & Hr & Hs). exists t'.
  unfold refuse, mbind, M_bind. rewrite Hr. split; [done|]. destruct Hs as [[? _]|[? _]]; auto.
Qed.

(** A request that succeeds is answered, and the stream finished, before [Ok]; one
    whose refusal was sent never ends with [Ok]: the stream is finished twice. *)
Theorem reply_outcome r t : over t = false →
  (sent (reply_and_finish r t).2 = sent t ∨
   sent (reply_and_finish r t).2 = sent t ++ [reply_message r]) ∧
  match r with
  | Answer m => is_ok (reply_and_finish r t).1 = true →
      sent (reply_and_finish r t).2 = sent t ++ [m] ∧ over (reply_and_finish r t).2 = true
  | Refusal e => sent (reply_and_finish r t).2 ≠ sent t → is_ok (reply_and_finish r t).1 = false
  end.
Proof.
  intros Ho. unfold reply_and_finish, mbind, M_bind. destruct r as [m|e].
  - destruct (send_law m t) as [Ho1 Hs1]. destruct (stream_send m t) as [[[]|e] t1]; cbn in *; [|by split; [left|]].
    destruct (finish_law t1) as (Hs2 & Ho2 & _). destruct (stream_finish t1) as [[[]|e] t2]; cbn in *.
    + destruct (stopped_law 8000 t2) as [Hs3 Ho3]. rewrite Hs3, Hs2, Hs1, Ho3. auto.
    + rewrite Hs2, Hs1. by split; [right|].
  - destruct (send_registration_error_run (display e) t Ho) as (t1 & -> & Ht1).
    destruct (finish_law t1) as (Hs2 & Ho2 & Hf). destruct (stream_finish t1) as [[[]|e'] t2]; cbn in *.
    + destruct (stopped_law 8000 t2) as [Hs3 Ho3]. rewrite Hs3, Hs2.
      destruct Ht1 as [[_ Ht1]|[-> _]]; [by rewrite Ht1 in Hf|by split; [left|]].
    + rewrite Hs2. destruct Ht1 as [[-> _]|[-> _]]; split; auto.
Qed.
End replies.

(** A stream that takes everything. *)
Section witnesses.
#[local] Instance plain_stream : SendStream (list ControlMessage * bool) := {|
  stream_send m := λ '(ms, over), (Ok tt, (ms ++ [m], over));
  stream_finish := λ '(ms, over), (if over : bool then Err (Io OtherKind) else Ok tt, (ms, true));
  stream_stopped _ := λ t, (Ok tt, t);
|}.
#[local] Instance plain_stream_laws : SendStreamLaws (list ControlMessage * bool) fst snd.
Proof. split; [by intros m []|by intros [l []]|done]. Qed.

Lemma reply_outcome_witness :
  is_ok (reply_and_finish (λ _, []) (Refusal (Msg "refused")) ([], false)).1 = false.
Proof.
  destruct (reply_outcome (T := list ControlMessage * bool) (λ _, []) (Refusal (Msg "refused")) ([], false))
    as [_ H]; [reflexivity|]. apply H. discriminate.
Defined.

Example answered_ends_well :
  reply_and_finish (λ _, []) (Answer (IdentityRotated None)) ([], false) = (Ok tt, ([IdentityRotated None], true)).
Proof. reflexivity. Qed.
End witnesses.
