(* ===== verification/RelayFacts.v ===== *)
(** Lemmas on the relay's tasks: what the state's methods do to the sessions, and
    how a step of a task moves the ownership of sessions and permits. *)

From S2P Require Import Prelude Bytes HostAdmission LeaseTable LeaseFacts LeaseInv LeaseRestore.
From S2P Require Import Protocol State StateFacts StateInv StateProps Tunnel Relay.

(** ** Sums over the tasks *)

Section sums.
Context {A : Type} (f : A → nat).

Lemma sum_insert l i x y : l !! i = Some x →
  (sum_list_with f (<[i:=y]> l) + f x = sum_list_with f l + f y)%nat.
Proof.
  revert i. induction l as [|z l IH]; intros [|i] Hi; simplify_eq/=; [lia|].
  specialize (IH i Hi). lia.
Qed.

Lemma sum_ge l i x : l !! i = Some x → (f x ≤ sum_list_with f l)%nat.
Proof.
  revert i. induction l as [|z l IH]; intros [|i] Hi; simplify_eq/=; [lia|].
  specialize (IH i Hi). lia.
Qed.

Lemma sum_zero l : (∀ x, x ∈ l → f x = 0%nat) → sum_list_with f l = 0%nat.
Proof.
  induction l as [|z l IH]; intros Hl; cbn; [done|]. rewrite Hl by left.
  apply IH. intros x Hx. apply Hl. by right.
Qed.
End sums.

(** ** What the methods do to the sessions *)

Section sessions.
Context `{Digest} `{!IterOrder TokenId Lease} {W : Type} `{StoreLaws W stored}.
Implicit Types (s : ServerState W) (w : W).

Lemma candidates_idle id ip t ports : candidates_of id ip t ports → active_session id t = None.
Proof.
  unfold candidates_of, active_session. destruct (leases t !! id) as [l|]; [|done]. cbn.
  destruct (Lease.status l); naive_solver.
Qed.

Definition quiet_sessions s s' : Prop :=
  active_connections s' = active_connections s ∧
  next_session_id (st_leases s') = next_session_id (st_leases s).

Lemma claims_kept_quiet now s w s' w' : claims_kept (stored := stored) now s w s' w' →
  quiet_sessions s s'.
Proof. unfold quiet_sessions. intros ([-> | ->] & ? & _); by split. Qed.

Lemma register_sessions token rid ip now c s w r s' w' : state_ok (stored := stored) s w →
  register_with_recovery token rid ip now (Some c) (s, w) = (r, (s', w')) →
  match r with
  | Ok reg =>
      active_connections s !! reg_token_id reg = None ∧
      active_connections s' = <[reg_token_id reg := (reg_session_id reg, c)]> (active_connections s) ∧
      session_number (reg_session_id reg) = next_session_id (st_leases s) + 1 ∧
      next_session_id (st_leases s') = next_session_id (st_leases s) + 1
  | Err _ => quiet_sessions s s'
  end.
Proof.
  intros (_ & _ & Htr & _) Hrun%(register_run (stored := stored)). destruct r as [reg|e];
    [|by eapply claims_kept_quiet].
  destruct Hrun as (t & _ & Hact & -> & _ & ->). cbn.
  destruct Hact as ((ports & Hc & _) & _ & _ & _ & -> & ->). cbn. split_and!; try done.
  apply candidates_idle in Hc. rewrite active_session_reap, <- (Htr (from_token token)) in Hc.
  by destruct (active_connections s !! from_token token).
Qed.

Lemma rotate_sessions old new now s w r s' w' :
  rotate old new now (s, w) = (r, (s', w')) → quiet_sessions s s'.
Proof.
  intros Hrun%(rotate_run (stored := stored)). destruct r as [port|e]; [|by eapply claims_kept_quiet].
  destruct Hrun as (_ & res & t & [_ Hm] & _ & Hout). destruct res; [|destruct Hout as [-> _]; by split].
  destruct Hout as [_ ->]. split; [done|]. cbn.
  repeat case_match; destruct_and?; simplify_eq; done.
Qed.

Lemma recover_sessions secret new ip now s w r s' w' : state_ok (stored := stored) s w →
  recover secret new ip now (s, w) = (r, (s', w')) →
  next_session_id (st_leases s') = next_session_id (st_leases s) ∧
  (active_connections s' = active_connections s ∧ (∀ port c, r = Ok (port, Some c) → False) ∨
   ∃ old port, r = Ok (port, snd <$> active_connections s !! old) ∧
     active_connections s' = delete old (active_connections s)).
Proof.
  intros Hok Hrun. destruct r as [[port conn]|e].
  - destruct (recover_connections _ _ _ _ _ _ _ _ _ _ Hok Hrun) as (old & l & _ & _ & _ & Hout).
    case_decide as Hd.
    + destruct Hout as (-> & -> & _). split; [done|]. left. split; [done|]. naive_solver.
    + destruct Hout as (-> & Hc & _ & _ & Hof). unfold recovery_of in Hof.
      rewrite decide_False in Hof by done. destruct Hof as (_ & _ & _ & _ & ->).
      split; [done|]. right. eauto.
  - apply (recover_run (stored := stored)), claims_kept_quiet in Hrun as [? ?].
    split; [done|]. left. by split.
Qed.

Lemma end_sessions id ses now s w r s' w' : state_ok (stored := stored) s w →
  end_session id ses now (s, w) = (r, (s', w')) →
  next_session_id (st_leases s') = next_session_id (st_leases s) ∧
  active_connections s' =
    match active_connections s !! id with
    | Some (active, _) => if decide (active = ses) then delete id (active_connections s)
                          else active_connections s
    | None => active_connections s
    end.
Proof.
  intros (_ & _ & Htr & _) (b & t & He & Ht & Hout)%(end_run (stored := stored)). rewrite Ht.
  destruct b.
  - apply end_true in He as (l & _ & _ & ->). destruct Hout as [? _]. by split.
  - apply end_false in He as [-> Hne]. destruct Hout as (_ & -> & _). split; [done|].
    specialize (Htr id). destruct (active_connections s !! id) as [[active c]|] eqn:E; [|done].
    case_decide; [subst active|done]. cbn in Htr. symmetry in Htr.
    apply active_session_Some in Htr as (l & Hl & Hs). by destruct (Hne l Hl).
Qed.
End sessions.

(** ** Who owns a session *)

Section owners.
Context {W : Type} `{Network W}.
Implicit Types (ts : list Task) (task : Task).

(** The session a task will end. *)
Definition owned (st : Stage) : option (TokenId * SessionId) :=
  match st with
  | Announcing g _ _ _ => Some (g.(pend_token_id), g.(pend_session_id))
  | Running t | Stopping t => Some (t.(tun_token_id), t.(tun_session_id))
  | Canceled id ses => Some (id, ses)
  | _ => None
  end.

(** The connection a live tunnel uses. *)
Definition serving (st : Stage) : option Connection :=
  match st with
  | Announcing _ _ _ c => Some c
  | Running t => Some t.(quic)
  | _ => None
  end.

(** Task [i] waits at [st]. *)
Definition at_stage ts (i : nat) (st : Stage) : Prop := ∃ task, ts !! i = Some task ∧ task.(stage) = st.

Record owners_ok (A : gmap TokenId (SessionId * Connection)) (next : Z) ts (cl : list Connection)
    : Prop := {
  oo_owned id ses c : A !! id = Some (ses, c) →
    ∃ i st, at_stage ts i st ∧ owned st = Some (id, ses);
  oo_unique i j st st' id ses id' ses' : at_stage ts i st → at_stage ts j st' →
    owned st = Some (id, ses) → owned st' = Some (id', ses') →
    session_number ses = session_number ses' → i = j;
  oo_issued i st id ses : at_stage ts i st → owned st = Some (id, ses) → session_number ses ≤ next;
  oo_serving i st id ses c : at_stage ts i st → owned st = Some (id, ses) → serving st = Some c →
    A !! id = Some (ses, c) ∨ c ∈ cl ∨ ∃ j reply, at_stage ts j (Closing c reply);
}.

Lemma at_insert ts i task j st : is_Some (ts !! i) →
  at_stage (<[i := task]> ts) j st ↔ (j = i ∧ task.(stage) = st) ∨ (j ≠ i ∧ at_stage ts j st).
Proof.
  intros [x Hi]. unfold at_stage. destruct (decide (j = i)) as [->|Hj].
  - rewrite list_lookup_insert_eq by (by eapply lookup_lt_Some). naive_solver.
  - rewrite list_lookup_insert_ne by done. naive_solver.
Qed.

Lemma at_app ts task j st :
  at_stage (ts ++ [task]) j st ↔ at_stage ts j st ∨ (j = length ts ∧ task.(stage) = st).
Proof.
  unfold at_stage. setoid_rewrite lookup_app_Some. split.
  - intros (x & [Hx|[Hle Hx]] & <-); [left; eauto|right].
    apply list_lookup_singleton_Some in Hx as [Hj <-]. split; [lia|done].
  - intros [(x & Hx & <-)|[-> <-]]; [eauto|]. exists task. split; [right; split; [lia|]|done].
    by rewrite Nat.sub_diag.
Qed.

Lemma at_lt ts j st : at_stage ts j st → (j < length ts)%nat.
Proof. intros (x & Hx & _). by eapply lookup_lt_Some. Qed.

Lemma at_fun ts j st st' : at_stage ts j st → at_stage ts j st' → st = st'.
Proof. intros (x & Hx & <-) (y & Hy & <-). congruence. Qed.

(** A task moves on and keeps its session, if it owns one. *)
Lemma owners_move A next ts cl cl' i task task' :
  ts !! i = Some task → owned task'.(stage) = owned task.(stage) →
  (serving task'.(stage) = serving task.(stage) ∨ serving task'.(stage) = None) →
  (∀ c port, task.(stage) = Closing c port → c ∈ cl') → (∀ c, c ∈ cl → c ∈ cl') →
  owners_ok A next ts cl → owners_ok A next (<[i := task']> ts) cl'.
Proof.
  intros Hi Ho Hs Hcl Hmono [H1 H2 H3 H4].
  assert (Hat : at_stage ts i (stage task)) by (by exists task).
  assert (Hi' : is_Some (ts !! i)) by eauto.
  assert (Hback : ∀ j st, at_stage (<[i:=task']> ts) j st → ∃ st0, at_stage ts j st0 ∧
    owned st = owned st0 ∧ (serving st = serving st0 ∨ serving st = None)).
  { intros j st [[-> <-]|[_ Hj]]%(at_insert _ _ _ _ _ Hi'); [by exists (stage task)|].
    exists st. auto. }
  split.
  - intros id ses c (j & st & Hj & Hst)%H1. destruct (decide (j = i)) as [->|Hne].
    + assert (st = stage task) as -> by (by eapply at_fun). exists i, (stage task').
      split; [apply at_insert; auto|congruence].
    + exists j, st. split; [apply at_insert; auto|done].
  - intros j j' st st' id ses id' ses' (st0 & Hj & Heq & _)%Hback (st0' & Hj' & Heq' & _)%Hback Ho1 Ho2.
    eapply H2; [done|done|by rewrite <- Heq|by rewrite <- Heq'].
  - intros j st id ses (st0 & Hj & Heq & _)%Hback Ho1. eapply H3; [done|by rewrite <- Heq].
  - intros j st id ses c (st0 & Hj & Heq & Hs0)%Hback Ho1 Hs1.
    rewrite Heq in Ho1. destruct Hs0 as [Hs0|Hs0]; [|congruence]. rewrite Hs0 in Hs1.
    destruct (H4 _ _ _ _ _ Hj Ho1 Hs1) as [?|[?|(k & port & Hk)]]; [by left|right; left; auto|].
    destruct (decide (k = i)) as [->|Hne].
    + right; left. eapply Hcl. by eapply at_fun.
    + right; right. exists k, port. apply at_insert; auto.
Qed.

(** A new task that owns nothing. *)
Lemma owners_add A next ts cl task : owned task.(stage) = None →
  owners_ok A next ts cl → owners_ok A next (ts ++ [task]) cl.
Proof.
  intros Ho [H1 H2 H3 H4].
  assert (Hback : ∀ j st p, at_stage (ts ++ [task]) j st → owned st = Some p → at_stage ts j st).
  { intros j st p [Hj|[-> <-]]%at_app Hst; [done|congruence]. }
  split.
  - intros id ses c (j & st & Hj & Hst)%H1. exists j, st. split; [apply at_app; auto|done].
  - intros j j' st st' id ses id' ses' Hj Hj' Ho1 Ho2. eapply H2; eauto.
  - intros j st id ses Hj Ho1. eapply H3; eauto.
  - intros j st id ses c Hj Ho1 Hs1.
    destruct (H4 j st id ses c) as [?|[?|(k & port & Hk)]]; eauto.
    right; right. exists k, port. apply at_app; auto.
Qed.

(** A canceled registration hands its session to a task of its own. *)
Lemma owners_cancel A next ts cl i task task' new :
  ts !! i = Some task → owned task'.(stage) = None → owned new.(stage) = owned task.(stage) →
  serving new.(stage) = None → (∀ c port, task.(stage) ≠ Closing c port) →
  owners_ok A next ts cl → owners_ok A next (<[i := task']> (ts ++ [new])) cl.
Proof.
  intros Hi Ho Hn Hs Hcl [H1 H2 H3 H4].
  pose proof (lookup_lt_Some _ _ _ Hi) as Hlt.
  assert (Hi' : is_Some ((ts ++ [new]) !! i)) by (rewrite lookup_app_l by done; eauto).
  assert (Hat : at_stage ts i (stage task)) by (by exists task).
  assert (Hback : ∀ j st p, at_stage (<[i:=task']> (ts ++ [new])) j st → owned st = Some p →
    ∃ j0 st0, at_stage ts j0 st0 ∧ owned st = owned st0 ∧ (serving st = None ∨ st = st0) ∧
      (j0 = j ∧ j ≠ i ∨ j0 = i ∧ j = length ts)).
  { intros j st p [[-> <-]|[Hj [Hat'|[-> <-]]%at_app]]%(at_insert _ _ _ _ _ Hi') Hst; [congruence| |].
    - exists j, st. auto 7.
    - exists i, (stage task). auto 7. }
  split.
  - intros id ses c (j & st & Hj & Hst)%H1. destruct (decide (j = i)) as [->|Hne].
    + assert (st = stage task) as -> by (by eapply at_fun). exists (length ts), (stage new).
      split; [|congruence]. apply at_insert; [done|]. right. split; [lia|]. apply at_app. auto.
    + exists j, st. split; [apply at_insert; [done|]; right; split; [done|]; apply at_app; auto|done].
  - intros j j' st st' id ses id' ses' Hj Hj' Ho1 Ho2 Hses.
    destruct (Hback _ _ _ Hj Ho1) as (k & st0 & Hk & Heq & _ & Hcase).
    destruct (Hback _ _ _ Hj' Ho2) as (k' & st0' & Hk' & Heq' & _ & Hcase').
    assert (k = k') as <- by (eapply H2; [done|done|by rewrite <- Heq|by rewrite <- Heq'|done]). lia.
  - intros j st id ses Hj Ho1. destruct (Hback _ _ _ Hj Ho1) as (k & st0 & Hk & Heq & _).
    eapply H3; [done|by rewrite <- Heq].
  - intros j st id ses c Hj Ho1 Hs1.
    destruct (Hback _ _ _ Hj Ho1) as (k & st0 & Hk & Heq & [?|<-] & _); [congruence|].
    destruct (H4 _ _ _ _ _ Hk Ho1 Hs1) as [?|[?|(n & port & Hp)]]; [by left|by right; left|].
    right; right. exists n, port. apply at_insert; [done|]. right. split; [|apply at_app; auto].
    intros ->. eapply Hcl. symmetry. by eapply at_fun.
Qed.
(** A registration starts a session. *)
Lemma owners_register A next ts cl i task task' id ses c :
  ts !! i = Some task → owned task.(stage) = None → (∀ c port, task.(stage) ≠ Closing c port) →
  A !! id = None → session_number ses = next + 1 →
  owned task'.(stage) = Some (id, ses) → serving task'.(stage) = Some c →
  owners_ok A next ts cl →
  owners_ok (<[id := (ses, c)]> A) (next + 1) (<[i := task']> ts) cl.
Proof.
  intros Hi Ho Hcl HA Hses Ho' Hs' [H1 H2 H3 H4].
  assert (Hi' : is_Some (ts !! i)) by eauto.
  assert (Hat : at_stage ts i (stage task)) by (by exists task).
  assert (Hfresh : ∀ j st id0 ses0, at_stage ts j st → owned st = Some (id0, ses0) →
    session_number ses0 < session_number ses) by (intros j st id0 ses0 Hj Hst;
      specialize (H3 _ _ _ _ Hj Hst); lia).
  split.
  - intros id0 ses0 c0. rewrite lookup_insert_Some. intros [[<- [= <- <-]]|[_ (j & st & Hj & Hst)%H1]].
    + exists i, (stage task'). split; [|done]. apply at_insert; auto.
    + exists j, st. split; [|done]. apply at_insert; [done|]. right. split; [|done].
      intros ->. assert (st = stage task) as -> by (by eapply at_fun). congruence.
  - intros j j' st st' id0 ses0 id1 ses1 [[-> <-]|[Hj Ha]]%(at_insert _ _ _ _ _ Hi')
      [[-> <-]|[Hj' Ha']]%(at_insert _ _ _ _ _ Hi') Ho1 Ho2 Heq; [done| | |by eapply H2].
    + pose proof (Hfresh _ _ _ _ Ha' Ho2). simplify_eq. lia.
    + pose proof (Hfresh _ _ _ _ Ha Ho1). simplify_eq. lia.
  - intros j st id0 ses0 [[-> <-]|[Hj Ha]]%(at_insert _ _ _ _ _ Hi') Ho1; [simplify_eq; lia|].
    specialize (H3 _ _ _ _ Ha Ho1). lia.
  - intros j st id0 ses0 c0 [[-> <-]|[Hj Ha]]%(at_insert _ _ _ _ _ Hi') Ho1 Hs1.
    { left. simplify_eq. by rewrite lookup_insert_eq. }
    destruct (H4 _ _ _ _ _ Ha Ho1 Hs1) as [?|[?|(k & port & Hk)]]; [left|by right; left|].
    + by rewrite lookup_insert_ne by congruence.
    + right; right. exists k, port. apply at_insert; [done|]. right. split; [|done].
      intros ->. eapply Hcl. symmetry. by eapply at_fun.
Qed.

(** The owner of a session ends it, if it is still the active one. *)
Lemma owners_end A next ts cl i task task' id ses :
  ts !! i = Some task → owned task.(stage) = Some (id, ses) → owned task'.(stage) = None →
  owners_ok A next ts cl →
  owners_ok (match A !! id with
             | Some (active, _) => if decide (active = ses) then delete id A else A
             | None => A
             end) next (<[i := task']> ts) cl.
Proof.
  intros Hi Ho Ho' [H1 H2 H3 H4].
  assert (Hi' : is_Some (ts !! i)) by eauto.
  assert (Hat : at_stage ts i (stage task)) by (by exists task).
  set (A' := match A !! id with Some _ => _ | None => A end).
  assert (HA : ∀ id0 ses0 c0, A' !! id0 = Some (ses0, c0) ↔
    A !! id0 = Some (ses0, c0) ∧ ¬ (id0 = id ∧ ses0 = ses)).
  { intros id0 ses0 c0. subst A'. destruct (A !! id) as [[active c]|] eqn:E; [|naive_solver].
    case_decide; [subst active; rewrite lookup_delete_Some|]; naive_solver. }
  split.
  - intros id0 ses0 c0 [(j & st & Hj & Hst)%H1 Hne]%HA. exists j, st. split; [|done].
    apply at_insert; [done|]. right. split; [|done]. intros ->.
    assert (st = stage task) as -> by (by eapply at_fun). naive_solver congruence.
  - intros j j' st st' id0 ses0 id1 ses1 [[-> <-]|[Hj Ha]]%(at_insert _ _ _ _ _ Hi')
      [[-> <-]|[Hj' Ha']]%(at_insert _ _ _ _ _ Hi') Ho1 Ho2 Heq; try congruence. by eapply H2.
  - intros j st id0 ses0 [[-> <-]|[Hj Ha]]%(at_insert _ _ _ _ _ Hi') Ho1; [congruence|eauto].
  - intros j st id0 ses0 c0 [[-> <-]|[Hj Ha]]%(at_insert _ _ _ _ _ Hi') Ho1 Hs1; [congruence|].
    destruct (H4 _ _ _ _ _ Ha Ho1 Hs1) as [?|[?|(k & port & Hk)]]; [left|by right; left|].
    + apply HA. split; [done|]. intros [-> ->]. apply Hj. by eapply H2.
    + right; right. exists k, port. apply at_insert; [done|]. right. split; [|done].
      intros ->. assert (Hx : stage task = Closing c0 port) by (by eapply at_fun).
      by rewrite Hx in Ho.
Qed.

(** A recovery takes a session away and is about to close its connection. *)
Lemma owners_recover A next ts cl i task task' old :
  ts !! i = Some task → owned task.(stage) = None → (∀ c port, task.(stage) ≠ Closing c port) →
  owned task'.(stage) = None →
  (∀ ses c, A !! old = Some (ses, c) → ∃ port, task'.(stage) = Closing c port) →
  owners_ok A next ts cl → owners_ok (delete old A) next (<[i := task']> ts) cl.
Proof.
  intros Hi Ho Hcl Ho' Htake [H1 H2 H3 H4].
  assert (Hi' : is_Some (ts !! i)) by eauto.
  assert (Hat : at_stage ts i (stage task)) by (by exists task).
  split.
  - intros id0 ses0 c0 [_ (j & st & Hj & Hst)%H1]%lookup_delete_Some. exists j, st. split; [|done].
    apply at_insert; [done|]. right. split; [|done]. intros ->.
    assert (st = stage task) as -> by (by eapply at_fun). congruence.
  - intros j j' st st' id0 ses0 id1 ses1 [[-> <-]|[Hj Ha]]%(at_insert _ _ _ _ _ Hi')
      [[-> <-]|[Hj' Ha']]%(at_insert _ _ _ _ _ Hi') Ho1 Ho2 Heq; try congruence. by eapply H2.
  - intros j st id0 ses0 [[-> <-]|[Hj Ha]]%(at_insert _ _ _ _ _ Hi') Ho1; [congruence|eauto].
  - intros j st id0 ses0 c0 [[-> <-]|[Hj Ha]]%(at_insert _ _ _ _ _ Hi') Ho1 Hs1; [congruence|].
    destruct (H4 _ _ _ _ _ Ha Ho1 Hs1) as [HA|[?|(k & port & Hk)]]; [|by right; left|].
    + destruct (decide (old = id0)) as [->|Hne].
      * right; right. destruct (Htake _ _ HA) as [port Hport]. exists i, port.
        apply at_insert; auto.
      * left. by rewrite lookup_delete_ne.
    + right; right. exists k, port. apply at_insert; [done|]. right. split; [|done].
      intros ->. eapply Hcl. symmetry. by eapply at_fun.
Qed.
End owners.

(** ** Who holds permits *)

Section permits.
Context {W : Type} `{Network W}.
Implicit Types (ts : list Task) (task : Task).

(** The stages that run under [REGISTRATION_TIMEOUT]. *)
Definition registering (st : Stage) : bool :=
  match st with Running _ | Stopping _ | Canceled _ _ | Finished => false | _ => true end.

Definition stage_players (st : Stage) : nat :=
  match st with Running t | Stopping t => t.(players) | _ => 0 end.

Definition stage_ok (st : Stage) : Prop :=
  match st with
  | Running t | Stopping t => (t.(player_slots) + t.(players) = MAX_CONCURRENT_PLAYERS)%nat
  | Announcing g _ _ _ => g.(armed) = true
  | _ => True
  end.

Definition permit_of task : option PendingHostPermit :=
  if registering task.(stage) then Some {| source := HostSource.from task.(peer) |} else None.

Definition task_ok task : Prop := task.(ip_permit) = permit_of task ∧ stage_ok task.(stage).

Definition is_pending task : nat := if registering task.(stage) then 1 else 0.

Record permits_ok (available : nat) (by_ip : PendingByIp) (global : nat) ts : Prop := {
  po_tasks : Forall task_ok ts;
  po_pending : (available + sum_list_with is_pending ts = PENDING_LIMIT)%nat;
  po_by_ip : admission_exact PENDING_PER_IP_LIMIT
               {| HostAdmission.pending := by_ip; live := omap ip_permit ts |};
  po_players : (global + sum_list_with (λ t, stage_players t.(stage)) ts = GLOBAL_PLAYER_LIMIT)%nat;
}.

Lemma omap_insert ts i task task' : ts !! i = Some task → ∃ l1 l2 : list Task,
  omap ip_permit ts = omap ip_permit l1 ++ option_list (ip_permit task) ++ omap ip_permit l2 ∧
  omap ip_permit (<[i := task']> ts)
    = omap ip_permit l1 ++ option_list (ip_permit task') ++ omap ip_permit l2.
Proof.
  intros Hi. exists (take i ts), (drop (S i) ts). pose proof (lookup_lt_Some _ _ _ Hi).
  split; [rewrite <- (take_drop_middle ts i task Hi) at 1|rewrite insert_take_drop by done];
    rewrite omap_app; f_equal; cbn; by destruct (ip_permit _).
Qed.

(** A task moves on, perhaps with players coming or leaving. *)
Lemma permits_move av by_ip global global' ts i task task' :
  ts !! i = Some task → registering task'.(stage) = registering task.(stage) →
  peer task' = peer task → ip_permit task' = ip_permit task → stage_ok task'.(stage) →
  (global + stage_players task.(stage) = global' + stage_players task'.(stage))%nat →
  permits_ok av by_ip global ts → permits_ok av by_ip global' (<[i := task']> ts).
Proof.
  intros Hi Hr Hpeer Hip Hst Hg [H1 H2 H3 H4]. split.
  - apply Forall_insert; [done|]. rewrite Forall_lookup in H1. destruct (H1 _ _ Hi) as [Hp _].
    split; [|done]. unfold permit_of in *. rewrite Hr, Hpeer. congruence.
  - pose proof (sum_insert is_pending ts i task task' Hi) as Hs. unfold is_pending in *.
    rewrite Hr in Hs. lia.
  - destruct (omap_insert ts i task task' Hi) as (l1 & l2 & E1 & E2).
    by rewrite E2, Hip, <- E1.
  - pose proof (sum_insert (λ t, stage_players t.(stage)) ts i task task' Hi) as Hs. cbn in Hs. lia.
Qed.

(** A registration is over. *)
Lemma permits_release av by_ip by_ip' global ts i task task' permit :
  ts !! i = Some task → ip_permit task = Some permit → drop_permit permit by_ip = Some by_ip' →
  registering task'.(stage) = false → ip_permit task' = None → stage_ok task'.(stage) →
  stage_players task'.(stage) = 0%nat →
  permits_ok av by_ip global ts → permits_ok (Semaphore.release av) by_ip' global (<[i := task']> ts).
Proof.
  intros Hi Hip Hdrop Hr Hip' Hst Hpl [H1 H2 H3 H4].
  assert (Htask : task_ok task) by (rewrite Forall_lookup in H1; eauto).
  assert (Hreg : registering (stage task) = true).
  { destruct Htask as [Hp _]. unfold permit_of in Hp. rewrite Hip in Hp. by case_match. }
  assert (Hno : stage_players (stage task) = 0%nat) by (by destruct (stage task)).
  split.
  - apply Forall_insert; [done|]. split; [|done]. unfold permit_of. by rewrite Hr.
  - pose proof (sum_insert is_pending ts i task task' Hi) as Hs.
    assert (is_pending task = 1%nat ∧ is_pending task' = 0%nat) as [E1 E2]
      by (unfold is_pending; by rewrite Hr, Hreg). unfold Semaphore.release. lia.
  - destruct (omap_insert ts i task task' Hi) as (l1 & l2 & E1 & E2). rewrite E2, Hip'. rewrite E1, Hip in H3.
    eapply admission_exact_step; [unfold PENDING_PER_IP_LIMIT; lia|exact H3|].
    by eapply (step_dropped permit).
  - pose proof (sum_insert (λ t, stage_players t.(stage)) ts i task task' Hi) as Hs. cbn in Hs. lia.
Qed.

(** A task without permits or players appears. *)
Lemma permits_add av by_ip global ts task :
  task_ok task → registering task.(stage) = false → stage_players task.(stage) = 0%nat →
  permits_ok av by_ip global ts → permits_ok av by_ip global (ts ++ [task]).
Proof.
  intros Hok Hr Hpl [H1 H2 H3 H4]. split.
  - apply Forall_app. split; [done|]. by apply Forall_singleton.
  - rewrite sum_list_with_app. cbn. assert (is_pending task = 0%nat) by (unfold is_pending; by rewrite Hr). lia.
  - rewrite omap_app. cbn. destruct Hok as [-> _]. unfold permit_of. by rewrite Hr, app_nil_r.
  - rewrite sum_list_with_app. cbn. lia.
Qed.

(** A host is admitted. *)
Lemma permits_admit av by_ip by_ip' global ts ip permit :
  Semaphore.try_acquire (S av) = Some av → try_acquire ip by_ip = (Some permit, by_ip') →
  permits_ok (S av) by_ip global ts →
  permits_ok av by_ip' global
    (ts ++ [{| peer := ip; ip_permit := Some permit; stage := Handshaking |}]).
Proof.
  intros _ Hacq [H1 H2 H3 H4].
  assert (permit = {| source := HostSource.from ip |}) as ->
    by (unfold try_acquire in Hacq; case_match; by simplify_eq).
  split.
  - apply Forall_app. split; [done|]. by apply Forall_singleton.
  - rewrite sum_list_with_app. cbn -[sum_list_with]. cbn. lia.
  - rewrite omap_app. cbn. eapply admission_exact_perm; [apply Permutation_cons_append|].
    eapply admission_exact_step; [unfold PENDING_PER_IP_LIMIT; lia|exact H3|].
    by apply (step_acquired ip).
  - rewrite sum_list_with_app. cbn. lia.
Qed.

(** A source is refused. *)
Lemma permits_refuse av by_ip by_ip' global ts ip :
  try_acquire ip by_ip = (None, by_ip') → permits_ok av by_ip global ts →
  permits_ok av by_ip' global ts.
Proof.
  intros Hacq [H1 H2 H3 H4]. split; [done|done| |done].
  eapply admission_exact_step; [unfold PENDING_PER_IP_LIMIT; lia|exact H3|].
  by apply (step_refused ip).
Qed.
End permits.
