(* ===== verification/RelayInv.v ===== *)
(** The invariant of the relay over every interleaving of its tasks, and the work
    its tasks have left; the properties are in [RelayProps]. *)

From Stdlib Require Import Strings.Byte.
From S2P Require Import Prelude Bytes HostAdmission LeaseTable LeaseFacts LeaseInv LeaseRestore.
From S2P Require Import Protocol State StateFacts StateInv StateProps Tunnel Relay RelayFacts.

Section properties.
Context `{Digest} `{!IterOrder TokenId Lease} {W : Type} `{StoreLaws W stored}.
Implicit Types (r : RelayServer W) (task : Task).

Definition input_time (input : Input) : Z :=
  match input with Locked now | BindDropped now => now | _ => 0 end.
Definition event_time (ev : Event) : Z :=
  match ev with RefreshTick now => now | Incoming _ => 0 | Resumed _ input => input_time input end.

(** The relay after it has loaded a state, and every interleaving of its tasks. *)
Inductive relay_reachable : RelayServer W → Prop :=
  | rr_start s w : state_reachable (stored := stored) s w → active_connections s = ∅ →
      relay_reachable (RelayServer_new s w)
  | rr_step ev r r' : relay_reachable r → 0 ≤ event_time ev → step ev r = Some r' →
      relay_reachable r'.

Record relay_ok r : Prop := {
  rk_state : state_reachable (stored := stored) (state r) (world r);
  rk_owners : owners_ok (active_connections (state r)) (next_session_id (st_leases (state r)))
                (tasks r) (closed r);
  rk_permits : permits_ok (pending r) (pending_by_ip r) (global_players r) (tasks r);
}.

Lemma release_permits_run i task st r r' : release_permits i task st r = Some r' →
  ∃ permit p, ip_permit task = Some permit ∧ drop_permit permit (pending_by_ip r) = Some p ∧
    r' = set_tasks (<[i := {| peer := peer task; ip_permit := None; stage := st |}]> (tasks r))
           (set_pending (Semaphore.release (pending r)) p r).
Proof.
  unfold release_permits. destruct (ip_permit task) as [permit|]; [|done].
  destruct (drop_permit permit _) as [p|] eqn:E; [|done]. intros [= <-]. eauto.
Qed.

Lemma release_state i task st r r' : release_permits i task st r = Some r' →
  state r' = state r ∧ world r' = world r.
Proof. by intros (permit & p & _ & _ & ->)%release_permits_run. Qed.

(** ** The state *)

Ltac unfold_step :=
  unfold task_step, from_quic_step, serve_rotation, serve_recovery, accept_players_step,
    stopping_step, canceled_step, cleanup.
Tactic Notation "unfold_step_in" hyp(H) :=
  unfold task_step, from_quic_step, serve_rotation, serve_recovery, accept_players_step,
    stopping_step, canceled_step, cleanup in H.

Lemma state_op_reachable op r : 0 ≤ state_op_time op →
  state_reachable (stored := stored) (state r) (world r) →
  state_reachable (stored := stored) (run_state_op op (state r, world r)).1
    (run_state_op op (state r, world r)).2.
Proof. intros Ht Hr. eapply sr_op; [done..|]. apply surjective_pairing. Qed.

(** The method of the state that an input makes a task call. *)
Definition task_op (task : Task (W := W)) (input : Input) : option state_op :=
  match stage task, input with
  | Rotating old_token new_token, Locked now => Some (OpRotateTokens old_token new_token now)
  | Recovering secret new_token, Locked now => Some (OpRecoverTokens secret new_token (peer task) now)
  | Registering _ token rid conn, Locked now => Some (OpRegister token (Some rid) (peer task) now conn)
  | Registering _ token _ _, BindDropped now => Some (OpAbandon token (peer task) now)
  | Stopping t, Locked now => Some (OpEndSession (tun_token_id t) (tun_session_id t) now)
  | Canceled id ses, Locked now => Some (OpEndSession id ses now)
  | _, _ => None
  end.
Definition event_op (ev : Event) r : option state_op :=
  match ev with
  | RefreshTick now => Some (OpRefresh now)
  | Incoming _ => None
  | Resumed i input => task ← tasks r !! i; task_op task input
  end.
Definition run_maybe (op : option state_op) (sw : ServerState W * W) : ServerState W * W :=
  match op with Some op => run_state_op op sw | None => sw end.

(** A task touches the state through one such method at most. *)
Lemma task_runs i task input r r' : task_step i task input r = Some r' →
  (state r', world r') = run_maybe (task_op task input) (state r, world r).
Proof.
  destruct task as [ip pm st].
  assert (Hrel : ∀ i task st r0 sw, (state r0, world r0) = sw →
    release_permits i task st r0 = Some r' → (state r', world r') = sw)
    by (intros i0 tk st0 r0 sw <- [E3 E4]%release_state; by rewrite E3, E4).
  destruct st, input as [c m|now|now|[u|e]| | |snt| |]; cbn; try discriminate;
    try (by apply Hrel; unfold spawn_cleanup; repeat case_match).
  - destruct (first_message m); try (by intros [= <-]). by apply Hrel.
  - unfold serve_rotation. destruct (rotate _ _ _ _) as [x [s w]]. by intros [= <-].
  - unfold serve_recovery. destruct (recover _ _ _ _ _) as [[[port oc]|e] [s w]]; by intros [= <-].
  - by intros [= <-].
  - destruct (register_with_recovery _ _ _ _ _ _) as [x [s w]]. by intros [= <-].
  - apply Hrel. cbn. by destruct (register_abandoned _ _ _ _) as [x [s w]].
  - by destruct (accept_player _ _ _) as [[x t'] g]; intros [= <-].
  - by destruct (player_done _ _) as [[t' g]|]; intros [= <-].
  - by intros [= <-].
  - destruct (_ =? _)%nat; [|done]. intros [= <-]. cbn. by destruct (end_session _ _ _ _) as [x [s w]].
  - by destruct (player_done _ _) as [[t' g]|]; intros [= <-].
  - intros [= <-]. cbn. by destruct (end_session _ _ _ _) as [x [s w]].
Qed.

Lemma step_runs ev r r' : step ev r = Some r' →
  (state r', world r') = run_maybe (event_op ev r) (state r, world r).
Proof.
  destruct ev as [now|ip|i input]; cbn.
  - intros [= <-]. cbn. by destruct (refresh_and_save _ _) as [x [s w]].
  - intros [= <-]. unfold incoming. repeat case_match; done.
  - destruct (tasks r !! i) as [task|]; [|done]. apply task_runs.
Qed.

Lemma task_op_time task input op : task_op task input = Some op → state_op_time op = input_time input.
Proof. destruct task as [ip pm []], input; cbn; by intros [= <-]. Qed.

Lemma task_state i task input r r' : 0 ≤ input_time input →
  state_reachable (stored := stored) (state r) (world r) →
  task_step i task input r = Some r' → state_reachable (stored := stored) (state r') (world r').
Proof.
  intros Ht Hr Hstep%task_runs. destruct (task_op task input) as [op|] eqn:E; cbn in Hstep.
  - eapply sr_op; [done|by rewrite (task_op_time _ _ _ E)|by rewrite Hstep].
  - injection Hstep as -> ->. done.
Qed.
(** ** The owners of sessions *)

Definition relay_owners r : Prop :=
  owners_ok (active_connections (state r)) (next_session_id (st_leases (state r))) (tasks r) (closed r).

Lemma goto_owners i task st r : tasks r !! i = Some task → owned st = owned (stage task) →
  (serving st = serving (stage task) ∨ serving st = None) →
  (∀ c port, stage task = Closing c port → c ∈ closed r) →
  relay_owners r → relay_owners (goto i task st r).
Proof. intros Hi Ho Hs Hcl Hr. by apply (owners_move _ _ _ (closed r) _ i task). Qed.

Lemma release_owners i task st r r' : tasks r !! i = Some task → owned st = owned (stage task) →
  (serving st = serving (stage task) ∨ serving st = None) →
  (∀ c port, stage task = Closing c port → c ∈ closed r) →
  release_permits i task st r = Some r' → relay_owners r → relay_owners r'.
Proof.
  intros Hi Ho Hs Hcl (permit & p & _ & _ & ->)%release_permits_run Hr.
  by apply (owners_move _ _ _ (closed r) _ i task).
Qed.

Lemma cancel_owners i task st guard r r' : tasks r !! i = Some task →
  owned (stage task) = Some (pend_token_id guard, pend_session_id guard) → armed guard = true →
  owned st = None →
  release_permits i task st (spawn_cleanup guard task r) = Some r' → relay_owners r → relay_owners r'.
Proof.
  intros Hi Ho Ha Hst (permit & p & _ & _ & ->)%release_permits_run Hr.
  unfold spawn_cleanup, drop_pending. rewrite Ha. cbn.
  apply (owners_cancel _ _ _ _ i task); try done. intros c port Hc. by rewrite Hc in Ho.
Qed.

Lemma quiet_owners sw r : quiet_sessions (state r) sw.1 → relay_owners r → relay_owners (set_state sw r).
Proof. unfold relay_owners. intros [Hc Hn] Hr. cbn. by rewrite Hc, Hn. Qed.

Lemma end_owners i task id ses now r : state_ok (stored := stored) (state r) (world r) →
  tasks r !! i = Some task → owned (stage task) = Some (id, ses) → relay_owners r →
  relay_owners (goto i task Finished (set_state (end_session id ses now (state r, world r)).2 r)).
Proof.
  intros Hok Hi Ho Hr. destruct (end_session id ses now (state r, world r)) as [x [s' w']] eqn:E.
  apply (end_sessions (stored := stored)) in E as [Hn Hc]; [|done].
  unfold relay_owners. cbn. rewrite Hn, Hc. by apply (owners_end _ _ _ _ i task).
Qed.

Lemma register_owners i task lp token rid conn now r r' :
  state_ok (stored := stored) (state r) (world r) → tasks r !! i = Some task →
  stage task = Registering lp token rid conn → task_step i task (Locked now) r = Some r' →
  relay_owners r → relay_owners r'.
Proof.
  intros Hok Hi Hst. unfold_step. rewrite Hst.
  destruct (register_with_recovery _ _ _ _ _ _) as [x [s' w']] eqn:E. intros [= <-] Hr.
  apply (register_sessions (stored := stored)) in E; [|done]. destruct x as [reg|e].
  - destruct E as (HA & Hc & Hses & Hn). unfold relay_owners. cbn. rewrite Hc, Hn.
    apply (owners_register _ _ _ _ i task); cbn; rewrite ?Hst; try done.
  - apply goto_owners; cbn; rewrite ?Hst; try done; [by right|].
    by apply (quiet_owners (s', w')).
Qed.

Lemma recover_owners i task secret new now r r' :
  state_ok (stored := stored) (state r) (world r) → tasks r !! i = Some task →
  stage task = Recovering secret new → task_step i task (Locked now) r = Some r' →
  relay_owners r → relay_owners r'.
Proof.
  intros Hok Hi Hst. unfold_step. rewrite Hst.
  destruct (recover _ _ _ _ _) as [x [s' w']] eqn:E. intros Hstep Hr.
  apply (recover_sessions (stored := stored)) in E as [Hn [[Hc Hx]|(old & port & -> & Hc)]]; [| |done].
  - destruct x as [[port [c|]]|e]; injection Hstep as <-;
      (apply goto_owners; cbn; rewrite ?Hst; try done; [by right|by apply (quiet_owners (s', w'))]).
  - injection Hstep as <-. unfold relay_owners. cbn. rewrite Hc, Hn.
    apply (owners_recover _ _ _ _ i task); cbn; rewrite ?Hst; try done.
    + by destruct (active_connections (state r) !! old) as [[]|].
    + intros ses c ->. by eexists.
Qed.

Ltac release_case E :=
  match goal with
  | Hr : release_permits ?i ?tk ?st ?r0 = Some ?r1 |- relay_owners ?r1 =>
      apply (release_owners i tk st r0 r1);
      [done|by rewrite E|first [by right|left; by rewrite E]|by rewrite E|exact Hr|]
  end.

Lemma task_owners i task input r r' : state_ok (stored := stored) (state r) (world r) →
  tasks r !! i = Some task → stage_ok (stage task) →
  relay_owners r → task_step i task input r = Some r' → relay_owners r'.
Proof.
  intros Hok Hi Hst Hr Hstep. pose proof Hstep as Hstep'. unfold_step_in Hstep.
  destruct (stage task) as [| | | |lp token rid conn| |g lp port conn|t|t|id ses|] eqn:E;
    destruct input as [c m|now|now|[u|e]| | |snt| |]; try discriminate;
    try (release_case E; exact Hr).
  - destruct (first_message m); try (injection Hstep as <-; apply goto_owners;
      [done|by rewrite E|by right|by rewrite E|done]).
    release_case E. exact Hr.
  - destruct (rotate _ _ _ _) as [x [s' w']] eqn:Er. injection Hstep as <-.
    apply goto_owners; [done|by rewrite E|by right|by rewrite E|].
    apply (quiet_owners (s', w')); [|done]. by eapply rotate_sessions.
  - by eapply recover_owners.
  - injection Hstep as <-. apply goto_owners; cbn; rewrite ?E; [done|done|by right| |].
    + intros ? ? [= -> ->]. by left.
    + destruct Hr as [O1 O2 O3 O4]. split; [done|done|done|]. cbn. intros j st id ses c Hj Ho Hs.
      destruct (O4 _ _ _ _ _ Hj Ho Hs) as [?|[?|?]]; [by left|right; left; by right|by right; right].
  - by eapply register_owners.
  - release_case E. apply quiet_owners; [|done].
    destruct (register_abandoned _ _ _ _) as [x [s' w']] eqn:Ea.
    by apply (abandoned_run (stored := stored)), claims_kept_quiet in Ea.
  - by apply (cancel_owners i task Finished g r r'); [|rewrite E|..].
  - by apply (cancel_owners i task Finished g r r'); [|rewrite E|..].
  - destruct (accept_player _ _ _) as [[x t'] n] eqn:Ea. injection Hstep as <-.
    assert (tun_token_id t' = tun_token_id t ∧ tun_session_id t' = tun_session_id t ∧ quic t' = quic t)
      as (E1 & E2 & E3) by (unfold accept_player in Ea; repeat case_match; by simplify_eq/=).
    apply goto_owners; cbn; rewrite ?E; [done|destruct (is_ok x); cbn; congruence| |done|done].
    destruct (is_ok x); [left; cbn; congruence|by right].
  - destruct (player_done _ _) as [[t' n]|] eqn:Ea; [|done]. injection Hstep as <-.
    assert (tun_token_id t' = tun_token_id t ∧ tun_session_id t' = tun_session_id t ∧ quic t' = quic t)
      as (E1 & E2 & E3) by (unfold player_done in Ea; repeat case_match; by simplify_eq/=).
    apply goto_owners; cbn; rewrite ?E; cbn; [done|congruence|left; congruence|done|done].
  - injection Hstep as <-. apply goto_owners; cbn; rewrite ?E; [done|done|by right|done|done].
  - destruct (_ =? _)%nat; [|done]. injection Hstep as <-. apply end_owners; try done. by rewrite E.
  - destruct (player_done _ _) as [[t' n]|] eqn:Ea; [|done]. injection Hstep as <-.
    assert (tun_token_id t' = tun_token_id t ∧ tun_session_id t' = tun_session_id t ∧ quic t' = quic t)
      as (E1 & E2 & E3) by (unfold player_done in Ea; repeat case_match; by simplify_eq/=).
    apply goto_owners; cbn; rewrite ?E; cbn; [done|congruence|by right|done|done].
  - injection Hstep as <-. apply end_owners; try done. by rewrite E.
Qed.
(** ** The permits *)

Definition relay_permits r : Prop :=
  permits_ok (pending r) (pending_by_ip r) (global_players r) (tasks r).

Lemma goto_permits i task st n r : tasks r !! i = Some task →
  registering st = registering (stage task) → stage_ok st →
  (global_players r + stage_players (stage task) = n + stage_players st)%nat →
  relay_permits r → relay_permits (goto i task st (set_global n r)).
Proof. intros Hi Hr Hs Hg Hp. by eapply (permits_move _ _ _ _ _ _ task). Qed.

Lemma stay_permits i task st r : tasks r !! i = Some task →
  registering st = registering (stage task) → stage_ok st → stage_players (stage task) = stage_players st →
  relay_permits r → relay_permits (goto i task st r).
Proof. intros Hi Hr Hs Hg Hp. eapply (permits_move _ _ _ _ _ _ task); try done. cbn. lia. Qed.

Lemma release_ok i task st r r' : tasks r !! i = Some task → registering st = false →
  stage_ok st → stage_players st = 0%nat → release_permits i task st r = Some r' →
  relay_permits r → relay_permits r'.
Proof.
  intros Hi Hr Hs Hpl (permit & p & Hip & Hd & ->)%release_permits_run Hp.
  by eapply (permits_release _ _ _ _ _ _ task).
Qed.

Lemma spawn_permits guard task r : relay_permits r → relay_permits (spawn_cleanup guard task r).
Proof.
  intros Hp. unfold spawn_cleanup. destruct (drop_pending guard) as [[id ses]|]; [|done].
  by apply permits_add.
Qed.

Lemma spawn_lookup guard task r i x : tasks r !! i = Some x →
  tasks (spawn_cleanup guard task r) !! i = Some x.
Proof.
  intros Hi. unfold spawn_cleanup. destruct (drop_pending guard) as [[id ses]|]; [|done].
  by apply lookup_app_l_Some.
Qed.

Lemma player_done_ok t n t' n' : player_done t n = Some (t', n') →
  (player_slots t + players t = MAX_CONCURRENT_PLAYERS)%nat →
  (player_slots t' + players t' = MAX_CONCURRENT_PLAYERS ∧ n + players t = n' + players t')%nat.
Proof.
  unfold player_done. destruct (players t); [done|]. intros [= <- <-]. cbn.
  unfold Semaphore.release. lia.
Qed.

(** The admission of a player: at most one more, within both limits. *)
Lemma accept_player_ok sent t n x t' n' : accept_player sent t n = (x, t', n') →
  (player_slots t + players t = MAX_CONCURRENT_PLAYERS)%nat →
  (player_slots t' + players t' = MAX_CONCURRENT_PLAYERS ∧ n + players t = n' + players t')%nat.
Proof.
  unfold accept_player. destruct (player_slots t) as [|slots] eqn:Es; cbn.
  { intros [= <- <- <-]. lia. }
  destruct n as [|n]; cbn; [intros [= <- <- <-]; lia|].
  destruct sent; intros [= <- <- <-]; cbn; lia.
Qed.

Lemma task_permits i task input r r' : tasks r !! i = Some task →
  relay_permits r → task_step i task input r = Some r' → relay_permits r'.
Proof.
  intros Hi Hp Hstep. assert (Hst : stage_ok (stage task)).
  { destruct Hp as [Ht _ _ _]. rewrite Forall_lookup in Ht. by apply (Ht i). }
  assert (Hrel : ∀ r0, relay_permits r0 → tasks r0 !! i = Some task →
    ∀ r', release_permits i task Finished r0 = Some r' → relay_permits r')
    by (intros r0 ? ? r1 ?; by apply (release_ok i task Finished r0 r1)).
  unfold_step_in Hstep.
  destruct (stage task) as [| | | |lp token rid conn| |g lp port conn|t|t|id ses|] eqn:E;
    destruct input as [c m|now|now|[u|e]| | |snt| |]; try discriminate;
    try (by apply (Hrel r)).
  - destruct (first_message m); try (by apply (Hrel r));
      injection Hstep as <-; apply stay_permits; by rewrite ?E.
  - destruct (rotate _ _ _ _) as [x sw]. injection Hstep as <-.
    by apply (stay_permits i task _ (set_state sw r)); rewrite ?E.
  - destruct (recover _ _ _ _ _) as [[[port [c|]]|e] sw]; injection Hstep as <-;
      by apply (stay_permits i task _ (set_state sw r)); rewrite ?E.
  - injection Hstep as <-. by apply (stay_permits i task _ (close old_connection r)); rewrite ?E.
  - destruct (register_with_recovery _ _ _ _ _ _) as [x sw]. injection Hstep as <-.
    apply (stay_permits i task _ (set_state sw r)); rewrite ?E; try done; by destruct x.
  - by apply (Hrel (set_state (register_abandoned token (peer task) now (state r, world r)).2 r)).
  - by eapply (release_ok i task _ (spawn_cleanup (disarm g) task r)); [..|exact Hstep|].
  - apply (Hrel (spawn_cleanup g task r)); [by apply spawn_permits|by apply spawn_lookup|done].
  - apply (Hrel (spawn_cleanup g task r)); [by apply spawn_permits|by apply spawn_lookup|done].
  - destruct (accept_player _ _ _) as [[x t'] n] eqn:Ea. injection Hstep as <-.
    apply accept_player_ok in Ea as [Hs Hn]; [|done].
    apply goto_permits; rewrite ?E; try done; by destruct (is_ok x).
  - destruct (player_done _ _) as [[t' n]|] eqn:Ea; [|done]. injection Hstep as <-.
    apply player_done_ok in Ea as [Hs Hn]; [|done]. by apply goto_permits; rewrite ?E.
  - injection Hstep as <-. by apply stay_permits; rewrite ?E.
  - destruct (Nat.eqb_spec (players t) 0); [|done]. injection Hstep as <-.
    by apply (stay_permits i task _ (set_state _ r)); rewrite ?E.
  - destruct (player_done _ _) as [[t' n]|] eqn:Ea; [|done]. injection Hstep as <-.
    apply player_done_ok in Ea as [Hs Hn]; [|done]. by apply goto_permits; rewrite ?E.
  - injection Hstep as <-. by apply (stay_permits i task _ (set_state _ r)); rewrite ?E.
Qed.
(** ** The invariant of the relay *)

Lemma start_ok s w : state_reachable (stored := stored) s w → active_connections s = ∅ →
  relay_ok (RelayServer_new s w).
Proof.
  intros Hr Hc. split; [done| |].
  - cbn. rewrite Hc. by split; intros; unfold at_stage in *; naive_solver.
  - split; cbn; [by constructor|done|apply admission_exact_init|done].
Qed.

Lemma incoming_cases ip r : incoming ip r = r ∨
  (∃ p, try_acquire ip (pending_by_ip r) = (None, p) ∧ incoming ip r = set_pending (pending r) p r) ∨
  (∃ n permit p, pending r = S n ∧ try_acquire ip (pending_by_ip r) = (Some permit, p) ∧
     incoming ip r = set_tasks
       (tasks r ++ [{| peer := ip; ip_permit := Some permit; stage := Handshaking |}])
       (set_pending n p r)).
Proof.
  unfold incoming. destruct (pending r) as [|n] eqn:E; cbn; [by left|].
  destruct (try_acquire ip _) as [[permit|] p] eqn:Ea; right; [right|left]; eauto 6.
Qed.

Lemma step_ok ev r r' : 0 ≤ event_time ev → relay_ok r → step ev r = Some r' → relay_ok r'.
Proof.
  intros Ht [Hs Ho Hp] Hstep. pose proof (state_reachable_ok _ _ Hs) as Hok.
  destruct ev as [now|ip|i input]; cbn in Hstep.
  - injection Hstep as <-. split; [by apply (state_op_reachable (OpRefresh now))| |done].
    apply (quiet_owners _ r); [|done].
    destruct (refresh_and_save _ _) as [x [s' w']] eqn:E.
    apply (refresh_run (stored := stored)) in E as (Hl & Hc & _). split; [done|]. cbn. by rewrite Hl.
  - injection Hstep as <-.
    destruct (incoming_cases ip r) as [->|[(p & Ha & ->)|(n & permit & p & Hn & Ha & ->)]]; [done|..].
    + split; [done|done|]. by eapply permits_refuse.
    + split; [done|by apply owners_add|]. rewrite Hn in Hp. by apply (permits_admit n (pending_by_ip r)).
  - destruct (tasks r !! i) as [task|] eqn:Hi; [|done]. cbn in Hstep.
    assert (Hst : stage_ok (stage task)).
    { destruct Hp as [Hall _ _ _]. rewrite Forall_lookup in Hall. by apply (Hall i). }
    split; [by eapply task_state|by eapply task_owners|by eapply task_permits].
Qed.

Lemma relay_reachable_ok r : relay_reachable r → relay_ok r.
Proof. induction 1; [by apply start_ok|by eapply step_ok]. Qed.

(** The relay with the time at which its file was last written. *)
Definition event_saved (ev : Event) r (last : Z) : Z :=
  match event_op ev r with Some op => save_time op (state r, world r) last | None => last end.
Inductive relay_saved : Z → RelayServer W → Prop :=
  | rs_start last s w : state_saved (stored := stored) last s w → active_connections s = ∅ →
      relay_saved last (RelayServer_new s w)
  | rs_step last ev r r' : relay_saved last r → 0 ≤ event_time ev → step ev r = Some r' →
      relay_saved (event_saved ev r last) r'.

Lemma event_op_time ev r op : event_op ev r = Some op → state_op_time op = event_time ev.
Proof.
  destruct ev as [now|ip|i input]; cbn; [by intros [= <-]|done|].
  destruct (tasks r !! i); [apply task_op_time|done].
Qed.

Lemma relay_saved_reachable last r : relay_saved last r → relay_reachable r.
Proof.
  induction 1 as [last s w Hs|]; [|by eapply rr_step]. apply rr_start; [by eapply state_saved_reachable|done].
Qed.

Lemma relay_saved_state last r : relay_saved last r →
  state_saved (stored := stored) last (state r) (world r).
Proof.
  induction 1 as [|last ev r r' _ IH Ht Hstep%step_runs]; [done|]. unfold event_saved.
  destruct (event_op ev r) as [op|] eqn:E; cbn in Hstep; [|by injection Hstep as -> ->].
  eapply ss_op; [done|by rewrite (event_op_time _ _ _ E)|done].
Qed.

(** ** Draining *)

(** What a task still has to do when nobody arrives any more. *)
Definition stage_work (st : Stage (W := W)) : nat :=
  match st with
  | Handshaking => 5
  | Registering _ _ _ _ => 4
  | Announcing _ _ _ _ | Recovering _ _ => 3
  | Rotating _ _ | Closing _ _ => 2
  | Replying _ | Canceled _ _ => 1
  | Running t => 2 + t.(players)
  | Stopping t => 1 + t.(players)
  | Finished => 0
  end.
Definition work r : nat := sum_list_with (λ t, stage_work t.(stage)) (tasks r).

(** Everything but arrivals and the refresh timer. *)
Definition draining (ev : Event (W := W)) : Prop :=
  match ev with Resumed _ (PlayerArrives _) | RefreshTick _ | Incoming _ => False | Resumed _ _ => True end.

Lemma goto_work i task st r : tasks r !! i = Some task → (stage_work st < stage_work (stage task))%nat →
  (work (goto i task st r) < work r)%nat.
Proof.
  intros Hi Hw. unfold work, goto. cbn. set (task' := {| peer := _ |}).
  pose proof (sum_insert (λ t, stage_work (stage t)) (tasks r) i task task' Hi) as Hs. cbn in *. lia.
Qed.

Lemma release_work i task st r r' : tasks r !! i = Some task →
  (stage_work st < stage_work (stage task))%nat → release_permits i task st r = Some r' →
  (work r' < work r)%nat.
Proof.
  intros Hi Hw (permit & p & _ & _ & ->)%release_permits_run. unfold work. cbn.
  set (task' := {| peer := _ |}).
  pose proof (sum_insert (λ t, stage_work (stage t)) (tasks r) i task task' Hi) as Hs. cbn in *. lia.
Qed.

Lemma spawn_work guard task r : (work (spawn_cleanup guard task r) ≤ S (work r))%nat.
Proof.
  unfold spawn_cleanup, work. destruct (drop_pending guard) as [[id ses]|]; [|lia]. cbn.
  rewrite sum_list_with_app. cbn. lia.
Qed.

Lemma cancel_work i task st guard lp port conn r r' : tasks r !! i = Some task →
  stage task = Announcing guard lp port conn → stage_work st = 0%nat →
  release_permits i task st (spawn_cleanup guard task r) = Some r' → (work r' < work r)%nat.
Proof.
  intros Hi Hst Hw Hrel. pose proof (spawn_work guard task r) as Hs.
  destruct (release_permits_run _ _ _ _ _ Hrel) as (permit & p & _ & _ & ->).
  pose proof (spawn_lookup guard task r i task Hi) as Hi'. unfold work in *. cbn.
  set (task' := {| peer := _ |}).
  pose proof (sum_insert (λ t, stage_work (stage t)) _ i task task' Hi') as Hsum.
  cbn in *. rewrite Hst, Hw in Hsum. cbn in Hsum. lia.
Qed.

Lemma draining_step ev r r' : draining ev → step ev r = Some r' → (work r' < work r)%nat.
Proof.
  destruct ev as [now|ip|i input]; [done..|]. intros Hd. cbn [step].
  destruct (tasks r !! i) as [task|] eqn:Hi; [|done]. cbn. unfold_step.
  assert (Hsw : ∀ st sw, (stage_work st < stage_work (stage task))%nat →
    (work (goto i task st (set_state sw r)) < work r)%nat)
    by (intros st sw ?; by apply (goto_work i task st (set_state sw r))).
  destruct (stage task) as [| | | |lp token rid conn| |g lp port conn|t|t|id ses|] eqn:E;
    destruct input as [c m|now|now|[u|e]| | |snt| |]; try done;
    try (intros Hrel; eapply release_work; [exact Hi| |exact Hrel]; rewrite E; cbn; lia).
  - destruct (first_message m); try (intros [= <-]; apply goto_work; [done|rewrite E; cbn; lia]).
    apply release_work; [done|rewrite E; cbn; lia].
  - destruct (rotate _ _ _ _) as [x sw]. intros [= <-]. apply Hsw. cbn. lia.
  - destruct (recover _ _ _ _ _) as [[[port [c|]]|e] sw]; intros [= <-]; apply Hsw; cbn; lia.
  - intros [= <-]. apply (goto_work i task _ (close old_connection r)); [done|rewrite E; cbn; lia].
  - destruct (register_with_recovery _ _ _ _ _ _) as [x sw]. intros [= <-]. apply Hsw.
    destruct x; cbn; lia.
  - apply (release_work i task Finished (set_state _ r)); [done|rewrite E; cbn; lia].
  - by eapply cancel_work.
  - by eapply cancel_work.
  - unfold player_done. destruct (players t) as [|n] eqn:En; [done|]. intros [= <-].
    apply (goto_work i task _ (set_global _ r)); [done|]. rewrite E. cbn. lia.
  - intros [= <-]. apply goto_work; [done|]. rewrite E. cbn. lia.
  - destruct (_ =? _)%nat; [|done]. intros [= <-]. apply Hsw. cbn. lia.
  - unfold player_done. destruct (players t) as [|n] eqn:En; [done|]. intros [= <-].
    apply (goto_work i task _ (set_global _ r)); [done|]. rewrite E. cbn. lia.
  - intros [= <-]. apply Hsw. cbn. lia.
Qed.

(** A task that is not finished can always go on. *)
Lemma task_progress i task now r : relay_ok r → tasks r !! i = Some task → stage task ≠ Finished →
  0 ≤ now → ∃ input r', draining (Resumed i input) ∧ 0 ≤ input_time input ∧
    step (Resumed i input) r = Some r'.
Proof.
  intros [_ _ [Hall _ Hip _]] Hi Hne Hnow.
  assert (Htask : task_ok task) by (rewrite Forall_lookup in Hall; eauto).
  assert (Hrel : registering (stage task) = true → ∀ st r0, pending_by_ip r0 = pending_by_ip r →
    ∃ r', release_permits i task st r0 = Some r').
  { intros Hreg st r0 Hr0. destruct Htask as [Hp _]. unfold permit_of in Hp. rewrite Hreg in Hp.
    unfold release_permits. rewrite Hp, Hr0.
    destruct (admission_exact_drop _ _ {| source := HostSource.from (peer task) |} Hip) as [p Hdrop].
    - apply list_elem_of_omap. exists task. split; [|done]. by eapply list_elem_of_lookup_2.
    - cbn in Hdrop. rewrite Hdrop. eauto. }
  assert (Hsp : ∀ g, pending_by_ip (spawn_cleanup g task r) = pending_by_ip r)
    by (intros g; unfold spawn_cleanup; by repeat case_match).
  cbn [step]. rewrite Hi. cbn. unfold_step.
  destruct (stage task) as [| | | |lp token rid conn| |g lp port conn|t|t|id ses|];
    try (destruct (Hrel eq_refl Finished r eq_refl) as [r' Hr']; by exists TimedOut, r').
  - exists Scheduled. eexists. by split_and!.
  - destruct (Hrel eq_refl Finished (spawn_cleanup g task r) (Hsp g)) as [r' Hr'].
    by exists TimedOut, r'.
  - exists Disconnected. eexists. by split_and!.
  - unfold player_done. destruct (players t) as [|n] eqn:En.
    + exists (Locked now). eexists. split_and!; [done|done|]. by cbn.
    + exists PlayerLeaves. eexists. split_and!; [done|done|]. by cbn.
  - exists (Locked now). eexists. by split_and!.
  - done.
Qed.
End properties.
