(* ===== verification/RelayProps.v ===== *)
(** What the relay guarantees over every interleaving of its tasks: a session
    always has an owner that will end it, the limits are exact, and everything
    held is given back. *)

From Stdlib Require Import Strings.Byte.
From S2P Require Import Prelude Bytes HostAdmission LeaseTable LeaseFacts LeaseInv LeaseRestore.
From S2P Require Import Protocol State StateFacts StateInv StateProps Tunnel Relay RelayFacts RelayInv.

Section properties.
Context `{Digest} `{!IterOrder TokenId Lease} {W : Type} `{StoreLaws W stored}.
Implicit Types (r : RelayServer W) (task : Task).

(** C6. No session is orphaned and no revoked tunnel stays open: in every
    reachable state each active lease belongs to exactly one task, which will
    end it, whatever was canceled or timed out; and a tunnel that still serves
    holds the active session of its identity, or its connection has been closed
    or is about to be closed by the task that recovered the identity. *)
Theorem sessions_have_owners r : relay_reachable (stored := stored) r →
  (∀ id ses, active_session id (st_leases (state r)) = Some ses →
     ∃ i st, at_stage (tasks r) i st ∧ owned st = Some (id, ses)) ∧
  (∀ i j st st' p, at_stage (tasks r) i st → at_stage (tasks r) j st' →
     owned st = Some p → owned st' = Some p → i = j) ∧
  (∀ i st id ses c, at_stage (tasks r) i st → owned st = Some (id, ses) → serving st = Some c →
     active_session id (st_leases (state r)) = Some ses ∨ c ∈ closed r ∨
     ∃ j port, at_stage (tasks r) j (Closing c port)).
Proof.
  intros [Hs [O1 O2 O3 O4] _]%relay_reachable_ok.
  destruct (state_reachable_ok _ _ Hs) as (_ & _ & Htr & _). split_and!.
  - intros id ses Ha. rewrite <- Htr in Ha.
    destruct (active_connections (state r) !! id) as [[ses' c]|] eqn:E; [|done].
    injection Ha as ->. by eapply O1.
  - intros i j st st' [id ses] Hi Hj E1 E2. by eapply O2.
  - intros i st id ses c Hi E1 E2. destruct (O4 _ _ _ _ _ Hi E1 E2) as [HA|?]; [left|by right].
    by rewrite <- Htr, HA.
Qed.

(** Pending registrations, of everybody and of one source. *)
Definition pending_hosts r : nat := sum_list_with is_pending (tasks r).
Definition pending_of (s : HostSource) r : nat := live_for s (omap ip_permit (tasks r)).
Definition player_count r : nat := sum_list_with (λ t, stage_players t.(stage)) (tasks r).

(** C14. The limits hold over every interleaving: at most 128 registrations are
    pending, at most 4 of a source, a tunnel has at most 50 players and the relay
    2000; the semaphores account for them exactly, and a connection is taken in
    exactly when both registration limits leave room. *)
Theorem relay_limits r : relay_reachable (stored := stored) r →
  (pending r + pending_hosts r = PENDING_LIMIT)%nat ∧
  (global_players r + player_count r = GLOBAL_PLAYER_LIMIT)%nat ∧
  (∀ s, pending_of s r ≤ PENDING_PER_IP_LIMIT)%nat ∧
  (∀ i t, at_stage (tasks r) i (Running t) → (players t ≤ MAX_CONCURRENT_PLAYERS)%nat) ∧
  (∀ ip, (length (tasks (incoming ip r)) = S (length (tasks r)))%nat ↔
     (pending_hosts r < PENDING_LIMIT)%nat ∧ (pending_of (HostSource.from ip) r < PENDING_PER_IP_LIMIT)%nat).
Proof.
  intros [_ _ [Hall Hpe Hip Hpl]]%relay_reachable_ok.
  pose proof Hip as (Hlim & _ & Hle). split_and!; [done..| |].
  - intros i t (task & Hi & Hst). rewrite Forall_lookup in Hall. destruct (Hall _ _ Hi) as [_ Hok].
    rewrite Hst in Hok. cbn in Hok. lia.
  - intros ip. unfold incoming, pending_hosts in *. fold (pending_of (HostSource.from ip) r).
    pose proof (admission_exact_try _ _ ip Hip) as Ht. cbn [HostAdmission.pending live] in Ht.
    fold (pending_of (HostSource.from ip) r) in Ht.
    destruct (try_acquire ip (pending_by_ip r)) as [o p]. cbn [fst] in Ht. subst o.
    destruct (pending r) as [|n]; cbn [Semaphore.try_acquire]; [lia|].
    case_decide; cbn [tasks set_tasks set_pending]; rewrite ?length_app; cbn [length]; lia.
Qed.

(** No task is left. *)
Definition quiescent r : Prop := ∀ i task, tasks r !! i = Some task → stage task = Finished.

Lemma progress_or_quiescent now r : relay_ok (stored := stored) r → 0 ≤ now → quiescent r ∨
  ∃ ev r', draining ev ∧ 0 ≤ event_time ev ∧ step ev r = Some r'.
Proof.
  intros Hok Hnow.
  assert (Hdec : ∀ t : Task, Decision (stage t = Finished))
    by (intros [? ? []]; (by left) || (by right)).
  destruct (decide (Forall (λ t, stage t = Finished) (tasks r))) as [Hall|Hnot].
  - left. by rewrite Forall_lookup in Hall.
  - right. apply not_Forall_Exists, Exists_exists in Hnot as (task & Hin & Hne); [|apply _].
    apply list_elem_of_lookup in Hin as [i Hi].
    destruct (task_progress i task now r Hok Hi Hne Hnow) as (input & r' & ? & ? & ?).
    by exists (Resumed i input), r'.
Qed.

Lemma run_cons ev evs r : run (ev :: evs) r = (step ev r ≫= run evs).
Proof.
  unfold run. cbn. destruct (step ev r) as [r'|]; [done|]. cbn. by induction evs.
Qed.

Lemma quiescent_empty r : relay_ok (stored := stored) r → quiescent r →
  (∀ id, active_session id (st_leases (state r)) = None) ∧
  pending r = PENDING_LIMIT ∧ global_players r = GLOBAL_PLAYER_LIMIT ∧
  counts (pending_by_ip r) = ∅.
Proof.
  intros [Hs [O1 _ _ _] [Hall Hpe Hip Hpl]] Hq.
  destruct (state_reachable_ok _ _ Hs) as (_ & _ & Htr & _).
  assert (Hfin : ∀ task, task ∈ tasks r → stage task = Finished).
  { intros task [i Hi]%list_elem_of_lookup. by eapply Hq. }
  split_and!.
  - intros id. rewrite <- Htr. destruct (active_connections (state r) !! id) as [[ses c]|] eqn:E; [|done].
    apply O1 in E as (i & st & (task & Hi & <-) & Ho). by rewrite (Hq _ _ Hi) in Ho.
  - rewrite (sum_zero is_pending) in Hpe; [lia|]. intros t Ht. unfold is_pending. by rewrite Hfin.
  - rewrite (sum_zero (λ t, stage_players (stage t))) in Hpl; [lia|]. intros t Ht. by rewrite Hfin.
  - apply map_empty. intros s. destruct Hip as (_ & Hc & _). cbn in Hc. rewrite Hc.
    rewrite decide_True; [done|]. replace (omap ip_permit (tasks r)) with (@nil PendingHostPermit); [done|].
    symmetry. apply elem_of_nil_inv. intros permit (task & Hin & Hp)%list_elem_of_omap.
    rewrite Forall_forall in Hall. destruct (Hall _ Hin) as [E _]. unfold permit_of in E.
    rewrite (Hfin _ Hin) in E. cbn in E. congruence.
Qed.

(** C19. The relay drains: from every reachable state, when nobody arrives any
    more, the tasks can run to their end, and then no lease is active, every
    permit is back and no source is counted. *)
Theorem relay_drains now r : relay_reachable (stored := stored) r → 0 ≤ now →
  ∃ evs r', Forall draining evs ∧ run evs r = Some r' ∧ quiescent r' ∧
    (∀ id, active_session id (st_leases (state r')) = None) ∧
    pending r' = PENDING_LIMIT ∧ global_players r' = GLOBAL_PLAYER_LIMIT ∧
    counts (pending_by_ip r') = ∅.
Proof.
  intros Hr Hnow. assert (Hrun : ∃ evs r', Forall draining evs ∧ run evs r = Some r' ∧
    quiescent r' ∧ relay_reachable (stored := stored) r').
  { remember (work r) as n eqn:Hn. revert r Hr Hn. induction (lt_wf n) as [n _ IH]. intros r Hr ->.
    destruct (progress_or_quiescent now r (relay_reachable_ok _ Hr) Hnow) as [?|(ev & r1 & Hd & Ht & Hs)].
    - by exists [], r.
    - destruct (IH (work r1)) with (r := r1) as (evs & r' & Hev & Hrun & Hq & Hr');
        [by eapply draining_step|by eapply rr_step|done|].
      exists (ev :: evs), r'. split_and!; [by constructor| |done|done]. by rewrite run_cons, Hs. }
  destruct Hrun as (evs & r' & Hd & Hrun & Hq & Hr'). exists evs, r'. split; [done|]. split; [done|].
  split; [done|]. apply quiescent_empty; [by apply relay_reachable_ok|done].
Qed.

Lemma run_reachable evs r r' : relay_reachable (stored := stored) r →
  Forall (λ ev, 0 ≤ event_time ev) evs → run evs r = Some r' → relay_reachable (stored := stored) r'.
Proof.
  intros Hr Hev. revert r Hr. induction Hev as [|ev evs Ht _ IH]; intros r Hr; [by intros [= <-]|].
  rewrite run_cons. destruct (step ev r) as [r1|] eqn:Hs; [|done]. apply IH. by eapply rr_step.
Qed.

(** C20. Cleaning up always ends: without arrivals, every schedule of the tasks
    stops within the work they have left, and a schedule that cannot go on has
    finished every task. *)
Theorem drain_terminates evs now r r' : relay_reachable (stored := stored) r → 0 ≤ now →
  Forall (λ ev, draining ev ∧ 0 ≤ event_time ev) evs → run evs r = Some r' →
  (length evs + work r' ≤ work r)%nat ∧
  (quiescent r' ∨ ∃ ev r2, draining ev ∧ 0 ≤ event_time ev ∧ step ev r' = Some r2).
Proof.
  intros Hr Hnow Hev. revert r Hr. induction Hev as [|ev evs [Hd Ht] _ IH]; intros r Hr.
  - intros [= <-]. split; [cbn; lia|]. apply (progress_or_quiescent now); [|done].
    by apply relay_reachable_ok.
  - rewrite run_cons. destruct (step ev r) as [r1|] eqn:Hs; [|done]. cbn. intros Hrun.
    destruct (IH r1) as [Hlen Hout]; [by eapply rr_step|done|].
    pose proof (draining_step _ _ _ Hd Hs). split; [lia|done].
Qed.
End properties.

(** ** Concrete instances *)

Section witnesses.
#[local] Existing Instances first_32 gmap_order memory_store memory_network memory_laws.

(** A host registers, a player joins, and another connection is recovering the
    host's identity. *)
Definition w_relay_start : RelayServer Memory := RelayServer_new w_start.1 w_start.2.
Definition w_relay_events : list (Event (W := Memory)) :=
  [ Incoming (w_ip x01);
    Resumed 0 (Received 7 (Ok (Some (Register Tcp 25565 w_token (sha256 (bytes_list w_secret))))));
    Resumed 0 (Locked 1000); Resumed 0 (Sent (Ok tt)); Resumed 0 (PlayerArrives (Ok tt));
    Incoming (w_ip x01);
    Resumed 1 (Received 8 (Ok (Some (RecoverIdentity w_secret w_token2))));
    Resumed 1 (Locked 2000) ].
Definition w_relay : RelayServer Memory :=
  default w_relay_start (run w_relay_events w_relay_start).

Lemma some_default {A} (x : option A) (d : A) : bool_decide (is_Some x) = true → x = Some (default d x).
Proof. intros [y ->]%bool_decide_eq_true_1. reflexivity. Qed.

Lemma w_relay_run : run w_relay_events w_relay_start = Some w_relay.
Proof.
  apply some_default. vm_compute. reflexivity.
Qed.

Lemma w_relay_reachable : relay_reachable (stored := in_memory) w_relay.
Proof.
  apply (run_reachable w_relay_events w_relay_start w_relay); [|repeat constructor; cbn; lia|apply w_relay_run].
  apply rr_start; [apply w_start_reachable|reflexivity].
Qed.

Definition w_stage : Stage (W := Memory) := default Finished (stage <$> tasks w_relay !! 0%nat).
Definition w_session : TokenId * SessionId :=
  default (from_token w_token, MkSessionId 0) (owned w_stage).

Lemma at_default (l : list (Task (W := Memory))) i : bool_decide (is_Some (l !! i)) = true →
  at_stage l i (default Finished (stage <$> l !! i)).
Proof. intros [task Hi]%bool_decide_eq_true_1. exists task. by rewrite Hi. Qed.

(** The displaced tunnel's connection is about to be closed. *)
Lemma sessions_have_owners_witness :
  active_session w_session.1 (st_leases (state w_relay)) = Some w_session.2 ∨
  (7 : Connection) ∈ closed w_relay ∨ ∃ j port, at_stage (tasks w_relay) j (Closing 7 port).
Proof.
  destruct (sessions_have_owners w_relay w_relay_reachable) as (_ & _ & Hs).
  apply (Hs 0%nat w_stage).
  - apply (at_default (tasks w_relay) 0%nat). vm_compute. reflexivity.
  - unfold w_session. rewrite <- surjective_pairing. apply some_default. vm_compute. reflexivity.
  - vm_compute. reflexivity.
Defined.

Lemma relay_limits_witness :
  (pending w_relay + pending_hosts w_relay = 128)%nat ∧
  (global_players w_relay + player_count w_relay = 2000)%nat ∧
  (global_players w_relay = 1999)%nat.
Proof.
  destruct (relay_limits w_relay w_relay_reachable) as (Hp & Hg & _).
  split_and!; [exact Hp|exact Hg|vm_compute; reflexivity].
Defined.

Lemma relay_drains_witness :
  ∃ evs r', Forall draining evs ∧ run evs w_relay = Some r' ∧ quiescent r' ∧
    pending r' = PENDING_LIMIT.
Proof.
  destruct (relay_drains 3000 w_relay w_relay_reachable) as (evs & r' & Hd & Hrun & Hq & _ & Hp & _);
    [lia|].
  exists evs, r'. split_and!; [exact Hd|exact Hrun|exact Hq|exact Hp].
Defined.

(** The player leaves while the identity is recovered. *)
Definition w_drain : list (Event (W := Memory)) :=
  [Resumed 1 Scheduled; Resumed 0 Disconnected; Resumed 0 PlayerLeaves].
Definition w_drained : RelayServer Memory := default w_relay (run w_drain w_relay).

Lemma drain_terminates_witness : (3 + work w_drained ≤ work w_relay)%nat.
Proof.
  apply (drain_terminates w_drain 3000 w_relay w_drained w_relay_reachable).
  - lia.
  - repeat constructor; cbn; lia.
  - apply some_default. vm_compute. reflexivity.
Defined.
End witnesses.
