(* ===== verification/Registry.v ===== *)
(** What the relay promises about its public ports, without identities' tables,
    sessions, storage or tasks: a registry of ports and the few actions that change
    it.  [RegistryRefines] shows that the relay implements it. *)

From S2P Require Import Prelude Bytes LeaseTable.

(** ** The registry *)

(** Who has a port: the identity, those it took over from, the recovery key that
    may move it, and until when it is kept ([None]: its host is connected). *)
Record Holding := {
  owner : TokenId;
  former : list TokenId;
  key : option TokenId;
  term : option Z;
}.
Notation Registry := (gmap Z Holding).

#[global] Instance Holding_eq_dec : EqDecision Holding.
Proof. solve_decision. Defined.

Definition lapsed (now : Z) (h : Holding) : bool :=
  match term h with Some d => d <=? now | None => false end.
Definition idle (h : Holding) : bool := match term h with Some _ => true | None => false end.

Definition hand_over (new : TokenId) (past : list TokenId) (until : option Z) (h : Holding) : Holding :=
  {| owner := new; former := past; key := key h; term := until |}.
Definition hold (k : option TokenId) (h : Holding) : Holding :=
  {| owner := owner h; former := former h; key := match key h with Some k => Some k | None => k end;
     term := None |}.
Definition leave (until : Z) (h : Holding) : Holding :=
  {| owner := owner h; former := former h; key := key h; term := Some until |}.

(** The identity was never used, and the key belongs to no other port. *)
Definition unknown (id : TokenId) (R : Registry) : Prop :=
  map_Forall (λ _ h, owner h ≠ id ∧ id ∉ former h) R.
Definition key_free (p : Z) (k : option TokenId) (R : Registry) : Prop :=
  map_Forall (λ q h, k = None ∨ key h ≠ k ∨ q = p) R.

Inductive action :=
  | Lapse
  | Grant (p : Z) (id : TokenId) (k : option TokenId)
  | Resume (p : Z) (id : TokenId) (k : option TokenId)
  | Leave (p : Z) (id : TokenId)
  | Rotate (p : Z) (old new : TokenId)
  | Recover (p : Z) (k new : TokenId).

(** An action at a time; [None] where it is not allowed. *)
Definition act (now : Z) (a : action) (R : Registry) : option Registry :=
  match a with
  | Lapse => Some (filter (λ ph, lapsed now ph.2 = false) R)
  | Grant p id k =>
      guard (PORT_START ≤ p ≤ PORT_END ∧ R !! p = None ∧ unknown id R ∧ key_free p k R);;
      Some (<[p := {| owner := id; former := []; key := k; term := None |}]> R)
  | Resume p id k =>
      h ← R !! p;
      guard (owner h = id ∧ idle h = true ∧ lapsed now h = false ∧
             (key h = None ∨ k = None ∨ key h = k) ∧ key_free p k R);;
      Some (<[p := hold k h]> R)
  | Leave p id =>
      h ← R !! p;
      guard (owner h = id ∧ idle h = false);;
      Some (<[p := leave (saturating_add_u64 now GRACE_MS) h]> R)
  | Rotate p old new =>
      h ← R !! p;
      guard (owner h = old ∧ idle h = true ∧ lapsed now h = false ∧ former h = [] ∧ unknown new R);;
      Some (<[p := hand_over new [old] (term h) h]> R)
  | Recover p k new =>
      h ← R !! p;
      guard (key h = Some k ∧ lapsed now h = false ∧ unknown new R);;
      Some (<[p := hand_over new (push_retired (owner h) (former h))
                     (Some (saturating_add_u64 now GRACE_MS)) h]> R)
  end.

(** The registry forgets what has lapsed, perhaps, and then at most one thing
    happens. *)
Definition moves (now : Z) (a : option action) (R R' : Registry) : Prop := ∃ R0,
  (R0 = R ∨ act now Lapse R = Some R0) ∧
  match a with Some a => act now a R0 = Some R' | None => R' = R0 end.

(** ** What the actions keep *)

(** [a] hands the port of [h] over, on the word of who has its key or its token. *)
Definition hands_over (a : action) (p : Z) (h : Holding) (new : TokenId) : Prop :=
  a = Rotate p (owner h) new ∨ ∃ k, key h = Some k ∧ a = Recover p k new.

(** A port that is kept stays with its owner and its key, except that the token's
    or the key's holder may hand it over. *)
Definition kept_by (a : option action) (p : Z) (h h' : Holding) : Prop :=
  (∀ k, key h = Some k → key h' = Some k) ∧
  (owner h' = owner h ∨ ∃ a0, a = Some a0 ∧ hands_over a0 p h (owner h')).

Lemma guarded {A} (P : Prop) `{Decision P} (m : option A) x :
  (guard P;; m) = Some x ↔ P ∧ m = Some x.
Proof. case_guard; cbn; naive_solver. Qed.

Ltac inv_act H :=
  unfold act in H;
  first [apply guarded in H as [? H] |
         let h := fresh "h" in let Hh := fresh "Hh" in
         apply bind_Some in H as (h & Hh & H); apply guarded in H as [? H]];
  destruct_and?; injection H as <-.

Lemma act_keeps now a R R' p h : act now a R = Some R' → R !! p = Some h → lapsed now h = false →
  ∃ h', R' !! p = Some h' ∧ kept_by (Some a) p h h'.
Proof.
  intros Ha Hp Hl.
  assert (Hsame : ∃ h', R !! p = Some h' ∧ kept_by (Some a) p h h')
    by (exists h; split; [done|]; split; [done|by left]).
  destruct a as [|q id k|q id k|q id|q old new|q k new];
    [injection Ha as <-; exists h; split; [by apply map_lookup_filter_Some|by split; [|left]]|inv_act Ha..].
  1: by rewrite lookup_insert_ne by congruence.
  all: destruct (decide (q = p)) as [->|]; [|by rewrite lookup_insert_ne].
  all: rewrite lookup_insert_eq; eexists; (split; [done|]); simplify_eq; (split; [by cbn; try intros k' ->|]).
  - by left.
  - by left.
  - right. eexists. split; [done|by left].
  - right. eexists. split; [done|right; eauto].
Qed.

(** No port in use is ever given away. *)
Lemma moves_keep now a R R' p h : moves now a R R' → R !! p = Some h → lapsed now h = false →
  ∃ h', R' !! p = Some h' ∧ kept_by a p h h'.
Proof.
  intros (R0 & HR0 & Ha) Hp Hl.
  assert (R0 !! p = Some h) by (destruct HR0 as [->|[= <-]]; [done|by apply map_lookup_filter_Some]).
  destruct a as [a|]; [by eapply act_keeps|subst R']. exists h. by split; [|split; [|left]].
Qed.
