(* ===== verification/RegistryRefines.v ===== *)
(** The relay implements the registry of ports ([Registry]): its lease table is
    one, seen by port, and every method of its state and every step of its tasks
    does at most one of the registry's actions. *)

From Stdlib Require Import Strings.Byte.
From S2P Require Import Prelude Bytes HostAdmission LeaseTable LeaseFacts LeaseInv LeaseRestore.
From S2P Require Import State StateFacts StateInv StateProps Protocol Tunnel Relay RelayFacts RelayInv RelayProps Registry.

(** ** The registry of a lease table *)

Definition holding_of (id : TokenId) (l : Lease) : Holding := {|
  owner := id;
  former := Lease.retired_token_ids l;
  key := Lease.recovery_id l;
  term := match Lease.status l with Active _ => None | Grace d => Some d end;
|}.

Definition registry_of (t : LeaseTable) : Registry :=
  list_to_map ((λ '(id, l), (Lease.port l, holding_of id l)) <$> map_to_list t.(leases)).

Section tables.
Context `{!IterOrder TokenId Lease}.
Implicit Types (t : LeaseTable).

Lemma registry_lookup t p h : leases_wf t.(leases) → registry_of t !! p = Some h ↔
  ∃ id l, t.(leases) !! id = Some l ∧ Lease.port l = p ∧ h = holding_of id l.
Proof.
  intros Hwf. unfold registry_of. rewrite <- elem_of_list_to_map.
  - rewrite list_elem_of_fmap. split.
    + intros ([id l] & [= -> ->] & Hl%elem_of_map_to_list). eauto.
    + intros (id & l & Hl & <- & ->). exists (id, l). by rewrite elem_of_map_to_list.
  - rewrite <- list_fmap_compose. apply NoDup_fmap_2_strong; [|apply NoDup_map_to_list].
    intros [id1 l1] [id2 l2] H1%elem_of_map_to_list H2%elem_of_map_to_list Hp. cbn in Hp.
    assert (id1 = id2) as <- by by eapply wf_port_inj. congruence.
Qed.

Lemma registry_holds t id l : leases_wf t.(leases) → t.(leases) !! id = Some l →
  registry_of t !! Lease.port l = Some (holding_of id l).
Proof. intros Hwf Hl. apply registry_lookup; eauto. Qed.

Lemma registry_free t p : leases_wf t.(leases) →
  (∀ id l, t.(leases) !! id = Some l → Lease.port l ≠ p) → registry_of t !! p = None.
Proof.
  intros Hwf Hn. destruct (registry_of t !! p) as [h|] eqn:E; [|done].
  apply registry_lookup in E as (id & l & Hl & Hp & _); [|done]. by destruct (Hn id l).
Qed.

Lemma holding_lapsed now id l : lapsed now (holding_of id l) = expired now l.
Proof. unfold lapsed, expired, holding_of. cbn. by destruct (Lease.status l). Qed.

(** One lease is written, in place of the one that had its port. *)
Lemma registry_set t t' i l : leases_wf t.(leases) → leases_wf t'.(leases) →
  t'.(leases) !! i = Some l →
  (∀ j x, j ≠ i → t'.(leases) !! j = Some x ↔ t.(leases) !! j = Some x ∧ Lease.port x ≠ Lease.port l) →
  (∀ x, t.(leases) !! i = Some x → Lease.port x = Lease.port l) →
  registry_of t' = <[Lease.port l := holding_of i l]> (registry_of t).
Proof.
  intros Hwf Hwf' Hi Hj Hold. apply map_eq. intros p. apply option_eq. intros h.
  rewrite registry_lookup, lookup_insert_Some, registry_lookup by done. split.
  - intros (j & x & Hx & Hp & ->). destruct (decide (j = i)) as [->|Hne].
    + left. split; congruence.
    + right. apply Hj in Hx as [Hx Hpx]; [|done]. split; [congruence|eauto].
  - intros [[<- <-]|[Hne (j & x & Hx & Hp & ->)]]; [by exists i, l|].
    exists j, x. split; [|done]. assert (j ≠ i) by (intros ->; destruct (Hold x Hx); congruence).
    apply Hj; [done|]. split; [done|congruence].
Qed.

Lemma registry_reap now t : leases_wf t.(leases) →
  act now Lapse (registry_of t) = Some (registry_of (reap_expired now t)).
Proof.
  intros Hwf. cbn. f_equal. symmetry. apply map_eq. intros p. apply option_eq. intros h.
  assert (Hwf' : leases_wf (leases (reap_expired now t))) by (eapply leases_wf_subseteq; [apply reap_subseteq|done]).
  rewrite map_lookup_filter_Some, !registry_lookup by done. setoid_rewrite reap_lookup. cbn. split.
  - intros (id & l & [Hl He] & Hp & ->). rewrite holding_lapsed. eauto 6.
  - intros [(id & l & Hl & Hp & ->) He]. rewrite holding_lapsed in He. eauto 7.
Qed.

Lemma registry_unknown t id : leases_wf t.(leases) → t.(leases) !! id = None →
  ¬ retired_somewhere id t.(leases) → unknown id (registry_of t).
Proof.
  intros Hwf Hn Hr p h (j & l & Hl & Hp & ->)%registry_lookup; [|done]. cbn. split; [congruence|].
  intros Hin. apply Hr. by exists j, l.
Qed.

Lemma registry_key_free t id p k : leases_wf t.(leases) →
  (∀ k', k = Some k' → ∀ j l, t.(leases) !! j = Some l → Lease.recovery_id l = Some k' → j = id) →
  (∀ l, t.(leases) !! id = Some l → Lease.port l = p) → key_free p k (registry_of t).
Proof.
  intros Hwf Hk Hp q h (j & l & Hl & Hq & ->)%registry_lookup; [|done]. cbn.
  destruct k as [k|]; [right|by left]. destruct (decide (Lease.recovery_id l = Some k)) as [E|]; [right|by left].
  assert (j = id) as -> by by eapply Hk. rewrite <- Hq. by apply Hp.
Qed.

(** ** The operations *)


Lemma reap_alive now t id l : (reap_expired now t).(leases) !! id = Some l → lapsed now (holding_of id l) = false.
Proof. rewrite holding_lapsed. by intros [_ He]%reap_lookup. Qed.

Lemma activation_refines id r ip port now t ses t' : leases_wf (reap_expired now t).(leases) →
  activation_of id r ip port (reap_expired now t) ses t' →
  ∃ a, act now a (registry_of (reap_expired now t)) = Some (registry_of t') ∧
    (a = Grant port id r ∨ a = Resume port id r).
Proof.
  intros Hwf Hact. pose proof (activated_leases_wf _ _ _ _ _ _ _ Hwf Hact) as Hwf'.
  destruct Hact as ((ports & (Hnr & Hc) & Hport) & Hfree & Hmatch & _ & _ & Ht').
  pose proof (reap_alive now t id) as Halive. set (t1 := reap_expired now t) in *. clearbody t1.
  assert (Hset : ∀ l, t'.(leases) = <[id := l]> t1.(leases) → Lease.port l = port →
    (∀ j x, t1.(leases) !! j = Some x → Lease.port x = port → j = id) →
    (∀ x, t1.(leases) !! id = Some x → Lease.port x = port) →
    registry_of t' = <[port := holding_of id l]> (registry_of t1)).
  { intros l Hl Hp Ho Hi. rewrite <- Hp. apply registry_set; rewrite ?Hp; try done.
    - by rewrite Hl, lookup_insert_eq.
    - intros j x Hne. rewrite Hl, lookup_insert_ne by done. naive_solver. }
  destruct (leases t1 !! id) as [l|] eqn:Hl.
  - destruct Hc as (Hg & -> & _). apply list_elem_of_singleton in Hport as ->.
    exists (Resume (Lease.port l) id r). split; [|by right]. unfold act.
    rewrite (registry_holds _ _ _ Hwf Hl). cbn [mbind option_bind]. apply guarded. split.
    + split_and!; [done| |by apply Halive| |].
      * unfold idle, holding_of. cbn. by destruct (Lease.status l).
      * cbn. destruct (Lease.recovery_id l) as [e|] eqn:He; [|by left]. destruct r as [k|]; [|by right; left].
        right. right. f_equal. by eapply Hmatch.
      * apply (registry_key_free _ id); [done|done|]. intros x Hx. congruence.
    + f_equal. symmetry. rewrite (Hset (activated_lease (Some l) r ip (Lease.port l) ses)).
      * done.
      * by rewrite Ht'.
      * done.
      * intros j x Hx Hp. by apply (wf_port_inj _ Hwf _ _ _ _ Hx Hl).
      * intros x Hx. congruence.
  - destruct Hc as (-> & _ & _). apply free_ports_elem in Hport as [Hrange Hfresh].
    exists (Grant port id r). split; [|by left]. unfold act. apply guarded. split.
    + split; [done|]. split; [by apply registry_free|]. split; [by apply registry_unknown|].
      by apply (registry_key_free _ id); [done|done|congruence].
    + f_equal. symmetry. rewrite (Hset (activated_lease None r ip port ses)); [done|by rewrite Ht'|done| |congruence].
      intros j x Hx Hp. by destruct (Hfresh j x).
Qed.

Lemma end_refines id ses now t t' : leases_wf t.(leases) → leases_wf t'.(leases) →
  end_ id ses now t = (true, t') →
  ∃ p, act now (Leave p id) (registry_of t) = Some (registry_of t').
Proof.
  intros Hwf Hwf' (l & Hl & Hs & ->)%end_true. exists (Lease.port l). unfold act.
  rewrite (registry_holds _ _ _ Hwf Hl). cbn [mbind option_bind]. apply guarded.
  split; [split; [done|unfold idle, holding_of; cbn; by rewrite Hs]|]. f_equal. symmetry.
  rewrite (registry_set t _ id (Lease.set_status (Grace (saturating_add_u64 now GRACE_MS)) l));
    [done|done|done|cbn; by rewrite lookup_insert_eq| |cbn; congruence].
  intros j x Hne. cbn. rewrite lookup_insert_ne by done. split; [|naive_solver].
  intros Hx. split; [done|]. intros Hp. exact (Hne (wf_port_inj _ Hwf _ _ _ _ Hx Hl Hp)).
Qed.

(** The claim of [old] is handed over to [new]. *)
Lemma transfer_registry t old new l l' : lease_inv (set_leases (<[new := l']> (delete old t.(leases))) t) →
  leases_wf t.(leases) → t.(leases) !! old = Some l → t.(leases) !! new = None →
  Lease.port l' = Lease.port l →
  registry_of (set_leases (<[new := l']> (delete old t.(leases))) t)
  = <[Lease.port l := holding_of new l']> (registry_of t).
Proof.
  intros Hwf' Hwf Hold Hnew Hp. rewrite <- Hp. apply registry_set; [done|apply Hwf'| | |congruence].
  - cbn. by rewrite lookup_insert_eq.
  - intros j x Hne. cbn. rewrite lookup_insert_ne, lookup_delete_Some by done. rewrite Hp. split.
    + intros [Hne' Hx]. split; [done|]. intros Hpx. exact (Hne' (eq_sym (wf_port_inj _ Hwf _ _ _ _ Hx Hold Hpx))).
    + intros [Hx Hpx]. split; [congruence|done].
Qed.

Lemma rotation_refines old new now t p t' : lease_inv (reap_expired now t) →
  rotation_of old new (reap_expired now t) (Transferred p) t' →
  act now (Rotate p old new) (registry_of (reap_expired now t)) = Some (registry_of t').
Proof.
  intros Hinv Hrot. pose proof (rotation_inv _ _ _ _ _ Hinv Hrot) as Hinv'. destruct Hrot as [_ Hm].
  pose proof (reap_alive now t old) as Halive. set (t1 := reap_expired now t) in *. clearbody t1.
  pose proof (wf_leases _ (proj1 Hinv)) as Hwf.
  destruct (leases t1 !! new) as [l0|] eqn:Hnew; [naive_solver|]. destruct Hm as (Hn & _ & Hm).
  destruct (leases t1 !! old) as [l|] eqn:Hold; [|naive_solver]. destruct Hm as (Hg & Hr & [= ->] & ->).
  unfold act. rewrite (registry_holds _ _ _ Hwf Hold). cbn [mbind option_bind]. apply guarded. split.
  - split_and!; [done| |by apply Halive|done|by apply registry_unknown].
    unfold idle, holding_of. cbn. by destruct (Lease.status l).
  - by rewrite (transfer_registry t1 old new l).
Qed.

Lemma recovery_refines k old l new ip now t res t' : lease_inv (reap_expired now t) →
  find_recovery k (reap_expired now t) = Some (old, l) →
  recovery_of old l new ip now (reap_expired now t) res t' → changed res = true →
  act now (Recover (recovered_port res) k new) (registry_of (reap_expired now t)) = Some (registry_of t').
Proof.
  intros Hinv [Hold Hk]%find_recovery_Some Hrec Hch.
  pose proof (recovery_inv _ _ _ _ _ _ _ _ Hinv Hold Hrec) as Hinv'.
  pose proof (reap_alive now t old) as Halive. set (t1 := reap_expired now t) in *. clearbody t1.
  pose proof (wf_leases _ (proj1 Hinv)) as Hwf.
  unfold recovery_of in Hrec. case_decide; [by destruct Hrec as [-> _]|].
  destruct Hrec as (Hnew & Hn & _ & -> & ->). unfold act. cbn [recovered_port].
  rewrite (registry_holds _ _ _ Hwf Hold). cbn [mbind option_bind]. apply guarded. split.
  - split_and!; [done|by apply Halive|by apply registry_unknown].
  - by rewrite (transfer_registry t1 old new l).
Qed.
End tables.

(** ** The relay's state *)

Section states.
Context `{Digest} `{!IterOrder TokenId Lease} {W : Type} `{StoreLaws W stored}.
Implicit Types (s : ServerState W) (w : W) (r : RelayServer W).

Notation registry s := (registry_of (st_leases s)).

(** What each method may do to the registry: a token moves only its own port, a
    recovery key only the one it is enrolled for. *)
Definition authorized (op : state_op (W := W)) (a : action) : Prop :=
  match op with
  | OpRegister token rid _ _ _ => ∃ p, a = Grant p (from_token token) (MkTokenId <$> rid) ∨
                                       a = Resume p (from_token token) (MkTokenId <$> rid)
  | OpEndSession id _ _ => ∃ p, a = Leave p id
  | OpRotateTokens old new _ => ∃ p, a = Rotate p (from_token old) (from_token new)
  | OpRecoverTokens secret new _ _ => ∃ p, a = Recover p (from_token secret) (from_token new)
  | OpAbandon _ _ _ | OpRefresh _ => False
  end.

Definition refines (op : state_op (W := W)) s s' : Prop := ∃ a,
  moves (state_op_time op) a (registry s) (registry s') ∧
  (∀ a0, a = Some a0 → authorized op a0).

Lemma refines_same op s s' : st_leases s' = st_leases s → refines op s s'.
Proof. intros E. exists None. split; [|done]. exists (registry s). rewrite E. auto. Qed.

Lemma refines_reaped op s s' : lease_inv (st_leases s) →
  st_leases s' = reap_expired (state_op_time op) (st_leases s) → refines op s s'.
Proof.
  intros [Hwf _] E. exists None. split; [|done]. exists (registry s'). split; [right|done].
  rewrite E. by apply registry_reap, wf_leases.
Qed.

Lemma refines_kept op s w s' w' : lease_inv (st_leases s) →
  claims_kept (stored := stored) (state_op_time op) s w s' w' → refines op s s'.
Proof. intros Hinv [[E|E] _]; [by apply refines_same|by apply refines_reaped]. Qed.

(** An action on the table that has just been reaped. *)
Lemma refines_acts op s s' a : lease_inv (st_leases s) → authorized op a →
  act (state_op_time op) a (registry_of (reap_expired (state_op_time op) (st_leases s))) = Some (registry s') →
  refines op s s'.
Proof.
  intros [Hwf _] Hauth Ha. exists (Some a). split; [|by intros ? [= <-]]. eexists. split; [right|exact Ha].
  by apply registry_reap, wf_leases.
Qed.

Lemma op_refines op s w s' w' : lease_inv (st_leases s) → run_state_op op (s, w) = (s', w') →
  refines op s s'.
Proof.
  intros Hinv Hrun. pose proof (reap_inv (state_op_time op) _ Hinv) as Hreap.
  destruct op as [tk rid ip now c|id ses now|old new now|sec new ip now|tk ip now|now]; cbn in Hrun;
    match goal with H : (?run).2 = _ |- _ => destruct run as [x [s2 w2]] eqn:E end; cbn in Hrun; simplify_eq.
  - apply (register_run (stored := stored)) in E. destruct x as [reg|e]; [|by eapply refines_kept].
    destruct E as (t & _ & Hact & _ & _ & ->). apply activation_refines in Hact as (a & Ha & Hor); [|apply wf_leases, Hreap].
    apply (refines_acts _ _ _ a); [done| |done]. exists (public_port reg). naive_solver.
  - apply (end_run (stored := stored)) in E as (b & t & He & Ht & Hb). destruct b.
    + assert (lease_inv t) as [Hwf' _] by (pose proof (end_inv id ses now _ Hinv) as Hi; by rewrite He in Hi).
      destruct (end_refines id ses now (st_leases s) t) as [p Hp]; [apply wf_leases, Hinv|by apply wf_leases|done|].
      exists (Some (Leave p id)). split; [|intros ? [= <-]; by exists p]. exists (registry s). rewrite Ht. auto.
    + destruct Hb as (_ & -> & _). by apply refines_same.
  - apply (rotate_run (stored := stored)) in E. destruct x as [port|e]; [|by eapply refines_kept].
    destruct E as (_ & res & t & Hrot & _ & Hout). destruct res as [p|p]; [|destruct Hout as [-> _]; by apply refines_same].
    destruct Hout as [_ ->]. apply (refines_acts _ _ _ (Rotate p (from_token old) (from_token new)));
      [done|by exists p|by apply rotation_refines].
  - apply (recover_run (stored := stored)) in E. destruct x as [[port conn]|e]; [|by eapply refines_kept].
    destruct E as (_ & old & l & res & t & Hf & Hrec & -> & Hout). destruct (changed res) eqn:Hch.
    + destruct Hout as [_ Htake].
      assert (st_leases s' = t) as Ht.
      { rewrite take_connection_run in Htake. repeat case_match; simplify_eq; done. }
      apply (refines_acts _ _ _ (Recover (recovered_port res) (from_token sec) (from_token new)));
        [done|by eexists|]. rewrite Ht. by eapply recovery_refines.
    + destruct Hout as (_ & -> & _). by apply refines_same.
  - apply (abandoned_run (stored := stored)) in E. by eapply refines_kept.
  - apply (refresh_run (stored := stored)) in E as (Ht & _). by apply refines_reaped.
Qed.

(** ** The relay *)

(** C3. The relay implements the registry of ports: every event of every history,
    whatever the interleaving of the tasks and whatever fails, does at most one of
    the registry's actions (after forgetting what has lapsed): a port is granted
    that nobody has, to an identity never seen, or resumed by its owner, left,
    rotated by the owner's token, recovered by its key; and the action is the one
    that the task asked the state for. *)
Theorem relay_refines_registry ev r r' : relay_reachable (stored := stored) r → 0 ≤ event_time ev →
  step ev r = Some r' → ∃ a, moves (event_time ev) a (registry (state r)) (registry (state r')) ∧
    ∀ a0, a = Some a0 → ∃ op, event_op ev r = Some op ∧ authorized op a0.
Proof.
  intros [Hs _ _]%relay_reachable_ok Ht Hstep%step_runs.
  destruct (state_reachable_ok _ _ Hs) as (Hinv & _). destruct (event_op ev r) as [op|] eqn:E; cbn in Hstep.
  - destruct (op_refines op (state r) (world r) (state r') (world r') Hinv (eq_sym Hstep)) as (a & Hm & Ha).
    rewrite (event_op_time _ _ _ E) in Hm. exists a. naive_solver.
  - injection Hstep as -> _. exists None. split; [|done]. exists (registry (state r)). auto.
Qed.

(** Who may hand a port over: a task that was asked to rotate the identity that
    has it, or to recover it with its key. *)
Definition entitled (ev : Event) r (h h' : Holding) : Prop := ∃ i now task,
  ev = Resumed i (Locked now) ∧ tasks r !! i = Some task ∧
  ((∃ old new, stage task = Rotating old new ∧ owner h = from_token old ∧ owner h' = from_token new) ∨
   (∃ secret new, stage task = Recovering secret new ∧ key h = Some (from_token secret) ∧
      owner h' = from_token new)).

Lemma authorized_entitled ev r op a p h h' : event_op ev r = Some op → authorized op a →
  hands_over a p h (owner h') → entitled ev r h h'.
Proof.
  destruct ev as [now|ip|i input]; cbn; [by intros [= <-]|done|].
  destruct (tasks r !! i) as [task|] eqn:Hi; [|done]. cbn. intros Hop Ha Hh.
  assert (∃ now, input = Locked now ∧
    ((∃ old new, stage task = Rotating old new ∧ op = OpRotateTokens old new now) ∨
     ∃ secret new, stage task = Recovering secret new ∧ op = OpRecoverTokens secret new (peer task) now))
    as (now & -> & Hcase).
  { unfold task_op in Hop. destruct Hh as [->|(k & _ & ->)]; cbn in Ha;
      destruct (stage task), input; simplify_eq; cbn in Ha; naive_solver. }
  exists i, now, task. split_and!; [done..|].
  destruct Hcase as [(old & new & Hst & ->)|(secret & new & Hst & ->)]; cbn in Ha; destruct Ha as [q ->].
  - left. exists old, new. destruct Hh as [[= -> -> <-]|(k & _ & ?)]; [done|done].
  - right. exists secret, new. destruct Hh as [?|(k & Hk & [= -> -> <-])]; [done|by split_and!].
Qed.

(** A port changes hands only by its owner's token or its recovery key. *)
Lemma event_keeps_port ev r r' p h : relay_reachable (stored := stored) r → 0 ≤ event_time ev →
  step ev r = Some r' → registry (state r) !! p = Some h → lapsed (event_time ev) h = false →
  ∃ h', registry (state r') !! p = Some h' ∧ (∀ k, key h = Some k → key h' = Some k) ∧
    (owner h' = owner h ∨ entitled ev r h h').
Proof.
  intros [Hs _ _]%relay_reachable_ok Ht Hstep%step_runs Hp Hl.
  destruct (state_reachable_ok _ _ Hs) as (Hinv & _). destruct (event_op ev r) as [op|] eqn:E; cbn in Hstep.
  - destruct (op_refines op (state r) (world r) (state r') (world r') Hinv (eq_sym Hstep)) as (a & Hm & Ha).
    rewrite (event_op_time _ _ _ E) in Hm.
    destruct (moves_keep _ _ _ _ _ _ Hm Hp Hl) as (h' & Hp' & Hk & Ho). exists h'. split_and!; [done|done|].
    destruct Ho as [Ho|(a0 & -> & Ho)]; [by left|right]. by eapply authorized_entitled; [| |exact Ho]; auto.
  - injection Hstep as -> _. exists h. by split_and!; [| |left].
Qed.
End states.

(** ** A concrete step *)

Section witnesses.
#[local] Existing Instances first_32 gmap_order memory_store memory_network memory_laws.

(** The host is connected; its identity is about to be recovered. *)
Definition w_before : RelayServer Memory :=
  default w_relay_start (run (take 7 w_relay_events) w_relay_start).
Definition w_recovers : Event (W := Memory) := Resumed 1 (Locked 2000).
Definition w_after : RelayServer Memory := default w_before (step w_recovers w_before).
Definition w_holding (r : RelayServer Memory) : Holding :=
  default {| owner := from_token w_token; former := []; key := None; term := None |}
    (registry_of (st_leases (state r)) !! 10001).

Lemma w_before_reachable : relay_reachable (stored := in_memory) w_before.
Proof.
  apply (run_reachable (take 7 w_relay_events) w_relay_start w_before); [|repeat constructor; cbn; lia|].
  - apply rr_start; [apply w_start_reachable|reflexivity].
  - apply some_default. vm_compute. reflexivity.
Qed.

Lemma w_recovery_step : step w_recovers w_before = Some w_after.
Proof. apply some_default. vm_compute. reflexivity. Qed.

Lemma relay_refines_registry_witness : ∃ a,
  moves 2000 a (registry_of (st_leases (state w_before))) (registry_of (st_leases (state w_after))) ∧
  ∀ a0, a = Some a0 → ∃ op, event_op w_recovers w_before = Some op ∧ authorized op a0.
Proof.
  apply (relay_refines_registry w_recovers w_before w_after w_before_reachable); [cbn; lia|].
  apply w_recovery_step.
Defined.

Lemma w_port_changes_hands : ∃ h', registry_of (st_leases (state w_after)) !! 10001 = Some h' ∧
  (owner h' = owner (w_holding w_before) ∨ entitled w_recovers w_before (w_holding w_before) h').
Proof.
  destruct (event_keeps_port w_recovers w_before w_after 10001 (w_holding w_before) w_before_reachable)
    as (h' & Hh & _ & Ho).
  - cbn. lia.
  - apply w_recovery_step.
  - apply some_default. vm_compute. reflexivity.
  - vm_compute. reflexivity.
  - exists h'. split; [exact Hh|exact Ho].
Qed.

(** It has a new owner, who has five minutes to connect. *)
Example w_recovered : owner (w_holding w_after) = from_token w_token2 ∧ term (w_holding w_after) = Some 302000.
Proof. split; vm_compute; reflexivity. Qed.
End witnesses.
