(* ===== verification/CryptoProps.v ===== *)
(** What the relay's transport configuration guarantees. *)

From Stdlib Require Import Strings.Byte.
From S2P Require Import Prelude Bytes Fs FsLogic Crypto State Relay.

Section properties.
Context `{Rustls}.

(** Every configuration negotiates TLS 1.3 with the hybrid key exchange only. *)
Definition hybrid_only (provider : CryptoProvider) (versions : list TlsVersion) : Prop :=
  kx_groups provider = [X25519MLKEM768] ∧ versions = [TLS13].

Lemma server_config_with_cert_ok certs key config : server_config_with_cert certs key = Ok config →
  hybrid_only (server_provider config) (server_versions config) ∧ chain config = certs ∧
  private_key config = key ∧ max_concurrent_bidi_streams config = 128 ∧ client_auth config = false.
Proof. unfold server_config_with_cert. intros Hc. inv_ok. by simplify_eq/=. Qed.

Lemma map_err_ok {A} text (x : result A) a : map_err text x = Ok a ↔ x = Ok a.
Proof. by destruct x. Qed.

(** C26. The relay only starts with a certificate it was given or with an explicit
    development flag: a configuration is built from the two files when both are
    named, with the chain and the key they contain and at least one certificate;
    from a self-signed one exactly when neither is named and the flag is "1"; and
    never otherwise.  It always negotiates TLS 1.3 with X25519MLKEM768 alone. *)
Theorem relay_certificate_policy cert key dev fs config fs' :
  bind_config cert key dev fs = (Ok config, fs') →
  hybrid_only (server_provider config) (server_versions config) ∧
  max_concurrent_bidi_streams config = 128 ∧
  ((∃ cert_path key_path cert_pem key_pem fs1,
      cert = Some cert_path ∧ key = Some key_path ∧
      fs_read cert_path fs = (Ok cert_pem, fs1) ∧ fs_read key_path fs1 = (Ok key_pem, fs') ∧
      pem_certificates cert_pem = Ok (chain config) ∧ chain config ≠ [] ∧
      pem_private_key key_pem = Ok (private_key config)) ∨
   (cert = None ∧ key = None ∧ dev = Some "1"%string ∧ fs' = fs ∧
      ∃ own, self_signed ["localhost"%string] = Ok (own, private_key config) ∧ chain config = [own])).
Proof.
  unfold bind_config, tls_server_config. destruct cert as [cp|], key as [kp|]; try done.
  - intros Hrun. unfold server_config_from_files in Hrun. inv_ok.
    match goal with Hc : server_config_with_cert _ _ = _ |- _ =>
      apply server_config_with_cert_ok in Hc as (Hh & Hch & Hk & Hm & _) end.
    repeat match goal with Hm : map_err _ _ = _ |- _ => apply map_err_ok in Hm; subst end.
    split; [done|]. split; [done|]. left. eexists cp, kp, _, _, _. split_and!; try done.
    destruct (chain config); [discriminate|done].
  - destruct (decide (dev = Some "1"%string)) as [->|Hd];
      [rewrite bool_decide_true by done|rewrite bool_decide_false by done; done].
    unfold server_config. intros Hrun. inv_ok.
    destruct (self_signed _) as [[own key]|e] eqn:Es; [|done]. cbn in Hrun.
    destruct (server_config_with_cert [own] key) as [c|e] eqn:Ec; cbn in Hrun; [|done].
    injection Hrun as ->. apply server_config_with_cert_ok in Ec as (Hh & Hch & <- & Hm & _).
    split; [done|]. split; [done|]. right. split_and!; try done. by exists own.
Qed.
End properties.

(** ** Concrete instances *)

Section witnesses.

(** Certificates and keys are the bytes of their files. *)
#[local] Instance plain_rustls : Rustls := {|
  CertificateDer := list byte;
  PrivateKeyDer := list byte;
  RootCertStore := list (list byte);
  VerificationAlgorithms := unit;
  default_kx_groups := [OtherGroup 29; X25519MLKEM768];
  default_algorithms := tt;
  TLS_SERVER_ROOTS := [[x01]];
  versions_supported _ _ := Ok tt;
  certificate_usable _ _ := Ok tt;
  quic_usable _ := Ok tt;
  pem_certificates bs := match bs with [] => Ok [] | _ => Ok [bs] end;
  pem_private_key bs := Ok bs;
  self_signed _ := Ok ([x02], [x03]);
  signature_valid _ _ _ _ _ := Ok tt;
  webpki_verify roots cert _ := if bool_decide (cert ∈ roots) then Ok tt else Err (Msg "UnknownIssuer");
|}.

Definition w_cert_path : Path := ["tls"; "fullchain.pem"]%string.
Definition w_key_path : Path := ["tls"; "privkey.pem"]%string.
Definition w_file (b : byte) : Node := FileN {| data := [b]; private := true; synced := true |}.
Definition w_tls_fs : Fs :=
  {| names := <[w_cert_path := w_file x0a]> {[w_key_path := w_file x0b]};
     durable := ∅; schedule := []; entropy := [] |}.
Definition w_config : ServerConfig :=
  {| server_provider := hybrid_provider; server_versions := [TLS13]; client_auth := false;
     chain := [[x0a]]; private_key := [x0b]; max_concurrent_bidi_streams := 128 |}.

Lemma relay_certificate_policy_witness :
  hybrid_only (server_provider w_config) (server_versions w_config).
Proof.
  apply (relay_certificate_policy (Some w_cert_path) (Some w_key_path) None w_tls_fs w_config w_tls_fs).
  vm_compute. reflexivity.
Defined.
End witnesses.
