(* ===== verification/RelayStart.v ===== *)
(** Starting the relay (crates/server/src/relay.rs, main.rs), and its life over
    any number of crashes and starts. *)

From Stdlib Require Import Strings.Byte.
From S2P Require Import Prelude Bytes HostAdmission LeaseTable LeaseFacts LeaseInv LeaseRestore.
From S2P Require Import Fs FsLogic FsAlone LeaseStore LeaseStoreFacts.
From S2P Require Import Protocol State StateFacts StateInv StateProps Restart FileStore.
From S2P Require Import Tunnel Crypto Relay RelayFacts RelayInv RelayProps CryptoProps.

(** What a start uses of its surroundings: the TLS configuration the environment
    asks for, std's parser of socket addresses, and quinn's endpoint. *)
Class Startup `{Rustls} (W : Type) := {
  SocketAddr : Type;
  configure : M W ServerConfig;
  parse_socket_addr : string → result SocketAddr;
  endpoint_server : ServerConfig → SocketAddr → M W unit;
  local_addr : M W unit;
}.

(** The disk is as before for a start that comes after, and for the next one. *)
Class StartupLaws (W : Type) `{Startup W} `{Crash W}
    (stored : (list LeaseRecord → Prop) → W → Prop) : Prop := {
  configure_law w w1 : crash w w1 → crash w (configure w1).2;
  endpoint_law P config addr w : stored P w → stored P (endpoint_server config addr w).2;
  local_addr_law P w : stored P w → stored P (local_addr w).2;
}.

Section start.
Context `{Digest} `{!IterOrder TokenId Lease} {W : Type} `{Store W} `{Network W} `{Rustls}
  `{!Startup W}.

(** [RelayServer::bind_with_config_and_state_path]; the store stands for the path.
    The address is asked for by the log. *)
Definition bind_with_config_and_state_path (addr : string) (config : ServerConfig) (now : Z)
    : M W (RelayServer W) :=
  state ← load_or_new now;
  socket ← lift (parse_socket_addr addr);
  endpoint_server config socket;;
  local_addr;;
  w ← get;
  mret (RelayServer_new state w).

(** [RelayServer::bind], and the [main] that calls it before it serves. *)
Definition bind (addr : string) (now : Z) : M W (RelayServer W) :=
  config ← configure;
  bind_with_config_and_state_path addr config now.
Definition main (now : Z) : M W (RelayServer W) := bind "0.0.0.0:5000" now.
End start.

(** ** The life of a relay *)

Section life.
Context `{Digest} `{!IterOrder TokenId Lease} {W : Type} `{StoreLaws W stored} `{!Crash W}
  `{!CrashLaws W stored} `{Rustls} `{!Startup W} `{!StartupLaws W stored}.
Implicit Types (r : RelayServer W) (w : W).

(** A relay that died in [w] is started until a start succeeds, at [now]. *)
Inductive starts (now : Z) (r : RelayServer W) : W → Prop :=
  | starts_up w w1 w2 : crash w w1 → main now w1 = (Ok r, w2) → starts now r w
  | starts_again w w1 now0 e w2 : crash w w1 → main now0 w1 = (Err e, w2) → starts now r w2 →
      starts now r w.

(** [first w]: a disk the relay has not run on, as its administrator left it.  With
    the time at which the relay's file was last written, or read at a start. *)
Inductive relay_life (first : Z → W → Prop) : Z → RelayServer W → Prop :=
  | life_first now w r w' : first now w → main now w = (Ok r, w') → relay_life first now r
  | life_event ev last r r' : relay_life first last r → 0 ≤ event_time ev → step ev r = Some r' →
      relay_life first (event_saved ev r last) r'
  | life_restart now last r r' : relay_life first last r → starts now r' (world r) →
      relay_life first now r'.

(** A start that succeeds serves the table it has loaded; one that fails after the
    load leaves the disk as the load did. *)
Lemma main_run now w res w2 : main now w = (res, w2) →
  match res with
  | Ok r => ∃ t w1, store_load now (configure w).2 = (Ok t, w1) ∧ world r = w2 ∧
      r = RelayServer_new (new_state t) w2 ∧ ∀ P, stored P w1 → stored P w2
  | Err _ => w2 = (configure w).2 ∨ ∃ x w1, store_load now (configure w).2 = (x, w1) ∧
      ∀ P, stored P w1 → stored P w2
  end.
Proof.
  unfold main, bind, bind_with_config_and_state_path, load_or_new, lift, get, mret, M_ret.
  unfold mbind, M_bind. destruct (configure w) as [[config|e] w0]; cbn; [|intros [= <- <-]; by left].
  destruct (store_load now w0) as [[t|e] w1] eqn:El; cbn; [|intros [= <- <-]; right; by eexists _, _].
  destruct (parse_socket_addr _) as [socket|e]; cbn; [|intros [= <- <-]; right; by eexists _, _].
  pose proof (λ P, endpoint_law (stored := stored) P config socket w1) as He.
  destruct (endpoint_server config socket w1) as [[u|e] w3]; cbn in *; [|intros [= <- <-]; right; by eexists _, _].
  pose proof (λ P, local_addr_law (stored := stored) P w3) as Ha.
  destruct (local_addr w3) as [[v|e] w4]; cbn in *; intros [= <- <-]; [|right]; eexists _, _;
    split_and!; auto.
Qed.

Lemma starts_found (P : list LeaseRecord → Prop) now r w : stored P w → (∀ rs, P rs → restorable rs) → starts now r w →
  ∃ rs t, P rs ∧ restore rs now = Ok t ∧ stored (eq rs) (world r) ∧
    r = RelayServer_new (new_state t) (world r).
Proof.
  intros Hst HP Hre. induction Hre as [w w1 w2 Hc Hmain|w w1 now0 e w2 Hc Hmain _ IH];
    apply main_run in Hmain; apply (configure_law (stored := stored)) in Hc.
  - destruct Hmain as (t & w3 & Hload & Hw & Hr & Hkeep).
    destruct (restart_law P _ _ _ _ _ Hst HP Hc Hload) as (rs & Hrs & Hres & Hs).
    exists rs, t. rewrite Hw. by split_and!; [..|apply Hkeep|].
  - apply IH. destruct Hmain as [->|(x & w3 & Hload & Hkeep)]; [by eapply crash_law|].
    apply Hkeep. pose proof (restart_law P _ _ _ _ _ Hst HP Hc Hload) as Hr. destruct x as [t|e']; [|done].
    destruct Hr as (rs & Hrs & _ & Hs). eapply stored_mono; [|exact Hs]. by intros ? <-.
Qed.

(** A first start gives a usable state. *)
Context (first : Z → W → Prop)
  (first_usable : ∀ now w t w1, first now w → store_load now (configure w).2 = (Ok t, w1) →
    state_saved (stored := stored) now (new_state t) w1).

Lemma new_state_moved last t w w' : state_saved (stored := stored) last (new_state t) w →
  (∀ P, stored P w → stored P w') → state_saved (stored := stored) last (new_state t) w'.
Proof.
  intros (Hi & Hd & Htr & Hc)%state_saved_ok Hkeep. cbn in *. apply ss_start; [done|done| |].
  - intros id. specialize (Htr id). cbn in Htr. by rewrite lookup_empty in Htr.
  - by apply Hkeep, Hc.
Qed.

(** The relay that starts on what is left of another one. *)
Lemma starts_saved last r now r' : relay_saved (stored := stored) last r → starts now r' (world r) →
  relay_saved (stored := stored) now r'.
Proof.
  intros [Hr _ _]%relay_saved_reachable%relay_reachable_ok Hst. apply state_reachable_restorable in Hr.
  destruct (starts_found restorable now r' (world r) Hr) as (rs & t & Hrs & Hres & Hw & ->); [done|done|].
  apply rs_start; [|done]. by eapply restored_saved.
Qed.

Lemma life_saved last r : relay_life first last r → relay_saved (stored := stored) last r.
Proof.
  intros Hlife. induction Hlife as [now w r w' Hw Hmain|ev last r r' _ IH Ht Hs|now last r r' _ IH Hst].
  - apply main_run in Hmain as (t & w1 & Hload & <- & -> & Hkeep).
    apply rs_start; [|done]. eapply new_state_moved; [|exact Hkeep]. by eapply first_usable.
  - by eapply rs_step.
  - by eapply starts_saved.
Qed.

(** What it finds, if the storage of the former was healthy. *)
Lemma starts_covered last r now r' : relay_saved (stored := stored) last r → starts now r' (world r) →
  persistence_healthy (state r) = true →
  ∃ rs, covers last (st_leases (state r)) rs ∧ restore rs now = Ok (st_leases (state r')).
Proof.
  intros (_ & _ & _ & Hcov)%relay_saved_state%state_saved_ok Hst Hh.
  destruct (starts_found (covers last (st_leases (state r))) now r' (world r)) as (rs & t & Hc & Hres & _ & ->);
    [by apply Hcov|by intros ? [? _]|done|]. by exists rs.
Qed.

Lemma life_claims last r now r' : relay_saved (stored := stored) last r → starts now r' (world r) →
  persistence_healthy (state r) = true → ∀ id l, (st_leases (state r)).(leases) !! id = Some l →
  expired now (demote last l) = false →
  (st_leases (state r')).(leases) !! id = Some (demote last l).
Proof.
  intros Hr Hst Hh. destruct (starts_covered _ _ _ _ Hr Hst Hh) as (rs & Hc & Hres).
  by eapply restored_leases.
Qed.
End life.

(** ** On a disk *)

Section on_disk.
Context `{Digest} `{SerdeJson} `{!SerdeJsonLaw} `{TempfileLaws} `{!IterOrder TokenId Lease} `{Rustls}.
(** The state file, the environment, std's parser and quinn's endpoint. *)
Context (path : Path) (cert_path key_path : option Path) (development : option string)
  (Addr : Type) (parse : string → result Addr)
  (listen : ServerConfig → Addr → M FileWorld unit) (listening : M FileWorld unit).

Lemma bind_config_looking : looking (bind_config cert_path key_path development).
Proof.
  unfold bind_config, tls_server_config. destruct cert_path, key_path; try apply looking_fail.
  - unfold server_config_from_files. apply looking_bind; [apply looking_attempt, looking_read|intros ?].
    apply looking_bind; [apply looking_lift|intros ?].
    apply looking_bind; [apply looking_attempt, looking_read|intros ?].
    do 2 (apply looking_bind; [apply looking_lift|intros ?]).
    apply looking_bind; [apply looking_ensure|intros ?].
    apply looking_bind; [apply looking_lift|intros ?]. apply looking_lift.
  - case_bool_decide; [apply looking_lift|apply looking_fail].
Qed.

#[local] Instance file_startup : Startup FileWorld := {|
  SocketAddr := Addr;
  configure := on_disk (bind_config cert_path key_path development)
                 (looking_alone _ bind_config_looking);
  parse_socket_addr := parse;
  endpoint_server := listen;
  local_addr := listening;
|}.
#[local] Instance disk_store : Store FileWorld := file_store path.
#[local] Instance disk_crash : Crash FileWorld := file_crash path.

(** Sockets do not touch the state file. *)
Definition same_file (w w' : FileWorld) : Prop :=
  names (disk w') = names (disk w) ∧ durable (disk w') = durable (disk w).
Context `{!Network FileWorld} (bind_keeps : ∀ port w, same_file w (tcp_bind port w).2)
  (listen_keeps : ∀ config addr w, same_file w (listen config addr w).2)
  (listening_keeps : ∀ w, same_file w (listening w).2).
#[local] Instance disk_store_laws : StoreLaws FileWorld (file_stored path) :=
  file_store_laws path bind_keeps.
#[local] Instance disk_crash_laws : CrashLaws FileWorld (file_stored path) :=
  file_crash_laws path bind_keeps.

Lemma configure_looks w : looks (disk w) (configure w).1 (disk (configure w).2).
Proof. apply bind_config_looking; [apply disk_alone|apply surjective_pairing]. Qed.

#[local] Instance file_startup_laws : StartupLaws FileWorld (file_stored path).
Proof.
  split.
  - intros w w1 Hc. eapply looks_crash; [exact Hc|apply configure_looks].
  - intros P config addr w. destruct (listen_keeps config addr w) as [Hn Hd].
    apply file_stored_same; cbn; congruence.
  - intros P w. destruct (listening_keeps w) as [Hn Hd]. apply file_stored_same; cbn; congruence.
Qed.

Lemma disk_life_saved last r : relay_life (first_disk path) last r →
  relay_saved (stored := file_stored path) last r.
Proof.
  apply (life_saved (first_disk path)). intros now w t w1 Hw Hload.
  eapply first_start; [exact bind_keeps| |exact Hload]. eapply looks_first; [exact Hw|apply configure_looks].
Qed.

(** C2. The relay as it is run, over any number of crashes: from a disk without a
    state file, or with one of the former format, through any interleaving of its
    tasks, disk faults, kills, power failures and starts that fail, the relay is in
    a state that all its guarantees hold of.  If its storage was healthy when it
    died, the next relay holds every claim again under its identity, with its port,
    recovery key, former identities and source, unless the deadline it was saved
    with has passed: its own if its host had left, 300 seconds after the last
    successful write of the file, at [last], if its host was connected. *)
Theorem relay_survives_crashes last r : relay_life (first_disk path) last r →
  relay_reachable (stored := file_stored path) r ∧
  ∀ now r', starts now r' (world r) →
    relay_life (first_disk path) now r' ∧
    (persistence_healthy (state r) = true → ∀ id l, (st_leases (state r)).(leases) !! id = Some l →
       expired now (demote last l) = false →
       (st_leases (state r')).(leases) !! id = Some (demote last l)).
Proof.
  intros Hlife. pose proof (disk_life_saved last r Hlife) as Hr.
  split; [by eapply relay_saved_reachable|]. intros now r' Hst.
  split; [by eapply life_restart|]. by eapply life_claims.
Qed.
End on_disk.

(** ** A concrete life *)

Section witnesses.
#[local] Existing Instances first_32 gmap_order bit_json bit_json_law posix_tempfile posix_laws
  plain_rustls file_network.
#[local] Instance w_store : Store FileWorld := file_store w_path.
#[local] Instance w_crash : Crash FileWorld := file_crash w_path.
#[local] Instance w_startup : Startup FileWorld :=
  file_startup None None (Some "1"%string) unit (λ _, Ok tt) (λ _ _ w, (Ok tt, w)) (λ w, (Ok tt, w)).

Lemma ok_value {A} (x : result A * FileWorld) d : is_ok x.1 = true →
  x = (Ok (match x.1 with Ok a => a | Err _ => d end), x.2).
Proof. by destruct x as [[a|e] w]. Qed.

Definition w_idle : RelayServer FileWorld := RelayServer_new (new_state LeaseTable_new) w_disk.
Definition started (now : Z) (w : FileWorld) : RelayServer FileWorld :=
  match (main now w).1 with Ok r => r | Err _ => w_idle end.

(** The first start, a registration, a power failure, and the next start. *)
Definition w_relay0 : RelayServer FileWorld := started 0 w_disk.
Definition w_events : list (Event (W := FileWorld)) :=
  [ Incoming (w_ip x01);
    Resumed 0 (Received 7 (Ok (Some (Register Tcp 25565 w_token (sha256 (bytes_list w_secret))))));
    Resumed 0 (Locked 1000) ].
Definition w_relay1 : RelayServer FileWorld := default w_idle (run w_events w_relay0).
Definition w_relay2 : RelayServer FileWorld := started 2000 (power_cycle (world w_relay1)).

Lemma w_life0 : relay_life (first_disk w_path) 0 w_relay0.
Proof.
  apply (life_first _ 0 w_disk w_relay0 (main 0 w_disk).2).
  - split; [done|]. split; [constructor|]. by left.
  - apply ok_value. vm_compute. reflexivity.
Qed.

Fixpoint run_saved (evs : list (Event (W := FileWorld))) (r : RelayServer FileWorld) (last : Z) : Z :=
  match evs with
  | [] => last
  | ev :: evs => run_saved evs (default r (step ev r)) (event_saved ev r last)
  end.

Lemma run_life evs first last r r' : relay_life first last r → Forall (λ ev, 0 ≤ event_time ev) evs →
  run evs r = Some r' → relay_life first (run_saved evs r last) r'.
Proof.
  intros Hr Hev. revert last r Hr. induction Hev as [|ev evs Ht _ IH]; intros last r Hr; [by intros [= <-]|].
  rewrite run_cons. cbn [run_saved]. destruct (step ev r) as [r1|] eqn:Hs; [|done]. cbn. apply IH.
  by eapply life_event.
Qed.

Lemma w_life1 : relay_life (first_disk w_path) 1000 w_relay1.
Proof.
  assert (Ht : run_saved w_events w_relay0 0 = 1000) by (vm_compute; reflexivity). rewrite <- Ht.
  apply run_life; [apply w_life0|repeat constructor; cbn; lia|].
  apply some_default. vm_compute. reflexivity.
Qed.

Lemma w_starts : starts 2000 w_relay2 (world w_relay1).
Proof.
  apply (starts_up _ _ _ (power_cycle (world w_relay1)) (main 2000 (power_cycle (world w_relay1))).2).
  - apply power_cycle_crash.
  - apply ok_value. vm_compute. reflexivity.
Qed.

(** The connected host's claim is back, with 300 seconds from the registration. *)
Definition w_lease : Lease :=
  default {| Lease.port := 0; Lease.last_ip := None; Lease.retired_token_ids := [];
             Lease.recovery_id := None; Lease.status := Grace 0 |}
    ((st_leases (state w_relay1)).(leases) !! from_token w_token).

Lemma relay_survives_crashes_witness :
  relay_reachable (stored := file_stored w_path) w_relay1 ∧
  (st_leases (state w_relay2)).(leases) !! from_token w_token = Some (demote 1000 w_lease) ∧
  Lease.status w_lease = Active (MkSessionId 1) ∧ Lease.status (demote 1000 w_lease) = Grace 301000.
Proof.
  destruct (relay_survives_crashes w_path None None (Some "1"%string) unit (λ _, Ok tt)
    (λ _ _ w, (Ok tt, w)) (λ w, (Ok tt, w)) w_bind_keeps (λ _ _ _, conj eq_refl eq_refl)
    (λ _, conj eq_refl eq_refl) 1000 w_relay1 w_life1) as [Hr Hnext].
  split; [exact Hr|]. split; [|split; vm_compute; reflexivity].
  destruct (Hnext 2000 w_relay2 w_starts) as [_ Hc].
  apply Hc; [vm_compute; reflexivity|apply some_default; vm_compute; reflexivity|vm_compute; reflexivity].
Defined.

Example w_claim_back : Lease.port <$> (st_leases (state w_relay2)).(leases) !! from_token w_token = Some 10000.
Proof. vm_compute. reflexivity. Qed.
End witnesses.
