(* ===== verification/RegistryLife.v ===== *)
(** Ports over the whole life of the relay: what [RegistryRefines] shows of one
    event, over any number of events, kills, power failures and starts. *)

From Stdlib Require Import Strings.Byte.
From S2P Require Import Prelude Bytes HostAdmission LeaseTable LeaseFacts LeaseInv LeaseRestore.
From S2P Require Import Fs FsLogic FsAlone LeaseStore LeaseStoreFacts.
From S2P Require Import Protocol State StateFacts StateInv StateProps Restart FileStore.
From S2P Require Import Tunnel Crypto Relay RelayFacts RelayInv RelayProps CryptoProps RelayStart.
From S2P Require Import Registry RegistryRefines.

Section life.
Context `{Digest} `{!IterOrder TokenId Lease} {W : Type} `{StoreLaws W stored} `{!Crash W}
  `{!CrashLaws W stored} `{Rustls} `{!Startup W} `{!StartupLaws W stored}.
Implicit Types (r : RelayServer W).

Notation registry r := (registry_of (st_leases (state r))).

(** What is on the disk of a port: its term if its host has left, and the one it
    has if its host left when the file was last written, at [last]. *)
Definition saved_holding (last : Z) (h : Holding) : Holding :=
  {| owner := owner h; former := former h; key := key h;
     term := Some match term h with Some d => d | None => saturating_add_u64 last GRACE_MS end |}.

(** Nobody presents the owner's token or the secret of the key of port [p], and
    its term does not run out: events of every task, and the relay dying with a
    healthy storage and starting again before the term on the disk has run out. *)
Inductive untouched (p : Z) : Z → RelayServer W → Z → RelayServer W → Prop :=
  | untouched_refl last r : untouched p last r last r
  | untouched_event ev last r last1 r1 r' : untouched p last r last1 r1 → 0 ≤ event_time ev →
      step ev r1 = Some r' →
      (∀ h, registry r1 !! p = Some h → lapsed (event_time ev) h = false ∧ ∀ h', ¬ entitled ev r1 h h') →
      untouched p last r (event_saved ev r1 last1) r'
  | untouched_restart now last r last1 r1 r' : untouched p last r last1 r1 →
      persistence_healthy (state r1) = true → starts now r' (world r1) →
      (∀ h, registry r1 !! p = Some h → lapsed now (saved_holding last1 h) = false) →
      untouched p last r now r'.

Definition same_owner (h h' : Holding) : Prop :=
  owner h' = owner h ∧ ∀ k, key h = Some k → key h' = Some k.

Lemma holding_of_demote last id l : holding_of id (demote last l) = saved_holding last (holding_of id l).
Proof. unfold holding_of, saved_holding. cbn. by destruct (Lease.status l). Qed.

(** The relay that starts on what is left leases the port again, as it was saved. *)
Lemma restart_holding last now r r' p h : relay_saved (stored := stored) last r →
  persistence_healthy (state r) = true → starts now r' (world r) →
  registry r !! p = Some h → lapsed now (saved_holding last h) = false →
  registry r' !! p = Some (saved_holding last h).
Proof.
  intros Hr Hh Hst Hp Hl. destruct (starts_covered _ _ _ _ Hr Hst Hh) as (rs & Hc & Hres).
  pose proof (relay_saved_state _ _ Hr) as (Hinv & _)%state_saved_ok.
  apply registry_lookup in Hp as (id & l & Hid & <- & ->); [|apply wf_leases, Hinv].
  rewrite <- holding_of_demote in Hl |- *. rewrite holding_lapsed in Hl.
  apply (registry_holds _ _ (demote last l)); [by eapply wf_leases, restore_wf|].
  by eapply restored_leases.
Qed.

Lemma untouched_keeps p last r last' r' h : untouched p last r last' r' →
  relay_saved (stored := stored) last r → registry r !! p = Some h →
  relay_saved (stored := stored) last' r' ∧ ∃ h', registry r' !! p = Some h' ∧ same_owner h h'.
Proof.
  intros Hu Hr Hp.
  induction Hu as [last r|ev last r last1 r1 r' _ IH Ht Hstep Hq|now last r last1 r1 r' _ IH Hh Hst Hl].
  - split; [done|]. exists h. by split; [|split].
  - destruct (IH Hr Hp) as (Hr1 & h1 & Hp1 & Ho1 & Hk1). split; [by eapply rs_step|].
    destruct (Hq h1 Hp1) as [Hl Hent].
    destruct (event_keeps_port ev r1 r' p h1 (relay_saved_reachable _ _ Hr1) Ht Hstep Hp1 Hl) as (h' & Hp' & Hk' & Ho').
    exists h'. split; [done|]. destruct Ho' as [Ho'|Ho']; [|by destruct (Hent h')].
    split; [congruence|auto].
  - destruct (IH Hr Hp) as (Hr1 & h1 & Hp1 & Ho1 & Hk1). split; [by eapply starts_saved|].
    exists (saved_holding last1 h1). split; [by eapply restart_holding; auto|]. by split.
Qed.

(** C4. No port is ever stolen: over any number of events of every task, kills and
    power failures with a healthy storage, and starts, a leased port stays leased to
    its owner with its recovery key, as long as nobody presents the owner's token in
    a rotation or the key's secret in a recovery, and no event comes after its term
    and no start after the term on the disk, which for a connected host is 300
    seconds after the last successful write of the file. *)
Theorem port_never_stolen p last r last' r' h : relay_saved (stored := stored) last r →
  registry r !! p = Some h → untouched p last r last' r' →
  ∃ h', registry r' !! p = Some h' ∧ same_owner h h'.
Proof. intros Hr Hp Hu. by apply (untouched_keeps p last r last' r' h). Qed.
End life.

(** ** A concrete life *)

Section witnesses.
#[local] Existing Instances first_32 gmap_order bit_json bit_json_law posix_tempfile posix_laws
  plain_rustls file_network w_store w_crash w_startup.
#[local] Instance w_store_laws : StoreLaws FileWorld (file_stored w_path) := file_store_laws w_path w_bind_keeps.
#[local] Instance w_crash_laws : CrashLaws FileWorld (file_stored w_path) := file_crash_laws w_path w_bind_keeps.
#[local] Instance w_startup_laws : StartupLaws FileWorld (file_stored w_path) :=
  file_startup_laws w_path None None (Some "1"%string) unit (λ _, Ok tt) (λ _ _ w, (Ok tt, w))
    (λ w, (Ok tt, w)) (λ _ _ _, conj eq_refl eq_refl) (λ _, conj eq_refl eq_refl).

(** The registered relay of [RelayStart] loses power, starts again, and refreshes
    its file. *)
Definition w_refreshed : RelayServer FileWorld := default w_relay2 (step (RefreshTick 2500) w_relay2).
Definition w_held (r : RelayServer FileWorld) : Holding :=
  default {| owner := from_token w_token; former := []; key := None; term := None |}
    (registry_of (st_leases (state r)) !! 10000).

Lemma w_registered : relay_saved (stored := file_stored w_path) 1000 w_relay1.
Proof.
  exact (disk_life_saved w_path None None (Some "1"%string) unit (λ _, Ok tt) (λ _ _ w, (Ok tt, w))
    (λ w, (Ok tt, w)) w_bind_keeps (λ _ _ _, conj eq_refl eq_refl) (λ _, conj eq_refl eq_refl) 1000 w_relay1 w_life1).
Qed.

Lemma w_held1 : registry_of (st_leases (state w_relay1)) !! 10000 = Some (w_held w_relay1).
Proof. apply some_default. vm_compute. reflexivity. Qed.

Lemma w_kept : registry_of (st_leases (state w_relay2)) !! 10000 = Some (w_held w_relay2).
Proof. apply some_default. vm_compute. reflexivity. Qed.

Lemma w_untouched : untouched 10000 1000 w_relay1 2500 w_refreshed.
Proof.
  assert (Ht : event_saved (RefreshTick 2500) w_relay2 2000 = 2500) by (vm_compute; reflexivity).
  rewrite <- Ht. apply (untouched_event 10000 (RefreshTick 2500) 1000 w_relay1 2000 w_relay2 w_refreshed); [|cbn; lia| |].
  - apply (untouched_restart 10000 2000 1000 w_relay1 1000 w_relay1 w_relay2); [constructor| |apply w_starts|].
    + vm_compute. reflexivity.
    + intros h Hp. rewrite w_held1 in Hp. apply (inj Some) in Hp. rewrite <- Hp. vm_compute. reflexivity.
  - apply some_default. vm_compute. reflexivity.
  - intros h Hp. rewrite w_kept in Hp. apply (inj Some) in Hp. rewrite <- Hp.
    split; [vm_compute; reflexivity|].
    intros h' (i & now & task & ? & _). discriminate.
Qed.

(** The host was connected when the relay died; its term runs until 301000. *)
Lemma port_never_stolen_witness : term (w_held w_relay1) = None ∧
  term (saved_holding 1000 (w_held w_relay1)) = Some 301000 ∧
  ∃ h', registry_of (st_leases (state w_refreshed)) !! 10000 = Some h' ∧ same_owner (w_held w_relay1) h'.
Proof.
  split; [vm_compute; reflexivity|]. split; [vm_compute; reflexivity|].
  apply (port_never_stolen 10000 1000 w_relay1 2500 w_refreshed (w_held w_relay1) w_registered);
    [exact w_held1|exact w_untouched].
Defined.
End witnesses.
