(* ===== verification/Bridge.v ===== *)
(** The bridge between a player's TCP connection and a QUIC stream
    (crates/core/src/bridge.rs, and the callers in crates/server/src/bridge.rs and
    crates/cli/src/bridge.rs): two copies, polled in any order, joined. *)

From Stdlib Require Import Strings.Byte.
From S2P Require Import Prelude Bytes Message MessageFacts.

(** A duplex connection: its two halves, and the outcome of shutting the writing
    half down. *)
Record Duplex := { reading : Reader; writing : Writer; shutdown : result unit }.

(** One direction of the bridge, an [async] block: copying, done, or failed. *)
Inductive Phase := Copying | Done | Failed (e : error).

Record Half := {
  input : Reader;
  output : Writer;
  at_shutdown : result unit;
  half_closed : bool;
  phase : Phase;
}.

Inductive direction := ToQuic | ToTcp.
#[global] Instance direction_eq_dec : EqDecision direction.
Proof. solve_decision. Defined.

Record Bridge := { to_quic : Half; to_tcp : Half; outcome : option (result unit) }.

Section bridge.
(** The size of [tokio::io::copy]'s buffer. *)
Context (buffer : nat).

(** One poll of [copy(reader, writer).await?; writer.shutdown().await]. *)
Definition poll_half (h : Half) : Half :=
  match h.(phase) with
  | Done | Failed _ => h
  | Copying =>
      match read buffer h.(input) with
      | (Pending, r) => {| input := r; output := h.(output); at_shutdown := h.(at_shutdown);
                           half_closed := false; phase := Copying |}
      | (Ready (Err e), r) => {| input := r; output := h.(output); at_shutdown := h.(at_shutdown);
                                 half_closed := false; phase := Failed e |}
      | (Ready (Ok []), r) =>
          {| input := r; output := h.(output); at_shutdown := h.(at_shutdown);
             half_closed := is_ok h.(at_shutdown);
             phase := match h.(at_shutdown) with Ok _ => Done | Err e => Failed e end |}
      | (Ready (Ok bs), r) =>
          let '(res, w) := write_all bs h.(output) in
          {| input := r; output := w; at_shutdown := h.(at_shutdown); half_closed := false;
             phase := match res with Ok _ => Copying | Err e => Failed e end |}
      end
  end.

Definition start_half (from to : Duplex) : Half :=
  {| input := from.(reading); output := to.(writing); at_shutdown := to.(shutdown);
     half_closed := false; phase := Copying |}.

(** [copy_halves], before its first poll. *)
Definition copy_halves (tcp quic : Duplex) : Bridge :=
  {| to_quic := start_half tcp quic; to_tcp := start_half quic tcp; outcome := None |}.

(** [try_join!]: the first failure ends it and drops the other direction. *)
Definition joined (a b : Half) : option (result unit) :=
  match a.(phase), b.(phase) with
  | Failed e, _ | _, Failed e => Some (Err e)
  | Done, Done => Some (Ok tt)
  | _, _ => None
  end.

Definition poll_bridge (b : Bridge) (d : direction) : Bridge :=
  match b.(outcome) with
  | Some _ => b
  | None =>
      let q := if decide (d = ToQuic) then poll_half b.(to_quic) else b.(to_quic) in
      let t := if decide (d = ToTcp) then poll_half b.(to_tcp) else b.(to_tcp) in
      {| to_quic := q; to_tcp := t; outcome := joined q t |}
  end.
Definition run_bridge (b : Bridge) (polls : list direction) : Bridge := foldl poll_bridge b polls.

(** The relay's and the host's ends. *)
Definition bridge_tcp_to_quic (tcp quic : Duplex) : Bridge := copy_halves tcp quic.
Definition bridge_to_local (connect : Z → result Duplex) (quic : Duplex) (local_port : Z)
    : result Bridge :=
  tcp ← connect local_port;
  Ok (copy_halves tcp quic).

(** The task is cancelled ([JoinSet::abort_all]): what it holds is dropped where it
    is, unless it has ended. *)
Definition task_aborted : error := External "task was cancelled".
Definition abort_bridge (b : Bridge) : Bridge :=
  match b.(outcome) with
  | Some _ => b
  | None => {| to_quic := b.(to_quic); to_tcp := b.(to_tcp); outcome := Some (Err task_aborted) |}
  end.

(** ** Lemmas *)

Definition polls_of (d : direction) (polls : list direction) : nat := length (filter (.= d) polls).

(** What has gone through a half of the bytes [src] that reach it: it has passed
    on a prefix of what it read, all of it unless it failed; it is closed exactly
    when it is done, and then the input has ended and nothing is left of it. *)
Definition flow (src out0 : list byte) (h : Half) : Prop :=
  ∃ got passed, src = got ++ contents (input h) ∧ written (output h) = out0 ++ passed ∧
    passed `prefix_of` got ∧
    match phase h with
    | Copying => passed = got ∧ half_closed h = false
    | Done => passed = got ∧ half_closed h = true ∧ contents (input h) = [] ∧ behind (input h) = Eof
    | Failed _ => half_closed h = false
    end.
Definition half_ok (h0 h : Half) : Prop :=
  flow (contents (input h0)) (written (output h0)) h ∧ behind (input h) = behind (input h0).

Context (Hbuffer : (0 < buffer)%nat).

Lemma flow_start h : phase h = Copying → half_closed h = false →
  flow (contents (input h)) (written (output h)) h.
Proof. intros Hp Hc. exists [], []. rewrite Hp, app_nil_r. by split_and!. Qed.

Lemma half_ok_refl h : phase h = Copying → half_closed h = false → half_ok h h.
Proof. intros Hp Hc. split; [by apply flow_start|done]. Qed.

Lemma poll_half_behind h : behind (input (poll_half h)) = behind (input h).
Proof.
  unfold poll_half. destruct (phase h); [|done..].
  destruct (read_cases buffer (input h) Hbuffer) as [[_ ->]|(bs & r & -> & Hne & _ & _ & Hb)].
  - destruct (behind (input h)); done.
  - destruct bs as [|b bs]; [done|]. by destruct (write_all (b :: bs) (output h)).
Qed.

Lemma poll_half_flow src out0 h : flow src out0 h → flow src out0 (poll_half h).
Proof.
  intros Hok. unfold poll_half. destruct (phase h) eqn:Hp; [|done..].
  destruct Hok as (got & passed & Hg & Hw & _ & Hph). rewrite Hp in Hph. destruct Hph as [-> _].
  destruct (read_cases buffer (input h) Hbuffer) as [[Hc Hr]|(bs & r & Hr & Hne & _ & Hc & Hb')].
  - rewrite Hr. rewrite Hc in Hg.
    destruct (behind (input h)) eqn:E0; [destruct (at_shutdown h)|..];
      exists got, got; cbn; rewrite ?Hg; by split_and!.
  - rewrite Hr. destruct bs as [|b bs]; [done|].
    destruct (write_all_prefix (b :: bs) (output h)) as (k & Hwr & Hk).
    destruct (write_all (b :: bs) (output h)) as [res w]. cbn [fst snd] in Hwr, Hk.
    exists (got ++ b :: bs), (got ++ take k (b :: bs)). cbn [input output phase half_closed].
    rewrite Hg, Hc, Hwr, Hw, <- !app_assoc. split_and!; [done|done| |].
    + apply prefix_app, prefix_take.
    + destruct res; [|done]. split; [|done]. rewrite take_ge; [done|by apply Hk].
Qed.

Lemma poll_half_ok h0 h : half_ok h0 h → half_ok h0 (poll_half h).
Proof. intros [Hf Hb]. split; [by apply poll_half_flow|by rewrite poll_half_behind]. Qed.

(** Polls a half has had while nothing had ended the join. *)
Fixpoint poll_times (n : nat) (h : Half) : Half :=
  match n with O => h | S n => poll_half (poll_times n h) end.

Lemma poll_times_ok n h : phase h = Copying → half_closed h = false → half_ok h (poll_times n h).
Proof. intros Hp Hc. induction n as [|n IH]; [by apply half_ok_refl|by apply poll_half_ok]. Qed.

Definition count (d : direction) (polls : list direction) : nat := length (filter (λ d', d' = d) polls).

Lemma count_snoc d polls d' :
  count d (polls ++ [d']) = (count d polls + if decide (d' = d) then 1 else 0)%nat.
Proof.
  unfold count. rewrite filter_app, length_app, filter_cons. by case_decide.
Qed.

Lemma run_bridge_snoc b polls d : run_bridge b (polls ++ [d]) = poll_bridge (run_bridge b polls) d.
Proof. unfold run_bridge. by rewrite foldl_app. Qed.

(** Each half is what its own polls made it. *)
Lemma run_bridge_halves tcp quic polls : let b := run_bridge (copy_halves tcp quic) polls in
  ∃ m n, to_quic b = poll_times m (start_half tcp quic) ∧
    to_tcp b = poll_times n (start_half quic tcp) ∧
    outcome b = joined (to_quic b) (to_tcp b) ∧
    (m ≤ count ToQuic polls)%nat ∧ (n ≤ count ToTcp polls)%nat ∧
    (outcome b = None → m = count ToQuic polls ∧ n = count ToTcp polls).
Proof.
  cbn. induction polls as [|d polls IH] using rev_ind.
  - by exists 0%nat, 0%nat.
  - destruct IH as (m & n & Hq & Ht & Ho & Hm & Hn & Hnone). rewrite run_bridge_snoc, !count_snoc.
    set (b := run_bridge (copy_halves tcp quic) polls) in *. unfold poll_bridge.
    destruct (outcome b) as [r|] eqn:Eo.
    + exists m, n. rewrite Eo. split_and!; try done; lia.
    + destruct (Hnone eq_refl) as [-> ->]. destruct d; repeat case_decide; try done;
        cbn [to_quic to_tcp Bridge.outcome].
      * exists (S (count ToQuic polls)), (count ToTcp polls). rewrite Hq, Ht. split_and!; try done; lia.
      * exists (count ToQuic polls), (S (count ToTcp polls)). rewrite Hq, Ht. split_and!; try done; lia.
Qed.

(** ** Properties *)

(** The bridge neither loses, invents nor mixes bytes, and preserves
    half-closes: under every order of polls, each side has been sent a prefix of
    what the other side sent; a writing half is shut down only once the other
    side's input has ended and all of it has been passed on, and while one
    direction is done the other goes on with exactly its own polls; the bridge
    succeeds only when both directions have ended so, and otherwise ends only
    with a failure. *)
Theorem bridge_preserves_streams tcp quic polls :
  let b := run_bridge (copy_halves tcp quic) polls in
  half_ok (start_half tcp quic) (to_quic b) ∧ half_ok (start_half quic tcp) (to_tcp b) ∧
  (outcome b = Some (Ok tt) ↔ half_closed (to_quic b) = true ∧ half_closed (to_tcp b) = true) ∧
  (outcome b = None →
     to_quic b = poll_times (count ToQuic polls) (start_half tcp quic) ∧
     to_tcp b = poll_times (count ToTcp polls) (start_half quic tcp)) ∧
  (∀ e, outcome b = Some (Err e) → phase (to_quic b) = Failed e ∨ phase (to_tcp b) = Failed e).
Proof.
  destruct (run_bridge_halves tcp quic polls) as (m & n & Hq & Ht & Ho & _ & _ & Hnone). cbn in *.
  set (b := run_bridge (copy_halves tcp quic) polls) in *.
  assert (H1 : half_ok (start_half tcp quic) (to_quic b)) by (rewrite Hq; by apply poll_times_ok).
  assert (H2 : half_ok (start_half quic tcp) (to_tcp b)) by (rewrite Ht; by apply poll_times_ok).
  split_and!; [done|done| | |].
  - rewrite Ho. destruct H1 as [(? & ? & _ & _ & _ & H1) _], H2 as [(? & ? & _ & _ & _ & H2) _].
    unfold joined. destruct (phase (to_quic b)), (phase (to_tcp b)); destruct_and?; naive_solver congruence.
  - intros E. destruct (Hnone E) as [-> ->]. done.
  - intros e. rewrite Ho. unfold joined.
    destruct (phase (to_quic b)), (phase (to_tcp b)); naive_solver.
Qed.

(** A half whose ends are sound is done after a poll per byte and one more. *)
Definition sound (from to : Duplex) : Prop :=
  behind (reading from) = Eof ∧ capacity (writing to) = None ∧ is_ok (shutdown to) = true.

Lemma poll_half_sound h : capacity (output h) = None → is_ok (at_shutdown h) = true →
  behind (input h) = Eof → phase h = Copying →
  let h' := poll_half h in
  capacity (output h') = None ∧ at_shutdown h' = at_shutdown h ∧
  (phase h' = Done ∨
   phase h' = Copying ∧ (S (length (contents (input h'))) ≤ length (contents (input h)))%nat).
Proof.
  intros Hcap Hsh Heof Hp. cbn. unfold poll_half. rewrite Hp.
  destruct (read_cases buffer (input h) Hbuffer) as [[Hc Hr]|(bs & r & Hr & Hne & _ & Hc & Hb')].
  - rewrite Hr, Heof. destruct (at_shutdown h); [|done]. cbn. auto.
  - rewrite Hr. destruct bs as [|b bs]; [done|]. unfold write_all. rewrite Hcap. cbn.
    split_and!; [done|done|]. right. rewrite Hc, length_app. cbn. split; [done|lia].
Qed.

Lemma poll_times_sound n from to : sound from to →
  let h := poll_times n (start_half from to) in
  capacity (output h) = None ∧ at_shutdown h = shutdown to ∧
  (phase h = Done ∨
   phase h = Copying ∧ (n + length (contents (input h)) ≤ length (contents (reading from)))%nat).
Proof.
  intros (Heof & Hcap & Hsh). cbn. induction n as [|n IH]; [cbn; auto with lia|]. cbn [poll_times].
  destruct (poll_times_ok n (start_half from to)) as [_ Hb]; [done..|].
  set (h := poll_times n (start_half from to)) in *.
  destruct IH as (IH1 & IH2 & [IH|[IH Hlen]]).
  - unfold poll_half. rewrite IH. auto.
  - destruct (poll_half_sound h) as (E1 & E2 & E3); [done|by rewrite IH2|by rewrite Hb|done|].
    split_and!; [done|congruence|]. destruct E3 as [?|[? ?]]; [by left|right]. split; [done|lia].
Qed.

(** The bridge delivers everything: when both inputs end and both outputs
    take what they are given, every order of polls that keeps polling both
    directions finishes the bridge, after a poll per byte and one more each at
    the latest; each side has then been sent all of the other side's bytes and
    both writing halves are shut down. *)
Theorem bridge_completes tcp quic polls :
  sound tcp quic → sound quic tcp →
  (length (contents (reading tcp)) < count ToQuic polls)%nat →
  (length (contents (reading quic)) < count ToTcp polls)%nat →
  let b := run_bridge (copy_halves tcp quic) polls in
  outcome b = Some (Ok tt) ∧
  written (output (to_quic b)) = written (writing quic) ++ contents (reading tcp) ∧
  written (output (to_tcp b)) = written (writing tcp) ++ contents (reading quic) ∧
  half_closed (to_quic b) = true ∧ half_closed (to_tcp b) = true.
Proof.
  intros S1 S2 C1 C2. destruct (run_bridge_halves tcp quic polls) as (m & n & Hq & Ht & Ho & _ & _ & Hnone).
  cbn in *. set (b := run_bridge (copy_halves tcp quic) polls) in *.
  destruct (poll_times_sound m tcp quic S1) as (_ & _ & D1).
  destruct (poll_times_sound n quic tcp S2) as (_ & _ & D2). cbn in D1, D2.
  assert (O1 : half_ok (start_half tcp quic) (to_quic b)) by (rewrite Hq; by apply poll_times_ok).
  assert (O2 : half_ok (start_half quic tcp) (to_tcp b)) by (rewrite Ht; by apply poll_times_ok).
  rewrite <- Hq in D1. rewrite <- Ht in D2.
  assert (phase (to_quic b) = Done ∧ phase (to_tcp b) = Done) as [P1 P2].
  { destruct (outcome b) as [x|] eqn:E.
    - unfold joined in Ho. destruct D1 as [D1|[D1 _]], D2 as [D2|[D2 _]]; rewrite D1, D2 in Ho; done.
    - destruct (Hnone eq_refl) as [-> ->].
      destruct D1 as [D1|[_ D1]], D2 as [D2|[_ D2]]; try lia. done. }
  destruct O1 as [(g1 & p1 & G1 & W1 & _ & X1) _], O2 as [(g2 & p2 & G2 & W2 & _ & X2) _].
  rewrite P1 in X1. rewrite P2 in X2. destruct X1 as (-> & ? & R1 & _), X2 as (-> & ? & R2 & _).
  rewrite R1, app_nil_r in G1. rewrite R2, app_nil_r in G2. cbn in G1, G2, W1, W2. subst.
  rewrite Ho. unfold joined. rewrite P1, P2. by split_and!.
Qed.
End bridge.

(** ** Concrete instances *)

(** The player sends two pieces and stops; the server answers after that. *)
Definition w_tcp : Duplex :=
  {| reading := {| chunks := [[x01; x02]; [x03]]; behind := Eof |};
     writing := {| written := []; capacity := None |}; shutdown := Ok tt |}.
Definition w_quic : Duplex :=
  {| reading := {| chunks := [[x0a]]; behind := Eof |};
     writing := {| written := []; capacity := None |}; shutdown := Ok tt |}.
Definition w_polls : list direction := [ToQuic; ToQuic; ToTcp; ToQuic; ToQuic; ToTcp].

Lemma bridge_preserves_streams_witness :
  half_ok (start_half w_tcp w_quic) (to_quic (run_bridge 8 (copy_halves w_tcp w_quic) w_polls)) ∧
  outcome (run_bridge 8 (copy_halves w_tcp w_quic) w_polls) = Some (Ok tt).
Proof.
  destruct (bridge_preserves_streams 8 ltac:(lia) w_tcp w_quic w_polls) as (Hq & _ & Ho & _).
  split; [exact Hq|]. apply Ho. split; reflexivity.
Defined.

Lemma bridge_completes_witness :
  written (output (to_quic (run_bridge 8 (copy_halves w_tcp w_quic) w_polls))) = [x01; x02; x03].
Proof.
  apply (bridge_completes 8 ltac:(lia) w_tcp w_quic w_polls); try done; vm_compute; lia.
Defined.
