(* ===== verification/Play.v ===== *)
(** A player's connection from end to end: the relay's bridge
    (crates/server/src/bridge.rs, spawned by [Tunnel::accept_player]) and the
    host's (crates/cli/src/bridge.rs, spawned by [AgentTunnel::run]), joined by a
    stream of the QUIC connection between them. *)

From Stdlib Require Import Strings.Byte.
From S2P Require Import Prelude Bytes Message MessageFacts Bridge.

(** ** The stream between the bridges *)

(** A fresh end of a stream: how much it will take, and how finishing it ends. *)
Definition fresh_stream (capacity : option nat) (finish : result unit) : Duplex :=
  {| reading := {| chunks := []; behind := Open |};
     writing := {| written := []; capacity := capacity |}; shutdown := finish |}.

(** What has been written to the stream at one end; and whether that end has
    finished it, which the drop of a bridge's halves does as well, when it has ended
    or been cancelled. *)
Definition quic_out (b : Bridge) : list byte := written (output (to_quic b)).
Definition quic_over (b : Bridge) : bool :=
  half_closed (to_quic b) || match outcome b with Some _ => true | None => false end.
(** The same of the TCP connection: its other end sees the end of what it is sent
    once the writing half is shut down, or the connection is dropped. *)
Definition tcp_over (b : Bridge) : bool :=
  half_closed (to_tcp b) || match outcome b with Some _ => true | None => false end.

Definition feed (bs : list byte) (e : ReadEnd) (h : Half) : Half :=
  {| input := {| chunks := chunks (input h) ++ [bs]; behind := e |}; output := output h;
     at_shutdown := at_shutdown h; half_closed := half_closed h; phase := phase h |}.
Definition feed_tcp (bs : list byte) (e : ReadEnd) (b : Bridge) : Bridge :=
  {| to_quic := to_quic b; to_tcp := feed bs e (to_tcp b); outcome := outcome b |}.
Definition quic_behind (b : Bridge) : ReadEnd := behind (input (to_tcp b)).

(** Up to [k] more bytes of [out] arrive after the first [n]; its end arrives
    after all of them; or the connection is lost. *)
Definition carry (k n : nat) (out : list byte) (b : Bridge) : option (nat * Bridge) :=
  match quic_behind b with
  | Open => let bs := take k (drop n out) in Some (n + length bs, feed_tcp bs Open b)%nat
  | _ => None
  end.
Definition finish (n : nat) (out : list byte) (over : bool) (b : Bridge) : option Bridge :=
  match quic_behind b with
  | Open => if over && (n =? length out)%nat then Some (feed_tcp [] Eof b) else None
  | _ => None
  end.
Definition lose (kind : ErrorKind) (b : Bridge) : Bridge :=
  match quic_behind b with Open => feed_tcp [] (Fails kind) b | _ => b end.

(** ** A session *)

(** The host has not seen the stream; bridges it; or could not reach the game. *)
Inductive HostEnd := Waiting | Bridging (b : Bridge) | NoGame (e : error).

Definition host_out (h : HostEnd) : list byte :=
  match h with Bridging b => quic_out b | _ => [] end.
Definition host_over (h : HostEnd) : bool :=
  match h with Waiting => false | Bridging b => quic_over b | NoGame _ => true end.
Definition on_bridge (f : Bridge → Bridge) (h : HostEnd) : HostEnd :=
  match h with Bridging b => Bridging (f b) | _ => h end.

(** [up] and [down] bytes have arrived at the host and at the relay. *)
Record Session := {
  at_relay : Bridge;
  at_host : HostEnd;
  up : nat;
  down : nat;
  connected : bool;
}.

Inductive Happening :=
  | RelayPolls (d : direction)
  | HostAccepts
  | HostPolls (d : direction)
  | CarriesUp (k : nat)
  | CarriesDown (k : nat)
  | FinishesUp
  | FinishesDown
  | Loses (kind : ErrorKind)
  | RelayAborts
  | HostAborts.
#[global] Instance Happening_eq_dec : EqDecision Happening.
Proof. solve_decision. Defined.

Section play.
(** [copy]'s buffer, the game server's listener, and the host's end of the stream. *)
Context (buffer : nat) (connect : Z → result Duplex) (local_port : Z).
Context (host_quic : Duplex).

Definition set_relay (b : Bridge) (s : Session) : Session :=
  {| at_relay := b; at_host := at_host s; up := up s; down := down s; connected := connected s |}.
Definition set_host (h : HostEnd) (s : Session) : Session :=
  {| at_relay := at_relay s; at_host := h; up := up s; down := down s; connected := connected s |}.

(** The relay opens the stream and bridges it; the host is told by the first
    frame that is sent on it. *)
Definition start (tcp quic : Duplex) : Session :=
  {| at_relay := bridge_tcp_to_quic tcp quic; at_host := Waiting; up := 0; down := 0;
     connected := true |}.

(** quinn's [open_bi] does not notify the peer; using the stream does. *)
Definition visible (b : Bridge) : bool := negb (bool_decide (quic_out b = [])) || quic_over b.

(** [Tunnel::run] aborts its players' tasks when it ends for whatever reason, also
    while the connection is open; [AgentTunnel::run] closes the connection first. *)
Definition play (ev : Happening) (s : Session) : option Session :=
  match ev with
  | RelayPolls d => Some (set_relay (poll_bridge buffer (at_relay s) d) s)
  | HostPolls d => Some (set_host (on_bridge (λ b, poll_bridge buffer b d) (at_host s)) s)
  | HostAccepts =>
      match at_host s with
      | Waiting =>
          if connected s && visible (at_relay s)
          then Some (set_host match bridge_to_local connect host_quic local_port with
                              | Ok b => Bridging b
                              | Err e => NoGame e
                              end s)
          else None
      | _ => None
      end
  | CarriesUp k =>
      match at_host s with
      | Bridging b =>
          '(n, b) ← carry k (up s) (quic_out (at_relay s)) b;
          Some {| at_relay := at_relay s; at_host := Bridging b; up := n; down := down s;
                  connected := connected s |}
      | _ => None
      end
  | CarriesDown k =>
      '(n, b) ← carry k (down s) (host_out (at_host s)) (at_relay s);
      Some {| at_relay := b; at_host := at_host s; up := up s; down := n; connected := connected s |}
  | FinishesUp =>
      match at_host s with
      | Bridging b =>
          b ← finish (up s) (quic_out (at_relay s)) (quic_over (at_relay s)) b;
          Some (set_host (Bridging b) s)
      | _ => None
      end
  | FinishesDown =>
      b ← finish (down s) (host_out (at_host s)) (host_over (at_host s)) (at_relay s);
      Some (set_relay b s)
  | Loses kind =>
      Some {| at_relay := lose kind (at_relay s); at_host := on_bridge (lose kind) (at_host s);
              up := up s; down := down s; connected := false |}
  | RelayAborts => Some (set_relay (abort_bridge (at_relay s)) s)
  | HostAborts => if connected s then None else Some (set_host (on_bridge abort_bridge (at_host s)) s)
  end.

Definition plays (evs : list Happening) (s : Session) : option Session :=
  foldl (λ s ev, s ≫= play ev) (Some s) evs.

End play.

(** ** One bridge and the stream *)

Definition joined_ok (b : Bridge) : Prop :=
  outcome b = joined (to_quic b) (to_tcp b) ∨ outcome b = Some (Err task_aborted).

(** A bridge passes on what its TCP connection reads. *)
Definition sends (tcp : Reader) (b : Bridge) : Prop :=
  flow (contents tcp) [] (to_quic b) ∧ behind (input (to_quic b)) = behind tcp ∧ joined_ok b.

(** What it has written stays, and is final once the stream is over. *)
Definition grown (out : list byte) (over : bool) (out' : list byte) (over' : bool) : Prop :=
  out `prefix_of` out' ∧ (over = true → out' = out ∧ over' = true).

Lemma grown_refl out over : grown out over out over.
Proof. done. Qed.

(** The first [n] bytes of [out] have reached a bridge from the stream. *)
Definition arrives (n : nat) (out : list byte) (over : bool) (out0 : list byte) (b : Bridge) : Prop :=
  (n ≤ length out)%nat ∧ flow (take n out) out0 (to_tcp b) ∧
  (quic_behind b = Eof → n = length out ∧ over = true).

(** Before anything happened. *)
Lemma fresh_sends tcp cap fin : sends (reading tcp) (copy_halves tcp (fresh_stream cap fin)).
Proof.
  split_and!; [|done|by left]. exact (flow_start (start_half tcp (fresh_stream cap fin)) eq_refl eq_refl).
Qed.
Lemma fresh_arrives tcp cap fin out over :
  arrives 0 out over (written (writing tcp)) (copy_halves tcp (fresh_stream cap fin)).
Proof.
  split_and!; [lia| |done]. exact (flow_start (start_half (fresh_stream cap fin) tcp) eq_refl eq_refl).
Qed.

Lemma arrives_grown n out over out' over' out0 b : grown out over out' over' →
  arrives n out over out0 b → arrives n out' over' out0 b.
Proof.
  intros [[k ->] Hover] (Hn & Hf & He). split; [rewrite length_app; lia|]. split.
  - by rewrite take_app_le.
  - intros Hb. destruct (He Hb) as [-> Ho]. destruct (Hover Ho) as [Hk ->]. by rewrite Hk.
Qed.

(** What the stream does to a bridge leaves its own sending alone. *)
Definition fed (b b' : Bridge) : Prop :=
  to_quic b' = to_quic b ∧ outcome b' = outcome b ∧ phase (to_tcp b') = phase (to_tcp b).

Lemma carry_fed k n out b n' b' : carry k n out b = Some (n', b') → fed b b'.
Proof. unfold carry. destruct (quic_behind b); [done..|]. by intros [= <- <-]. Qed.
Lemma finish_fed n out over b b' : finish n out over b = Some b' → fed b b'.
Proof. unfold finish. destruct (quic_behind b); [done..|]. case_match; [|done]. by intros [= <-]. Qed.
Lemma lose_fed kind b : fed b (lose kind b).
Proof. unfold lose. by destruct (quic_behind b). Qed.

Lemma fed_sends tcp b b' : fed b b' → sends tcp b → sends tcp b'.
Proof.
  intros (Hq & Ho & Hp) (Hf & Hb & Hj). unfold sends, joined_ok, joined in *. by rewrite Hq, Ho, Hp.
Qed.
Lemma fed_out b b' : fed b b' → quic_out b' = quic_out b ∧ quic_over b' = quic_over b.
Proof. intros (Hq & Ho & _). unfold quic_out, quic_over. by rewrite Hq, Ho. Qed.

Lemma flow_feed src bs e out0 h : behind (input h) = Open → flow src out0 h →
  flow (src ++ bs) out0 (feed bs e h).
Proof.
  intros Ho (got & passed & Hg & Hw & Hp & Hph). exists got, passed. unfold feed, contents in *. cbn.
  rewrite Hg, concat_app. cbn. rewrite app_nil_r, app_assoc. split_and!; try done.
  destruct (phase h); [done| |done]. destruct_and!. congruence.
Qed.

Lemma arrives_carry k n n' out over out0 b b' : carry k n out b = Some (n', b') →
  arrives n out over out0 b → arrives n' out over out0 b'.
Proof.
  unfold carry. destruct (quic_behind b) eqn:Ho; [done|done|]. intros [= <- <-] (Hn & Hf & _).
  split; [rewrite length_take, length_drop; lia|]. split; [|done]. cbn.
  apply (flow_feed _ (take k (drop n out)) Open) in Hf; [|done].
  rewrite take_take_drop in Hf. rewrite length_take, length_drop.
  destruct (decide (k ≤ length out - n)%nat).
  - by rewrite Nat.min_l by lia.
  - rewrite Nat.min_r, take_ge by lia. by rewrite take_ge in Hf by lia.
Qed.

Lemma arrives_finish n out over out0 b b' : finish n out over b = Some b' →
  arrives n out over out0 b → arrives n out over out0 b'.
Proof.
  unfold finish. destruct (quic_behind b) eqn:Ho; [done|done|]. destruct over; [|done]. cbn.
  destruct (Nat.eqb_spec n (length out)); [|done]. intros [= <-] (Hn & Hf & _). split; [done|]. split; [|done].
  cbn. rewrite <- (app_nil_r (take n out)). by apply flow_feed.
Qed.

Lemma arrives_lose kind n out over out0 b : arrives n out over out0 b →
  arrives n out over out0 (lose kind b).
Proof.
  intros (Hn & Hf & He). unfold lose. destruct (quic_behind b) eqn:Ho; try (by split_and!; rewrite ?Ho).
  split; [done|]. split; [|done]. cbn. rewrite <- (app_nil_r (take n out)). by apply flow_feed.
Qed.

(** What a cancellation leaves. *)
Lemma abort_halves b : to_quic (abort_bridge b) = to_quic b ∧ to_tcp (abort_bridge b) = to_tcp b.
Proof. unfold abort_bridge. by destruct (outcome b). Qed.

Lemma abort_over b : quic_over (abort_bridge b) = true.
Proof. unfold abort_bridge, quic_over. destruct (outcome b) eqn:E; cbn; [rewrite E|]; by rewrite orb_true_r. Qed.

Lemma abort_sends tcp b : sends tcp b → sends tcp (abort_bridge b).
Proof.
  intros (Hf & Hb & Hj). destruct (abort_halves b) as [Hq _]. unfold sends. rewrite Hq. split_and!; [done..|].
  unfold joined_ok, abort_bridge in *. destruct (outcome b) eqn:E; [by rewrite E|by right].
Qed.

Lemma abort_grown b : grown (quic_out b) (quic_over b) (quic_out (abort_bridge b)) (quic_over (abort_bridge b)).
Proof. unfold grown, quic_out. by rewrite (proj1 (abort_halves b)), abort_over. Qed.

Lemma arrives_abort n out over out0 b : arrives n out over out0 b → arrives n out over out0 (abort_bridge b).
Proof. unfold arrives, quic_behind. by rewrite (proj2 (abort_halves b)). Qed.

Section polls.
Context (buffer : nat) (Hbuffer : (0 < buffer)%nat).

Lemma poll_joined b d : joined_ok b → joined_ok (poll_bridge buffer b d).
Proof. unfold joined_ok, poll_bridge. destruct (outcome b) eqn:E; [by rewrite E|]. intros _. by left. Qed.

Lemma poll_keeps b d (Q : Half → Prop) : (∀ h, Q h → Q (poll_half buffer h)) →
  (Q (to_quic b) → Q (to_quic (poll_bridge buffer b d))) ∧
  (Q (to_tcp b) → Q (to_tcp (poll_bridge buffer b d))).
Proof.
  intros HQ. unfold poll_bridge. destruct (outcome b); [by split|]. cbn. split; case_decide; auto.
Qed.

Lemma poll_sends tcp b d : sends tcp b → sends tcp (poll_bridge buffer b d).
Proof.
  intros (Hf & Hb & Hj). split_and!; [| |by apply poll_joined].
  - revert Hf. apply (poll_keeps b d (flow (contents tcp) [])). by apply poll_half_flow.
  - revert Hb. apply (poll_keeps b d (λ h, behind (input h) = behind tcp)).
    intros h Hh. by rewrite poll_half_behind.
Qed.

Lemma poll_half_grows h : written (output h) `prefix_of` written (output (poll_half buffer h)).
Proof.
  unfold poll_half. destruct (phase h); [|done..].
  destruct (read_cases buffer (input h) Hbuffer) as [[_ ->]|(bs & r & -> & Hne & _)].
  - by destruct (behind (input h)).
  - destruct bs as [|x bs]; [done|]. destruct (write_all_prefix (x :: bs) (output h)) as (k & Hw & _).
    destruct (write_all _ _) as [res w]. cbn in *. rewrite Hw. by apply prefix_app_r.
Qed.

Lemma poll_grown tcp b d : sends tcp b →
  grown (quic_out b) (quic_over b) (quic_out (poll_bridge buffer b d)) (quic_over (poll_bridge buffer b d)).
Proof.
  intros [(got & passed & _ & _ & _ & Hph) _]. unfold grown, quic_out, quic_over, poll_bridge.
  destruct (outcome b) eqn:Eo; [by rewrite Eo; auto|]. cbn. rewrite orb_false_r. case_decide.
  - split; [apply poll_half_grows|]. intros Hc. rewrite Hc in Hph. unfold poll_half.
    destruct (phase (to_quic b)); destruct_and?; try done. by rewrite Hc.
  - split; [done|]. by intros ->.
Qed.

Lemma arrives_poll n out over out0 b d : arrives n out over out0 b →
  arrives n out over out0 (poll_bridge buffer b d).
Proof.
  intros (Hn & Hf & He). split; [done|]. split.
  - revert Hf. apply (poll_keeps b d (flow _ out0)). by apply poll_half_flow.
  - intros Hb. apply He. unfold quic_behind in *. rewrite <- Hb. symmetry.
    apply (poll_keeps b d (λ h, behind (input h) = behind (input (to_tcp b)))); [|done].
    intros h Hh. by rewrite poll_half_behind.
Qed.
End polls.
