(* ===== verification/PlayProps.v ===== *)
(** The properties of a player's connection from end to end. *)

From Stdlib Require Import Strings.Byte.
From S2P Require Import Prelude Bytes Message MessageFacts Bridge Play.

Lemma joined_done b : joined_ok b → outcome b = Some (Ok tt) → phase (to_quic b) = Done ∧ phase (to_tcp b) = Done.
Proof.
  unfold joined_ok, joined. intros [->| ->]; [|done]. by destruct (phase (to_quic b)), (phase (to_tcp b)).
Qed.

Lemma done_closed src out0 h : flow src out0 h → phase h = Done → half_closed h = true.
Proof. intros (got & passed & _ & _ & _ & Hph) Hp. rewrite Hp in Hph. apply Hph. Qed.

Section play.
Context (buffer : nat) (connect : Z → result Duplex) (local_port : Z) (Hbuffer : (0 < buffer)%nat).
(** The player's connection and the relay's end of the stream; the host's end and
    the game server's connection. *)
Context (tcp : Duplex) (relay_capacity : option nat) (relay_finish : result unit).
Context (game : Duplex) (host_capacity : option nat) (host_finish : result unit).
Context (Hgame : connect local_port = Ok game).
Implicit Types (s : Session) (b : Bridge).

Notation play := (play buffer connect local_port (fresh_stream host_capacity host_finish)).
Notation plays := (plays buffer connect local_port (fresh_stream host_capacity host_finish)).
Notation start := (start tcp (fresh_stream relay_capacity relay_finish)).

Record session_ok s : Prop := {
  relay_sends : sends (reading tcp) (at_relay s);
  relay_gets : arrives (down s) (host_out (at_host s)) (host_over (at_host s))
                 (written (writing tcp)) (at_relay s);
  host_ok : match at_host s with
            | Bridging b => sends (reading game) b ∧
                arrives (up s) (quic_out (at_relay s)) (quic_over (at_relay s)) (written (writing game)) b
            | Waiting => up s = 0%nat
            | NoGame _ => False
            end;
}.

Lemma session_start_ok : session_ok start.
Proof.
  split; [apply fresh_sends|apply fresh_arrives|done].
Qed.

Lemma play_ok ev s s' : session_ok s → play ev s = Some s' → session_ok s'.
Proof.
  intros [Hs Hg Hh]. destruct ev as [d| |d|k|k| | |kind| |]; cbn [Play.play].
  - intros [= <-]. pose proof (poll_grown buffer Hbuffer _ _ d Hs) as Hgr. split; cbn.
    + by apply poll_sends.
    + by apply arrives_poll.
    + destruct (at_host s); [done| |done]. destruct Hh as [Hh1 Hh2]. split; [done|].
      by eapply arrives_grown.
  - destruct (at_host s) as [| |] eqn:Eh; [|done..]. destruct (_ && _); [|done].
    unfold bridge_to_local. rewrite Hgame. intros [= <-]. split; cbn in *; rewrite ?Hh.
    + done.
    + eapply arrives_grown; [|exact Hg]. by split; [apply prefix_nil|].
    + split; [apply fresh_sends|apply fresh_arrives].
  - intros [= <-]. split; cbn; [done| |].
    + destruct (at_host s) as [|b|]; cbn; [done| |done]. destruct Hh as [Hh _].
      eapply arrives_grown; [by eapply poll_grown|done].
    + destruct (at_host s) as [|b|]; cbn; [done| |done]. destruct Hh as [Hh1 Hh2].
      split; [by apply poll_sends|by apply arrives_poll].
  - destruct (at_host s) as [|b|] eqn:Eh; [done| |done]. destruct Hh as [Hh1 Hh2].
    destruct (carry _ _ _ _) as [[n b']|] eqn:Ec; [|done]. intros [= <-].
    pose proof (carry_fed _ _ _ _ _ _ Ec) as Hfed. destruct (fed_out _ _ Hfed) as [Hq Ho].
    split; cbn in *; [done|by rewrite Hq, Ho|]. split; [by eapply fed_sends|by eapply arrives_carry].
  - destruct (carry _ _ _ _) as [[n b']|] eqn:Ec; [|done]. intros [= <-].
    pose proof (carry_fed _ _ _ _ _ _ Ec) as Hfed. destruct (fed_out _ _ Hfed) as [Hq Ho].
    split; cbn; [by eapply fed_sends|by eapply arrives_carry|by rewrite Hq, Ho].
  - destruct (at_host s) as [|b|] eqn:Eh; [done| |done]. destruct Hh as [Hh1 Hh2].
    destruct (finish _ _ _ _) as [b'|] eqn:Ec; [|done]. intros [= <-].
    pose proof (finish_fed _ _ _ _ _ Ec) as Hfed. destruct (fed_out _ _ Hfed) as [Hq Ho].
    split; cbn in *; [done|by rewrite Hq, Ho|]. split; [by eapply fed_sends|by eapply arrives_finish].
  - destruct (finish _ _ _ _) as [b'|] eqn:Ec; [|done]. intros [= <-].
    pose proof (finish_fed _ _ _ _ _ Ec) as Hfed. destruct (fed_out _ _ Hfed) as [Hq Ho].
    split; cbn; [by eapply fed_sends|by eapply arrives_finish|by rewrite Hq, Ho].
  - intros [= <-]. pose proof (lose_fed kind (at_relay s)) as Hfed. destruct (fed_out _ _ Hfed) as [Hq Ho].
    split; cbn; [by eapply fed_sends| |].
    + apply arrives_lose. destruct (at_host s) as [|b|]; cbn in *; [done| |done].
      pose proof (lose_fed kind b) as Hfedb. destruct (fed_out _ _ Hfedb) as [-> ->]. done.
    + destruct (at_host s) as [|b|]; cbn; [done| |done]. destruct Hh as [Hh1 Hh2].
      rewrite Hq, Ho. split; [eapply fed_sends; [apply lose_fed|done]|by apply arrives_lose].
  - intros [= <-]. split; cbn; [by apply abort_sends|by apply arrives_abort|].
    destruct (at_host s) as [|b|]; [done| |done]. destruct Hh as [Hh1 Hh2]. split; [done|].
    eapply arrives_grown; [apply abort_grown|done].
  - destruct (connected s); [done|]. intros [= <-]. split; cbn; [done| |].
    + destruct (at_host s) as [|b|]; cbn in *; [done| |done]. eapply arrives_grown; [apply abort_grown|done].
    + destruct (at_host s) as [|b|]; cbn; [done| |done]. destruct Hh as [Hh1 Hh2].
      split; [by apply abort_sends|by apply arrives_abort].
Qed.

Lemma plays_snoc evs ev s : plays (evs ++ [ev]) s = plays evs s ≫= play ev.
Proof. unfold Play.plays. by rewrite foldl_app. Qed.

Lemma plays_ok evs s : plays evs start = Some s → session_ok s.
Proof.
  revert s. induction evs as [|ev evs IH] using rev_ind; intros s; [intros [= <-]; apply session_start_ok|].
  rewrite plays_snoc. destruct (plays evs start) as [s0|] eqn:E; [|done]. cbn. apply play_ok. by apply IH.
Qed.

(** What goes from a sending bridge over the stream through the other one. *)
Lemma lane_ok tcp_in from n out0 b : sends tcp_in from →
  arrives n (quic_out from) (quic_over from) out0 b → ∃ passed,
    written (output (to_tcp b)) = out0 ++ passed ∧ passed `prefix_of` contents tcp_in ∧
    (half_closed (to_tcp b) = true →
       passed = contents tcp_in ∧ behind tcp_in = Eof ∨ ∃ e, outcome from = Some (Err e)).
Proof.
  intros ((got & passed & Hg & Hw & Hpre & Hph) & Hb & Hj) (Hn & (got' & passed' & Hg' & Hw' & Hpre' & Hph') & He).
  exists passed'. split; [done|]. cbn in Hw. unfold quic_out in *. rewrite Hw in *. split.
  - transitivity got'; [done|]. transitivity (take n passed); [rewrite Hg'; by apply prefix_app_r|].
    transitivity passed; [apply prefix_take|]. rewrite Hg. by apply prefix_app_r.
  - intros Hc. rewrite Hc in Hph'. destruct (phase (to_tcp b)); destruct_and?; try done. subst passed'.
    destruct He as [-> Ho]; [done|]. rewrite take_ge in Hg' by done.
    destruct Hj as [Hj|Hj]; [|right; eauto]. unfold quic_over, joined in *. rewrite Hj in *.
    destruct (phase (to_quic from)); destruct_and?; [right| |eauto].
    + destruct (phase (to_tcp from)); rewrite ?H2 in Ho; [done..|eauto].
    + left. split; [|congruence].
      repeat match goal with H : contents _ = [] |- _ => rewrite H, app_nil_r in * end. congruence.
Qed.

(** The TCP connection of a bridge is at its end when its writing half is closed, or
    the bridge has failed or been cancelled. *)
Lemma over_closed src out0 b : flow src out0 (to_tcp b) → joined_ok b → tcp_over b = true →
  half_closed (to_tcp b) = true ∨ ∃ e, outcome b = Some (Err e).
Proof.
  intros Hf Hj [?|Ho]%orb_true_iff; [by left|]. destruct (outcome b) as [[[]|e]|] eqn:E; [left|right; eauto|done].
  eapply done_closed; [exact Hf|]. by apply joined_done.
Qed.

(** What a session has delivered. *)
Definition delivered s b : Prop := ∃ requests replies,
  written (output (to_tcp b)) = written (writing game) ++ requests ∧
  written (output (to_tcp (at_relay s))) = written (writing tcp) ++ replies ∧
  requests `prefix_of` contents (reading tcp) ∧ replies `prefix_of` contents (reading game) ∧
  (half_closed (to_tcp b) = true → requests = contents (reading tcp) ∧ behind (reading tcp) = Eof ∨
     ∃ e, outcome (at_relay s) = Some (Err e)) ∧
  (half_closed (to_tcp (at_relay s)) = true →
     replies = contents (reading game) ∧ behind (reading game) = Eof ∨ ∃ e, outcome b = Some (Err e)) ∧
  (tcp_over b = true → requests = contents (reading tcp) ∧ behind (reading tcp) = Eof ∨
     ∃ e, outcome (at_relay s) = Some (Err e) ∨ outcome b = Some (Err e)) ∧
  (tcp_over (at_relay s) = true → replies = contents (reading game) ∧ behind (reading game) = Eof ∨
     ∃ e, outcome (at_relay s) = Some (Err e) ∨ outcome b = Some (Err e)) ∧
  (outcome (at_relay s) = Some (Ok tt) → outcome b = Some (Ok tt) →
     requests = contents (reading tcp) ∧ replies = contents (reading game)).

Lemma session_delivers s b : session_ok s → at_host s = Bridging b → delivered s b.
Proof.
  intros [Hs Hg Hh] Eb. rewrite Eb in *. destruct Hh as [Hh1 Hh2]. cbn in Hg.
  destruct (lane_ok _ _ _ _ _ Hs Hh2) as (requests & Hr & Hrp & Hre).
  destruct (lane_ok _ _ _ _ _ Hh1 Hg) as (replies & Hp & Hpp & Hpe).
  exists requests, replies. split_and!; [done..| | |].
  { intros [Hc|[e He]]%(over_closed _ _ _ (proj1 (proj2 Hh2)) (proj2 (proj2 Hh1))); [|by eauto].
    destruct (Hre Hc) as [?|[e ?]]; eauto. }
  { intros [Hc|[e He]]%(over_closed _ _ _ (proj1 (proj2 Hg)) (proj2 (proj2 Hs))); [|by eauto].
    destruct (Hpe Hc) as [?|[e ?]]; eauto. }
  intros Ho Ho'.
  pose proof (joined_done _ (proj2 (proj2 Hs)) Ho) as Hd. pose proof (joined_done _ (proj2 (proj2 Hh1)) Ho') as Hd'.
  pose proof (done_closed _ _ _ (proj1 (proj2 Hh2)) (proj2 Hd')). pose proof (done_closed _ _ _ (proj1 (proj2 Hg)) (proj2 Hd)).
  destruct Hre as [[? _]|[? ?]], Hpe as [[? _]|[? ?]]; try done; congruence.
Qed.

(** C16. A player's connection from end to end: under every interleaving of the
    two bridges' polls and the stream between them, with failures of either
    connection and of the link at any point, and with either program cancelling its
    bridges, the relay also while the connection is open, the game server has been
    sent a prefix of the player's bytes and the player a prefix of the server's.  A
    writing half is shut down only when the other side has ended and every byte of
    it has been passed on, or the bridge at the other end failed or was cancelled; a
    side sees an end of any kind, the drop of its connection included, only then or
    when the bridge at its own end failed or was cancelled; and if both bridges
    succeed, everything was delivered both ways. *)
Theorem play_preserves_streams evs s b : plays evs start = Some s → at_host s = Bridging b →
  delivered s b.
Proof. intros Hs%plays_ok. by apply session_delivers. Qed.

(** ** A player that waits for the game server to speak first *)

Definition idle (h : Half) : Prop :=
  contents (input h) = [] ∧ behind (input h) = Open ∧ phase h = Copying ∧ half_closed h = false.

Lemma poll_half_idle out h : idle h ∧ written (output h) = out →
  idle (poll_half buffer h) ∧ written (output (poll_half buffer h)) = out.
Proof.
  intros [(Hc & Hb & Hp & Hh) Hw]. unfold poll_half. rewrite Hp.
  destruct (read_cases buffer (input h) Hbuffer) as [[_ ->]|(bs & r & _ & Hne & _ & Hc' & _)].
  - rewrite Hb. by split_and!.
  - rewrite Hc in Hc'. by destruct bs.
Qed.

Definition silent b : Prop := outcome b = None ∧ (idle (to_quic b) ∧ quic_out b = []) ∧ idle (to_tcp b).

Lemma joined_idle (h h' : Half) : idle h → idle h' → joined h h' = None.
Proof. intros (_ & _ & Hp & _) (_ & _ & Hp' & _). unfold joined. by rewrite Hp, Hp'. Qed.

Lemma poll_silent b d : silent b → silent (poll_bridge buffer b d).
Proof.
  intros (Ho & Hq & Ht). destruct (poll_half_idle _ _ Hq) as [Hq1 Hq2].
  destruct (poll_half_idle _ _ (conj Ht eq_refl)) as [Ht1 _]. destruct Hq as [Hq Hout].
  unfold silent, quic_out, poll_bridge in *. rewrite Ho. cbn.
  destruct d; cbn; split_and!; auto using joined_idle.
Qed.

Lemma carry_silent k n b n' b' : carry k n [] b = Some (n', b') → silent b → silent b'.
Proof.
  unfold carry. rewrite drop_nil, take_nil. destruct (quic_behind b); [done..|].
  intros [= <- <-] (Ho & Hq & (Hc & _ & Hp & Hh)). split; [exact Ho|]. split; [exact Hq|].
  unfold idle, contents in *. cbn. by rewrite concat_app, Hc.
Qed.

(** C40. A player that waits for the game server to speak first is never served:
    while it keeps its connection open and sends nothing, no schedule of the
    bridges and the link lets the host learn of the stream, so the game server is
    not even connected to; unless the relay ends the tunnel and with it the
    player's bridge. *)
Theorem silent_player_waits evs s : contents (reading tcp) = [] → behind (reading tcp) = Open →
  plays evs start = Some s → at_host s = Waiting ∨ RelayAborts ∈ evs.
Proof.
  intros Hc Hb Hs. destruct (decide (RelayAborts ∈ evs)) as [?|Hno]; [by right|left].
  enough (at_host s = Waiting ∧ (connected s = true → silent (at_relay s))) by by destruct_and!.
  revert s Hno Hs. induction evs as [|ev evs IH] using rev_ind; intros s; [by intros _ [= <-]|].
  rewrite plays_snoc, not_elem_of_app, list_elem_of_singleton. intros [Hno Hev].
  destruct (plays evs start) as [s0|]; [|done]. specialize (IH s0 Hno eq_refl) as [Hw Hidle].
  cbn [mbind option_bind]. destruct ev as [d| |d|k|k| | |kind| |]; cbn [Play.play]; rewrite ?Hw; try done.
  - intros [= <-]. split; [done|]. intros Hcon. by apply poll_silent, Hidle.
  - destruct (connected s0) eqn:Hcon; [|done]. destruct (Hidle eq_refl) as (Ho & [(_ & _ & _ & Hh) Hq] & _).
    unfold visible, quic_over. by rewrite Hq, Hh, Ho.
  - intros [= <-]. split; [done|]. intros Hcon. by apply Hidle.
  - cbn. destruct (carry _ _ _ _) as [[n b']|] eqn:E; [|done]. intros [= <-]. split; [done|].
    intros Hcon. eapply carry_silent; [exact E|by apply Hidle].
  - unfold finish. by destruct (quic_behind (at_relay s0)).
  - intros [= <-]. cbn. by split; rewrite ?Hw.
  - destruct (connected s0) eqn:Hcon; [done|]. intros [= <-]. split; [done|]. cbn. congruence.
Qed.

(** ** Without failures *)

Definition sound_half (h : Half) : Prop :=
  capacity (output h) = None ∧ is_ok (at_shutdown h) = true ∧
  (∀ k, behind (input h) ≠ Fails k) ∧ (∀ e, phase h ≠ Failed e).
Definition sound_bridge b : Prop :=
  sound_half (to_quic b) ∧ sound_half (to_tcp b) ∧ outcome b = joined (to_quic b) (to_tcp b).
Definition sound_session s : Prop :=
  connected s = true ∧ sound_bridge (at_relay s) ∧
  match at_host s with Bridging b => sound_bridge b | _ => True end.

Lemma sound_half_poll h : sound_half h → sound_half (poll_half buffer h).
Proof.
  intros (Hc & Ha & Hb & Hp). unfold sound_half. rewrite poll_half_behind by done.
  unfold poll_half. destruct (phase h) eqn:Ep; [|by rewrite Ep|by destruct (Hp e)].
  destruct (read_cases buffer (input h) Hbuffer) as [[_ ->]|(bs & r & -> & _)].
  - destruct (behind (input h)) eqn:Eb; [|by destruct (Hb kind)|by split_and!].
    destruct (at_shutdown h); [by split_and!|done].
  - destruct bs as [|x bs]; [|unfold write_all; rewrite Hc; by split_and!].
    destruct (at_shutdown h); [by split_and!|done].
Qed.

Lemma sound_poll b d : sound_bridge b → sound_bridge (poll_bridge buffer b d).
Proof.
  intros (Hq & Ht & Hj). destruct (poll_keeps buffer b d _ sound_half_poll) as [Hq' Ht'].
  split_and!; [by apply Hq'|by apply Ht'|]. unfold poll_bridge. by destruct (outcome b) eqn:E; [rewrite E|].
Qed.

Lemma sound_feed bs e b : (∀ k, e ≠ Fails k) → sound_bridge b → sound_bridge (feed_tcp bs e b).
Proof. intros He (Hq & (Hc & Ha & Hb & Hp) & Hj). by split_and!. Qed.

Lemma sound_carry k n out b n' b' : carry k n out b = Some (n', b') → sound_bridge b → sound_bridge b'.
Proof. unfold carry. destruct (quic_behind b); [done..|]. intros [= <- <-]. by apply sound_feed. Qed.

Lemma sound_finish n out over b b' : finish n out over b = Some b' → sound_bridge b → sound_bridge b'.
Proof. unfold finish. destruct (quic_behind b); [done..|]. case_match; [|done]. intros [= <-]. by apply sound_feed. Qed.

(** A connection that ends, and takes what it is sent. *)
Definition willing (d : Duplex) : Prop :=
  behind (reading d) = Eof ∧ capacity (writing d) = None ∧ is_ok (shutdown d) = true.

Lemma sound_fresh d fin : willing d → is_ok fin = true → sound_bridge (copy_halves d (fresh_stream None fin)).
Proof. intros (Hb & Hc & Hs) Hf. split; [|split; [|done]]; split_and!; cbn; by rewrite ?Hb. Qed.

Context (Htcp : willing tcp) (Hgame_willing : willing game) (Hhost_capacity : host_capacity = None)
  (Hhost_finish : is_ok host_finish = true).

(** The link is not lost, and neither program gives the session up. *)
Definition lossless (ev : Happening) : Prop :=
  match ev with Loses _ | RelayAborts | HostAborts => False | _ => True end.

Lemma play_sound ev s s' : lossless ev → sound_session s → play ev s = Some s' → sound_session s'.
Proof.
  intros Hev (Hc & Hr & Hh). destruct ev as [d| |d|k|k| | |kind| |]; cbn [Play.play]; [..|done|done|done].
  - intros [= <-]. split_and!; [done|by apply sound_poll|done].
  - destruct (at_host s); [|done..]. destruct (_ && _); [|done]. unfold bridge_to_local. rewrite Hgame.
    intros [= <-]. split_and!; [done..|]. cbn. rewrite Hhost_capacity. by apply sound_fresh.
  - intros [= <-]. split_and!; [done..|]. destruct (at_host s); cbn; [done|by apply sound_poll|done].
  - destruct (at_host s) as [|b|]; [done| |done]. destruct (carry _ _ _ _) as [[n b']|] eqn:E; [|done].
    intros [= <-]. split_and!; [done..|]. by eapply sound_carry.
  - destruct (carry _ _ _ _) as [[n b']|] eqn:E; [|done].
    intros [= <-]. split_and!; [done|by eapply sound_carry|done].
  - destruct (at_host s) as [|b|]; [done| |done]. destruct (finish _ _ _ _) as [b'|] eqn:E; [|done].
    intros [= <-]. split_and!; [done..|]. by eapply sound_finish.
  - destruct (finish _ _ _ _) as [b'|] eqn:E; [|done].
    intros [= <-]. split_and!; [done|by eapply sound_finish|done].
Qed.

(** A direction that is done stays done. *)
Definition keeps_done b b' : Prop :=
  (phase (to_quic b) = Done → phase (to_quic b') = Done) ∧ (phase (to_tcp b) = Done → phase (to_tcp b') = Done).
Definition session_keeps s s' : Prop := keeps_done (at_relay s) (at_relay s') ∧
  ∀ b, at_host s = Bridging b → ∃ b', at_host s' = Bridging b' ∧ keeps_done b b'.

Lemma poll_keeps_done b d : keeps_done b (poll_bridge buffer b d).
Proof. apply (poll_keeps buffer b d (λ h, phase h = Done)). intros h Hp. unfold poll_half. by rewrite Hp. Qed.
Lemma fed_keeps_done b b' : fed b b' → keeps_done b b'.
Proof. intros (Hq & _ & Hp). unfold keeps_done. by rewrite Hq, Hp. Qed.
Lemma abort_keeps_done b : keeps_done b (abort_bridge b).
Proof. unfold keeps_done. destruct (abort_halves b) as [-> ->]. done. Qed.
Lemma keeps_done_refl b : keeps_done b b.
Proof. done. Qed.

Lemma play_keeps ev s s' : play ev s = Some s' → session_keeps s s'.
Proof.
  destruct ev as [d| |d|k|k| | |kind| |]; cbn [Play.play].
  - intros [= <-]. split; [apply poll_keeps_done|by eauto using keeps_done_refl].
  - destruct (at_host s) eqn:E; [|done..]. destruct (_ && _); [|done]. intros [= <-].
    split; [done|]. by rewrite E.
  - intros [= <-]. split; [done|]. cbn. intros b ->. eauto using poll_keeps_done.
  - destruct (at_host s) as [|b|] eqn:Eh; [done| |done]. destruct (carry _ _ _ _) as [[n b']|] eqn:E; [|done].
    intros [= <-]. split; [done|]. rewrite Eh. intros ? [= <-]. eauto using fed_keeps_done, carry_fed.
  - destruct (carry _ _ _ _) as [[n b']|] eqn:E; [|done].
    intros [= <-]. split; cbn; [by eauto using fed_keeps_done, carry_fed|by eauto using keeps_done_refl].
  - destruct (at_host s) as [|b|] eqn:Eh; [done| |done]. destruct (finish _ _ _ _) as [b'|] eqn:E; [|done].
    intros [= <-]. split; [done|]. rewrite Eh. intros ? [= <-]. eauto using fed_keeps_done, finish_fed.
  - destruct (finish _ _ _ _) as [b'|] eqn:E; [|done].
    intros [= <-]. split; cbn; [by eauto using fed_keeps_done, finish_fed|by eauto using keeps_done_refl].
  - intros [= <-]. split; cbn; [apply fed_keeps_done, lose_fed|]. intros b ->. eauto using fed_keeps_done, lose_fed.
  - intros [= <-]. split; cbn; [apply abort_keeps_done|by eauto using keeps_done_refl].
  - destruct (connected s); [done|]. intros [= <-]. split; [done|]. cbn. intros b ->. eauto using abort_keeps_done.
Qed.

(** ** What can still happen *)

Inductive reaches : Session → Session → Prop :=
  | reaches_refl s : reaches s s
  | reaches_step ev s s' s'' : lossless ev → play ev s = Some s' → reaches s' s'' → reaches s s''.

Lemma reaches_trans s s' s'' : reaches s s' → reaches s' s'' → reaches s s''.
Proof. induction 1; [done|]. intros Hr. eapply reaches_step; eauto. Qed.

Lemma reaches_plays s s' : reaches s s' → ∃ evs, Forall lossless evs ∧ plays evs s = Some s'.
Proof.
  induction 1 as [s|ev s s' s'' Hev Hp _ (evs & Hevs & Hr)]; [by exists []|].
  exists (ev :: evs). split; [by constructor|]. unfold Play.plays in *. cbn. by rewrite Hp.
Qed.

Definition good s : Prop := session_ok s ∧ sound_session s.

Lemma reaches_good s s' : reaches s s' → good s → good s' ∧ session_keeps s s'.
Proof.
  induction 1 as [s|ev s s' s'' Hev Hp _ IH]; intros Hg.
  - split; [done|]. split; [done|]. eauto using keeps_done_refl.
  - destruct Hg as [Hok Hs]. destruct IH as [Hg'' [Hk1 Hk2]]; [split; [by eapply play_ok|by eapply play_sound]|].
    split; [done|]. destruct (play_keeps _ _ _ Hp) as [Hk3 Hk4]. split.
    + unfold keeps_done in *. naive_solver.
    + intros b Hb. destruct (Hk4 b Hb) as (b1 & Hb1 & Hk5). destruct (Hk2 b1 Hb1) as (b2 & Hb2 & Hk6).
      exists b2. unfold keeps_done in *. naive_solver.
Qed.

Definition half (d : direction) b : Half := match d with ToQuic => to_quic b | ToTcp => to_tcp b end.

(** A poll of a direction whose input has ended brings it closer to its end. *)
Lemma poll_progress d b : sound_bridge b → behind (input (half d b)) = Eof →
  phase (half d b) = Done ∨
  let b' := poll_bridge buffer b d in behind (input (half d b')) = Eof ∧
    (phase (half d b') = Done ∨
     (length (contents (input (half d b'))) < length (contents (input (half d b))))%nat).
Proof.
  intros (Hq & Ht & Hj) Hb. assert (Hs : sound_half (half d b)) by by destruct d.
  destruct (phase (half d b)) eqn:Ep; [right|by left|by destruct Hs as (_ & _ & _ & Hp); destruct (Hp e)].
  assert (outcome b = None) as Ho.
  { rewrite Hj. unfold joined. destruct Hq as (_ & _ & _ & Hq), Ht as (_ & _ & _ & Ht).
    destruct d; cbn in Ep; rewrite Ep; case_match; naive_solver. }
  cbv zeta. assert (half d (poll_bridge buffer b d) = poll_half buffer (half d b)) as ->.
  { unfold poll_bridge. rewrite Ho. by destruct d. }
  destruct Hs as (Hc & Ha & _ & _). rewrite poll_half_behind by done. split; [done|].
  destruct (poll_half_sound buffer Hbuffer (half d b)) as (_ & _ & [?|[_ ?]]); [done..|by left|right; lia].
Qed.

Lemma relay_finishes d s : good s → behind (input (half d (at_relay s))) = Eof →
  ∃ s', reaches s s' ∧ phase (half d (at_relay s')) = Done.
Proof.
  remember (length (contents (input (half d (at_relay s))))) as n eqn:En. revert s En.
  induction n as [n IH] using lt_wf_ind. intros s -> Hg Hb. pose proof Hg as [Hok (_ & Hs & _)].
  destruct (poll_progress d _ Hs Hb) as [?|[Hb' Hp]].
  { exists s. split; [constructor|done]. }
  assert (Hr : reaches s (set_relay (poll_bridge buffer (at_relay s) d) s)).
  { by eapply (reaches_step (RelayPolls d)); [| |constructor]. }
  destruct Hp as [Hp|Hlt]; [by eexists|].
  destruct (IH _ Hlt (set_relay (poll_bridge buffer (at_relay s) d) s) eq_refl) as (s' & Hr' & Hp); [by apply (reaches_good _ _ Hr)|done|].
  exists s'. split; [by eapply reaches_trans|done].
Qed.

Lemma host_finishes d s b : good s → at_host s = Bridging b → behind (input (half d b)) = Eof →
  ∃ s' b', reaches s s' ∧ at_host s' = Bridging b' ∧ phase (half d b') = Done.
Proof.
  remember (length (contents (input (half d b)))) as n eqn:En. revert s b En.
  induction n as [n IH] using lt_wf_ind. intros s b -> Hg Eb Hb. pose proof Hg as [Hok (_ & _ & Hs)].
  rewrite Eb in Hs. destruct Hok as [_ _ Hh]. rewrite Eb in Hh.
  destruct (poll_progress d _ Hs Hb) as [?|[Hb' Hp]].
  { exists s, b. split; [constructor|done]. }
  assert (Hr : reaches s (set_host (Bridging (poll_bridge buffer b d)) s)).
  { eapply (reaches_step (HostPolls d)); [done| |constructor]. cbn. by rewrite Eb. }
  destruct Hp as [Hp|Hlt]; [by eexists _, _|].
  destruct (IH _ Hlt (set_host (Bridging (poll_bridge buffer b d)) s) _ eq_refl) as (s' & b' & Hr' & Hp);
    [by apply (reaches_good _ _ Hr)|done..|].
  exists s', b'. split; [by eapply reaches_trans|done].
Qed.

(** What a bridge has sent reaches the other end, and then the end of it. *)
Lemma stream_arrives n out b : sound_bridge b → (n ≤ length out)%nat →
  quic_behind b = Eof ∨ ∃ b1 b2, carry (length out) n out b = Some (length out, b1) ∧
    finish (length out) out true b1 = Some b2 ∧ quic_behind b2 = Eof.
Proof.
  intros (_ & (_ & _ & Hb & _) & _) Hn. unfold carry, finish, quic_behind in *.
  destruct (behind (input (to_tcp b))) eqn:E; [by left|by destruct (Hb kind)|right].
  assert (n + length (take (length out) (drop n out)) = length out)%nat as ->
    by (rewrite length_take, length_drop; lia).
  eexists _, _. split; [done|]. cbn. by rewrite Nat.eqb_refl.
Qed.

Lemma up_arrives s b : good s → at_host s = Bridging b → phase (to_quic (at_relay s)) = Done →
  ∃ s' b', reaches s s' ∧ at_host s' = Bridging b' ∧ quic_behind b' = Eof.
Proof.
  intros [Hok (_ & _ & Hs)] Eb Hp. destruct Hok as [Hsend _ Hh]. rewrite Eb in Hs, Hh.
  destruct (stream_arrives (up s) (quic_out (at_relay s)) b Hs (proj1 (proj2 Hh))) as [?|(b1 & b2 & H1 & H2 & H3)].
  { exists s, b. split; [constructor|done]. }
  assert (quic_over (at_relay s) = true) as Ho.
  { unfold quic_over. by rewrite (done_closed _ _ _ (proj1 Hsend) Hp). }
  eexists _, b2. split; [|split; [|exact H3]].
  - eapply (reaches_step (CarriesUp (length (quic_out (at_relay s))))); [done| |].
    { cbn. rewrite Eb, H1. done. }
    eapply (reaches_step FinishesUp); [done| |constructor]. cbn. by rewrite Ho, H2.
  - done.
Qed.

Lemma down_arrives s b : good s → at_host s = Bridging b → phase (to_quic b) = Done →
  ∃ s', reaches s s' ∧ quic_behind (at_relay s') = Eof.
Proof.
  intros [Hok (_ & Hs & _)] Eb Hp. destruct Hok as [_ Hget Hh]. rewrite Eb in Hh, Hget.
  destruct (stream_arrives (down s) (quic_out b) (at_relay s) Hs (proj1 Hget)) as [?|(b1 & b2 & H1 & H2 & H3)].
  { exists s. split; [constructor|done]. }
  assert (quic_over b = true) as Ho.
  { unfold quic_over. by rewrite (done_closed _ _ _ (proj1 (proj1 Hh)) Hp). }
  exists {| at_relay := b2; at_host := at_host s; up := up s; down := length (quic_out b);
            connected := connected s |}. split; [|exact H3].
  eapply (reaches_step (CarriesDown (length (quic_out b)))); [done| |].
  { cbn. rewrite Eb. cbn. rewrite H1. done. }
  eapply (reaches_step FinishesDown); [done| |constructor]. cbn. rewrite Eb. cbn. by rewrite Ho, H2.
Qed.

Context (Hrelay_capacity : relay_capacity = None) (Hrelay_finish : is_ok relay_finish = true).

Lemma start_good : good start.
Proof.
  split; [apply session_start_ok|]. split_and!; [done| |done]. cbn. rewrite Hrelay_capacity. by apply sound_fresh.
Qed.

Lemma plays_reaches evs s0 s : Forall lossless evs → plays evs s0 = Some s → reaches s0 s.
Proof.
  revert s. induction evs as [|ev evs IH] using rev_ind; intros s; [intros _ [= <-]; constructor|].
  rewrite Forall_app, Forall_singleton, plays_snoc. intros [Hevs Hev]. destruct (plays evs s0) as [s1|]; [|done]. cbn. intros Hp.
  eapply reaches_trans; [by apply IH|]. by eapply reaches_step; [| |constructor].
Qed.

(** The host's part, once the relay has passed on what the player sent. *)
Lemma host_bridges s : good s → phase (to_quic (at_relay s)) = Done →
  ∃ s' b, reaches s s' ∧ at_host s' = Bridging b.
Proof.
  intros [[Hsend _ Hh] (Hc & _)] Hp. destruct (at_host s) as [|b|] eqn:Eb; [|exists s, b; split; [constructor|done]|done].
  eexists _, (copy_halves game (fresh_stream host_capacity host_finish)). split.
  - eapply (reaches_step HostAccepts); [done| |constructor]. cbn. rewrite Eb, Hc. unfold visible, quic_over.
    rewrite (done_closed _ _ _ (proj1 Hsend) Hp), orb_true_r. done.
  - cbn. unfold bridge_to_local. by rewrite Hgame.
Qed.

Lemma both_done b : sound_bridge b → phase (to_quic b) = Done → phase (to_tcp b) = Done → outcome b = Some (Ok tt).
Proof. intros (_ & _ & ->). unfold joined. by intros -> ->. Qed.

(** C23. A connection between a player and a game server can always be completed: as
    long as the link was not lost and neither program ended its tunnel, from
    whatever point the two bridges and the stream between them are at, they can go
    on so that both bridges succeed, with every byte delivered both ways and both
    sides' ends of stream passed on. *)
Theorem play_can_complete evs s : Forall lossless evs → plays evs start = Some s →
  ∃ evs' s' b, Forall lossless evs' ∧ plays evs' s = Some s' ∧ at_host s' = Bridging b ∧
    outcome (at_relay s') = Some (Ok tt) ∧ outcome b = Some (Ok tt) ∧
    written (output (to_tcp b)) = written (writing game) ++ contents (reading tcp) ∧
    written (output (to_tcp (at_relay s'))) = written (writing tcp) ++ contents (reading game).
Proof.
  intros Hev Hs. apply plays_reaches in Hs; [|done]. destruct (reaches_good _ _ Hs start_good) as [Hg _]. clear Hs.
  destruct Htcp as [Hte _], Hgame_willing as [Hge _].
  destruct (relay_finishes ToQuic s Hg) as (s1 & R1 & P1).
  { cbn. rewrite (proj1 (proj2 (relay_sends _ (proj1 Hg)))). done. }
  destruct (reaches_good _ _ R1 Hg) as [G1 _].
  destruct (host_bridges s1 G1 P1) as (s2 & b2 & R2 & B2).
  destruct (reaches_good _ _ R2 G1) as [G2 [K2 _]].
  destruct (up_arrives s2 b2 G2 B2) as (s3 & b3 & R3 & B3 & E3); [by apply K2|].
  destruct (reaches_good _ _ R3 G2) as [G3 [K3 _]].
  destruct (host_finishes ToTcp s3 b3 G3 B3) as (s4 & b4 & R4 & B4 & P4); [done|].
  destruct (reaches_good _ _ R4 G3) as [G4 [K4 _]].
  destruct (host_finishes ToQuic s4 b4 G4 B4) as (s5 & b5 & R5 & B5 & P5).
  { destruct G4 as [[_ _ Hh] _]. rewrite B4 in Hh. cbn. rewrite (proj1 (proj2 (proj1 Hh))). done. }
  destruct (reaches_good _ _ R5 G4) as [G5 [K5 L5]].
  destruct (down_arrives s5 b5 G5 B5 P5) as (s6 & R6 & E6).
  destruct (reaches_good _ _ R6 G5) as [G6 [K6 L6]].
  destruct (relay_finishes ToTcp s6 G6 E6) as (s7 & R7 & P7).
  destruct (reaches_good _ _ R7 G6) as [G7 [K7 L7]].
  destruct (L5 _ B4) as (b5' & B5' & K5'). rewrite B5 in B5'. injection B5' as <-.
  destruct (L6 _ B5) as (b6 & B6 & K6'). destruct (L7 _ B6) as (b7 & B7 & K7').
  destruct (reaches_plays s s7) as (evs' & Hevs' & Hp); [by repeat (eapply reaches_trans; [eassumption|]); constructor|].
  assert (Q1 : outcome (at_relay s7) = Some (Ok tt)).
  { apply both_done; [apply (proj2 G7)| |done]. apply K7, K6, K5, K4, K3, K2, P1. }
  assert (Q2 : outcome b7 = Some (Ok tt)).
  { apply both_done; [|apply K7', K6', P5|apply K7', K6', K5', P4].
    destruct G7 as [_ (_ & _ & Hh)]. by rewrite B7 in Hh. }
  exists evs', s7, b7. split_and!; [done..| |].
  all: destruct (session_delivers s7 b7 (proj1 G7) B7) as (rq & rp & W1 & W2 & _ & _ & _ & _ & _ & _ & Hd).
  all: destruct (Hd Q1 Q2) as [-> ->]; done.
Qed.

End play.

(** ** A concrete session *)

(** The player sends three bytes in two pieces; the game server answers one. *)
Definition w_player : Duplex :=
  {| reading := {| chunks := [[x01; x02]; [x03]]; behind := Eof |};
     writing := {| written := []; capacity := None |}; shutdown := Ok tt |}.
Definition w_game : Duplex :=
  {| reading := {| chunks := [[x0a]]; behind := Eof |};
     writing := {| written := []; capacity := None |}; shutdown := Ok tt |}.
Definition w_listener (port : Z) : result Duplex :=
  if port =? 25565 then Ok w_game else Err (Io OtherKind).
Definition w_start : Session := start w_player (fresh_stream None (Ok tt)).
Definition w_play : list Happening → Session → option Session :=
  plays 8 w_listener 25565 (fresh_stream None (Ok tt)).

(** The link breaks off after two bytes. *)
Definition w_first : list Happening := [RelayPolls ToQuic; HostAccepts; RelayPolls ToQuic; CarriesUp 2; HostPolls ToTcp].
Definition w_session (evs : list Happening) : Session := default w_start (w_play evs w_start).
Definition w_bridge (s : Session) : Bridge :=
  match at_host s with Bridging b => b | _ => at_relay s end.

(** The relay ends the tunnel after two bytes, with the connection open. *)
Definition w_cut : list Happening :=
  [RelayPolls ToQuic; HostAccepts; CarriesUp 2; HostPolls ToTcp; RelayAborts; FinishesUp; HostPolls ToTcp].

Lemma play_preserves_streams_witness :
  delivered w_player w_game (w_session (w_first ++ [Loses OtherKind]))
    (w_bridge (w_session (w_first ++ [Loses OtherKind]))) ∧
  delivered w_player w_game (w_session w_cut) (w_bridge (w_session w_cut)).
Proof.
  split.
  - apply (play_preserves_streams 8 w_listener 25565 ltac:(lia) w_player None (Ok tt) w_game None (Ok tt)
      eq_refl (w_first ++ [Loses OtherKind])); reflexivity.
  - apply (play_preserves_streams 8 w_listener 25565 ltac:(lia) w_player None (Ok tt) w_game None (Ok tt)
      eq_refl w_cut); reflexivity.
Defined.

(** The game server then sees a proper end of the stream after two bytes of three,
    although the connection is open and neither copy has failed. *)
Example relay_abort_truncates :
  let s := w_session w_cut in
  connected s = true ∧ half_closed (to_tcp (w_bridge s)) = true ∧
  written (output (to_tcp (w_bridge s))) = [x01; x02] ∧ contents (reading w_player) = [x01; x02; x03] ∧
  joined (to_quic (at_relay s)) (to_tcp (at_relay s)) = None ∧ outcome (w_bridge s) = None.
Proof. by split_and!. Qed.

Example w_prefix : written (output (to_tcp (w_bridge (w_session w_first)))) = [x01; x02].
Proof. reflexivity. Qed.

Lemma play_can_complete_witness : ∃ evs' s' b, Forall lossless evs' ∧ w_play evs' (w_session w_first) = Some s' ∧
  at_host s' = Bridging b ∧ outcome (at_relay s') = Some (Ok tt) ∧ outcome b = Some (Ok tt) ∧
  written (output (to_tcp b)) = [x01; x02; x03] ∧ written (output (to_tcp (at_relay s'))) = [x0a].
Proof.
  apply (play_can_complete 8 w_listener 25565 ltac:(lia) w_player None (Ok tt) w_game None (Ok tt)
    eq_refl) with (evs := w_first); try reflexivity; repeat constructor.
Defined.

(** It waits for the game server, which would send a byte at once. *)
Definition w_silent : Duplex :=
  {| reading := {| chunks := []; behind := Open |};
     writing := {| written := []; capacity := None |}; shutdown := Ok tt |}.
Definition w_quiet : list Happening :=
  [RelayPolls ToQuic; RelayPolls ToTcp; CarriesDown 8; RelayPolls ToQuic].

Lemma silent_player_waits_witness :
  at_host (default w_start (w_play w_quiet (start w_silent (fresh_stream None (Ok tt))))) = Waiting.
Proof.
  destruct (silent_player_waits 8 w_listener 25565 ltac:(lia) w_silent None (Ok tt) None (Ok tt) w_quiet
    (default w_start (w_play w_quiet (start w_silent (fresh_stream None (Ok tt)))))) as [Hw|Ha];
    [reflexivity..|exact Hw|].
  exfalso. revert Ha. unfold w_quiet. rewrite !elem_of_cons, elem_of_nil. naive_solver.
Defined.
