(* ===== verification/Cli.v ===== *)
(** The host's program (crates/cli): its commands, the requests it makes to the
    relay, and the agent that serves players once its tunnel is up. *)

From Stdlib Require Import Strings.Byte.
From S2P Require Import Prelude Bytes Fs Identity Protocol Message Crypto.

(** ** Choosing the local port *)

Definition local_port_for (game : option str) (port : option Z) : result Z :=
  preset ← match game with
           | Some name => preset ← ok_or (find_preset name)
               (MsgArgs "Unknown game '{name}'. Try minecraft, terraria, or --port <PORT>" name);
               Ok (Some preset)
           | None => Ok None
           end;
  match preset with
  | Some preset => check (bool_decide (preset.(preset_protocol) = Tcp))
                     (MsgArgs "{} requires UDP, which GameNet does not support yet"
                              (lit preset.(Protocol.name)))
  | None => Ok tt
  end;;
  local_port ← ok_or (match port with Some port => Some port | None => default_port <$> preset end)
                     (Msg "Specify a TCP game or --port <PORT>");
  check (negb (local_port =? 0)) (Msg "Local port must be nonzero");;
  Ok local_port.

(** ** Reconnecting: [Duration]s in nanoseconds *)

Definition Duration_from_secs (secs : Z) : Z := secs * 1000000000.
Definition DURATION_MAX : Z := U64_MAX * 1000000000 + 999999999.
Definition Duration_saturating_mul (d n : Z) : Z := Z.min (d * n) DURATION_MAX.

Definition next_retry_delay (delay : Z) : Z :=
  Z.min (Duration_saturating_mul delay 2) (Duration_from_secs 15).

(** The inner loop of the host command: it sleeps, connects, and goes on until
    a connection succeeds.  The result lists the sleeps, and has the new tunnel
    and delay unless every given outcome was a failure. *)
Fixpoint reconnect {T} (delay : Z) (outcomes : list (result T)) : list Z * option (T * Z) :=
  match outcomes with
  | [] => ([], None)
  | Ok next :: _ => ([delay], Some (next, Duration_from_secs 1))
  | Err _ :: outcomes =>
      let '(sleeps, tunnel) := reconnect (next_retry_delay delay) outcomes in
      (delay :: sleeps, tunnel)
  end.

(** ** Awaiting the network and the disk *)

(** The parts of quinn, the resolver and the terminal that the program uses. *)
Class Dialer `{Rustls} (N : Type) := {
  SocketAddr : Type;
  Endpoint : Type;
  HostConnection : Type;
  BiStream : Type;
  parse_addr : string → option SocketAddr;
  lookup_host : string → M N (list SocketAddr);
  (** [Endpoint::client] and [set_default_client_config] *)
  endpoint_client : ClientConfig → M N Endpoint;
  endpoint_connect : Endpoint → SocketAddr → string → M N HostConnection;
  open_bi : HostConnection → M N BiStream;
  (** the two halves of a stream *)
  sending {A} : BiStream → M Writer A → M N A;
  receiving {A} : BiStream → RM A → N → poll (result A) * N;
  prompt_password : string → M N str;
}.

Section host.
Context `{Digest} `{Codec} `{Tempfile} `{Rustls} {N : Type} `{!Dialer N}.

(** An [async fn] of the program over the files and the network: it may also
    wait for ever. *)
Definition CM (A : Type) : Type := Fs * N → poll (result A) * (Fs * N).

#[global] Instance CM_ret : MRet CM := λ A a w, (Ready (Ok a), w).
#[global] Instance CM_bind : MBind CM := λ A B f m w,
  match m w with
  | (Ready (Ok a), w') => f a w'
  | (Ready (Err e), w') => (Ready (Err e), w')
  | (Pending, w') => (Pending, w')
  end.
Definition on_fs {A} (m : M Fs A) : CM A :=
  λ '(fs, n), let '(r, fs') := m fs in (Ready r, (fs', n)).
Definition on_net {A} (m : M N A) : CM A :=
  λ '(fs, n), let '(r, n') := m n in (Ready r, (fs, n')).
Definition awaiting {A} (m : N → poll (result A) * N) : CM A :=
  λ '(fs, n), let '(r, n') := m n in (r, (fs, n')).
Definition returns {A} (r : result A) : CM A := λ w, (Ready r, w).

(** ** Requests *)

Definition connect_quic (server_hostname : string) (insecure : bool) : CM HostConnection :=
  config ← returns (if insecure then insecure_client_config else client_config);
  endpoint ← on_net (endpoint_client config);
  let server_addr := (server_hostname ++ ":5000")%string in
  resolved ← match parse_addr server_addr with
             | Some addr => mret addr
             | None =>
                 addrs ← on_net (lookup_host server_addr);
                 returns (ok_or (head addrs) (Msg "Could not resolve {}"))
             end;
  on_net (endpoint_connect endpoint resolved server_hostname).

(** [open_bi], [send_msg], [recv_msg] and the check that there is an answer, as
    the three requests make them. *)
Definition request (quic : HostConnection) (msg : ControlMessage) (closed : string)
    : CM (BiStream * ControlMessage) :=
  stream ← on_net (open_bi quic);
  on_net (sending stream (send_msg msg));;
  response ← awaiting (receiving stream recv_msg);
  response ← returns (ok_or response (Msg closed));
  mret (stream, response).

Definition rotate_on_connection (quic : HostConnection) (pending : PendingRotation)
    : CM (option Z) :=
  '(_, response) ← request quic (RotateIdentity pending.(rot_old_token) pending.(rot_new_token))
               "Relay closed before confirming identity rotation";
  match response with
  | IdentityRotated public_port =>
      on_fs (PendingRotation_finish pending);;
      mret public_port
  | Error message => returns (Err (MsgArgs "Relay rejected rotation: {message}" message))
  | _ => returns (Err (Msg "Unexpected rotation response: {other:?}"))
  end.

Definition rotate_identity (env : Env) (server_hostname : string) (insecure : bool)
    : CM (option Z) :=
  pending ← on_fs (prepare_rotation env);
  quic ← connect_quic server_hostname insecure;
  rotate_on_connection quic pending.

Definition recover_on_connection (env : Env) (quic : HostConnection) (pending : PendingRecovery)
    (secret : TunnelToken) (from_backup : bool) : CM Z :=
  '(_, response) ← request quic (RecoverIdentity secret pending.(rec_new_token))
               "Relay closed before confirming recovery";
  match response with
  | IdentityRecovered public_port =>
      (if from_backup then on_fs (store_recovery env secret) else mret tt);;
      on_fs (PendingRecovery_finish pending);;
      mret public_port
  | Error message => returns (Err (MsgArgs "Relay rejected recovery: {message}" message))
  | _ => returns (Err (Msg "Unexpected recovery response: {other:?}"))
  end.

(** The secret that was typed in. *)
Definition prompted_secret : CM (TunnelToken * bool) :=
  code ← on_net (prompt_password "Recovery code: ");
  secret ← returns (parse_recovery_code code);
  mret (secret, true).

(** The secret to recover with, and whether it was typed in. *)
Definition recovery_secret (env : Env) (use_backup_code : bool) : CM (TunnelToken * bool) :=
  if use_backup_code then prompted_secret else
  stored ← on_fs (attempt (read_recovery env));
  match stored with
  | Ok secret => mret (secret, false)
  | Err (Io NotFound) => prompted_secret
  | Err e => returns (Err e)
  end.

Definition recover_identity (env : Env) (server_hostname : string) (insecure use_backup_code : bool)
    : CM Z :=
  '(secret, from_backup) ← recovery_secret env use_backup_code;
  pending ← on_fs (prepare_recovery env);
  quic ← connect_quic server_hostname insecure;
  recover_on_connection env quic pending secret from_backup.

(** ** The agent *)

(** [players] counts the tasks of the [JoinSet]; [control_task] says whether the
    task that reads the control channel is still wanted. *)
Record AgentTunnel := {
  agent_quic : HostConnection;
  agent_local_port : Z;
  control : BiStream;
  control_task : bool;
  agent_players : nat;
  quic_open : bool;
}.

Definition connect (env : Env) (server_hostname : string) (local_port : Z) (insecure : bool)
    : CM AgentTunnel :=
  token ← on_fs (load_or_create env);
  recovery_secret ← on_fs (load_or_create_recovery env);
  quic ← connect_quic server_hostname insecure;
  '(stream, msg) ← request quic
    (Register Tcp local_port token (recovery_fingerprint recovery_secret))
    "Server closed before confirming tunnel";
  match msg with
  | TunnelReady public_port => mret tt
  | Error message => returns (Err (MsgArgs "Server rejected registration: {}" message))
  | _ => returns (Err (Msg "Unexpected response: {:?}"))
  end;;
  mret {| agent_quic := quic; agent_local_port := local_port; control := stream;
          control_task := true; agent_players := 0; quic_open := true |}.

(** What [handle_control_messages] ends with, on the bytes the relay sends. *)
Definition handle_control_messages (ctrl_recv : Reader) : poll (result unit) :=
  (recv_all ctrl_recv).2.

(** ** [AgentTunnel::run] *)

Inductive AgentEvent :=
  | StreamAccepted          (** [accept_bi] gives a stream *)
  | ConnectionLost          (** [accept_bi] fails *)
  | ControlEnded            (** the control task is over *)
  | PlayerEnded.            (** [join_next] *)

Definition set_agent (task : bool) (n : nat) (is_open : bool) (t : AgentTunnel) : AgentTunnel :=
  {| agent_quic := t.(agent_quic); agent_local_port := t.(agent_local_port);
     control := t.(control); control_task := task; agent_players := n; quic_open := is_open |}.

(** One turn of the loop of [run] while the connection is open, and one of the
    loop that joins the aborted players after it was closed; [None] where the
    program does not wait for that. *)
Definition agent_step (ev : AgentEvent) (t : AgentTunnel) : option AgentTunnel :=
  match ev, t.(quic_open) with
  | StreamAccepted, true => Some (set_agent t.(control_task) (S t.(agent_players)) true t)
  | (ConnectionLost | ControlEnded), true => Some (set_agent false t.(agent_players) false t)
  | PlayerEnded, is_open =>
      match t.(agent_players) with
      | O => None
      | S n => Some (set_agent t.(control_task) n is_open t)
      end
  | _, false => None
  end.
(** [run] has returned. *)
Definition agent_returned (t : AgentTunnel) : bool :=
  negb t.(quic_open) && (t.(agent_players) =? 0)%nat.

(** ** The commands *)

Inductive Commands :=
  | Host (game : option str) (port : option Z) (server : string) (insecure : bool)
  | RotateIdentityCommand (server : string) (insecure : bool)
  | ShowRecoveryCode
  | RecoverIdentityCommand (use_backup_code : bool) (server : string) (insecure : bool).

(** What a command prints, or the tunnel the host command goes on to serve. *)
Inductive Printed :=
  | RecoveryCode (code : str)
  | Recovered (server : string) (port : Z)
  | Rotated (server : string) (port : option Z)
  | Serving (tunnel : AgentTunnel).

Definition main (env : Env) (command : Commands) : CM Printed :=
  match command with
  | ShowRecoveryCode =>
      secret ← on_fs (read_recovery env);
      mret (RecoveryCode (format_recovery_code secret))
  | RecoverIdentityCommand use_backup_code server insecure =>
      port ← recover_identity env server insecure use_backup_code;
      mret (Recovered server port)
  | RotateIdentityCommand server insecure =>
      port ← rotate_identity env server insecure;
      mret (Rotated server port)
  | Host game port server insecure =>
      local_port ← returns (local_port_for game port);
      tunnel ← connect env server local_port insecure;
      mret (Serving tunnel)
  end.
End host.
