(* ===== verification/Link.v ===== *)
(** A host and a relay on an unreliable link: the interface of [Cli] to the
    network, implemented by the relay's own operations.  The messages are the
    bytes both sides write and read. *)

From Stdlib Require Import Strings.Byte.
From S2P Require Import Prelude Bytes HostAdmission LeaseTable Fs Identity Protocol Message.
From S2P Require Import MessageFacts State Tunnel Crypto Relay Replies Cli.

(** What the program relies on about [bincode] and about its error texts: the
    messages read back, and none is longer than a frame may be. *)
Class WireLaws `{Codec} (display : error → str) : Prop := {
  wire_codec :: CodecLaw;
  wire_small m payload : message_ok m →
    (match m with Error text => length text ≤ 4096 | _ => True end)%nat →
    serialize m = Ok payload → (length payload ≤ MAX_CONTROL_MSG_BYTES)%nat;
  display_ok e : Forall char_ok (display e);
  display_short e : (length (display e) ≤ 4096)%nat;
}.

(** A message that fits in a frame. *)
Definition sendable (m : ControlMessage) : Prop :=
  message_ok m ∧ (match m with Error text => length text ≤ 4096 | _ => True end)%nat.

Section link.
Context `{Digest} `{!IterOrder TokenId Lease} {W : Type} `{Store W} `{Network W} `{Codec}.
(** [anyhow::Error]'s [Display]. *)
Context (display : error → str).

(** ** The relay's answer *)

(** [send_msg] on a stream that takes everything. *)
Definition reply_bytes (m : ControlMessage) : list byte :=
  written (send_msg m {| written := []; capacity := None |}).2.

(** What the relay answers to a first message, and the state it is in then. *)
Definition answer (now : Z) (peer : IpAddr) (conn : Connection)
    (received : result (option ControlMessage)) (sw : ServerState W * W)
    : option ControlMessage * (ServerState W * W) :=
  match first_message received with
  | Hosting _ token recovery_id =>
      let '(registration, sw) :=
        register_with_recovery token (Some recovery_id) peer now (Some conn) sw in
      (Some (match registration with
             | Ok reg => TunnelReady (public_port reg)
             | Err e => Error (display e)
             end), sw)
  | Rotation old_token new_token =>
      let '(reply, sw) := serve_rotation old_token new_token now sw in
      (Some (reply_message display reply), sw)
  | Recovery secret new_token =>
      let '(reply, _, sw) := serve_recovery secret new_token peer now sw in
      (Some (reply_message display reply), sw)
  | Rejected reason => (Some (Error (display reason)), sw)
  | Dropped => (None, sw)
  end.

(** The same on the wire, when these bytes have arrived. *)
Definition answer_bytes (now : Z) (peer : IpAddr) (conn : Connection) (bs : list byte)
    (sw : ServerState W * W) : list byte * (ServerState W * W) :=
  match (recv_msg {| chunks := [bs]; behind := Open |}).1 with
  | Ready received =>
      let '(reply, sw) := answer now peer conn received sw in
      (from_option reply_bytes [] reply, sw)
  | Pending => ([], sw)
  end.

(** ** The link *)

(** What happens to one connection: no connection at all; a request the relay
    never gets, of which the transport takes [accepted] bytes; or a request that
    is answered, the answer being cut off after [cut] bytes. *)
Inductive Delivery :=
  | Unreachable (e : error)
  | Lost (accepted : option nat) (failure : ErrorKind)
  | Delivered (now : Z) (peer : IpAddr) (conn : Connection) (cut : option nat) (ending : ReadEnd).

Record Link := {
  relay : ServerState W * W;
  delivery : Delivery;
  outbox : Writer;
  inbox : option Reader;
  typed : str;
}.

Definition set_outbox (w : Writer) (n : Link) : Link :=
  {| relay := n.(relay); delivery := n.(delivery); outbox := w; inbox := n.(inbox);
     typed := n.(typed) |}.
Definition set_inbox (r : option Reader) (n : Link) : Link :=
  {| relay := n.(relay); delivery := n.(delivery); outbox := n.(outbox); inbox := r;
     typed := n.(typed) |}.
Definition set_relay (sw : ServerState W * W) (n : Link) : Link :=
  {| relay := sw; delivery := n.(delivery); outbox := n.(outbox); inbox := n.(inbox);
     typed := n.(typed) |}.

(** A fresh connection. *)
Definition link (sw : ServerState W * W) (d : Delivery) (typed : str) : Link :=
  {| relay := sw; delivery := d; outbox := {| written := []; capacity := None |}; inbox := None;
     typed := typed |}.

Definition open_stream (n : Link) : Link :=
  set_inbox None (set_outbox {| written := [];
    capacity := match n.(delivery) with Lost accepted _ => accepted | _ => None end |} n).

(** Where the host first waits for an answer, the relay has had its turn. *)
Definition exchange (n : Link) : Link :=
  match n.(inbox) with
  | Some _ => n
  | None =>
      match n.(delivery) with
      | Delivered now peer conn cut ending =>
          let '(bs, sw) := answer_bytes now peer conn (written n.(outbox)) n.(relay) in
          set_inbox (Some {| chunks := [match cut with Some k => take k bs | None => bs end];
                             behind := ending |}) (set_relay sw n)
      | Lost _ failure => set_inbox (Some {| chunks := []; behind := Fails failure |}) n
      | Unreachable _ => set_inbox (Some {| chunks := []; behind := Fails OtherKind |}) n
      end
  end.

#[global] Instance link_dialer `{Rustls} : Dialer Link := {|
  SocketAddr := unit;
  Endpoint := unit;
  HostConnection := unit;
  BiStream := unit;
  parse_addr _ := Some tt;
  lookup_host _ n := (Ok [tt], n);
  endpoint_client _ n := (Ok tt, n);
  endpoint_connect _ _ _ n :=
    (match n.(delivery) with Unreachable e => Err e | _ => Ok tt end, n);
  open_bi _ n := (Ok tt, open_stream n);
  sending A _ m n := let '(r, w) := m n.(outbox) in (r, set_outbox w n);
  receiving A _ m n :=
    let n := exchange n in
    let '(r, reader) := m (default {| chunks := []; behind := Eof |} n.(inbox)) in
    (r, set_inbox (Some reader) n);
  prompt_password _ n := (Ok n.(typed), n);
|}.
End link.
Arguments Link W {_}.
