(* ===== verification/LinkFacts.v ===== *)
(** Lemmas on [Link]: what a request over the link does to the relay and what
    the host learns of it, whatever the link does; and the types of the relay's
    answers. *)

From Stdlib Require Import Strings.Byte.
From S2P Require Import Prelude Bytes HostAdmission LeaseTable LeaseFacts LeaseInv Fs Identity Protocol Message.
From S2P Require Import MessageFacts State StateFacts StateInv StateProps Tunnel Crypto Relay Cli Link.

(** ** The answers are well typed *)

Section typing.
Context `{Digest} `{!IterOrder TokenId Lease} {W : Type} `{StoreLaws W stored}.
Implicit Types (s : ServerState W) (w : W).

Lemma lease_port_u16 t id l : lease_inv t → t.(leases) !! id = Some l → u16_ok (Lease.port l).
Proof.
  intros [Hwf _] Hl. pose proof (wf_port_range _ (wf_leases _ Hwf) id l Hl) as Hp.
  unfold PORT_START, PORT_END in Hp. unfold u16_ok, U16_MAX. lia.
Qed.

Lemma register_port_u16 token rid ip now c s w reg sw' : 0 ≤ now → state_ok (stored := stored) s w →
  register_with_recovery token rid ip now (Some c) (s, w) = (Ok reg, sw') → u16_ok (public_port reg).
Proof.
  intros Hnow Hok Hrun. destruct sw' as [s' w'].
  pose proof (register_ok (stored := stored) _ _ _ _ _ _ _ _ _ _ Hnow Hok Hrun) as [Hinv _].
  apply (register_run (stored := stored)) in Hrun as (t & _ & Hact & _ & _ & ->).
  destruct Hact as (_ & _ & _ & _ & _ & ->). cbn in Hinv.
  refine (lease_port_u16 _ (from_token token) (activated_lease _ _ _ _ _) Hinv _). cbn. apply lookup_insert_eq.
Qed.

Lemma rotate_port_u16 old new now s w port sw' : state_ok (stored := stored) s w →
  rotate old new now (s, w) = (Ok port, sw') → from_option u16_ok True port.
Proof.
  intros [Hinv _] Hrun. destruct sw' as [s' w'].
  apply (rotate_run (stored := stored)) in Hrun as (_ & res & t & [_ Hm] & -> & _).
  assert (Hp : ∀ id l, leases (reap_expired now (st_leases s)) !! id = Some l → u16_ok (Lease.port l))
    by (intros id l; by apply lease_port_u16, reap_inv).
  destruct (leases _ !! from_token new) as [l|] eqn:E1; [destruct Hm as (_ & -> & _); by eapply Hp|].
  destruct Hm as (_ & _ & Hm).
  destruct (leases _ !! from_token old) as [l|] eqn:E2; [|by destruct Hm as [-> _]].
  destruct Hm as (_ & _ & -> & _). by eapply Hp.
Qed.

Lemma recover_port_u16 secret new ip now s w port conn sw' : state_ok (stored := stored) s w →
  recover secret new ip now (s, w) = (Ok (port, conn), sw') → u16_ok port.
Proof.
  intros Hok Hrun. destruct sw' as [s' w'].
  destruct (recover_connections _ _ _ _ _ _ _ _ _ _ Hok Hrun) as (old & l & Hl & _ & -> & _).
  by eapply lease_port_u16; [apply Hok|].
Qed.

Context `{Codec} {display : error → str} `{!WireLaws display}.

Lemma refusal_sendable e : sendable (Error (display e)).
Proof. split; [apply display_ok|apply display_short]. Qed.

Lemma answer_sendable now peer conn received s w reply sw' : 0 ≤ now → state_ok (stored := stored) s w →
  answer display now peer conn received (s, w) = (Some reply, sw') → sendable reply.
Proof.
  intros Hnow Hok. unfold answer, serve_rotation, serve_recovery.
  destruct (first_message received) as [lp token rid|old new|secret new|reason|].
  - destruct (register_with_recovery _ _ _ _ _ _) as [[reg|e] sw] eqn:E; intros [= <- <-];
      [|apply refusal_sendable]. split; [|done]. by eapply register_port_u16.
  - destruct (rotate _ _ _ _) as [[port|e] sw] eqn:E; intros [= <- <-]; [|apply refusal_sendable].
    split; [|done]. by eapply rotate_port_u16.
  - destruct (recover _ _ _ _ _) as [[[port oc]|e] sw] eqn:E; intros [= <- <-];
      [|apply refusal_sendable]. split; [|done]. by eapply recover_port_u16.
  - intros [= <- <-]. apply refusal_sendable.
  - done.
Qed.
End typing.

(** ** One exchange *)

Section wire.
Context `{Digest} `{!IterOrder TokenId Lease} {W : Type} `{StoreLaws W stored}.
Context `{Codec} {display : error → str} `{!WireLaws display}.

Lemma decode_cut m p k e m' : sendable m → serialize m = Ok p →
  decode_stream (take k (frame p)) e = Ready (Ok (Some m')) →
  m' = m ∧ take k (frame p) = frame p.
Proof.
  intros [Hok Hs] Hp. pose proof (wire_small m p Hok Hs Hp) as Hlen.
  pose proof (deserialize_serialize m p Hok Hp) as Hd.
  destruct (decode_stream_frame p [] e m Hlen Hd) as [Hf _]. rewrite app_nil_r in Hf.
  destruct (decide (length (frame p) ≤ k)%nat) as [Hk|Hk].
  { rewrite take_ge by done. rewrite Hf. by intros [= ->]. }
  destruct (decide (k = 0)%nat) as [->|Hk0]; [by destruct e|].
  rewrite (decode_stream_cut p _ (drop k (frame p))); [by destruct e|done| | |].
  - by rewrite take_drop.
  - intros E%(f_equal length). rewrite length_take in E. cbn in E. lia.
  - intros E%(f_equal length). rewrite length_drop in E. cbn in E. lia.
Qed.

Lemma answer_register now peer conn local_port token rid (sw : ServerState W * W) : local_port ≠ 0 →
  answer display now peer conn (Ok (Some (Register Tcp local_port token rid))) sw =
  let '(registration, sw) := register_with_recovery token (Some rid) peer now (Some conn) sw in
  (Some (match registration with Ok reg => TunnelReady (public_port reg) | Err e => Error (display e) end), sw).
Proof. intros Hp%Z.eqb_neq. unfold answer, first_message. by rewrite Hp. Qed.

(** What the relay makes of the bytes that have arrived: nothing, or the whole
    message. *)
Lemma answer_bytes_cut m p k now peer conn sw : sendable m → serialize m = Ok p →
  answer_bytes display now peer conn (take k (frame p)) sw = ([], sw) ∨
  answer_bytes display now peer conn (take k (frame p)) sw =
    (let '(reply, sw') := answer display now peer conn (Ok (Some m)) sw in
     (from_option reply_bytes [] reply, sw')).
Proof.
  intros Hm Hp. unfold answer_bytes.
  destruct (recv_msg_decode {| chunks := [take k (frame p)]; behind := Open |}) as [-> _].
  unfold contents. cbn [chunks concat behind]. rewrite app_nil_r.
  destruct (decide (length (frame p) ≤ k)%nat) as [Hk|Hk].
  - right. rewrite take_ge by done.
    destruct (decode_stream_frame p [] Open m) as [Hf _];
      [by eapply wire_small; [apply Hm..|]|by eapply deserialize_serialize; [apply Hm|]|].
    rewrite app_nil_r in Hf. by rewrite Hf.
  - left. destruct (decide (k = 0)%nat) as [->|Hk0]; [done|].
    rewrite (decode_stream_cut p _ (drop k (frame p))); [done|by eapply wire_small; [apply Hm..|]| | |].
    + by rewrite take_drop.
    + intros E%(f_equal length). rewrite length_take in E. cbn in E. lia.
    + intros E%(f_equal length). rewrite length_drop in E. cbn in E. lia.
Qed.

(** The host reads an answer only if it is the relay's. *)
Lemma read_reply reply cut e m' : (∀ a, reply = Some a → sendable a) →
  (recv_msg {| chunks := [match cut with
                          | Some k => take k (from_option reply_bytes [] reply)
                          | None => from_option reply_bytes [] reply
                          end]; behind := e |}).1 = Ready (Ok (Some m')) →
  reply = Some m'.
Proof.
  intros Hs. destruct (recv_msg_decode {| chunks := [match cut with
    | Some k => take k (from_option reply_bytes [] reply)
    | None => from_option reply_bytes [] reply end]; behind := e |}) as [-> _].
  unfold contents. cbn [chunks concat behind]. rewrite app_nil_r.
  assert (Hnil : decode_stream [] e ≠ Ready (Ok (Some m'))) by by destruct e.
  destruct reply as [a|]; cbn; [|destruct cut as [k|]; by rewrite ?take_nil].
  specialize (Hs a eq_refl). unfold reply_bytes. destruct (serialize a) as [p|err] eqn:Hp.
  - assert (Hw : written (send_msg a {| written := []; capacity := None |}).2 = frame p).
    { unfold send_msg, mbind, M_bind, lift. rewrite Hp. cbn. unfold frame.
      rewrite Z.mod_small; [done|]. pose proof (wire_small a p (proj1 Hs) (proj2 Hs) Hp) as Hl.
      unfold MAX_CONTROL_MSG_BYTES in Hl. split; [lia|]. change (2 ^ 32) with 4294967296. lia. }
    rewrite Hw. replace (frame p) with (take (length (frame p)) (frame p)) by by rewrite take_ge.
    destruct cut as [k|]; rewrite ?take_take; intros Hd; by apply (decode_cut a p) in Hd as [-> _].
  - assert (Hw : written (send_msg a {| written := []; capacity := None |}).2 = []).
    { unfold send_msg, mbind, M_bind, lift. by rewrite Hp. }
    rewrite Hw. destruct cut as [k|]; by rewrite ?take_nil.
Qed.
End wire.

(** ** A request over the link *)

Section requests.
Context `{Digest} `{!IterOrder TokenId Lease} {W : Type} `{StoreLaws W stored}.
Context `{Codec} {display : error → str} `{!WireLaws display} `{Rustls}.
#[local] Existing Instance link_dialer.

(** The relay's part of one connection: nothing, or the answer to a message. *)
Definition relay_turn (d : Delivery) (msg : ControlMessage) (sw sw' : ServerState W * W)
    (reply : option ControlMessage) : Prop :=
  (sw' = sw ∧ reply = None) ∨
  ∃ now peer conn cut ending, d = Delivered now peer conn cut ending ∧
    answer display now peer conn (Ok (Some msg)) sw = (reply, sw').

(** Deliveries at times of the clock. *)
Definition delivery_time (d : Delivery (W := W)) : Z :=
  match d with Delivered now _ _ _ _ => now | _ => 0 end.

(** A connection takes the relay through one of its operations at most. *)
Lemma turn_reachable d msg s w sw' reply : state_reachable (stored := stored) s w →
  0 ≤ delivery_time d → relay_turn d msg (s, w) sw' reply →
  state_reachable (stored := stored) sw'.1 sw'.2.
Proof.
  intros Hs Ht [[-> _]|(now & peer & conn & cut & ending & -> & Hans)]; [done|]. cbn in Ht.
  assert (Hop : ∀ op, state_op_time op = now →
    state_reachable (stored := stored) (run_state_op op (s, w)).1 (run_state_op op (s, w)).2).
  { intros op Hop. apply (sr_op op s w); [done|by rewrite Hop|apply surjective_pairing]. }
  unfold answer in Hans. destruct (first_message _) as [lp token rid|old new|secret new|e|]; cbn in Hans.
  - specialize (Hop (OpRegister token (Some rid) peer now conn) eq_refl). cbn in Hop.
    destruct (register_with_recovery _ _ _ _ _ _) as [r sw]. by injection Hans as _ <-.
  - specialize (Hop (OpRotateTokens old new now) eq_refl). cbn in Hop. unfold serve_rotation in Hans.
    destruct (rotate _ _ _ _) as [r sw]. by injection Hans as _ <-.
  - specialize (Hop (OpRecoverTokens secret new peer now) eq_refl). cbn in Hop. unfold serve_recovery in Hans.
    destruct (recover _ _ _ _ _) as [[[port c]|e] sw]; by injection Hans as _ <-.
  - by injection Hans as _ <-.
  - by injection Hans as _ <-.
Qed.

Lemma send_whole m p acc : sendable m → serialize m = Ok p →
  ∃ k, written (send_msg m {| written := []; capacity := acc |}).2 = take k (frame p).
Proof.
  intros [Hok Hs] Hp.
  destruct (send_msg_prefix m p {| written := []; capacity := acc |} Hp) as (k & Hw & _);
    [by eapply wire_small|]. by exists k.
Qed.

Lemma send_unserialized m e w : serialize m = Err e → send_msg m w = (Err e, w).
Proof. intros Hs. unfold send_msg, mbind, M_bind, lift. by rewrite Hs. Qed.

Lemma request_run quic msg text fs n r fs' n' : sendable msg → 0 ≤ delivery_time (delivery n) →
  state_ok (stored := stored) (relay n).1 (relay n).2 →
  request (N := Link W) (Dialer0 := link_dialer display) quic msg text (fs, n) = (r, (fs', n')) →
  fs' = fs ∧ typed n' = typed n ∧ ∃ reply, relay_turn (delivery n) msg (relay n) (relay n') reply ∧
    ∀ stream m, r = Ready (Ok (stream, m)) → reply = Some m.
Proof.
  intros Hm Ht Hok. unfold request, on_net, awaiting, returns, mbind, CM_bind, mret, CM_ret. cbn.
  destruct (send_msg msg _) as [[[]|e] out] eqn:Hsend.
  2:{ intros [= <- <- <-]. split_and!; [done..|]. exists None. split; [by left|done]. }
  destruct (serialize msg) as [p|e'] eqn:Hp; [|by rewrite (send_unserialized _ _ _ Hp) in Hsend].
  destruct (send_whole msg p (match delivery n with Lost accepted _ => accepted | _ => None end) Hm Hp)
    as [k Hk]. rewrite Hsend in Hk. cbn in Hk. unfold exchange. cbn.
  assert (Hlost : ∀ x, x ≠ Eof → (recv_msg {| chunks := []; behind := x |}).1 = starved x).
  { intros x Hx. destruct (recv_msg_decode {| chunks := []; behind := x |}) as [-> _]. by destruct x. }
  destruct (delivery n) as [err|acc failure|now peer conn cut ending] eqn:Hd; cbn.
  - pose proof (Hlost (Fails OtherKind)) as Hr.
    destruct (recv_msg {| chunks := []; behind := Fails OtherKind |}) as [x rd]. cbn in Hr.
    rewrite Hr by done. cbn. intros [= <- <- <-]. split_and!; [done..|]. exists None. split; [by left|done].
  - pose proof (Hlost (Fails failure)) as Hr.
    destruct (recv_msg {| chunks := []; behind := Fails failure |}) as [x rd]. cbn in Hr.
    rewrite Hr by done. cbn. intros [= <- <- <-]. split_and!; [done..|]. exists None. split; [by left|done].
  - rewrite Hk. destruct (answer_bytes_cut msg p k now peer conn (relay n) Hm Hp) as [E|E].
    + rewrite E. cbn. intros Hrun.
      pose proof (read_reply None cut ending) as Hread. cbn [from_option] in Hread.
      destruct (recv_msg _) as [[[[m|]|e]|] rd]; cbn in Hread, Hrun; simplify_eq/=;
        (split_and!; [done..|]; exists None; split; [by left|]; try done).
      intros stream m' _. by specialize (Hread m ltac:(done) eq_refl).
    + rewrite E. destruct (answer display now peer conn (Ok (Some msg)) (relay n)) as [reply sw'] eqn:Ea.
      cbn. intros Hrun. assert (Hs : ∀ a, reply = Some a → sendable a).
      { intros a ->. destruct (relay n) as [s w]. by eapply (answer_sendable (stored := stored)). }
      pose proof (λ m, read_reply reply cut ending m Hs) as Hread.
      assert (Hturn : relay_turn (Delivered now peer conn cut ending) msg (relay n) sw' reply)
        by (right; by exists now, peer, conn, cut, ending).
      destruct (recv_msg _) as [[[[m|]|e]|] rd]; cbn in Hread, Hrun; simplify_eq/=;
        (split_and!; [done..|]; exists reply; split; [done|]; try done).
      intros stream m' [= _ <-]. by apply Hread.
Qed.

(** Connecting changes nothing at the relay. *)
Lemma connect_quic_run server insecure fs n r fs' n' :
  connect_quic (N := Link W) (Dialer0 := link_dialer display) server insecure (fs, n) = (r, (fs', n')) →
  fs' = fs ∧ n' = n ∧ r ≠ Pending.
Proof.
  unfold connect_quic, on_net, returns, mbind, CM_bind, mret, CM_ret. cbn.
  destruct (if insecure then _ else _) as [config|e]; cbn; [|by intros [= <- <- <-]].
  by destruct (delivery n); intros [= <- <- <-].
Qed.
End requests.
