(* ===== verification/HostFacts.v ===== *)
(** A claim under every method of the relay's state: what strangers' requests
    and its own host's rotation and recovery do to it. *)

From Stdlib Require Import Strings.Byte.
From S2P Require Import Prelude Bytes HostAdmission LeaseTable LeaseFacts LeaseInv Fs Identity Protocol Message.
From S2P Require Import MessageFacts State StateFacts StateInv StateProps Tunnel Crypto Relay Cli Link LinkFacts.

Section claims.
Context `{Digest} `{!IterOrder TokenId Lease} {W : Type} `{StoreLaws W stored}.
Implicit Types (s : ServerState W) (w : W).

Lemma reap_kept now t id l : t.(leases) !! id = Some l → expired now l = false →
  (reap_expired now t).(leases) !! id = Some l.
Proof. intros. by apply reap_lookup. Qed.

Lemma claims_kept_lookup now s w s' w' id l : claims_kept (stored := stored) now s w s' w' →
  (st_leases s).(leases) !! id = Some l → expired now l = false →
  (st_leases s').(leases) !! id = Some l.
Proof. intros ([-> | ->] & _) Hl He; [done|by apply reap_kept]. Qed.

(** The part of a lease that only its own host's requests change. *)
Definition same_right (l l' : Lease) : Prop :=
  Lease.port l' = Lease.port l ∧ Lease.retired_token_ids l' = Lease.retired_token_ids l ∧
  (is_Some (Lease.recovery_id l) → Lease.recovery_id l' = Lease.recovery_id l).

(** The operation neither rotates this identity away nor presents its key. *)
Definition spares (id : TokenId) (l : Lease) (op : state_op (W := W)) : Prop :=
  match op with
  | OpRotateTokens old _ _ => from_token old ≠ id
  | OpRecoverTokens secret _ _ _ => Lease.recovery_id l ≠ Some (from_token secret)
  | _ => True
  end.

Lemma register_keeps token rid ip now c s w r s' w' id l :
  register_with_recovery token rid ip now (Some c) (s, w) = (r, (s', w')) →
  (st_leases s).(leases) !! id = Some l → expired now l = false →
  ∃ l', (st_leases s').(leases) !! id = Some l' ∧ same_right l l'.
Proof.
  intros Hrun%(register_run (stored := stored)) Hl He. pose proof (reap_kept now _ _ _ Hl He) as Hl'.
  destruct r as [reg|e].
  2:{ exists l. split; [by eapply claims_kept_lookup|done]. }
  destruct Hrun as (t & _ & ((ports & Hc & Hp) & _ & _ & _ & _ & ->) & _ & _ & ->). cbn.
  destruct (decide (id = from_token token)) as [->|Hne].
  2:{ exists l. by rewrite lookup_insert_ne. }
  rewrite lookup_insert_eq. eexists. split; [done|]. destruct Hc as [_ Hc]. rewrite Hl' in Hc |- *.
  destruct Hc as (_ & -> & _). apply list_elem_of_singleton in Hp. split_and!; cbn; [done..|].
  intros [k Hk]. by rewrite Hk.
Qed.

Lemma end_keeps id0 ses now s w r s' w' id l :
  end_session id0 ses now (s, w) = (r, (s', w')) → (st_leases s).(leases) !! id = Some l →
  ∃ l', (st_leases s').(leases) !! id = Some l' ∧ same_right l l'.
Proof.
  intros (b & t & He & Ht & _)%(end_run (stored := stored)) Hl. rewrite Ht. destruct b.
  - apply end_true in He as (l0 & Hl0 & _ & ->). cbn. destruct (decide (id = id0)) as [->|Hne].
    + rewrite lookup_insert_eq. eexists. split; [done|]. rewrite Hl in Hl0. by injection Hl0 as <-.
    + exists l. by rewrite lookup_insert_ne.
  - apply end_false in He as [-> _]. by exists l.
Qed.

Lemma rotate_keeps old new now s w r s' w' id l :
  rotate old new now (s, w) = (r, (s', w')) → from_token old ≠ id →
  (st_leases s).(leases) !! id = Some l → expired now l = false →
  (st_leases s').(leases) !! id = Some l.
Proof.
  intros Hrun%(rotate_run (stored := stored)) Hne Hl He. pose proof (reap_kept now _ _ _ Hl He) as Hl'.
  destruct r as [port|e]; [|by eapply claims_kept_lookup].
  destruct Hrun as (_ & res & t & [_ Hm] & _ & Hout). destruct res as [p|p]; [|by destruct Hout as [-> _]].
  destruct Hout as [_ ->]. cbn. destruct (leases _ !! from_token new) as [l0|] eqn:Hnew; [naive_solver|].
  destruct Hm as (_ & _ & Hm). destruct (leases _ !! from_token old) as [l0|]; [|naive_solver].
  destruct Hm as (_ & _ & _ & ->). cbn. rewrite lookup_insert_ne by congruence.
  by rewrite lookup_delete_ne.
Qed.

Lemma recover_keeps secret new ip now s w r s' w' id l : state_ok (stored := stored) s w →
  recover secret new ip now (s, w) = (r, (s', w')) → Lease.recovery_id l ≠ Some (from_token secret) →
  (st_leases s).(leases) !! id = Some l → expired now l = false →
  (st_leases s').(leases) !! id = Some l.
Proof.
  intros Hok Hrun Hk Hl He. pose proof (reap_kept now _ _ _ Hl He) as Hl'. destruct r as [[port conn]|e].
  2:{ apply (recover_run (stored := stored)) in Hrun. by eapply claims_kept_lookup. }
  destruct (recover_connections _ _ _ _ _ _ _ _ _ _ Hok Hrun) as (old & l0 & Hl0 & Hk0 & _ & Hout).
  case_decide as Hd; [by destruct Hout as (_ & -> & _)|].
  destruct Hout as (_ & _ & _ & _ & Hof). unfold recovery_of in Hof. rewrite decide_False in Hof by done.
  destruct Hof as (Hnew & _ & _ & _ & ->). cbn.
  rewrite lookup_insert_ne by congruence. rewrite lookup_delete_ne by congruence. done.
Qed.

(** No operation of the relay takes a live claim from its holder, but a rotation
    of this identity and a recovery with this key. *)
Lemma op_keeps op s w s' w' id l : state_ok (stored := stored) s w →
  run_state_op op (s, w) = (s', w') → spares id l op →
  (st_leases s).(leases) !! id = Some l → expired (state_op_time op) l = false →
  ∃ l', (st_leases s').(leases) !! id = Some l' ∧ same_right l l'.
Proof.
  intros Hok Hrun Hsp Hl He. destruct op as [tk rid ip now c|id0 ses now|old new now|sec new ip now|tk ip now|now];
    cbn in Hrun, Hsp, He;
    match goal with H : (?run).2 = _ |- _ => destruct run as [r [s2 w2]] eqn:E end;
    cbn in Hrun; simplify_eq.
  - by eapply register_keeps.
  - by eapply end_keeps.
  - exists l. split; [|done]. by eapply rotate_keeps.
  - exists l. split; [|done]. by eapply recover_keeps.
  - exists l. split; [|done]. apply (abandoned_run (stored := stored)) in E. by eapply claims_kept_lookup.
  - exists l. split; [|done]. apply (refresh_run (stored := stored)) in E as [-> _]. by apply reap_kept.
Qed.

(** The host's own rotation of a claim it holds under the old identity, or
    already holds under the new one, answers with its port, and the claim is
    then the new identity's; one that fails leaves it where it was. *)
Lemma rotate_own old new now s w r s' w' id l : state_ok (stored := stored) s w →
  rotate old new now (s, w) = (r, (s', w')) →
  (st_leases s).(leases) !! id = Some l → expired now l = false →
  id = from_token old ∨ id = from_token new →
  match r with
  | Ok port => port = Some (Lease.port l) ∧ ∃ l', (st_leases s').(leases) !! from_token new = Some l' ∧
      Lease.port l' = Lease.port l ∧ Lease.recovery_id l' = Lease.recovery_id l ∧
      from_token old ∈ Lease.retired_token_ids l'
  | Err _ => (st_leases s').(leases) !! id = Some l
  end.
Proof.
  intros [Hinv _] Hrun%(rotate_run (stored := stored)) Hl He Hid.
  pose proof (reap_kept now _ _ _ Hl He) as Hl'. destruct r as [port|e]; [|by eapply claims_kept_lookup].
  destruct Hrun as (_ & res & t & [Hne Hm] & -> & Hout).
  pose proof (wf_leases _ (proj1 (reap_inv now _ Hinv))) as Hwf.
  destruct (leases (reap_expired now (st_leases s)) !! from_token new) as [l0|] eqn:Hnew.
  - destruct Hm as (Hin & -> & ->). cbn in Hout. destruct Hout as [-> _].
    destruct Hid as [->| ->].
    + pose proof (wf_retired_dead _ Hwf _ _ _ Hnew Hin). congruence.
    + rewrite Hl' in Hnew. injection Hnew as <-. split; [done|]. by exists l.
  - destruct Hid as [->| ->]; [|congruence]. destruct Hm as (_ & _ & Hm). rewrite Hl' in Hm.
    destruct Hm as (_ & _ & -> & ->). destruct Hout as [_ ->]. cbn. split; [done|].
    rewrite lookup_insert_eq. eexists. split_and!; [done..|]. by left.
Qed.

(** A successful recovery answers with the port of the claim enrolled with the
    presented key, and the new identity holds that claim. *)
Lemma recover_own secret new ip now s w port conn s' w' : state_ok (stored := stored) s w →
  recover secret new ip now (s, w) = (Ok (port, conn), (s', w')) →
  ∃ id l l', (st_leases s).(leases) !! id = Some l ∧ Lease.recovery_id l = Some (from_token secret) ∧
    Lease.port l = port ∧ (st_leases s').(leases) !! from_token new = Some l' ∧ Lease.port l' = port ∧
    Lease.recovery_id l' = Some (from_token secret).
Proof.
  intros Hok Hrun.
  destruct (recover_connections _ _ _ _ _ _ _ _ _ _ Hok Hrun) as (old & l & Hl & Hk & -> & Hout).
  exists old, l. case_decide as Hd.
  - destruct Hout as (_ & -> & _). subst old. exists l. by split_and!.
  - destruct Hout as (_ & _ & _ & _ & Hof). unfold recovery_of in Hof. rewrite decide_False in Hof by done.
    destruct Hof as (_ & _ & _ & _ & ->). cbn. rewrite lookup_insert_eq. eexists. by split_and!.
Qed.

(** A recovery, whoever asks for it, loses no claim: the one it moves keeps its
    port and its key. *)
Lemma recover_moves secret new ip now s w r s' w' id l : state_ok (stored := stored) s w →
  recover secret new ip now (s, w) = (r, (s', w')) →
  (st_leases s).(leases) !! id = Some l → expired now l = false →
  ∃ id' l', (st_leases s').(leases) !! id' = Some l' ∧ Lease.port l' = Lease.port l ∧
    Lease.recovery_id l' = Lease.recovery_id l.
Proof.
  intros Hok Hrun Hl He. destruct (decide (Lease.recovery_id l = Some (from_token secret))) as [Hk|Hk].
  2:{ exists id, l. split; [|done]. by eapply recover_keeps. }
  destruct r as [[port conn]|e].
  - destruct (recover_own _ _ _ _ _ _ _ _ _ _ Hok Hrun) as (id0 & l0 & l' & Hl0 & Hk0 & <- & Hl' & Hp & Hk').
    assert (id0 = id) as ->
      by (by eapply (wf_recovery_inj _ (wf_leases _ (proj1 (proj1 Hok))))).
    rewrite Hl in Hl0. injection Hl0 as <-. eexists _, l'. by rewrite Hk, Hk'.
  - apply (recover_run (stored := stored)) in Hrun. exists id, l. split; [|done].
    by eapply claims_kept_lookup.
Qed.

(** A successful registration: the claim is the identity's, active over this
    connection, on the port it had if it had one, and enrolled with the key. *)
Lemma register_own token rid ip now c s w reg s' w' :
  register_with_recovery token (Some rid) ip now (Some c) (s, w) = (Ok reg, (s', w')) →
  ∃ l, (st_leases s').(leases) !! from_token token = Some l ∧ Lease.port l = public_port reg ∧
    Lease.status l = Active (reg_session_id reg) ∧ Lease.recovery_id l = Some (MkTokenId rid) ∧
    active_connections s' !! from_token token = Some (reg_session_id reg, c) ∧
    ∀ l0, (st_leases s).(leases) !! from_token token = Some l0 → expired now l0 = false →
      Lease.port l0 = public_port reg.
Proof.
  intros (t & _ & ((ports & Hc & Hp) & _ & Hmatch & _ & _ & ->) & _ & _ & ->)%(register_run (stored := stored)).
  cbn. rewrite !lookup_insert_eq. eexists. split_and!; [done..| |done|].
  - cbn. destruct (leases (reap_expired now (st_leases s)) !! from_token token) as [l|] eqn:El; [|done].
    cbn. destruct (Lease.recovery_id l) as [k|] eqn:Ek; [|done].
    by rewrite (Hmatch l k (MkTokenId rid) eq_refl Ek eq_refl).
  - intros l0 Hl0 He. destruct Hc as [_ Hc]. rewrite (reap_kept now _ _ _ Hl0 He) in Hc.
    destruct Hc as (_ & -> & _). by apply list_elem_of_singleton in Hp.
Qed.
End claims.
