(* ===== verification/HostProps.v ===== *)
(** The host and the relay together: rotating and recovering an identity, and
    registering a tunnel, over a link and a disk that may fail at any point. *)

From Stdlib Require Import Strings.Byte.
From S2P Require Import Prelude Bytes HostAdmission LeaseTable LeaseFacts LeaseInv.
From S2P Require Import Fs FsLogic Identity IdentityFacts Protocol Message MessageFacts.
From S2P Require Import State StateFacts StateInv StateProps Tunnel MessageProps CryptoProps Crypto Relay Cli Link LinkFacts HostFacts.

Section host.
Context `{Digest} `{!IterOrder TokenId Lease} {W : Type} `{StoreLaws W stored}.
Context `{Codec} {display : error → str} `{!WireLaws display} `{Rustls} `{TempfileLaws}.
#[local] Instance the_link : Dialer (Link W) := link_dialer display.
Context (env : Env).
Implicit Types (s : ServerState W) (w : W) (fs : Fs).

Notation path := (identity_path env).

(** The claim on port [P] is within the host's reach: the identity in its file
    holds it, or has handed it over to the pending identity in the file beside
    it. *)
Definition in_reach (P : Z) fs (t : LeaseTable) : Prop :=
  ∃ A X l, holds path (bytes_list A) fs ∧ t.(leases) !! from_token X = Some l ∧ Lease.port l = P ∧
    (X = A ∨ from_token A ∈ Lease.retired_token_ids l ∧
       ∃ q, pending_path path = Ok q ∧ holds q (bytes_list X) fs).

(** The identity in the file holds the claim. *)
Definition installed_claim (P : Z) fs (t : LeaseTable) : Prop :=
  ∃ A l, holds path (bytes_list A) fs ∧ t.(leases) !! from_token A = Some l ∧ Lease.port l = P.

Lemma installed_in_reach P fs t : installed_claim P fs t → in_reach P fs t.
Proof. intros (A & l & ? & ? & ?). exists A, A, l. auto. Qed.

Lemma in_reach_grows P fs fs' t : grows (names fs) (names fs') → in_reach P fs t → in_reach P fs' t.
Proof.
  intros Hg (A & X & l & HA & Hl & Hp & HX). exists A, X, l. split_and!; [by eapply holds_stable|done..|].
  destruct HX as [->|(Hr & q & Hq & HX)]; [by left|right]. split; [done|]. exists q.
  split; [done|by eapply holds_stable].
Qed.

(** The claim on [P] has not expired. *)
Definition live (P now : Z) (t : LeaseTable) : Prop :=
  ∀ id l, t.(leases) !! id = Some l → Lease.port l = P → expired now l = false.

(** A request of somebody who has neither the host's identities nor its key. *)
Definition stranger (P : Z) s (op : state_op (W := W)) : Prop :=
  ∀ id l, (st_leases s).(leases) !! id = Some l → Lease.port l = P → spares id l op.

(** What becomes of the host's files and the relay: other processes on the
    host's machine and other people at the relay act, and the host tries to
    rotate, each time with any fault of the disk and any failure of the link. *)
Inductive history (P : Z) : Fs → ServerState W → W → Prop :=
  | h_start fs s w : friendly fs → state_reachable (stored := stored) s w →
      in_reach P fs (st_leases s) → history P fs s w
  | h_files fs s w fs' : history P fs s w → friendly fs' → grows (names fs) (names fs') →
      history P fs' s w
  | h_relay fs s w op s' w' : history P fs s w → 0 ≤ state_op_time op →
      live P (state_op_time op) (st_leases s) → stranger P s op →
      run_state_op op (s, w) = (s', w') → history P fs s' w'
  | h_rotate fs s w server insecure d typed r fs' n' : history P fs s w → 0 ≤ delivery_time d →
      live P (delivery_time d) (st_leases s) →
      rotate_identity env server insecure (fs, link (s, w) d typed) = (r, (fs', n')) →
      history P fs' (relay n').1 (relay n').2.

(** The client's half of an answered request, and of one that is not. *)
Lemma rotate_on_connection_run quic pr fs n r fs' n' : 0 ≤ delivery_time (delivery n) →
  state_ok (stored := stored) (relay n).1 (relay n).2 → friendly fs →
  rotate_on_connection quic pr (fs, n) = (r, (fs', n')) →
  friendly fs' ∧ ∃ reply,
    relay_turn (display := display) (delivery n) (RotateIdentity (rot_old_token pr) (rot_new_token pr))
      (relay n) (relay n') reply ∧
    ((fs' = fs ∧ ∀ p, r ≠ Ready (Ok p)) ∨
     ∃ p r1, reply = Some (IdentityRotated p) ∧ PendingRotation_finish pr fs = (r1, fs') ∧
       ∀ p', r = Ready (Ok p') → p' = p ∧ r1 = Ok tt).
Proof.
  intros Ht Hok Hfr. unfold rotate_on_connection, on_fs, returns, mbind, CM_bind, mret, CM_ret.
  destruct (request _ _ _ _) as [x [fs1 n1]] eqn:Hreq.
  destruct (request_run (stored := stored) quic (RotateIdentity (rot_old_token pr) (rot_new_token pr)) _ _ _ _ _ _
    (conj I I) Ht Hok Hreq) as (-> & _ & reply & Hturn & Hr).
  destruct x as [[[stream m]|e]|].
  - specialize (Hr stream m eq_refl). subst reply.
    destruct m; try (intros [= <- <- <-]; split; [done|]; eexists; split; [exact Hturn|]; left; by split).
    destruct (PendingRotation_finish pr fs) as [r1 fs2] eqn:Hf.
    pose proof (rotation_finish_spec pr fs r1 fs2 Hfr Hf) as [Hfr2 _].
    destruct r1 as [[]|e]; intros [= <- <- <-]; (split; [done|]); eexists; (split; [exact Hturn|]); right;
      eexists _, _; split_and!; try done. by intros p' [= ->].
  - intros [= <- <- <-]. split; [done|]. exists reply. split; [done|]. left. by split.
  - intros [= <- <- <-]. split; [done|]. exists reply. split; [done|]. left. by split.
Qed.

(** What one attempt leaves. *)
Definition attempt_ok (P : Z) (r : poll (result (option Z))) fs' s' w' : Prop :=
  friendly fs' ∧ state_reachable (stored := stored) s' w' ∧ in_reach P fs' (st_leases s') ∧
  ∀ p, r = Ready (Ok p) → p = Some P ∧ installed_claim P fs' (st_leases s').

Lemma in_reach_prepared P fs t A B q : pending_path path = Ok q → holds path (bytes_list A) fs →
  holds q (bytes_list B) fs → in_reach P fs t →
  ∃ id l, t.(leases) !! id = Some l ∧ Lease.port l = P ∧
    (id = from_token A ∨ id = from_token B ∧ from_token A ∈ Lease.retired_token_ids l).
Proof.
  intros Hq HA HB (A' & X & l & HA' & Hl & Hp & HX). exists (from_token X), l. split_and!; [done..|].
  pose proof (holds_token _ _ _ _ HA HA') as <-. destruct HX as [->|(Hr & q' & Hq' & HX)]; [by left|right].
  rewrite Hq in Hq'. injection Hq' as <-. pose proof (holds_token _ _ _ _ HB HX) as <-. done.
Qed.

(** A rotation as the host and the relay carry it out: it stops before the relay
    has done anything, or the relay's answer to the prepared tokens is followed by
    the installation. *)
Lemma rotate_identity_run fs s w server insecure d typed r fs' n' :
  friendly fs → state_ok (stored := stored) s w → 0 ≤ delivery_time d →
  rotate_identity env server insecure (fs, link (s, w) d typed) = (r, (fs', n')) →
  friendly fs' ∧ ∃ fs1, friendly fs1 ∧ grows (names fs) (names fs1) ∧
    ((fs' = fs1 ∧ relay n' = (s, w) ∧ ∀ p, r ≠ Ready (Ok p)) ∨
     ∃ pr x s' w', rot_path pr = path ∧ pending_path path = Ok (rot_pending_path pr) ∧
       holds path (bytes_list (rot_old_token pr)) fs1 ∧
       holds (rot_pending_path pr) (bytes_list (rot_new_token pr)) fs1 ∧
       rotate (rot_old_token pr) (rot_new_token pr) (delivery_time d) (s, w) = (x, (s', w')) ∧
       relay n' = (s', w') ∧
       ((fs' = fs1 ∧ ∀ p, r ≠ Ready (Ok p)) ∨
        ∃ p r1, x = Ok p ∧ PendingRotation_finish pr fs1 = (r1, fs') ∧
          ∀ p', r = Ready (Ok p') → p' = p ∧ r1 = Ok tt)).
Proof.
  intros Hfr Hok Ht. unfold rotate_identity, on_fs. unfold mbind at 1, CM_bind at 1.
  unfold prepare_rotation. destruct (prepare_rotation_at path fs) as [r0 fs1] eqn:Hprep.
  destruct (prepare_rotation_triple anything stable_anything path _ _ _ Hfr I Hprep) as (Hfr1 & Hg1 & Hpr).
  destruct r0 as [pr|e]; [|intros [= <- <- <-]; split; [done|]; exists fs1; split_and!; [done..|by left]].
  destruct (Hpr pr eq_refl) as ((Hpath & Hq & Hne) & (HA & HB) & _).
  unfold mbind at 1, CM_bind at 1.
  destruct (connect_quic _ _ _) as [[[quic|e]|] [fs2 n2]] eqn:Hc; apply connect_quic_run in Hc as (-> & -> & Hnp);
    [|intros [= <- <- <-]; split; [done|]; exists fs1; split_and!; [done..|by left]|done].
  intros Hrun. apply rotate_on_connection_run in Hrun as (Hfr2 & reply & Hturn & Hout); [|done..].
  split; [done|]. exists fs1. split_and!; [done..|]. cbn in Hturn.
  destruct Hturn as [[Hrel ->]|(now & peer & conn & cut & ending & -> & Hans)].
  { left. destruct Hout as [[-> Hr]|(p & r1 & ? & _)]; [|done]. by split_and!. }
  right. cbn in Hans. unfold serve_rotation in Hans. destruct (rotate _ _ _ _) as [x [s' w']] eqn:Hrot.
  injection Hans as <- Hn'. exists pr, x, s', w'. split_and!; [done..|].
  destruct Hout as [Hout|(p & r1 & Hreply & Hfin & Hr)]; [by left|right].
  destruct x as [port|e]; [|done]. injection Hreply as <-. by exists port, r1.
Qed.

Lemma rotate_attempt P fs s w server insecure d typed r fs' n' :
  friendly fs → state_reachable (stored := stored) s w → in_reach P fs (st_leases s) →
  0 ≤ delivery_time d → live P (delivery_time d) (st_leases s) →
  rotate_identity env server insecure (fs, link (s, w) d typed) = (r, (fs', n')) →
  attempt_ok P r fs' (relay n').1 (relay n').2.
Proof.
  intros Hfr Hreach Hin Ht Hlive Hrun. pose proof (state_reachable_ok _ _ Hreach) as Hok.
  apply rotate_identity_run in Hrun as (Hfr' & fs1 & Hfr1 & Hg1 & Hrun); [|done..].
  pose proof (in_reach_grows _ _ _ _ Hg1 Hin) as Hin1.
  destruct Hrun as [(-> & -> & Hr)|(pr & x & s' & w' & Hpath & Hq & HA & HB & Hrot & -> & Hout)].
  { split_and!; try done. intros p Hp. by destruct (Hr p). }
  destruct (in_reach_prepared P fs1 (st_leases s) _ _ _ Hq HA HB Hin1) as (id & l & Hl & Hp & Hid). cbn.
  assert (Hreach' : state_reachable (stored := stored) s' w').
  { apply (sr_op (OpRotateTokens (rot_old_token pr) (rot_new_token pr) (delivery_time d)) s w); [done|done|].
    cbn. by rewrite Hrot. }
  pose proof (rotate_own _ _ _ _ _ _ _ _ _ _ Hok Hrot Hl (Hlive _ _ Hl Hp) ltac:(tauto)) as Hown.
  assert (Hin1' : in_reach P fs1 (st_leases s')).
  { destruct x as [port|e].
    - destruct Hown as (_ & l' & Hl' & Hp' & _ & Hr'). eexists _, _, l'. split_and!; [exact HA|exact Hl'|congruence|].
      right. split; [done|]. by eexists.
    - destruct Hid as [->|[-> Hr]]; eexists _, _, l; (split_and!; [exact HA|exact Hown|done|]); [by left|].
      right. split; [done|]. by eexists. }
  destruct Hout as [[-> Hr]|(p & r1 & -> & Hfin & Hr)].
  { split_and!; try done. intros p Hp'. by destruct (Hr p). }
  destruct Hown as (-> & l' & Hl' & Hp' & _).
  apply rotation_finish_spec in Hfin as [_ Hfin]; [|done]. rewrite Hpath in Hfin.
  assert (Hnew : holds path (bytes_list (rot_new_token pr)) fs' → installed_claim P fs' (st_leases s')).
  { intros Hnew. eexists _, l'. split_and!; [exact Hnew|done|congruence]. }
  split_and!; [done|done| |].
  - destruct r1 as [[]|e]; cbn in Hfin; [|destruct Hfin as [Hg|Hnew']].
    + apply installed_in_reach, Hnew, Hfin.
    + by eapply in_reach_grows.
    + by apply installed_in_reach, Hnew.
  - intros p Hp1. destruct (Hr p Hp1) as [-> ->]. cbn in Hfin. split; [congruence|]. apply Hnew, Hfin.
Qed.

Lemma history_ok P fs s w : history P fs s w →
  friendly fs ∧ state_reachable (stored := stored) s w ∧ in_reach P fs (st_leases s).
Proof.
  induction 1 as [fs s w ? ? ?|fs s w fs' _ (? & ? & ?) ? ?|fs s w op s' w' _ (Hfr & Hs & Hin) Ht Hlive Hst Hrun|
    fs s w server insecure d typed r fs' n' _ (Hfr & Hs & Hin) Ht Hlive Hrun].
  - done.
  - split_and!; [done|done|by eapply in_reach_grows].
  - split_and!; [done|by eapply sr_op|]. destruct Hin as (A & X & l & HA & Hl & Hp & HX).
    destruct (op_keeps op s w s' w' _ l (state_reachable_ok _ _ Hs) Hrun (Hst _ _ Hl Hp) Hl (Hlive _ _ Hl Hp))
      as (l' & Hl' & Hp' & Hr' & _).
    exists A, X, l'. rewrite Hr'. split_and!; [done|done|congruence|done].
  - destruct (rotate_attempt P _ _ _ _ _ _ _ _ _ _ Hfr Hs Hin Ht Hlive Hrun) as (? & ? & ? & _). done.
Qed.

(** Rotating an identity never loses the port, end to end: over every history
    of attempts with lost or cut-off messages, disk faults and crashes of the
    command, in between requests of strangers at the relay, the live claim stays
    within the host's reach, held by the identity in its file or by the pending
    one beside it; and an attempt that reports success reports the claim's port
    and leaves the holder's identity installed. *)
Theorem rotation_end_to_end P fs s w : history P fs s w →
  in_reach P fs (st_leases s) ∧
  ∀ server insecure d typed p fs' n', 0 ≤ delivery_time d → live P (delivery_time d) (st_leases s) →
    rotate_identity env server insecure (fs, link (s, w) d typed) = (Ready (Ok p), (fs', n')) →
    p = Some P ∧ installed_claim P fs' (st_leases (relay n').1).
Proof.
  intros (Hfr & Hs & Hin)%history_ok. split; [done|].
  intros server insecure d typed p fs' n' Ht Hlive Hrun.
  destruct (rotate_attempt P _ _ _ _ _ _ _ _ _ _ Hfr Hs Hin Ht Hlive Hrun) as (_ & _ & _ & Hr).
  by apply Hr.
Qed.

(** ** Registering a tunnel *)

(** A request and the check of its answer, as two outcomes. *)
Lemma on_fs_run {A} (m : M Fs A) fs (n : Link W) : on_fs m (fs, n) = (Ready (m fs).1, ((m fs).2, n)).
Proof. unfold on_fs. by destruct (m fs). Qed.

(** What the relay makes of a registration. *)
Lemma register_turn d local_port A rid s w sw' reply : local_port ≠ 0 →
  relay_turn (display := display) d (Register Tcp local_port A rid) (s, w) sw' reply →
  (∀ id l, (st_leases s).(leases) !! id = Some l → expired (delivery_time d) l = false →
     ∃ l', (st_leases sw'.1).(leases) !! id = Some l' ∧ same_right l l') ∧
  ∀ port, reply = Some (TunnelReady port) → ∃ l session conn,
    (st_leases sw'.1).(leases) !! from_token A = Some l ∧ Lease.status l = Active session ∧
    Lease.recovery_id l = Some (MkTokenId rid) ∧
    active_connections sw'.1 !! from_token A = Some (session, conn) ∧
    ∀ l0, (st_leases s).(leases) !! from_token A = Some l0 → expired (delivery_time d) l0 = false →
      Lease.port l0 = Lease.port l.
Proof.
  intros Hlp [[-> ->]|(now & peer & conn & cut & ending & -> & Hans)].
  { split; [|done]. intros id l Hl _. by exists l. }
  rewrite answer_register in Hans by done. cbn [delivery_time].
  destruct (register_with_recovery _ _ _ _ _ _) as [y [s' w']] eqn:Hrun. injection Hans as <- <-.
  split; [intros id l; by eapply register_keeps|]. intros port Hp.
  destruct y as [reg|e]; [|done].
  destruct (register_own _ _ _ _ _ _ _ _ _ _ Hrun) as (l & Hl & Hlp' & Hst & Hk & Hac & Hold).
  exists l, (reg_session_id reg), conn. split_and!; [done..|]. intros l0 Hl0 He. rewrite Hlp'. by apply Hold.
Qed.

Lemma connect_run fs s w server local_port insecure d typed r fs' n' :
  friendly fs → state_reachable (stored := stored) s w → 0 ≤ delivery_time d →
  u16_ok local_port → local_port ≠ 0 →
  connect env server local_port insecure (fs, link (s, w) d typed) = (r, (fs', n')) →
  friendly fs' ∧ state_reachable (stored := stored) (relay n').1 (relay n').2 ∧
  grows (names fs) (names fs') ∧
  (∀ id l, (st_leases s).(leases) !! id = Some l → expired (delivery_time d) l = false →
     ∃ l', (st_leases (relay n').1).(leases) !! id = Some l' ∧ same_right l l') ∧
  ∀ tunnel, r = Ready (Ok tunnel) → ∃ A S l session conn,
    holds path (bytes_list A) fs' ∧ holds (recovery_path env) (bytes_list S) fs' ∧
    (st_leases (relay n').1).(leases) !! from_token A = Some l ∧
    Lease.status l = Active session ∧ Lease.recovery_id l = Some (from_token S) ∧
    active_connections (relay n').1 !! from_token A = Some (session, conn) ∧
    ∀ l0, (st_leases s).(leases) !! from_token A = Some l0 → expired (delivery_time d) l0 = false →
      Lease.port l0 = Lease.port l.
Proof.
  intros Hfr Hreach Ht Hlp Hlp0. unfold connect. unfold mbind at 1, CM_bind at 1. rewrite on_fs_run.
  destruct (load_or_create env fs) as [x1 fs1] eqn:E1. cbn [fst snd].
  destruct (load_or_create_triple anything stable_anything path _ _ _ Hfr I E1) as (Hfr1 & Hg1 & HA1).
  assert (Hkeep : ∀ id l, (st_leases s).(leases) !! id = Some l → expired (delivery_time d) l = false →
    ∃ l', (st_leases s).(leases) !! id = Some l' ∧ same_right l l') by (intros id l; by exists l).
  destruct x1 as [A|e]; [|intros [= <- <- <-]; by split_and!].
  destruct (HA1 A eq_refl) as [HA _]. unfold mbind at 1, CM_bind at 1. rewrite on_fs_run.
  destruct (load_or_create_recovery env fs1) as [x2 fs2] eqn:E2. cbn [fst snd].
  destruct (load_or_create_triple _ (holds_stable path (bytes_list A)) (recovery_path env) _ _ _ Hfr1 HA E2)
    as (Hfr2 & Hg2 & HS1).
  assert (Hg : grows (names fs) (names fs2)) by (by etrans).
  destruct x2 as [S|e]; [|intros [= <- <- <-]; by split_and!].
  destruct (HS1 S eq_refl) as [HS HA2]. unfold mbind at 1, CM_bind at 1.
  destruct (connect_quic _ _ _) as [[[quic|e]|] [fs3 n3]] eqn:Hc;
    apply connect_quic_run in Hc as (-> & -> & Hnp); [|intros [= <- <- <-]; by split_and!|done].
  unfold mbind at 1, CM_bind at 1. destruct (request _ _ _ _) as [x [fs4 n4]] eqn:Hreq.
  assert (Hm : sendable (Register Tcp local_port A (recovery_fingerprint S))) by by split.
  destruct (request_run (stored := stored) quic _ _ _ (link (s, w) d typed) _ _ _ Hm Ht (state_reachable_ok _ _ Hreach) Hreq)
    as (-> & _ & reply & Hturn & Hread). cbn in Hturn.
  destruct (register_turn _ _ _ _ _ _ _ _ Hlp0 Hturn) as [Hkept Hlive].
  pose proof (turn_reachable _ _ _ _ _ _ Hreach Ht Hturn) as Hreach'.
  intros Hrun. assert (fs' = fs2 ∧ n' = n4) as [-> ->].
  { unfold returns, mbind, CM_bind, mret, CM_ret in Hrun. repeat case_match; simplify_eq/=; done. }
  split_and!; [done..|]. intros tunnel ->.
  destruct x as [[[stream m]|e]|]; [|done|done].
  destruct m as [| port | | | | | |]; try (by cbn in Hrun).
  specialize (Hread stream (TunnelReady port) eq_refl). subst reply.
  destruct (Hlive port eq_refl) as (l & session & conn & Hl & Hst & Hk & Hac & Hold).
  by exists A, S, l, session, conn.
Qed.


(** C7. Registering, end to end: when the host program reports its tunnel live,
    the token and the recovery secret it used are in its private files, and the
    relay holds an active lease for exactly this identity, enrolled with the
    fingerprint of exactly this secret and tied to the connection; an unexpired
    claim of the identity has kept its port.  Whatever the outcome, no live claim
    at the relay loses its holder, port or key, and the host's files only grow. *)
Theorem registration_end_to_end fs s w server local_port insecure d typed r fs' n' :
  friendly fs → state_reachable (stored := stored) s w → 0 ≤ delivery_time d →
  u16_ok local_port → local_port ≠ 0 →
  connect env server local_port insecure (fs, link (s, w) d typed) = (r, (fs', n')) →
  grows (names fs) (names fs') ∧
  (∀ id l, (st_leases s).(leases) !! id = Some l → expired (delivery_time d) l = false →
     ∃ l', (st_leases (relay n').1).(leases) !! id = Some l' ∧ same_right l l') ∧
  ∀ tunnel, r = Ready (Ok tunnel) → ∃ A S l session conn,
    holds path (bytes_list A) fs' ∧ holds (recovery_path env) (bytes_list S) fs' ∧
    (st_leases (relay n').1).(leases) !! from_token A = Some l ∧
    Lease.status l = Active session ∧ Lease.recovery_id l = Some (from_token S) ∧
    active_connections (relay n').1 !! from_token A = Some (session, conn) ∧
    ∀ l0, (st_leases s).(leases) !! from_token A = Some l0 → expired (delivery_time d) l0 = false →
      Lease.port l0 = Lease.port l.
Proof.
  intros Hfr Hreach Ht Hlp Hlp0 Hrun.
  by destruct (connect_run _ _ _ _ _ _ _ _ _ _ _ Hfr Hreach Ht Hlp Hlp0 Hrun) as (_ & _ & Hout).
Qed.

(** ** Recovering an identity *)

Lemma recovery_secret_run backup fs (n : Link W) r fs' n' : friendly fs →
  recovery_secret env backup (fs, n) = (r, (fs', n')) →
  friendly fs' ∧ grows (names fs) (names fs') ∧ n' = n ∧ r ≠ Pending ∧
  ∀ S b, r = Ready (Ok (S, b)) →
    parse_recovery_code (typed n) = Ok S ∨ holds (recovery_path env) (bytes_list S) fs'.
Proof.
  intros Hfr.
  assert (Hprompt : ∀ fs1 r fs' n', prompted_secret (fs1, n) = (r, (fs', n')) →
    fs' = fs1 ∧ n' = n ∧ r ≠ Pending ∧ ∀ S b, r = Ready (Ok (S, b)) → parse_recovery_code (typed n) = Ok S).
  { intros fs1 r1 fs2 n2. unfold prompted_secret, on_net, returns, mbind, CM_bind, mret, CM_ret. cbn.
    destruct (parse_recovery_code (typed n)) as [S|e]; cbn; intros [= <- <- <-]; split_and!; try done.
    by intros ? ? [= -> _]. }
  unfold recovery_secret. destruct backup.
  { intros (-> & -> & Hnp & Hs)%Hprompt. split_and!; [done..|]. intros S b Hr. left. by eapply Hs. }
  unfold mbind at 1, CM_bind at 1. rewrite on_fs_run. unfold attempt. cbn [fst snd].
  destruct (read_recovery env fs) as [x fs1] eqn:Hread. cbn [fst snd].
  destruct (read_existing_triple anything stable_anything _ _ _ _ Hfr I Hread) as (Hfr1 & Hg1 & Hx).
  destruct x as [S|[| |[]|]]; try (intros [= <- <- <-]; by split_and!).
  - intros [= <- <- <-]. split_and!; [done..|]. intros S' b [= <- _]. right. by destruct (Hx S eq_refl).
  - intros (-> & -> & Hnp & Hs)%Hprompt. split_and!; [done..|]. intros S b Hr. left. by eapply Hs.
Qed.

(** The host's half of a recovery: nothing, or the two steps that follow an
    answer. *)
Lemma recover_on_connection_steps quic pr S (backup : bool) fs n r fs' n' : 0 ≤ delivery_time (delivery n) →
  state_ok (stored := stored) (relay n).1 (relay n).2 → friendly fs →
  recover_on_connection env quic pr S backup (fs, n) = (r, (fs', n')) →
  ∃ reply, relay_turn (display := display) (delivery n) (RecoverIdentity S (rec_new_token pr))
      (relay n) (relay n') reply ∧
    ((fs' = fs ∧ ∀ p, r ≠ Ready (Ok p)) ∨ ∃ p y fs2, reply = Some (IdentityRecovered p) ∧
       (if backup then store_recovery env S fs = (y, fs2) else y = Ok tt ∧ fs2 = fs) ∧
       ((fs' = fs2 ∧ ∀ p', r ≠ Ready (Ok p')) ∨ ∃ z, PendingRecovery_finish pr fs2 = (z, fs') ∧
          ∀ p', r = Ready (Ok p') → p' = p ∧ z = Ok tt)).
Proof.
  intros Ht Hok Hfr. unfold recover_on_connection, returns. unfold mbind at 1, CM_bind at 1.
  destruct (request _ _ _ _) as [x [fs1 n1]] eqn:Hreq.
  destruct (request_run (stored := stored) quic (RecoverIdentity S (rec_new_token pr)) _ _ _ _ _ _
    (conj I I) Ht Hok Hreq) as (-> & _ & reply & Hturn & Hr).
  destruct x as [[[stream m]|e]|].
  2,3: intros [= <- <- <-]; exists reply; split; [done|]; left; by split.
  specialize (Hr stream m eq_refl). subst reply.
  destruct m; try (intros [= <- <- <-]; eexists; split; [exact Hturn|]; left; by split).
  intros Hrun. exists (Some (IdentityRecovered public_port)).
  assert (Hstored : ∃ y fs2, (if backup then on_fs (store_recovery env S) else mret tt) (fs, n1)
    = (Ready y, (fs2, n1)) ∧ if backup then store_recovery env S fs = (y, fs2) else y = Ok tt ∧ fs2 = fs).
  { destruct backup; [|by exists (Ok tt), fs]. rewrite on_fs_run. eexists _, _. split; [done|].
    apply surjective_pairing. }
  destruct Hstored as (y & fs2 & Hy & Hst). unfold mbind at 1, CM_bind at 1 in Hrun. rewrite Hy in Hrun.
  assert (n' = n1 ∧ ((fs' = fs2 ∧ ∀ p', r ≠ Ready (Ok p')) ∨ ∃ z, PendingRecovery_finish pr fs2 = (z, fs') ∧
          ∀ p', r = Ready (Ok p') → p' = public_port ∧ z = Ok tt)) as [-> Hout].
  { destruct y as [u|e]; [|injection Hrun as <- <- <-; split; [done|]; by left].
    unfold mbind, CM_bind, mret, CM_ret in Hrun. rewrite on_fs_run in Hrun.
    destruct (PendingRecovery_finish pr fs2) as [[[]|e] fs3] eqn:Hf; cbn in Hrun;
      injection Hrun as <- <- <-; (split; [done|]); right; eexists; (split; [reflexivity|]); [|done].
    by intros p' [= <-]. }
  split; [exact Hturn|]. right. by exists public_port, y, fs2.
Qed.

(** A recovery as the host and the relay carry it out, as for a rotation; a secret
    from the backup is stored before the installation. *)
Lemma recover_identity_run fs s w server insecure backup d code r fs' n' :
  friendly fs → state_ok (stored := stored) s w → 0 ≤ delivery_time d →
  recover_identity env server insecure backup (fs, link (s, w) d code) = (r, (fs', n')) →
  ∃ fs1, friendly fs1 ∧ grows (names fs) (names fs1) ∧
    ((fs' = fs1 ∧ relay n' = (s, w) ∧ ∀ p, r ≠ Ready (Ok p)) ∨
     ∃ S (b : bool) pr ip x s' w',
       (parse_recovery_code code = Ok S ∨ holds (recovery_path env) (bytes_list S) fs1) ∧
       rec_path pr = path ∧ pending_path path = Ok (rec_pending_path pr) ∧
       holds (rec_pending_path pr) (bytes_list (rec_new_token pr)) fs1 ∧
       recover S (rec_new_token pr) ip (delivery_time d) (s, w) = (x, (s', w')) ∧ relay n' = (s', w') ∧
       ((fs' = fs1 ∧ ∀ p, r ≠ Ready (Ok p)) ∨
        ∃ p oc y fs2, x = Ok (p, oc) ∧
          (if b then store_recovery env S fs1 = (y, fs2) else y = Ok tt ∧ fs2 = fs1) ∧
          ((fs' = fs2 ∧ ∀ p', r ≠ Ready (Ok p')) ∨
           ∃ z, PendingRecovery_finish pr fs2 = (z, fs') ∧ ∀ p', r = Ready (Ok p') → p' = p ∧ z = Ok tt))).
Proof.
  intros Hfr Hok Ht. unfold recover_identity. unfold mbind at 1, CM_bind at 1.
  destruct (recovery_secret _ _ _) as [x [fs0 n1]] eqn:E1.
  apply recovery_secret_run in E1 as (Hfr0 & Hg0 & -> & Hnp1 & Hsec); [|done].
  destruct x as [[[S b]|e]|]; [|intros [= <- <- <-]; exists fs0; split_and!; [done..|by left]|done].
  specialize (Hsec S b eq_refl). unfold mbind at 1, CM_bind at 1. rewrite on_fs_run. unfold prepare_recovery.
  destruct (prepare_recovery_at path fs0) as [y fs1] eqn:E2. cbn [fst snd].
  destruct (prepare_recovery_triple anything stable_anything path _ _ _ Hfr0 I E2) as (Hfr1 & Hg1 & Hpr).
  assert (Hg : grows (names fs) (names fs1)) by by etrans.
  destruct y as [pr|e]; [|intros [= <- <- <-]; exists fs1; split_and!; [done..|by left]].
  destruct (Hpr pr eq_refl) as ((Hpath & Hq & _) & (_ & HB) & _). unfold mbind at 1, CM_bind at 1.
  destruct (connect_quic _ _ _) as [[[quic|e]|] [fs3 n3]] eqn:Hc; apply connect_quic_run in Hc as (-> & -> & Hnp);
    [|intros [= <- <- <-]; exists fs1; split_and!; [done..|by left]|done].
  intros Hrun. apply recover_on_connection_steps in Hrun as (reply & Hturn & Hout); [|done..]. cbn in Hturn.
  exists fs1. split_and!; [done..|].
  destruct Hturn as [[Hrel ->]|(now & ip & conn & cut & ending & -> & Hans)].
  { left. destruct Hout as [[-> Hr]|(p & ? & ? & ? & _)]; [|done]. by split_and!. }
  right. cbn in Hans. unfold serve_recovery in Hans. destruct (recover _ _ _ _ _) as [z [s' w']] eqn:Hrec.
  exists S, b, pr, ip, z, s', w'. split; [destruct Hsec; [by left|right; by eapply holds_stable]|].
  assert (Hn' : relay n' = (s', w')) by (by destruct z as [[port oc]|e]; injection Hans as _ <-).
  split_and!; [done..|]. destruct Hout as [?|(p & y & fs2 & -> & Hst & Hout)]; [by left|right].
  destruct z as [[port oc]|e]; [|done]. injection Hans as <- _. by exists port, oc, y, fs2.
Qed.

(** The relay has confirmed a recovery: the secret [S], typed in or stored, is
    enrolled for a claim on port [p], and the relay has given this claim to the
    identity [B] in the host's file of a pending recovery. *)
Definition confirmed (now : Z) (code : str) (fs1 : Fs) s w (sw' : ServerState W * W)
    (S B : TunnelToken) (p : Z) : Prop :=
  (parse_recovery_code code = Ok S ∨ holds (recovery_path env) (bytes_list S) fs1) ∧
  (∃ q, pending_path path = Ok q ∧ holds q (bytes_list B) fs1) ∧
  (∃ ip oc, recover S B ip now (s, w) = (Ok (p, oc), sw')) ∧
  (∃ id l, (st_leases s).(leases) !! id = Some l ∧ Lease.recovery_id l = Some (from_token S) ∧
     Lease.port l = p) ∧
  ∃ l', (st_leases sw'.1).(leases) !! from_token B = Some l' ∧ Lease.port l' = p ∧
    Lease.recovery_id l' = Some (from_token S).

(** C5. Recovering an identity, end to end: whatever the link and the disk do, no
    live claim at the relay loses its port or its key; the host's files only grow
    until the relay has confirmed that the claim of the presented secret now
    belongs to the pending identity; and success means that it has, on the port that
    is reported, and that exactly this identity is installed in the host's file. *)
Theorem recovery_end_to_end fs s w server insecure backup d code r fs' n' :
  friendly fs → state_reachable (stored := stored) s w → 0 ≤ delivery_time d →
  recover_identity env server insecure backup (fs, link (s, w) d code) = (r, (fs', n')) →
  (∀ id l, (st_leases s).(leases) !! id = Some l → expired (delivery_time d) l = false →
     ∃ id' l', (st_leases (relay n').1).(leases) !! id' = Some l' ∧ Lease.port l' = Lease.port l ∧
       Lease.recovery_id l' = Lease.recovery_id l) ∧
  (grows (names fs) (names fs') ∨ ∃ fs1 S B p, grows (names fs) (names fs1) ∧
     confirmed (delivery_time d) code fs1 s w (relay n') S B p) ∧
  ∀ p, r = Ready (Ok p) → ∃ fs1 S B, grows (names fs) (names fs1) ∧
    confirmed (delivery_time d) code fs1 s w (relay n') S B p ∧ holds path (bytes_list B) fs'.
Proof.
  intros Hfr Hreach Ht Hrun. pose proof (state_reachable_ok _ _ Hreach) as Hok.
  apply recover_identity_run in Hrun as (fs1 & Hfr1 & Hg1 & Hrun); [|done..].
  destruct Hrun as [(-> & -> & Hr)|(S & b & pr & ip & x & s' & w' & Hsec & Hpath & Hq & HB & Hrec & -> & Hout)].
  { split_and!; [by eauto|by left|]. intros p Hp. by destruct (Hr p). }
  split; [intros id l; by eapply recover_moves|].
  destruct Hout as [[-> Hr]|(port & oc & y & fs2 & -> & Hst & Hout)].
  { split; [by left|]. intros p Hp. by destruct (Hr p). }
  assert (Hc : confirmed (delivery_time d) code fs1 s w (s', w') S (rec_new_token pr) port).
  { destruct (recover_own _ _ _ _ _ _ _ _ _ _ Hok Hrec) as (id & l & l' & Hl & Hk & Hp & Hl' & Hp' & Hk').
    split_and!; [done|by eexists|by eexists _, _|by exists id, l|by exists l']. }
  split; [right; by eexists _, _, _, _|].
  intros p Hr. destruct Hout as [[_ Hno]|(z & Hf & Hyes)]; [by destruct (Hno p)|].
  destruct (Hyes p Hr) as [-> ->]. exists fs1, S, (rec_new_token pr). split_and!; [done..|].
  assert (Hfr2 : friendly fs2) by (destruct b; [by apply store_recovery_spec in Hst as [? _]|by destruct Hst as [_ ->]]).
  apply recovery_finish_spec in Hf as [_ Hf]; [|done]. cbn in Hf. rewrite Hpath in Hf. apply Hf.
Qed.
End host.

(** ** Concrete instances *)

Section witnesses.
#[local] Existing Instances first_32 gmap_order posix_tempfile posix_laws memory_store memory_network
  memory_laws plain_rustls.

(** The codec of [MessageProps], refusing what does not fit in a frame. *)
#[local] Instance small_codec : Codec := {|
  serialize m :=
    payload ← @serialize bit_codec m;
    check (length payload <=? MAX_CONTROL_MSG_BYTES)%nat (External "too large");;
    Ok payload;
  deserialize := @deserialize bit_codec;
|}.

Lemma small_codec_ok m payload : serialize m = Ok payload →
  @serialize bit_codec m = Ok payload ∧ (length payload ≤ MAX_CONTROL_MSG_BYTES)%nat.
Proof.
  intros Hs. apply result_bind_ok in Hs as (p & Hp & Hs).
  apply result_bind_ok in Hs as (u & Hle%check_ok & [= <-]). split; [exact Hp|by apply Nat.leb_le].
Qed.

Definition w_display (e : error) : str := [101; 114; 114].

#[local] Instance w_wire : WireLaws w_display.
Proof.
  split.
  - split. intros m payload Hm [Hs _]%small_codec_ok. by apply (@deserialize_serialize _ bit_codec_law).
  - by intros m payload _ _ [_ ?]%small_codec_ok.
  - intros e. repeat constructor; lia.
  - intros e. cbn. lia.
Qed.
#[local] Instance w_link : Dialer (Link Memory) := link_dialer w_display.

(** A new host with an empty disk registers; then its tunnel ends. *)
Definition w_home : Env := {| HOME := Some ["home"]%string; USERPROFILE := None |}.
Definition w_disk0 : Fs :=
  {| names := ∅; durable := ∅; schedule := [];
     entropy := repeat_byte 32 <$> [x01; x02; x03] |}.
Definition w_delivered (now : Z) (ip : IpAddr) (conn : Z) (cut : option nat) (ending : ReadEnd)
    : Delivery (W := Memory) := Delivered now ip conn cut ending.
Definition w_connect := connect w_home "relay.example" 25565 false
  (w_disk0, link (w_start.1, w_start.2) (w_delivered 1000 (w_ip x01) 7 None Open) []).
Definition w_disk1 : Fs := w_connect.2.1.
Definition w_relay1 : ServerState Memory * Memory := relay w_connect.2.2.
Definition w_holder : TokenId := from_token (repeat_byte 32 x01).
Definition w_relay2 : ServerState Memory * Memory :=
  run_state_op (OpEndSession w_holder (MkSessionId 1) 2000) (w_relay1.1, w_relay1.2).

(** An attempt whose answer is cut off, and one that goes through. *)
Definition w_attempt1 := rotate_identity w_home "relay.example" false
  (w_disk1, link (w_relay2.1, w_relay2.2) (w_delivered 3000 (w_ip x01) 8 (Some 3%nat) Eof) []).
Definition w_disk3 : Fs := w_attempt1.2.1.
Definition w_relay3 : ServerState Memory * Memory := relay w_attempt1.2.2.
Definition w_attempt2 := rotate_identity w_home "relay.example" false
  (w_disk3, link (w_relay3.1, w_relay3.2) (w_delivered 4000 (w_ip x01) 9 None Open) []).


Definition w_recover := recover_identity w_home "relay.example" false false
  (w_disk1, link (w_relay1.1, w_relay1.2) (w_delivered 5000 (w_ip x02) 9 None Open) []).

(** Facts about concrete files and tables, by evaluation. *)
Lemma holds_compute p bs fs :
  (match names fs !! p with
   | Some (FileN f) => bool_decide (data f = bs) && private f
   | _ => false
   end) = true → holds p bs fs.
Proof.
  destruct (names fs !! p) as [[f| |]|] eqn:E; try done. intros [Hd Hp]%andb_true_iff.
  exists f. by apply bool_decide_eq_true_1 in Hd.
Qed.
Lemma lease_compute t id P :
  (match t.(leases) !! id with Some l => Lease.port l =? P | None => false end) = true →
  ∃ l, t.(leases) !! id = Some l ∧ Lease.port l = P.
Proof. destruct (leases t !! id) as [l|]; [|done]. intros ?%Z.eqb_eq. by exists l. Qed.
Lemma live_compute P now t :
  bool_decide (map_Forall (λ _ l, Lease.port l = P → expired now l = false) t.(leases)) = true →
  live P now t.
Proof. intros Hl%bool_decide_eq_true_1 id l. apply Hl. Qed.
Lemma run_compute {A} (x : poll (result A) * (Fs * Link Memory)) y :
  x.1 = y → x = (y, (x.2.1, x.2.2)).
Proof. intros <-. by destruct x as [? []]. Qed.

Definition w_register_op : state_op (W := Memory) :=
  OpRegister (repeat_byte 32 x01) (Some (recovery_fingerprint (repeat_byte 32 x02))) (w_ip x01) 1000 7.

Lemma w_relay1_reachable : state_reachable (stored := in_memory) w_relay1.1 w_relay1.2.
Proof.
  apply (sr_op w_register_op w_start.1 w_start.2); [apply w_start_reachable|done|].
  computed.
Qed.

Lemma w_relay2_reachable : state_reachable (stored := in_memory) w_relay2.1 w_relay2.2.
Proof.
  apply (sr_op (OpEndSession w_holder (MkSessionId 1) 2000) w_relay1.1 w_relay1.2);
    [apply w_relay1_reachable|done|]. apply surjective_pairing.
Qed.

Lemma w_history : history (stored := in_memory) (display := w_display) w_home 10001
  w_disk3 w_relay3.1 w_relay3.2.
Proof.
  apply (h_rotate w_home 10001 w_disk1 w_relay2.1 w_relay2.2 "relay.example" false
    (w_delivered 3000 (w_ip x01) 8 (Some 3%nat) Eof) [] (Ready (Err (Io UnexpectedEof)))).
  - apply h_start; [constructor|apply w_relay2_reachable|].
    destruct (lease_compute (st_leases w_relay2.1) w_holder 10001) as (l & Hl & Hp);
      [vm_compute; reflexivity|].
    exists (repeat_byte 32 x01), (repeat_byte 32 x01), l. split_and!; [|exact Hl|exact Hp|by left].
    apply holds_compute. vm_compute. reflexivity.
  - done.
  - apply live_compute. vm_compute. reflexivity.
  - apply run_compute. computed.
Qed.

(** The answer to the first attempt is lost, the second installs the identity. *)
Lemma rotation_end_to_end_witness :
  installed_claim w_home 10001 w_attempt2.2.1 (st_leases (relay w_attempt2.2.2).1).
Proof.
  destruct (rotation_end_to_end w_home 10001 w_disk3 w_relay3.1 w_relay3.2 w_history) as [_ Hnext].
  apply (Hnext "relay.example"%string false (w_delivered 4000 (w_ip x01) 9 None Open) [] (Some 10001)).
  - done.
  - apply live_compute. vm_compute. reflexivity.
  - apply run_compute. computed.
Defined.

Definition w_tunnel : AgentTunnel :=
  {| agent_quic := tt; agent_local_port := 25565; control := tt; control_task := true;
     agent_players := 0; quic_open := true |}.

Lemma w_connect_run : connect w_home "relay.example" 25565 false
    (w_disk0, link (w_start.1, w_start.2) (w_delivered 1000 (w_ip x01) 7 None Open) [])
  = (Ready (Ok w_tunnel), (w_connect.2.1, w_connect.2.2)).
Proof. apply run_compute. computed. Qed.

Lemma registration_end_to_end_witness : ∃ A l session conn,
  holds (identity_path w_home) (bytes_list A) w_connect.2.1 ∧
  (st_leases (relay w_connect.2.2).1).(leases) !! from_token A = Some l ∧
  Lease.status l = Active session ∧
  active_connections (relay w_connect.2.2).1 !! from_token A = Some (session, conn).
Proof.
  destruct (registration_end_to_end w_home w_disk0 w_start.1 w_start.2 "relay.example" 25565 false
    (w_delivered 1000 (w_ip x01) 7 None Open) [] (Ready (Ok w_tunnel)) w_connect.2.1 w_connect.2.2)
    as (_ & _ & Hlive).
  - constructor.
  - apply w_start_reachable.
  - done.
  - unfold u16_ok, U16_MAX. lia.
  - lia.
  - apply w_connect_run.
  - destruct (Hlive w_tunnel eq_refl) as (A & S & l & ses & conn & HA & _ & Hl & Hst & _ & Hc & _).
    exists A, l, ses, conn. split; [exact HA|]. split; [exact Hl|]. split; [exact Hst|exact Hc].
Defined.

(** The identity is recovered while its tunnel is up. *)
Lemma recovery_end_to_end_witness : ∃ B l,
  holds (identity_path w_home) (bytes_list B) w_recover.2.1 ∧
  (st_leases (relay w_recover.2.2).1).(leases) !! from_token B = Some l ∧ Lease.port l = 10001.
Proof.
  destruct (recovery_end_to_end w_home w_disk1 w_relay1.1 w_relay1.2 "relay.example" false false
    (w_delivered 5000 (w_ip x02) 9 None Open) [] (Ready (Ok 10001)) w_recover.2.1 w_recover.2.2)
    as (_ & _ & Hok).
  - constructor.
  - apply w_relay1_reachable.
  - done.
  - apply run_compute. computed.
  - destruct (Hok 10001 eq_refl) as (fs1 & S & B & _ & (_ & _ & _ & _ & l & Hl & Hp & _) & HB).
    exists B, l. split; [exact HB|]. split; [exact Hl|exact Hp].
Defined.
End witnesses.
