(* ===== verification/CliProps.v ===== *)
(** What the host's program promises on its own: the port it offers, and how
    long it waits between attempts. *)

From S2P Require Import Prelude Bytes HostAdmission LeaseTable Fs Protocol Message State Tunnel Relay Cli.

(** ** The local port *)

Lemma default_ports_u16 p : p ∈ PRESETS → u16_ok (default_port p) ∧ default_port p ≠ 0.
Proof.
  intros Hp. assert (Hall : Forall (λ p, 0 < default_port p ≤ U16_MAX) PRESETS)
    by (unfold U16_MAX; repeat constructor; cbn; lia).
  rewrite Forall_forall in Hall. specialize (Hall p Hp). unfold u16_ok. lia.
Qed.

Lemma find_preset_elem g p : find_preset g = Some p → p ∈ PRESETS.
Proof.
  unfold find_preset. destruct (list_find _ _) as [[i q]|] eqn:E; [|done]. intros [= <-].
  apply list_find_Some in E as (Hi & _). by eapply list_elem_of_lookup_2.
Qed.

(** The port the host command offers: a game that needs UDP is refused even
    with an explicit port, an explicit port wins over the game's, an unknown game
    is refused, and what is offered makes a registration that is well typed and
    that the relay does not reject for its protocol or port. *)
Theorem offered_port game port p : from_option u16_ok True port →
  local_port_for game port = Ok p ↔
  u16_ok p ∧ (∀ token rid, first_message (Ok (Some (Register Tcp p token rid))) = Hosting p token rid) ∧
  match game with
  | Some g => ∃ preset, find_preset g = Some preset ∧ preset_protocol preset = Tcp ∧
      p = default (default_port preset) port
  | None => port = Some p
  end.
Proof.
  intros Hport. assert (Hhost : p ≠ 0 ↔
    ∀ token rid, first_message (Ok (Some (Register Tcp p token rid))) = Hosting p token rid).
  { unfold first_message. split; [by intros Hp%Z.eqb_neq ? ?; rewrite Hp|].
    intros Hall ->. by specialize (Hall (repeat_byte 32 Byte.x00) (repeat_byte 32 Byte.x00)). }
  rewrite <- Hhost. clear Hhost. unfold local_port_for, check. destruct game as [g|].
  - destruct (find_preset g) as [preset|] eqn:Eg; cbn; [|split; [done|by intros (_ & _ & ? & [=] & _)]].
    pose proof (default_ports_u16 preset (find_preset_elem g preset Eg)) as [Hd _].
    assert (Hu : u16_ok (default (default_port preset) port)) by by destruct port.
    case_bool_decide as Ht; cbn; [|split; [done|]; intros (_ & _ & ? & [= <-] & ? & _); by destruct Ht].
    replace (ok_or _ _) with (Ok (default (default_port preset) port)) by by destruct port. cbn.
    destruct (Z.eqb_spec (default (default_port preset) port) 0) as [E0|E0]; cbn.
    + split; [done|]. intros (_ & Hp & ? & [= <-] & _ & ->). done.
    + split; [intros [= <-]; split_and!; [done..|by exists preset]|].
      by intros (_ & _ & ? & [= <-] & _ & ->).
  - destruct port as [q|]; cbn in *; [|split; [done|by intros (_ & _ & ?)]].
    destruct (Z.eqb_spec q 0) as [E0|E0]; cbn; [split; [done|]; by intros (_ & Hp & [= <-])|].
    split; [by intros [= <-]|]. by intros (_ & _ & [= <-]).
Qed.

(** ** Waiting between attempts *)

(** The delay before the [k]-th attempt in a row. *)
Definition backoff (k : nat) : Z := Duration_from_secs (Z.min (2 ^ Z.of_nat k) 15).

Lemma backoff_next k : next_retry_delay (backoff k) = backoff (S k).
Proof.
  unfold next_retry_delay, Duration_saturating_mul, backoff, Duration_from_secs, DURATION_MAX, U64_MAX.
  rewrite Nat2Z.inj_succ, Z.pow_succ_r by lia. lia.
Qed.

Lemma reconnect_backoff {T} k (outcomes : list (result T)) :
  (reconnect (backoff k) outcomes).1 = backoff <$> seq k (length (reconnect (backoff k) outcomes).1).
Proof.
  revert k. induction outcomes as [|[t|e] outcomes IH]; intros k; [done|done|]. cbn [reconnect].
  rewrite backoff_next. specialize (IH (S k)).
  destruct (reconnect (backoff (S k)) outcomes) as [sleeps tunnel]. cbn in *. by rewrite <- IH.
Qed.

(** Reconnecting backs off: after a disconnect the sleeps before the attempts
    are 1, 2, 4, 8, 15, 15, ... seconds, one for each attempt up to the first that
    succeeds, never none and never over 15 seconds; a success resets the delay to
    one second, and only the failure of every attempt keeps the loop going. *)
Theorem reconnect_delays {T} (outcomes : list (result T)) :
  let '(sleeps, tunnel) := reconnect (Duration_from_secs 1) outcomes in
  sleeps = backoff <$> seq 0 (length sleeps) ∧
  Forall (λ d, Duration_from_secs 1 ≤ d ≤ Duration_from_secs 15) sleeps ∧
  match tunnel with
  | Some (next, delay) => delay = Duration_from_secs 1 ∧ ∃ failures rest,
      outcomes = failures ++ Ok next :: rest ∧ Forall (λ r, is_ok r = false) failures ∧
      length sleeps = S (length failures)
  | None => Forall (λ r, is_ok r = false) outcomes ∧ length sleeps = length outcomes
  end.
Proof.
  change (Duration_from_secs 1) with (backoff 0) at 1. pose proof (reconnect_backoff 0 outcomes) as Hs.
  assert (Hout : ∀ k, match (reconnect (backoff k) outcomes).2 with
    | Some (next, delay) => delay = Duration_from_secs 1 ∧ ∃ failures rest,
        outcomes = failures ++ Ok next :: rest ∧ Forall (λ r, is_ok r = false) failures ∧
        length (reconnect (backoff k) outcomes).1 = S (length failures)
    | None => Forall (λ r, is_ok r = false) outcomes ∧
        length (reconnect (backoff k) outcomes).1 = length outcomes
    end).
  { clear Hs. induction outcomes as [|[t|e] outcomes IH]; intros k; [done| |].
    - cbn. split; [done|]. by exists [], outcomes.
    - cbn [reconnect]. rewrite backoff_next. specialize (IH (S k)).
      destruct (reconnect (backoff (S k)) outcomes) as [sleeps [[next delay]|]]; cbn in *.
      + destruct IH as (-> & failures & rest & -> & Hf & Hl). split; [done|].
        exists (Err e :: failures), rest. split_and!; [done|by constructor|cbn; lia].
      + destruct IH as [Hf Hl]. split; [by constructor|lia]. }
  specialize (Hout 0%nat). destruct (reconnect (backoff 0) outcomes) as [sleeps tunnel]. cbn in Hs, Hout.
  split_and!; [done| |done]. rewrite Hs. apply Forall_fmap, Forall_forall. intros k _. cbn.
  unfold backoff, Duration_from_secs. pose proof (Z.pow_pos_nonneg 2 (Z.of_nat k)). lia.
Qed.

(** ** Concrete instances *)

Lemma offered_port_witness :
  is_ok (local_port_for (Some (lit "bedrock")) (Some 25565)) = false ∧
  local_port_for (Some (lit "Minecraft")) None = Ok 25565.
Proof.
  split.
  - destruct (local_port_for (Some (lit "bedrock")) (Some 25565)) as [p|e] eqn:E; [|reflexivity].
    apply offered_port in E as (_ & _ & preset & Hf & Ht & _); [|unfold u16_ok, U16_MAX; cbn; lia].
    vm_compute in Hf. injection Hf as <-. discriminate.
  - apply (offered_port (Some (lit "Minecraft")) None 25565 I). split; [unfold u16_ok, U16_MAX; lia|].
    split; [reflexivity|]. eexists. split; [vm_compute; reflexivity|]. split; reflexivity.
Defined.
