(* ===== verification/HostLife.v ===== *)
(** The life of a hosted game: every command of the host program, on its machine,
    and the relay that serves it and others, over any history of failures. *)

From Stdlib Require Import Strings.Byte.
From S2P Require Import Prelude Bytes HostAdmission LeaseTable LeaseFacts LeaseInv LeaseRestore.
From S2P Require Import Fs FsLogic Identity IdentityFacts Protocol Message MessageFacts.
From S2P Require Import State StateFacts StateInv StateProps Restart Tunnel MessageProps CryptoProps Crypto.
From S2P Require Import Relay Cli Link LinkFacts HostFacts HostProps CliProps.

Section host_life.
Context `{Digest} `{!IterOrder TokenId Lease} {W : Type} `{StoreLaws W stored} `{!Crash W}
  `{!CrashLaws W stored}.
Context `{Codec} {display : error → str} `{!WireLaws display} `{Rustls} `{TempfileLaws}.
#[local] Instance the_link : Dialer (Link W) := link_dialer display.
Context (env : Env).
Implicit Types (s : ServerState W) (w : W) (fs : Fs) (t : LeaseTable).

Notation path := (identity_path env).

(** ** The claim of a host *)

(** The token is in the identity file or in the pending file beside it. *)
Definition holder (X : TunnelToken) fs : Prop :=
  holds path (bytes_list X) fs ∨ ∃ q, pending_path path = Ok q ∧ holds q (bytes_list X) fs.

(** The host has the key of the claim on [P], and a token that holds it. *)
Definition keeps_claim (P : Z) (S : TunnelToken) fs t : Prop :=
  holds (recovery_path env) (bytes_list S) fs ∧
  ∃ X l, holder X fs ∧ t.(leases) !! from_token X = Some l ∧ Lease.port l = P ∧
    Lease.recovery_id l = Some (from_token S).

Definition step_ok (P : Z) (S : TunnelToken) fs s w : Prop :=
  friendly fs ∧ state_reachable (stored := stored) s w ∧ keeps_claim P S fs (st_leases s).

Lemma holder_grows X fs fs' : grows (names fs) (names fs') → holder X fs → holder X fs'.
Proof.
  intros Hg [HX|(q & Hq & HX)]; [left|right; exists q; split; [done|]]; by eapply holds_stable.
Qed.

Lemma keeps_grows P S fs fs' t : grows (names fs) (names fs') → keeps_claim P S fs t → keeps_claim P S fs' t.
Proof.
  intros Hg (HS & X & l & HX & Hl). split; [by eapply holds_stable|]. exists X, l.
  split; [by eapply holder_grows|done].
Qed.

(** The three files are different. *)
Lemma recovery_path_other : recovery_path env ≠ path ∧ ∀ q, pending_path path = Ok q → recovery_path env ≠ q.
Proof.
  unfold recovery_path, pending_path, file_name, with_file_name, identity_path.
  generalize (default [] (match HOME env with Some p => Some p | None => USERPROFILE env end)).
  intros base. change [".config"; "gamenet"; "identity.bin"]%string
    with (([".config"; "gamenet"]%string ++ ["identity.bin"%string])%list).
  rewrite app_assoc, last_snoc, removelast_last. cbn. split.
  - by intros [_ ?]%app_inj_2.
  - intros q [= <-]. by intros [_ ?]%app_inj_2.
Qed.

(** A lease enrolled with the key is the host's. *)
Lemma same_key_same_claim P S fs s w A l : step_ok P S fs s w →
  (st_leases s).(leases) !! from_token A = Some l → Lease.recovery_id l = Some (from_token S) →
  Lease.port l = P.
Proof.
  intros (_ & Hs & _ & X & l0 & _ & Hl0 & Hp0 & Hk0) Hl Hk.
  destruct (state_reachable_ok _ _ Hs) as [[Hwf _] _].
  pose proof (wf_recovery_inj _ (wf_leases _ Hwf) _ _ _ _ _ Hl Hl0 Hk Hk0) as E. rewrite E in Hl. congruence.
Qed.

(** ** What each command does to it *)

(** A token is one of the two the files hold. *)
Lemma holder_prepared X A B q fs : pending_path path = Ok q → holds path (bytes_list A) fs →
  holds q (bytes_list B) fs → holder X fs → X = A ∨ X = B.
Proof.
  intros Hq HA HB [HX|(q' & Hq' & HX)]; [left|right].
  - eapply holds_token; [exact HX|exact HA].
  - rewrite Hq in Hq'. injection Hq' as <-. eapply holds_token; [exact HX|exact HB].
Qed.

(** After the relay gave the claim to the pending token, [finish] either leaves it
    pending or installs it. *)
Lemma finish_holder B q fs fs' : pending_path path = Ok q → holds q (bytes_list B) fs →
  grows (names fs) (names fs') ∨ holds path (bytes_list B) fs' → holder B fs'.
Proof.
  intros Hq HB [Hg|HB']; [right; exists q; split; [done|by eapply holds_stable]|by left].
Qed.

(** The same with the key beside it. *)
Definition finished (B S : TunnelToken) (r : result unit) fs : Prop :=
  friendly fs ∧ holds (recovery_path env) (bytes_list S) fs ∧ holder B fs ∧
  (r = Ok tt → holds path (bytes_list B) fs).

Lemma rotation_finished pr q S fs r fs' : rot_path pr = path → rot_pending_path pr = q →
  pending_path path = Ok q → friendly fs → holds (recovery_path env) (bytes_list S) fs →
  holds q (bytes_list (rot_new_token pr)) fs → PendingRotation_finish pr fs = (r, fs') →
  finished (rot_new_token pr) S r fs'.
Proof.
  intros Hpath <- Hq Hfr HS HB Hfin. destruct recovery_path_other as [Hr1 Hr2].
  pose proof (rotation_finish_frame pr (recovery_path env) _ _ _ _ Hfr ltac:(by rewrite Hpath) (Hr2 _ Hq) HS Hfin) as HS'.
  apply rotation_finish_spec in Hfin as [Hfr' Hfin]; [|done]. rewrite Hpath in Hfin. split_and!; [done|done| |].
  - eapply (finish_holder _ _ fs); [done|done|]. destruct r as [[]|e]; cbn in Hfin; [right; apply Hfin|done].
  - intros ->. apply Hfin.
Qed.

Lemma recovery_finished pr q S fs r fs' : rec_path pr = path → rec_pending_path pr = q →
  pending_path path = Ok q → friendly fs → holds (recovery_path env) (bytes_list S) fs →
  holds q (bytes_list (rec_new_token pr)) fs → PendingRecovery_finish pr fs = (r, fs') →
  finished (rec_new_token pr) S r fs'.
Proof.
  intros Hpath <- Hq Hfr HS HB Hfin. destruct recovery_path_other as [Hr1 Hr2].
  pose proof (recovery_finish_frame pr (recovery_path env) _ _ _ _ Hfr ltac:(by rewrite Hpath) (Hr2 _ Hq) HS Hfin) as HS'.
  apply recovery_finish_spec in Hfin as [Hfr' Hfin]; [|done]. rewrite Hpath in Hfin. split_and!; [done|done| |].
  - eapply (finish_holder _ _ fs); [done|done|]. destruct r as [[]|e]; cbn in Hfin; [right; apply Hfin|done].
  - intros ->. apply Hfin.
Qed.

Lemma rotate_step P S fs s w server insecure d typed r fs' n' : step_ok P S fs s w →
  0 ≤ delivery_time d → live P (delivery_time d) (st_leases s) →
  rotate_identity env server insecure (fs, link (s, w) d typed) = (r, (fs', n')) →
  step_ok P S fs' (relay n').1 (relay n').2 ∧
  ∀ p, r = Ready (Ok p) → p = Some P ∧ installed_claim env P fs' (st_leases (relay n').1).
Proof.
  intros (Hfr & Hreach & Hkeep) Ht Hlive Hrun. pose proof (state_reachable_ok _ _ Hreach) as Hok.
  apply rotate_identity_run in Hrun as (Hfr' & fs1 & Hfr1 & Hg1 & Hrun); [|done..].
  destruct (keeps_grows _ _ _ _ _ Hg1 Hkeep) as (HS & X & l & HX & Hl & Hp & Hk).
  destruct Hrun as [(-> & -> & Hr)|(pr & x & s' & w' & Hpath & Hq & HA & HB & Hrot & -> & Hout)].
  { split; [|intros p Hp'; by destruct (Hr p)]. split_and!; [done|done|]. split; [done|]. by exists X, l. }
  assert (Hreach' : state_reachable (stored := stored) s' w').
  { apply (sr_op (OpRotateTokens (rot_old_token pr) (rot_new_token pr) (delivery_time d)) s w); [done|done|].
    cbn. by rewrite Hrot. }
  assert (Hid : from_token X = from_token (rot_old_token pr) ∨ from_token X = from_token (rot_new_token pr))
    by (destruct (holder_prepared _ _ _ _ _ Hq HA HB HX) as [->| ->]; auto).
  pose proof (rotate_own _ _ _ _ _ _ _ _ _ _ Hok Hrot Hl (Hlive _ _ Hl Hp) Hid) as Hown. cbn [fst snd].
  destruct Hout as [[-> Hr]|(p & r1 & -> & Hfin & Hr)].
  { split; [|intros p Hp'; by destruct (Hr p)]. split_and!; [done|done|]. split; [done|].
    destruct x as [port|e]; [|by exists X, l].
    destruct Hown as (_ & l' & Hl' & Hp' & Hk' & _). exists (rot_new_token pr), l'.
    split_and!; [right; by eexists|done|congruence|congruence]. }
  destruct Hown as (-> & l' & Hl' & Hp' & Hk' & _).
  eapply (rotation_finished pr _ S fs1) in Hfin as (_ & HS' & HB' & Hfin); [|done..]. split.
  - split_and!; [done|done|]. split; [done|]. exists (rot_new_token pr), l'. split_and!; [done|done|congruence|congruence].
  - intros p Hp1. destruct (Hr p Hp1) as [-> ->]. split; [congruence|].
    exists (rot_new_token pr), l'. split_and!; [by apply Hfin|done|congruence].
Qed.

(** The relay's part of the host's own recovery: the claim stays, or moves to the
    pending token. *)
Lemma recover_own_claim P S B ip now s w r s' w' X l : state_ok (stored := stored) s w →
  recover S B ip now (s, w) = (r, (s', w')) → live P now (st_leases s) →
  (st_leases s).(leases) !! from_token X = Some l → Lease.port l = P →
  Lease.recovery_id l = Some (from_token S) →
  match r with
  | Ok (port, _) => port = P ∧ ∃ l', (st_leases s').(leases) !! from_token B = Some l' ∧
      Lease.port l' = P ∧ Lease.recovery_id l' = Some (from_token S)
  | Err _ => (st_leases s').(leases) !! from_token X = Some l
  end.
Proof.
  intros Hok Hrun Hlive Hl Hp Hk. destruct r as [[port conn]|e].
  - destruct (recover_own _ _ _ _ _ _ _ _ _ _ Hok Hrun) as (id & l0 & l' & Hl0 & Hk0 & Hp0 & Hl' & Hp' & Hk').
    pose proof (wf_recovery_inj _ (wf_leases _ (proj1 (proj1 Hok))) _ _ _ _ _ Hl Hl0 Hk Hk0) as E.
    rewrite E in Hl. rewrite Hl in Hl0. injection Hl0 as <-. split; [congruence|]. exists l'.
    split_and!; [done|congruence|done].
  - apply (recover_run (stored := stored)) in Hrun. eapply claims_kept_lookup; [done..|by eapply Hlive].
Qed.

(** Storing the key that the file has already changes nothing that matters. *)
Lemma stored_key (b : bool) S fs r fs' : friendly fs → holds (recovery_path env) (bytes_list S) fs →
  (if b then store_recovery env S fs = (r, fs') else r = Ok tt ∧ fs' = fs) →
  friendly fs' ∧ grows (names fs) (names fs').
Proof. intros Hfr HS. destruct b; [by intros ?%(store_recovery_same (recovery_path env) S)|by intros [_ ->]]. Qed.

Lemma recover_step P S fs s w server insecure backup d typed r fs' n' : step_ok P S fs s w →
  0 ≤ delivery_time d → live P (delivery_time d) (st_leases s) →
  (∀ S', parse_recovery_code typed = Ok S' → S' = S) →
  recover_identity env server insecure backup (fs, link (s, w) d typed) = (r, (fs', n')) →
  step_ok P S fs' (relay n').1 (relay n').2 ∧
  ∀ p, r = Ready (Ok p) → p = P ∧ installed_claim env P fs' (st_leases (relay n').1).
Proof.
  intros (Hfr & Hreach & Hkeep) Ht Hlive Htyped Hrun. pose proof (state_reachable_ok _ _ Hreach) as Hok.
  apply recover_identity_run in Hrun as (fs1 & Hfr1 & Hg1 & Hrun); [|done..].
  destruct (keeps_grows _ _ _ _ _ Hg1 Hkeep) as (HS & X & l & HX & Hl & Hp & Hk).
  destruct Hrun as [(-> & -> & Hr)|(S' & b & pr & ip & x & s' & w' & Hsec & Hpath & Hq & HB & Hrec & -> & Hout)].
  { split; [|intros p Hp'; by destruct (Hr p)]. split_and!; [done|done|]. split; [done|]. by exists X, l. }
  assert (S' = S) as -> by (destruct Hsec as [Hc|Hh]; [by apply Htyped|by eapply holds_token]).
  assert (Hreach' : state_reachable (stored := stored) s' w').
  { apply (sr_op (OpRecoverTokens S (rec_new_token pr) ip (delivery_time d)) s w); [done|done|]. cbn. by rewrite Hrec. }
  pose proof (recover_own_claim _ _ _ _ _ _ _ _ _ _ _ _ Hok Hrec Hlive Hl Hp Hk) as Hown. cbn [fst snd].
  assert (Hdone : ∀ fs2, friendly fs2 → holds (recovery_path env) (bytes_list S) fs2 →
    (∃ Y l', holder Y fs2 ∧ (st_leases s').(leases) !! from_token Y = Some l' ∧ Lease.port l' = P ∧
       Lease.recovery_id l' = Some (from_token S)) → step_ok P S fs2 s' w') by (intros; by split_and!).
  destruct Hout as [[-> Hr]|(p & oc & y & fs2 & -> & Hst & Hout)].
  { split; [|intros p Hp1; by destruct (Hr p)]. apply Hdone; [done|done|].
    destruct x as [[port oc]|e]; [|by exists X, l]. destruct Hown as (_ & l' & ?).
    exists (rec_new_token pr), l'. split; [right; by eexists|done]. }
  destruct Hown as (-> & l' & Hl' & Hp' & Hk'). apply stored_key in Hst as [Hfr2 Hg2]; [|done..].
  assert (HS2 : holds (recovery_path env) (bytes_list S) fs2) by by eapply holds_stable.
  assert (HB2 : holds (rec_pending_path pr) (bytes_list (rec_new_token pr)) fs2) by by eapply holds_stable.
  destruct Hout as [[-> Hr]|(v & Hfin & Hr)].
  { split; [|intros p Hp1; by destruct (Hr p)]. apply Hdone; [done|done|]. exists (rec_new_token pr), l'.
    split; [right; by eexists|done]. }
  eapply (recovery_finished pr _ S fs2) in Hfin as (Hfr3 & HS3 & HB3 & Hfin); [|done..].
  split; [apply Hdone; [done..|]; by exists (rec_new_token pr), l'|].
  intros p Hp1. destruct (Hr p Hp1) as [-> ->]. split; [done|].
  exists (rec_new_token pr), l'. split_and!; [by apply Hfin|done|done].
Qed.

(** A tunnel that is reported live is on the host's own claim. *)
Definition live_tunnel (P : Z) (S : TunnelToken) fs s : Prop := ∃ A l session conn,
  holds path (bytes_list A) fs ∧ (st_leases s).(leases) !! from_token A = Some l ∧ Lease.port l = P ∧
  Lease.status l = Active session ∧ Lease.recovery_id l = Some (from_token S) ∧
  active_connections s !! from_token A = Some (session, conn).

Lemma connect_step P S fs s w server local_port insecure d typed r fs' n' : step_ok P S fs s w →
  0 ≤ delivery_time d → live P (delivery_time d) (st_leases s) → u16_ok local_port → local_port ≠ 0 →
  connect env server local_port insecure (fs, link (s, w) d typed) = (r, (fs', n')) →
  step_ok P S fs' (relay n').1 (relay n').2 ∧
  ∀ tunnel, r = Ready (Ok tunnel) → live_tunnel P S fs' (relay n').1.
Proof.
  intros (Hfr & Hreach & Hkeep) Ht Hlive Hlp Hlp0 Hrun.
  destruct (connect_run _ _ _ _ _ _ _ _ _ _ _ _ Hfr Hreach Ht Hlp Hlp0 Hrun)
    as (Hfr' & Hreach' & Hg & Hkept & Htun).
  destruct (keeps_grows _ _ _ _ _ Hg Hkeep) as (HS & X & l & HX & Hl & Hp & Hk).
  destruct (Hkept _ _ Hl (Hlive _ _ Hl Hp)) as (l' & Hl' & Hp' & _ & Hk'). rewrite Hk in Hk'.
  specialize (Hk' ltac:(eauto)).
  assert (Hok : step_ok P S fs' (relay n').1 (relay n').2).
  { split_and!; [done|done|]. split; [done|]. exists X, l'. split_and!; [done|done|congruence|done]. }
  split; [done|]. intros tunnel Hr.
  destruct (Htun tunnel Hr) as (A & S' & la & ses & conn & HA & HS' & Hla & Hst & Hka & Hac & _).
  pose proof (holds_token _ _ _ _ HS' HS) as ->. exists A, la, ses, conn.
  split_and!; try done. by eapply same_key_same_claim.
Qed.

(** Showing the code only reads the file. *)
Lemma show_step P S fs s w r fs' : step_ok P S fs s w → read_recovery env fs = (r, fs') →
  step_ok P S fs' s w ∧ ∀ S', r = Ok S' → S' = S.
Proof.
  intros (Hfr & Hreach & Hkeep) Hread.
  destruct (read_existing_triple anything stable_anything _ _ _ _ Hfr I Hread) as (Hfr1 & Hg1 & Hx).
  pose proof (keeps_grows _ _ _ _ _ Hg1 Hkeep) as Hkeep1. split; [by split_and!|].
  intros S' ->. destruct (Hx S' eq_refl) as [Hh _]. eapply holds_token; [exact Hh|apply Hkeep1].
Qed.

(** ** Commands *)

(** Ports are numbers of their type, and whoever types a recovery code in types
    the one that was saved. *)
Definition command_ok (S : TunnelToken) (command : Commands) (typed : str) : Prop :=
  match command with Host _ port _ _ => from_option u16_ok True port | _ => True end ∧
  ∀ S', parse_recovery_code typed = Ok S' → S' = S.

(** What a command says is so. *)
Definition printed_ok (P : Z) (S : TunnelToken) fs s (out : Printed (N := Link W)) : Prop :=
  match out with
  | RecoveryCode code => code = format_recovery_code S
  | Recovered _ port => port = P ∧ installed_claim env P fs (st_leases s)
  | Rotated _ port => port = Some P ∧ installed_claim env P fs (st_leases s)
  | Serving _ => live_tunnel P S fs s
  end.

Lemma main_step P S fs s w command d typed r fs' n' : step_ok P S fs s w → command_ok S command typed →
  0 ≤ delivery_time d → live P (delivery_time d) (st_leases s) →
  main env command (fs, link (s, w) d typed) = (r, (fs', n')) →
  step_ok P S fs' (relay n').1 (relay n').2 ∧
  ∀ out, r = Ready (Ok out) → printed_ok P S fs' (relay n').1 out.
Proof.
  intros Hok [Hport Htyped] Ht Hlive. destruct command as [game port server insecure|server insecure| |backup server insecure];
    cbn [main]; unfold mbind at 1, CM_bind at 1.
  - unfold returns at 1. destruct (local_port_for game port) as [lp|e] eqn:Elp; [|by intros [= <- <- <-]].
    apply offered_port in Elp as (Hlp & Hhost & _); [|done].
    assert (Hlp0 : lp ≠ 0).
    { intros ->. by specialize (Hhost (repeat_byte 32 x00) (repeat_byte 32 x00)). }
    unfold mbind, CM_bind, mret, CM_ret.
    destruct (connect _ _ _ _ _) as [x [fs1 n1]] eqn:Hc. apply (connect_step P S) in Hc as [Hok' Htun]; [|done..].
    destruct x as [[tunnel|e]|]; intros [= <- <- <-]; (split; [done|]); try done.
    intros out [= <-]. by eapply Htun.
  - destruct (rotate_identity _ _ _ _) as [x [fs1 n1]] eqn:Hc. apply (rotate_step P S) in Hc as [Hok' Hr]; [|done..].
    destruct x as [[p|e]|]; intros [= <- <- <-]; (split; [done|]); try done.
    intros out [= <-]. by eapply Hr.
  - rewrite on_fs_run. destruct (read_recovery env fs) as [x fs1] eqn:Hc. cbn [fst snd].
    apply (show_step P S fs s w) in Hc as [Hok' Hr]; [|done].
    destruct x as [S'|e]; intros [= <- <- <-]; (split; [done|]); [|done].
    intros out [= <-]. cbn. by rewrite (Hr S' eq_refl).
  - destruct (recover_identity _ _ _ _ _) as [x [fs1 n1]] eqn:Hc. apply (recover_step P S) in Hc as [Hok' Hr]; [|done..].
    destruct x as [[p|e]|]; intros [= <- <- <-]; (split; [done|]); try done.
    intros out [= <-]. by eapply Hr.
Qed.

(** ** Histories *)

(** The port is leased to somebody. *)
Definition leased (P : Z) t : Prop := ∃ id l, t.(leases) !! id = Some l ∧ Lease.port l = P.

(** From the moment a tunnel is first reported live: other processes work on the
    host's machine, strangers use the relay, the relay dies and starts again
    before the claim's deadline, and the host's commands run, each with any fault
    of the disk and any failure of the link. *)
Inductive host_life (P : Z) (S : TunnelToken) : Fs → ServerState W → W → Prop :=
  | life_first fs s w server local_port insecure d typed tunnel fs' n' : friendly fs →
      state_reachable (stored := stored) s w → 0 ≤ delivery_time d → u16_ok local_port → local_port ≠ 0 →
      connect env server local_port insecure (fs, link (s, w) d typed) = (Ready (Ok tunnel), (fs', n')) →
      holds (recovery_path env) (bytes_list S) fs' → installed_claim env P fs' (st_leases (relay n').1) →
      host_life P S fs' (relay n').1 (relay n').2
  | life_files fs s w fs' : host_life P S fs s w → friendly fs' → grows (names fs) (names fs') →
      host_life P S fs' s w
  | life_strangers fs s w op s' w' : host_life P S fs s w → 0 ≤ state_op_time op →
      live P (state_op_time op) (st_leases s) → stranger P s op →
      run_state_op op (s, w) = (s', w') → host_life P S fs s' w'
  | life_restart fs s w now t w' : host_life P S fs s w → persistence_healthy s = true →
      restarts now t w' w → leased P t → host_life P S fs (new_state t) w'
  | life_command fs s w command d typed r fs' n' : host_life P S fs s w → command_ok S command typed →
      0 ≤ delivery_time d → live P (delivery_time d) (st_leases s) →
      main env command (fs, link (s, w) d typed) = (r, (fs', n')) →
      host_life P S fs' (relay n').1 (relay n').2.

(** The restarted relay leases the port to the same claim. *)
Lemma restart_keeps P S fs s w now t w' : step_ok P S fs s w → persistence_healthy s = true →
  restarts now t w' w → leased P t → step_ok P S fs (new_state t) w'.
Proof.
  intros (Hfr & Hreach & HS & X & l & HX & Hl & Hp & Hk) Hh Hre (id & l0 & Hl0 & Hp0).
  split; [done|]. split; [by eapply restarts_reachable|]. split; [done|]. cbn.
  apply state_reachable_saved in Hreach as [last Hsaved].
  destruct (state_saved_ok _ _ _ Hsaved) as (_ & _ & _ & Hcov).
  destruct (restarts_found (covers last (st_leases s)) now t w' w) as (rs & Hc & Hres & _);
    [by apply Hcov|by intros ? [? _]|done|].
  destruct (restored_port _ _ _ _ _ _ _ _ _ Hc Hres Hl Hl0) as [-> ->]; [congruence|].
  exists X, (demote last l). by split_and!.
Qed.

Lemma host_life_ok P S fs s w : host_life P S fs s w → step_ok P S fs s w.
Proof.
  induction 1 as [fs s w server lp insecure d typed tunnel fs' n' Hfr Hs Ht Hlp Hlp0 Hrun HS (A & l & HA & Hl & Hp)
    |fs s w fs' _ (Hfr & Hs & Hk) Hfr' Hg|fs s w op s' w' _ (Hfr & Hs & HS & X & l & HX & Hl & Hp & Hk) Ht Hlive Hst Hrun
    |fs s w now t w' _ IH Hh Hre Hleased|fs s w command d typed r fs' n' _ IH Hc Ht Hlive Hrun].
  - destruct (connect_run _ _ _ _ _ _ _ _ _ _ _ _ Hfr Hs Ht Hlp Hlp0 Hrun) as (Hfr' & Hs' & _ & _ & Htun).
    destruct (Htun tunnel eq_refl) as (A' & S' & l' & ses & conn & HA' & HS' & Hl' & _ & Hk' & _).
    pose proof (holds_token _ _ _ _ HS' HS) as ->. pose proof (holds_token _ _ _ _ HA' HA) as ->.
    split_and!; [done|done|]. split; [done|]. exists A, l. split_and!; [by left|done|done|congruence].
  - split_and!; [done|done|by eapply keeps_grows].
  - split_and!; [done|by eapply sr_op|]. split; [done|].
    destruct (op_keeps op s w s' w' _ l (state_reachable_ok _ _ Hs) Hrun (Hst _ _ Hl Hp) Hl (Hlive _ _ Hl Hp))
      as (l' & Hl' & Hp' & _ & Hk'). exists X, l'. rewrite Hk' by eauto.
    split_and!; [done|done|congruence|done].
  - by eapply restart_keeps.
  - by eapply main_step.
Qed.

(** C1. A host keeps its port, end to end: once a tunnel has been reported live,
    then over every history of the host's commands, with lost and cut-off
    messages and disk faults at any point, of other processes and of strangers'
    requests, and of the relay dying and starting again, the host's files hold a
    token for the live claim and the key it is enrolled with; and whatever command
    reports success next tells the truth: a rotation or recovery names this port
    and has installed the token that holds it, a tunnel is live on it, and a
    recovery code is the one that recovers it. *)
Theorem host_keeps_port P S fs s w : host_life P S fs s w →
  keeps_claim P S fs (st_leases s) ∧
  ∀ command d typed out fs' n', command_ok S command typed → 0 ≤ delivery_time d →
    live P (delivery_time d) (st_leases s) →
    main env command (fs, link (s, w) d typed) = (Ready (Ok out), (fs', n')) →
    printed_ok P S fs' (relay n').1 out.
Proof.
  intros Hok%host_life_ok. split; [apply Hok|]. intros command d typed out fs' n' Hc Ht Hlive Hrun.
  destruct (main_step _ _ _ _ _ _ _ _ _ _ _ Hok Hc Ht Hlive Hrun) as [_ Hout]. by apply Hout.
Qed.
End host_life.

(** ** A concrete life *)

Section witnesses.
#[local] Existing Instances first_32 gmap_order posix_tempfile posix_laws memory_store memory_network
  memory_laws plain_rustls small_codec w_wire w_link.

(** The store in memory outlives the relay. *)
#[local] Instance memory_crash : Crash Memory := λ w w1, saved w1 = saved w.
#[local] Instance memory_crash_laws : CrashLaws Memory in_memory.
Proof.
  split; unfold in_memory, crash, memory_crash.
  - intros P w w1 HP _ ->. exact HP.
  - intros P w w1 now r w2 HP _ Hs. cbn. rewrite Hs. intros [= <- <-].
    destruct (restore (saved w) now) as [t|e] eqn:E; [|by rewrite Hs].
    exists (saved w). by split_and!.
Qed.

Definition w_key : TunnelToken := repeat_byte 32 x02.

(** The tunnel goes live; the relay dies and starts again; a rotation whose answer
    is cut off; then the identity is recovered. *)
Definition w_found : LeaseTable :=
  match restore (saved w_relay1.2) 1500 with Ok t => t | Err _ => LeaseTable_new end.
Definition w_again : ServerState Memory * Memory := (new_state w_found, w_relay1.2).
Definition w_rotate : Commands := RotateIdentityCommand "relay.example" false.
Definition w_cut := main w_home w_rotate
  (w_disk1, link (w_again.1, w_again.2) (w_delivered 3000 (w_ip x01) 8 (Some 3%nat) Eof) []).
Definition w_recovery_command : Commands := RecoverIdentityCommand false "relay.example" false.
Definition w_back := main w_home w_recovery_command
  (w_cut.2.1, link ((relay w_cut.2.2).1, (relay w_cut.2.2).2) (w_delivered 5000 (w_ip x02) 9 None Open) []).

Lemma main_compute {A} (x : poll (result A) * (Fs * Link Memory)) y :
  x.1 = y → x = (y, (x.2.1, x.2.2)).
Proof. intros <-. by destruct x as [? []]. Qed.

Lemma no_code_typed S (code : str) : is_ok (parse_recovery_code code) = false →
  ∀ S', parse_recovery_code code = Ok S' → S' = S.
Proof. intros Hn S' E. by rewrite E in Hn. Qed.

Lemma w_life_first : host_life (stored := in_memory) (display := w_display) w_home 10001 w_key
  w_disk1 w_relay1.1 w_relay1.2.
Proof.
  apply (life_first w_home 10001 w_key w_disk0 w_start.1 w_start.2 "relay.example" 25565 false
    (w_delivered 1000 (w_ip x01) 7 None Open) [] w_tunnel w_connect.2.1 w_connect.2.2).
  - constructor.
  - apply w_start_reachable.
  - done.
  - unfold u16_ok, U16_MAX. lia.
  - lia.
  - apply w_connect_run.
  - apply holds_compute. vm_compute. reflexivity.
  - destruct (lease_compute (st_leases w_relay1.1) w_holder 10001) as (l & Hl & Hp);
      [vm_compute; reflexivity|].
    exists (repeat_byte 32 x01), l. split_and!; [|exact Hl|exact Hp].
    apply holds_compute. vm_compute. reflexivity.
Qed.

Lemma w_life_again : host_life (stored := in_memory) (display := w_display) w_home 10001 w_key
  w_disk1 w_again.1 w_again.2.
Proof.
  apply (life_restart w_home 10001 w_key w_disk1 w_relay1.1 w_relay1.2 1500 w_found w_relay1.2).
  - apply w_life_first.
  - vm_compute. reflexivity.
  - apply (restart_up _ _ _ _ w_relay1.2); [done|]. computed.
  - destruct (lease_compute w_found w_holder 10001) as (l & Hl & Hp); [vm_compute; reflexivity|].
    exists w_holder, l. split; [exact Hl|exact Hp].
Qed.

Lemma w_cut_run : main w_home w_rotate
    (w_disk1, link (w_again.1, w_again.2) (w_delivered 3000 (w_ip x01) 8 (Some 3%nat) Eof) [])
  = (Ready (Err (Io UnexpectedEof)), (w_cut.2.1, w_cut.2.2)).
Proof. apply main_compute. computed. Qed.

Lemma w_again_live : live 10001 3000 (st_leases w_again.1).
Proof. apply live_compute. vm_compute. reflexivity. Qed.

Lemma w_code_typed : command_ok w_key w_rotate [].
Proof. split; [exact I|]. apply no_code_typed. vm_compute. reflexivity. Qed.

Lemma w_life_cut : host_life (stored := in_memory) (display := w_display) w_home 10001 w_key
  w_cut.2.1 (relay w_cut.2.2).1 (relay w_cut.2.2).2.
Proof.
  apply (life_command w_home 10001 w_key w_disk1 w_again.1 w_again.2 w_rotate
    (w_delivered 3000 (w_ip x01) 8 (Some 3%nat) Eof) [] (Ready (Err (Io UnexpectedEof)))).
  - apply w_life_again.
  - apply w_code_typed.
  - done.
  - apply w_again_live.
  - apply w_cut_run.
Qed.

Lemma w_back_run : main w_home w_recovery_command
    (w_cut.2.1, link ((relay w_cut.2.2).1, (relay w_cut.2.2).2) (w_delivered 5000 (w_ip x02) 9 None Open) [])
  = (Ready (Ok (Recovered "relay.example" 10001)), (w_back.2.1, w_back.2.2)).
Proof. apply main_compute. computed. Qed.

Lemma w_cut_live : live 10001 5000 (st_leases (relay w_cut.2.2).1).
Proof. apply live_compute. vm_compute. reflexivity. Qed.

Lemma w_recovery_typed : command_ok w_key w_recovery_command [].
Proof. split; [exact I|]. apply no_code_typed. vm_compute. reflexivity. Qed.

Lemma host_keeps_port_witness :
  installed_claim w_home 10001 w_back.2.1 (st_leases (relay w_back.2.2).1).
Proof.
  destruct (host_keeps_port w_home 10001 w_key w_cut.2.1 (relay w_cut.2.2).1 (relay w_cut.2.2).2 w_life_cut)
    as [_ Hnext].
  eapply (proj2 (Hnext w_recovery_command (w_delivered 5000 (w_ip x02) 9 None Open) []
    (Recovered "relay.example" 10001) w_back.2.1 w_back.2.2 w_recovery_typed (proj1 (Z.leb_le 0 5000) eq_refl)
    w_cut_live w_back_run)).
Defined.
End witnesses.
