(* ===== verification/HostProgress.v ===== *)
(** What the host can rely on: when disk, link and relay work again, each of its
    commands goes through, whatever happened before. *)

From Stdlib Require Import Strings.Byte.
From S2P Require Import Prelude Bytes HostAdmission LeaseTable LeaseFacts LeaseInv.
From S2P Require Import Fs FsLogic Identity IdentityFacts Quiet Protocol Message MessageFacts.
From S2P Require Import State StateFacts StateInv StateProps Tunnel MessageProps CryptoProps Crypto.
From S2P Require Import Relay Cli Link LinkFacts HostFacts HostProps CliProps HostLife.

(** ** A request that is delivered *)

Section delivery.
Context `{Digest} `{!IterOrder TokenId Lease} {W : Type} `{StoreLaws W stored}.
Context `{Codec} {display : error → str} `{!WireLaws display} `{Rustls}.
#[local] Instance the_link : Dialer (Link W) := link_dialer display.

(** [bincode] has a representation of the message. *)
Definition sends (m : ControlMessage) : Prop := sendable m ∧ ∃ p, serialize m = Ok p.

Lemma send_free m p : sendable m → serialize m = Ok p →
  send_msg m {| written := []; capacity := None |} = (Ok tt, {| written := frame p; capacity := None |}).
Proof.
  intros [Hm Hs] Hp. unfold send_msg, mbind, M_bind, lift. rewrite Hp. cbn. unfold frame.
  rewrite Z.mod_small; [done|]. pose proof (wire_small m p Hm Hs Hp) as Hl.
  unfold MAX_CONTROL_MSG_BYTES in Hl. split; [lia|]. change (2 ^ 32) with 4294967296. lia.
Qed.

Lemma recv_whole m p e : sendable m → serialize m = Ok p →
  (recv_msg {| chunks := [frame p]; behind := e |}).1 = Ready (Ok (Some m)).
Proof.
  intros [Hm Hs] Hp. destruct (recv_msg_decode {| chunks := [frame p]; behind := e |}) as [-> _].
  apply (decode_stream_frame p [] e m); [by eapply wire_small|by eapply deserialize_serialize].
Qed.

(** The answer arrives whole. *)
Lemma request_delivers quic msg text fs (n : Link W) now peer conn ending reply sw' :
  delivery n = Delivered now peer conn None ending → sends msg → sends reply →
  answer display now peer conn (Ok (Some msg)) (relay n) = (Some reply, sw') →
  ∃ n', request quic msg text (fs, n) = (Ready (Ok (tt, reply)), (fs, n')) ∧ relay n' = sw'.
Proof.
  intros Hd [Hm [p Hp]] [Hr [p' Hp']] Ha.
  unfold request, on_net, awaiting, returns, mbind, CM_bind, mret, CM_ret. cbn. rewrite Hd.
  rewrite (send_free msg p Hm Hp). cbn. unfold exchange. cbn. rewrite Hd. unfold answer_bytes.
  rewrite (recv_whole msg p Open Hm Hp), Ha. cbn. unfold reply_bytes.
  rewrite (send_free reply p' Hr Hp'). cbn. pose proof (recv_whole reply p' ending Hr Hp') as Hrecv.
  destruct (recv_msg _) as [x rd]. cbn in Hrecv. subst x. cbn. by eexists.
Qed.

(** The TLS configuration can be built. *)
Definition configured (insecure : bool) : Prop :=
  is_ok (if insecure then insecure_client_config else client_config) = true.

Lemma connect_quic_delivers server insecure fs (n : Link W) now peer conn cut ending :
  configured insecure → delivery n = Delivered now peer conn cut ending →
  ∃ quic, connect_quic server insecure (fs, n) = (Ready (Ok quic), (fs, n)).
Proof.
  unfold configured, connect_quic, on_net, returns, mbind, CM_bind, mret, CM_ret. cbn.
  destruct (if insecure then _ else _); [|done]. intros _ ->. by eexists.
Qed.
End delivery.

(** ** A relay that works *)

Section relay_progress.
Context `{Digest} `{!IterOrder TokenId Lease} {W : Type} `{Store W} `{Network W}.
Implicit Types (s : ServerState W) (w : W).

(** The store takes what it is given, and ports can be bound. *)
Definition saves w : Prop := ∀ rs, ∃ w', store_save rs w = (Ok tt, w').
Definition binds w : Prop := ∀ port, ∃ l w', tcp_bind port w = (Ok l, w') ∧ saves w'.

Lemma save_or_block_saves rs s w : saves w → ∃ w', save_or_block rs (s, w) = (Ok tt, (s, w')).
Proof.
  intros Hs. destruct (Hs rs) as [w' Hw]. exists w'.
  unfold save_or_block, attempt, on_world, mbind, M_bind. by rewrite Hw.
Qed.

Lemma staged_run {A} (m : M LeaseTable A) s w a t : m (st_leases s) = (Ok a, t) →
  staged m (s, w) = (Ok (a, t), (s, w)).
Proof. intros Hm. unfold staged, self, lift, mbind, M_bind. cbn. by rewrite Hm. Qed.

Lemma require_healthy_run s w : persistence_healthy s = true → require_healthy (s, w) = (Ok tt, (s, w)).
Proof. intros Hh. unfold require_healthy, self, ensure, mbind, M_bind. cbn. by rewrite Hh. Qed.

Lemma rotate_progress old new now s w res t : persistence_healthy s = true → saves w →
  rotation_of (from_token old) (from_token new) (reap_expired now (st_leases s)) res t →
  ∃ s' w', rotate old new now (s, w) = (Ok (RotationResult_port res), (s', w')).
Proof.
  intros Hh Hs Hrot%rotate_ok. unfold rotate. rewrite (M_bind_run _ _ _ _ _ (require_healthy_run s w Hh)).
  rewrite (M_bind_run _ _ _ _ _ (staged_run _ _ _ _ _ Hrot)). destruct res as [p|p]; [|by eexists _, _].
  destruct (save_or_block_saves (snapshot now t) s w Hs) as [w' Hw].
  rewrite (M_bind_run _ _ _ _ _ Hw). by eexists _, _.
Qed.

Lemma recover_progress secret new ip now s w res t : persistence_healthy s = true → saves w →
  recover_claim (from_token secret) (from_token new) ip now (st_leases s) = (Ok res, t) →
  ∃ oc s' w', recover secret new ip now (s, w) = (Ok (recovered_port res, oc), (s', w')).
Proof.
  intros Hh Hs Hrec. unfold recover. rewrite (M_bind_run _ _ _ _ _ (require_healthy_run s w Hh)).
  rewrite (M_bind_run _ _ _ _ _ (staged_run _ _ _ _ _ Hrec)). destruct (changed res); [|by eexists _, _, _].
  destruct (save_or_block_saves (snapshot now t) s w Hs) as [w' Hw]. cbn [negb].
  rewrite (M_bind_run _ _ _ _ _ Hw). unfold update, mbind, M_bind, mret, M_ret. rewrite take_connection_run.
  repeat case_match; simplify_eq/=; by eexists _, _, _.
Qed.

Lemma register_progress token rid ip now conn s w port ports session t : persistence_healthy s = true →
  binds w → candidates_of (from_token token) ip (reap_expired now (st_leases s)) (port :: ports) →
  activation_of (from_token token) (MkTokenId <$> rid) ip port (reap_expired now (st_leases s)) session t →
  ∃ reg s' w', register_with_recovery token rid ip now conn (s, w) = (Ok reg, (s', w')) ∧ public_port reg = port.
Proof.
  intros Hh Hb Hc Ha. unfold register_with_recovery. rewrite (M_bind_run _ _ _ _ _ (require_healthy_run s w Hh)).
  assert (Hcand : on_leases (candidate_ports (from_token token) ip now) (s, w) =
    (Ok (port :: ports), (set_st_leases (reap_expired now (st_leases s)) s, w))).
  { unfold on_leases. by rewrite (proj2 (candidate_ports_ok _ _ _ _ _ _) (conj eq_refl Hc)). }
  rewrite (M_bind_run _ _ _ _ _ Hcand). cbn [register_loop]. destruct (Hb port) as (l & w1 & Hbind & Hs).
  unfold attempt, on_world. unfold mbind at 1, M_bind at 1. rewrite Hbind. cbn [fst snd].
  assert (Hact : activate_with_recovery (from_token token) (MkTokenId <$> rid) ip port now
    (st_leases (set_st_leases (reap_expired now (st_leases s)) s)) = (Ok session, t)).
  { apply activate_ok. cbn. by rewrite reap_idem. }
  rewrite (M_bind_run _ _ _ _ _ (staged_run _ _ _ _ _ Hact)).
  destruct (save_or_block_saves (snapshot now t) (set_st_leases (reap_expired now (st_leases s)) s) w1 Hs)
    as [w' Hw].
  rewrite (M_bind_run _ _ _ _ _ Hw). by eexists _, _, _.
Qed.
End relay_progress.

(** ** The commands *)

Section commands.
Context `{Digest} `{!IterOrder TokenId Lease} {W : Type} `{StoreLaws W stored}.
Context `{Codec} {display : error → str} `{!WireLaws display} `{Rustls} `{TempfileLaws} `{!TempfileProgress}.
#[local] Instance a_link : Dialer (Link W) := link_dialer display.
Context (env : Env).
Implicit Types (s : ServerState W) (w : W) (fs : Fs) (t : LeaseTable).

Notation path := (identity_path env).

(** The identity was never used at the relay. *)
Definition unused (id : TokenId) t : Prop := t.(leases) !! id = None ∧ ¬ retired_somewhere id t.(leases).

(** What the relay answers to a rotation of a claim on [P] that either is still
    the old identity's and may be rotated, or is the new one's already. *)
Lemma rotation_accepted P A B now s w l : from_token A ≠ from_token B → state_ok (stored := stored) s w →
  persistence_healthy s = true → saves w → Lease.port l = P → expired now l = false →
  (st_leases s).(leases) !! from_token B = Some l ∧ from_token A ∈ Lease.retired_token_ids l ∨
  (st_leases s).(leases) !! from_token A = Some l ∧ is_grace (Lease.status l) = true ∧
    Lease.retired_token_ids l = [] ∧ unused (from_token B) (reap_expired now (st_leases s)) →
  ∃ s' w', rotate A B now (s, w) = (Ok (Some P), (s', w')).
Proof.
  intros Hne [Hinv _] Hh Hs <- He Hcase.
  assert (Hrot : ∃ res t, rotation_of (from_token A) (from_token B) (reap_expired now (st_leases s)) res t ∧
    RotationResult_port res = Some (Lease.port l)).
  { destruct Hcase as [[Hl Hr]|(Hl & Hg & Hr & Hnew & Hnr)]; apply (reap_kept now) in Hl; [|done| |done].
    - eexists (Unchanged _), _. split; [|done]. split; [done|]. by rewrite Hl.
    - eexists (Transferred _), _. split; [|done]. split; [done|]. rewrite Hnew, Hl. split_and!; [done| |done..].
      intros (k & l' & Hk & Hin). apply (reap_inv now) in Hinv as [Hwf _].
      rewrite (wf_retired_dead _ (wf_leases _ Hwf) _ _ _ Hk Hin) in Hl. done. }
  destruct Hrot as (res & t & Hrot & Hp).
  destruct (rotate_progress A B now s w res t Hh Hs Hrot) as (s' & w' & Hrun). rewrite Hp in Hrun. by exists s', w'.
Qed.

Lemma CM_bind_run {A B} (m : CM (N := Link W) A) (f : A → CM (N := Link W) B) x a x1 :
  m x = (Ready (Ok a), x1) → (m ≫= f) x = f a x1.
Proof. unfold mbind, CM_bind. by intros ->. Qed.

Lemma on_fs_ok {A} (m : M Fs A) fs (n : Link W) a fs' : m fs = (Ok a, fs') →
  on_fs m (fs, n) = (Ready (Ok a), (fs', n)).
Proof. intros Hm. by rewrite on_fs_run, Hm. Qed.

Lemma quiet_friendly fs : quiet fs → friendly fs.
Proof. unfold quiet, friendly. by intros ->. Qed.

(** The pending file is beside the identity file. *)
Lemma pending_beside p q : pending_path p = Ok q → p ≠ q ∧ parent p = parent q.
Proof.
  unfold pending_path. intros (n & Hn%ok_or_ok & [= <-])%result_bind_ok. unfold file_name, parent, with_file_name in *.
  apply last_Some in Hn as [p' ->]. rewrite !removelast_last. split; [|done].
  intros [_ [= Hn]]%app_inj_2; [|done]. clear -Hn. induction n as [|c n IH]; [done|]. injection Hn. apply IH.
Qed.

(** Connecting, asking and being answered. *)
Lemma conversation server insecure msg text fs sw now peer conn ending typed reply sw' :
  configured insecure → sends msg → sends reply →
  answer display now peer conn (Ok (Some msg)) sw = (Some reply, sw') →
  let n := link sw (Delivered now peer conn None ending) typed in
  ∃ quic n', connect_quic server insecure (fs, n) = (Ready (Ok quic), (fs, n)) ∧
    request quic msg text (fs, n) = (Ready (Ok (tt, reply)), (fs, n')) ∧ relay n' = sw'.
Proof.
  intros Hcfg Hm Hr Ha n. destruct (connect_quic_delivers (display := display) server insecure fs n
    now peer conn None ending Hcfg eq_refl) as [quic Hquic].
  destruct (request_delivers (display := display) quic msg text fs n now peer conn ending reply sw' eq_refl Hm Hr Ha)
    as (n' & Hreq & Hn'). by exists quic, n'.
Qed.

(** C10. An interrupted rotation can be completed: in every state that a history of
    attempts with lost or cut-off messages, disk faults, crashes of the command and
    strangers' requests has led to, once the disk, the link and the relay work, the
    command answers the claim's port and installs the pending identity; where the
    relay has not moved the claim yet, it need only be one that may be rotated, and
    the pending token a fresh one. *)
Theorem rotation_completes P A B q fs s w server insecure now peer conn ending typed :
  history (stored := stored) (display := display) env P fs s w → live P now (st_leases s) → 0 ≤ now →
  quiet fs → holds path (bytes_list A) fs → pending_path path = Ok q → ready q B fs →
  from_token A ≠ from_token B → persistence_healthy s = true → saves w → configured insecure →
  sends (RotateIdentity A B) → sends (IdentityRotated (Some P)) →
  (∀ l, (st_leases s).(leases) !! from_token A = Some l → Lease.port l = P →
     is_grace (Lease.status l) = true ∧ Lease.retired_token_ids l = [] ∧
     unused (from_token B) (reap_expired now (st_leases s))) →
  ∃ fs' n', rotate_identity env server insecure (fs, link (s, w) (Delivered now peer conn None ending) typed)
      = (Ready (Ok (Some P)), (fs', n')) ∧
    holds path (bytes_list B) fs' ∧ installed_claim env P fs' (st_leases (relay n').1).
Proof.
  intros (Hfr & Hreach & Hin)%history_ok Hlive Hnow Hq HA Hp Hr Hne Hh Hs Hcfg Hm1 Hm2 Hcan.
  destruct (prepare_rotation_quiet fs Hq path q A B HA Hp Hr ltac:(congruence)) as (fs1 & Hprep & Hw).
  destruct (pending_beside _ _ Hp) as [Hpq Hpar]. destruct Hw as [Hq1 HB Hd1 Hrest].
  assert (HA1 : holds path (bytes_list A) fs1).
  { destruct HA as (f & Hf & HA). exists f. split; [|done]. rewrite Hrest; [done..|by apply sibling_prefixes]. }
  assert (Hrun : ∃ s' w', rotate A B now (s, w) = (Ok (Some P), (s', w'))).
  { destruct Hin as (A' & X & l & HA' & Hl & HlP & HX). pose proof (holds_token _ _ _ _ HA HA') as <-.
    apply (rotation_accepted P A B now s w l); [done|by apply state_reachable_ok|done..|by eapply Hlive|].
    destruct HX as [->|(Hret & q' & Hq' & HX)]; [right; split; [done|by apply Hcan]|left].
    rewrite Hp in Hq'. injection Hq' as <-. destruct Hr as [_ [HB0|[Hn _]]].
    - by rewrite <- (holds_token _ _ _ _ HX HB0).
    - destruct HX as (f & Hf & _). congruence. }
  destruct Hrun as (s' & w' & Hrun).
  destruct (conversation server insecure (RotateIdentity A B) "Relay closed before confirming identity rotation"
    fs1 (s, w) now peer conn ending typed (IdentityRotated (Some P)) (s', w') Hcfg Hm1 Hm2)
    as (quic & n' & Hquic & Hreq & Hn').
  { unfold answer, first_message, serve_rotation. cbn. by rewrite Hrun. }
  set (pr := {| rot_path := path; rot_pending_path := q; rot_old_token := A; rot_new_token := B |}) in *.
  destruct (rotation_finish_quiet fs1 Hq1 pr HA1 HB) as [fs' Hfin]. exists fs', n'.
  assert (Hcmd : rotate_identity env server insecure (fs, link (s, w) (Delivered now peer conn None ending) typed)
    = (Ready (Ok (Some P)), (fs', n'))).
  { unfold rotate_identity. rewrite (CM_bind_run _ _ _ _ _ (on_fs_ok _ _ _ _ _ Hprep)).
    rewrite (CM_bind_run _ _ _ _ _ Hquic). unfold rotate_on_connection. cbn [rot_old_token rot_new_token].
    rewrite (CM_bind_run _ _ _ _ _ Hreq). by rewrite (CM_bind_run _ _ _ _ _ (on_fs_ok _ _ _ _ _ Hfin)). }
  split; [done|]. split.
  - apply rotation_finish_spec in Hfin as [_ Hfin]; [apply Hfin|by apply quiet_friendly].
  - destruct (rotate_attempt env P _ _ _ _ _ (Delivered now peer conn None ending) _ _ _ _ Hfr Hreach Hin
      Hnow Hlive Hcmd) as (_ & _ & _ & Hok). apply (Hok _ eq_refl).
Qed.

(** ** Recovery *)

(** A claim found by its key moves to the new identity, or is there already. *)
Lemma recovery_accepted S B ip now s w id l : state_ok (stored := stored) s w → persistence_healthy s = true →
  saves w → (st_leases s).(leases) !! id = Some l → expired now l = false →
  Lease.recovery_id l = Some (from_token S) →
  id = from_token B ∨ unused (from_token B) (reap_expired now (st_leases s)) ∧
    (lease_source l = Some (HostSource.from ip) ∨
     (source_count (HostSource.from ip) (reap_expired now (st_leases s)).(leases) < MAX_TUNNELS_PER_IP)%nat) →
  ∃ oc s' w', recover S B ip now (s, w) = (Ok (Lease.port l, oc), (s', w')).
Proof.
  intros [Hinv _] Hh Hs Hl He Hk Hcase. apply (reap_kept now) in Hl; [|done].
  apply (reap_inv now) in Hinv as [Hwf _].
  pose proof (find_recovery_unique _ _ _ _ (wf_leases _ Hwf) Hl Hk) as Hf.
  assert (Hrec : ∃ res t, recovery_of id l (from_token B) ip now (reap_expired now (st_leases s)) res t ∧
    recovered_port res = Lease.port l).
  { unfold recovery_of. case_decide as Hd; [by eexists _, _|].
    destruct Hcase as [|[[Hn Hr] Hroom]]; [done|]. by eexists _, _. }
  destruct Hrec as (res & t & Hrec & <-). eapply recover_progress; [done|done|].
  apply recover_ok. by exists id, l.
Qed.

(** The secret is in the recovery file, or it is typed in; what the file has then
    does not matter. *)
Definition offers (S : TunnelToken) (backup : bool) (typed : str) fs : Prop :=
  backup = false ∧ holds (recovery_path env) (bytes_list S) fs ∨
  parse_recovery_code typed = Ok S ∧
    (names fs !! recovery_path env = None ∨
     backup = true ∧ ∃ S' : TunnelToken, holds (recovery_path env) (bytes_list S') fs).

Lemma recovery_secret_offered S backup fs (n : Link W) : quiet fs → offers S backup (Link.typed n) fs →
  ∃ b, recovery_secret env backup (fs, n) = (Ready (Ok (S, b)), (fs, n)) ∧
    if b : bool then names fs !! recovery_path env = None ∨
                     ∃ S' : TunnelToken, holds (recovery_path env) (bytes_list S') fs
    else holds (recovery_path env) (bytes_list S) fs.
Proof.
  intros Hq Hoff.
  assert (Hprompt : parse_recovery_code (Link.typed n) = Ok S →
    prompted_secret (fs, n) = (Ready (Ok (S, true)), (fs, n))).
  { intros Hp. unfold prompted_secret, on_net, returns, mbind, CM_bind, mret, CM_ret. cbn. by rewrite Hp. }
  unfold recovery_secret. destruct Hoff as [[-> HS]|[Hp Hfile]].
  - exists false. split; [|done]. unfold read_recovery, read_recovery_at.
    erewrite CM_bind_run; [|apply on_fs_ok; unfold attempt; by rewrite (read_existing_quiet fs Hq _ S HS)]. done.
  - exists true. destruct backup; [split; [by apply Hprompt|destruct Hfile as [?|[_ ?]]; auto]|].
    destruct Hfile as [Hn|[? _]]; [|done]. split; [|by left].
    assert (Hr : read_existing (recovery_path env) fs = (Err (Io NotFound), fs)).
    { unfold read_existing, mbind, M_bind at 1. by rewrite symlink_metadata_quiet, Hn. }
    unfold read_recovery, read_recovery_at.
    erewrite CM_bind_run; [|apply on_fs_ok; unfold attempt; by rewrite Hr]. by apply Hprompt.
Qed.

(** The three files are beside each other. *)
Lemma recovery_beside q : pending_path path = Ok q → recovery_path env ≠ path ∧ recovery_path env ≠ q ∧
  parent (recovery_path env) = parent q.
Proof.
  intros Hp. destruct (recovery_path_other env) as [Hr1 Hr2]. split_and!; [done|by apply Hr2|].
  destruct (pending_beside _ _ Hp) as [_ <-]. unfold recovery_path, with_file_name, parent.
  by rewrite removelast_last.
Qed.

Lemma identity_is_kept p o q B fs fs' : written_at q B fs fs' → p ≠ q → parent p = parent q →
  identity_is p o fs → identity_is p o fs'.
Proof.
  intros [_ _ _ Hrest] Hne Hpar. unfold identity_is, holds.
  rewrite (Hrest p); [done..|by apply sibling_prefixes].
Qed.

(** The host's half after the relay's answer. *)
Lemma recovery_installed S B q o (b : bool) fs fs1 (n : Link W) : pending_path path = Ok q →
  written_at q B fs fs1 → identity_is path o fs →
  (if b then names fs !! recovery_path env = None ∨
             ∃ S' : TunnelToken, holds (recovery_path env) (bytes_list S') fs
   else holds (recovery_path env) (bytes_list S) fs) →
  ∃ fs2 fs', (if b then on_fs (store_recovery env S) else mret tt) (fs1, n) = (Ready (Ok tt), (fs2, n)) ∧
    PendingRecovery_finish {| rec_path := path; rec_pending_path := q; rec_old_token := o; rec_new_token := B |} fs2
      = (Ok tt, fs') ∧
    holds path (bytes_list B) fs' ∧ holds (recovery_path env) (bytes_list S) fs'.
Proof.
  intros Hp Hw Ho Hb. set (pr := Build_PendingRecovery _ _ _ _).
  destruct (pending_beside _ _ Hp) as [Hpq Hpar]. destruct (recovery_beside _ Hp) as (Hrp & Hrq & Hrpar).
  pose proof (identity_is_kept path o q B fs fs1 Hw Hpq Hpar Ho) as Ho1.
  assert (Hfile : ∀ o', identity_is (recovery_path env) o' fs → identity_is (recovery_path env) o' fs1)
    by (intros o'; by eapply identity_is_kept).
  destruct Hw as [Hq1 HB Hd _].
  assert (Hst : ∃ fs2, (if b then on_fs (store_recovery env S) else mret tt) (fs1, n) = (Ready (Ok tt), (fs2, n)) ∧
    quiet fs2 ∧ identity_is path o fs2 ∧ holds q (bytes_list B) fs2 ∧ holds (recovery_path env) (bytes_list S) fs2).
  { destruct b; [|exists fs1; split_and!; [done..|by apply (Hfile (Some S))]].
    destruct (store_recovery_quiet (recovery_path env) S fs1) as (fs2 & Hs & Hw2); [done| | |].
    - unfold in_directory. by rewrite Hrpar.
    - destruct Hb as [Hn|[S' HS']]; [left; by apply (Hfile None)|right]. exists S'. by apply (Hfile (Some S')).
    - exists fs2. split; [by apply on_fs_ok|]. split; [apply Hw2|]. split_and!; [| |apply Hw2].
      + eapply identity_is_kept; [exact Hw2|done|by rewrite Hrpar|done].
      + eapply (identity_is_kept q (Some B)); [exact Hw2|done|by rewrite Hrpar|done]. }
  destruct Hst as (fs2 & Hst & Hq2 & Ho2 & HB2 & HS2). exists fs2.
  destruct (recovery_finish_quiet fs2 Hq2 pr Ho2 HB2) as [fs' Hfin]. exists fs'. split_and!; [done|done| |].
  - apply recovery_finish_spec in Hfin as [_ Hfin]; [apply Hfin|by apply quiet_friendly].
  - by apply (recovery_finish_frame pr (recovery_path env) _ _ _ _ (quiet_friendly _ Hq2) Hrp Hrq HS2 Hfin).
Qed.

(** C9. A recovery can be completed: whatever identity the host's machine has, or
    none as on a new machine, with the secret in its file or typed in, once the
    disk, the link and the relay work, the command finds the claim that is enrolled
    with the secret's key, active or not, and answers its port; the new identity and
    the secret are in the host's files, and the relay has the claim under this
    identity. *)
Theorem recovery_completes S B q o id l fs s w server insecure backup now peer conn ending typed :
  state_reachable (stored := stored) s w → 0 ≤ now →
  (st_leases s).(leases) !! id = Some l → expired now l = false → Lease.recovery_id l = Some (from_token S) →
  quiet fs → offers S backup typed fs → identity_is path o fs → pending_path path = Ok q → ready q B fs →
  o ≠ Some B → persistence_healthy s = true → saves w → configured insecure →
  sends (RecoverIdentity S B) → sends (IdentityRecovered (Lease.port l)) →
  id = from_token B ∨ unused (from_token B) (reap_expired now (st_leases s)) ∧
    (lease_source l = Some (HostSource.from peer) ∨
     (source_count (HostSource.from peer) (reap_expired now (st_leases s)).(leases) < MAX_TUNNELS_PER_IP)%nat) →
  ∃ fs' n', recover_identity env server insecure backup
      (fs, link (s, w) (Delivered now peer conn None ending) typed) = (Ready (Ok (Lease.port l)), (fs', n')) ∧
    holds path (bytes_list B) fs' ∧ holds (recovery_path env) (bytes_list S) fs' ∧
    ∃ l', (st_leases (relay n').1).(leases) !! from_token B = Some l' ∧ Lease.port l' = Lease.port l ∧
      Lease.recovery_id l' = Some (from_token S).
Proof.
  intros Hreach Hnow Hl He Hk Hq Hoff Ho Hp Hr Hne Hh Hs Hcfg Hm1 Hm2 Hcase.
  pose proof (state_reachable_ok _ _ Hreach) as Hok. set (d := Delivered now peer conn None ending).
  destruct (recovery_accepted S B peer now s w id l) as (oc & s' & w' & Hrec); [done..|].
  destruct (recovery_secret_offered S backup fs (link (s, w) d typed) Hq Hoff) as (b & Hsec & Hb).
  destruct (prepare_recovery_quiet fs Hq path q o B Ho Hp Hr Hne) as (fs1 & Hprep & Hw).
  destruct (conversation server insecure (RecoverIdentity S B) "Relay closed before confirming recovery"
    fs1 (s, w) now peer conn ending typed (IdentityRecovered (Lease.port l)) (s', w') Hcfg Hm1 Hm2)
    as (quic & n' & Hquic & Hreq & Hn').
  { unfold answer, first_message, serve_recovery. cbn. by rewrite Hrec. }
  destruct (recovery_installed S B q o b fs fs1 n' Hp Hw Ho Hb) as (fs2 & fs' & Hst & Hfin & HB & HS).
  exists fs', n'. split_and!; [|done|done|].
  - unfold recover_identity. rewrite (CM_bind_run _ _ _ _ _ Hsec).
    rewrite (CM_bind_run _ _ _ _ _ (on_fs_ok _ _ _ _ _ Hprep)), (CM_bind_run _ _ _ _ _ Hquic).
    unfold recover_on_connection. cbn [rec_new_token]. rewrite (CM_bind_run _ _ _ _ _ Hreq).
    rewrite (CM_bind_run _ _ _ _ _ Hst). by rewrite (CM_bind_run _ _ _ _ _ (on_fs_ok _ _ _ _ _ Hfin)).
  - rewrite Hn'. destruct (recover_own _ _ _ _ _ _ _ _ _ _ Hok Hrec) as
      (id0 & l0 & l' & Hl0 & Hk0 & Hp0 & Hl' & Hp' & Hk').
    exists l'. by split_and!.
Qed.

(** ** A tunnel *)

(** The two private files are there, or can be made with the next tokens drawn. *)
Definition tokens_ready (A S : TunnelToken) fs : Prop := in_directory path fs ∧
  (holds path (bytes_list A) fs ∧ ready (recovery_path env) S fs ∨
   names fs !! path = None ∧ head fs.(entropy) = Some A ∧
   (holds (recovery_path env) (bytes_list S) fs ∨
    names fs !! recovery_path env = None ∧ head (tail fs.(entropy)) = Some S)).

Lemma tokens_loaded A S fs : quiet fs → tokens_ready A S fs → ∃ fs1 fs2,
  load_or_create env fs = (Ok A, fs1) ∧ load_or_create_recovery env fs1 = (Ok S, fs2) ∧
  holds path (bytes_list A) fs2 ∧ holds (recovery_path env) (bytes_list S) fs2.
Proof.
  intros Hq [Hd Hr]. destruct (recovery_path_other env) as [Hrp _].
  assert (Hpar : parent (recovery_path env) = parent path)
    by (unfold recovery_path, with_file_name, parent; by rewrite removelast_last).
  destruct (load_or_create_quiet path A fs Hq) as (fs1 & Hl1 & Hw1 & He1).
  { split; [done|]. destruct Hr as [[? _]|(? & ? & _)]; auto. }
  assert (Hfile : ∀ o, identity_is (recovery_path env) o fs → identity_is (recovery_path env) o fs1)
    by (intros o; by apply (identity_is_kept _ _ _ _ _ _ Hw1)).
  destruct (load_or_create_quiet (recovery_path env) S fs1) as (fs2 & Hl2 & Hw2 & _); [apply Hw1| |].
  { split; [unfold in_directory; rewrite Hpar; apply Hw1|].
    destruct Hr as [[HA [_ [HS|[Hn He]]]]|(HA & He & [HS|[Hn He']])].
    - left. by apply (Hfile (Some S)).
    - right. split; [by apply (Hfile None)|]. destruct HA as (f & HA & _). by rewrite He1, HA.
    - left. by apply (Hfile (Some S)).
    - right. split; [by apply (Hfile None)|]. by rewrite He1, HA. }
  exists fs1, fs2. split_and!; [done|done| |apply Hw2].
  apply (identity_is_kept path (Some A) _ _ _ _ Hw2); [done..|apply Hw1].
Qed.

(** The relay has room: for the identity's own claim in its grace period, or for a
    new claim on its first free port. *)
Definition admits (A S : TunnelToken) ip P t : Prop :=
  t.(next_session_id) + 1 ≤ U64_MAX ∧
  (∀ id l, t.(leases) !! id = Some l → Lease.recovery_id l = Some (from_token S) → id = from_token A) ∧
  match t.(leases) !! from_token A with
  | Some l => is_grace (Lease.status l) = true ∧ Lease.port l = P ∧
      (∀ k, Lease.recovery_id l = Some k → k = from_token S) ∧
      (lease_source l = Some (HostSource.from ip) ∨
       (source_count (HostSource.from ip) t.(leases) < MAX_TUNNELS_PER_IP)%nat)
  | None => ¬ retired_somewhere (from_token A) t.(leases) ∧ head (free_ports t) = Some P ∧
      (source_count (HostSource.from ip) t.(leases) < MAX_TUNNELS_PER_IP)%nat
  end.

Lemma registration_accepted A S ip P now conn s w : state_ok (stored := stored) s w →
  persistence_healthy s = true → binds w → admits A S ip P (reap_expired now (st_leases s)) →
  ∃ reg s' w', register_with_recovery A (Some (recovery_fingerprint S)) ip now conn (s, w) = (Ok reg, (s', w')) ∧
    public_port reg = P.
Proof.
  intros [Hinv _] Hh Hb (Hnext & Hkey & Hm). apply (reap_inv now) in Hinv as [Hwf _].
  assert (Hc : ∃ ports, candidates_of (from_token A) ip (reap_expired now (st_leases s)) (P :: ports) ∧
    ∀ l enrolled, (reap_expired now (st_leases s)).(leases) !! from_token A = Some l →
      Lease.recovery_id l = Some enrolled → enrolled = from_token S).
  { destruct ((reap_expired now (st_leases s)).(leases) !! from_token A) as [l|] eqn:El.
    - destruct Hm as (Hg & <- & Hk & Hroom). exists []. split; [|intros l' k [= <-]; apply Hk]. split.
      + intros (id & l' & Hl' & Hin). pose proof (wf_retired_dead _ (wf_leases _ Hwf) _ _ _ Hl' Hin). congruence.
      + by rewrite El.
    - destruct Hm as (Hnr & Hhead & Hroom). destruct (free_ports _) as [|p ports] eqn:Ef; [done|].
      injection Hhead as ->. exists ports. split; [|done]. split; [done|]. by rewrite El, Ef. }
  destruct Hc as (ports & Hc & Hk).
  eapply register_progress; [done|done|exact Hc|]. split_and!; [eexists; split; [exact Hc|by left]| | |done..].
  - cbn. intros k [= <-]. apply Hkey.
  - cbn. intros l enrolled presented Hl He [= <-]. by eapply Hk.
Qed.

(** C8. A tunnel comes up: with the disk, the link and the relay working, a host
    that has its private files, or is new and makes them, gets a tunnel; it is on
    the port of its own claim if the claim is kept, and else on the relay's first
    free port, and the relay has it active under the identity in the file, enrolled
    with the key of the secret in the file, on the connection. *)
Theorem tunnel_comes_up A S P fs s w server local_port insecure now peer conn ending typed :
  state_reachable (stored := stored) s w → quiet fs → tokens_ready A S fs →
  persistence_healthy s = true → binds w → admits A S peer P (reap_expired now (st_leases s)) →
  configured insecure → local_port ≠ 0 →
  sends (Register Tcp local_port A (recovery_fingerprint S)) → sends (TunnelReady P) →
  ∃ tunnel fs' n' l session, connect env server local_port insecure
      (fs, link (s, w) (Delivered now peer conn None ending) typed) = (Ready (Ok tunnel), (fs', n')) ∧
    holds path (bytes_list A) fs' ∧ holds (recovery_path env) (bytes_list S) fs' ∧
    (st_leases (relay n').1).(leases) !! from_token A = Some l ∧ Lease.port l = P ∧
    Lease.status l = Active session ∧ Lease.recovery_id l = Some (from_token S) ∧
    active_connections (relay n').1 !! from_token A = Some (session, conn).
Proof.
  intros Hreach Hq Hready Hh Hb Hadm Hcfg Hlp Hm1 Hm2.
  destruct (tokens_loaded A S fs Hq Hready) as (fs1 & fs2 & Hl1 & Hl2 & HA & HS).
  destruct (registration_accepted A S peer P now (Some conn) s w) as (reg & s' & w' & Hreg & Hport);
    [by apply state_reachable_ok|done..|].
  destruct (conversation server insecure (Register Tcp local_port A (recovery_fingerprint S))
    "Server closed before confirming tunnel" fs2 (s, w) now peer conn ending typed (TunnelReady P) (s', w')
    Hcfg Hm1 Hm2) as (quic & n' & Hquic & Hreq & Hn').
  { rewrite answer_register by done. by rewrite Hreg, Hport. }
  destruct (register_own _ _ _ _ _ _ _ _ _ _ Hreg) as (l & Hl & Hp & Hst & Hk & Hac & _).
  eexists _, fs2, n', l, (reg_session_id reg). rewrite Hn'. split_and!; [|done|done|done|congruence|done|done|done].
  unfold connect. rewrite (CM_bind_run _ _ _ _ _ (on_fs_ok _ _ _ _ _ Hl1)).
  rewrite (CM_bind_run _ _ _ _ _ (on_fs_ok _ _ _ _ _ Hl2)), (CM_bind_run _ _ _ _ _ Hquic).
  by rewrite (CM_bind_run _ _ _ _ _ Hreq).
Qed.
End commands.

(** ** Concrete instances *)

Section witnesses.
#[local] Existing Instances first_32 gmap_order posix_tempfile posix_laws posix_progress memory_store
  memory_network memory_laws plain_rustls small_codec w_wire w_link.

Definition w_lease_of (s : ServerState Memory) : Lease :=
  default (activated_lease None None (w_ip x00) 0 (MkSessionId 0)) ((st_leases s).(leases) !! w_holder).

Lemma sends_compute m : sendable m → is_ok (serialize m) = true → sends m.
Proof. intros Hm Hs. split; [done|]. destruct (serialize m) as [p|e]; [by exists p|done]. Qed.
Lemma in_directory_compute q fs :
  bool_decide (Forall (λ d, names fs !! d ∈ [None; Some DirN]) (prefixes (parent q))) = true → in_directory q fs.
Proof. by intros ?%bool_decide_eq_true_1. Qed.
Lemma memory_saves (w : Memory) : broken_store w = false → saves w.
Proof. intros Hw rs. cbn. rewrite Hw. by eexists. Qed.
Lemma memory_binds (w : Memory) : broken_store w = false → taken w = [] → binds w.
Proof. intros Hw Ht port. cbn. rewrite Ht. cbn. eexists _, _. split; [done|by apply memory_saves]. Qed.
Lemma unused_compute id t : bool_decide (t.(leases) !! id = None) && negb (any_lease (has_retired id) t) = true →
  unused id t.
Proof.
  intros [Hn Hr%negb_true_iff]%andb_true_iff. split; [by apply bool_decide_eq_true_1 in Hn|by apply any_retired_false].
Qed.

Definition w_pending : Path := ["home"; ".config"; "gamenet"; "identity.bin.pending"]%string.

Definition w_conn : Connection (W := Memory) := 7.

(** A new host on an empty relay. *)
Definition w_free : Memory := {| saved := []; broken_store := false; taken := [] |}.
Lemma w_free_reachable : state_reachable (stored := in_memory) (new_state LeaseTable_new) w_free.
Proof. apply sr_start; [apply lease_inv_new|done|done|exists 0; apply new_table_covers]. Qed.

Lemma admits_new A S ip P t : size t.(leases) = 0%nat → (t.(next_session_id) + 1 <=? U64_MAX) = true →
  head (free_ports t) = Some P → admits A S ip P t.
Proof.
  intros Hs%map_size_empty_inv Hn%Z.leb_le Hp. split; [done|]. rewrite Hs.
  split; [intros id l; by rewrite lookup_empty|]. rewrite lookup_empty. split_and!; [|done|
    unfold source_count, MAX_TUNNELS_PER_IP; rewrite map_to_list_empty; cbn; lia].
  intros (id & l & Hl & _). by rewrite lookup_empty in Hl.
Qed.

Lemma tunnel_comes_up_witness : ∃ tunnel fs' n',
  connect w_home "relay.example" 25565 false
    (w_disk0, link (new_state LeaseTable_new, w_free) (w_delivered 1000 (w_ip x01) 7 None Open) [])
  = (Ready (Ok tunnel), (fs', n')).
Proof.
  destruct (tunnel_comes_up (W := Memory) (stored := in_memory) (display := w_display) w_home
    (repeat_byte 32 x01) (repeat_byte 32 x02) 10000
    w_disk0 (new_state LeaseTable_new) w_free "relay.example" 25565 false 1000 (w_ip x01) w_conn Open [])
    as (tunnel & fs' & n' & l & session & Hrun & _).
  - apply w_free_reachable.
  - reflexivity.
  - split; [apply in_directory_compute; vm_compute; reflexivity|]. right. split_and!; [reflexivity..|].
    right. split; reflexivity.
  - reflexivity.
  - by apply memory_binds.
  - apply admits_new; vm_compute; reflexivity.
  - reflexivity.
  - lia.
  - apply sends_compute; [split; [unfold message_ok, u16_ok, U16_MAX; lia|exact I]|vm_compute; reflexivity].
  - apply sends_compute; [split; [unfold message_ok, u16_ok, U16_MAX; lia|exact I]|vm_compute; reflexivity].
  - by exists tunnel, fs', n'.
Defined.

(** The host of [HostProps] rotates its identity for the first time, after its
    tunnel ended. *)
Lemma w_idle_history : history (stored := in_memory) (display := w_display) w_home 10001
  w_disk1 w_relay2.1 w_relay2.2.
Proof.
  apply h_start; [constructor|apply w_relay2_reachable|].
  destruct (lease_compute (st_leases w_relay2.1) w_holder 10001) as (l & Hl & Hp); [vm_compute; reflexivity|].
  exists (repeat_byte 32 x01), (repeat_byte 32 x01), l. split_and!; [|exact Hl|exact Hp|by left].
  apply holds_compute. vm_compute. reflexivity.
Qed.

Lemma w_pending_ready : ready w_pending (repeat_byte 32 x03) w_disk1.
Proof.
  split; [apply in_directory_compute; vm_compute; reflexivity|]. right. split; vm_compute; reflexivity.
Qed.

Lemma w_lease_lookup s : bool_decide (is_Some ((st_leases s).(leases) !! w_holder)) = true →
  (st_leases s).(leases) !! w_holder = Some (w_lease_of s).
Proof. intros [l Hl]%bool_decide_eq_true_1. unfold w_lease_of. by rewrite Hl. Qed.

Lemma rotation_completes_witness : ∃ fs' n',
  rotate_identity w_home "relay.example" false
    (w_disk1, link (w_relay2.1, w_relay2.2) (w_delivered 3000 (w_ip x01) 7 None Open) [])
  = (Ready (Ok (Some 10001)), (fs', n')).
Proof.
  destruct (rotation_completes (stored := in_memory) (display := w_display) w_home 10001
    (repeat_byte 32 x01) (repeat_byte 32 x03) w_pending w_disk1 w_relay2.1 w_relay2.2 "relay.example" false
    3000 (w_ip x01) w_conn Open []) as (fs' & n' & Hrun & _).
  - apply w_idle_history.
  - apply live_compute. vm_compute. reflexivity.
  - lia.
  - vm_compute. reflexivity.
  - apply holds_compute. vm_compute. reflexivity.
  - reflexivity.
  - apply w_pending_ready.
  - vm_compute. discriminate.
  - vm_compute. reflexivity.
  - apply memory_saves. vm_compute. reflexivity.
  - reflexivity.
  - apply sends_compute; [by split|vm_compute; reflexivity].
  - apply sends_compute; [split; [cbn; unfold u16_ok, U16_MAX; lia|exact I]|vm_compute; reflexivity].
  - intros l Hl _. assert (l = w_lease_of w_relay2.1) as ->.
    { apply (inj Some). rewrite <- Hl. apply w_lease_lookup. vm_compute. reflexivity. }
    split_and!; [vm_compute; reflexivity..|]. apply unused_compute. vm_compute. reflexivity.
  - exists fs', n'. exact Hrun.
Defined.

(** A new machine: nothing on its disk, the code of the secret typed in, and the
    tunnel of the old machine still up. *)
Definition w_typed : str := format_recovery_code (repeat_byte 32 x02).
Definition w_empty_disk : Fs :=
  {| names := ∅; durable := ∅; schedule := []; entropy := [repeat_byte 32 x09] |}.

Lemma recovery_completes_witness : ∃ fs' n',
  recover_identity w_home "relay.example" false true
    (w_empty_disk, link (w_relay1.1, w_relay1.2) (w_delivered 5000 (w_ip x02) 7 None Open) w_typed)
  = (Ready (Ok (Lease.port (w_lease_of w_relay1.1))), (fs', n')).
Proof.
  destruct (recovery_completes (stored := in_memory) (display := w_display) w_home
    (repeat_byte 32 x02) (repeat_byte 32 x09) w_pending None w_holder (w_lease_of w_relay1.1) w_empty_disk
    w_relay1.1 w_relay1.2 "relay.example" false true 5000 (w_ip x02) w_conn Open w_typed)
    as (fs' & n' & Hrun & _).
  - apply w_relay1_reachable.
  - lia.
  - apply w_lease_lookup. vm_compute. reflexivity.
  - vm_compute. reflexivity.
  - vm_compute. reflexivity.
  - reflexivity.
  - right. split; [vm_compute; reflexivity|left; reflexivity].
  - reflexivity.
  - reflexivity.
  - split; [apply in_directory_compute; vm_compute; reflexivity|]. right. split; reflexivity.
  - discriminate.
  - vm_compute. reflexivity.
  - apply memory_saves. vm_compute. reflexivity.
  - reflexivity.
  - apply sends_compute; [by split|vm_compute; reflexivity].
  - apply sends_compute; [split; [vm_compute; split; discriminate|exact I]|vm_compute; reflexivity].
  - right. split; [apply unused_compute; vm_compute; reflexivity|]. right. apply Nat.ltb_lt. vm_compute. reflexivity.
  - exists fs', n'. exact Hrun.
Defined.
End witnesses.
